(* ===== verification/_CoqProject ===== *)
-Q . S2P
Prelude.v
DateTime.v
Calendar.v
DateText.v
Buf.v
BufAdapters.v
RustVec.v
BufMut.v
Forward.v
BytesFmt.v
Mem.v
BytesMut.v
Bytes.v
Vtables.v
World.v
BytesMutSpec.v
BytesMutGrow.v
BytesMutOps.v
BytesSpec.v
BytesConv.v
BytesMutClient.v
BytesMutProps.v
BytesProps.v
BytesCmp.v
RefCount.v
OwnedCount.v
OwnerLife.v
BytesClient.v
BufBytes.v
HandleBuf.v
Views.v
Hashing.v
Promote.v
Date.v
DateRace.v
Sync.v
AtomicCell.v
Layout.v
Stack.v
Accessors.v
Runtime.v
Park.v
Handles.v
Join.v
