(* ===== verification/Prelude.v ===== *)
(** * Verification of the chiya workspace

    chiya is a Rust workspace of three crates for a web server: [bytes] (buffers
    that share memory, and the traits to read and write them), [date] (HTTP dates)
    and [coroutine] (stackful coroutines).  This development models [bytes], [date] and
    what the repository has of [coroutine], proves what makes them correct, and,
    where the code does not do what it means to, what it does instead.

    ** How the source is translated

    - A function that can panic is a computation [comp A]: a value, or a [stop]
      ([SPanic] with its cause, [SAbort], [SUndef] for undefined behaviour, [SFuel]
      for a loop out of fuel).  Code on the heap is [M A := heap -> comp (A * heap)],
      code on another state [stm S A := S -> comp (A * S)] with the rules of [wps].
    - Threads that interleave are a step relation; a step is one access to what they
      share, or what runs under a mutex.
    - A value behind [&mut self] is passed and returned.  A trait is a class of
      operations ([BufCore], [BufMutCore], ...) with a second class for its contract
      ([BufLaws], [BufMutLaws]); an [impl] is an instance of the first, and the proof
      that it keeps the contract an instance of the second.  Clients are proved
      against the contract.
    - Machine integers are [Z] with their width written out.  [Build] is the
      profile: overflow is checked and [debug_assert!] runs in a debug build, and
      arithmetic wraps in a release build.  Theorems without a fixed profile hold in
      both.
    - Loops that are not structural take fuel; the theorem about such a loop says
      how much is enough (the number of bytes left to copy, for [put] and
      [copy_to_slice]) and that the loop then returns.

    ** The files

    - [Prelude]: computations, integers, bytes and slices, shared lemmas and tactics.
    - [DateTime], [Calendar], [DateText]: [date/src/date_time.rs].  [DateTime] has the
      two [From] impls to and from [SystemTime], [Display], the three parsers of
      [FromStr], [is_valid] and [Ord]; [Calendar] defines the Gregorian calendar by
      counting days and relates the arithmetic to it; [DateText] is about the text
      formats.
    - [Date]: [date/src/lib.rs] and [date_time_error.rs], the cached date as a
      sequence of updates and reads; [DateRace]: the accesses of its thread and of the
      readers, byte by byte.
    - [Buf], [BufAdapters]: [bytes/src/buf/buf_impl.rs] with all the [get_*] methods,
      [take.rs], [chain.rs], [iter.rs], [reader.rs], [vec_deque.rs].
    - [RustVec], [BufMut]: the part of [Vec<u8>] in use, [buf_mut.rs] with all the
      [put_*] methods, [limit.rs], [writer.rs], [uninit_slice.rs], and the writing side
      of [chain.rs].
    - [Forward]: the methods that [buf_impl.rs] and [buf_mut.rs] forward through
      references and boxes.
    - [BytesFmt]: [bytes/src/fmt].
    - [Mem]: a heap of allocations, pointers with provenance, raw vectors and
      boxes.  The allocator is a parameter with the contract of [GlobalAlloc]
      ([AllocatorLaws]); [bump] meets it.
    - [BytesMut]: [bytes/src/bytes_mut.rs]; [Bytes]: [bytes/src/bytes.rs], its
      function tables, and the one of [bytes_mut.rs] with [freeze].  [Vtables]: the
      tables as records of functions, and the unit tests of [bytes_mut.rs].
    - [World]: the invariant.  [live L h] says that the heap [h] holds exactly what
      the handles of the list [L] own, that each handle shows the byte string it is
      paired with, that a handle that writes shares no byte with another, and that
      every reference count is the number of handles.
    - [BytesMutSpec], [BytesMutGrow], [BytesMutOps]: every operation of [BytesMut]
      keeps [live], and what it does to the byte strings.  [BytesSpec], [BytesConv]:
      the same for [Bytes].
    - [BytesMutClient]: programs over [BytesMut] handles, the abstract machine of
      independent byte strings they refine, and the simulation.
    - [BytesClient]: the same for programs that mix [BytesMut] and [Bytes] handles;
      [allowed] is what they must not call on which [Bytes].
    - [BufBytes]: [Buf::copy_to_bytes] of the trait, of [Take] and of [Chain], with the
      contract [ToBytesLaws] that ties readers to [Bytes] handles.
    - [HandleBuf]: [Bytes] and [BytesMut] as readers, alone and under [Take] and [Chain]
      ([HBuf], with the contract [HBufLaws]): reading integers, [put] from them, the
      iterators by value, [FromIterator] and [Extend<Bytes>].
    - [Views]: [Deref], [AsRef], iterators by reference, [Default], the [From] impls that
      call another constructor, and [write_fmt].
    - [Hashing]: [Hash] and [Borrow] of the handles, and [coroutine/src/id_hasher.rs].
    - [BytesMutProps], [BytesProps], [BytesCmp]: the theorems about the handles;
      [BytesCmp] also has the comparison impls.
    - [RefCount]: the three functions on the reference count of [bytes_mut.rs] between
      threads, with the memory orders of the source, in a machine with release/acquire
      memory that records every access to the buffer; in one thread they are the operations
      of [BytesMut] ([run_sequential]).
    - [OwnedCount]: the count of [Owned] in [bytes.rs] in the same machine, simulated by
      the count of [RefCount]; [OwnerLife]: [Bytes::from_owner] for any type of owner.
    - [Promote]: threads that clone one [Bytes] of a boxed slice, interleaved at their
      accesses to its word [data]; one thread alone is [promotable_clone] of [Bytes]
      ([clone_alone_promotable]).
    - [Sync]: [coroutine/src/sync], the backoff, the sequence lock and the atomic
      cell that falls back to it, as a step relation over interleaved threads.
    - [AtomicCell]: the values that [atomic_cell.rs] moves and drops, and its
      [fetch_update] under interference.
    - [Layout]: the C structures of [stack/unix/x86_64.rs] and [si_addr].
    - [Stack]: [coroutine/src/stack], the mappings of a process, the stacks in them and
      the first frame; [System] is the operating system, [SystemLaws] what is relied
      on, and [Linux.linux] an instance.
    - [Accessors]: the constructors and accessors of the adapters ([Adapter], with
      [AdapterLaws]), the rest of [uninit_slice.rs], [bytes/src/lib.rs], [quick.rs],
      [atomic_unit.rs], and [Register::prefetch].
    - [Runtime]: [runtime.rs], [guard.rs], [coroutine_local.rs], [done] and
      [get_coroutine_para] of [yield_now.rs], and the handler of [overflow.rs].
    - [Park]: [park.rs], [cancel.rs], [blocker.rs], [thread_park.rs], [atomic_option.rs].
    - [Handles]: [Inner] and [Coroutine] of [lib.rs], the settings of [builder.rs], the
      record of [join_handle.rs]; handles are pointers, and clones share the park and the
      cancel behind them.
    - [Join]: [join.rs], [join_handle.rs], [done.rs], [run_coroutine] of [lib.rs] and the
      closure of [spawn_impl] in [builder.rs].

    ** What is shown

    - A program over [BytesMut] handles behaves as if each handle were a byte string
      of its own, without undefined behaviour in both profiles, and frees everything
      ([bytes_mut_refines], [bytes_mut_no_leak]); single operations have their exact
      effect ([reserve_spec], [split_off_unsplit], [into_vec_spec], ...).  These hold
      for any allocator; a program stops early only with [SAbort] (the allocator
      refuses, or a count overflows), with the capacity panic of [Vec], or with the
      panic its arguments call for.  The sizes by which a program grows a handle are at
      most [isize::MAX] ([cmd_ok]): beyond, [reserve] stops, or wraps around in a release
      build ([reserve_spec], [reserve_wraps]).
    - The same holds for programs that also freeze, clone, split, slice and thaw
      [Bytes] handles, those of an owner too, up to the first call that [bytes.rs] gets
      wrong ([allowed]; [bytes_refines], [bytes_no_leak]).
    - [freeze], [clone], [split_off], [slice] and the conversions of [Bytes] keep the
      same invariant where the function table is right; [shared_clone_use_after_free]
      shows the table for which [clone] is not, and further theorems of [BytesProps]
      and [BytesCmp] show the conversions, [slice_ref] and the comparisons that go
      wrong.
    - Between threads, the count of a [Shared] of [bytes_mut.rs] is exact and does not
      wrap, the buffer is freed once, after its last use, and no two accesses to it race
      ([shared_count_safe], [shared_race_free]).
    - The handles of an owner: each owner is dropped once, when its last handle goes, or
      never when a handle became a [Vec] ([owner_dropped_once]).  Between threads the count
      is exact ([owned_count_exact]), but the relaxed orders of [owned_drop_impl] let the
      drop of the owner race with the last reads ([owned_drop_races]).
    - Calling through a table is what the methods of [Bytes] do ([dispatch_table]).
    - Readers and writers: any nesting of adapters delivers or stores exactly its
      content, integers survive a round trip through any of them, and the methods
      panic exactly when there is too little room or data.  [get_int] and
      [Chain::chunks_vectored] are shown with the result they really have.
    - The same readers over handles on the heap, which also release what they own when
      they are used up: collecting one gives back its bytes and nothing else stays
      allocated ([collect_roundtrip], [handles_read]).  Equal handles hash alike, and a
      handle like the slice it borrows as ([hash_agrees]).
    - Clones of one boxed slice by several threads promote it exactly once and leave no
      box behind; the count they leave is 2 whatever their number ([promote_once]).
    - Dates: [SystemTime::from] is right for every valid date; [DateTime::from] is,
      from 1970 to the end of 9999 and it panics outside, right in every field but the
      year, whose formula is proved as written; the
      order is chronological; no string is ever accepted by [FromStr].  The cached date
      is read while it is written, and a reader can append a date that was never current
      ([date_torn]).
    - Locks: the words a load of an atomic cell returns come from stores, and a
      cell used by one thread is a cell; the lock itself excludes nobody, and
      [Backoff] never completes ([seq_lock_excludes_nobody],
      [backoff_never_completes]).  [fetch_update] is atomic and ends, and a cell
      neither leaks nor duplicates its values.
    - Stacks: an allocation is fresh, guarded and given back exactly, and panics only in
      a debug build with a limit below two pages; [Stack::new] writes outside of it
      ([stack_allocate_drop], [st_new_writes_above]).
    - Waiting: a thread park is a token, which a call that times out can lose; a parked
      coroutine is woken exactly once ([thread_park_refines], [timed_out_park_loses_token],
      [woken_exactly_once]).  A join by one that is not cancelled and whose blocker has no
      token ends with the outcome of its coroutine in every interleaving
      ([join_returns_outcome]); two waiters, a token left by an earlier join, or a
      cancelled joiner break it ([two_waiters_stuck], [second_join_can_cancel],
      [cancelled_join_returns_early]).
    - Handles: whatever is done through however many clones, a handle shows its own
      coroutine, and a waiting coroutine is handed over by the first [unpark] or [cancel]
      and once only ([handles_refine]).
    - C structures: [si_addr] reads beyond the structure it is given ([si_addr_beyond]).
    - Contexts: the searches for the current coroutine end and agree, and parameters
      are typed; the signal handler restores the wrong action.

    ** What is not modelled

    - [RefCount] has one [Shared] and its buffer as a range of bytes; what the bytes hold
      is the subject of the sequential files, where reference counts are read and
      written one operation at a time.  Of the counts of [bytes.rs], between
      threads the promotion and the count of [Owned] are considered, and that of its
      [Shared] is not (its [clone] does not count, [shared_clone_use_after_free]).
      [Promote], [DateRace], [Sync], [Park], [Handles] and [Join] interleave in one order
      of the accesses (no weak memory).
    - [Bytes::from_owner] is modelled on the heap of [Mem] for an owner that is a
      [Vec<u8>], and for any owner in [OwnerLife], where the slice is a value and dropping
      an owner does not panic.
    - Of [coroutine], what needs code the repository does not have: the scheduler and
      the pool, [CoroutineImpl], pushing and popping contexts, and the switch between
      them, which is assembly.  [take] and [store] of [AtomicOption], [park] and
      [unpark] of [Blocker], [atomic_swap] and [atomic_compare_exchange_weak] are
      parameters with laws; what is handed to the scheduler is recorded.
      [spawn] and [spawn_impl] of [builder.rs] use a variable that is not bound and an
      [if] without a value besides; of them only the closure that a coroutine runs and
      the join resource are modelled, in [Join].  When a coroutine suspends itself is not
      in the sources either: [Park] and [Handles] start from coroutines that wait.
    - Source that does not compile is modelled as it is meant where this is plain, with a
      comment: [ThreadPark::park_timeout] goes on with the guard that [wait] returns, and
      [set_panic_data] stores the data of the panic.
    - A closure [FnMut] is a pure function ([fetch_update]); the classes [Buf] and [BufMut]
      have no fields for the [get_*] and [put_*] methods, which no [impl] overrides.
    - The texts of [Debug], other than those of [bytes/src/fmt]; attributes, imports and
      re-exports. *)

From stdpp Require Import relations.
From stdpp Require Export base list gmap numbers option.
From coqutil Require Export Byte.
From coqutil Require Import Word.LittleEndianList.
From Stdlib Require Export ZArith Lia.
From Stdlib Require String.
Export String.StringSyntax.

#[global] Open Scope Z_scope.
#[global] Set Default Proof Using "Type".

(** ** Outcomes of a Rust computation

    A computation returns a value or stops.  It stops by a panic (with its
    cause), by [std::process::abort], because it has undefined behaviour, or,
    in a model of a loop, because the loop ran out of the fuel it was given. *)

(** [coroutine/src/error.rs] *)
Inductive Error : Set := Done | Cancel | TypeErr | StackErr | ContextErr.

Inductive panic : Set :=
| POverflow                       (** an arithmetic overflow check *)
| PAssert                         (** [assert!] or [assert_eq!] *)
| PDebugAssert                    (** [debug_assert!] and its variants *)
| PIndex                          (** a slice index or range out of bounds *)
| PExpect                         (** [expect] or [unwrap] on the wrong variant *)
| PUnreachable                    (** [unreachable!] *)
| PExplicit                       (** [panic!] with a message of its own *)
| PCapacity                       (** "capacity overflow" of [Vec] *)
| PAdvance (idx len : Z)          (** [panic_advance] *)
| PDoesNotFit (size nbytes : Z)   (** [panic_does_not_fit] *)
| PAny (e : Error).               (** [panic_any] *)

Inductive stop : Set :=
| SPanic (p : panic)
| SAbort
| SUndef
| SFuel.

Inductive comp (A : Type) : Type :=
| Ret (a : A)
| Stop (s : stop).
Arguments Ret {A} _.
Arguments Stop {A} _.

Abbreviation Panic p := (Stop (SPanic p)).

#[global] Instance error_eq_dec : EqDecision Error.
Proof. solve_decision. Defined.
#[global] Instance panic_eq_dec : EqDecision panic.
Proof. solve_decision. Defined.
#[global] Instance stop_eq_dec : EqDecision stop.
Proof. solve_decision. Defined.

#[global] Instance comp_ret : MRet comp := @Ret.
#[global] Instance comp_bind : MBind comp := λ A B f c,
  match c with Ret a => f a | Stop s => Stop s end.

(** [Result<T, E>] of Rust. *)
Inductive result (A E : Type) : Type :=
| Ok (a : A)
| Err (e : E).
Arguments Ok {A E} _.
Arguments Err {A E} _.

(** [c] meets [Q] if it returns, and stops only as [E] allows. *)
Definition wp {A} (c : comp A) (E : stop → Prop) (Q : A → Prop) : Prop :=
  match c with Ret a => Q a | Stop s => E s end.

Lemma wp_bind {A B} (c : comp A) (f : A → comp B) E Q :
  wp c E (λ a, wp (f a) E Q) → wp (c ≫= f) E Q.
Proof. by destruct c. Qed.

Lemma wp_mono {A} (c : comp A) (E E' : stop → Prop) (Q Q' : A → Prop) :
  wp c E Q → (∀ s, E s → E' s) → (∀ a, Q a → Q' a) → wp c E' Q'.
Proof. destruct c; simpl; auto. Qed.

Lemma bind_Ret_inv {A B} (c : comp A) (f : A → comp B) b :
  c ≫= f = Ret b → ∃ a, c = Ret a ∧ f a = Ret b.
Proof. destruct c; simpl; eauto; discriminate. Qed.

(** Splits a successful run [H : c ≫= f = Ret b] into the runs it is made of. *)
Ltac comp_inv H :=
  let a := fresh "a" in let H1 := fresh "Hrun" in let H2 := fresh "Hrun" in
  apply bind_Ret_inv in H as (a & H1 & H2).

(** ** Computations with a state

    A stateful computation of the crates is a function from the state it starts in;
    [wps] is its weakest precondition. *)

Definition stm (S A : Type) : Type := S → comp (A * S).

#[global] Instance stm_ret {S} : MRet (stm S) := λ A a s, Ret (a, s).
#[global] Instance stm_bind {S} : MBind (stm S) := λ A B f m s, '(a, s') ← m s; f a s'.

Definition st_lift {S A} (c : comp A) : stm S A := λ s, a ← c; Ret (a, s).
Definition stop_st {S A} (x : stop) : stm S A := λ _, Stop x.
Definition gets {S A} (f : S → A) : stm S A := λ s, Ret (f s, s).
Definition modify {S} (f : S → S) : stm S () := λ s, Ret ((), f s).

Definition wps {S A} (m : stm S A) (s : S) (E : stop → Prop) (Q : A → S → Prop) : Prop :=
  wp (m s) E (λ '(a, s'), Q a s').

Section stateful.
Context {S A B : Type}.
Implicit Types (m : stm S A) (f : A → stm S B) (s : S).

Lemma wps_bind m f s E Q : wps m s E (λ a s', wps (f a) s' E Q) → wps (m ≫= f) s E Q.
Proof. unfold wps. intros Hm. apply wp_bind. by destruct (m s) as [[a s']|]. Qed.

Lemma wps_ret (a : A) s E (Q : A → S → Prop) : Q a s → wps (mret a) s E Q.
Proof. done. Qed.

Lemma wps_mono m s E (Q Q' : A → S → Prop) :
  wps m s E Q → (∀ a s', Q a s' → Q' a s') → wps m s E Q'.
Proof. unfold wps. intros Hm HQ. eapply wp_mono; [exact Hm|done|]. intros []; auto. Qed.

Lemma wps_no_stop m s E (Q : A → S → Prop) : wps m s (λ _, False) Q → wps m s E Q.
Proof. unfold wps. intros Hm. by eapply wp_mono. Qed.

Lemma wps_lift (c : comp A) a s E (Q : A → S → Prop) : c = Ret a → Q a s → wps (st_lift c) s E Q.
Proof. by intros ->. Qed.

Lemma wps_val m s s' a E (Q : A → S → Prop) : m s = Ret (a, s') → Q a s' → wps m s E Q.
Proof. unfold wps. by intros ->. Qed.

Lemma stm_bind_ret m f s a s' : m s = Ret (a, s') → (m ≫= f) s = f a s'.
Proof. unfold mbind, stm_bind. by intros ->. Qed.

Lemma stm_bind_stop m f s x : m s = Stop x → (m ≫= f) s = Stop x.
Proof. unfold mbind, stm_bind. by intros ->. Qed.

Lemma stm_bind_lift (c : comp A) f s a : c = Ret a → (st_lift c ≫= f) s = f a s.
Proof. unfold mbind, stm_bind, st_lift. by intros ->. Qed.
End stateful.

(** ** Lists up to the order *)

(** A list with one element replaced, up to the order. *)
Lemma insert_head {A} (l : list A) i x : l !! i = Some x → ∃ l', l ≡ₚ x :: l' ∧ ∀ y, <[i := y]> l ≡ₚ y :: l'.
Proof.
  intros Hi. exists (take i l ++ drop (S i) l). split.
  - rewrite <-(take_drop_middle l i x) at 1 by done. by rewrite <-Permutation_middle.
  - intros y. rewrite insert_take_drop by (by eapply lookup_lt_Some). by rewrite <-Permutation_middle.
Qed.

(** ** Step relations *)

(** What holds at the start and is kept by every step holds where a run ends. *)
Lemma rtc_invariant {S} (R : relation S) (I : S → Prop) x y :
  I x → (∀ a b, rtc R x a → I a → R a b → I b) → rtc R x y → I y.
Proof. intros Hx Hs Hr. revert y Hr. apply rtc_ind_r; [done|]. eauto. Qed.

(** A relation whose steps decrease a number terminates. *)
Lemma sn_measure {S} (R : relation S) (f : S → nat) x :
  (∀ a b, R a b → (f b < f a)%nat) → sn R x.
Proof.
  intros Hf. remember (f x) as n eqn:E. revert x E. induction (lt_wf n) as [n _ IH]. intros x ->.
  constructor. intros y Hy. eapply IH; [apply Hf, Hy|done].
Qed.

(** ** Machine integers

    An unsigned integer of width [w] is a [Z] in [0 .. 2^w - 1], a signed one a
    [Z] in [-2^(w-1) .. 2^(w-1) - 1].  Whether an overflow panics or wraps
    around depends on the build: [debug_assertions] stands for a debug build,
    where both overflow checks and [debug_assert!] are on; a release build has
    neither.  Every definition that depends on it takes it as a class argument,
    so that the theorems hold for both builds. *)

Class Build := debug_assertions : bool.

Definition debug_build : Build := true.
Definition release_build : Build := false.

Definition uwrap (w z : Z) : Z := z mod 2 ^ w.
Definition swrap (w z : Z) : Z := (z + 2 ^ (w - 1)) mod 2 ^ w - 2 ^ (w - 1).

Definition is_unsigned (w z : Z) : Prop := 0 ≤ z < 2 ^ w.
Definition is_signed (w z : Z) : Prop := - 2 ^ (w - 1) ≤ z < 2 ^ (w - 1).

Definition u8_max : Z := 2 ^ 8 - 1.
Definition usize_max : Z := 2 ^ 64 - 1.
Definition isize_max : Z := 2 ^ 63 - 1.

Abbreviation is_usize := (is_unsigned 64).

Section arith.
Context `{Build}.

(** The result [z] of an arithmetic operation at unsigned width [w]. *)
Definition unsigned_op (w z : Z) : comp Z :=
  if (0 <=? z) && (z <? 2 ^ w) then Ret z
  else if debug_assertions then Panic POverflow else Ret (uwrap w z).

Definition add_w (w a b : Z) : comp Z := unsigned_op w (a + b).
Definition sub_w (w a b : Z) : comp Z := unsigned_op w (a - b).

Definition usize_add : Z → Z → comp Z := add_w 64.
Definition usize_sub : Z → Z → comp Z := sub_w 64.

Definition debug_assert (b : bool) : comp () :=
  if debug_assertions then (if b then Ret () else Panic PDebugAssert) else Ret ().

Lemma unsigned_op_in w z : 0 ≤ z < 2 ^ w → unsigned_op w z = Ret z.
Proof.
  intros [??]. unfold unsigned_op.
  by rewrite (proj2 (Z.leb_le 0 z)), (proj2 (Z.ltb_lt z _)).
Qed.

Lemma usize_add_in a b : 0 ≤ a + b < 2 ^ 64 → usize_add a b = Ret (a + b).
Proof. apply unsigned_op_in. Qed.

Lemma usize_sub_in a b : 0 ≤ a - b < 2 ^ 64 → usize_sub a b = Ret (a - b).
Proof. apply unsigned_op_in. Qed.

Lemma debug_assert_true b : b = true → debug_assert b = Ret ().
Proof. intros ->. unfold debug_assert. by destruct debug_assertions. Qed.
End arith.

Definition rust_assert (b : bool) : comp () := if b then Ret () else Panic PAssert.

Definition checked_add (w a b : Z) : option Z :=
  if a + b <? 2 ^ w then Some (a + b) else None.
Definition checked_sub (a b : Z) : option Z :=
  if b <=? a then Some (a - b) else None.
Definition saturating_add (w a b : Z) : Z := Z.min (a + b) (2 ^ w - 1).
Definition saturating_sub (a b : Z) : Z := Z.max (a - b) 0.

(** ** Bytes and slices

    A byte is [Byte.byte]; [byte.unsigned] and [byte.of_Z] convert it to and
    from its value.  A slice is a list; its length and its indices are [usize]
    values, so that [zlen], [ztake] and [zdrop] work on [Z]. *)

#[global] Instance byte_eq_decision : EqDecision byte := Byte.byte_eq_dec.
#[global] Instance byte_inhabited : Inhabited byte := populate Byte.x00.

Definition bstr (s : String.string) : list byte := String.list_byte_of_string s.
Arguments bstr s%_string_scope.

Definition zlen {A} (l : list A) : Z := Z.of_nat (length l).
Definition ztake {A} (n : Z) (l : list A) : list A := take (Z.to_nat n) l.
Definition zdrop {A} (n : Z) (l : list A) : list A := drop (Z.to_nat n) l.

(** [&l[i..j]], which panics when the range is not inside the slice. *)
Definition slice {A} (l : list A) (i j : Z) : comp (list A) :=
  if (i <=? j) && (j <=? zlen l) then Ret (ztake (j - i) (zdrop i l))
  else Panic PIndex.

(** [l[i]] *)
Definition index {A} (l : list A) (i : Z) : comp A :=
  match (if 0 <=? i then l !! Z.to_nat i else None) with
  | Some x => Ret x
  | None => Panic PIndex
  end.

Section slices.
Context {A : Type}.
Implicit Types l k : list A.

Lemma zlen_nonneg l : 0 ≤ zlen l.
Proof. unfold zlen. lia. Qed.

Lemma zlen_app l k : zlen (l ++ k) = zlen l + zlen k.
Proof. unfold zlen. rewrite length_app. lia. Qed.

Lemma zlen_ztake n l : 0 ≤ n → zlen (ztake n l) = Z.min n (zlen l).
Proof. unfold zlen, ztake. rewrite length_take. lia. Qed.

Lemma zlen_zdrop n l : 0 ≤ n → zlen (zdrop n l) = Z.max 0 (zlen l - n).
Proof. unfold zlen, zdrop. rewrite length_drop. lia. Qed.

Lemma ztake_zdrop n l : ztake n l ++ zdrop n l = l.
Proof. apply take_drop. Qed.

Lemma ztake_all n l : zlen l ≤ n → ztake n l = l.
Proof. unfold zlen, ztake. intros. apply take_ge. lia. Qed.

Lemma zdrop_all n l : zlen l ≤ n → zdrop n l = [].
Proof. unfold zlen, zdrop. intros. apply drop_ge. lia. Qed.

Lemma zdrop_0 l : zdrop 0 l = l.
Proof. done. Qed.

Lemma ztake_0 l : ztake 0 l = [].
Proof. done. Qed.

Lemma zdrop_zdrop n m l : 0 ≤ n → 0 ≤ m → zdrop n (zdrop m l) = zdrop (m + n) l.
Proof. intros. unfold zdrop. rewrite drop_drop. f_equal. lia. Qed.

Lemma ztake_ztake n m l : 0 ≤ n ≤ m → ztake n (ztake m l) = ztake n l.
Proof. intros. unfold ztake. rewrite take_take. f_equal. lia. Qed.

Lemma zdrop_ztake n m l : 0 ≤ n ≤ m → zdrop n (ztake m l) = ztake (m - n) (zdrop n l).
Proof. intros. unfold ztake, zdrop. rewrite skipn_firstn_comm. f_equal. lia. Qed.

Lemma ztake_app_le n l k : n ≤ zlen l → ztake n (l ++ k) = ztake n l.
Proof. unfold zlen, ztake. intros. apply take_app_le. lia. Qed.

Lemma ztake_app_ge n l k :
  zlen l ≤ n → ztake n (l ++ k) = l ++ ztake (n - zlen l) k.
Proof.
  unfold zlen, ztake. intros. rewrite take_app_ge by lia. do 2 f_equal. lia.
Qed.

Lemma zdrop_app_le n l k : n ≤ zlen l → zdrop n (l ++ k) = zdrop n l ++ k.
Proof. unfold zlen, zdrop. intros. apply drop_app_le. lia. Qed.

Lemma zdrop_app_ge n l k : zlen l ≤ n → zdrop n (l ++ k) = zdrop (n - zlen l) k.
Proof. unfold zlen, zdrop. intros. rewrite drop_app_ge by lia. f_equal. lia. Qed.

Lemma ztake_app_exact l k : ztake (zlen l) (l ++ k) = l.
Proof. rewrite ztake_app_le by done. by apply ztake_all. Qed.

Lemma zdrop_app_exact l k : zdrop (zlen l) (l ++ k) = k.
Proof. rewrite zdrop_app_ge, Z.sub_diag by done. done. Qed.

(** Taking [n + m] elements is taking [n], then [m] of the rest. *)
Lemma ztake_add n m l :
  0 ≤ n → 0 ≤ m → ztake (n + m) l = ztake n l ++ ztake m (zdrop n l).
Proof.
  intros. unfold ztake, zdrop.
  by rewrite Z2Nat.inj_add, take_take_drop.
Qed.

(** A split whose first part is as long as [n] allows is the split at [n]. *)
Lemma split_at l xs ys n :
  0 ≤ n → l = xs ++ ys → zlen xs = Z.min n (zlen l) → ztake n l = xs ∧ zdrop n l = ys.
Proof.
  intros Hn -> Hx. rewrite zlen_app in Hx. pose proof (zlen_nonneg ys).
  destruct (Z.le_ge_cases n (zlen xs)).
  - replace n with (zlen xs) by lia. by rewrite ztake_app_exact, zdrop_app_exact.
  - assert (zlen ys = 0 ∨ n = zlen xs) as [Hy | ->] by lia.
    + destruct ys; [|unfold zlen in Hy; simpl in Hy; lia].
      rewrite app_nil_r. by rewrite ztake_all, zdrop_all.
    + by rewrite ztake_app_exact, zdrop_app_exact.
Qed.

Lemma slice_in l i j :
  0 ≤ i ≤ j → j ≤ zlen l → slice l i j = Ret (ztake (j - i) (zdrop i l)).
Proof.
  intros. unfold slice.
  by rewrite (proj2 (Z.leb_le i j)), (proj2 (Z.leb_le j _)) by lia.
Qed.

Lemma zlen_nil_inv l : zlen l = 0 → l = [].
Proof. destruct l; [done|]. unfold zlen. simpl. lia. Qed.
End slices.

(** ** Strings

    [str::from_utf8] accepts exactly the well-formed UTF-8 sequences (table
    3-7 of the Unicode standard). *)

Definition in_range (lo hi : Z) (b : byte) : bool :=
  (lo <=? byte.unsigned b) && (byte.unsigned b <=? hi).

Definition is_cont : byte → bool := in_range 128 191.

Fixpoint utf8_valid (l : list byte) : bool :=
  match l with
  | [] => true
  | b0 :: l1 =>
    if in_range 0 127 b0 then utf8_valid l1 else
    match l1 with
    | [] => false
    | b1 :: l2 =>
      if in_range 194 223 b0 then is_cont b1 && utf8_valid l2 else
      match l2 with
      | [] => false
      | b2 :: l3 =>
        if in_range 224 239 b0 then
          in_range (if byte.unsigned b0 =? 224 then 160 else 128)
                   (if byte.unsigned b0 =? 237 then 159 else 191) b1
          && is_cont b2 && utf8_valid l3
        else
        match l3 with
        | [] => false
        | b3 :: l4 =>
          in_range 240 244 b0
          && in_range (if byte.unsigned b0 =? 240 then 144 else 128)
                      (if byte.unsigned b0 =? 244 then 143 else 191) b1
          && is_cont b2 && is_cont b3 && utf8_valid l4
        end
      end
    end
  end.

Definition is_ascii (l : list byte) : bool := forallb (in_range 0 127) l.

Lemma utf8_valid_ascii l : is_ascii l = true → utf8_valid l = true.
Proof.
  induction l as [|b l IH]; [done|]. cbn [is_ascii forallb].
  intros [Hb Hl]%andb_prop. cbn [utf8_valid]. rewrite Hb. by apply IH.
Qed.

(** [str::trim] on an ASCII string: [char::is_whitespace] holds of U+0009 to
    U+000D and of the space. *)
Definition is_whitespace (b : byte) : bool := in_range 9 13 b || in_range 32 32 b.

Fixpoint trim_start (l : list byte) : list byte :=
  match l with
  | b :: l' => if is_whitespace b then trim_start l' else l
  | [] => []
  end.
Definition trim (l : list byte) : list byte := reverse (trim_start (reverse (trim_start l))).

(** The [?] operator: goes on with the value of an [Ok], returns an [Err]. *)
Definition try_bind {A B E} (c : comp (result A E)) (f : A → comp (result B E))
    : comp (result B E) :=
  r ← c; match r with Ok a => f a | Err e => Ret (Err e) end.

Notation "x '←?' c ; k" := (try_bind c (λ x, k))
  (at level 20, c at level 100, k at level 200) : stdpp_scope.

(** ** Shared proof automation *)

Create HintDb chiya.
#[export] Hint Resolve zlen_nonneg : chiya.

(** Case analysis on every boolean comparison of integers in the context. *)
Ltac zcases :=
  repeat match goal with
  | |- context [?a <? ?b] => destruct (Z.ltb_spec a b); simpl
  | |- context [?a <=? ?b] => destruct (Z.leb_spec a b); simpl
  | |- context [?a =? ?b] => destruct (Z.eqb_spec a b); simpl
  end.

(** [lia] with the quotients and remainders of the goal made explicit. *)
Ltac dlia := Z.to_euclidean_division_equations; lia.

(** Runs the in-range operation a computation starts with. *)
Ltac step_op :=
  match goal with
  | |- (unsigned_op ?w ?z ≫= _) = _ => rewrite (unsigned_op_in w z) by dlia; simpl
  end.

Lemma land_le_r a b : 0 ≤ a → 0 ≤ b → 0 ≤ Z.land a b ≤ b.
Proof.
  intros Ha Hb. rewrite <-(Z2N.id a Ha), <-(Z2N.id b Hb), <-N2Z.inj_land.
  pose proof (N.land_le_r (Z.to_N a) (Z.to_N b)). lia.
Qed.

(** ** Rules for [wp] *)

Lemma index_in {A} (l : list A) i : 0 ≤ i < zlen l → ∃ x, index l i = Ret x ∧ l !! Z.to_nat i = Some x.
Proof.
  unfold zlen, index. intros.
  destruct (lookup_lt_is_Some_2 l (Z.to_nat i)) as [x Hx]; [lia|].
  exists x. rewrite (proj2 (Z.leb_le 0 i)), Hx by lia. done.
Qed.

Lemma wp_index {A} (l : list A) i E (Q : A → Prop) :
  0 ≤ i < zlen l → (∀ x, l !! Z.to_nat i = Some x → Q x) → wp (index l i) E Q.
Proof. intros Hi HQ. destruct (index_in l i Hi) as (x & -> & Hx). by apply HQ. Qed.

Lemma wp_slice {A} (l : list A) i j E (Q : list A → Prop) :
  0 ≤ i ≤ j → j ≤ zlen l → Q (ztake (j - i) (zdrop i l)) → wp (slice l i j) E Q.
Proof. intros. by rewrite slice_in. Qed.

Lemma wp_try_bind {A B X} (c : comp (result A X)) (f : A → comp (result B X)) E Q :
  wp c E (λ r, match r with Ok a => wp (f a) E Q | Err e => Q (Err e) end) →
  wp (try_bind c f) E Q.
Proof. intros Hc. apply wp_bind. eapply wp_mono; [exact Hc|done|]. by intros []. Qed.

(** A computation with no way to stop returns. *)
Lemma wp_returns {A} (c : comp A) Q :
  wp c (λ _, False) Q → ∃ a, c = Ret a ∧ Q a.
Proof. destruct c; simpl; [eauto|done]. Qed.
