(* ===== verification/DateTime.v ===== *)
(** * [date/src/date_time.rs]: calendar dates, their text formats and their order

    [DateTime] is the broken-down date; [from_system_time] and
    [into_system_time] are the two [From] impls between it and [SystemTime],
    [fmt] is [Display], [from_str] with [parse_imf_fixdate],
    [parse_rfc850_date] and [parse_asctime] is [FromStr].  The
    Gregorian calendar they are compared with is in [Calendar.v]. *)

From S2P Require Import Prelude.

(** ** Data *)

(** [date_time_error.rs]: the one error of the crate. *)
Inductive DateTimeError : Set := mkDateTimeError.

Record DateTime : Set := mkDateTime {
  sec_c : Z;   (* u8 *)
  min_c : Z;   (* u8 *)
  hr_c : Z;    (* u8 *)
  day_c : Z;   (* u8 *)
  mon_c : Z;   (* u8 *)
  year_c : Z;  (* u16 *)
  wday_c : Z;  (* u8 *)
}.

#[global] Instance DateTime_eq_dec : EqDecision DateTime.
Proof. solve_decision. Defined.

(** [std::time::SystemTime] of a Unix target: a signed 64-bit number of seconds
    relative to the epoch and a number of nanoseconds. *)
Record SystemTime : Set := mkSystemTime { tv_sec : Z; tv_nsec : Z }.

Definition UNIX_EPOCH : SystemTime := mkSystemTime 0 0.

(** [sys_t.duration_since(UNIX_EPOCH)], as its whole seconds. *)
Definition secs_since_epoch (sys_t : SystemTime) : result Z () :=
  if tv_sec sys_t <? 0 then Err () else Ok (tv_sec sys_t).

(** [UNIX_EPOCH + Duration::from_secs(s)] *)
Definition epoch_plus (s : Z) : comp SystemTime :=
  if s <? 2 ^ 63 then Ret (mkSystemTime s 0) else Panic PExpect.

(** ** [From<SystemTime> for DateTime] *)

Definition LEAPOCH : Z := 11017.
Definition DAYS_PER_400_YEAR : Z := 365 * 400 + 97.
Definition DAYS_PER_100_YEAR : Z := 365 * 100 + 24.
Definition DAYS_PER_4_YEAR : Z := 365 * 4 + 1.

(** The cycles since 1 March 2000: [(qc_cycles, c_cycles, q_cycles, rem_years,
    rem_days)]. *)
Definition split_cycles (days : Z) : Z * Z * Z * Z * Z :=
  let qc_cycles := Z.quot days DAYS_PER_400_YEAR in
  let rem_days := Z.rem days DAYS_PER_400_YEAR in
  let '(rem_days, qc_cycles) :=
    if rem_days <? 0 then (rem_days + DAYS_PER_400_YEAR, qc_cycles - 1)
    else (rem_days, qc_cycles) in
  let c_cycles := Z.quot rem_days DAYS_PER_100_YEAR in
  let c_cycles := if c_cycles =? 4 then c_cycles - 1 else c_cycles in
  let rem_days := rem_days - c_cycles * DAYS_PER_100_YEAR in
  let q_cycles := Z.quot rem_days DAYS_PER_4_YEAR in
  let q_cycles := if q_cycles =? 25 then q_cycles - 1 else q_cycles in
  let rem_days := rem_days - q_cycles * DAYS_PER_4_YEAR in
  let rem_years := Z.quot rem_days 365 in
  let rem_years := if rem_years =? 4 then rem_years - 1 else rem_years in
  let rem_days := rem_days - rem_years * 365 in
  (qc_cycles, c_cycles, q_cycles, rem_years, rem_days).

Definition months : list Z := [31; 30; 31; 30; 31; 31; 30; 31; 30; 31; 31; 29].

(** [for mon_len in months.iter()] *)
Fixpoint month_loop (months : list Z) (mon rem_days : Z) : Z * Z :=
  match months with
  | [] => (mon, rem_days)
  | mon_len :: months' =>
      let mon := mon + 1 in
      if rem_days <? mon_len then (mon, rem_days)
      else month_loop months' mon (rem_days - mon_len)
  end.

(** Rust's [&] binds weaker than [+], so the sum is masked by [qc_cycles]. *)
Definition from_system_time (sys_t : SystemTime) : comp DateTime :=
  match secs_since_epoch sys_t with
  | Err _ => Panic PExpect
  | Ok sec_since_epoch =>
    if 253402300800 <=? sec_since_epoch then Panic PExplicit else
    let days := sec_since_epoch / 86400 - LEAPOCH in
    let sec_in_day := sec_since_epoch mod 86400 in
    let '(qc_cycles, c_cycles, q_cycles, rem_years, rem_days) := split_cycles days in
    let year :=
      Z.land (2000 + rem_years + 4 * q_cycles + 100 * c_cycles + 400) qc_cycles in
    let '(mon, rem_days) := month_loop months 0 rem_days in
    let m_day := rem_days + 1 in
    let '(mon, year) := if 12 <? mon + 2 then (mon - 10, year + 1) else (mon + 2, year) in
    let w_day := Z.rem (3 + days) 7 in
    let w_day := if w_day <=? 0 then w_day + 7 else w_day in
    Ret {| sec_c := uwrap 8 (sec_in_day mod 60);
           min_c := uwrap 8 (sec_in_day mod 3600 / 60);
           hr_c := uwrap 8 (sec_in_day / 3600);
           day_c := uwrap 8 m_day;
           mon_c := uwrap 8 mon;
           year_c := uwrap 16 year;
           wday_c := uwrap 8 w_day |}
  end.

(** ** [From<DateTime> for SystemTime] *)

Definition is_leap_year (y : Z) : bool :=
  (y mod 4 =? 0) && (negb (y mod 100 =? 0) || (y mod 400 =? 0)).

Definition days_before_month (mon : Z) : comp Z :=
  match mon with
  | 1 => Ret 0
  | 2 => Ret 31
  | 3 => Ret 59
  | 4 => Ret 90
  | 5 => Ret 120
  | 6 => Ret 151
  | 7 => Ret 181
  | 8 => Ret 212
  | 9 => Ret 243
  | 10 => Ret 273
  | 11 => Ret 304
  | 12 => Ret 334
  | _ => Panic PUnreachable
  end.

Section into.
Context `{Build}.

Definition into_system_time (cdt : DateTime) : comp SystemTime :=
  y1 ← sub_w 16 (year_c cdt) 1;
  a ← sub_w 16 y1 1968;
  b ← sub_w 16 y1 1900;
  ab ← sub_w 16 (a / 4) (b / 100);
  c ← sub_w 16 y1 1600;
  leap_years ← add_w 16 ab (c / 400);
  before ← days_before_month (mon_c cdt);
  let y_days := before + day_c cdt - 1 in
  let y_days :=
    if is_leap_year (year_c cdt) && (2 <? mon_c cdt) then y_days + 1 else y_days in
  let days := (year_c cdt - 1970) * 365 + leap_years + y_days in
  minutes ← unsigned_op 64 (min_c cdt * 60);
  s ← add_w 64 (sec_c cdt) minutes;
  hours ← unsigned_op 64 (hr_c cdt * 3600);
  s ← add_w 64 s hours;
  d ← unsigned_op 64 (uwrap 64 days * 86400);
  s ← add_w 64 s d;
  epoch_plus s.

(** [&&] evaluates the round trip only when the fields are in range. *)
Definition is_valid (d : DateTime) : comp bool :=
  if (sec_c d <? 60) && (min_c d <? 60) && (hr_c d <? 24)
     && (0 <? day_c d) && (day_c d <? 32)
     && (0 <? mon_c d) && (mon_c d <=? 12)
     && (1970 <=? year_c d) && (year_c d <=? 9999)
  then
    t ← into_system_time d;
    d' ← from_system_time t;
    Ret (bool_decide (d' = d))
  else Ret false.

(** [Ord for DateTime]; [SystemTime] orders by seconds, then nanoseconds. *)
Definition cmp (d other : DateTime) : comp comparison :=
  t ← into_system_time d;
  t' ← into_system_time other;
  Ret (match tv_sec t ?= tv_sec t' with Eq => tv_nsec t ?= tv_nsec t' | c => c end).

Definition partial_cmp (d other : DateTime) : comp (option comparison) :=
  c ← cmp d other; Ret (Some c).
End into.

(** ** [Display] *)

Definition wday_name (wday : Z) : comp (list byte) :=
  match wday with
  | 1 => Ret (bstr "Mon")
  | 2 => Ret (bstr "Tue")
  | 3 => Ret (bstr "Wed")
  | 4 => Ret (bstr "Thu")
  | 5 => Ret (bstr "Fri")
  | 6 => Ret (bstr "Sat")
  | 7 => Ret (bstr "Sun")
  | _ => Panic PUnreachable
  end.

Definition mon_name (mon : Z) : comp (list byte) :=
  match mon with
  | 1 => Ret (bstr "Jan")
  | 2 => Ret (bstr "Feb")
  | 3 => Ret (bstr "Mar")
  | 4 => Ret (bstr "Apr")
  | 5 => Ret (bstr "May")
  | 6 => Ret (bstr "Jun")
  | 7 => Ret (bstr "Jul")
  | 8 => Ret (bstr "Aug")
  | 9 => Ret (bstr "Sep")
  | 10 => Ret (bstr "Oct")
  | 11 => Ret (bstr "Nov")
  | 12 => Ret (bstr "Dec")
  | _ => Panic PUnreachable
  end.

Section display.
Context `{Build}.

(** [b'0' + n] for a [u8] [n]. *)
Definition digit (n : Z) : comp byte :=
  z ← add_w 8 48 n; Ret (byte.of_Z z).

(** The string [Display::fmt] writes, in its one call of [write_str]. *)
Definition fmt (d : DateTime) : comp (list byte) :=
  w_day ← wday_name (wday_c d);
  mon ← mon_name (mon_c d);
  let buf := bstr "   , 00     0000 00:00:00 GMT" in
  w0 ← index w_day 0; let buf := <[0%nat := w0]> buf in
  w1 ← index w_day 1; let buf := <[1%nat := w1]> buf in
  w2 ← index w_day 2; let buf := <[2%nat := w2]> buf in
  b ← digit (day_c d / 10); let buf := <[5%nat := b]> buf in
  b ← digit (day_c d mod 10); let buf := <[6%nat := b]> buf in
  m0 ← index mon 0; let buf := <[8%nat := m0]> buf in
  m1 ← index mon 1; let buf := <[9%nat := m1]> buf in
  m2 ← index mon 2; let buf := <[10%nat := m2]> buf in
  b ← digit (uwrap 8 (year_c d / 1000)); let buf := <[12%nat := b]> buf in
  b ← digit (uwrap 8 (year_c d / 100 mod 10)); let buf := <[13%nat := b]> buf in
  b ← digit (uwrap 8 (year_c d / 10 mod 10)); let buf := <[14%nat := b]> buf in
  b ← digit (uwrap 8 (year_c d mod 10)); let buf := <[15%nat := b]> buf in
  b ← digit (hr_c d / 10); let buf := <[17%nat := b]> buf in
  b ← digit (hr_c d mod 10); let buf := <[18%nat := b]> buf in
  b ← digit (min_c d / 10); let buf := <[20%nat := b]> buf in
  b ← digit (min_c d mod 10); let buf := <[21%nat := b]> buf in
  b ← digit (sec_c d / 10); let buf := <[23%nat := b]> buf in
  b ← digit (sec_c d mod 10); let buf := <[24%nat := b]> buf in
  if utf8_valid buf then Ret buf else Panic PExpect.
End display.

(** ** [FromStr] and the three parsers *)

Abbreviation parsed A := (comp (result A DateTimeError)).

Definition fail {A} : parsed A := Ret (Err mkDateTimeError).

(** [x.wrapping_sub(b'0')] *)
Definition digit_value (x : byte) : Z := uwrap 8 (byte.unsigned x - 48).

Definition to_int_1 (x : byte) : parsed Z :=
  let result := digit_value x in
  if result <? 10 then Ret (Ok result) else fail.

Definition to_int_2 (s : list byte) : parsed Z :=
  s0 ← index s 0; s1 ← index s 1;
  let high := digit_value s0 in
  let low := digit_value s1 in
  if (high <? 10) && (low <? 10) then Ret (Ok (high * 10 + low)) else fail.

Definition to_int_4 (s : list byte) : parsed Z :=
  s0 ← index s 0; s1 ← index s 1; s2 ← index s 2; s3 ← index s 3;
  let a := digit_value s0 in
  let b := digit_value s1 in
  let c := digit_value s2 in
  let d := digit_value s3 in
  if (a <? 10) && (b <? 10) && (c <? 10) && (d <? 10)
  then Ret (Ok (a * 1000 + b * 100 + c * 10 + d)) else fail.

(** [match s { b"..." => v, ..., _ => return Err }] *)
Fixpoint match_bytes (s : list byte) (arms : list (list byte * Z)) : parsed Z :=
  match arms with
  | [] => fail
  | (lit, v) :: arms' => if bool_decide (s = lit) then Ret (Ok v) else match_bytes s arms'
  end.

Definition imf_months : list (list byte * Z) :=
  [(bstr " Jan ", 1); (bstr " Feb ", 2); (bstr " Mar ", 3); (bstr " Apr ", 4);
   (bstr " May ", 5); (bstr " Jun ", 6); (bstr " Jul ", 7); (bstr " Aug ", 8);
   (bstr " Sep ", 9); (bstr " Oct ", 10); (bstr " Nov ", 11); (bstr " Dec ", 12)].

Definition imf_wdays : list (list byte * Z) :=
  [(bstr "Mon, ", 1); (bstr "Tue, ", 2); (bstr "Wed, ", 3); (bstr "Thu, ", 4);
   (bstr "Fri, ", 5); (bstr "Sat, ", 6); (bstr "Sun, ", 7)].

(** [&s[i..j] != lit] and [s[i] != b] *)
Definition slice_ne (s : list byte) (i j : Z) (lit : list byte) : comp bool :=
  x ← slice s i j; Ret (bool_decide (x ≠ lit)).
Definition byte_ne (s : list byte) (i : Z) (b : byte) : comp bool :=
  x ← index s i; Ret (bool_decide (x ≠ b)).

(** [a || b], where [b] is evaluated only if [a] is false. *)
Definition or_else (a b : comp bool) : comp bool :=
  x ← a; if (x : bool) then Ret true else b.

Definition ch_space : byte := Byte.x20.
Definition ch_colon : byte := Byte.x3a.

Definition parse_imf_fixdate (s : list byte) : parsed DateTime :=
  bad ← or_else (Ret (negb (zlen s =? 29)))
       (or_else (slice_ne s 25 (zlen s) (bstr "GMT"))
       (or_else (byte_ne s 16 ch_space)
       (or_else (byte_ne s 19 ch_colon) (byte_ne s 22 ch_colon))));
  if (bad : bool) then fail else
  sec ←? (x ← slice s 23 25; to_int_2 x);
  min ←? (x ← slice s 20 22; to_int_2 x);
  hr ←? (x ← slice s 17 19; to_int_2 x);
  day ←? (x ← slice s 5 7; to_int_2 x);
  mon ←? (x ← slice s 7 12; match_bytes x imf_months);
  year ←? (x ← slice s 12 16; to_int_4 x);
  wday ←? (x ← slice s 0 5; match_bytes x imf_wdays);
  Ret (Ok (mkDateTime sec min hr day mon year wday)).

Definition rfc850_months : list (list byte * Z) :=
  [(bstr "-Jan-", 1); (bstr "-Feb-", 2); (bstr "-Mar-", 3); (bstr "-Apr-", 4);
   (bstr "-May-", 5); (bstr "-Jun-", 6); (bstr "-Jul-", 7); (bstr "-Aug-", 8);
   (bstr "-Sep-", 9); (bstr "-Oct-", 10); (bstr "-Nov-", 11); (bstr "-Dec-", 12)].

Definition rfc850_wdays : list (Z * list byte) :=
  [(1, bstr "Monday, "); (2, bstr "Tuesday, "); (3, bstr "Wednesday, ");
   (4, bstr "Thursday, "); (5, bstr "Friday, "); (6, bstr "Saturday, ");
   (7, bstr "Sunday, ")].

(** The inner function [wday] of [parse_rfc850_date]. *)
Definition rfc850_wday (s : list byte) (wday : Z) (name : list byte)
    : comp (option (Z * list byte)) :=
  x ← slice s 0 (zlen name);
  if bool_decide (x = name) then
    rest ← slice s (zlen name) (zlen s); Ret (Some (wday, rest))
  else Ret None.

(** The chain of [or_else] over the seven names. *)
Fixpoint rfc850_wday_chain (s : list byte) (names : list (Z * list byte))
    : comp (option (Z * list byte)) :=
  match names with
  | [] => Ret None
  | (w, name) :: names' =>
      r ← rfc850_wday s w name;
      match r with Some x => Ret (Some x) | None => rfc850_wday_chain s names' end
  end.

Definition parse_rfc850_date (s : list byte) : parsed DateTime :=
  if zlen s <? 23 then fail else
  r ← rfc850_wday_chain s rfc850_wdays;
  match r with
  | None => fail
  | Some (wday, s) =>
    bad ← or_else (Ret (negb (zlen s =? 22)))
         (or_else (byte_ne s 12 ch_colon)
         (or_else (byte_ne s 15 ch_colon) (slice_ne s 18 22 (bstr "GMT"))));
    if (bad : bool) then fail else
    year ←? (x ← slice s 7 9; to_int_2 x);
    let year := if year <? 70 then year + 2000 else year + 1900 in
    sec ←? (x ← slice s 16 18; to_int_2 x);
    min ←? (x ← slice s 13 15; to_int_2 x);
    hr ←? (x ← slice s 10 12; to_int_2 x);
    day ←? (x ← slice s 0 2; to_int_2 x);
    mon ←? (x ← slice s 2 7; match_bytes x rfc850_months);
    Ret (Ok (mkDateTime sec min hr day mon year wday))
  end.

Definition asctime_months : list (list byte * Z) :=
  [(bstr "Jan ", 1); (bstr "Feb ", 2); (bstr "Mar ", 3); (bstr "Apr ", 4);
   (bstr "May ", 5); (bstr "Jun ", 6); (bstr "Jul ", 7); (bstr "Aug ", 8);
   (bstr "Sep ", 9); (bstr "Oct ", 10); (bstr "Nov ", 11); (bstr "Dec ", 12)].

Definition asctime_wdays : list (list byte * Z) :=
  [(bstr "Mon ", 1); (bstr "Tue ", 2); (bstr "Wed ", 3); (bstr "Thu ", 4);
   (bstr "Fri ", 5); (bstr "Sat ", 6); (bstr "Sun ", 7)].

(** The day of the month, padded with a space or a zero. *)
Definition asctime_day (x : list byte) : parsed Z :=
  x0 ← index x 0;
  if bool_decide (x0 = ch_space) then x1 ← index x 1; to_int_1 x1 else to_int_2 x.

Definition parse_asctime (s : list byte) : parsed DateTime :=
  bad ← or_else (Ret (negb (zlen s =? 24)))
       (or_else (byte_ne s 10 ch_space)
       (or_else (byte_ne s 13 ch_colon)
       (or_else (byte_ne s 16 ch_colon) (byte_ne s 19 ch_space))));
  if (bad : bool) then fail else
  sec ←? (x ← slice s 17 19; to_int_2 x);
  min ←? (x ← slice s 14 16; to_int_2 x);
  hr ←? (x ← slice s 11 13; to_int_2 x);
  day ←? (x ← slice s 8 10; asctime_day x);
  mon ←? (x ← slice s 4 8; match_bytes x asctime_months);
  year ←? (x ← slice s 20 24; to_int_4 x);
  wday ←? (x ← slice s 0 4; match_bytes x asctime_wdays);
  Ret (Ok (mkDateTime sec min hr day mon year wday)).

(** [r.or_else(|_| f)] *)
Definition or_parse {A} (r : parsed A) (f : parsed A) : parsed A :=
  x ← r; match x with Ok a => Ret (Ok a) | Err _ => f end.

Definition from_str `{Build} (s : list byte) : parsed DateTime :=
  if negb (is_ascii s) then fail else
  let x := trim s in
  date ←? or_parse (or_parse (parse_imf_fixdate x) (parse_rfc850_date x)) (parse_asctime x);
  valid ← is_valid date;
  if (valid : bool) then Ret (Ok date) else fail.
