(* ===== verification/Calendar.v ===== *)
(** * The Gregorian calendar, and what [DateTime] computes of it

    The specification counts the days of the years and months since 1 January
    1970 one by one.  The theorems relate [into_system_time],
    [from_system_time], [cmp] and [from_str] to it. *)

From S2P Require Import Prelude DateTime.

(** ** Specification *)

Definition gregorian_leap (y : Z) : bool :=
  if y mod 400 =? 0 then true else if y mod 100 =? 0 then false else y mod 4 =? 0.

Definition days_in_year (y : Z) : Z := if gregorian_leap y then 366 else 365.

Definition days_in_month (y m : Z) : Z :=
  match m with
  | 2 => if gregorian_leap y then 29 else 28
  | 4 | 6 | 9 | 11 => 30
  | _ => 31
  end.

(** Days from 1 January 1970 to the first day of year [1970 + n]. *)
Fixpoint sum_years (n : nat) : Z :=
  match n with
  | O => 0
  | S k => sum_years k + days_in_year (1970 + Z.of_nat k)
  end.

(** Days of the first [n] months of year [y]. *)
Fixpoint sum_months (y : Z) (n : nat) : Z :=
  match n with
  | O => 0
  | S k => sum_months y k + days_in_month y (Z.of_nat k + 1)
  end.

Definition year_start (y : Z) : Z := sum_years (Z.to_nat (y - 1970)).
Definition month_start (y m : Z) : Z := sum_months y (Z.to_nat (m - 1)).

(** Days from 1 January 1970 to the given date. *)
Definition epoch_days (y m d : Z) : Z := year_start y + month_start y m + (d - 1).

Definition valid_date (y m d : Z) : Prop :=
  1970 ≤ y ≤ 9999 ∧ 1 ≤ m ≤ 12 ∧ 1 ≤ d ≤ days_in_month y m.

Definition valid_time (h mi s : Z) : Prop := 0 ≤ h < 24 ∧ 0 ≤ mi < 60 ∧ 0 ≤ s < 60.

Definition valid_datetime (d : DateTime) : Prop :=
  valid_date (year_c d) (mon_c d) (day_c d) ∧ valid_time (hr_c d) (min_c d) (sec_c d).

Definition epoch_secs (d : DateTime) : Z :=
  86400 * epoch_days (year_c d) (mon_c d) (day_c d)
  + 3600 * hr_c d + 60 * min_c d + sec_c d.

(** The weekday of the day [n] days after Thursday 1 January 1970: 1 is Monday. *)
Definition weekday (n : Z) : Z := (n + 3) mod 7 + 1.

(** ** Facts about the calendar *)

Lemma is_leap_year_spec y : is_leap_year y = gregorian_leap y.
Proof.
  unfold is_leap_year, gregorian_leap. zcases; try done; exfalso; dlia.
Qed.

Lemma sum_years_closed n :
  let y := 1970 + Z.of_nat n in
  sum_years n = 365 * (y - 1970) + (y - 1969) / 4 - (y - 1901) / 100 + (y - 1601) / 400.
Proof.
  induction n as [|n IH]; [done|]. cbn zeta in *. cbn [sum_years].
  rewrite IH. unfold days_in_year, gregorian_leap.
  rewrite Nat2Z.inj_succ. zcases; dlia.
Qed.

Lemma year_start_closed y :
  1970 ≤ y →
  year_start y = 365 * (y - 1970) + (y - 1969) / 4 - (y - 1901) / 100 + (y - 1601) / 400.
Proof.
  intros Hy. unfold year_start. rewrite sum_years_closed.
  rewrite Z2Nat.id by lia. by replace (1970 + (y - 1970)) with y by lia.
Qed.

(** The twelve cases of a month number. *)
Ltac month_cases m :=
  let H := fresh in
  assert (m = 1 ∨ m = 2 ∨ m = 3 ∨ m = 4 ∨ m = 5 ∨ m = 6 ∨ m = 7 ∨ m = 8 ∨ m = 9
          ∨ m = 10 ∨ m = 11 ∨ m = 12) as H by lia;
  destruct_or! H; subst m.

Lemma days_before_month_spec y m :
  1 ≤ m ≤ 12 →
  days_before_month m =
    Ret (month_start y m - (if gregorian_leap y && (2 <? m) then 1 else 0)).
Proof. intros. month_cases m; cbv [month_start]; simpl; by destruct (gregorian_leap y). Qed.

Lemma month_start_step y m :
  1 ≤ m → month_start y (m + 1) = month_start y m + days_in_month y m.
Proof.
  intros. unfold month_start.
  replace (Z.to_nat (m + 1 - 1)) with (S (Z.to_nat (m - 1))) by lia.
  cbn [sum_months]. do 2 f_equal. lia.
Qed.

Lemma year_start_step y : 1970 ≤ y → year_start (y + 1) = year_start y + days_in_year y.
Proof.
  intros. unfold year_start.
  replace (Z.to_nat (y + 1 - 1970)) with (S (Z.to_nat (y - 1970))) by lia.
  cbn [sum_years]. do 2 f_equal. lia.
Qed.

Lemma days_in_month_pos y m : 28 ≤ days_in_month y m ≤ 31.
Proof.
  unfold days_in_month. repeat case_match; lia.
Qed.

Lemma month_start_mono y m m' :
  1 ≤ m → m < m' → month_start y m + days_in_month y m ≤ month_start y m'.
Proof.
  intros Hm Hlt. rewrite <-month_start_step by done.
  replace m' with (m + 1 + Z.of_nat (Z.to_nat (m' - m - 1))) by lia.
  induction (Z.to_nat (m' - m - 1)) as [|k IH]; [by rewrite Z.add_0_r|].
  rewrite Nat2Z.inj_succ, <-Z.add_1_r, Z.add_assoc,
    (month_start_step _ (m + 1 + Z.of_nat k)) by lia.
  pose proof (days_in_month_pos y (m + 1 + Z.of_nat k)). lia.
Qed.

Lemma month_start_13 y : month_start y 13 = days_in_year y.
Proof. cbv [month_start days_in_year]. simpl. by destruct (gregorian_leap y). Qed.

Lemma year_start_mono y y' :
  1970 ≤ y → y < y' → year_start y + days_in_year y ≤ year_start y'.
Proof.
  intros Hy Hlt. rewrite <-year_start_step by done.
  replace y' with (y + 1 + Z.of_nat (Z.to_nat (y' - y - 1))) by lia.
  induction (Z.to_nat (y' - y - 1)) as [|k IH]; [by rewrite Z.add_0_r|].
  rewrite Nat2Z.inj_succ, <-Z.add_1_r, Z.add_assoc,
    (year_start_step (y + 1 + Z.of_nat k)) by lia.
  unfold days_in_year in *. repeat case_match; lia.
Qed.

(** A date lies inside its year. *)
Lemma epoch_days_in_year y m d :
  valid_date y m d →
  year_start y ≤ epoch_days y m d < year_start y + days_in_year y.
Proof.
  intros (?&?&?). unfold epoch_days.
  pose proof (month_start_mono y m 13 ltac:(lia) ltac:(lia)).
  rewrite month_start_13 in *.
  destruct (decide (m = 1)) as [->|]; [change (month_start y 1) with 0 in *; lia|].
  pose proof (month_start_mono y 1 m ltac:(lia) ltac:(lia)).
  change (month_start y 1) with 0 in *.
  pose proof (days_in_month_pos y 1). lia.
Qed.

(** ** [into_system_time]: seconds since the epoch *)

(** The field ranges [is_valid] checks before the round trip; the day may
    exceed the length of its month. *)
Definition fields_in_range (d : DateTime) : Prop :=
  1970 ≤ year_c d ≤ 9999 ∧ 1 ≤ mon_c d ≤ 12 ∧ 1 ≤ day_c d < 32
  ∧ valid_time (hr_c d) (min_c d) (sec_c d).

Lemma valid_datetime_in_range d : valid_datetime d → fields_in_range d.
Proof.
  intros ((?&?&?)&?). pose proof (days_in_month_pos (year_c d) (mon_c d)).
  split_and!; try done; lia.
Qed.

Lemma month_start_bound y m : 1 ≤ m ≤ 12 → 0 ≤ month_start y m ≤ 335.
Proof. intros. month_cases m; cbv [month_start]; simpl; destruct (gregorian_leap y); lia. Qed.

(** A date of the years 1970 to 9999 is before 1 January 10000. *)
Lemma epoch_days_bound y m d :
  1970 ≤ y ≤ 9999 → 1 ≤ m ≤ 12 → 1 ≤ d < 32 → 0 ≤ epoch_days y m d < 2932897.
Proof.
  intros. unfold epoch_days. rewrite year_start_closed by lia.
  pose proof (month_start_bound y m ltac:(lia)).
  destruct (decide (y = 9999)) as [->|]; [|dlia].
  change ((9999 - 1969) / 4) with 2007. change ((9999 - 1901) / 100) with 80.
  change ((9999 - 1601) / 400) with 20.
  month_cases m; cbv [month_start]; simpl; lia.
Qed.

Section into.
Context `{Build}.

Lemma into_system_time_fields d :
  fields_in_range d → into_system_time d = Ret (mkSystemTime (epoch_secs d) 0).
Proof.
  destruct d as [s mi h d m y w]. intros (Hy&Hm&Hd&Hh&Hmi&Hs); simpl in *.
  pose proof (epoch_days_bound y m d ltac:(lia) ltac:(lia) ltac:(lia)) as Hb.
  unfold into_system_time, epoch_secs; simpl.
  unfold sub_w, add_w. do 6 step_op.
  rewrite (days_before_month_spec y) by lia; simpl.
  rewrite is_leap_year_spec.
  match goal with |- context [uwrap 64 ?z] =>
    assert (z = epoch_days y m d) as ->
  end.
  { unfold epoch_days. rewrite year_start_closed by lia.
    replace (y - 1 - 1968) with (y - 1969) by lia.
    replace (y - 1 - 1900) with (y - 1901) by lia.
    replace (y - 1 - 1600) with (y - 1601) by lia.
    destruct (gregorian_leap y && (2 <? m)); lia. }
  unfold uwrap. rewrite (Z.mod_small (epoch_days y m d)) by lia.
  do 6 step_op.
  unfold epoch_plus. rewrite (proj2 (Z.ltb_lt _ _)) by lia.
  do 2 f_equal. lia.
Qed.
End into.

(** ** [from_system_time]: the date of a second *)

(** [year_start] in closed form, for every year. *)
Definition year_days (y : Z) : Z :=
  365 * (y - 1970) + (y - 1969) / 4 - (y - 1901) / 100 + (y - 1601) / 400.

Lemma year_days_step y : year_days (y + 1) = year_days y + days_in_year y.
Proof. unfold year_days, days_in_year, gregorian_leap. zcases; dlia. Qed.

(** The loop of [split_cycles] after the 400-year cycle is found. *)
Lemma split_cycles_spec days :
  let '(qc, c, q, ry, rd) := split_cycles days in
  days = 146097 * qc + 36524 * c + 1461 * q + 365 * ry + rd
  ∧ 0 ≤ c ≤ 3 ∧ 0 ≤ q ≤ 24 ∧ 0 ≤ ry ≤ 3 ∧ 0 ≤ rd ≤ 365
  ∧ (rd = 365 → ry = 3 ∧ (q = 24 → c = 3)).
Proof.
  unfold split_cycles, DAYS_PER_400_YEAR, DAYS_PER_100_YEAR, DAYS_PER_4_YEAR.
  assert (∃ qc r, days = 146097 * qc + r ∧ 0 ≤ r < 146097
    ∧ (if Z.rem days (365 * 400 + 97) <? 0
       then (Z.rem days (365 * 400 + 97) + (365 * 400 + 97),
             Z.quot days (365 * 400 + 97) - 1)
       else (Z.rem days (365 * 400 + 97), Z.quot days (365 * 400 + 97))) = (r, qc))
    as (qc & r & -> & Hr & ->).
  { zcases; eexists _, _; (split; [|split; [|reflexivity]]); dlia. }
  assert (0 ≤ Z.quot r (365 * 100 + 24) ≤ 4) by dlia.
  set (c := if _ =? 4 then _ else _).
  assert (0 ≤ c ≤ 3 ∧ 0 ≤ r - 36524 * c ≤ 36524 ∧ (r - 36524 * c = 36524 → c = 3)) as Hc.
  { subst c. zcases; dlia. }
  clearbody c. replace (r - c * (365 * 100 + 24)) with (r - 36524 * c) by lia.
  set (r1 := r - 36524 * c) in *.
  set (q := if _ =? 25 then _ else _).
  assert (0 ≤ q ≤ 24 ∧ 0 ≤ r1 - 1461 * q < 1461 ∧ r1 = 1461 * q + (r1 - 1461 * q)) as Hq.
  { subst q. zcases; dlia. }
  clearbody q. replace (r1 - q * (365 * 4 + 1)) with (r1 - 1461 * q) by lia.
  set (r2 := r1 - 1461 * q) in *.
  set (ry := if _ =? 4 then _ else _).
  assert (0 ≤ ry ≤ 3 ∧ 0 ≤ r2 - 365 * ry ≤ 365 ∧ (r2 - 365 * ry = 365 → ry = 3)) as Hry.
  { subst ry. zcases; dlia. }
  clearbody ry. subst r2 r1. split_and!; lia.
Qed.

(** The days of the months March to February before month [mon] of the loop. *)
Definition march_start (mon : Z) : Z :=
  match mon with
  | 1 => 0 | 2 => 31 | 3 => 61 | 4 => 92 | 5 => 122 | 6 => 153 | 7 => 184
  | 8 => 214 | 9 => 245 | 10 => 275 | 11 => 306 | _ => 337
  end.

Lemma month_loop_spec rd :
  0 ≤ rd ≤ 365 →
  let '(mon, md) := month_loop months 0 rd in
  1 ≤ mon ≤ 12 ∧ rd = march_start mon + md ∧ 0 ≤ md
  ∧ march_start mon + md < (if mon =? 12 then 366 else march_start (mon + 1)).
Proof. intros. unfold months. cbn [month_loop]. zcases; split_and!; simpl; lia. Qed.

(** 1 March of the year [2000 + 400 qc + 100 c + 4 q + ry]. *)
Lemma march_first qc c q ry :
  0 ≤ c ≤ 3 → 0 ≤ q ≤ 24 → 0 ≤ ry ≤ 3 →
  let y := 2000 + 400 * qc + 100 * c + 4 * q + ry in
  year_days y + (if gregorian_leap y then 60 else 59)
  = 11017 + 146097 * qc + 36524 * c + 1461 * q + 365 * ry.
Proof. intros. unfold year_days, gregorian_leap. subst y. zcases; dlia. Qed.

(** The year after a full March year is a leap year. *)
Lemma leap_after qc c q :
  0 ≤ c ≤ 3 → 0 ≤ q ≤ 24 → (q = 24 → c = 3) →
  gregorian_leap (2000 + 400 * qc + 100 * c + 4 * q + 3 + 1) = true.
Proof. intros. unfold gregorian_leap. zcases; try done; exfalso; dlia. Qed.

(** What the mask makes of the year of a date: [y0] is the year that starts
    in March and contains the date. *)
Definition masked_year (y m : Z) : Z :=
  let y0 := if m <=? 2 then y - 1 else y in
  Z.land (2400 + (y0 - 2000) mod 400) ((y0 - 2000) / 400)
  + (if m <=? 2 then 1 else 0).

(** The calendar date at position [rd] of a March year. *)
Lemma march_date qc c q ry rd mon md (m := if 12 <? mon + 2 then mon - 10 else mon + 2)
    (y := 2000 + 400 * qc + 100 * c + 4 * q + ry + (if m <=? 2 then 1 else 0)) :
  0 ≤ c ≤ 3 → 0 ≤ q ≤ 24 → 0 ≤ ry ≤ 3 →
  (rd = 365 → ry = 3 ∧ (q = 24 → c = 3)) →
  1 ≤ mon ≤ 12 → rd = march_start mon + md → 0 ≤ md →
  march_start mon + md < (if mon =? 12 then 366 else march_start (mon + 1)) →
  1 ≤ m ≤ 12 ∧ 1 ≤ md + 1 ≤ days_in_month y m
  ∧ year_days y + month_start y m + md
    = 11017 + 146097 * qc + 36524 * c + 1461 * q + 365 * ry + rd.
Proof.
  intros Hc Hq Hry Hlast Hmon Hrd Hmd Hlt.
  pose proof (march_first qc c q ry Hc Hq Hry) as Hfirst. simpl in Hfirst.
  pose proof (year_days_step (2000 + 400 * qc + 100 * c + 4 * q + ry)) as Hstep.
  unfold days_in_year in Hstep.
  assert (rd = 365 → gregorian_leap (2000 + 400 * qc + 100 * c + 4 * q + ry + 1) = true) as Hleap.
  { intros [-> ?]%Hlast. by apply leap_after. }
  month_cases mon; subst m y; simpl in *; rewrite ?Z.add_0_r in *;
    cbv [month_start]; simpl; repeat case_match; split_and!; try lia.
  all: exfalso; cut (false = true); [done|apply Hleap; lia].
Qed.

Lemma wday_spec days :
  uwrap 8 (let w := Z.rem (3 + (days - LEAPOCH)) 7 in if w <=? 0 then w + 7 else w)
  = weekday days.
Proof. unfold weekday, uwrap, LEAPOCH. cbv zeta. zcases; dlia. Qed.

Lemma year_days_mono y y' : y ≤ y' → year_days y ≤ year_days y'.
Proof. intros. unfold year_days. dlia. Qed.

(** The years of the accepted range. *)
Lemma civil_year_bound y m d n :
  1 ≤ m ≤ 12 → 1 ≤ d ≤ days_in_month y m →
  year_days y + month_start y m + (d - 1) = n → 0 ≤ n < 2932897 → 1970 ≤ y ≤ 9999.
Proof.
  intros Hm Hd Heq Hn.
  assert (0 ≤ month_start y m + (d - 1) < days_in_year y) as Hin.
  { clear Heq. month_cases m; cbv [month_start days_in_year]; simpl in *;
      destruct (gregorian_leap y); lia. }
  pose proof (year_days_step y).
  destruct (decide (y < 1970)); [pose proof (year_days_mono (y + 1) 1970 ltac:(lia));
    change (year_days 1970) with 0 in *; lia|].
  destruct (decide (9999 < y)); [pose proof (year_days_mono 10000 y ltac:(lia));
    change (year_days 10000) with 2932897 in *; lia|]. lia.
Qed.

Lemma masked_year_split qc c q ry mon (m := if 12 <? mon + 2 then mon - 10 else mon + 2) :
  0 ≤ c ≤ 3 → 0 ≤ q ≤ 24 → 0 ≤ ry ≤ 3 →
  masked_year (2000 + 400 * qc + 100 * c + 4 * q + ry + (if m <=? 2 then 1 else 0)) m
  = Z.land (2000 + ry + 4 * q + 100 * c + 400) qc + (if m <=? 2 then 1 else 0).
Proof.
  intros. unfold masked_year. f_equal. f_equal; destruct (m <=? 2); dlia.
Qed.

(** The masked year: in the twenty-eighth century for dates before 1 March
    2000, at most 20 afterwards. *)
Lemma masked_year_range y m :
  1970 ≤ y ≤ 9999 →
  (y ≤ 2000 ∧ 2769 ≤ masked_year y m ≤ 2800) ∨ (2000 ≤ y ∧ 0 ≤ masked_year y m ≤ 20).
Proof.
  intros Hy. unfold masked_year.
  set (y0 := if m <=? 2 then y - 1 else y).
  assert (1969 ≤ y0 ≤ 9999 ∧ y0 ≤ y ≤ y0 + 1) as Hy0 by (subst y0; case_match; lia).
  assert (0 ≤ (if m <=? 2 then 1 else 0) ≤ 1) by (case_match; lia).
  destruct (decide (y0 < 2000)).
  - left. replace ((y0 - 2000) / 400) with (-1) by dlia.
    rewrite Z.land_m1_r. dlia.
  - right. assert (0 ≤ (y0 - 2000) / 400 ≤ 19) by dlia.
    pose proof (Z.mod_pos_bound (y0 - 2000) 400 ltac:(lia)).
    pose proof (land_le_r (2400 + (y0 - 2000) mod 400) ((y0 - 2000) / 400)). lia.
Qed.

(** The date [from_system_time] computes: every field but the year is the one
    of the calendar. *)
Definition civil_date (secs y : Z) (d : DateTime) : Prop :=
  valid_date y (mon_c d) (day_c d)
  ∧ valid_time (hr_c d) (min_c d) (sec_c d)
  ∧ secs = 86400 * epoch_days y (mon_c d) (day_c d)
           + 3600 * hr_c d + 60 * min_c d + sec_c d
  ∧ wday_c d = weekday (secs / 86400).

Lemma from_system_time_date secs nsec :
  0 ≤ secs < 253402300800 →
  ∃ y d, from_system_time (mkSystemTime secs nsec) = Ret d
    ∧ civil_date secs y d ∧ year_c d = masked_year y (mon_c d).
Proof.
  intros Hs. unfold from_system_time, secs_since_epoch. cbn [tv_sec].
  rewrite (proj2 (Z.ltb_ge secs 0)), (proj2 (Z.leb_gt _ secs)) by lia.
  pose proof (split_cycles_spec (secs / 86400 - LEAPOCH)) as Hsplit.
  pose proof (wday_spec (secs / 86400)) as Hw. cbv zeta in Hw.
  destruct (split_cycles _) as [[[[qc c] q] ry] rd].
  destruct Hsplit as (Hdays & Hc & Hq & Hry & Hrd & Hlast).
  pose proof (month_loop_spec rd Hrd) as Hml.
  destruct (month_loop months 0 rd) as [mon md].
  destruct Hml as (Hmon & Hrd' & Hmd & Hlt).
  destruct (march_date qc c q ry rd mon md) as (Hm & Hd & Heq); try done.
  pose proof (masked_year_split qc c q ry mon Hc Hq Hry) as Hmask.
  set (m := if 12 <? mon + 2 then mon - 10 else mon + 2) in *.
  set (y := 2000 + 400 * qc + 100 * c + 4 * q + ry + (if m <=? 2 then 1 else 0)) in *.
  assert (year_days y + month_start y m + (md + 1 - 1) = secs / 86400) as Hday.
  { unfold LEAPOCH in Hdays. lia. }
  assert (1970 ≤ y ≤ 9999) as Hy.
  { eapply civil_year_bound; [exact Hm|exact Hd|exact Hday|dlia]. }
  pose proof (days_in_month_pos y m). pose proof (masked_year_range y m Hy).
  eexists y, (mkDateTime _ _ _ (md + 1) m (masked_year y m) _). split; [|split; [|done]].
  - subst m. destruct (12 <? mon + 2) eqn:E; simpl; rewrite Hw;
      (replace (_ <=? 2) with (12 <? mon + 2) in Hmask by (rewrite E; symmetry; zcases; lia));
      rewrite E in Hmask; rewrite ?Z.add_0_r in Hmask; rewrite <-Hmask;
      unfold uwrap; rewrite !(Z.mod_small _ (2 ^ 8)), (Z.mod_small _ (2 ^ 16)) by dlia;
      reflexivity.
  - unfold civil_date, valid_date, valid_time, epoch_days; simpl.
    rewrite year_start_closed by lia. fold (year_days y). split_and!; try done; dlia.
Qed.

(** ** Chronological order *)

(** Lexicographic comparison of two keys of the same length. *)
Fixpoint lex_compare (k k' : list Z) : comparison :=
  match k, k' with
  | x :: k, x' :: k' => match x ?= x' with Eq => lex_compare k k' | c => c end
  | _, _ => Eq
  end.

Definition date_key (y m d : Z) : list Z := [y; m; d].
Definition datetime_key (d : DateTime) : list Z :=
  [year_c d; mon_c d; day_c d; hr_c d; min_c d; sec_c d].

Lemma epoch_days_lt y m d y' m' d' :
  valid_date y m d → valid_date y' m' d' →
  y < y' ∨ (y = y' ∧ (m < m' ∨ (m = m' ∧ d < d'))) →
  epoch_days y m d < epoch_days y' m' d'.
Proof.
  intros Hv Hv' [Hy|[-> [Hm|[-> Hd]]]].
  - pose proof (epoch_days_in_year _ _ _ Hv). pose proof (epoch_days_in_year _ _ _ Hv').
    destruct Hv as (?&?&?). pose proof (year_start_mono y y'). lia.
  - destruct Hv as (?&?&?), Hv' as (?&?&?).
    pose proof (month_start_mono y' m m' ltac:(lia) Hm). unfold epoch_days. lia.
  - unfold epoch_days. lia.
Qed.

Lemma epoch_secs_compare d d' :
  valid_datetime d → valid_datetime d' →
  (epoch_secs d ?= epoch_secs d') = lex_compare (datetime_key d) (datetime_key d').
Proof.
  intros [Hd Ht] [Hd' Ht'].
  pose proof (epoch_days_lt _ _ _ _ _ _ Hd Hd') as Hlt.
  pose proof (epoch_days_lt _ _ _ _ _ _ Hd' Hd) as Hgt.
  unfold epoch_secs, datetime_key, valid_time in *. cbn [lex_compare].
  destruct (Z.compare_spec (year_c d) (year_c d')) as [Ey|?|?];
    [|apply Z.compare_lt_iff; lia|apply Z.compare_gt_iff; lia].
  destruct (Z.compare_spec (mon_c d) (mon_c d')) as [Em|?|?];
    [|apply Z.compare_lt_iff; lia|apply Z.compare_gt_iff; lia].
  destruct (Z.compare_spec (day_c d) (day_c d')) as [Ed|?|?];
    [|apply Z.compare_lt_iff; lia|apply Z.compare_gt_iff; lia].
  rewrite Ey, Em, Ed. clear Hlt Hgt.
  destruct (Z.compare_spec (hr_c d) (hr_c d'));
    [|apply Z.compare_lt_iff; lia|apply Z.compare_gt_iff; lia].
  destruct (Z.compare_spec (min_c d) (min_c d'));
    [|apply Z.compare_lt_iff; lia|apply Z.compare_gt_iff; lia].
  destruct (Z.compare_spec (sec_c d) (sec_c d'));
    [apply Z.compare_eq_iff; lia|apply Z.compare_lt_iff; lia|apply Z.compare_gt_iff; lia].
Qed.

Lemma lex_compare_Eq_datetime d d' :
  lex_compare (datetime_key d) (datetime_key d') = Eq →
  datetime_key d = datetime_key d'.
Proof.
  unfold datetime_key. cbn [lex_compare]. intros.
  repeat case_match; try done; repeat match goal with
  | H : (_ ?= _) = Eq |- _ => apply Z.compare_eq_iff in H
  end; congruence.
Qed.

(** ** What [from_system_time] loses *)

(** A date of the calendar with a weekday and a year field of its own. *)
Lemma civil_date_unique secs y d e :
  civil_date secs y d → valid_datetime e → secs = epoch_secs e →
  y = year_c e ∧ mon_c d = mon_c e ∧ day_c d = day_c e
  ∧ hr_c d = hr_c e ∧ min_c d = min_c e ∧ sec_c d = sec_c e.
Proof.
  intros (Hd & Ht & -> & _) He Heq.
  set (d' := mkDateTime (sec_c d) (min_c d) (hr_c d) (day_c d) (mon_c d) y 1).
  assert (valid_datetime d') as Hd' by done.
  change (epoch_secs d' = epoch_secs e) in Heq.
  apply Z.compare_eq_iff in Heq. rewrite epoch_secs_compare in Heq by done.
  apply lex_compare_Eq_datetime in Heq. unfold datetime_key, d' in Heq. simpl in Heq.
  by simplify_eq.
Qed.

Lemma epoch_secs_bound d : fields_in_range d → 0 ≤ epoch_secs d < 253402300800.
Proof.
  intros (?&?&?&?&?&?). unfold epoch_secs.
  pose proof (epoch_days_bound (year_c d) (mon_c d) (day_c d)). lia.
Qed.

(** ** Theorems *)

(** C4: [SystemTime::from(DateTime)] returns, in both builds, the number of
    seconds from the epoch to a valid date, counted year by year and month by
    month in the Gregorian calendar; no subtraction of its [u16] leap-year
    formula underflows. *)
Theorem into_system_time_correct `{Build} (d : DateTime) :
  valid_datetime d → into_system_time d = Ret (mkSystemTime (epoch_secs d) 0).
Proof. intros. by apply into_system_time_fields, valid_datetime_in_range. Qed.

Lemma into_system_time_correct_witness :
  @into_system_time debug_build (mkDateTime 56 34 12 29 2 2024 4)
  = Ret (mkSystemTime 1709210096 0).
Proof.
  apply (@into_system_time_correct debug_build (mkDateTime 56 34 12 29 2 2024 4)).
  cbv; intuition discriminate.
Defined.

(** C32: [DateTime::from(SystemTime)] is total on the seconds from 1970 to 9999;
    its month, day, hour, minute, second and weekday are those of the one
    Gregorian date that the second falls on, and its year field is that date's
    year masked by the number of 400-year cycles. *)
Theorem from_system_time_correct (t : SystemTime) :
  0 ≤ tv_sec t < 253402300800 →
  ∃ y d, from_system_time t = Ret d
    ∧ civil_date (tv_sec t) y d ∧ year_c d = masked_year y (mon_c d).
Proof. destruct t. apply from_system_time_date. Qed.

Lemma from_system_time_correct_witness :
  ∃ y d, from_system_time (mkSystemTime 951782400 0) = Ret d
    ∧ civil_date 951782400 y d ∧ year_c d = masked_year y (mon_c d).
Proof.
  apply (from_system_time_correct (mkSystemTime 951782400 0)). simpl. lia.
Defined.

(** [DateTime::from(SystemTime)] panics outside the years 1970 to 9999, and
    only there. *)
Theorem from_system_time_panics (t : SystemTime) :
  (∃ p, from_system_time t = Panic p) ↔ (tv_sec t < 0 ∨ 253402300800 ≤ tv_sec t).
Proof.
  split.
  - intros [p Hp]. destruct (decide (0 ≤ tv_sec t < 253402300800)) as [Ht|]; [|lia].
    destruct t. destruct (from_system_time_date _ tv_nsec Ht) as (y & d & Hd & _).
    simpl in *. congruence.
  - unfold from_system_time, secs_since_epoch. intros [Ht|Ht].
    + rewrite (proj2 (Z.ltb_lt _ 0)) by done. eauto.
    + rewrite (proj2 (Z.ltb_ge _ 0)) by lia.
      rewrite (proj2 (Z.leb_le _ (tv_sec t))) by done. eauto.
Qed.

(** Converting a valid date to a [SystemTime] and back keeps every field
    except the year and the weekday: the year comes back masked, never equal to
    the one that went in, and the weekday is recomputed from the date. *)
Theorem system_time_roundtrip `{Build} (d : DateTime) :
  valid_datetime d →
  (t ← into_system_time d; from_system_time t)
    = Ret (mkDateTime (sec_c d) (min_c d) (hr_c d) (day_c d) (mon_c d)
             (masked_year (year_c d) (mon_c d)) (weekday (epoch_secs d / 86400)))
  ∧ masked_year (year_c d) (mon_c d) ≠ year_c d.
Proof.
  intros Hd. pose proof (valid_datetime_in_range _ Hd) as Hr.
  rewrite into_system_time_fields by done. simpl.
  destruct (from_system_time_date _ 0 (epoch_secs_bound _ Hr)) as (y & d' & -> & Hc & Hyr).
  destruct (civil_date_unique _ _ _ _ Hc Hd eq_refl) as (-> & ? & ? & ? & ? & ?).
  destruct Hc as (_ & _ & _ & Hw). destruct d'; simpl in *; subst.
  split; [done|]. destruct Hr as (Hy & _). pose proof (masked_year_range _ (mon_c d) Hy). lia.
Qed.

Lemma system_time_roundtrip_witness :
  (t ← @into_system_time release_build (mkDateTime 0 0 0 1 1 1970 4); from_system_time t)
    = Ret (mkDateTime 0 0 0 1 1 2770 4)
  ∧ 2770 ≠ 1970.
Proof.
  apply (@system_time_roundtrip release_build (mkDateTime 0 0 0 1 1 1970 4)).
  cbv; intuition discriminate.
Defined.

(** The order of [DateTime] is chronological: on valid dates [cmp] never
    panics and is the lexicographic order of year, month, day, hour, minute and
    second. *)
Theorem cmp_chronological `{Build} (d d' : DateTime) :
  valid_datetime d → valid_datetime d' →
  cmp d d' = Ret (lex_compare (datetime_key d) (datetime_key d')).
Proof.
  intros Hd Hd'. unfold cmp.
  rewrite !into_system_time_fields by (by apply valid_datetime_in_range).
  cbn [mbind comp_bind tv_sec tv_nsec]. rewrite <-epoch_secs_compare by done. by destruct (_ ?= _).
Qed.

Lemma cmp_chronological_witness :
  @cmp debug_build (mkDateTime 59 59 23 31 12 1999 5) (mkDateTime 0 0 0 1 1 2000 6) = Ret Lt.
Proof.
  apply (@cmp_chronological debug_build (mkDateTime 59 59 23 31 12 1999 5)
           (mkDateTime 0 0 0 1 1 2000 6)); cbv; intuition discriminate.
Defined.

(** [is_valid] rejects every date: the year never survives the round trip. *)
Lemma is_valid_false `{Build} (d : DateTime) :
  (0 ≤ sec_c d ∧ 0 ≤ min_c d ∧ 0 ≤ hr_c d) → is_valid d = Ret false.
Proof.
  intros Hnn. unfold is_valid. case_match eqn:E; [|done].
  assert (fields_in_range d) as Hr.
  { unfold fields_in_range, valid_time.
    repeat match goal with
    | H : (_ && _) = true |- _ => apply andb_prop in H as [? ?]
    | H : (_ <? _) = true |- _ => apply Z.ltb_lt in H
    | H : (_ <=? _) = true |- _ => apply Z.leb_le in H
    end. lia. }
  rewrite into_system_time_fields by done. simpl.
  pose proof (epoch_secs_bound _ Hr) as Hs.
  destruct (from_system_time_date _ 0 Hs) as (y & d' & -> & (Hv & Ht & Heq & _) & Hyr).
  simpl. f_equal. apply bool_decide_eq_false. intros ->.
  destruct Hr as (Hy & Hm & ? & _). pose proof (epoch_days_in_year _ _ _ Hv).
  destruct Hv as (Hy' & _ & _).
  destruct (masked_year_range y (mon_c d) Hy') as [?|?]; [|lia].
  pose proof (year_start_mono y (year_c d)).
  pose proof (month_start_bound (year_c d) (mon_c d) Hm).
  unfold epoch_secs in Heq. unfold epoch_days in *. lia.
Qed.
