(* ===== verification/DateText.v ===== *)
(** * The text formats of [DateTime]

    Theorems about [Display], about the three parsers and about [FromStr]. *)

From S2P Require Import Prelude DateTime Calendar.

(** ** The parsers never panic *)

(** No stop is allowed. *)
Abbreviation never := (λ _ : stop, False).

Lemma digit_value_range x : 0 ≤ digit_value x < 256.
Proof. unfold digit_value, uwrap. apply Z.mod_pos_bound. lia. Qed.

Definition in_result {A} (P : A → Prop) (r : result A DateTimeError) : Prop :=
  match r with Ok a => P a | Err _ => True end.

Lemma to_int_1_wp x : wp (to_int_1 x) never (in_result (λ v, 0 ≤ v ≤ 9)).
Proof.
  unfold to_int_1. pose proof (digit_value_range x). case_match eqn:E; [|done].
  apply Z.ltb_lt in E. simpl. lia.
Qed.

Lemma to_int_2_wp s : zlen s = 2 → wp (to_int_2 s) never (in_result (λ v, 0 ≤ v ≤ 99)).
Proof.
  intros Hs. unfold to_int_2. do 2 (apply wp_bind, wp_index; [lia|]; intros ? _).
  case_match eqn:E; [|done]. apply andb_prop in E as [?%Z.ltb_lt ?%Z.ltb_lt].
  pose proof (digit_value_range x). pose proof (digit_value_range x0). simpl. lia.
Qed.

Lemma to_int_4_wp s : zlen s = 4 → wp (to_int_4 s) never (in_result (λ v, 0 ≤ v ≤ 9999)).
Proof.
  intros Hs. unfold to_int_4. do 4 (apply wp_bind, wp_index; [lia|]; intros ? _).
  case_match eqn:E; [|done].
  apply andb_prop in E as [[[?%Z.ltb_lt ?%Z.ltb_lt]%andb_prop ?%Z.ltb_lt]%andb_prop ?%Z.ltb_lt].
  pose proof (digit_value_range x). pose proof (digit_value_range x0).
  pose proof (digit_value_range x1). pose proof (digit_value_range x2). simpl. lia.
Qed.

Lemma match_bytes_wp s arms :
  wp (match_bytes s arms) never (in_result (λ v, ∃ lit, In (lit, v) arms ∧ s = lit)).
Proof.
  induction arms as [|[lit v] arms IH]; [done|]. cbn [match_bytes]. case_bool_decide.
  - simpl. eauto.
  - eapply wp_mono; [exact IH|done|]. intros [a|e]; [|done]. intros (l & ? & ?). exists l. split; [by right|done].
Qed.

#[local] Arguments match_bytes : simpl never.

Lemma asctime_day_wp s : zlen s = 2 → wp (asctime_day s) never (in_result (λ v, 0 ≤ v ≤ 99)).
Proof.
  intros Hs. unfold asctime_day. apply wp_bind, wp_index; [lia|]. intros x0 _.
  case_bool_decide; [|by apply to_int_2_wp].
  apply wp_bind, wp_index; [lia|]. intros x1 _.
  eapply wp_mono; [apply to_int_1_wp|done|]. intros []; simpl; lia.
Qed.

Lemma or_else_wp a b (Q : bool → Prop) :
  wp a never (λ x, if (x : bool) then Q true else wp b never Q) → wp (or_else a b) never Q.
Proof. intros Ha. apply wp_bind. eapply wp_mono; [exact Ha|done|]. by intros []. Qed.

Lemma byte_ne_wp s i b (Q : bool → Prop) :
  0 ≤ i < zlen s → (∀ x, Q x) → wp (byte_ne s i b) never Q.
Proof. intros. apply wp_bind, wp_index; [done|]. intros. apply H0. Qed.

(** Reads the field [s[i..j]] with a converter that meets [Hc]. *)
Ltac read_field Hc :=
  apply wp_try_bind, wp_bind, wp_slice; [lia|lia|];
  eapply wp_mono;
  [apply Hc; rewrite ?zlen_ztake, ?zlen_zdrop by lia; lia|done|];
  intros [] ?; [|done].

Lemma parse_asctime_wp s :
  wp (parse_asctime s) never
    (in_result (λ d, 0 ≤ sec_c d ≤ 99 ∧ 0 ≤ min_c d ≤ 99 ∧ 0 ≤ hr_c d ≤ 99)).
Proof.
  unfold parse_asctime. apply wp_bind, or_else_wp. simpl.
  destruct (Z.eqb_spec (zlen s) 24) as [Hs|]; simpl; [|done].
  do 3 (apply or_else_wp, byte_ne_wp; [lia|]; intros []; [done|]).
  apply byte_ne_wp; [lia|]. intros []; [done|].
  do 3 read_field to_int_2_wp. read_field asctime_day_wp.
  read_field match_bytes_wp.
  read_field to_int_4_wp. read_field match_bytes_wp.
  unfold in_result in *. simpl. lia.
Qed.

(** ** The formats that end in [GMT] *)

(** The two tests compare four bytes of the input with the three of [GMT]. *)
Lemma slice_ne_length s i j lit :
  0 ≤ i ≤ j → j ≤ zlen s → j - i ≠ zlen lit → slice_ne s i j lit = Ret true.
Proof.
  intros. unfold slice_ne. rewrite slice_in by lia. simpl. f_equal.
  apply bool_decide_eq_true. intros Heq. apply (f_equal zlen) in Heq.
  rewrite zlen_ztake, zlen_zdrop in Heq by lia. lia.
Qed.

Lemma parse_imf_fixdate_fails s : parse_imf_fixdate s = fail.
Proof.
  unfold parse_imf_fixdate, or_else; simpl.
  destruct (Z.eqb_spec (zlen s) 29) as [Hs|]; simpl; [|done].
  rewrite Hs, slice_ne_length; [done|lia|lia|]. by change (zlen (bstr "GMT")) with 3.
Qed.

Lemma rfc850_wday_chain_wp s names :
  Forall (λ x, zlen x.2 ≤ zlen s) names →
  wp (rfc850_wday_chain s names) never (λ _, True).
Proof.
  induction 1 as [|[w name] names Hn _ IH]; [done|].
  cbn [rfc850_wday_chain]. simpl in Hn.
  pose proof (zlen_nonneg name).
  apply wp_bind. unfold rfc850_wday. apply wp_bind, wp_slice; [lia|lia|].
  case_bool_decide; [|exact IH].
  apply wp_bind, wp_slice; [lia|lia|]. done.
Qed.

#[local] Arguments rfc850_wday_chain : simpl never.

Lemma parse_rfc850_date_fails s : parse_rfc850_date s = fail.
Proof.
  unfold parse_rfc850_date. destruct (Z.ltb_spec (zlen s) 23) as [|Hs]; [done|].
  destruct (wp_returns _ _ (rfc850_wday_chain_wp s rfc850_wdays
    ltac:(repeat constructor; cbn -[Z.le]; unfold zlen in *; simpl; lia))) as (r & -> & _).
  simpl. destruct r as [[w s']|]; [|done]. unfold or_else; simpl.
  destruct (Z.eqb_spec (zlen s') 22) as [Hs'|]; simpl; [|done].
  destruct (wp_returns (byte_ne s' 12 ch_colon) (λ _, True)) as ([] & -> & _);
    [apply byte_ne_wp; [lia|done]|done|simpl].
  destruct (wp_returns (byte_ne s' 15 ch_colon) (λ _, True)) as ([] & -> & _);
    [apply byte_ne_wp; [lia|done]|done|simpl].
  rewrite slice_ne_length; [done|lia|lia|]. by change (zlen (bstr "GMT")) with 3.
Qed.

Lemma from_str_fails `{Build} (s : list byte) :
  from_str s = Ret (Err mkDateTimeError).
Proof.
  unfold from_str. destruct (is_ascii s); simpl; [|done].
  rewrite parse_imf_fixdate_fails, parse_rfc850_date_fails. simpl.
  destruct (wp_returns _ _ (parse_asctime_wp (trim s))) as (r & Hr & Hd).
  unfold try_bind. rewrite Hr. destruct r as [d|[]]; simpl; [|done].
  simpl in Hd. rewrite is_valid_false by lia. done.
Qed.

(** C33: [parse::<DateTime>()] rejects every string, in both builds and without
    panicking: the two [GMT] formats compare a four-byte slice with a
    three-byte literal, and an [asctime] date never passes [is_valid]. *)
Theorem from_str_rejects `{Build} (s : list byte) :
  from_str s = Ret (Err mkDateTimeError).
Proof. apply from_str_fails. Qed.

(** ** [Display] writes the IMF-fixdate layout *)

(** The decimal digit of [n] as ASCII. *)
Definition dig (n : Z) : byte := byte.of_Z (48 + n).

Definition two (n : Z) : list byte := [dig (n / 10); dig (n mod 10)].
Definition four (n : Z) : list byte :=
  [dig (n / 1000); dig (n / 100 mod 10); dig (n / 10 mod 10); dig (n mod 10)].

(** The fields of a [DateTime] fit their types, and the month and the weekday
    have a name. *)
Definition printable (d : DateTime) : Prop :=
  is_unsigned 8 (sec_c d) ∧ is_unsigned 8 (min_c d) ∧ is_unsigned 8 (hr_c d)
  ∧ is_unsigned 8 (day_c d) ∧ is_unsigned 16 (year_c d)
  ∧ 1 ≤ mon_c d ≤ 12 ∧ 1 ≤ wday_c d ≤ 7.

Definition imf_text (wday mon : list byte) (d : DateTime) : list byte :=
  wday ++ bstr ", " ++ two (day_c d) ++ bstr " " ++ mon ++ bstr " " ++ four (year_c d)
  ++ bstr " " ++ two (hr_c d) ++ bstr ":" ++ two (min_c d) ++ bstr ":" ++ two (sec_c d)
  ++ bstr " GMT".

Lemma digit_in `{Build} n : 0 ≤ n ≤ 79 → digit n = Ret (dig n).
Proof. intros. unfold digit, add_w. rewrite unsigned_op_in by lia. done. Qed.

Lemma dig_ascii n : 0 ≤ n ≤ 79 → in_range 0 127 (dig n) = true.
Proof.
  intros. unfold in_range, dig. rewrite byte.unsigned_of_Z. unfold byte.wrap.
  rewrite Z.mod_small by lia. zcases; lia.
Qed.

Ltac wday_cases w :=
  let H := fresh in
  assert (w = 1 ∨ w = 2 ∨ w = 3 ∨ w = 4 ∨ w = 5 ∨ w = 6 ∨ w = 7) as H by lia;
  destruct_or! H; subst w.

Lemma index3 {A} (a b c : A) :
  index [a; b; c] 0 = Ret a ∧ index [a; b; c] 1 = Ret b ∧ index [a; b; c] 2 = Ret c.
Proof. done. Qed.

Definition ascii3 (a b c : byte) : Prop := is_ascii [a; b; c] = true.

Lemma wday_name_in w :
  1 ≤ w ≤ 7 → ∃ a b c, wday_name w = Ret [a; b; c] ∧ ascii3 a b c
    ∧ match_bytes [a; b; c; ch_space] asctime_wdays = Ret (Ok w).
Proof. intros. wday_cases w; do 3 eexists; (split; [reflexivity|]); split; reflexivity. Qed.

Lemma mon_name_in m :
  1 ≤ m ≤ 12 → ∃ a b c, mon_name m = Ret [a; b; c] ∧ ascii3 a b c
    ∧ match_bytes [a; b; c; ch_space] asctime_months = Ret (Ok m).
Proof. intros. month_cases m; do 3 eexists; (split; [reflexivity|]); split; reflexivity. Qed.

Lemma fmt_printable `{Build} (d : DateTime) :
  printable d →
  ∃ w m, wday_name (wday_c d) = Ret w ∧ mon_name (mon_c d) = Ret m
    ∧ fmt d = Ret (imf_text w m d)
    ∧ zlen (imf_text w m d) = 29 ∧ is_ascii (imf_text w m d) = true.
Proof.
  unfold printable, is_unsigned. intros (Hs & Hmi & Hh & Hd & Hy & Hm & Hw).
  destruct (wday_name_in _ Hw) as (w0 & w1 & w2 & Hwn & Hwa & _).
  destruct (mon_name_in _ Hm) as (m0 & m1 & m2 & Hmn & Hma & _).
  exists [w0; w1; w2], [m0; m1; m2].
  assert (is_ascii (imf_text [w0; w1; w2] [m0; m1; m2] d) = true) as Ha.
  { unfold ascii3, is_ascii in *. cbn -[in_range dig] in *.
    apply andb_prop in Hwa as [-> [-> [-> _]%andb_prop]%andb_prop].
    apply andb_prop in Hma as [-> [-> [-> _]%andb_prop]%andb_prop].
    by rewrite !dig_ascii by dlia. }
  split_and!; try done. unfold fmt. rewrite Hwn, Hmn.
  destruct (index3 w0 w1 w2) as (Ew0 & Ew1 & Ew2), (index3 m0 m1 m2) as (Em0 & Em1 & Em2).
  cbn -[digit imf_text utf8_valid index]. rewrite Ew0, Ew1, Ew2, Em0, Em1, Em2.
  cbn -[digit imf_text utf8_valid]. unfold uwrap. rewrite !(Z.mod_small _ (2 ^ 8)) by dlia.
  repeat (rewrite digit_in by dlia; cbn -[digit imf_text utf8_valid dig]).
  match goal with |- (if utf8_valid ?l then _ else _) = _ =>
    change l with (imf_text [w0; w1; w2] [m0; m1; m2] d)
  end.
  by rewrite (utf8_valid_ascii _ Ha).
Qed.

(** For any [DateTime] whose month and weekday have a name, in both builds,
    [Display] does not panic and writes the 29 ASCII bytes of the IMF-fixdate
    layout: weekday, day, month, year and time in their fixed columns. *)
Theorem fmt_layout `{Build} (d : DateTime) :
  printable d →
  ∃ w m, wday_name (wday_c d) = Ret w ∧ mon_name (mon_c d) = Ret m
    ∧ fmt d = Ret (imf_text w m d)
    ∧ zlen (imf_text w m d) = 29 ∧ is_ascii (imf_text w m d) = true.
Proof. apply fmt_printable. Qed.

Lemma fmt_layout_witness :
  ∃ w m, wday_name 3 = Ret w ∧ mon_name 1 = Ret m
    ∧ @fmt debug_build (mkDateTime 0 0 0 1 1 2025 3)
      = Ret (imf_text w m (mkDateTime 0 0 0 1 1 2025 3))
    ∧ zlen (imf_text w m (mkDateTime 0 0 0 1 1 2025 3)) = 29
    ∧ is_ascii (imf_text w m (mkDateTime 0 0 0 1 1 2025 3)) = true.
Proof.
  apply (@fmt_layout debug_build (mkDateTime 0 0 0 1 1 2025 3)).
  cbv; intuition discriminate.
Defined.

(** Evaluates indexing, and slicing, of a list whose length is known. *)
Ltac eval_index :=
  cbv [index lookup list_lookup mbind comp_bind
       Z.to_nat Pos.to_nat Pos.iter_op Init.Nat.add
       Z.leb Z.compare Pos.compare Pos.compare_cont].
Ltac eval_slices :=
  cbv [slice ztake zdrop zlen length take drop app try_bind or_else byte_ne negb andb
       Z.of_nat Pos.of_succ_nat Z.eqb Pos.eqb Z.sub Z.add Z.opp Z.pos_sub
       Z.double Z.succ_double Z.pred_double Pos.add Pos.succ Pos.pred_double];
  eval_index.

(** ** [asctime] dates *)

(** The layout C's [asctime] writes: the day is padded with a space. *)
Definition asctime_pad (n : Z) : list byte :=
  if n <? 10 then [ch_space; dig n] else two n.

Definition asctime_text (wday mon : list byte) (d : DateTime) : list byte :=
  wday ++ [ch_space] ++ mon ++ [ch_space] ++ asctime_pad (day_c d) ++ [ch_space]
  ++ two (hr_c d) ++ [ch_colon] ++ two (min_c d) ++ [ch_colon] ++ two (sec_c d)
  ++ [ch_space] ++ four (year_c d).

(** Every field has the number of digits the format gives it. *)
Definition fits_text (d : DateTime) : Prop :=
  0 ≤ sec_c d ≤ 99 ∧ 0 ≤ min_c d ≤ 99 ∧ 0 ≤ hr_c d ≤ 99 ∧ 0 ≤ day_c d ≤ 99
  ∧ 0 ≤ year_c d ≤ 9999 ∧ 1 ≤ mon_c d ≤ 12 ∧ 1 ≤ wday_c d ≤ 7.

Lemma digit_value_dig n : 0 ≤ n ≤ 9 → digit_value (dig n) = n.
Proof.
  intros. unfold digit_value, dig, uwrap. rewrite byte.unsigned_of_Z. unfold byte.wrap.
  rewrite (Z.mod_small (48 + n)) by lia. rewrite Z.mod_small; lia.
Qed.

Lemma to_int_1_dig n : 0 ≤ n ≤ 9 → to_int_1 (dig n) = Ret (Ok n).
Proof.
  intros. unfold to_int_1. rewrite digit_value_dig by done. simpl.
  by rewrite (proj2 (Z.ltb_lt n 10)) by lia.
Qed.

Lemma to_int_2_two n : 0 ≤ n ≤ 99 → to_int_2 (two n) = Ret (Ok n).
Proof.
  intros. unfold to_int_2, two. eval_index. rewrite !digit_value_dig by dlia.
  rewrite !(proj2 (Z.ltb_lt _ 10)) by dlia. simpl. do 2 f_equal. dlia.
Qed.

Lemma to_int_4_four n : 0 ≤ n ≤ 9999 → to_int_4 (four n) = Ret (Ok n).
Proof.
  intros. unfold to_int_4, four. eval_index. rewrite !digit_value_dig by dlia.
  rewrite !(proj2 (Z.ltb_lt _ 10)) by dlia. simpl. do 2 f_equal. dlia.
Qed.

Lemma asctime_day_pad n : 0 ≤ n ≤ 99 → asctime_day (asctime_pad n) = Ret (Ok n).
Proof.
  intros. unfold asctime_pad. destruct (Z.ltb_spec n 10).
  - apply to_int_1_dig. lia.
  - unfold asctime_day.
    change (index (two n) 0) with (Ret (dig (n / 10))). cbn [mbind comp_bind].
    rewrite bool_decide_eq_false_2; [by apply to_int_2_two|].
    intros Heq%(f_equal byte.unsigned). revert Heq. unfold dig.
    rewrite byte.unsigned_of_Z. unfold byte.wrap. rewrite Z.mod_small by dlia.
    change (byte.unsigned ch_space) with 32. dlia.
Qed.

(** C35: [parse_asctime] inverts the [asctime] layout: it returns the date that
    was printed, for every value of the fields the layout can hold. *)
Theorem parse_asctime_roundtrip (d : DateTime) w m :
  fits_text d → wday_name (wday_c d) = Ret w → mon_name (mon_c d) = Ret m →
  parse_asctime (asctime_text w m d) = Ret (Ok d).
Proof.
  intros (Hs & Hmi & Hh & Hd & Hy & Hm & Hw) Hwn Hmn.
  destruct (wday_name_in _ Hw) as (w0 & w1 & w2 & Hwn' & _ & Hwm). simplify_eq/=.
  rewrite Hwn in Hwn'. injection Hwn' as ->.
  destruct (mon_name_in _ Hm) as (m0 & m1 & m2 & Hmn' & _ & Hmm).
  rewrite Hmn in Hmn'. injection Hmn' as ->.
  pose proof (asctime_day_pad _ Hd) as Hpad.
  assert (∃ a b, asctime_pad (day_c d) = [a; b]) as (a & b & Eab).
  { unfold asctime_pad, two. case_match; eauto. }
  unfold parse_asctime, asctime_text. rewrite Eab in *.
  pose proof (to_int_2_two _ Hs) as Es. pose proof (to_int_2_two _ Hmi) as Emi.
  pose proof (to_int_2_two _ Hh) as Eh. pose proof (to_int_4_four _ Hy) as Ey.
  unfold two, four in *. eval_slices.
  rewrite !bool_decide_eq_false_2 by (intros Hne; by apply Hne).
  rewrite Es, Emi, Eh, Hpad, Hmm, Ey, Hwm. by destruct d.
Qed.

Lemma parse_asctime_roundtrip_witness :
  parse_asctime (bstr "Wed Jan  1 00:00:00 2025") = Ret (Ok (mkDateTime 0 0 0 1 1 2025 3)).
Proof.
  apply (parse_asctime_roundtrip (mkDateTime 0 0 0 1 1 2025 3) (bstr "Wed") (bstr "Jan"));
    [cbv; intuition discriminate|reflexivity|reflexivity].
Defined.
