(* ===== verification/Buf.v ===== *)
(** * [bytes/src/buf/buf_impl.rs]: the [Buf] trait

    [BufCore] holds the three required methods of the trait, [Buf] adds the
    provided method that implementations override.  The state behind [&mut
    self] is passed and returned.  [BufLaws] is what the documentation of the
    trait promises of an implementation; every provided method is specified
    against it. *)

From S2P Require Import Prelude.
From coqutil Require Import Word.LittleEndianList.

(** ** The trait *)

Class BufCore (T : Type) := {
  remaining : T → Z;
  chunk : T → list byte;
  advance : T → Z → comp T;
}.

Definition has_remaining {T} `{BufCore T} (t : T) : bool := 0 <? remaining t.

(** The loop of [copy_to_slice]: [acc] is the part of [dst] already filled and
    [dst_len] the length of the rest.  Each round of a lawful implementation
    fills at least one byte, so that the initial length is enough fuel. *)
Fixpoint copy_loop {T} `{BufCore T} (fuel : nat) (t : T) (dst_len : Z) (acc : list byte)
    : comp (T * list byte) :=
  if dst_len =? 0 then Ret (t, acc) else
  match fuel with
  | O => Stop SFuel
  | S fuel' =>
      let src := chunk t in
      let cnt := Z.min (zlen src) dst_len in
      t' ← advance t cnt;
      copy_loop fuel' t' (dst_len - cnt) (acc ++ ztake cnt src)
  end.

(** [copy_to_slice] into a slice of [dst_len] bytes, with the slice's content
    after the call. *)
Definition default_copy_to_slice {T} `{BufCore T} (t : T) (dst_len : Z)
    : comp (T * list byte) :=
  if remaining t <? dst_len then Panic (PAdvance dst_len (remaining t))
  else copy_loop (Z.to_nat dst_len) t dst_len [].

Class Buf (T : Type) := {
  #[global] buf_core :: BufCore T;
  copy_to_slice : T → Z → comp (T * list byte);
}.

(** ** Endianness and integer conversions of the standard library *)

(** [cfg!(target_endian = "big")] *)
Class Target := big_endian : bool.

Definition from_le_bytes (bs : list byte) : Z := le_combine bs.
Definition from_be_bytes (bs : list byte) : Z := le_combine (reverse bs).
Definition from_ne_bytes `{Target} (bs : list byte) : Z :=
  if big_endian then from_be_bytes bs else from_le_bytes bs.

(** The signed conversions reinterpret the same bits. *)
Definition signed_of (conv : list byte → Z) (bs : list byte) : Z :=
  swrap (8 * zlen bs) (conv bs).

Definition to_le_bytes (size : nat) (z : Z) : list byte := le_split size z.
Definition to_be_bytes (size : nat) (z : Z) : list byte := reverse (le_split size z).
Definition to_ne_bytes `{Target} (size : nat) (z : Z) : list byte :=
  if big_endian then to_be_bytes size z else to_le_bytes size z.

(** ** Provided methods *)

Section provided.
Context {T : Type} `{Buf T}.

(** [chunks_vectored] with room for [slots] slices: the slices it stores. *)
Definition chunks_vectored (t : T) (slots : Z) : list (list byte) :=
  if slots =? 0 then []
  else if has_remaining t then [chunk t] else [].

Definition get_u8 (t : T) : comp (T * Z) :=
  if remaining t <? 1 then Panic (PAdvance 1 0) else
  b ← index (chunk t) 0;
  t' ← advance t 1;
  Ret (t', byte.unsigned b).

Definition get_i8 (t : T) : comp (T * Z) :=
  if remaining t <? 1 then Panic (PAdvance 1 0) else
  b ← index (chunk t) 0;
  t' ← advance t 1;
  Ret (t', swrap 8 (byte.unsigned b)).

(** [buf_get_impl!($this, $typ::$conv)]: convert in place when the chunk holds
    the whole integer, copy to a temporary buffer otherwise. *)
Definition buf_get_impl (size : Z) (conv : list byte → Z) (t : T) : comp (T * Z) :=
  if remaining t <? size then Panic (PAdvance size (remaining t)) else
  if size <=? zlen (chunk t) then
    let ret := conv (ztake size (chunk t)) in
    t' ← advance t size;
    Ret (t', ret)
  else
    '(t', buf) ← copy_to_slice t size;
    Ret (t', conv buf).

(** [buf_get_impl!(le => $this, $typ, $len_to_read)] *)
Definition buf_get_impl_le (size len_to_read : Z) (t : T) : comp (T * Z) :=
  if size <? len_to_read then Panic (PDoesNotFit size len_to_read) else
  '(t', sub) ← copy_to_slice t len_to_read;
  Ret (t', from_le_bytes (sub ++ replicate (Z.to_nat (size - len_to_read)) Byte.x00)).

(** [buf_get_impl!(be => $this, $typ, $len_to_read)] *)
Definition buf_get_impl_be (size len_to_read : Z) (t : T) : comp (T * Z) :=
  match checked_sub size len_to_read with
  | None => Panic (PDoesNotFit size len_to_read)
  | Some slice_at =>
      '(t', sub) ← copy_to_slice t (size - slice_at);
      Ret (t', from_be_bytes (replicate (Z.to_nat slice_at) Byte.x00 ++ sub))
  end.

Definition get_u16 : T → comp (T * Z) := buf_get_impl 2 from_be_bytes.
Definition get_u16_le : T → comp (T * Z) := buf_get_impl 2 from_le_bytes.
Definition get_u16_ne `{Target} : T → comp (T * Z) := buf_get_impl 2 from_ne_bytes.
Definition get_i16 : T → comp (T * Z) := buf_get_impl 2 (signed_of from_be_bytes).
Definition get_i16_le : T → comp (T * Z) := buf_get_impl 2 (signed_of from_le_bytes).
Definition get_i16_ne `{Target} : T → comp (T * Z) :=
  buf_get_impl 2 (signed_of from_ne_bytes).
Definition get_u32 : T → comp (T * Z) := buf_get_impl 4 from_be_bytes.
Definition get_u32_le : T → comp (T * Z) := buf_get_impl 4 from_le_bytes.
Definition get_u32_ne `{Target} : T → comp (T * Z) := buf_get_impl 4 from_ne_bytes.
Definition get_i32 : T → comp (T * Z) := buf_get_impl 4 (signed_of from_be_bytes).
Definition get_i32_le : T → comp (T * Z) := buf_get_impl 4 (signed_of from_le_bytes).
Definition get_i32_ne `{Target} : T → comp (T * Z) :=
  buf_get_impl 4 (signed_of from_ne_bytes).
Definition get_u64 : T → comp (T * Z) := buf_get_impl 8 from_be_bytes.
Definition get_u64_le : T → comp (T * Z) := buf_get_impl 8 from_le_bytes.
Definition get_u64_ne `{Target} : T → comp (T * Z) := buf_get_impl 8 from_ne_bytes.
Definition get_i64 : T → comp (T * Z) := buf_get_impl 8 (signed_of from_be_bytes).
Definition get_i64_le : T → comp (T * Z) := buf_get_impl 8 (signed_of from_le_bytes).
Definition get_i64_ne `{Target} : T → comp (T * Z) :=
  buf_get_impl 8 (signed_of from_ne_bytes).
Definition get_u128 : T → comp (T * Z) := buf_get_impl 16 from_be_bytes.
Definition get_u128_le : T → comp (T * Z) := buf_get_impl 16 from_le_bytes.
Definition get_u128_ne `{Target} : T → comp (T * Z) := buf_get_impl 16 from_ne_bytes.
Definition get_i128 : T → comp (T * Z) := buf_get_impl 16 (signed_of from_be_bytes).
Definition get_i128_le : T → comp (T * Z) := buf_get_impl 16 (signed_of from_le_bytes).
Definition get_i128_ne `{Target} : T → comp (T * Z) :=
  buf_get_impl 16 (signed_of from_ne_bytes).

Definition get_uint (t : T) (nbytes : Z) : comp (T * Z) := buf_get_impl_be 8 nbytes t.
Definition get_uint_le (t : T) (nbytes : Z) : comp (T * Z) := buf_get_impl_le 8 nbytes t.
Definition get_uint_ne `{Target} (t : T) (nbytes : Z) : comp (T * Z) :=
  if big_endian then get_uint t nbytes else get_uint_le t nbytes.
End provided.

(** [(val << shift) as i64 >> shift], with the shift the source computes.  The
    shift amounts are below 64, so that [<<] and [>>] have no overflow check to
    fail; the subtraction has one. *)
Definition sign_extend `{Build} (val nbytes : Z) : comp Z :=
  a ← usize_sub 8 nbytes;
  shift ← usize_add a 8;
  Ret (Z.shiftr (swrap 64 (uwrap 64 (Z.shiftl val shift))) shift).

Section provided_int.
Context {T : Type} `{Buf T} `{Build}.

Definition get_int (t : T) (nbytes : Z) : comp (T * Z) :=
  '(t', val) ← get_uint t nbytes;
  v ← sign_extend val nbytes; Ret (t', v).
Definition get_int_le (t : T) (nbytes : Z) : comp (T * Z) :=
  '(t', val) ← get_uint_le t nbytes;
  v ← sign_extend val nbytes; Ret (t', v).
Definition get_int_ne `{Target} (t : T) (nbytes : Z) : comp (T * Z) :=
  if big_endian then get_int t nbytes else get_int_le t nbytes.
End provided_int.

(** An [f32] or [f64] is its bit pattern: [from_bits] and [to_bits] are the
    identity on it. *)
Section provided_float.
Context {T : Type} `{Buf T}.

Definition get_f32 (t : T) : comp (T * Z) := get_u32 t.
Definition get_f32_le (t : T) : comp (T * Z) := get_u32_le t.
Definition get_f32_ne `{Target} (t : T) : comp (T * Z) := get_u32_ne t.
Definition get_f64 (t : T) : comp (T * Z) := get_u64 t.
Definition get_f64_le (t : T) : comp (T * Z) := get_u64_le t.
Definition get_f64_ne `{Target} (t : T) : comp (T * Z) := get_u64_ne t.
End provided_float.

(** ** Implementations in [buf_impl.rs] *)

(** [impl Buf for &[u8]] *)
#[global] Instance slice_core : BufCore (list byte) := {
  remaining s := zlen s;
  chunk s := s;
  advance s cnt := if zlen s <? cnt then Panic (PAdvance cnt (zlen s)) else Ret (zdrop cnt s);
}.

Definition slice_copy_to_slice (s : list byte) (dst_len : Z) : comp (list byte * list byte) :=
  if zlen s <? dst_len then Panic (PAdvance dst_len (zlen s)) else
  src ← slice s 0 dst_len;
  s' ← advance s dst_len;
  Ret (s', src).

#[global] Instance slice_buf : Buf (list byte) := { copy_to_slice := slice_copy_to_slice }.

(** [usize::try_from] on a [u64], for a 64-bit target. *)
Definition usize_try_from (b : Z) : option Z := if b <=? usize_max then Some b else None.

Definition saturating_sub_usize_u64 (a b : Z) : Z :=
  match usize_try_from b with Some b => saturating_sub a b | None => 0 end.

Definition min_u64_usize (a b : Z) : Z :=
  match usize_try_from a with Some a => Z.min a b | None => b end.

(** [std::io::Cursor<T>] over the bytes of [T], with its [u64] position. *)
Record Cursor := mkCursor { cur_inner : list byte; cur_pos : Z }.

Section cursor.
Context `{Build}.

Definition cursor_remaining (c : Cursor) : Z :=
  saturating_sub_usize_u64 (zlen (cur_inner c)) (cur_pos c).

(** The range never panics: [pos] is at most the length. *)
Definition cursor_chunk (c : Cursor) : list byte :=
  let s := cur_inner c in
  let pos := min_u64_usize (cur_pos c) (zlen s) in
  zdrop pos s.

Definition cursor_advance (c : Cursor) (cnt : Z) : comp Cursor :=
  let len := zlen (cur_inner c) in
  let pos := cur_pos c in
  let max_cnt := saturating_sub_usize_u64 len pos in
  if max_cnt <? cnt then Panic (PAdvance cnt max_cnt) else
  pos' ← add_w 64 pos cnt;
  Ret (mkCursor (cur_inner c) pos').

#[global] Instance cursor_core : BufCore Cursor := {
  remaining := cursor_remaining;
  chunk := cursor_chunk;
  advance := cursor_advance;
}.
#[global] Instance cursor_buf : Buf Cursor := { copy_to_slice := default_copy_to_slice }.
End cursor.

(** [deref_forward_buf!]: [&mut T] and [Box<T>] forward every method to [T]. *)
Record Deref (T : Type) := mkDeref { deref : T }.
Arguments mkDeref {T} _.
Arguments deref {T} _.

#[global] Instance deref_forward_core {T} `{Buf T} : BufCore (Deref T) := {
  remaining t := remaining (deref t);
  chunk t := chunk (deref t);
  advance t cnt := t' ← advance (deref t) cnt; Ret (mkDeref t');
}.
#[global] Instance deref_forward_buf {T} `{Buf T} : Buf (Deref T) := {
  copy_to_slice t n := '(t', bs) ← copy_to_slice (deref t) n; Ret (mkDeref t', bs);
}.

(** ** The contract of [Buf]

    [content] is what remains to be read.  [chunk] is a non-empty prefix of it
    unless nothing remains, and [advance] drops bytes or panics. *)

Class BufLaws (T : Type) `{Buf T} := {
  buf_wf : T → Prop;
  content : T → list byte;
  content_bound t : buf_wf t → zlen (content t) ≤ usize_max;
  remaining_content t : buf_wf t → remaining t = zlen (content t);
  chunk_prefix t : buf_wf t → ∃ k, content t = chunk t ++ k;
  chunk_nonempty t : buf_wf t → content t ≠ [] → chunk t ≠ [];
  advance_ok t n : buf_wf t → 0 ≤ n ≤ zlen (content t) →
    ∃ t', advance t n = Ret t' ∧ buf_wf t' ∧ content t' = zdrop n (content t);
  advance_panics t n : buf_wf t → zlen (content t) < n ≤ usize_max →
    ∃ p, advance t n = Panic p;
  copy_to_slice_ok t n : buf_wf t → 0 ≤ n ≤ zlen (content t) →
    ∃ t', copy_to_slice t n = Ret (t', ztake n (content t))
      ∧ buf_wf t' ∧ content t' = zdrop n (content t);
  copy_to_slice_panics t n : buf_wf t → zlen (content t) < n ≤ usize_max →
    ∃ p, copy_to_slice t n = Panic p;
}.

(** The law of [copy_to_slice] holds of the provided method, so that an
    implementation that does not override it has only the others to prove. *)
Section default_copy.
Context {T : Type} `{BufCore T} (wf : T → Prop) (cont : T → list byte).
Context (Hpre : ∀ t, wf t → ∃ k, cont t = chunk t ++ k).
Context (Hne : ∀ t, wf t → cont t ≠ [] → chunk t ≠ []).
Context (Hadv : ∀ t n, wf t → 0 ≤ n ≤ zlen (cont t) →
  ∃ t', advance t n = Ret t' ∧ wf t' ∧ cont t' = zdrop n (cont t)).
Context (Hrem : ∀ t, wf t → remaining t = zlen (cont t)).

Lemma copy_loop_ok fuel t n acc :
  wf t → 0 ≤ n ≤ zlen (cont t) → n ≤ Z.of_nat fuel →
  ∃ t', copy_loop fuel t n acc = Ret (t', acc ++ ztake n (cont t))
    ∧ wf t' ∧ cont t' = zdrop n (cont t).
Proof using Hpre Hne Hadv.
  revert t n acc. induction fuel as [|fuel IH]; intros t n acc Hwf Hn Hf; simpl.
  - assert (n = 0) as -> by lia. exists t. simpl. by rewrite app_nil_r.
  - destruct (Z.eqb_spec n 0) as [->|Hn0]; [exists t; by rewrite app_nil_r|].
    destruct (Hpre t Hwf) as [k Hk].
    assert (0 < zlen (chunk t)) as Hpos.
    { pose proof (zlen_nonneg (chunk t)).
      assert (zlen (chunk t) ≠ 0); [|lia]. intros ?%zlen_nil_inv.
      destruct (Hne t Hwf); [|done]. intros E. rewrite E in Hn. unfold zlen in Hn. simpl in Hn. lia. }
    set (cnt := Z.min (zlen (chunk t)) n).
    destruct (Hadv t cnt Hwf) as (t' & -> & Hwf' & Hc'); [lia|]. simpl.
    assert (zlen (cont t') = zlen (cont t) - cnt) as Hl.
    { rewrite Hc', zlen_zdrop; lia. }
    destruct (IH t' (n - cnt) (acc ++ ztake cnt (chunk t)) Hwf') as (t'' & -> & Hwf'' & Hc'');
      [lia|lia|].
    exists t''. split_and!; [|done|].
    + do 2 f_equal. rewrite <-(assoc_L (++)). f_equal. rewrite Hc'.
      replace (ztake n (cont t)) with (ztake (cnt + (n - cnt)) (cont t)) by (f_equal; lia).
      rewrite ztake_add by lia. f_equal. rewrite Hk, ztake_app_le; [done|lia].
    + rewrite Hc'', Hc', zdrop_zdrop by lia. f_equal. lia.
Qed.

Lemma default_copy_ok t n :
  wf t → 0 ≤ n ≤ zlen (cont t) →
  ∃ t', default_copy_to_slice t n = Ret (t', ztake n (cont t))
    ∧ wf t' ∧ cont t' = zdrop n (cont t).
Proof using All.
  intros Hwf Hn. unfold default_copy_to_slice. rewrite Hrem by done.
  rewrite (proj2 (Z.ltb_ge _ _)) by lia.
  apply (copy_loop_ok _ t n [] Hwf Hn). lia.
Qed.

Lemma default_copy_panics t n :
  wf t → zlen (cont t) < n ≤ usize_max → ∃ p, default_copy_to_slice t n = Panic p.
Proof using Hrem.
  intros Hwf Hn. unfold default_copy_to_slice. rewrite Hrem by done.
  rewrite (proj2 (Z.ltb_lt _ _)) by lia. eauto.
Qed.
End default_copy.

(** ** The implementations meet the contract *)

#[global] Program Instance slice_laws : BufLaws (list byte) := {
  buf_wf s := zlen s ≤ usize_max;
  content s := s;
}.
Next Obligation. done. Qed.
Next Obligation. done. Qed.
Next Obligation. intros s _. exists []. by rewrite app_nil_r. Qed.
Next Obligation. done. Qed.
Next Obligation.
  simpl. intros s n Hs Hn. rewrite (proj2 (Z.ltb_ge _ _)) by lia.
  eexists. split_and!; [done| |done]. rewrite zlen_zdrop; lia.
Qed.
Next Obligation. simpl. intros s n _ [Hn _]. rewrite (proj2 (Z.ltb_lt _ _)) by done. eauto. Qed.
Next Obligation.
  simpl. unfold slice_copy_to_slice. intros s n Hs Hn.
  rewrite (proj2 (Z.ltb_ge _ _)), slice_in by lia. simpl.
  rewrite (proj2 (Z.ltb_ge _ _)) by lia. simpl. rewrite Z.sub_0_r.
  eexists. split_and!; [done| |done]. rewrite zlen_zdrop; lia.
Qed.
Next Obligation.
  simpl. unfold slice_copy_to_slice. intros s n _ [Hn _].
  rewrite (proj2 (Z.ltb_lt _ _)) by done. eauto.
Qed.

Section cursor_laws.
Context `{Build}.

Definition cursor_wf (c : Cursor) : Prop :=
  zlen (cur_inner c) ≤ isize_max ∧ is_unsigned 64 (cur_pos c).
Definition cursor_content (c : Cursor) : list byte := zdrop (cur_pos c) (cur_inner c).

Lemma cursor_remaining_content c : cursor_wf c → remaining c = zlen (cursor_content c).
Proof.
  intros [Hl [Hp Hp']]. simpl. unfold cursor_remaining, saturating_sub_usize_u64, usize_try_from.
  rewrite (proj2 (Z.leb_le _ _)) by (unfold usize_max; lia).
  unfold cursor_content, saturating_sub. rewrite zlen_zdrop; lia.
Qed.

Lemma cursor_chunk_content c : cursor_wf c → chunk c = cursor_content c.
Proof.
  intros [Hl [Hp Hp']]. simpl. unfold cursor_chunk, min_u64_usize, usize_try_from.
  rewrite (proj2 (Z.leb_le _ _)) by (unfold usize_max; lia).
  unfold cursor_content. destruct (Z.min_spec (cur_pos c) (zlen (cur_inner c))) as [[? ->]|[? ->]];
    [done|]. rewrite !zdrop_all; [done|lia|lia].
Qed.

Lemma cursor_advance_ok c n :
  cursor_wf c → 0 ≤ n ≤ zlen (cursor_content c) →
  ∃ c', advance c n = Ret c' ∧ cursor_wf c' ∧ cursor_content c' = zdrop n (cursor_content c).
Proof.
  intros Hwf Hn. pose proof (cursor_remaining_content c Hwf) as Hrem.
  simpl in *. unfold cursor_advance. unfold cursor_remaining in Hrem. rewrite Hrem.
  rewrite (proj2 (Z.ltb_ge _ _)) by lia.
  destruct Hwf as [Hl [Hp Hp']]. unfold cursor_content in *. rewrite zlen_zdrop in Hn by lia.
  assert (cur_pos c + n < 2 ^ 64) by (unfold isize_max in *; lia).
  unfold add_w. rewrite unsigned_op_in by lia. eexists. split_and!; [done| |].
  - split; simpl; [done|]. split; simpl; lia.
  - simpl. rewrite zdrop_zdrop; [done|lia|lia].
Qed.

Lemma cursor_advance_panics c n :
  cursor_wf c → zlen (cursor_content c) < n ≤ usize_max → ∃ p, advance c n = Panic p.
Proof.
  intros Hwf Hn. pose proof (cursor_remaining_content c Hwf) as Hrem.
  simpl in *. unfold cursor_advance. unfold cursor_remaining in Hrem. rewrite Hrem.
  rewrite (proj2 (Z.ltb_lt _ _)) by lia. eauto.
Qed.

Lemma cursor_chunk_prefix c : cursor_wf c → ∃ k, cursor_content c = chunk c ++ k.
Proof. intros. exists []. by rewrite cursor_chunk_content, app_nil_r. Qed.

Lemma cursor_chunk_nonempty c : cursor_wf c → cursor_content c ≠ [] → chunk c ≠ [].
Proof. intros. by rewrite cursor_chunk_content. Qed.

Lemma cursor_content_bound c : cursor_wf c → zlen (cursor_content c) ≤ usize_max.
Proof.
  intros [Hl [Hp _]]. unfold cursor_content. rewrite zlen_zdrop by done.
  unfold isize_max, usize_max in *. lia.
Qed.

#[global] Instance cursor_laws : BufLaws Cursor := {|
  buf_wf := cursor_wf;
  content := cursor_content;
  content_bound := cursor_content_bound;
  remaining_content := cursor_remaining_content;
  chunk_prefix := cursor_chunk_prefix;
  chunk_nonempty := cursor_chunk_nonempty;
  advance_ok := cursor_advance_ok;
  advance_panics := cursor_advance_panics;
  copy_to_slice_ok := default_copy_ok cursor_wf cursor_content cursor_chunk_prefix
    cursor_chunk_nonempty cursor_advance_ok cursor_remaining_content;
  copy_to_slice_panics := default_copy_panics cursor_wf cursor_content
    cursor_remaining_content;
|}.
End cursor_laws.

#[global] Program Instance deref_laws {T} `{BufLaws T} : BufLaws (Deref T) := {
  buf_wf t := buf_wf (deref t);
  content t := content (deref t);
}.
Next Obligation. simpl. intros. by apply content_bound. Qed.
Next Obligation. simpl. intros. by apply remaining_content. Qed.
Next Obligation. simpl. intros. by apply chunk_prefix. Qed.
Next Obligation. simpl. intros. by apply chunk_nonempty. Qed.
Next Obligation.
  simpl. intros T ?? t n Hwf Hn. destruct (advance_ok _ _ Hwf Hn) as (t' & E & ?).
  rewrite E. simpl. by exists (mkDeref t').
Qed.
Next Obligation.
  simpl. intros T ?? t n Hwf Hn. destruct (advance_panics _ _ Hwf Hn) as (p & E).
  rewrite E. simpl. eauto.
Qed.
Next Obligation.
  simpl. intros T ?? t n Hwf Hn. destruct (copy_to_slice_ok _ _ Hwf Hn) as (t' & E & ?).
  rewrite E. simpl. by exists (mkDeref t').
Qed.
Next Obligation.
  simpl. intros T ?? t n Hwf Hn. destruct (copy_to_slice_panics _ _ Hwf Hn) as (p & E).
  rewrite E. simpl. eauto.
Qed.

(** ** Integer encodings *)

Lemma length_to_be size z : zlen (to_be_bytes size z) = Z.of_nat size.
Proof. unfold zlen, to_be_bytes. by rewrite length_reverse, length_le_split. Qed.

Lemma length_to_le size z : zlen (to_le_bytes size z) = Z.of_nat size.
Proof. unfold zlen, to_le_bytes. by rewrite length_le_split. Qed.

Lemma from_to_le size z :
  from_le_bytes (to_le_bytes size z) = z mod 2 ^ (8 * Z.of_nat size).
Proof.
  unfold from_le_bytes, to_le_bytes. rewrite le_combine_split. do 2 f_equal. lia.
Qed.

Lemma from_to_be size z :
  from_be_bytes (to_be_bytes size z) = z mod 2 ^ (8 * Z.of_nat size).
Proof.
  unfold from_be_bytes, to_be_bytes. rewrite reverse_involutive. apply from_to_le.
Qed.

(** Zero bytes at the most significant end do not change the value. *)
Lemma le_combine_pad bs n : le_combine (bs ++ replicate n Byte.x00) = le_combine bs.
Proof.
  assert (replicate n Byte.x00 = List.repeat Byte.x00 n) as ->
    by (induction n; simpl; congruence).
  apply le_combine_app_0.
Qed.

Lemma from_le_bytes_bound bs : 0 ≤ from_le_bytes bs < 2 ^ (8 * zlen bs).
Proof. apply le_combine_bound. Qed.

Lemma from_be_bytes_bound bs : 0 ≤ from_be_bytes bs < 2 ^ (8 * zlen bs).
Proof.
  unfold from_be_bytes. pose proof (from_le_bytes_bound (reverse bs)) as Hb.
  unfold zlen in *. by rewrite length_reverse in Hb.
Qed.

(** The wrap of a signed value that is in range is the value itself, and it
    only depends on the bits it keeps. *)
Lemma swrap_in w z : 0 < w → is_signed w z → swrap w z = z.
Proof.
  intros Hw [Hl Hu]. unfold swrap.
  assert (2 ^ w = 2 * 2 ^ (w - 1)) as Hp.
  { rewrite <-Z.pow_succ_r by lia. f_equal. lia. }
  rewrite Z.mod_small; lia.
Qed.

Lemma swrap_mod w z : 0 ≤ w → swrap w (z mod 2 ^ w) = swrap w z.
Proof. intros. unfold swrap. by rewrite Z.add_mod_idemp_l by (apply Z.pow_nonzero; lia). Qed.

(** ** Specifications of the provided methods *)

Section specs.
Context {T : Type} `{BufLaws T}.

(** A method that reads [size] bytes and converts them with [conv]. *)
Definition reads (size : Z) (conv : list byte → Z) (get : T → comp (T * Z)) : Prop :=
  ∀ t, buf_wf t →
    (size ≤ zlen (content t) →
      ∃ t', get t = Ret (t', conv (ztake size (content t)))
        ∧ buf_wf t' ∧ content t' = zdrop size (content t))
    ∧ (zlen (content t) < size → ∃ p, get t = Panic p).

Lemma buf_get_impl_reads size conv : 0 ≤ size → reads size conv (buf_get_impl size conv).
Proof.
  intros Hs t Hwf. unfold buf_get_impl. rewrite remaining_content by done. split.
  - intros Hl. rewrite (proj2 (Z.ltb_ge _ _)) by lia.
    destruct (chunk_prefix t Hwf) as [k Hk].
    destruct (Z.leb_spec size (zlen (chunk t))).
    + destruct (advance_ok t size Hwf) as (t' & -> & ? & ?); [lia|].
      exists t'. split_and!; try done. simpl. do 3 f_equal.
      by rewrite Hk, ztake_app_le.
    + destruct (copy_to_slice_ok t size Hwf) as (t' & -> & ? & ?); [lia|].
      by exists t'.
  - intros Hl. rewrite (proj2 (Z.ltb_lt _ _)) by lia. eauto.
Qed.

Lemma get_uint_reads nbytes :
  0 ≤ nbytes ≤ 8 → reads nbytes from_be_bytes (λ t, get_uint t nbytes).
Proof.
  intros Hn t Hwf. unfold get_uint, buf_get_impl_be, checked_sub.
  rewrite (proj2 (Z.leb_le _ _)) by lia.
  replace (8 - (8 - nbytes)) with nbytes by lia. split.
  - intros Hl. destruct (copy_to_slice_ok t nbytes Hwf) as (t' & -> & ? & ?); [lia|].
    exists t'. split_and!; try done. simpl. do 2 f_equal.
    unfold from_be_bytes. rewrite reverse_app, reverse_replicate.
    apply le_combine_pad.
  - intros Hl. destruct (copy_to_slice_panics t nbytes Hwf) as (p & ->); [unfold usize_max; lia|].
    simpl. eauto.
Qed.

Lemma get_uint_le_reads nbytes :
  0 ≤ nbytes ≤ 8 → reads nbytes from_le_bytes (λ t, get_uint_le t nbytes).
Proof.
  intros Hn t Hwf. unfold get_uint_le, buf_get_impl_le.
  rewrite (proj2 (Z.ltb_ge _ _)) by lia. split.
  - intros Hl. destruct (copy_to_slice_ok t nbytes Hwf) as (t' & -> & ? & ?); [lia|].
    exists t'. split_and!; try done. simpl. do 2 f_equal. apply le_combine_pad.
  - intros Hl. destruct (copy_to_slice_panics t nbytes Hwf) as (p & ->); [unfold usize_max; lia|].
    simpl. eauto.
Qed.
End specs.

(** The source's shift [(8 - nbytes) + 8] keeps [48 + nbytes] bits. *)
Lemma sign_extend_bits `{Build} val nbytes :
  0 ≤ nbytes ≤ 8 → sign_extend val nbytes = Ret (swrap (48 + nbytes) val).
Proof.
  intros Hn. unfold sign_extend. rewrite usize_sub_in by lia. simpl.
  rewrite usize_add_in by lia. simpl. f_equal.
  set (s := 8 - nbytes + 8). set (w := 48 + nbytes).
  rewrite Z.shiftr_div_pow2, Z.shiftl_mul_pow2 by lia. unfold swrap, uwrap.
  rewrite Z.add_mod_idemp_l by done.
  assert (2 ^ 64 = 2 ^ w * 2 ^ s) as E64 by (rewrite <-Z.pow_add_r by lia; f_equal; lia).
  assert (2 ^ (64 - 1) = 2 ^ (w - 1) * 2 ^ s) as E63
    by (rewrite <-Z.pow_add_r by lia; f_equal; lia).
  rewrite E64, E63, <-Z.mul_add_distr_r.
  rewrite Z.mul_mod_distr_r by (apply Z.pow_nonzero; lia).
  rewrite <-Z.mul_sub_distr_r. apply Z.div_mul. apply Z.pow_nonzero; lia.
Qed.
