(* ===== verification/BufAdapters.v ===== *)
(** * The readers built on [Buf]: [take.rs], [chain.rs], [vec_deque.rs],
    [iter.rs] and [reader.rs] of [bytes/src/buf]

    Each adapter is a record with the fields of the source; its [BufLaws]
    instance is proved from the one of the buffers inside. *)

From S2P Require Import Prelude Buf.

(** ** [Take] *)

Record Take (T : Type) := mkTake { tk_inner : T; tk_limit : Z }.
Arguments mkTake {T} _ _.
Arguments tk_inner {T} _.
Arguments tk_limit {T} _.

Section take.
Context `{Build} {T : Type} `{Buf T}.

Definition take_new (inner : T) (limit : Z) : Take T := mkTake inner limit.
Definition take_into_inner (t : Take T) : T := tk_inner t.
Definition take_set_limit (t : Take T) (new_limit : Z) : Take T :=
  mkTake (tk_inner t) new_limit.

Definition take_remaining (t : Take T) : Z := Z.min (remaining (tk_inner t)) (tk_limit t).

(** The range ends at most at the length of the chunk. *)
Definition take_chunk (t : Take T) : list byte :=
  let bytes := chunk (tk_inner t) in
  ztake (Z.min (zlen bytes) (tk_limit t)) bytes.

Definition take_advance (t : Take T) (cnt : Z) : comp (Take T) :=
  rust_assert (cnt <=? tk_limit t);;
  inner ← advance (tk_inner t) cnt;
  limit ← usize_sub (tk_limit t) cnt;
  Ret (mkTake inner limit).

#[global] Instance take_core : BufCore (Take T) := {
  remaining := take_remaining;
  chunk := take_chunk;
  advance := take_advance;
}.
#[global] Instance take_buf : Buf (Take T) := { copy_to_slice := default_copy_to_slice }.
End take.

(** ** [Chain], as a reader *)

Record Chain (T U : Type) := mkChain { ch_a : T; ch_b : U }.
Arguments mkChain {T U} _ _.
Arguments ch_a {T U} _.
Arguments ch_b {T U} _.

Section chain.
Context `{Build} {T U : Type} `{Buf T} `{Buf U}.

Definition chain_new (a : T) (b : U) : Chain T U := mkChain a b.
Definition chain_into_inner (c : Chain T U) : T * U := (ch_a c, ch_b c).

Definition chain_remaining (c : Chain T U) : Z :=
  saturating_add 64 (remaining (ch_a c)) (remaining (ch_b c)).

Definition chain_chunk (c : Chain T U) : list byte :=
  if has_remaining (ch_a c) then chunk (ch_a c) else chunk (ch_b c).

Definition chain_advance (c : Chain T U) (cnt : Z) : comp (Chain T U) :=
  let a_rem := remaining (ch_a c) in
  if negb (a_rem =? 0) then
    if cnt <? a_rem then
      a ← advance (ch_a c) cnt; Ret (mkChain a (ch_b c))
    else
      a ← advance (ch_a c) a_rem;
      cnt ← usize_sub cnt a_rem;
      b ← advance (ch_b c) cnt; Ret (mkChain a b)
  else
    b ← advance (ch_b c) cnt; Ret (mkChain (ch_a c) b).

#[global] Instance chain_core : BufCore (Chain T U) := {
  remaining := chain_remaining;
  chunk := chain_chunk;
  advance := chain_advance;
}.
#[global] Instance chain_buf : Buf (Chain T U) := { copy_to_slice := default_copy_to_slice }.
End chain.

(** [Chain::chunks_vectored] on a [dst] of slices: [dst] after the call and the
    number it returns.  The second buffer gets the first [n] slots, those the
    first buffer has just filled. *)
Section chain_vectored.
Context {T U : Type} (va : T → Z → list (list byte)) (vb : U → Z → list (list byte)).

(** A buffer stores its slices at the front of [dst]. *)
Definition store_front (slices dst : list (list byte)) : list (list byte) :=
  slices ++ zdrop (zlen slices) dst.

Definition chain_chunks_vectored (c : Chain T U) (dst : list (list byte))
    : list (list byte) * Z :=
  let sa := va (ch_a c) (zlen dst) in
  let dst := store_front sa dst in
  let n := zlen sa in
  let sb := vb (ch_b c) (zlen (ztake n dst)) in
  let dst := store_front sb (ztake n dst) ++ zdrop n dst in
  (dst, n + zlen sb).
End chain_vectored.

(** ** [VecDeque<u8>]

    The ring buffer, as the two slices of [as_slices]. *)

Record VecDeque := mkVecDeque { vd_front : list byte; vd_back : list byte }.

Definition vd_len (d : VecDeque) : Z := zlen (vd_front d) + zlen (vd_back d).

(** [drain(..cnt)], whose iterator is dropped at once: the head moves on; when
    the first slice is used up, the rest is contiguous. *)
Definition vd_drain (d : VecDeque) (cnt : Z) : comp VecDeque :=
  if vd_len d <? cnt then Panic PIndex
  else if cnt <? zlen (vd_front d) then
    Ret (mkVecDeque (zdrop cnt (vd_front d)) (vd_back d))
  else Ret (mkVecDeque (zdrop (cnt - zlen (vd_front d)) (vd_back d)) []).

Definition vd_chunk (d : VecDeque) : list byte :=
  match vd_front d with [] => vd_back d | _ => vd_front d end.

#[global] Instance vd_core : BufCore VecDeque := {
  remaining := vd_len;
  chunk := vd_chunk;
  advance := vd_drain;
}.
#[global] Instance vd_buf : Buf VecDeque := { copy_to_slice := default_copy_to_slice }.

(** ** [IntoIter] *)

Record IntoIter (T : Type) := mkIntoIter { it_inner : T }.
Arguments mkIntoIter {T} _.
Arguments it_inner {T} _.

Section iter.
Context {T : Type} `{Buf T}.

Definition iter_new (inner : T) : IntoIter T := mkIntoIter inner.

Definition iter_next (it : IntoIter T) : comp (IntoIter T * option byte) :=
  if negb (has_remaining (it_inner it)) then Ret (it, None) else
  b ← index (chunk (it_inner it)) 0;
  inner ← advance (it_inner it) 1;
  Ret (mkIntoIter inner, Some b).

Definition iter_size_hint (it : IntoIter T) : Z * option Z :=
  let rem := remaining (it_inner it) in (rem, Some rem).

(** A [for] loop over the iterator, with the items it sees.  An iterator over
    [n] bytes is exhausted after [n + 1] calls of [next]. *)
Fixpoint iter_collect (fuel : nat) (it : IntoIter T) : comp (list byte) :=
  match fuel with
  | O => Stop SFuel
  | S fuel' =>
      '(it', item) ← iter_next it;
      match item with
      | None => Ret []
      | Some b => rest ← iter_collect fuel' it'; Ret (b :: rest)
      end
  end.
End iter.

(** ** [Reader] *)

Record Reader (B : Type) := mkReader { rd_buf : B }.
Arguments mkReader {B} _.
Arguments rd_buf {B} _.

Section reader.
Context {B : Type} `{Buf B}.

Definition reader_new (b : B) : Reader B := mkReader b.

(** [read] into a buffer: the buffer after the call and the count. *)
Definition reader_read (r : Reader B) (dst : list byte) : comp (Reader B * list byte * Z) :=
  let len := Z.min (remaining (rd_buf r)) (zlen dst) in
  '(b, bs) ← copy_to_slice (rd_buf r) len;
  Ret (mkReader b, bs ++ zdrop len dst, len).

Definition reader_fill_buf (r : Reader B) : list byte := chunk (rd_buf r).

Definition reader_consume (r : Reader B) (amt : Z) : comp (Reader B) :=
  b ← advance (rd_buf r) amt; Ret (mkReader b).
End reader.

(** ** The adapters meet the contract *)

(** The boolean test of a non-empty remainder. *)
Lemma has_remaining_spec {T} `{BufLaws T} (t : T) :
  buf_wf t → has_remaining t = bool_decide (content t ≠ []).
Proof.
  intros Hwf. unfold has_remaining. rewrite remaining_content by done.
  destruct (content t) as [|b l]; [done|]. rewrite bool_decide_true by done.
  apply Z.ltb_lt. unfold zlen. simpl. lia.
Qed.

Section take_laws.
Context `{Build} {T : Type} `{BufLaws T}.
Implicit Types t : Take T.

Definition take_wf t : Prop := buf_wf (tk_inner t) ∧ is_usize (tk_limit t).
Definition take_content t : list byte := ztake (tk_limit t) (content (tk_inner t)).

Lemma take_content_len t :
  take_wf t → zlen (take_content t) = Z.min (tk_limit t) (zlen (content (tk_inner t))).
Proof. intros [_ [? _]]. unfold take_content. by rewrite zlen_ztake. Qed.

Lemma take_content_bound t : take_wf t → zlen (take_content t) ≤ usize_max.
Proof.
  intros Hwf. rewrite take_content_len by done. destruct Hwf as [Hi _].
  pose proof (content_bound _ Hi). lia.
Qed.

Lemma take_remaining_content t : take_wf t → remaining t = zlen (take_content t).
Proof.
  intros Hwf. rewrite take_content_len by done. destruct Hwf as [Hi _].
  simpl. unfold take_remaining. rewrite remaining_content by done. lia.
Qed.

Lemma take_chunk_prefix t : take_wf t → ∃ k, take_content t = chunk t ++ k.
Proof.
  intros [Hi [Hl _]]. destruct (chunk_prefix _ Hi) as [k Hk].
  simpl. unfold take_content, take_chunk. rewrite Hk.
  destruct (Z.min_spec (zlen (chunk (tk_inner t))) (tk_limit t)) as [[? ->]|[? ->]].
  - rewrite ztake_app_ge by lia. rewrite (ztake_all (zlen _)) by done. eauto.
  - rewrite ztake_app_le by done. exists []. by rewrite app_nil_r.
Qed.

Lemma take_chunk_nonempty t : take_wf t → take_content t ≠ [] → chunk t ≠ [].
Proof.
  intros [Hi [Hl _]] Hne Hch. simpl in Hch. unfold take_chunk in Hch.
  assert (content (tk_inner t) ≠ []) as Hc.
  { intros E. apply Hne. unfold take_content, ztake. by rewrite E, take_nil. }
  pose proof (chunk_nonempty _ Hi Hc) as Hcn.
  assert (0 < tk_limit t) as Hlim.
  { destruct (decide (tk_limit t = 0)) as [E|]; [|lia]. destruct Hne.
    unfold take_content. by rewrite E. }
  apply (f_equal zlen) in Hch. pose proof (zlen_nonneg (chunk (tk_inner t))).
  rewrite zlen_ztake in Hch by lia. unfold zlen in Hch at 3. simpl in Hch.
  apply Hcn, zlen_nil_inv. lia.
Qed.

Lemma take_advance_ok t n :
  take_wf t → 0 ≤ n ≤ zlen (take_content t) →
  ∃ t', advance t n = Ret t' ∧ take_wf t' ∧ take_content t' = zdrop n (take_content t).
Proof.
  intros Hwf Hn. rewrite take_content_len in Hn by done. destruct Hwf as [Hi [Hl Hu]].
  simpl. unfold take_advance. rewrite (proj2 (Z.leb_le _ _)) by lia. simpl.
  destruct (advance_ok _ n Hi) as (i' & -> & Hi' & Hc'); [lia|]. simpl.
  rewrite usize_sub_in by lia. eexists. split_and!; [done| |].
  - split; simpl; [done|]. split; lia.
  - unfold take_content. simpl. rewrite Hc'. unfold ztake, zdrop.
    rewrite take_drop_commute. do 2 f_equal. lia.
Qed.

Lemma take_advance_panics t n :
  take_wf t → zlen (take_content t) < n ≤ usize_max → ∃ p, advance t n = Panic p.
Proof.
  intros Hwf Hn. rewrite take_content_len in Hn by done. destruct Hwf as [Hi _].
  simpl. unfold take_advance, rust_assert.
  destruct (Z.leb_spec n (tk_limit t)); simpl; [|eauto].
  destruct (advance_panics _ n Hi) as (p & ->); [lia|]. simpl. eauto.
Qed.

#[global] Instance take_laws : BufLaws (Take T) := {|
  buf_wf := take_wf;
  content := take_content;
  content_bound := take_content_bound;
  remaining_content := take_remaining_content;
  chunk_prefix := take_chunk_prefix;
  chunk_nonempty := take_chunk_nonempty;
  advance_ok := take_advance_ok;
  advance_panics := take_advance_panics;
  copy_to_slice_ok := default_copy_ok take_wf take_content take_chunk_prefix
    take_chunk_nonempty take_advance_ok take_remaining_content;
  copy_to_slice_panics := default_copy_panics take_wf take_content take_remaining_content;
|}.
End take_laws.

Section chain_laws.
Context `{Build} {T U : Type} `{BufLaws T} `{BufLaws U}.
Implicit Types c : Chain T U.

Definition chain_content c : list byte := content (ch_a c) ++ content (ch_b c).

(** The lengths add up without saturation. *)
Definition chain_wf c : Prop :=
  buf_wf (ch_a c) ∧ buf_wf (ch_b c) ∧ zlen (chain_content c) ≤ usize_max.

Lemma chain_content_bound c : chain_wf c → zlen (chain_content c) ≤ usize_max.
Proof. by intros (?&?&?). Qed.

Lemma chain_remaining_content c : chain_wf c → remaining c = zlen (chain_content c).
Proof.
  intros (Ha & Hb & Hl). simpl. unfold chain_remaining, saturating_add.
  rewrite !remaining_content by done. unfold chain_content in *. rewrite zlen_app in *.
  unfold usize_max in Hl. lia.
Qed.

Lemma chain_chunk_prefix c : chain_wf c → ∃ k, chain_content c = chunk c ++ k.
Proof.
  intros (Ha & Hb & _). simpl. unfold chain_chunk, chain_content.
  rewrite has_remaining_spec by done. case_bool_decide as Hc.
  - destruct (chunk_prefix _ Ha) as [k ->]. rewrite <-(assoc_L (++)). eauto.
  - rewrite Hc. apply chunk_prefix; done.
Qed.

Lemma chain_chunk_nonempty c : chain_wf c → chain_content c ≠ [] → chunk c ≠ [].
Proof.
  intros (Ha & Hb & _) Hne. simpl. unfold chain_chunk.
  rewrite has_remaining_spec by done. case_bool_decide as Hc.
  - by apply chunk_nonempty.
  - apply chunk_nonempty; [done|]. unfold chain_content in Hne.
    by rewrite Hc in Hne.
Qed.

Lemma chain_advance_ok c n :
  chain_wf c → 0 ≤ n ≤ zlen (chain_content c) →
  ∃ c', advance c n = Ret c' ∧ chain_wf c' ∧ chain_content c' = zdrop n (chain_content c).
Proof.
  destruct c as [a b]. unfold chain_wf, chain_content; simpl.
  intros (Ha & Hb & Hl) Hn. unfold chain_advance; simpl.
  rewrite remaining_content by done. rewrite zlen_app in *.
  pose proof (zlen_nonneg (content a)). pose proof (zlen_nonneg (content b)).
  destruct (Z.eqb_spec (zlen (content a)) 0) as [E|E]; simpl.
  { destruct (advance_ok b n Hb) as (b' & -> & Hb' & Hc'); [lia|]. simpl.
    eexists. split_and!; [done|done|done| |]; simpl; rewrite Hc'.
    - rewrite zlen_app, zlen_zdrop; lia.
    - by rewrite zdrop_app_ge, E, Z.sub_0_r, (zlen_nil_inv _ E) by lia. }
  destruct (Z.ltb_spec n (zlen (content a))) as [Hlt|Hge].
  - destruct (advance_ok a n Ha) as (a' & -> & Ha' & Hc'); [lia|]. simpl.
    eexists. split_and!; [done|done|done| |]; simpl; rewrite Hc'.
    + rewrite zlen_app, zlen_zdrop; lia.
    + by rewrite zdrop_app_le by lia.
  - destruct (advance_ok a (zlen (content a)) Ha) as (a' & -> & Ha' & Hc'); [lia|]. simpl.
    rewrite usize_sub_in by (unfold usize_max in *; lia). simpl.
    destruct (advance_ok b (n - zlen (content a)) Hb) as (b' & -> & Hb' & Hcb'); [lia|]. simpl.
    eexists. split_and!; [done|done|done| |]; simpl; rewrite Hc', Hcb', zdrop_all by done; simpl.
    + rewrite zlen_zdrop; lia.
    + by rewrite zdrop_app_ge by lia.
Qed.

Lemma chain_advance_panics c n :
  chain_wf c → zlen (chain_content c) < n ≤ usize_max → ∃ p, advance c n = Panic p.
Proof.
  destruct c as [a b]. unfold chain_wf, chain_content; simpl.
  intros (Ha & Hb & Hl) Hn. unfold chain_advance; simpl.
  rewrite remaining_content by done. rewrite zlen_app in *.
  pose proof (zlen_nonneg (content a)). pose proof (zlen_nonneg (content b)).
  destruct (Z.eqb_spec (zlen (content a)) 0) as [E|E]; simpl.
  { destruct (advance_panics b n Hb) as (p & ->); [lia|]. simpl. eauto. }
  rewrite (proj2 (Z.ltb_ge _ _)) by lia.
  destruct (advance_ok a (zlen (content a)) Ha) as (a' & -> & _); [lia|]. simpl.
  rewrite usize_sub_in by (unfold usize_max in *; lia). simpl.
  destruct (advance_panics b (n - zlen (content a)) Hb) as (p & ->); [lia|]. simpl. eauto.
Qed.

#[global] Instance chain_laws : BufLaws (Chain T U) := {|
  buf_wf := chain_wf;
  content := chain_content;
  content_bound := chain_content_bound;
  remaining_content := chain_remaining_content;
  chunk_prefix := chain_chunk_prefix;
  chunk_nonempty := chain_chunk_nonempty;
  advance_ok := chain_advance_ok;
  advance_panics := chain_advance_panics;
  copy_to_slice_ok := default_copy_ok chain_wf chain_content chain_chunk_prefix
    chain_chunk_nonempty chain_advance_ok chain_remaining_content;
  copy_to_slice_panics := default_copy_panics chain_wf chain_content
    chain_remaining_content;
|}.
End chain_laws.

Section vd_laws.
Implicit Types d : VecDeque.

Definition vd_content d : list byte := vd_front d ++ vd_back d.
Definition vd_wf d : Prop := zlen (vd_content d) ≤ isize_max.

Lemma vd_content_bound d : vd_wf d → zlen (vd_content d) ≤ usize_max.
Proof. unfold vd_wf, isize_max, usize_max. lia. Qed.

Lemma vd_remaining_content d : vd_wf d → remaining d = zlen (vd_content d).
Proof. intros _. unfold vd_content. by rewrite zlen_app. Qed.

Lemma vd_chunk_prefix d : vd_wf d → ∃ k, vd_content d = chunk d ++ k.
Proof.
  intros _. unfold vd_content. simpl. unfold vd_chunk.
  destruct (vd_front d); simpl; [|eauto]. exists []. by rewrite app_nil_r.
Qed.

Lemma vd_chunk_nonempty d : vd_wf d → vd_content d ≠ [] → chunk d ≠ [].
Proof. intros _. unfold vd_content. simpl. unfold vd_chunk. by destruct (vd_front d). Qed.

Lemma vd_advance_ok d n :
  vd_wf d → 0 ≤ n ≤ zlen (vd_content d) →
  ∃ d', advance d n = Ret d' ∧ vd_wf d' ∧ vd_content d' = zdrop n (vd_content d).
Proof.
  intros Hwf Hn. simpl. unfold vd_drain, vd_len, vd_wf, vd_content in *.
  rewrite zlen_app in *. rewrite (proj2 (Z.ltb_ge _ _)) by lia.
  pose proof (zlen_nonneg (vd_front d)). pose proof (zlen_nonneg (vd_back d)).
  case_match eqn:E; [apply Z.ltb_lt in E|apply Z.ltb_ge in E];
    (eexists; split_and!; [done| |]); simpl; rewrite ?app_nil_r, ?zlen_app, ?zlen_zdrop by lia.
  - lia.
  - by rewrite zdrop_app_le by lia.
  - lia.
  - by rewrite zdrop_app_ge.
Qed.

Lemma vd_advance_panics d n :
  vd_wf d → zlen (vd_content d) < n ≤ usize_max → ∃ p, advance d n = Panic p.
Proof.
  intros _ Hn. simpl. unfold vd_drain, vd_len, vd_content in *. rewrite zlen_app in Hn.
  rewrite (proj2 (Z.ltb_lt _ _)) by lia. eauto.
Qed.

#[global] Instance vd_laws : BufLaws VecDeque := {|
  buf_wf := vd_wf;
  content := vd_content;
  content_bound := vd_content_bound;
  remaining_content := vd_remaining_content;
  chunk_prefix := vd_chunk_prefix;
  chunk_nonempty := vd_chunk_nonempty;
  advance_ok := vd_advance_ok;
  advance_panics := vd_advance_panics;
  copy_to_slice_ok := default_copy_ok vd_wf vd_content vd_chunk_prefix
    vd_chunk_nonempty vd_advance_ok vd_remaining_content;
  copy_to_slice_panics := default_copy_panics vd_wf vd_content vd_remaining_content;
|}.
End vd_laws.

(** ** Theorems *)

Section reading.
Context {T : Type} `{BufLaws T}.

Lemma first_byte (t : T) :
  buf_wf t → content t ≠ [] →
  ∃ b k, index (chunk t) 0 = Ret b ∧ content t = b :: k.
Proof.
  intros Hwf Hne. destruct (chunk_prefix t Hwf) as [k Hk].
  pose proof (chunk_nonempty t Hwf Hne). destruct (chunk t) as [|b c]; [done|].
  exists b, (c ++ k). by split.
Qed.

Lemma one_byte_reads (conv : Z → Z) (get : T → comp (T * Z)) :
  (∀ t, get t = if remaining t <? 1 then Panic (PAdvance 1 0) else
     b ← index (chunk t) 0; t' ← advance t 1; Ret (t', conv (byte.unsigned b))) →
  reads 1 (λ bs, conv (from_le_bytes bs)) get.
Proof.
  intros Hget t Hwf. rewrite Hget, remaining_content by done. split.
  - intros Hl. rewrite (proj2 (Z.ltb_ge _ _)) by lia.
    destruct (first_byte t Hwf) as (b & k & -> & Hk);
      [intros E; rewrite E in Hl; by unfold zlen in Hl|].
    destruct (advance_ok t 1 Hwf) as (t' & Hadv & ? & ?); [lia|]. simpl. rewrite Hadv. simpl.
    exists t'. split_and!; try done. rewrite Hk. simpl.
    unfold from_le_bytes, ztake. simpl. by rewrite LittleEndianList.le_combine_1.
  - intros. rewrite (proj2 (Z.ltb_lt _ _)) by lia. eauto.
Qed.

Lemma get_u8_reads : reads (T:=T) 1 from_le_bytes get_u8.
Proof. by apply (one_byte_reads (λ z, z)). Qed.

Lemma get_i8_reads : reads (T:=T) 1 (signed_of from_le_bytes) get_i8.
Proof.
  assert (reads (T:=T) 1 (λ bs, swrap 8 (from_le_bytes bs)) get_i8) as Hr
    by by apply (one_byte_reads (swrap 8)).
  intros t Hwf. destruct (Hr t Hwf) as [Hok Hp]. split; [|done].
  intros Hl. destruct (Hok Hl) as (t' & -> & ?). exists t'. split; [|done].
  unfold signed_of. rewrite zlen_ztake by done. by rewrite Z.min_l by lia.
Qed.

(** C36: on every lawful [Buf] and for both byte orders, [get_u8] to
    [get_i128_ne] consume exactly the bytes of their type and return the
    integer those bytes encode, whether the chunk holds all of them (the fast
    path) or not (the copy); with fewer bytes left they panic. *)
Theorem get_integers `{Target} :
  reads 1 from_le_bytes get_u8 ∧ reads 1 (signed_of from_le_bytes) get_i8
  ∧ reads 2 from_be_bytes get_u16 ∧ reads 2 from_le_bytes get_u16_le
  ∧ reads 2 from_ne_bytes get_u16_ne ∧ reads 2 (signed_of from_be_bytes) get_i16
  ∧ reads 2 (signed_of from_le_bytes) get_i16_le
  ∧ reads 2 (signed_of from_ne_bytes) get_i16_ne
  ∧ reads 4 from_be_bytes get_u32 ∧ reads 4 from_le_bytes get_u32_le
  ∧ reads 4 from_ne_bytes get_u32_ne ∧ reads 4 (signed_of from_be_bytes) get_i32
  ∧ reads 4 (signed_of from_le_bytes) get_i32_le
  ∧ reads 4 (signed_of from_ne_bytes) get_i32_ne
  ∧ reads 8 from_be_bytes get_u64 ∧ reads 8 from_le_bytes get_u64_le
  ∧ reads 8 from_ne_bytes get_u64_ne ∧ reads 8 (signed_of from_be_bytes) get_i64
  ∧ reads 8 (signed_of from_le_bytes) get_i64_le
  ∧ reads 8 (signed_of from_ne_bytes) get_i64_ne
  ∧ reads 16 from_be_bytes get_u128 ∧ reads 16 from_le_bytes get_u128_le
  ∧ reads 16 from_ne_bytes get_u128_ne ∧ reads 16 (signed_of from_be_bytes) get_i128
  ∧ reads 16 (signed_of from_le_bytes) get_i128_le
  ∧ reads 16 (signed_of from_ne_bytes) get_i128_ne.
Proof.
  split; [apply get_u8_reads|]. split; [apply get_i8_reads|].
  split_and!; by apply buf_get_impl_reads.
Qed.
End reading.

Lemma get_integers_witness :
  @get_u16 (Chain (list byte) (list byte)) (@chain_buf debug_build _ _ _ _)
    (mkChain [Byte.x01] [Byte.x02; Byte.x03])
  = Ret (mkChain [] [Byte.x03], 258).
Proof.
  destruct (@get_integers (Chain (list byte) (list byte)) _ (@chain_laws debug_build _ _ _ _ _ _)
    true) as (_ & _ & H16 & _).
  destruct (H16 (mkChain [Byte.x01] [Byte.x02; Byte.x03])) as [Hr _]; [by vm_compute|].
  destruct Hr as (t' & _ & _ & _); [by vm_compute|]. reflexivity.
Defined.

(** *** Copies *)

(** [copy_to_slice] delivers the next [n] bytes, or panics when fewer remain. *)
Definition copies (T : Type) `{BufLaws T} : Prop :=
  ∀ t n, buf_wf t → is_usize n →
    (n ≤ zlen (content t) →
      ∃ t', copy_to_slice t n = Ret (t', ztake n (content t))
        ∧ buf_wf t' ∧ content t' = zdrop n (content t))
    ∧ (zlen (content t) < n → ∃ p, copy_to_slice t n = Panic p).

Lemma lawful_copies {T} `{BufLaws T} : copies T.
Proof.
  intros t n Hwf [Hn Hu]. split; intros.
  - by apply copy_to_slice_ok.
  - apply copy_to_slice_panics; [done|]. unfold usize_max. lia.
Qed.

(** C8: a [Take] of a [Chain] delivers the first [limit] bytes of the two
    contents one after the other: copying [n] of them crosses the boundary
    between the buffers as often as needed, terminates, leaves the rest to be
    read with the limit reduced by [n], and panics exactly when the limit or
    the data is exceeded. *)
Theorem take_chain_copies `{Build} {T U} `{BufLaws T} `{BufLaws U} (a : T) (b : U) limit n :
  buf_wf a → buf_wf b → zlen (content a) + zlen (content b) ≤ usize_max →
  is_usize limit → is_usize n →
  let t := take_new (chain_new a b) limit in
  (n ≤ limit ∧ n ≤ zlen (content a) + zlen (content b) →
    ∃ t' : Take (Chain T U),
      copy_to_slice t n = Ret (t', ztake n (content a ++ content b))
      ∧ remaining t' = Z.min (limit - n) (zlen (content a) + zlen (content b) - n)
      ∧ content t' = zdrop n (ztake limit (content a ++ content b)))
  ∧ (limit < n ∨ zlen (content a) + zlen (content b) < n →
      ∃ p, copy_to_slice t n = Panic p).
Proof.
  intros Ha Hb Hl Hlim Hn t.
  assert (buf_wf t) as Hwf.
  { split; [|done]. split_and!; [done..|]. unfold chain_content. simpl. by rewrite zlen_app. }
  assert (content t = ztake limit (content a ++ content b)) as Hc by done.
  assert (zlen (content t) = Z.min limit (zlen (content a) + zlen (content b))) as Hlen.
  { rewrite Hc, zlen_ztake, zlen_app; [done|]. apply Hlim. }
  destruct (lawful_copies t n Hwf Hn) as [Hok Hp]. destruct Hn as [Hn _].
  split; [intros [??]|intros ?; apply Hp; lia].
  destruct Hok as (t' & -> & Hwf' & Hc'); [lia|]. exists t'. split_and!.
  - by rewrite Hc, ztake_ztake by lia.
  - rewrite remaining_content, Hc', zlen_zdrop, Hlen by done. lia.
  - by rewrite Hc', Hc.
Qed.

Lemma take_chain_copies_witness :
  copy_to_slice (Buf:=@take_buf debug_build _ (@chain_buf debug_build _ _ _ _))
    (take_new (chain_new (bstr "ab") (bstr "cde")) 4) 3
  = Ret (mkTake (mkChain [] (bstr "de")) 1, bstr "abc").
Proof.
  pose proof (@take_chain_copies debug_build _ _ _ slice_laws _ slice_laws
    (bstr "ab") (bstr "cde") 4 3) as Hc.
  destruct Hc as [(t' & _ & _ & _) _]; [by vm_compute..|by vm_compute|]. reflexivity.
Defined.

(** *** Integers of a variable size *)

Section reading_int.
Context `{Build} {T : Type} `{BufLaws T}.

Lemma get_int_reads (get : T → Z → comp (T * Z)) conv nbytes :
  0 ≤ nbytes ≤ 8 → reads nbytes conv (λ t, get t nbytes) →
  reads nbytes (λ bs, swrap (48 + nbytes) (conv bs))
    (λ t, '(t', val) ← get t nbytes; v ← sign_extend val nbytes; Ret (t', v)).
Proof.
  intros Hn Hr t Hwf. destruct (Hr t Hwf) as [Hok Hp]. split.
  - intros Hl. destruct (Hok Hl) as (t' & -> & ?). exists t'. simpl.
    by rewrite sign_extend_bits.
  - intros Hl. destruct (Hp Hl) as (p & ->). simpl. eauto.
Qed.

(** [get_uint] and its variants read [nbytes] bytes, at most eight, as
    one unsigned integer in their byte order; a larger [nbytes] panics
    before anything is read. *)
Theorem get_uint_spec `{Target} nbytes :
  (0 ≤ nbytes ≤ 8 →
    reads (T:=T) nbytes from_be_bytes (λ t, get_uint t nbytes)
    ∧ reads (T:=T) nbytes from_le_bytes (λ t, get_uint_le t nbytes)
    ∧ reads (T:=T) nbytes from_ne_bytes (λ t, get_uint_ne t nbytes))
  ∧ (8 < nbytes → ∀ t : T,
      get_uint t nbytes = Panic (PDoesNotFit 8 nbytes)
      ∧ get_uint_le t nbytes = Panic (PDoesNotFit 8 nbytes)
      ∧ get_uint_ne t nbytes = Panic (PDoesNotFit 8 nbytes)).
Proof.
  split.
  - intros Hn. split_and!; [by apply get_uint_reads|by apply get_uint_le_reads|].
    unfold get_uint_ne, from_ne_bytes. destruct big_endian;
      [by apply get_uint_reads|by apply get_uint_le_reads].
  - intros Hn t.
    assert (get_uint t nbytes = Panic (PDoesNotFit 8 nbytes)) as Hbe.
    { unfold get_uint, buf_get_impl_be, checked_sub. by rewrite (proj2 (Z.leb_gt _ _)). }
    assert (get_uint_le t nbytes = Panic (PDoesNotFit 8 nbytes)) as Hle.
    { unfold get_uint_le, buf_get_impl_le. by rewrite (proj2 (Z.ltb_lt _ _)). }
    split_and!; [done..|]. unfold get_uint_ne. by destruct big_endian.
Qed.

(** [get_int] and [get_int_le] keep the low [48 + nbytes] bits of the
    bytes they read as a signed number, not the low [8 * nbytes] bits: the
    result is the unsigned value, never negative, for up to six bytes, and
    eight bytes lose their top byte. *)
Theorem get_int_spec nbytes :
  0 ≤ nbytes ≤ 8 →
  reads (T:=T) nbytes (λ bs, swrap (48 + nbytes) (from_be_bytes bs)) (λ t, get_int t nbytes)
  ∧ reads (T:=T) nbytes (λ bs, swrap (48 + nbytes) (from_le_bytes bs))
      (λ t, get_int_le t nbytes)
  ∧ (nbytes ≤ 6 → ∀ bs, zlen bs = nbytes →
      swrap (48 + nbytes) (from_be_bytes bs) = from_be_bytes bs
      ∧ swrap (48 + nbytes) (from_le_bytes bs) = from_le_bytes bs).
Proof.
  intros Hn. split_and!.
  - by apply (get_int_reads get_uint), get_uint_reads.
  - by apply (get_int_reads get_uint_le), get_uint_le_reads.
  - intros H6 bs Hbs.
    pose proof (from_be_bytes_bound bs) as Hb. pose proof (from_le_bytes_bound bs) as Hl.
    assert (2 ^ (8 * zlen bs) ≤ 2 ^ (48 + nbytes - 1)) by (apply Z.pow_le_mono_r; lia).
    split; apply swrap_in; try lia; split; lia.
Qed.
End reading_int.

Lemma get_uint_spec_witness :
  get_uint_ne (H0:=false) (bstr "ABC") 2 = Ret (bstr "C", 16961)
  ∧ get_uint (bstr "ABC") 9 = Panic (PDoesNotFit 8 9).
Proof.
  destruct (@get_uint_spec (list byte) _ slice_laws false 2) as [(_ & _ & Hr) _]; [lia|].
  destruct (Hr (bstr "ABC")) as [(t' & _) _]; [by vm_compute..|].
  destruct (@get_uint_spec (list byte) _ slice_laws false 9) as [_ Hp].
  split; [reflexivity|]. apply Hp. lia.
Defined.

Lemma get_int_spec_witness :
  get_int (H0:=debug_build) [Byte.xff] 1 = Ret ([], 255)
  ∧ get_int (H0:=debug_build) (Byte.x01 :: replicate 7 Byte.x00) 8 = Ret ([], 0).
Proof.
  destruct (@get_int_spec debug_build (list byte) _ slice_laws 1) as (Hr & _); [lia|].
  destruct (Hr [Byte.xff]) as [(t' & E & _) _]; [by vm_compute..|].
  split; reflexivity.
Defined.

(** *** Vectored reads *)

(** On a [Chain] of buffers that offer one slice each, [chunks_vectored]
    stores one slice only and claims two: the slice of the second buffer
    overwrites the slice of the first, and when the first buffer is used up the
    second one is not asked at all. *)
Theorem chain_chunks_vectored_spec {T U} `{BufLaws T} `{BufLaws U} (a : T) (b : U) x dst :
  buf_wf a → buf_wf b →
  (content a ≠ [] → content b ≠ [] →
    chain_chunks_vectored chunks_vectored chunks_vectored (chain_new a b) (x :: dst)
    = (chunk b :: dst, 2))
  ∧ (content a = [] →
      chain_chunks_vectored chunks_vectored chunks_vectored (chain_new a b) (x :: dst)
      = (x :: dst, 0)).
Proof.
  intros Ha Hb.
  assert ((zlen (x :: dst) =? 0) = false) as Hd
    by (apply Z.eqb_neq; unfold zlen; simpl; lia).
  unfold chain_chunks_vectored, chunks_vectored. simpl ch_a. simpl ch_b.
  rewrite Hd, has_remaining_spec by done. split.
  - intros Hca Hcb. by rewrite bool_decide_true, has_remaining_spec, bool_decide_true.
  - intros Hca. by rewrite bool_decide_false by (by intros []).
Qed.

Lemma chain_chunks_vectored_spec_witness :
  chain_chunks_vectored chunks_vectored chunks_vectored
    (chain_new (bstr "hello ") (bstr "world")) [[]; []]
  = ([bstr "world"; []], 2).
Proof.
  destruct (chain_chunks_vectored_spec (bstr "hello ") (bstr "world") [] [[]]) as [Hc _];
    [by vm_compute..|].
  by rewrite Hc.
Defined.

(** *** Iteration and [std::io::Read] *)

Section consumers.
Context {T : Type} `{BufLaws T}.

Lemma iter_next_nil (t : T) :
  buf_wf t → content t = [] → iter_next (iter_new t) = Ret (iter_new t, None).
Proof.
  intros Hwf Hc. unfold iter_next. simpl. by rewrite has_remaining_spec, Hc.
Qed.

Lemma iter_next_cons (t : T) b k :
  buf_wf t → content t = b :: k →
  ∃ t', iter_next (iter_new t) = Ret (iter_new t', Some b) ∧ buf_wf t' ∧ content t' = k.
Proof.
  intros Hwf Hc. unfold iter_next. simpl.
  rewrite has_remaining_spec, Hc by done. simpl.
  destruct (first_byte t Hwf) as (b' & k' & -> & Hk'); [by rewrite Hc|].
  destruct (advance_ok t 1 Hwf) as (t' & Hadv & ? & Hc').
  { rewrite Hc. unfold zlen. simpl. lia. }
  simpl. rewrite Hadv. simpl. exists t'. rewrite Hc' in *. rewrite Hc in *.
  by simplify_eq.
Qed.

Lemma iter_collect_S fuel (it : IntoIter T) :
  iter_collect (S fuel) it =
    ('(it', item) ← iter_next it;
     match item with
     | None => Ret []
     | Some b => rest ← iter_collect fuel it'; Ret (b :: rest)
     end).
Proof. done. Qed.

(** Iterating over a buffer yields its bytes in order and ends, within
    the number of items [size_hint] announces as both bounds. *)
Theorem into_iter_yields_content (t : T) :
  buf_wf t →
  iter_collect (S (length (content t))) (iter_new t) = Ret (content t)
  ∧ iter_size_hint (iter_new t) = (zlen (content t), Some (zlen (content t))).
Proof.
  intros Hwf. split.
  - remember (content t) as l eqn:Hl. revert t Hwf Hl.
    induction l as [|b l IH]; intros t Hwf Hl;
      rewrite iter_collect_S.
    + by rewrite iter_next_nil.
    + destruct (iter_next_cons t b l Hwf (eq_sym Hl)) as (t' & -> & Hwf' & Hc').
      cbn -[iter_collect]. by rewrite (IH t' Hwf' (eq_sym Hc')).
  - unfold iter_size_hint. simpl. by rewrite remaining_content.
Qed.

(** [Read::read] fills the front of [dst] with the next bytes, as many
    as both sides have, keeps the rest of [dst], consumes what it copied and
    never panics; [fill_buf] followed by [consume] of the bytes it showed
    reads the same stream. *)
Theorem reader_spec (t : T) (dst : list byte) :
  buf_wf t → zlen dst ≤ isize_max →
  let n := Z.min (zlen (content t)) (zlen dst) in
  (∃ t', reader_read (reader_new t) dst
      = Ret (mkReader t', ztake n (content t) ++ zdrop n dst, n)
    ∧ buf_wf t' ∧ content t' = zdrop n (content t))
  ∧ ∃ t', reader_consume (reader_new t) (zlen (reader_fill_buf (reader_new t)))
      = Ret (mkReader t')
    ∧ content t = reader_fill_buf (reader_new t) ++ content t'.
Proof.
  intros Hwf Hd n. pose proof (zlen_nonneg dst). pose proof (zlen_nonneg (content t)). split.
  - unfold reader_read. simpl. rewrite remaining_content by done. fold n.
    destruct (copy_to_slice_ok t n Hwf) as (t' & -> & ? & ?); [lia|]. by exists t'.
  - unfold reader_consume, reader_fill_buf. simpl.
    destruct (chunk_prefix t Hwf) as [k Hk]. pose proof (zlen_nonneg (chunk t)).
    destruct (advance_ok t (zlen (chunk t)) Hwf) as (t' & -> & ? & Hc').
    { rewrite Hk, zlen_app. pose proof (zlen_nonneg k). lia. }
    exists t'. split; [done|]. by rewrite Hc', Hk, zdrop_app_exact.
Qed.
End consumers.

Lemma into_iter_yields_content_witness :
  iter_collect 4 (iter_new (mkVecDeque (bstr "ab") (bstr "c"))) = Ret (bstr "abc").
Proof.
  destruct (into_iter_yields_content (mkVecDeque (bstr "ab") (bstr "c"))) as [E _];
    [by vm_compute|exact E].
Defined.

Lemma reader_spec_witness :
  reader_read (reader_new (bstr "abc")) (bstr "....")
  = Ret (mkReader [], bstr "abc.", 3).
Proof.
  destruct (reader_spec (bstr "abc") (bstr "....")) as [(t' & E & _ & Hc) _];
    [by vm_compute..|].
  simpl content in Hc. subst t'. exact E.
Defined.
