(* ===== verification/RustVec.v ===== *)
(** * [Vec<u8>] of the standard library, as the sources use it

    The part of [alloc::vec] that [buf_mut.rs], [bytes_mut.rs] and [bytes.rs]
    call: the growth policy of [RawVec] and the operations built on it. *)

From S2P Require Import Prelude.

(** A byte of memory that may be uninitialised. *)
Abbreviation cell := (option byte).

(** The bytes of cells that are all initialised. *)
Fixpoint init_bytes (cells : list cell) : option (list byte) :=
  match cells with
  | [] => Some []
  | Some b :: cells => cons b <$> init_bytes cells
  | None :: _ => None
  end.

(** ** Growth

    [RawVec::grow_amortized] for a vector of capacity [cap] and length [len]:
    the new capacity, or [None] for a capacity overflow.  The smallest capacity
    of a vector of bytes is 8. *)
Definition grow_amortized (cap len additional : Z) : option Z :=
  match checked_add 64 len additional with
  | None => None
  | Some required =>
      let cap := Z.max (2 * cap) required in
      let cap := Z.max 8 cap in
      if cap <=? isize_max then Some cap else None
  end.

(** ** Vectors as values

    The cells of the allocation, whose number is the capacity, and the length.
    The allocator is a parameter: [alloc_ok n] tells whether it can provide [n]
    bytes; if it cannot, [handle_alloc_error] aborts. *)

Class Allocates := alloc_ok : Z → bool.

Record Vec := mkVec { vec_cells : list cell; vec_len : Z }.

Section vec.
Context `{Allocates}.

Definition vec_new : Vec := mkVec [] 0.
Definition vec_capacity (v : Vec) : Z := zlen (vec_cells v).

(** [realloc] keeps the old cells; the new ones are uninitialised. *)
Definition vec_reserve (v : Vec) (additional : Z) : comp Vec :=
  if vec_capacity v - vec_len v <? additional then
    match grow_amortized (vec_capacity v) (vec_len v) additional with
    | None => Panic PCapacity
    | Some cap =>
        if alloc_ok cap then
          Ret (mkVec (vec_cells v ++ replicate (Z.to_nat (cap - vec_capacity v)) None)
                     (vec_len v))
        else Stop SAbort
    end
  else Ret v.

(** Writes cells at an index; the caller has made room. *)
Definition vec_write (v : Vec) (i : Z) (new : list cell) : Vec :=
  mkVec (ztake i (vec_cells v) ++ new ++ zdrop (i + zlen new) (vec_cells v)) (vec_len v).

Definition vec_set_len (v : Vec) (n : Z) : Vec := mkVec (vec_cells v) n.

Definition vec_extend_from_slice (v : Vec) (src : list byte) : comp Vec :=
  v ← vec_reserve v (zlen src);
  Ret (vec_set_len (vec_write v (vec_len v) (Some <$> src)) (vec_len v + zlen src)).

Definition vec_resize (v : Vec) (new_len : Z) (val : byte) : comp Vec :=
  if vec_len v <? new_len then
    let n := new_len - vec_len v in
    v ← vec_reserve v n;
    Ret (vec_set_len (vec_write v (vec_len v) (replicate (Z.to_nat n) (Some val))) new_len)
  else Ret (vec_set_len v new_len).
End vec.

(** The initialised part of a vector. *)
Definition vec_wf (v : Vec) : Prop :=
  0 ≤ vec_len v ≤ vec_capacity v ∧ vec_capacity v ≤ isize_max
  ∧ is_Some (init_bytes (ztake (vec_len v) (vec_cells v))).
Definition vec_bytes (v : Vec) : list byte :=
  default [] (init_bytes (ztake (vec_len v) (vec_cells v))).

(** ** Lemmas *)

Lemma init_bytes_app l k :
  init_bytes (l ++ k) =
    match init_bytes l, init_bytes k with Some x, Some y => Some (x ++ y) | _, _ => None end.
Proof.
  induction l as [|[b|] l IH]; simpl; [by destruct (init_bytes k)| |done].
  rewrite IH. by destruct (init_bytes l), (init_bytes k).
Qed.

Lemma init_bytes_Some l : init_bytes (Some <$> l) = Some l.
Proof. induction l as [|b l IH]; csimpl; [done|]. by rewrite IH. Qed.

Lemma init_bytes_inv cells bs : init_bytes cells = Some bs ↔ cells = Some <$> bs.
Proof.
  split; [|intros ->; apply init_bytes_Some].
  revert bs. induction cells as [|[b|] cells IH]; simpl; intros bs E; simplify_eq/=; [done|].
  destruct (init_bytes cells) as [bs'|]; simplify_eq/=. by rewrite (IH bs' eq_refl).
Qed.

(** The growth never shrinks and makes room for [additional] elements. *)
Lemma grow_amortized_spec cap len additional cap' :
  0 ≤ len ≤ cap → 0 ≤ additional →
  grow_amortized cap len additional = Some cap' →
  cap ≤ cap' ∧ len + additional ≤ cap' ∧ 8 ≤ cap' ≤ isize_max.
Proof.
  unfold grow_amortized, checked_add. intros Hl Ha.
  destruct (Z.ltb_spec (len + additional) (2 ^ 64)); [|done].
  destruct (Z.leb_spec (Z.max 8 (Z.max (2 * cap) (len + additional))) isize_max); [|done].
  intros [= <-]. lia.
Qed.

Lemma grow_amortized_overflow cap len additional :
  isize_max < len + additional → grow_amortized cap len additional = None.
Proof.
  unfold grow_amortized, checked_add. intros Hl.
  destruct (Z.ltb_spec (len + additional) (2 ^ 64)); [|done].
  by rewrite (proj2 (Z.leb_gt _ _)) by lia.
Qed.

(** The ways an allocating operation may stop. *)
Definition alloc_stop (s : stop) : Prop := s = SPanic PCapacity ∨ s = SAbort.

Section vec_specs.
Context `{Allocates}.

Lemma vec_wf_cells v :
  vec_wf v → ∃ k, vec_cells v = (Some <$> vec_bytes v) ++ k ∧ zlen (vec_bytes v) = vec_len v.
Proof.
  intros ([Hl Hc] & _ & [bs Hbs]). exists (zdrop (vec_len v) (vec_cells v)).
  unfold vec_bytes. rewrite Hbs. simpl. apply init_bytes_inv in Hbs.
  rewrite <-Hbs, ztake_zdrop. split; [done|]. apply (f_equal zlen) in Hbs.
  rewrite zlen_ztake in Hbs by done. unfold vec_capacity in Hc. rewrite Z.min_l in Hbs by done.
  unfold zlen in Hbs at 1. rewrite length_fmap in Hbs. by rewrite Hbs.
Qed.

Lemma vec_wf_intro v bs k :
  vec_cells v = (Some <$> bs) ++ k → zlen bs = vec_len v → vec_capacity v ≤ isize_max →
  vec_wf v ∧ vec_bytes v = bs.
Proof.
  intros Hc Hl Hm. assert (ztake (vec_len v) (vec_cells v) = Some <$> bs) as Ht.
  { rewrite Hc, <-Hl. replace (zlen bs) with (zlen (Some <$> bs)).
    - apply ztake_app_exact.
    - unfold zlen. by rewrite length_fmap. }
  unfold vec_wf, vec_bytes. rewrite Ht, init_bytes_Some. split_and!; try done.
  - rewrite <-Hl. apply zlen_nonneg.
  - unfold vec_capacity. rewrite Hc, zlen_app, <-Hl. unfold zlen at 2. rewrite length_fmap.
    pose proof (zlen_nonneg k). unfold zlen in *. lia.
Qed.

Lemma vec_reserve_ok v n :
  vec_wf v → 0 ≤ n →
  wp (vec_reserve v n) alloc_stop (λ v', vec_wf v' ∧ vec_bytes v' = vec_bytes v
    ∧ vec_len v' = vec_len v ∧ vec_capacity v ≤ vec_capacity v'
    ∧ vec_len v + n ≤ vec_capacity v').
Proof.
  intros Hwf Hn. destruct (vec_wf_cells v Hwf) as (k & Hk & Hlen).
  pose proof Hwf as (Hl & Hc & _). unfold vec_reserve.
  destruct (Z.ltb_spec (vec_capacity v - vec_len v) n); simpl; [|split_and!; try done; lia].
  destruct (grow_amortized _ _ _) as [cap|] eqn:Hg; simpl; [|by left].
  apply grow_amortized_spec in Hg as (? & ? & ?); [|done..].
  destruct (alloc_ok cap); simpl; [|by right].
  set (v' := mkVec _ _).
  assert (vec_capacity v' = cap) as Hcap.
  { unfold v', vec_capacity in *. simpl. rewrite zlen_app. unfold zlen in *.
    rewrite length_replicate. lia. }
  destruct (vec_wf_intro v' (vec_bytes v)
    (k ++ replicate (Z.to_nat (cap - vec_capacity v)) None)) as [? Hb]; [|done|lia|].
  { unfold v'. simpl. by rewrite Hk, <-(assoc_L (++)) at 1. }
  split_and!; [done|done|done|lia|lia].
Qed.

Lemma vec_reserve_overflow v n :
  vec_wf v → isize_max < vec_len v + n → vec_reserve v n = Panic PCapacity.
Proof.
  intros (Hl & Hc & _) Hn. unfold vec_reserve.
  by rewrite (proj2 (Z.ltb_lt _ _)), grow_amortized_overflow by lia.
Qed.

(** Writing at the end into spare capacity appends. *)
Lemma vec_append v bs :
  vec_wf v → vec_len v + zlen bs ≤ vec_capacity v →
  let v' := vec_set_len (vec_write v (vec_len v) (Some <$> bs)) (vec_len v + zlen bs) in
  vec_wf v' ∧ vec_bytes v' = vec_bytes v ++ bs.
Proof.
  intros Hwf Hroom v'. destruct (vec_wf_cells v Hwf) as (k & Hk & Hlen).
  pose proof Hwf as (Hl & Hc & _).
  assert (∀ l : list byte, zlen (Some <$> l) = zlen l) as Hf
    by (intros; unfold zlen; by rewrite length_fmap).
  assert (vec_cells v' = (Some <$> vec_bytes v ++ bs) ++ zdrop (zlen bs) k) as Hc'.
  { unfold v'. simpl. rewrite Hf, <-Hlen, Hk.
    rewrite <-(Hf (vec_bytes v)), ztake_app_exact.
    rewrite zdrop_app_ge by (pose proof (zlen_nonneg bs); lia).
    rewrite fmap_app, <-(assoc_L (++)). do 3 f_equal. lia. }
  apply (vec_wf_intro v' _ _ Hc').
  - rewrite zlen_app, Hlen. done.
  - unfold vec_capacity in *. rewrite Hc'. rewrite Hk in Hc, Hroom.
    rewrite zlen_app, Hf in Hc, Hroom. pose proof (zlen_nonneg bs).
    rewrite zlen_app, Hf, zlen_app, zlen_zdrop by done. lia.
Qed.
End vec_specs.
