(* ===== verification/BufMut.v ===== *)
(** * [bytes/src/buf]: [buf_mut.rs], [uninit_slice.rs], [limit.rs], [writer.rs]
    and the writing side of [chain.rs]

    [BufMutCore] holds the three required methods of [BufMut]; [BufMut] adds
    the provided methods that implementations override.  The [&mut UninitSlice]
    that [chunk_mut] returns is the list of its cells, and [chunk_write] is what
    a write through it does to the buffer it borrows from.  [BufMutLaws] is the
    contract of the trait. *)

From S2P Require Import Prelude RustVec Buf BufAdapters.

(** ** [UninitSlice] *)

Definition UninitSlice : Type := list cell.

Definition us_new (s : list byte) : UninitSlice := Some <$> s.
Definition us_uninit (s : list cell) : UninitSlice := s.
Definition us_len (s : UninitSlice) : Z := zlen s.

(** The ranges of [impl_index!]. *)
Inductive range : Type :=
| Range (i j : Z)
| RangeFrom (i : Z)
| RangeFull
| RangeInclusive (i j : Z)
| RangeTo (j : Z)
| RangeToInclusive (j : Z).

(** An inclusive range that ends at [usize::MAX] has no exclusive end. *)
Definition us_index (s : UninitSlice) (r : range) : comp UninitSlice :=
  match r with
  | Range i j => slice s i j
  | RangeFrom i => slice s i (zlen s)
  | RangeFull => Ret s
  | RangeInclusive i j => if j =? usize_max then Panic PIndex else slice s i (j + 1)
  | RangeTo j => slice s 0 j
  | RangeToInclusive j => if j =? usize_max then Panic PIndex else slice s 0 (j + 1)
  end.

(** The slice after the call. *)
Definition us_write_byte (s : UninitSlice) (idx : Z) (b : byte) : comp UninitSlice :=
  rust_assert (idx <? us_len s);;
  tail ← us_index s (RangeFrom idx);
  Ret (ztake idx s ++ Some b :: zdrop 1 tail).

Definition us_copy_from_slice (s : UninitSlice) (src : list byte) : comp UninitSlice :=
  rust_assert (us_len s =? zlen src);;
  Ret (us_new src).

(** ** The trait *)

Class BufMutCore (T : Type) := {
  remaining_mut : T → Z;
  advance_mut : T → Z → comp T;
  chunk_mut : T → comp (T * UninitSlice);
  (** stores the cells at the start of the slice [chunk_mut] has returned *)
  chunk_write : T → UninitSlice → comp T;
}.

Section default_put.
Context {T : Type} `{BufMutCore T}.

Definition has_remaining_mut (t : T) : bool := 0 <? remaining_mut t.

(** Each round of the loops below transfers at least one byte when the
    implementation is lawful, so that the number of bytes is enough fuel. *)
Fixpoint put_loop {B} `{BufCore B} (fuel : nat) (t : T) (src : B) : comp (T * B) :=
  if has_remaining src then
    match fuel with
    | O => Stop SFuel
    | S fuel' =>
        let s := chunk src in
        '(t, d) ← chunk_mut t;
        let cnt := Z.min (zlen s) (us_len d) in
        d ← us_index d (RangeTo cnt);
        s ← slice s 0 cnt;
        d ← us_copy_from_slice d s;
        t ← chunk_write t d;
        t ← advance_mut t cnt;
        src ← advance src cnt;
        put_loop fuel' t src
    end
  else Ret (t, src).

Definition default_put {B} `{Buf B} (t : T) (src : B) : comp (T * B) :=
  if remaining_mut t <? remaining src then
    Panic (PAdvance (remaining src) (remaining_mut t))
  else put_loop (Z.to_nat (remaining src)) t src.

Fixpoint put_slice_loop (fuel : nat) (t : T) (src : list byte) : comp T :=
  match src with
  | [] => Ret t
  | _ =>
    match fuel with
    | O => Stop SFuel
    | S fuel' =>
        '(t, dst) ← chunk_mut t;
        let cnt := Z.min (zlen src) (us_len dst) in
        dst ← us_index dst (RangeTo cnt);
        s ← slice src 0 cnt;
        dst ← us_copy_from_slice dst s;
        t ← chunk_write t dst;
        src ← slice src cnt (zlen src);
        t ← advance_mut t cnt;
        put_slice_loop fuel' t src
    end
  end.

Definition default_put_slice (t : T) (src : list byte) : comp T :=
  if remaining_mut t <? zlen src then Panic (PAdvance (zlen src) (remaining_mut t))
  else put_slice_loop (length src) t src.

Fixpoint put_bytes_loop (fuel : nat) (t : T) (val : byte) (cnt : Z) : comp T :=
  if 0 <? cnt then
    match fuel with
    | O => Stop SFuel
    | S fuel' =>
        '(t, dst) ← chunk_mut t;
        let dst_len := Z.min (us_len dst) cnt in
        t ← chunk_write t (replicate (Z.to_nat dst_len) (Some val));
        t ← advance_mut t dst_len;
        put_bytes_loop fuel' t val (cnt - dst_len)
    end
  else Ret t.

Definition default_put_bytes (t : T) (val : byte) (cnt : Z) : comp T :=
  if remaining_mut t <? cnt then Panic (PAdvance cnt (remaining_mut t))
  else put_bytes_loop (Z.to_nat cnt) t val cnt.
End default_put.

Class BufMut (T : Type) := {
  #[global] buf_mut_core :: BufMutCore T;
  put : ∀ {B} `{Buf B}, T → B → comp (T * B);
  put_slice : T → list byte → comp T;
  put_bytes : T → byte → Z → comp T;
}.

(** ** Integers *)

Section put_integers.
Context {T : Type} `{BufMut T}.

Definition put_u8 (t : T) (n : Z) : comp T := put_slice t [byte.of_Z n].
Definition put_i8 (t : T) (n : Z) : comp T := put_slice t [byte.of_Z (uwrap 8 n)].

Definition put_u16 (t : T) (n : Z) : comp T := put_slice t (to_be_bytes 2 n).
Definition put_u16_le (t : T) (n : Z) : comp T := put_slice t (to_le_bytes 2 n).
Definition put_u16_ne `{Target} (t : T) (n : Z) : comp T := put_slice t (to_ne_bytes 2 n).
Definition put_i16 (t : T) (n : Z) : comp T := put_slice t (to_be_bytes 2 n).
Definition put_i16_le (t : T) (n : Z) : comp T := put_slice t (to_le_bytes 2 n).
Definition put_i16_ne `{Target} (t : T) (n : Z) : comp T := put_slice t (to_ne_bytes 2 n).
Definition put_u32 (t : T) (n : Z) : comp T := put_slice t (to_be_bytes 4 n).
Definition put_u32_le (t : T) (n : Z) : comp T := put_slice t (to_le_bytes 4 n).
Definition put_u32_ne `{Target} (t : T) (n : Z) : comp T := put_slice t (to_ne_bytes 4 n).
Definition put_i32 (t : T) (n : Z) : comp T := put_slice t (to_be_bytes 4 n).
Definition put_i32_le (t : T) (n : Z) : comp T := put_slice t (to_le_bytes 4 n).
Definition put_i32_ne `{Target} (t : T) (n : Z) : comp T := put_slice t (to_ne_bytes 4 n).
Definition put_u64 (t : T) (n : Z) : comp T := put_slice t (to_be_bytes 8 n).
Definition put_u64_le (t : T) (n : Z) : comp T := put_slice t (to_le_bytes 8 n).
Definition put_u64_ne `{Target} (t : T) (n : Z) : comp T := put_slice t (to_ne_bytes 8 n).
Definition put_i64 (t : T) (n : Z) : comp T := put_slice t (to_be_bytes 8 n).
Definition put_i64_le (t : T) (n : Z) : comp T := put_slice t (to_le_bytes 8 n).
Definition put_i64_ne `{Target} (t : T) (n : Z) : comp T := put_slice t (to_ne_bytes 8 n).
Definition put_u128 (t : T) (n : Z) : comp T := put_slice t (to_be_bytes 16 n).
Definition put_u128_le (t : T) (n : Z) : comp T := put_slice t (to_le_bytes 16 n).
Definition put_u128_ne `{Target} (t : T) (n : Z) : comp T := put_slice t (to_ne_bytes 16 n).
Definition put_i128 (t : T) (n : Z) : comp T := put_slice t (to_be_bytes 16 n).
Definition put_i128_le (t : T) (n : Z) : comp T := put_slice t (to_le_bytes 16 n).
Definition put_i128_ne `{Target} (t : T) (n : Z) : comp T := put_slice t (to_ne_bytes 16 n).

(** The arguments of [panic_does_not_fit] are in the order of the source. *)
Definition put_uint (t : T) (n nbytes : Z) : comp T :=
  match checked_sub 8 nbytes with
  | Some start => s ← slice (to_be_bytes 8 n) start 8; put_slice t s
  | None => Panic (PDoesNotFit nbytes 8)
  end.
Definition put_uint_le (t : T) (n nbytes : Z) : comp T :=
  let s := to_le_bytes 8 n in
  if nbytes <=? zlen s then put_slice t (ztake nbytes s)
  else Panic (PDoesNotFit nbytes (zlen s)).
Definition put_uint_ne `{Target} (t : T) (n nbytes : Z) : comp T :=
  if big_endian then put_uint t n nbytes else put_uint_le t n nbytes.

Definition put_int (t : T) (n nbytes : Z) : comp T :=
  match checked_sub 8 nbytes with
  | Some start => s ← slice (to_be_bytes 8 n) start 8; put_slice t s
  | None => Panic (PDoesNotFit nbytes 8)
  end.
Definition put_int_le (t : T) (n nbytes : Z) : comp T :=
  let s := to_le_bytes 8 n in
  if nbytes <=? zlen s then put_slice t (ztake nbytes s)
  else Panic (PDoesNotFit nbytes (zlen s)).
Definition put_int_ne `{Target} (t : T) (n nbytes : Z) : comp T :=
  if big_endian then put_int t n nbytes else put_int_le t n nbytes.

Definition put_f32 (t : T) (bits : Z) : comp T := put_u32 t bits.
Definition put_f32_le (t : T) (bits : Z) : comp T := put_u32_le t bits.
Definition put_f32_ne `{Target} (t : T) (bits : Z) : comp T := put_u32_ne t bits.
Definition put_f64 (t : T) (bits : Z) : comp T := put_u64 t bits.
Definition put_f64_le (t : T) (bits : Z) : comp T := put_u64_le t bits.
Definition put_f64_ne `{Target} (t : T) (bits : Z) : comp T := put_u64_ne t bits.
End put_integers.

(** ** Implementations *)

(** [deref_forward_bufmut!] for [&mut T] and [Box<T>]: [put_slice] and the
    fixed-size integers are forwarded; [put] and [put_bytes] are not, so that
    the provided ones run on the forwarded required methods. *)
#[global] Instance deref_forward_mut_core {T} `{BufMut T} : BufMutCore (Deref T) := {
  remaining_mut t := remaining_mut (deref t);
  chunk_mut t := '(t', d) ← chunk_mut (deref t); Ret (mkDeref t', d);
  advance_mut t cnt := t' ← advance_mut (deref t) cnt; Ret (mkDeref t');
  chunk_write t d := t' ← chunk_write (deref t) d; Ret (mkDeref t');
}.
#[global] Instance deref_forward_mut {T} `{BufMut T} : BufMut (Deref T) := {
  put B _ := default_put;
  put_slice t src := t' ← put_slice (deref t) src; Ret (mkDeref t');
  put_bytes := default_put_bytes;
}.

(** A [&mut [A]] that is written from the front: the elements it has moved past
    and the ones it still refers to. *)
Record SliceMut (A : Type) := mkSliceMut { sm_done : list A; sm_rest : list A }.
Arguments mkSliceMut {A} _ _.
Arguments sm_done {A} _.
Arguments sm_rest {A} _.

(** [advance_mut], the same for both kinds of slices. *)
Definition sm_advance {A} (t : SliceMut A) (cnt : Z) : comp (SliceMut A) :=
  if zlen (sm_rest t) <? cnt then Panic (PAdvance cnt (zlen (sm_rest t)))
  else Ret (mkSliceMut (sm_done t ++ ztake cnt (sm_rest t)) (zdrop cnt (sm_rest t))).

(** Stores [new] at the start of the rest. *)
Definition sm_store {A} (t : SliceMut A) (new : list A) : SliceMut A :=
  mkSliceMut (sm_done t) (new ++ zdrop (zlen new) (sm_rest t)).

(** [impl BufMut for &mut [u8]] *)
#[global] Instance slice_mut_core : BufMutCore (SliceMut byte) := {
  remaining_mut t := zlen (sm_rest t);
  chunk_mut t := Ret (t, us_new (sm_rest t));
  advance_mut := sm_advance;
  chunk_write t d :=
    match init_bytes d with
    | Some bs => Ret (sm_store t bs)
    | None => Stop SUndef
    end;
}.

Definition slice_mut_put_slice (t : SliceMut byte) (src : list byte) : comp (SliceMut byte) :=
  if zlen (sm_rest t) <? zlen src then Panic (PAdvance (zlen src) (zlen (sm_rest t))) else
  front ← slice (sm_rest t) 0 (zlen src);
  rust_assert (zlen front =? zlen src);;
  sm_advance (sm_store t src) (zlen src).

Definition slice_mut_put_bytes (t : SliceMut byte) (val : byte) (cnt : Z)
    : comp (SliceMut byte) :=
  if zlen (sm_rest t) <? cnt then Panic (PAdvance cnt (zlen (sm_rest t))) else
  sm_advance (sm_store t (replicate (Z.to_nat cnt) val)) cnt.

#[global] Instance slice_mut : BufMut (SliceMut byte) := {
  put B _ := default_put;
  put_slice := slice_mut_put_slice;
  put_bytes := slice_mut_put_bytes;
}.

(** [impl BufMut for &mut [MaybeUninit<u8>]] *)
#[global] Instance uninit_mut_core : BufMutCore (SliceMut cell) := {
  remaining_mut t := zlen (sm_rest t);
  chunk_mut t := Ret (t, us_uninit (sm_rest t));
  advance_mut := sm_advance;
  chunk_write t d := Ret (sm_store t d);
}.

Definition uninit_mut_put_slice (t : SliceMut cell) (src : list byte) : comp (SliceMut cell) :=
  if zlen (sm_rest t) <? zlen src then Panic (PAdvance (zlen src) (zlen (sm_rest t))) else
  sm_advance (sm_store t (Some <$> src)) (zlen src).

Definition uninit_mut_put_bytes (t : SliceMut cell) (val : byte) (cnt : Z)
    : comp (SliceMut cell) :=
  if zlen (sm_rest t) <? cnt then Panic (PAdvance cnt (zlen (sm_rest t))) else
  sm_advance (sm_store t (replicate (Z.to_nat cnt) (Some val))) cnt.

#[global] Instance uninit_mut : BufMut (SliceMut cell) := {
  put B _ := default_put;
  put_slice := uninit_mut_put_slice;
  put_bytes := uninit_mut_put_bytes;
}.

(** [impl BufMut for Vec<u8>] *)
Section vec_mut.
Context `{Build} `{Allocates}.

Definition vec_remaining_mut (v : Vec) : Z := isize_max - vec_len v.

Definition vec_chunk_mut (v : Vec) : comp (Vec * UninitSlice) :=
  v ← (if vec_capacity v =? vec_len v then vec_reserve v 64 else Ret v);
  Ret (v, zdrop (vec_len v) (vec_cells v)).

Definition vec_advance_mut (v : Vec) (cnt : Z) : comp Vec :=
  let len := vec_len v in
  remaining ← usize_sub (vec_capacity v) len;
  if remaining <? cnt then Panic (PAdvance cnt remaining) else
  n ← usize_add len cnt;
  Ret (vec_set_len v n).

#[global] Instance vec_mut_core : BufMutCore Vec := {
  remaining_mut := vec_remaining_mut;
  chunk_mut := vec_chunk_mut;
  advance_mut := vec_advance_mut;
  chunk_write v d := Ret (vec_write v (vec_len v) d);
}.

Fixpoint vec_put_loop {B} `{BufCore B} (fuel : nat) (v : Vec) (src : B) : comp (Vec * B) :=
  if has_remaining src then
    match fuel with
    | O => Stop SFuel
    | S fuel' =>
        let s := chunk src in
        let l := zlen s in
        v ← vec_extend_from_slice v s;
        src ← advance src l;
        vec_put_loop fuel' v src
    end
  else Ret (v, src).

Definition vec_put {B} `{Buf B} (v : Vec) (src : B) : comp (Vec * B) :=
  v ← vec_reserve v (remaining src);
  vec_put_loop (Z.to_nat (remaining src)) v src.

Definition vec_put_bytes (v : Vec) (val : byte) (cnt : Z) : comp Vec :=
  let new_len := saturating_add 64 (vec_len v) cnt in
  vec_resize v new_len val.

#[global] Instance vec_mut : BufMut Vec := {
  put B _ := vec_put;
  put_slice := vec_extend_from_slice;
  put_bytes := vec_put_bytes;
}.
End vec_mut.

(** ** [Limit] *)

Record Limit (T : Type) := mkLimit { lm_inner : T; lm_limit : Z }.
Arguments mkLimit {T} _ _.
Arguments lm_inner {T} _.
Arguments lm_limit {T} _.

Section limit.
Context `{Build} {T : Type} `{BufMut T}.

Definition limit_new (inner : T) (limit : Z) : Limit T := mkLimit inner limit.
Definition limit_into_inner (t : Limit T) : T := lm_inner t.
Definition limit_set_limit (t : Limit T) (limit : Z) : Limit T := mkLimit (lm_inner t) limit.

Definition limit_remaining_mut (t : Limit T) : Z :=
  Z.min (remaining_mut (lm_inner t)) (lm_limit t).

Definition limit_chunk_mut (t : Limit T) : comp (Limit T * UninitSlice) :=
  '(inner, bytes) ← chunk_mut (lm_inner t);
  let end_ := Z.min (us_len bytes) (lm_limit t) in
  s ← us_index bytes (RangeTo end_);
  Ret (mkLimit inner (lm_limit t), s).

Definition limit_advance_mut (t : Limit T) (cnt : Z) : comp (Limit T) :=
  rust_assert (cnt <=? lm_limit t);;
  inner ← advance_mut (lm_inner t) cnt;
  limit ← usize_sub (lm_limit t) cnt;
  Ret (mkLimit inner limit).

#[global] Instance limit_core : BufMutCore (Limit T) := {
  remaining_mut := limit_remaining_mut;
  chunk_mut := limit_chunk_mut;
  advance_mut := limit_advance_mut;
  chunk_write t d := inner ← chunk_write (lm_inner t) d; Ret (mkLimit inner (lm_limit t));
}.
#[global] Instance limit_mut : BufMut (Limit T) := {
  put B _ := default_put;
  put_slice := default_put_slice;
  put_bytes := default_put_bytes;
}.
End limit.

(** ** [Chain], as a writer *)

Section chain_mut.
Context `{Build} {T U : Type} `{BufMut T} `{BufMut U}.

Definition chain_remaining_mut (c : Chain T U) : Z :=
  saturating_add 64 (remaining_mut (ch_a c)) (remaining_mut (ch_b c)).

Definition chain_chunk_mut (c : Chain T U) : comp (Chain T U * UninitSlice) :=
  if has_remaining_mut (ch_a c) then
    '(a, d) ← chunk_mut (ch_a c); Ret (mkChain a (ch_b c), d)
  else
    '(b, d) ← chunk_mut (ch_b c); Ret (mkChain (ch_a c) b, d).

Definition chain_chunk_write (c : Chain T U) (d : UninitSlice) : comp (Chain T U) :=
  if has_remaining_mut (ch_a c) then
    a ← chunk_write (ch_a c) d; Ret (mkChain a (ch_b c))
  else
    b ← chunk_write (ch_b c) d; Ret (mkChain (ch_a c) b).

Definition chain_advance_mut (c : Chain T U) (cnt : Z) : comp (Chain T U) :=
  let a_rem := remaining_mut (ch_a c) in
  if negb (a_rem =? 0) then
    if cnt <=? a_rem then
      a ← advance_mut (ch_a c) cnt; Ret (mkChain a (ch_b c))
    else
      a ← advance_mut (ch_a c) a_rem;
      cnt ← usize_sub cnt a_rem;
      b ← advance_mut (ch_b c) cnt; Ret (mkChain a b)
  else
    b ← advance_mut (ch_b c) cnt; Ret (mkChain (ch_a c) b).

#[global] Instance chain_mut_core : BufMutCore (Chain T U) := {
  remaining_mut := chain_remaining_mut;
  chunk_mut := chain_chunk_mut;
  advance_mut := chain_advance_mut;
  chunk_write := chain_chunk_write;
}.
#[global] Instance chain_mut : BufMut (Chain T U) := {
  put B _ := default_put;
  put_slice := default_put_slice;
  put_bytes := default_put_bytes;
}.
End chain_mut.

(** ** [Writer] *)

Record Writer (B : Type) := mkWriter { wr_buf : B }.
Arguments mkWriter {B} _.
Arguments wr_buf {B} _.

Section writer.
Context {B : Type} `{BufMut B}.

Definition writer_new (b : B) : Writer B := mkWriter b.
Definition writer_into_inner (w : Writer B) : B := wr_buf w.

(** [write], which never returns an [Err]. *)
Definition writer_write (w : Writer B) (buf : list byte) : comp (Writer B * result Z ()) :=
  let n := Z.min (remaining_mut (wr_buf w)) (zlen buf) in
  s ← slice buf 0 n;
  b ← put_slice (wr_buf w) s;
  Ret (mkWriter b, Ok n).

Definition writer_flush (w : Writer B) : comp (Writer B * result () ()) := Ret (w, Ok ()).
End writer.

(** ** The contract of [BufMut]

    [puts t bs t'] says that [t'] is [t] with the bytes [bs] appended.  [room] is
    the number of bytes that can still be appended; it is not bounded by
    [usize], as the room of a chain of vectors shows.  [mut_stop] are the ways
    a write that fits may stop, which are those of the allocator. *)

(** What [chunk_mut] promises: a non-empty slice of at most [remaining_mut]
    bytes, such that bytes stored at its start and advanced over have
    been appended. *)
Definition chunk_law {T} `{BufMutCore T} (wf : T → Prop) (rm : T → Z)
    (ps : T → list byte → T → Prop) (E : stop → Prop) (t : T) : Prop :=
  wp (chunk_mut t) E (λ '(t', dst),
    wf t' ∧ rm t' = rm t ∧ 0 < zlen dst ≤ remaining_mut t
    ∧ ∀ bs, zlen bs ≤ zlen dst →
        wp (chunk_write t' (us_new bs)) (λ _, False) (λ t1,
          remaining_mut t1 = remaining_mut t'
          ∧ wp (advance_mut t1 (zlen bs)) (λ _, False) (λ t'', wf t'' ∧ ps t bs t''))).

Class BufMutLaws (T : Type) `{BufMut T} := {
  mut_wf : T → Prop;
  room : T → Z;
  puts : T → list byte → T → Prop;
  mut_stop : stop → Prop;
  room_nonneg t : mut_wf t → 0 ≤ room t;
  remaining_room t : mut_wf t → remaining_mut t = Z.min (room t) usize_max;
  puts_nil t : mut_wf t → puts t [] t;
  puts_app t bs t' bs' t'' : puts t bs t' → puts t' bs' t'' → puts t (bs ++ bs') t'';
  puts_room t bs t' : puts t bs t' → room t' = room t - zlen bs;
  chunk_mut_law t : mut_wf t → 0 < room t → chunk_law mut_wf room puts mut_stop t;
  put_slice_law t src : mut_wf t → zlen src ≤ isize_max → zlen src ≤ room t →
    wp (put_slice t src) mut_stop (λ t', mut_wf t' ∧ puts t src t');
  put_slice_panics t src : mut_wf t → zlen src ≤ isize_max → room t < zlen src →
    ∃ p, put_slice t src = Panic p;
  put_bytes_law t val cnt : mut_wf t → is_usize cnt → cnt ≤ room t →
    wp (put_bytes t val cnt) mut_stop
       (λ t', mut_wf t' ∧ puts t (replicate (Z.to_nat cnt) val) t');
  put_bytes_panics t val cnt : mut_wf t → is_usize cnt → room t < cnt →
    ∃ p, put_bytes t val cnt = Panic p;
  put_law {B} `{BufLaws B} t (src : B) :
    mut_wf t → buf_wf src → zlen (content src) ≤ room t →
    wp (put t src) mut_stop
       (λ '(t', src'), mut_wf t' ∧ puts t (content src) t' ∧ buf_wf src' ∧ content src' = []);
  put_panics {B} `{BufLaws B} t (src : B) :
    mut_wf t → buf_wf src → room t < zlen (content src) → ∃ p, put t src = Panic p;
}.

(** The laws of [put], [put_slice] and [put_bytes] hold of the provided methods
    whenever the laws of the required ones do. *)
Section default_laws.
Context {T : Type} `{BufMutCore T}.
Context (wf : T → Prop) (rm : T → Z) (ps : T → list byte → T → Prop) (E : stop → Prop).
Context (Hrm0 : ∀ t, wf t → 0 ≤ rm t).
Context (Hrem : ∀ t, wf t → remaining_mut t = Z.min (rm t) usize_max).
Context (Hnil : ∀ t, wf t → ps t [] t).
Context (Happ : ∀ t bs t' bs' t'', ps t bs t' → ps t' bs' t'' → ps t (bs ++ bs') t'').
Context (Hroom : ∀ t bs t', ps t bs t' → rm t' = rm t - zlen bs).
Context (Hchunk : ∀ t, wf t → 0 < rm t → chunk_law wf rm ps E t).

Lemma copy_prefix (dst : UninitSlice) (src : list byte) cnt :
  cnt = Z.min (zlen src) (zlen dst) →
  us_index dst (RangeTo cnt) = Ret (ztake cnt dst)
  ∧ slice src 0 cnt = Ret (ztake cnt src)
  ∧ us_copy_from_slice (ztake cnt dst) (ztake cnt src) = Ret (us_new (ztake cnt src))
  ∧ zlen (ztake cnt src) = cnt.
Proof using Type.
  intros ->. pose proof (zlen_nonneg dst). pose proof (zlen_nonneg src).
  set (cnt := Z.min _ _). assert (zlen (ztake cnt src) = cnt) as Hl by (rewrite zlen_ztake; lia).
  simpl. rewrite !slice_in, Z.sub_0_r, !zdrop_0 by lia. split_and!; try done.
  unfold us_copy_from_slice, us_len. rewrite Hl, zlen_ztake by lia.
  by rewrite Z.min_l, Z.eqb_refl by lia.
Qed.

Lemma put_slice_loop_ok fuel t src :
  wf t → zlen src ≤ rm t → zlen src ≤ Z.of_nat fuel →
  wp (put_slice_loop fuel t src) E (λ t', wf t' ∧ ps t src t').
Proof using Hnil Happ Hroom Hchunk.
  revert t src. induction fuel as [|fuel IH]; intros t [|b src] Hwf Hr Hf;
    try (simpl; by auto).
  cbn [put_slice_loop]. remember (b :: src) as l eqn:Hl.
  assert (0 < zlen l) by (subst l; unfold zlen; simpl; lia).
  apply wp_bind. eapply wp_mono; [apply Hchunk; [done|lia]|done|].
  intros [t1 dst] (Hwf1 & Hr1 & [Hd1 Hd2] & Hstep). simpl.
  set (cnt := Z.min (zlen l) (us_len dst)).
  destruct (copy_prefix dst l cnt eq_refl) as (Ei & Es & Ec & Elen). simpl in Ei.
  rewrite Ei. simpl. rewrite Es. simpl. rewrite Ec. simpl.
  unfold us_len in cnt.
  specialize (Hstep (ztake cnt l) ltac:(lia)).
  destruct (chunk_write t1 (us_new (ztake cnt l))) as [t2|]; [|done]. simpl in *.
  destruct Hstep as [_ Hstep]. rewrite Elen in Hstep. rewrite slice_in by lia. simpl. destruct (advance_mut t2 cnt) as [t3|]; [|done]. simpl in *.
  destruct Hstep as [Hwf3 Hp3]. rewrite (ztake_all (zlen l - cnt)) by (rewrite zlen_zdrop; lia).
  eapply wp_mono; [apply IH; [done| |]|done|].
  - rewrite (Hroom _ _ _ Hp3), zlen_zdrop by lia. lia.
  - rewrite zlen_zdrop by lia. lia.
  - intros t4 [Hwf4 Hp4]. split; [done|]. rewrite <-(ztake_zdrop cnt l). eauto.
Qed.

Lemma put_bytes_loop_ok fuel t val cnt :
  wf t → 0 ≤ cnt ≤ rm t → cnt ≤ Z.of_nat fuel →
  wp (put_bytes_loop fuel t val cnt) E (λ t', wf t' ∧ ps t (replicate (Z.to_nat cnt) val) t').
Proof using Hnil Happ Hroom Hchunk.
  revert t cnt. induction fuel as [|fuel IH]; intros t cnt Hwf Hr Hf; simpl;
    destruct (Z.ltb_spec 0 cnt); try lia.
  1, 3: assert (cnt = 0) as -> by lia; simpl; by auto.
  apply wp_bind. eapply wp_mono; [apply Hchunk; [done|lia]|done|].
  intros [t1 dst] (Hwf1 & Hr1 & [Hd1 Hd2] & Hstep). simpl.
  set (n := Z.min (us_len dst) cnt). unfold us_len in n.
  set (bs := replicate (Z.to_nat n) val).
  assert (zlen bs = n) as Hn by (unfold bs, zlen; rewrite length_replicate; lia).
  assert (replicate (Z.to_nat n) (Some val) = us_new bs) as ->
    by (unfold us_new, bs; by rewrite fmap_replicate).
  specialize (Hstep bs ltac:(lia)). rewrite Hn in Hstep.
  destruct (chunk_write t1 _) as [t2'|]; [|done]. simpl in *. destruct Hstep as [_ Hstep].
  destruct (advance_mut t2' n) as [t2|]; [|done]. simpl in *. destruct Hstep as [Hwf2 Hp2].
  eapply wp_mono; [apply IH; [done| |lia]|done|].
  - rewrite (Hroom _ _ _ Hp2). lia.
  - intros t3 [Hwf3 Hp3]. split; [done|].
    replace (replicate (Z.to_nat cnt) val)
      with (bs ++ replicate (Z.to_nat (cnt - n)) val); [by eauto|].
    unfold bs. rewrite <-replicate_add. f_equal. lia.
Qed.

Lemma put_loop_ok {B} `{BufLaws B} fuel t (src : B) :
  wf t → buf_wf src → zlen (content src) ≤ rm t → zlen (content src) ≤ Z.of_nat fuel →
  wp (put_loop fuel t src) E
     (λ '(t', src'), wf t' ∧ ps t (content src) t' ∧ buf_wf src' ∧ content src' = []).
Proof using Hnil Happ Hroom Hchunk.
  revert t src. induction fuel as [|fuel IH]; intros t src Hwf Hs Hr Hf; simpl;
    rewrite has_remaining_spec by done; case_bool_decide as Hc; simpl;
    try (rewrite Hc; by auto).
  { destruct (content src); [done|]. unfold zlen in Hf. simpl in Hf. lia. }
  destruct (chunk_prefix src Hs) as [k Hk]. pose proof (chunk_nonempty src Hs Hc) as Hne.
  assert (0 < zlen (chunk src)).
  { destruct (chunk src); [done|]. unfold zlen. simpl. lia. }
  assert (zlen (content src) = zlen (chunk src) + zlen k) as Hlk by (by rewrite Hk, zlen_app).
  pose proof (zlen_nonneg k).
  apply wp_bind. eapply wp_mono; [apply Hchunk; [done|lia]|done|].
  intros [t1 dst] (Hwf1 & Hr1 & [Hd1 Hd2] & Hstep). simpl.
  set (cnt := Z.min (zlen (chunk src)) (us_len dst)).
  destruct (copy_prefix dst (chunk src) cnt eq_refl) as (Ei & Es & Ec & Elen). simpl in Ei.
  rewrite Ei. simpl. rewrite Es. simpl. rewrite Ec. simpl.
  unfold us_len in cnt. specialize (Hstep (ztake cnt (chunk src)) ltac:(rewrite Elen; lia)).
  destruct (chunk_write t1 _) as [t2|]; [|done]. simpl in *.
  destruct Hstep as [_ Hstep]. rewrite Elen in Hstep.
  destruct (advance_mut t2 cnt) as [t3|]; [|done]. simpl in *. destruct Hstep as [Hwf3 Hp3].
  destruct (advance_ok src cnt Hs) as (src' & -> & Hs' & Hc'); [lia|]. simpl.
  assert (zlen (content src') = zlen (content src) - cnt) as Hl'
    by (rewrite Hc', zlen_zdrop; lia).
  eapply wp_mono; [apply IH; [done|done| |lia]|done|].
  - rewrite (Hroom _ _ _ Hp3). lia.
  - intros [t4 src4] (Hwf4 & Hp4 & ? & ?). split_and!; [done| |done|done].
    rewrite <-(ztake_zdrop cnt (content src)), <-Hc'.
    replace (ztake cnt (content src)) with (ztake cnt (chunk src)); [by eauto|].
    by rewrite Hk, ztake_app_le by lia.
Qed.

Lemma default_put_slice_ok t src :
  wf t → zlen src ≤ isize_max → zlen src ≤ rm t →
  wp (default_put_slice t src) E (λ t', wf t' ∧ ps t src t').
Proof using Hrem Hnil Happ Hroom Hchunk.
  intros Hwf Hs Hr. unfold default_put_slice. rewrite Hrem by done.
  rewrite (proj2 (Z.ltb_ge _ _)) by (unfold isize_max, usize_max in *; lia).
  by apply put_slice_loop_ok.
Qed.

Lemma default_put_slice_panics t src :
  wf t → zlen src ≤ isize_max → rm t < zlen src → ∃ p, default_put_slice t src = Panic p.
Proof using Hrem.
  intros Hwf Hs Hr. unfold default_put_slice. rewrite Hrem by done.
  rewrite (proj2 (Z.ltb_lt _ _)) by (unfold isize_max, usize_max in *; lia). eauto.
Qed.

Lemma default_put_bytes_ok t val cnt :
  wf t → is_usize cnt → cnt ≤ rm t →
  wp (default_put_bytes t val cnt) E
     (λ t', wf t' ∧ ps t (replicate (Z.to_nat cnt) val) t').
Proof using Hrem Hnil Happ Hroom Hchunk.
  intros Hwf [Hs1 Hs2] Hr. unfold default_put_bytes. rewrite Hrem by done.
  rewrite (proj2 (Z.ltb_ge _ _)) by (unfold usize_max; lia).
  apply put_bytes_loop_ok; [done|lia|lia].
Qed.

Lemma default_put_bytes_panics t val cnt :
  wf t → is_usize cnt → rm t < cnt → ∃ p, default_put_bytes t val cnt = Panic p.
Proof using Hrem.
  intros Hwf [Hs1 Hs2] Hr. unfold default_put_bytes. rewrite Hrem by done.
  rewrite (proj2 (Z.ltb_lt _ _)) by lia. eauto.
Qed.

Lemma default_put_panics {B} `{BufLaws B} t (src : B) :
  wf t → buf_wf src → rm t < zlen (content src) → ∃ p, default_put t src = Panic p.
Proof using Hrem.
  intros Hwf Hs Hr. unfold default_put. rewrite Hrem, remaining_content by done.
  rewrite (proj2 (Z.ltb_lt _ _)) by lia. eauto.
Qed.

Lemma default_put_ok {B} `{BufLaws B} t (src : B) :
  wf t → buf_wf src → zlen (content src) ≤ rm t →
  wp (default_put t src) E
     (λ '(t', src'), wf t' ∧ ps t (content src) t' ∧ buf_wf src' ∧ content src' = []).
Proof using Hrem Hnil Happ Hroom Hchunk.
  intros Hwf Hs Hr. unfold default_put. rewrite Hrem, remaining_content by done.
  pose proof (content_bound src Hs).
  rewrite (proj2 (Z.ltb_ge _ _)) by lia.
  apply put_loop_ok; [done..|]. pose proof (zlen_nonneg (content src)). lia.
Qed.
End default_laws.

(** ** The implementations meet the contract *)

(** *** Slices *)

Lemma zlen_fmap {A B} (f : A → B) l : zlen (f <$> l) = zlen l.
Proof. unfold zlen. by rewrite length_fmap. Qed.

Lemma zlen_replicate {A} (n : Z) (x : A) : 0 ≤ n → zlen (replicate (Z.to_nat n) x) = n.
Proof. intros. unfold zlen. rewrite length_replicate. lia. Qed.

Section slice_laws.
Context {A : Type} (inj : byte → A).
Implicit Types t : SliceMut A.

Definition sm_wf t : Prop := zlen (sm_rest t) ≤ isize_max.
Definition sm_room t : Z := zlen (sm_rest t).
Definition sm_puts t (bs : list byte) t' : Prop :=
  zlen bs ≤ zlen (sm_rest t) ∧ sm_done t' = sm_done t ++ (inj <$> bs)
  ∧ sm_rest t' = zdrop (zlen bs) (sm_rest t).

Lemma sm_put t new :
  zlen new ≤ zlen (sm_rest t) →
  sm_advance (sm_store t new) (zlen new)
  = Ret (mkSliceMut (sm_done t ++ new) (zdrop (zlen new) (sm_rest t))).
Proof using Type.
  intros Hl. unfold sm_advance, sm_store. simpl. pose proof (zlen_nonneg new).
  rewrite (proj2 (Z.ltb_ge _ _)) by (rewrite zlen_app, zlen_zdrop; lia).
  by rewrite ztake_app_exact, zdrop_app_exact.
Qed.

Lemma sm_store_len t new :
  zlen new ≤ zlen (sm_rest t) → zlen (sm_rest (sm_store t new)) = zlen (sm_rest t).
Proof using Type.
  intros. unfold sm_store. simpl. pose proof (zlen_nonneg new).
  rewrite zlen_app, zlen_zdrop; lia.
Qed.

Lemma sm_put_puts t bs :
  sm_wf t → zlen bs ≤ zlen (sm_rest t) →
  wp (sm_advance (sm_store t (inj <$> bs)) (zlen bs)) (λ _, False)
     (λ t', sm_wf t' ∧ sm_puts t bs t').
Proof using Type.
  intros Hwf Hl. rewrite <-(zlen_fmap inj bs), sm_put by (by rewrite zlen_fmap). simpl.
  rewrite zlen_fmap. split; [|by split_and!].
  unfold sm_wf in *. simpl. rewrite zlen_zdrop by apply zlen_nonneg.
  pose proof (zlen_nonneg bs). lia.
Qed.

Lemma sm_room_nonneg t : sm_wf t → 0 ≤ sm_room t.
Proof using Type. intros _. apply zlen_nonneg. Qed.

Lemma sm_remaining t : sm_wf t → zlen (sm_rest t) = Z.min (sm_room t) usize_max.
Proof using Type. unfold sm_wf, sm_room, isize_max, usize_max. lia. Qed.

Lemma sm_puts_nil t : sm_wf t → sm_puts t [] t.
Proof using Type.
  intros _. split_and!; [apply zlen_nonneg|by rewrite app_nil_r|done].
Qed.

Lemma sm_puts_app t bs t' bs' t'' :
  sm_puts t bs t' → sm_puts t' bs' t'' → sm_puts t (bs ++ bs') t''.
Proof using Type.
  intros (Hl & Hd & Hr) (Hl' & Hd' & Hr'). pose proof (zlen_nonneg bs).
  pose proof (zlen_nonneg bs'). rewrite Hr, zlen_zdrop in Hl' by lia.
  split_and!.
  - rewrite zlen_app. lia.
  - by rewrite Hd', Hd, fmap_app, (assoc_L (++)).
  - by rewrite Hr', Hr, zlen_app, zdrop_zdrop by lia.
Qed.

Lemma sm_puts_room t bs t' : sm_puts t bs t' → sm_room t' = sm_room t - zlen bs.
Proof using Type.
  intros (Hl & _ & Hr). unfold sm_room. pose proof (zlen_nonneg bs).
  rewrite Hr, zlen_zdrop; lia.
Qed.
End slice_laws.

Lemma slice_mut_chunk_law (t : SliceMut byte) :
  sm_wf t → 0 < sm_room t → chunk_law sm_wf sm_room (sm_puts id) (λ _, False) t.
Proof.
  intros Hwf Hr. unfold chunk_law. simpl. unfold us_new. rewrite zlen_fmap.
  split_and!; [done..|]. intros bs Hb. rewrite init_bytes_Some. simpl.
  split; [by apply (sm_store_len t)|].
  pose proof (sm_put_puts id t bs Hwf Hb) as Hp. by rewrite list_fmap_id in Hp.
Qed.

Lemma uninit_mut_chunk_law (t : SliceMut cell) :
  sm_wf t → 0 < sm_room t → chunk_law sm_wf sm_room (sm_puts Some) (λ _, False) t.
Proof.
  intros Hwf Hr. unfold chunk_law. simpl. split_and!; [done..|]. intros bs Hb.
  split; [apply (sm_store_len t); unfold us_new; by rewrite zlen_fmap|].
  by apply sm_put_puts.
Qed.

#[global] Program Instance slice_mut_laws : BufMutLaws (SliceMut byte) := {
  mut_wf := sm_wf;
  room := sm_room;
  puts := sm_puts id;
  mut_stop _ := False;
  room_nonneg := sm_room_nonneg;
  remaining_room := sm_remaining;
  puts_nil := sm_puts_nil id;
  puts_app := sm_puts_app id;
  puts_room := sm_puts_room id;
  chunk_mut_law := slice_mut_chunk_law;
}.
Next Obligation.
  simpl. unfold slice_mut_put_slice, sm_room. intros t src Hwf _ Hr.
  pose proof (zlen_nonneg src). rewrite (proj2 (Z.ltb_ge _ _)), slice_in by lia. simpl.
  rewrite zlen_ztake, Z.sub_0_r, zdrop_0, Z.min_l, Z.eqb_refl by lia. simpl.
  pose proof (sm_put_puts id t src Hwf Hr) as Hp. by rewrite list_fmap_id in Hp.
Qed.
Next Obligation.
  simpl. unfold slice_mut_put_slice, sm_room. intros t src _ _ Hr.
  rewrite (proj2 (Z.ltb_lt _ _)) by lia. eauto.
Qed.
Next Obligation.
  simpl. unfold slice_mut_put_bytes, sm_room. intros t val cnt Hwf [Hc _] Hr.
  rewrite (proj2 (Z.ltb_ge _ _)) by lia.
  pose proof (sm_put_puts id t (replicate (Z.to_nat cnt) val) Hwf) as Hp.
  rewrite zlen_replicate, list_fmap_id in Hp by done. by apply Hp.
Qed.
Next Obligation.
  simpl. unfold slice_mut_put_bytes, sm_room. intros t val cnt _ _ Hr.
  rewrite (proj2 (Z.ltb_lt _ _)) by lia. eauto.
Qed.
Next Obligation.
  intros B HB HL t src Hwf Hs Hr. simpl.
  by apply (@default_put_ok _ slice_mut_core sm_wf sm_room (sm_puts id) (λ _, False) sm_remaining
    (sm_puts_nil id) (sm_puts_app id) (sm_puts_room id) slice_mut_chunk_law).
Qed.
Next Obligation.
  intros B HB HL t src Hwf Hs Hr.
  by apply (@default_put_panics _ slice_mut_core sm_wf sm_room sm_remaining B HB HL).
Qed.

#[global] Program Instance uninit_mut_laws : BufMutLaws (SliceMut cell) := {
  mut_wf := sm_wf;
  room := sm_room;
  puts := sm_puts Some;
  mut_stop _ := False;
  room_nonneg := sm_room_nonneg;
  remaining_room := sm_remaining;
  puts_nil := sm_puts_nil Some;
  puts_app := sm_puts_app Some;
  puts_room := sm_puts_room Some;
  chunk_mut_law := uninit_mut_chunk_law;
}.
Next Obligation.
  simpl. unfold uninit_mut_put_slice, sm_room. intros t src Hwf _ Hr.
  rewrite (proj2 (Z.ltb_ge _ _)) by lia. by apply sm_put_puts.
Qed.
Next Obligation.
  simpl. unfold uninit_mut_put_slice, sm_room. intros t src _ _ Hr.
  rewrite (proj2 (Z.ltb_lt _ _)) by lia. eauto.
Qed.
Next Obligation.
  simpl. unfold uninit_mut_put_bytes, sm_room. intros t val cnt Hwf [Hc _] Hr.
  rewrite (proj2 (Z.ltb_ge _ _)) by lia.
  pose proof (sm_put_puts Some t (replicate (Z.to_nat cnt) val) Hwf) as Hp.
  rewrite zlen_replicate, fmap_replicate in Hp by done. by apply Hp.
Qed.
Next Obligation.
  simpl. unfold uninit_mut_put_bytes, sm_room. intros t val cnt _ _ Hr.
  rewrite (proj2 (Z.ltb_lt _ _)) by lia. eauto.
Qed.
Next Obligation.
  intros B HB HL t src Hwf Hs Hr. simpl.
  by apply (@default_put_ok _ uninit_mut_core sm_wf sm_room (sm_puts Some) (λ _, False) sm_remaining
    (sm_puts_nil Some) (sm_puts_app Some) (sm_puts_room Some) uninit_mut_chunk_law).
Qed.
Next Obligation.
  intros B HB HL t src Hwf Hs Hr.
  by apply (@default_put_panics _ uninit_mut_core sm_wf sm_room sm_remaining B HB HL).
Qed.

(** *** Vectors *)

Section vec_laws.
Context `{Build} `{Allocates}.
Implicit Types v : Vec.

Definition vec_room v : Z := isize_max - vec_len v.
Definition vec_puts v (bs : list byte) v' : Prop :=
  vec_bytes v' = vec_bytes v ++ bs ∧ vec_len v' = vec_len v + zlen bs.

Lemma vec_room_nonneg v : vec_wf v → 0 ≤ vec_room v.
Proof. intros ([??]&?&_). unfold vec_room. lia. Qed.

Lemma vec_remaining_room v : vec_wf v → remaining_mut v = Z.min (vec_room v) usize_max.
Proof.
  intros ([??]&?&_). simpl. unfold vec_remaining_mut, vec_room, isize_max, usize_max in *. lia.
Qed.

Lemma vec_puts_nil v : vec_wf v → vec_puts v [] v.
Proof. intros _. split; [by rewrite app_nil_r|]. unfold zlen. simpl. lia. Qed.

Lemma vec_puts_app v bs v' bs' v'' :
  vec_puts v bs v' → vec_puts v' bs' v'' → vec_puts v (bs ++ bs') v''.
Proof.
  intros [Hb Hl] [Hb' Hl']. split; [by rewrite Hb', Hb, (assoc_L (++))|].
  rewrite zlen_app. lia.
Qed.

Lemma vec_puts_room v bs v' : vec_puts v bs v' → vec_room v' = vec_room v - zlen bs.
Proof. intros [_ Hl]. unfold vec_room. lia. Qed.

(** The vector [chunk_mut] leaves has spare capacity and the same content. *)
Lemma vec_chunk_mut_ok v :
  vec_wf v →
  wp (vec_chunk_mut v) alloc_stop (λ '(v', dst),
    vec_wf v' ∧ vec_bytes v' = vec_bytes v ∧ vec_len v' = vec_len v
    ∧ vec_len v < vec_capacity v' ∧ dst = zdrop (vec_len v) (vec_cells v')).
Proof.
  intros Hwf. unfold vec_chunk_mut. destruct (Z.eqb_spec (vec_capacity v) (vec_len v)).
  - apply wp_bind. eapply wp_mono; [apply vec_reserve_ok; [done|lia]|done|].
    intros v' (? & ? & Hl & ? & ?). simpl. rewrite Hl. split_and!; try done; lia.
  - simpl. destruct Hwf as ([??]&?&?). split_and!; try done; lia.
Qed.

Lemma vec_write_advance v bs :
  vec_wf v → vec_len v + zlen bs ≤ vec_capacity v →
  vec_advance_mut (vec_write v (vec_len v) (us_new bs)) (zlen bs)
  = Ret (vec_set_len (vec_write v (vec_len v) (us_new bs)) (vec_len v + zlen bs)).
Proof.
  intros Hwf Hroom. unfold vec_advance_mut.
  assert (vec_capacity (vec_write v (vec_len v) (us_new bs)) = vec_capacity v) as ->.
  { destruct Hwf as ([??]&?&?). pose proof (zlen_nonneg bs). unfold vec_capacity in *. simpl.
    rewrite !zlen_app, zlen_ztake by done. unfold us_new. rewrite zlen_fmap, zlen_zdrop; lia. }
  simpl. destruct Hwf as ([??]&?&?). pose proof (zlen_nonneg bs).
  unfold isize_max in *. rewrite usize_sub_in by lia. simpl.
  rewrite (proj2 (Z.ltb_ge _ _)) by lia. by rewrite usize_add_in by lia.
Qed.

Lemma vec_chunk_law v :
  vec_wf v → 0 < vec_room v → chunk_law vec_wf vec_room vec_puts alloc_stop v.
Proof.
  intros Hwf Hr. eapply wp_mono; [by apply vec_chunk_mut_ok|done|].
  intros [v' dst] (Hwf' & Hb & Hl & Hcap & ->). pose proof Hwf' as ([??]&?&_).
  assert (zlen (zdrop (vec_len v) (vec_cells v')) = vec_capacity v' - vec_len v) as Hd.
  { unfold vec_capacity in *. rewrite zlen_zdrop; lia. }
  rewrite Hd. simpl. unfold vec_room, vec_remaining_mut. split_and!; [done|lia|lia|lia|].
  intros bs Hbs. simpl. split; [done|]. rewrite vec_write_advance by (done || lia). simpl.
  destruct (vec_append v' bs Hwf') as [? Hb']; [lia|]. unfold us_new.
  split; [done|]. split; [by rewrite Hb', Hb|]. simpl. lia.
Qed.

Lemma vec_extend_ok v src :
  vec_wf v →
  wp (vec_extend_from_slice v src) alloc_stop (λ v', vec_wf v' ∧ vec_puts v src v'
    ∧ vec_capacity v ≤ vec_capacity v').
Proof.
  intros Hwf. unfold vec_extend_from_slice. apply wp_bind.
  eapply wp_mono; [apply vec_reserve_ok; [done|apply zlen_nonneg]|done|].
  intros v' (Hwf' & Hb & Hl & Hc & Hroom). simpl.
  destruct (vec_append v' src Hwf') as [? Hb']; [lia|]. split_and!; [done| |].
  - split; [by rewrite Hb', Hb|]. simpl. lia.
  - unfold vec_capacity in *. simpl. destruct Hwf' as ([??]&_). pose proof (zlen_nonneg src).
    unfold vec_capacity in *. rewrite !zlen_app, zlen_ztake, zlen_fmap, zlen_zdrop; lia.
Qed.

Lemma vec_put_bytes_ok v val cnt :
  vec_wf v → 0 ≤ cnt ≤ vec_room v →
  wp (vec_put_bytes v val cnt) alloc_stop
     (λ v', vec_wf v' ∧ vec_puts v (replicate (Z.to_nat cnt) val) v').
Proof.
  intros Hwf Hr. unfold vec_put_bytes, vec_resize, vec_room in *.
  pose proof Hwf as ([??]&?&_). unfold saturating_add.
  rewrite Z.min_l by (unfold isize_max in *; lia).
  destruct (Z.ltb_spec (vec_len v) (vec_len v + cnt)).
  - apply wp_bind. replace (vec_len v + cnt - vec_len v) with cnt by lia.
    eapply wp_mono; [apply vec_reserve_ok; [done|lia]|done|].
    intros v' (Hwf' & Hb & Hl & _ & Hroom). simpl.
    destruct (vec_append v' (replicate (Z.to_nat cnt) val) Hwf') as [Hw Hb'];
      [rewrite zlen_replicate; lia|].
    rewrite zlen_replicate, Hl in Hw, Hb' by lia. rewrite fmap_replicate in Hw, Hb'.
    rewrite Hl. split; [done|]. split; [by rewrite Hb', Hb|].
    simpl. by rewrite zlen_replicate by lia.
  - assert (cnt = 0) as -> by lia. rewrite Z.add_0_r. simpl. destruct v. split; [done|].
    by apply vec_puts_nil.
Qed.

Lemma vec_put_loop_ok {B} `{BufLaws B} fuel v (src : B) :
  vec_wf v → buf_wf src → zlen (content src) ≤ Z.of_nat fuel →
  wp (vec_put_loop fuel v src) alloc_stop
     (λ '(v', src'), vec_wf v' ∧ vec_puts v (content src) v' ∧ buf_wf src' ∧ content src' = []).
Proof.
  revert v src. induction fuel as [|fuel IH]; intros v src Hwf Hs Hf; simpl;
    rewrite has_remaining_spec by done; case_bool_decide as Hc; simpl;
    try (rewrite Hc; by auto using vec_puts_nil).
  { destruct (content src); [done|]. unfold zlen in Hf. simpl in Hf. lia. }
  destruct (chunk_prefix src Hs) as [k Hk]. pose proof (chunk_nonempty src Hs Hc) as Hne.
  assert (0 < zlen (chunk src)).
  { destruct (chunk src); [done|]. unfold zlen. simpl. lia. }
  assert (zlen (content src) = zlen (chunk src) + zlen k) as Hlk by (by rewrite Hk, zlen_app).
  pose proof (zlen_nonneg k).
  apply wp_bind. eapply wp_mono; [by apply vec_extend_ok|done|].
  intros v1 (Hwf1 & Hp1 & _). simpl.
  destruct (advance_ok src (zlen (chunk src)) Hs) as (src' & -> & Hs' & Hc'); [lia|]. simpl.
  rewrite Hk, zdrop_app_exact in Hc'.
  eapply wp_mono; [apply IH; [done|done|rewrite Hc'; lia]|done|].
  intros [v2 src2] (? & Hp2 & ? & ?). split_and!; [done| |done|done].
  rewrite Hk. rewrite Hc' in Hp2. by eapply vec_puts_app.
Qed.

#[global] Program Instance vec_laws : BufMutLaws Vec := {
  mut_wf := vec_wf;
  room := vec_room;
  puts := vec_puts;
  mut_stop := alloc_stop;
  room_nonneg := vec_room_nonneg;
  remaining_room := vec_remaining_room;
  puts_nil := vec_puts_nil;
  puts_app := vec_puts_app;
  puts_room := vec_puts_room;
  chunk_mut_law := vec_chunk_law;
}.
Next Obligation.
  simpl. intros v src Hwf _ _. eapply wp_mono; [by apply vec_extend_ok|done|].
  by intros v' (? & ? & _).
Qed.
Next Obligation.
  simpl. unfold vec_room, vec_extend_from_slice. intros v src Hwf _ Hr.
  rewrite vec_reserve_overflow by (done || lia). simpl. eauto.
Qed.
Next Obligation. simpl. intros v val cnt Hwf [??] Hr. by apply vec_put_bytes_ok. Qed.
Next Obligation.
  simpl. unfold vec_room, vec_put_bytes, vec_resize, saturating_add.
  intros v val cnt Hwf [??] Hr. pose proof Hwf as ([??]&?&_). unfold isize_max in *.
  rewrite (proj2 (Z.ltb_lt _ _)) by lia.
  rewrite vec_reserve_overflow by (done || (unfold isize_max; lia)). simpl. eauto.
Qed.
Next Obligation.
  simpl. intros B HB HL v src Hwf Hs Hr. unfold vec_put. rewrite remaining_content by done.
  pose proof (zlen_nonneg (content src)).
  apply wp_bind. eapply wp_mono; [by apply vec_reserve_ok|done|].
  intros v' (Hwf' & Hb & Hl & _). simpl.
  eapply wp_mono; [apply vec_put_loop_ok; [done|done|lia]|done|].
  intros [v2 src2] (? & [Hb2 Hl2] & ? & ?). split_and!; try done.
  split; [by rewrite Hb2, Hb|lia].
Qed.
Next Obligation.
  simpl. unfold vec_put, vec_room. intros B HB HL v src Hwf Hs Hr.
  rewrite remaining_content, vec_reserve_overflow by (done || lia). simpl. eauto.
Qed.
End vec_laws.

(** *** [Limit] *)

Section limit_laws.
Context `{Build} {T : Type} `{BufMutLaws T}.
Implicit Types t : Limit T.

Definition limit_wf t : Prop := mut_wf (lm_inner t) ∧ is_usize (lm_limit t).
Definition limit_room t : Z := Z.min (room (lm_inner t)) (lm_limit t).
Definition limit_puts t (bs : list byte) t' : Prop :=
  puts (lm_inner t) bs (lm_inner t') ∧ lm_limit t' = lm_limit t - zlen bs.

Lemma limit_room_nonneg t : limit_wf t → 0 ≤ limit_room t.
Proof. intros [Hi [? _]]. unfold limit_room. pose proof (room_nonneg _ Hi). lia. Qed.

Lemma limit_remaining_room t : limit_wf t → remaining_mut t = Z.min (limit_room t) usize_max.
Proof.
  intros [Hi [? ?]]. simpl. unfold limit_remaining_mut, limit_room.
  rewrite remaining_room by done. unfold usize_max. lia.
Qed.

Lemma limit_puts_nil t : limit_wf t → limit_puts t [] t.
Proof. intros [Hi _]. split; [by apply puts_nil|]. unfold zlen. simpl. lia. Qed.

Lemma limit_puts_app t bs t' bs' t'' :
  limit_puts t bs t' → limit_puts t' bs' t'' → limit_puts t (bs ++ bs') t''.
Proof.
  intros [? ?] [? ?]. split; [by eapply puts_app|]. rewrite zlen_app. lia.
Qed.

Lemma limit_puts_room t bs t' : limit_puts t bs t' → limit_room t' = limit_room t - zlen bs.
Proof. intros [?%puts_room ?]. unfold limit_room. lia. Qed.

Lemma limit_chunk_law t :
  limit_wf t → 0 < limit_room t → chunk_law limit_wf limit_room limit_puts mut_stop t.
Proof.
  intros [Hi [Hl0 Hl]] Hr. unfold limit_room in Hr. unfold chunk_law. simpl.
  unfold limit_chunk_mut. apply wp_bind.
  eapply wp_mono; [apply (chunk_mut_law (lm_inner t)); [done|lia]|done|].
  intros [i' d] (Hwf' & Hr' & [Hd1 Hd2] & Hstep). simpl. unfold us_len.
  rewrite slice_in by lia. simpl. rewrite Z.sub_0_r, zdrop_0, zlen_ztake by lia.
  unfold limit_room, limit_wf, limit_remaining_mut. simpl.
  split_and!; [done|done|lia|lia|lia|]. intros bs Hbs. specialize (Hstep bs ltac:(lia)).
  destruct (chunk_write i' (us_new bs)) as [i1|]; [|done]. simpl in *.
  destruct Hstep as [Hrem Hadv]. split; [unfold limit_remaining_mut; simpl; by rewrite Hrem|].
  unfold limit_advance_mut. simpl. rewrite (proj2 (Z.leb_le _ _)) by lia. simpl.
  destruct (advance_mut i1 (zlen bs)) as [i2|]; [|done]. simpl in *.
  destruct Hadv as [? ?]. pose proof (zlen_nonneg bs). rewrite usize_sub_in by lia.
  simpl. split; [|by split]. split; simpl; [done|]. split; lia.
Qed.

#[global] Instance limit_laws : BufMutLaws (Limit T) := {|
  mut_wf := limit_wf;
  room := limit_room;
  puts := limit_puts;
  mut_stop := mut_stop;
  room_nonneg := limit_room_nonneg;
  remaining_room := limit_remaining_room;
  puts_nil := limit_puts_nil;
  puts_app := limit_puts_app;
  puts_room := limit_puts_room;
  chunk_mut_law := limit_chunk_law;
  put_slice_law := default_put_slice_ok limit_wf limit_room limit_puts mut_stop
    limit_remaining_room limit_puts_nil limit_puts_app limit_puts_room limit_chunk_law;
  put_slice_panics := default_put_slice_panics limit_wf limit_room limit_remaining_room;
  put_bytes_law := default_put_bytes_ok limit_wf limit_room limit_puts mut_stop
    limit_remaining_room limit_puts_nil limit_puts_app limit_puts_room limit_chunk_law;
  put_bytes_panics := default_put_bytes_panics limit_wf limit_room limit_remaining_room;
  put_panics B _ _ := default_put_panics limit_wf limit_room limit_remaining_room;
  put_law B _ _ := default_put_ok limit_wf limit_room limit_puts mut_stop
    limit_remaining_room limit_puts_nil limit_puts_app limit_puts_room limit_chunk_law;
|}.
End limit_laws.

(** *** [Chain]: the second buffer is written only once the first is full *)

Section chain_mut_laws.
Context `{Build} {T U : Type} `{BufMutLaws T} `{BufMutLaws U}.
Implicit Types c : Chain T U.

Definition chain_mut_wf c : Prop := mut_wf (ch_a c) ∧ mut_wf (ch_b c).
Definition chain_room c : Z := room (ch_a c) + room (ch_b c).
Definition chain_puts c (bs : list byte) c' : Prop :=
  ∃ xs ys, bs = xs ++ ys ∧ puts (ch_a c) xs (ch_a c') ∧ puts (ch_b c) ys (ch_b c')
    ∧ 0 ≤ room (ch_a c') ∧ (ys ≠ [] → room (ch_a c') = 0).
Definition chain_stop (s : stop) : Prop := mut_stop (T:=T) s ∨ mut_stop (T:=U) s.

Lemma chain_room_nonneg c : chain_mut_wf c → 0 ≤ chain_room c.
Proof.
  intros [Ha Hb]. unfold chain_room. pose proof (room_nonneg _ Ha).
  pose proof (room_nonneg _ Hb). lia.
Qed.

Lemma chain_remaining_room c :
  chain_mut_wf c → remaining_mut c = Z.min (chain_room c) usize_max.
Proof.
  intros [Ha Hb]. simpl. unfold chain_remaining_mut, chain_room, saturating_add.
  rewrite !remaining_room by done. pose proof (room_nonneg _ Ha).
  pose proof (room_nonneg _ Hb). unfold usize_max. lia.
Qed.

Lemma chain_puts_nil c : chain_mut_wf c → chain_puts c [] c.
Proof.
  intros [Ha Hb]. exists [], []. split_and!; auto using puts_nil, room_nonneg. done.
Qed.

Lemma chain_puts_app c bs c' bs' c'' :
  chain_puts c bs c' → chain_puts c' bs' c'' → chain_puts c (bs ++ bs') c''.
Proof.
  intros (xs & ys & -> & Hx & Hy & Hnn & Hfull) (xs' & ys' & -> & Hx' & Hy' & Hnn' & Hfull').
  pose proof (puts_app _ _ _ _ _ Hx Hx') as Hxx. pose proof (puts_app _ _ _ _ _ Hy Hy') as Hyy.
  pose proof (puts_room _ _ _ Hx') as Hrx.
  assert (ys = [] ∨ xs' = []) as Hcase.
  { destruct ys as [|y ys]; [by left|]. right. apply zlen_nil_inv.
    pose proof (zlen_nonneg xs'). rewrite Hfull in Hrx by done. lia. }
  exists (xs ++ xs'), (ys ++ ys'). split_and!; try done.
  - destruct Hcase as [-> | ->]; simpl; by rewrite app_nil_r, (assoc_L (++)).
  - intros Hne. destruct ys' as [|y ys']; [|by apply Hfull'].
    rewrite app_nil_r in Hne. rewrite Hrx, (Hfull Hne).
    destruct Hcase as [-> | ->]; [done|]. unfold zlen. simpl. lia.
Qed.

Lemma chain_puts_room c bs c' : chain_puts c bs c' → chain_room c' = chain_room c - zlen bs.
Proof.
  intros (xs & ys & -> & Hx%puts_room & Hy%puts_room & _). unfold chain_room.
  rewrite zlen_app. lia.
Qed.

Lemma has_remaining_mut_spec {X} `{BufMutLaws X} (x : X) :
  mut_wf x → has_remaining_mut x = (0 <? room x).
Proof.
  intros Hx. unfold has_remaining_mut. rewrite remaining_room by done.
  unfold usize_max. zcases; lia.
Qed.

Lemma chain_chunk_law c :
  chain_mut_wf c → 0 < chain_room c →
  chunk_law chain_mut_wf chain_room chain_puts chain_stop c.
Proof.
  destruct c as [a b]. unfold chain_room. simpl. intros [Ha Hb] Hr. simpl in *.
  unfold chunk_law. simpl. unfold chain_chunk_mut. simpl.
  rewrite has_remaining_mut_spec by done. pose proof (room_nonneg _ Ha).
  pose proof (room_nonneg _ Hb).
  destruct (Z.ltb_spec 0 (room a)); apply wp_bind.
  - eapply wp_mono; [by apply (chunk_mut_law a)|by left|].
    intros [a' d] (Hwf' & Hr' & [Hd1 Hd2] & Hstep). simpl. unfold chain_room. simpl.
    unfold chain_remaining_mut, saturating_add. simpl. rewrite !remaining_room in * by done.
    split_and!; [done..|lia|lia|unfold usize_max in *; lia|].
    intros bs Hbs. specialize (Hstep bs Hbs).
    unfold chain_chunk_write. simpl. rewrite has_remaining_mut_spec by done.
    rewrite (proj2 (Z.ltb_lt _ _)) by lia.
    destruct (chunk_write a' (us_new bs)) as [a1|]; [|done]. simpl in *.
    destruct Hstep as [Hrem Hadv]. split; [by rewrite Hrem, !remaining_room|].
    unfold chain_advance_mut. simpl. rewrite Hrem.
    pose proof (zlen_nonneg bs). unfold usize_max in *.
    rewrite (proj2 (Z.eqb_neq _ _)) by lia. simpl.
    rewrite (proj2 (Z.leb_le _ _)) by lia.
    destruct (advance_mut a1 (zlen bs)) as [a2|]; [|done]. simpl in *.
    destruct Hadv as [? ?]. split; [done|]. exists bs, []. rewrite app_nil_r.
    split_and!; simpl; auto using puts_nil, room_nonneg. done.
  - eapply wp_mono; [apply (chunk_mut_law b); [done|lia]|by right|].
    intros [b' d] (Hwf' & Hr' & [Hd1 Hd2] & Hstep). simpl. unfold chain_room. simpl.
    unfold chain_remaining_mut, saturating_add. simpl. rewrite !remaining_room in * by done.
    split_and!; [done..|lia|lia|unfold usize_max in *; lia|].
    intros bs Hbs. specialize (Hstep bs Hbs).
    unfold chain_chunk_write. simpl. rewrite has_remaining_mut_spec by done.
    rewrite (proj2 (Z.ltb_ge _ _)) by lia.
    destruct (chunk_write b' (us_new bs)) as [b1|]; [|done]. simpl in *.
    destruct Hstep as [Hrem Hadv]. split; [by rewrite Hrem, !remaining_room|].
    unfold chain_advance_mut. simpl. rewrite remaining_room by done.
    unfold usize_max. rewrite (proj2 (Z.eqb_eq _ _)) by lia. simpl.
    destruct (advance_mut b1 (zlen bs)) as [b2|]; [|done]. simpl in *.
    destruct Hadv as [? ?]. split; [done|]. exists [], bs.
    split_and!; simpl; auto using puts_nil, room_nonneg. lia.
Qed.

#[global] Instance chain_mut_laws : BufMutLaws (Chain T U) := {|
  mut_wf := chain_mut_wf;
  room := chain_room;
  puts := chain_puts;
  mut_stop := chain_stop;
  room_nonneg := chain_room_nonneg;
  remaining_room := chain_remaining_room;
  puts_nil := chain_puts_nil;
  puts_app := chain_puts_app;
  puts_room := chain_puts_room;
  chunk_mut_law := chain_chunk_law;
  put_slice_law := default_put_slice_ok chain_mut_wf chain_room chain_puts chain_stop
    chain_remaining_room chain_puts_nil chain_puts_app chain_puts_room chain_chunk_law;
  put_slice_panics := default_put_slice_panics chain_mut_wf chain_room chain_remaining_room;
  put_bytes_law := default_put_bytes_ok chain_mut_wf chain_room chain_puts chain_stop
    chain_remaining_room chain_puts_nil chain_puts_app chain_puts_room chain_chunk_law;
  put_bytes_panics := default_put_bytes_panics chain_mut_wf chain_room chain_remaining_room;
  put_panics B _ _ := default_put_panics chain_mut_wf chain_room chain_remaining_room;
  put_law B _ _ := default_put_ok chain_mut_wf chain_room chain_puts chain_stop
    chain_remaining_room chain_puts_nil chain_puts_app chain_puts_room chain_chunk_law;
|}.
End chain_mut_laws.

(** *** References and boxes *)

Section deref_mut_laws.
Context {T : Type} `{BufMutLaws T}.
Implicit Types t : Deref T.

Definition deref_puts t (bs : list byte) t' : Prop := puts (deref t) bs (deref t').
Definition deref_wf t : Prop := mut_wf (deref t).
Definition deref_room t : Z := room (deref t).

Lemma deref_chunk_law t :
  deref_wf t → 0 < deref_room t → chunk_law deref_wf deref_room deref_puts mut_stop t.
Proof.
  intros Hwf Hr. unfold chunk_law. simpl. apply wp_bind.
  eapply wp_mono; [by apply (chunk_mut_law (deref t))|done|].
  intros [i d] (? & ? & ? & Hstep). simpl. split_and!; [done|done|lia|lia|].
  intros bs Hbs. specialize (Hstep bs Hbs).
  destruct (chunk_write i (us_new bs)) as [i1|]; [|done]. simpl in *.
  destruct Hstep as [Hrem Hadv]. split; [done|].
  by destruct (advance_mut i1 (zlen bs)) as [i2|].
Qed.

Lemma deref_remaining_room t :
  deref_wf t → remaining_mut t = Z.min (deref_room t) usize_max.
Proof. apply remaining_room. Qed.

Lemma deref_puts_nil t : deref_wf t → deref_puts t [] t.
Proof. apply puts_nil. Qed.

Lemma deref_puts_app t bs t' bs' t'' :
  deref_puts t bs t' → deref_puts t' bs' t'' → deref_puts t (bs ++ bs') t''.
Proof. apply puts_app. Qed.

Lemma deref_puts_room t bs t' : deref_puts t bs t' → deref_room t' = deref_room t - zlen bs.
Proof. apply puts_room. Qed.

#[global] Program Instance deref_mut_laws : BufMutLaws (Deref T) := {|
  mut_wf := deref_wf;
  room := deref_room;
  puts := deref_puts;
  mut_stop := mut_stop;
  room_nonneg t := room_nonneg (deref t);
  remaining_room := deref_remaining_room;
  puts_nil := deref_puts_nil;
  puts_app := deref_puts_app;
  puts_room := deref_puts_room;
  chunk_mut_law := deref_chunk_law;
  put_bytes_law := default_put_bytes_ok deref_wf deref_room deref_puts mut_stop
    deref_remaining_room deref_puts_nil deref_puts_app deref_puts_room deref_chunk_law;
  put_bytes_panics := default_put_bytes_panics deref_wf deref_room deref_remaining_room;
  put_panics B _ _ := default_put_panics deref_wf deref_room deref_remaining_room;
  put_law B _ _ := default_put_ok deref_wf deref_room deref_puts mut_stop
    deref_remaining_room deref_puts_nil deref_puts_app deref_puts_room deref_chunk_law;
|}.
Next Obligation.
  simpl. intros t src Hwf Hs Hr. apply wp_bind.
  eapply wp_mono; [by apply put_slice_law|done|]. by intros t' [? ?].
Qed.
Next Obligation.
  simpl. intros t src Hwf Hs Hr. destruct (put_slice_panics (deref t) src) as [p ->]; eauto.
Qed.
End deref_mut_laws.

(** ** Theorems *)

(** How a chain of a limited buffer and a second buffer has taken the bytes [bs]: the first
    [n] in the first buffer, the rest in the second. *)
Definition split_puts `{Build} {T U} `{BufMutLaws T} `{BufMutLaws U} (t : T) (u : U) (n : Z) (bs : list byte)
    (c : Chain (Limit T) U) : Prop :=
  puts t (ztake n bs) (lm_inner (ch_a c)) ∧ puts u (zdrop n bs) (ch_b c).

Lemma chain_puts_split `{Build} {T U} `{BufMutLaws T} `{BufMutLaws U} (t : T) (u : U) limit bs c :
  mut_wf t → is_usize limit → puts (chain_new (limit_new t limit) u) bs c →
  split_puts t u (Z.min (room t) limit) bs c.
Proof.
  intros Ht Hlim (xs & ys & E & [Hx Hlx] & Hy & Hnn & Hfull). set (n := Z.min (room t) limit).
  simpl in Hx, Hlx, Hy. pose proof (puts_room _ _ _ Hx) as Hrx. simpl in Hnn, Hfull.
  unfold limit_room in Hnn, Hfull.
  assert (zlen xs = Z.min n (zlen bs)) as Hxs.
  { rewrite E, zlen_app. pose proof (zlen_nonneg xs). destruct ys as [|y ys].
    - replace (zlen (@nil byte)) with 0 by done. lia.
    - specialize (Hfull ltac:(done)). pose proof (zlen_nonneg (y :: ys)). lia. }
  assert (0 ≤ n) by (pose proof (room_nonneg t Ht); destruct Hlim; lia).
  unfold split_puts. by destruct (split_at bs xs ys n) as [-> ->].
Qed.

(** C7: [put], [put_slice] and [put_bytes] into a [Chain] of a [Limit]ed buffer and a
    second buffer store all bytes: the first [limit], or as many as the first buffer has
    room for, in the first buffer, the rest in the second, in order and without loss.
    They terminate, and only the allocator can stop them; they panic when the bytes do not
    fit. *)
Theorem chain_limit_put `{Build} {T U B} `{BufMutLaws T} `{BufMutLaws U} `{BufLaws B}
    (t : T) (u : U) limit (src : B) (bs : list byte) val cnt :
  mut_wf t → mut_wf u → is_usize limit → buf_wf src → zlen bs ≤ isize_max → is_usize cnt →
  let n := Z.min (room t) limit in
  let c := chain_new (limit_new t limit) u in
  let stop s := mut_stop (T:=T) s ∨ mut_stop (T:=U) s in
  (if decide (zlen (content src) ≤ n + room u) then
     wp (put c src) stop (λ '(c', src'), split_puts t u n (content src) c' ∧ content src' = [])
   else ∃ p, put c src = Panic p)
  ∧ (if decide (zlen bs ≤ n + room u) then wp (put_slice c bs) stop (split_puts t u n bs)
     else ∃ p, put_slice c bs = Panic p)
  ∧ (if decide (cnt ≤ n + room u) then
       wp (put_bytes c val cnt) stop (split_puts t u n (replicate (Z.to_nat cnt) val))
     else ∃ p, put_bytes c val cnt = Panic p).
Proof.
  intros Ht Hu Hlim Hs Hbs Hcnt n c stop. assert (mut_wf c) as Hwf by done.
  assert (room c = n + room u) as Hroom by done. split_and!; case_decide as Hl.
  - eapply wp_mono; [apply (put_law c src); [done|done|lia]|done|].
    intros [c' src'] (_ & Hp & _ & ?). split; [by apply chain_puts_split|done].
  - apply (put_panics c src); [done|done|lia].
  - eapply wp_mono; [apply (put_slice_law c bs); [done|done|lia]|done|].
    intros c' [_ Hp]. by apply chain_puts_split.
  - apply (put_slice_panics c bs); [done|done|lia].
  - eapply wp_mono; [apply (put_bytes_law c val cnt); [done|done|lia]|done|].
    intros c' [_ Hp]. by apply chain_puts_split.
  - apply (put_bytes_panics c val cnt); [done|done|lia].
Qed.

(** A slice of six bytes limited to two, and a vector. *)
Definition limited_six := chain_new (limit_new (mkSliceMut [] (bstr "......")) 2) vec_new.

Lemma chain_limit_put_witness :
  put (BufMut:=@chain_mut debug_build _ _ (@limit_mut debug_build _ _) (@vec_mut debug_build (λ _, true)))
      limited_six (mkVecDeque (bstr "abc") (bstr "d"))
  = Ret (mkChain (mkLimit (mkSliceMut (bstr "ab") (bstr "....")) 0)
                 (mkVec ((Some <$> bstr "cd") ++ replicate 62 None) 2), mkVecDeque [] []).
Proof.
  destruct (@chain_limit_put debug_build _ _ _ _ slice_mut_laws _
    (@vec_laws debug_build (λ _, true)) _ vd_laws
    (mkSliceMut [] (bstr "......")) vec_new 2 (mkVecDeque (bstr "abc") (bstr "d")) (bstr "abcd") Byte.x41 4) as [_ _];
    [by vm_compute|vm_compute; split_and!; try done; eauto|by vm_compute..|].
  by vm_compute.
Defined.

(** *** Round trips of integers *)

Section roundtrips.
Context {W R : Type} `{BufMutLaws W} `{BufLaws R}.

(** What [put] writes for an integer in range, [get] reads back from any
    reader that delivers those bytes, and nothing more is consumed. *)
Definition put_get (rng : Z → Prop) (size : Z) (put : W → Z → comp W)
    (get : R → comp (R * Z)) : Prop :=
  ∀ w n, mut_wf w → rng n → size ≤ room w →
    wp (put w n) mut_stop (λ w', mut_wf w' ∧ ∃ bs, zlen bs = size ∧ puts w bs w'
      ∧ ∀ r k, buf_wf r → content r = bs ++ k →
          ∃ r', get r = Ret (r', n) ∧ buf_wf r' ∧ content r' = k).

Lemma put_get_intro rng size bytes conv (put : W → Z → comp W) get :
  size ≤ isize_max →
  (∀ w n, put w n = put_slice w (bytes n)) → reads size conv get →
  (∀ n, rng n → zlen (bytes n) = size ∧ conv (bytes n) = n) →
  put_get rng size put get.
Proof.
  intros Hsz Hput Hget Henc w n Hwf Hn Hr. destruct (Henc n Hn) as [Hl Hc].
  rewrite Hput. eapply wp_mono; [apply put_slice_law; [done|lia|lia]|done|].
  intros w' [Hwf' Hp]. split; [done|]. exists (bytes n). split_and!; [done..|].
  intros r k Hrw Hk. destruct (Hget r Hrw) as [Hok _].
  destruct Hok as (r' & -> & ? & Hc').
  { rewrite Hk, zlen_app. pose proof (zlen_nonneg k). lia. }
  exists r'. rewrite Hc', Hk, <-Hl, ztake_app_exact, zdrop_app_exact, Hc. done.
Qed.
End roundtrips.

Lemma from_to_be_u size n :
  is_unsigned (8 * Z.of_nat size) n →
  zlen (to_be_bytes size n) = Z.of_nat size ∧ from_be_bytes (to_be_bytes size n) = n.
Proof. intros [??]. rewrite length_to_be, from_to_be, Z.mod_small; done. Qed.

Lemma from_to_le_u size n :
  is_unsigned (8 * Z.of_nat size) n →
  zlen (to_le_bytes size n) = Z.of_nat size ∧ from_le_bytes (to_le_bytes size n) = n.
Proof. intros [??]. rewrite length_to_le, from_to_le, Z.mod_small; done. Qed.

Lemma signed_roundtrip size n bytes conv :
  (0 < size)%nat → is_signed (8 * Z.of_nat size) n →
  zlen bytes = Z.of_nat size → conv bytes = n mod 2 ^ (8 * Z.of_nat size) →
  zlen bytes = Z.of_nat size ∧ signed_of conv bytes = n.
Proof.
  intros Hs Hn Hl Hc. split; [done|]. unfold signed_of.
  rewrite Hl, Hc, swrap_mod, swrap_in by (done || lia). done.
Qed.

Lemma from_to_be_s size n :
  (0 < size)%nat → is_signed (8 * Z.of_nat size) n →
  zlen (to_be_bytes size n) = Z.of_nat size ∧ signed_of from_be_bytes (to_be_bytes size n) = n.
Proof. intros. apply signed_roundtrip; auto using length_to_be, from_to_be. Qed.

Lemma from_to_le_s size n :
  (0 < size)%nat → is_signed (8 * Z.of_nat size) n →
  zlen (to_le_bytes size n) = Z.of_nat size ∧ signed_of from_le_bytes (to_le_bytes size n) = n.
Proof. intros. apply signed_roundtrip; auto using length_to_le, from_to_le. Qed.

Lemma from_to_ne_u `{Target} size n :
  is_unsigned (8 * Z.of_nat size) n →
  zlen (to_ne_bytes size n) = Z.of_nat size ∧ from_ne_bytes (to_ne_bytes size n) = n.
Proof.
  unfold to_ne_bytes, from_ne_bytes. destruct big_endian; [apply from_to_be_u|apply from_to_le_u].
Qed.

Lemma from_to_ne_s `{Target} size n :
  (0 < size)%nat → is_signed (8 * Z.of_nat size) n →
  zlen (to_ne_bytes size n) = Z.of_nat size ∧ signed_of from_ne_bytes (to_ne_bytes size n) = n.
Proof.
  unfold to_ne_bytes, from_ne_bytes, signed_of.
  destruct big_endian; [apply from_to_be_s|apply from_to_le_s].
Qed.

Section roundtrip_theorems.
Context {W R : Type} `{BufMutLaws W} `{BufLaws R} `{Target}.

Tactic Notation "roundtrip" constr(size) uconstr(enc) uconstr(conv) uconstr(law) :=
  apply (put_get_intro _ _ (enc size) conv);
  [ unfold isize_max; lia | done | by apply buf_get_impl_reads
  | intros n Hn; apply (law size n); first [exact Hn|lia] ].

Ltac unsigned_roundtrip size :=
  first [ roundtrip size to_be_bytes from_be_bytes from_to_be_u
        | roundtrip size to_le_bytes from_le_bytes from_to_le_u
        | roundtrip size to_ne_bytes from_ne_bytes from_to_ne_u ].

Ltac signed_roundtrip size :=
  first [ roundtrip size to_be_bytes (signed_of from_be_bytes) from_to_be_s
        | roundtrip size to_le_bytes (signed_of from_le_bytes) from_to_le_s
        | roundtrip size to_ne_bytes (signed_of from_ne_bytes) from_to_ne_s ].

(** C18: the sized integers written by [put_*] are read back unchanged by the
    [get_*] of the same name, for every writer and reader that meet their
    contracts, signed and unsigned, in all three byte orders. *)
Theorem put_get_roundtrip :
  put_get (W:=W) (R:=R) (is_unsigned 8) 1 put_u8 get_u8
  ∧ put_get (W:=W) (R:=R) (is_signed 8) 1 put_i8 get_i8
  ∧ put_get (W:=W) (R:=R) (is_unsigned 16) 2 put_u16 get_u16
  ∧ put_get (W:=W) (R:=R) (is_unsigned 16) 2 put_u16_le get_u16_le
  ∧ put_get (W:=W) (R:=R) (is_unsigned 16) 2 put_u16_ne get_u16_ne
  ∧ put_get (W:=W) (R:=R) (is_signed 16) 2 put_i16 get_i16
  ∧ put_get (W:=W) (R:=R) (is_signed 16) 2 put_i16_le get_i16_le
  ∧ put_get (W:=W) (R:=R) (is_signed 16) 2 put_i16_ne get_i16_ne
  ∧ put_get (W:=W) (R:=R) (is_unsigned 32) 4 put_u32 get_u32
  ∧ put_get (W:=W) (R:=R) (is_unsigned 32) 4 put_u32_le get_u32_le
  ∧ put_get (W:=W) (R:=R) (is_unsigned 32) 4 put_u32_ne get_u32_ne
  ∧ put_get (W:=W) (R:=R) (is_signed 32) 4 put_i32 get_i32
  ∧ put_get (W:=W) (R:=R) (is_signed 32) 4 put_i32_le get_i32_le
  ∧ put_get (W:=W) (R:=R) (is_signed 32) 4 put_i32_ne get_i32_ne
  ∧ put_get (W:=W) (R:=R) (is_unsigned 64) 8 put_u64 get_u64
  ∧ put_get (W:=W) (R:=R) (is_unsigned 64) 8 put_u64_le get_u64_le
  ∧ put_get (W:=W) (R:=R) (is_unsigned 64) 8 put_u64_ne get_u64_ne
  ∧ put_get (W:=W) (R:=R) (is_signed 64) 8 put_i64 get_i64
  ∧ put_get (W:=W) (R:=R) (is_signed 64) 8 put_i64_le get_i64_le
  ∧ put_get (W:=W) (R:=R) (is_signed 64) 8 put_i64_ne get_i64_ne
  ∧ put_get (W:=W) (R:=R) (is_unsigned 128) 16 put_u128 get_u128
  ∧ put_get (W:=W) (R:=R) (is_unsigned 128) 16 put_u128_le get_u128_le
  ∧ put_get (W:=W) (R:=R) (is_unsigned 128) 16 put_u128_ne get_u128_ne
  ∧ put_get (W:=W) (R:=R) (is_signed 128) 16 put_i128 get_i128
  ∧ put_get (W:=W) (R:=R) (is_signed 128) 16 put_i128_le get_i128_le
  ∧ put_get (W:=W) (R:=R) (is_signed 128) 16 put_i128_ne get_i128_ne
  ∧ put_get (W:=W) (R:=R) (is_unsigned 32) 4 put_f32 get_f32
  ∧ put_get (W:=W) (R:=R) (is_unsigned 64) 8 put_f64 get_f64.
Proof.
  split; [|split; [|split_and!]].
  { apply (put_get_intro _ _ (to_le_bytes 1) from_le_bytes);
      [done|done|apply get_u8_reads|]. intros n Hn. by apply (from_to_le_u 1). }
  { apply (put_get_intro _ _ (λ n, to_le_bytes 1 (uwrap 8 n)) (signed_of from_le_bytes));
      [done|done|apply get_i8_reads|].
    intros n Hn. apply (signed_roundtrip 1); [lia|done|done|].
    rewrite from_to_le. unfold uwrap. apply Z.mod_mod. lia. }
  all: lazymatch goal with
    | |- put_get (is_unsigned _) ?s _ _ =>
        let s := eval vm_compute in (Z.to_nat s) in unsigned_roundtrip s
    | |- put_get (is_signed _) ?s _ _ =>
        let s := eval vm_compute in (Z.to_nat s) in signed_roundtrip s
    end.
Qed.

(** The [nbytes] low bytes of an integer. *)
Lemma put_uint_bytes (w : W) n nbytes :
  0 ≤ nbytes ≤ 8 →
  put_uint w n nbytes = put_slice w (to_be_bytes (Z.to_nat nbytes) n)
  ∧ put_uint_le w n nbytes = put_slice w (to_le_bytes (Z.to_nat nbytes) n).
Proof.
  intros Hn. assert (nbytes ∈ [0;1;2;3;4;5;6;7;8]) as Hin by (set_unfold; lia). clear Hn.
  set_unfold in Hin. by destruct_or! Hin; subst nbytes.
Qed.

(** [put_uint] and [put_int] write the low [nbytes] bytes, at most eight,
    in their byte order, so that [get_uint] of the same size reads them back
    as the integer modulo [2^(8 * nbytes)]; a larger [nbytes] panics before
    anything is written. *)
Theorem put_uint_spec (w : W) (r : R) n nbytes k :
  mut_wf w → buf_wf r → 0 ≤ nbytes ≤ room w →
  (nbytes ≤ 8 →
    (wp (put_uint w n nbytes) mut_stop (λ w', ∃ bs, puts w bs w'
      ∧ (content r = bs ++ k → ∃ r', content r' = k
          ∧ get_uint r nbytes = Ret (r', n mod 2 ^ (8 * nbytes)))))
    ∧ wp (put_uint_le w n nbytes) mut_stop (λ w', ∃ bs, puts w bs w'
      ∧ (content r = bs ++ k → ∃ r', content r' = k
          ∧ get_uint_le r nbytes = Ret (r', n mod 2 ^ (8 * nbytes)))))
  ∧ (8 < nbytes → put_uint w n nbytes = Panic (PDoesNotFit nbytes 8)
      ∧ put_uint_le w n nbytes = Panic (PDoesNotFit nbytes 8))
  ∧ put_int w n nbytes = put_uint w n nbytes ∧ put_int_le w n nbytes = put_uint_le w n nbytes.
Proof.
  intros Hw Hr Hn. split_and!; [|intros H8; split|done..].
  - intros H8. destruct (put_uint_bytes w n nbytes) as [-> ->]; [lia|].
    assert (∀ (enc : nat → Z → list byte) conv (get : R → comp (R * Z)),
      reads nbytes conv get →
      (∀ s z, zlen (enc s z) = Z.of_nat s ∧ conv (enc s z) = z mod 2 ^ (8 * Z.of_nat s)) →
      wp (put_slice w (enc (Z.to_nat nbytes) n)) mut_stop (λ w', ∃ bs, puts w bs w'
        ∧ (content r = bs ++ k → ∃ r', content r' = k
            ∧ get r = Ret (r', n mod 2 ^ (8 * nbytes))))) as Hgen.
    { intros enc conv get Hget Henc. destruct (Henc (Z.to_nat nbytes) n) as [Hl Hc].
      rewrite Z2Nat.id in Hl, Hc by lia. set (bs := enc _ n) in *. clearbody bs.
      eapply wp_mono; [apply put_slice_law; [done|unfold isize_max; lia|lia]|done|].
      intros w' [_ Hp]. eexists. split; [exact Hp|]. intros Hk.
      destruct (Hget r Hr) as [(r' & -> & _ & Hc') _].
      { rewrite Hk, zlen_app. pose proof (zlen_nonneg k). lia. }
      exists r'. by rewrite Hc', Hk, <-Hc, <-Hl, ztake_app_exact, zdrop_app_exact. }
    split.
    + apply (Hgen to_be_bytes from_be_bytes (λ r, get_uint r nbytes));
        [apply get_uint_reads; lia|]. auto using length_to_be, from_to_be.
    + apply (Hgen to_le_bytes from_le_bytes (λ r, get_uint_le r nbytes));
        [apply get_uint_le_reads; lia|]. auto using length_to_le, from_to_le.
  - unfold put_uint, checked_sub. by rewrite (proj2 (Z.leb_gt _ _)).
  - unfold put_uint_le. by rewrite length_to_le, (proj2 (Z.leb_gt _ _)).
Qed.
End roundtrip_theorems.

Lemma put_get_roundtrip_witness :
  (t ← put_i32_le (mkSliceMut [] (bstr "....!")) (-2); get_i32_le (sm_done t))
  = Ret ([], -2).
Proof.
  destruct (@put_get_roundtrip (SliceMut byte) (list byte) _ slice_mut_laws _ slice_laws false)
    as (_ & _ & _ & _ & _ & _ & _ & _ & _ & _ & _ & _ & Hi32 & _).
  pose proof (Hi32 (mkSliceMut [] (bstr "....!")) (-2)) as Hrt.
  reflexivity.
Defined.

Lemma put_uint_spec_witness :
  (t ← put_uint (mkSliceMut [] (bstr "...!")) 66051 3; Ret (sm_done t))
  = Ret [Byte.x01; Byte.x02; Byte.x03].
Proof.
  destruct (@put_uint_spec (SliceMut byte) (list byte) _ slice_mut_laws _ slice_laws
    (mkSliceMut [] (bstr "...!")) [] 66051 3 []) as [Hp _]; [by vm_compute..|].
  reflexivity.
Defined.

(** [io::Write::write] on a [Writer] appends as many bytes of [buf] as
    there is room for, returns their number, and never fails because of a full
    buffer. *)
Theorem writer_write_spec {B} `{BufMutLaws B} (b : B) (buf : list byte) :
  mut_wf b → zlen buf ≤ isize_max →
  let n := Z.min (room b) (zlen buf) in
  wp (writer_write (writer_new b) buf) mut_stop (λ '(w, r),
    r = Ok n ∧ mut_wf (writer_into_inner w) ∧ puts b (ztake n buf) (writer_into_inner w)).
Proof.
  intros Hwf Hl n. pose proof (zlen_nonneg buf). pose proof (room_nonneg b Hwf).
  unfold writer_write. simpl. rewrite remaining_room by done.
  replace (Z.min (Z.min (room b) usize_max) (zlen buf)) with n
    by (unfold isize_max, usize_max in *; lia).
  rewrite slice_in by lia. simpl. rewrite Z.sub_0_r, zdrop_0. apply wp_bind.
  eapply wp_mono; [apply put_slice_law; [done|rewrite zlen_ztake; lia..]|done|].
  by intros b' [? ?].
Qed.

Lemma writer_write_spec_witness :
  writer_write (writer_new (mkSliceMut [] (bstr "..."))) (bstr "hello")
  = Ret (mkWriter (mkSliceMut (bstr "hel") []), Ok 3).
Proof.
  pose proof (writer_write_spec (mkSliceMut [] (bstr "...")) (bstr "hello")) as Hw.
  destruct Hw as (_ & _ & _); [by vm_compute..|]. reflexivity.
Defined.
