(* ===== verification/Forward.v ===== *)
(** * [deref_forward_buf!] and [deref_forward_bufmut!]: readers and writers behind a pointer

    [&mut T] and [Box<T>] forward the methods of [T] one by one, also those that the
    traits provide from others.  For an [impl] that does not override these, as all of the
    sources, the forwarded method is the one the trait provides.  [Deref T] is the pointer. *)

From S2P Require Import Prelude RustVec Buf BufAdapters BufMut.

(** ** The methods the macros forward *)

(** A call on [**self], with [*self] updated. *)
Definition forward {T A} (f : T → comp (T * A)) (t : Deref T) : comp (Deref T * A) :=
  '(t', x) ← f (deref t); Ret (mkDeref t', x).

Definition forward_mut {T} (f : T → comp T) (t : Deref T) : comp (Deref T) :=
  t' ← f (deref t); Ret (mkDeref t').

Section reading.
Context {T : Type} `{Buf T}.

Definition fwd_has_remaining (t : Deref T) : bool := has_remaining (deref t).
Definition fwd_get_u8 : Deref T → comp (Deref T * Z) := forward get_u8.
Definition fwd_get_i8 : Deref T → comp (Deref T * Z) := forward get_i8.
Definition fwd_get_u16 : Deref T → comp (Deref T * Z) := forward get_u16.
Definition fwd_get_u16_le : Deref T → comp (Deref T * Z) := forward get_u16_le.
Definition fwd_get_u16_ne `{Target} : Deref T → comp (Deref T * Z) := forward get_u16_ne.
Definition fwd_get_i16 : Deref T → comp (Deref T * Z) := forward get_i16.
Definition fwd_get_i16_le : Deref T → comp (Deref T * Z) := forward get_i16_le.
Definition fwd_get_i16_ne `{Target} : Deref T → comp (Deref T * Z) := forward get_i16_ne.
Definition fwd_get_u32 : Deref T → comp (Deref T * Z) := forward get_u32.
Definition fwd_get_u32_le : Deref T → comp (Deref T * Z) := forward get_u32_le.
Definition fwd_get_u32_ne `{Target} : Deref T → comp (Deref T * Z) := forward get_u32_ne.
Definition fwd_get_i32 : Deref T → comp (Deref T * Z) := forward get_i32.
Definition fwd_get_i32_le : Deref T → comp (Deref T * Z) := forward get_i32_le.
Definition fwd_get_i32_ne `{Target} : Deref T → comp (Deref T * Z) := forward get_i32_ne.
Definition fwd_get_u64 : Deref T → comp (Deref T * Z) := forward get_u64.
Definition fwd_get_u64_le : Deref T → comp (Deref T * Z) := forward get_u64_le.
Definition fwd_get_u64_ne `{Target} : Deref T → comp (Deref T * Z) := forward get_u64_ne.
Definition fwd_get_i64 : Deref T → comp (Deref T * Z) := forward get_i64.
Definition fwd_get_i64_le : Deref T → comp (Deref T * Z) := forward get_i64_le.
Definition fwd_get_i64_ne `{Target} : Deref T → comp (Deref T * Z) := forward get_i64_ne.
Definition fwd_get_uint (t : Deref T) (nbytes : Z) : comp (Deref T * Z) :=
  forward (λ t, get_uint t nbytes) t.
Definition fwd_get_uint_le (t : Deref T) (nbytes : Z) : comp (Deref T * Z) :=
  forward (λ t, get_uint_le t nbytes) t.
Definition fwd_get_uint_ne `{Target} (t : Deref T) (nbytes : Z) : comp (Deref T * Z) :=
  forward (λ t, get_uint_ne t nbytes) t.
End reading.

Section reading_int.
Context {T : Type} `{Buf T} `{Build}.

Definition fwd_get_int (t : Deref T) (nbytes : Z) : comp (Deref T * Z) :=
  forward (λ t, get_int t nbytes) t.
Definition fwd_get_int_le (t : Deref T) (nbytes : Z) : comp (Deref T * Z) :=
  forward (λ t, get_int_le t nbytes) t.
Definition fwd_get_int_ne `{Target} (t : Deref T) (nbytes : Z) : comp (Deref T * Z) :=
  forward (λ t, get_int_ne t nbytes) t.
End reading_int.

Section writing.
Context {T : Type} `{BufMut T}.

Definition fwd_put_u8 (t : Deref T) (n : Z) : comp (Deref T) := forward_mut (λ t, put_u8 t n) t.
Definition fwd_put_i8 (t : Deref T) (n : Z) : comp (Deref T) := forward_mut (λ t, put_i8 t n) t.
Definition fwd_put_u16 (t : Deref T) (n : Z) : comp (Deref T) := forward_mut (λ t, put_u16 t n) t.
Definition fwd_put_u16_le (t : Deref T) (n : Z) : comp (Deref T) := forward_mut (λ t, put_u16_le t n) t.
Definition fwd_put_u16_ne `{Target} (t : Deref T) (n : Z) : comp (Deref T) := forward_mut (λ t, put_u16_ne t n) t.
Definition fwd_put_i16 (t : Deref T) (n : Z) : comp (Deref T) := forward_mut (λ t, put_i16 t n) t.
Definition fwd_put_i16_le (t : Deref T) (n : Z) : comp (Deref T) := forward_mut (λ t, put_i16_le t n) t.
Definition fwd_put_i16_ne `{Target} (t : Deref T) (n : Z) : comp (Deref T) := forward_mut (λ t, put_i16_ne t n) t.
Definition fwd_put_u32 (t : Deref T) (n : Z) : comp (Deref T) := forward_mut (λ t, put_u32 t n) t.
Definition fwd_put_u32_le (t : Deref T) (n : Z) : comp (Deref T) := forward_mut (λ t, put_u32_le t n) t.
Definition fwd_put_u32_ne `{Target} (t : Deref T) (n : Z) : comp (Deref T) := forward_mut (λ t, put_u32_ne t n) t.
Definition fwd_put_i32 (t : Deref T) (n : Z) : comp (Deref T) := forward_mut (λ t, put_i32 t n) t.
Definition fwd_put_i32_le (t : Deref T) (n : Z) : comp (Deref T) := forward_mut (λ t, put_i32_le t n) t.
Definition fwd_put_i32_ne `{Target} (t : Deref T) (n : Z) : comp (Deref T) := forward_mut (λ t, put_i32_ne t n) t.
Definition fwd_put_u64 (t : Deref T) (n : Z) : comp (Deref T) := forward_mut (λ t, put_u64 t n) t.
Definition fwd_put_u64_le (t : Deref T) (n : Z) : comp (Deref T) := forward_mut (λ t, put_u64_le t n) t.
Definition fwd_put_u64_ne `{Target} (t : Deref T) (n : Z) : comp (Deref T) := forward_mut (λ t, put_u64_ne t n) t.
Definition fwd_put_i64 (t : Deref T) (n : Z) : comp (Deref T) := forward_mut (λ t, put_i64 t n) t.
Definition fwd_put_i64_le (t : Deref T) (n : Z) : comp (Deref T) := forward_mut (λ t, put_i64_le t n) t.
Definition fwd_put_i64_ne `{Target} (t : Deref T) (n : Z) : comp (Deref T) := forward_mut (λ t, put_i64_ne t n) t.
End writing.

(** ** They are the provided ones *)

Section coherent.
Context {T : Type} `{Buf T} `{Target} `{Build}.

(** A method that only uses the required ones and [copy_to_slice] cannot tell a pointer
    from what it points to. *)
Definition transparent {A} (f : T → comp (T * A)) (g : Deref T → comp (Deref T * A)) : Prop :=
  ∀ t, forward f t = g t.

Lemma bind_assoc {A B C} (c : comp A) (f : A → comp B) (g : B → comp C) :
  (c ≫= f) ≫= g = c ≫= (λ a, f a ≫= g).
Proof. by destruct c. Qed.

Lemma forward_get_impl size conv :
  transparent (buf_get_impl size conv) (buf_get_impl size conv).
Proof.
  intros t. unfold forward, buf_get_impl. simpl. repeat case_match; simpl; try done.
  - by destruct (advance (deref t) size).
  - by destruct (copy_to_slice (deref t) size) as [[]|].
Qed.

Lemma forward_get_impl_le size n : transparent (buf_get_impl_le size n) (buf_get_impl_le size n).
Proof.
  intros t. unfold forward, buf_get_impl_le. simpl. case_match; [done|].
  by destruct (copy_to_slice (deref t) n) as [[]|].
Qed.

Lemma forward_get_impl_be size n : transparent (buf_get_impl_be size n) (buf_get_impl_be size n).
Proof.
  intros t. unfold forward, buf_get_impl_be. simpl. case_match; [|done].
  by destruct (copy_to_slice (deref t) _) as [[]|].
Qed.

Lemma forward_get_8 conv : transparent
  (λ t : T, if remaining t <? 1 then Panic (PAdvance 1 0) else
    b ← index (chunk t) 0; t' ← advance t 1; Ret (t', conv b))
  (λ t : Deref T, if remaining t <? 1 then Panic (PAdvance 1 0) else
    b ← index (chunk t) 0; t' ← advance t 1; Ret (t', conv b : Z)).
Proof.
  intros t. unfold forward. simpl. case_match; [done|]. destruct (index (chunk (deref t)) 0); [|done].
  simpl. by destruct (advance (deref t) 1).
Qed.

Lemma forward_sign (f : T → comp (T * Z)) (g : Deref T → comp (Deref T * Z)) n :
  transparent f g →
  transparent (λ t, '(t', val) ← f t; v ← sign_extend val n; Ret (t', v))
              (λ t, '(t', val) ← g t; v ← sign_extend val n; Ret (t', v)).
Proof.
  intros Hf t. rewrite <-(Hf t). unfold forward. destruct (f (deref t)) as [[t' x]|]; [|done].
  simpl. by destruct (sign_extend x n).
Qed.
End coherent.

(** The forwarded integer methods are those that the traits provide on the pointer.  No
    [impl] of the sources overrides a [get_*] or [put_*] method, and the classes of the model
    have no field for one. *)
Lemma forward_coherent {T} `{Buf T} `{Target} `{Build} :
  (∀ t : Deref T, fwd_has_remaining t = has_remaining t)
  ∧ Forall2 (λ f g : Deref T → comp (Deref T * Z), ∀ t, f t = g t) [
    fwd_get_u8; fwd_get_i8; fwd_get_u16; fwd_get_u16_le; fwd_get_u16_ne; fwd_get_i16;
    fwd_get_i16_le; fwd_get_i16_ne; fwd_get_u32; fwd_get_u32_le; fwd_get_u32_ne; fwd_get_i32;
    fwd_get_i32_le; fwd_get_i32_ne; fwd_get_u64; fwd_get_u64_le; fwd_get_u64_ne; fwd_get_i64;
    fwd_get_i64_le; fwd_get_i64_ne] [
    get_u8; get_i8; get_u16; get_u16_le; get_u16_ne; get_i16; get_i16_le; get_i16_ne; get_u32;
    get_u32_le; get_u32_ne; get_i32; get_i32_le; get_i32_ne; get_u64; get_u64_le; get_u64_ne;
    get_i64; get_i64_le; get_i64_ne]
  ∧ (∀ n, Forall2 (λ f g : Deref T → Z → comp (Deref T * Z), ∀ t, f t n = g t n)
      [fwd_get_uint; fwd_get_uint_le; fwd_get_uint_ne; fwd_get_int; fwd_get_int_le; fwd_get_int_ne]
      [get_uint; get_uint_le; get_uint_ne; get_int; get_int_le; get_int_ne])
  ∧ (∀ W (HW : BufMut W), Forall2 (λ f g : Deref W → Z → comp (Deref W), ∀ t n, f t n = g t n) [
    fwd_put_u8; fwd_put_i8; fwd_put_u16; fwd_put_u16_le; fwd_put_u16_ne; fwd_put_i16;
    fwd_put_i16_le; fwd_put_i16_ne; fwd_put_u32; fwd_put_u32_le; fwd_put_u32_ne; fwd_put_i32;
    fwd_put_i32_le; fwd_put_i32_ne; fwd_put_u64; fwd_put_u64_le; fwd_put_u64_ne; fwd_put_i64;
    fwd_put_i64_le; fwd_put_i64_ne] [
    put_u8; put_i8; put_u16; put_u16_le; put_u16_ne; put_i16; put_i16_le; put_i16_ne; put_u32;
    put_u32_le; put_u32_ne; put_i32; put_i32_le; put_i32_ne; put_u64; put_u64_le; put_u64_ne;
    put_i64; put_i64_le; put_i64_ne]).
Proof.
  split; [done|]. split; [|split].
  - do 2 (constructor; [apply forward_get_8|]). repeat (constructor; [apply forward_get_impl|]). constructor.
  - intros n. unfold fwd_get_uint_ne, fwd_get_int_ne, get_uint_ne, get_int_ne.
    destruct (big_endian : bool) eqn:E; repeat (constructor; [
      first [apply forward_get_impl_be|apply forward_get_impl_le
            |apply forward_sign; first [apply forward_get_impl_be|apply forward_get_impl_le]]|]); constructor.
  - intros W HW. repeat (constructor; [done|]). constructor.
Qed.
