(* ===== verification/BytesFmt.v ===== *)
(** * [bytes/src/fmt]: the textual forms of byte strings

    [hex.rs] and [debug.rs] write a byte string to a formatter byte by byte.
    The formatter is a parameter: a state and a [write_str] that may fail. *)

From S2P Require Import Prelude.

(** ** The text of one byte *)

(** The digits of [{:x}] and [{:X}]. *)
Definition hex_digit (upper : bool) (n : Z) : byte :=
  if n <? 10 then byte.of_Z (48 + n)
  else byte.of_Z ((if upper then 55 else 87) + n).

(** [{:02x}] and [{:02X}] *)
Definition hex_byte (upper : bool) (b : byte) : list byte :=
  [hex_digit upper (byte.unsigned b / 16); hex_digit upper (byte.unsigned b mod 16)].

(** The branches of the loop of [Debug for BytesRef]. *)
Definition debug_byte (b : byte) : list byte :=
  let z := byte.unsigned b in
  if z =? 10 then bstr "\n"
  else if z =? 13 then bstr "\r"
  else if z =? 9 then bstr "\t"
  else if (z =? 92) || (z =? 34) then bstr "\" ++ [b]
  else if z =? 0 then bstr "\0"
  else if (32 <=? z) && (z <? 127) then [b]
  else bstr "\x" ++ hex_byte false b.

(** ** Writing to a formatter *)

Section fmt.
Context {F : Type} (write_str : F → list byte → F * bool).

(** [for &b in self.0 { write!(f, ..., b)?; } Ok(())]: the formatter after the
    call, and whether it succeeded. *)
Fixpoint fmt_loop (text : byte → list byte) (l : list byte) (f : F) : F * bool :=
  match l with
  | [] => (f, true)
  | b :: l' =>
      let '(f', ok) := write_str f (text b) in
      if ok : bool then fmt_loop text l' f' else (f', false)
  end.

Definition lower_hex_fmt : list byte → F → F * bool := fmt_loop (hex_byte false).
Definition upper_hex_fmt : list byte → F → F * bool := fmt_loop (hex_byte true).
Definition debug_fmt : list byte → F → F * bool := fmt_loop debug_byte.
End fmt.

(** [String] as a formatter: it never fails. *)
Definition string_write (s t : list byte) : list byte * bool := (s ++ t, true).

(** ** Reading the text back *)

Definition hex_value (c : byte) : option Z :=
  let z := byte.unsigned c in
  if (48 <=? z) && (z <=? 57) then Some (z - 48)
  else if (97 <=? z) && (z <=? 102) then Some (z - 87)
  else if (65 <=? z) && (z <=? 70) then Some (z - 55)
  else None.

Definition hex_pair (h l : byte) : option byte :=
  match hex_value h, hex_value l with
  | Some h, Some l => Some (byte.of_Z (16 * h + l))
  | _, _ => None
  end.

Fixpoint hex_decode (t : list byte) : option (list byte) :=
  match t with
  | [] => Some []
  | h :: l :: t' =>
      match hex_pair h l, hex_decode t' with
      | Some b, Some bs => Some (b :: bs)
      | _, _ => None
      end
  | [_] => None
  end.

(** The character an escape sequence stands for. *)
Definition unescape_char (c : byte) : option byte :=
  let z := byte.unsigned c in
  if z =? 110 then Some Byte.x0a
  else if z =? 114 then Some Byte.x0d
  else if z =? 116 then Some Byte.x09
  else if z =? 48 then Some Byte.x00
  else if (z =? 92) || (z =? 34) then Some c
  else None.

Fixpoint unescape (t : list byte) : option (list byte) :=
  match t with
  | [] => Some []
  | b :: t' =>
      if byte.unsigned b =? 92 then
        match t' with
        | [] => None
        | c :: t'' =>
            if byte.unsigned c =? 120 then
              match t'' with
              | h :: l :: t''' =>
                  match hex_pair h l, unescape t''' with
                  | Some x, Some bs => Some (x :: bs)
                  | _, _ => None
                  end
              | _ => None
              end
            else match unescape_char c, unescape t'' with
                 | Some x, Some bs => Some (x :: bs)
                 | _, _ => None
                 end
        end
      else cons b <$> unescape t'
  end.

(** ** Lemmas *)

(** What [write_str] sees, for a formatter that does not fail. *)
Lemma fmt_loop_string text l s :
  fmt_loop string_write text l s = (s ++ mjoin (text <$> l), true).
Proof.
  revert s. induction l as [|b l IH]; intros s; csimpl; [by rewrite app_nil_r|].
  by rewrite IH, (assoc_L (++)).
Qed.

(** The text of each byte, decoded in front of any other text, gives the byte.
    There are 256 bytes to look at. *)
Lemma hex_pair_byte upper b :
  hex_pair (hex_digit upper (byte.unsigned b / 16)) (hex_digit upper (byte.unsigned b mod 16))
  = Some b.
Proof. by destruct upper, b. Qed.

Lemma unescape_debug_byte b t :
  unescape (debug_byte b ++ t) = (cons b <$> unescape t).
Proof. destruct b; cbn; by destruct (unescape t). Qed.

Lemma hex_decode_encode upper l : hex_decode (mjoin (hex_byte upper <$> l)) = Some l.
Proof.
  induction l as [|b l IH]; [done|]. csimpl. by rewrite hex_pair_byte, IH.
Qed.

Lemma unescape_debug l : unescape (mjoin (debug_byte <$> l)) = Some l.
Proof.
  induction l as [|b l IH]; [done|]. csimpl. by rewrite unescape_debug_byte, IH.
Qed.

(** ** Theorems *)

(** [{:x}], [{:X}] and [{:?}] of a byte string are lossless: decoding the
    text gives back the bytes, two characters per byte for the hexadecimal
    forms and the escapes of the debug form, so that different byte strings
    have different texts. *)
Theorem fmt_lossless (l : list byte) :
  (∃ t, lower_hex_fmt string_write l [] = (t, true) ∧ hex_decode t = Some l
     ∧ zlen t = 2 * zlen l)
  ∧ (∃ t, upper_hex_fmt string_write l [] = (t, true) ∧ hex_decode t = Some l
       ∧ zlen t = 2 * zlen l)
  ∧ (∃ t, debug_fmt string_write l [] = (t, true) ∧ unescape t = Some l
       ∧ is_ascii t = true).
Proof.
  unfold lower_hex_fmt, upper_hex_fmt, debug_fmt. rewrite !fmt_loop_string. simpl.
  assert (∀ upper, zlen (mjoin (hex_byte upper <$> l)) = 2 * zlen l) as Hlen.
  { intros upper. induction l as [|b l IH]; [done|]. csimpl. unfold zlen in *. simpl. lia. }
  split_and!; eexists; split_and!;
    [done|apply hex_decode_encode|apply Hlen|done|apply hex_decode_encode|apply Hlen|done
    |apply unescape_debug|].
  clear Hlen.
  induction l as [|b l IH]; [done|]. csimpl. unfold is_ascii in *.
  rewrite forallb_app, IH by done. by destruct b.
Qed.

(** A failing formatter stops the output: when the sink has room for [n]
    bytes only, the call reports the error, and what was written is the text of
    a prefix of the byte string. *)
Theorem fmt_error_stops (text : byte → list byte) (l : list byte) (room : Z) :
  let write '(s, n) t := if zlen t <=? n then ((s ++ t, n - zlen t), true) else ((s, n), false) in
  ∃ k s n, fmt_loop write text l ([], room)
      = ((s, n), bool_decide (k = length l))
    ∧ s = mjoin (text <$> take k l) ∧ (k ≤ length l)%nat ∧ n = room - zlen s.
Proof.
  intros write. assert (∀ l s0 r, ∃ k s n,
      fmt_loop write text l (s0, r) = ((s0 ++ s, n), bool_decide (k = length l))
      ∧ s = mjoin (text <$> take k l) ∧ (k ≤ length l)%nat ∧ n = r - zlen s) as Hgen.
  { clear l room. induction l as [|b l IH]; intros s0 r.
    - exists 0%nat, [], r. rewrite app_nil_r. split_and!; try done. unfold zlen. simpl. lia.
    - cbn [fmt_loop write]. destruct (Z.leb_spec (zlen (text b)) r).
      + destruct (IH (s0 ++ text b) (r - zlen (text b))) as (k & s & n & -> & -> & ? & ->).
        exists (S k), (text b ++ mjoin (text <$> take k l)),
          (r - zlen (text b) - zlen (mjoin (text <$> take k l))).
        split_and!; [|done|simpl; lia|rewrite zlen_app; lia]. rewrite (assoc_L (++)).
        f_equal. apply bool_decide_ext. simpl. lia.
      + exists 0%nat, [], r. rewrite app_nil_r. split_and!; try done; [lia|].
        unfold zlen. simpl. lia. }
  apply (Hgen l [] room).
Qed.
