(* ===== verification/Mem.v ===== *)
(** * Memory: allocations, pointers with provenance, raw vectors

    The part of the language that the unsafe code of [bytes_mut.rs] runs on.  A
    pointer has an address and the identity of the allocation it was derived
    from; identities are never used twice, so that a use after free is an access
    without an object.  What the language leaves undefined stops with [SUndef].
    The allocator is a parameter, with the contract of [GlobalAlloc]. *)

From S2P Require Import Prelude RustVec.

(** ** Objects *)

Record Ptr := mkPtr { prov : option positive; addr : Z }.

(** The parts of a [Vec<u8>]. *)
Record RVec := mkRVec { rv_ptr : Ptr; rv_cap : Z; rv_len : Z }.

(** [bytes_mut.rs]: [struct Shared] *)
Record Shared := mkShared { sh_vec : RVec; sh_repr : Z; sh_ref : Z }.

(** [bytes.rs]: [struct Shared] *)
Record BShared := mkBShared { bs_buf : Ptr; bs_cap : Z; bs_ref : Z }.

(** [bytes.rs]: [struct Owned<T>], for an owner that is a [Vec<u8>]; its function
    [drop] is [owned_box_and_drop]. *)
Record Owned := mkOwned { ow_ref : Z; ow_owner : RVec }.

Inductive obj :=
| OBytes (cells : list cell)
| OShared (s : Shared)
| OBShared (s : BShared)
| OOwned (o : Owned).

Definition obj_size (o : obj) : Z :=
  match o with
  | OBytes cells => zlen cells
  | OShared _ | OOwned _ => 40
  | OBShared _ => 24
  end.
Definition obj_align (o : obj) : Z :=
  match o with OBytes _ => 1 | _ => 8 end.

(** The cells of a range, and a range overwritten. *)
Definition cells_load (cells : list cell) (i n : Z) : list cell := ztake n (zdrop i cells).
Definition cells_store (cells : list cell) (i : Z) (new : list cell) : list cell :=
  ztake i cells ++ new ++ zdrop (i + zlen new) cells.

(** The live allocations, with their address. *)
Abbreviation objects := (gmap positive (Z * obj)).

Record heap := mkHeap { objs : objects; next : positive }.

Definition empty_heap : heap := mkHeap ∅ 1%positive.

(** ** The monad *)

Definition M (A : Type) : Type := heap → comp (A * heap).

#[global] Instance M_ret : MRet M := λ A a h, Ret (a, h).
#[global] Instance M_bind : MBind M := λ A B f m h, '(a, h') ← m h; f a h'.

Definition lift {A} (c : comp A) : M A := λ h, a ← c; Ret (a, h).
Definition stopM {A} (s : stop) : M A := λ _, Stop s.
Abbreviation panicM p := (stopM (SPanic p)).

(** ** The allocator *)

(** The address of a new allocation, or [None] when memory is exhausted.  Its end is
    an address too. *)
Class Allocator := allocate : objects → Z → Z → option Z.

Definition disjoint_ranges (a n b m : Z) : Prop := a + n ≤ b ∨ b + m ≤ a.

Class AllocatorLaws `{Allocator} :=
  allocate_ok hs size align a :
    0 < size → (align = 1 ∨ align = 8) → allocate hs size align = Some a →
    0 < a ∧ a mod align = 0 ∧ a + size < 2 ^ 64
    ∧ ∀ k b o, hs !! k = Some (b, o) → 0 < obj_size o → disjoint_ranges a size b (obj_size o).

Section ops.
Context `{Build} `{Allocator}.

(** A new object.  Nothing is allocated for one of size 0, whose address is
    the dangling one. *)
Definition alloc_obj (o : obj) : M Ptr := λ h,
  match (if obj_size o =? 0 then Some (obj_align o)
         else allocate (objs h) (obj_size o) (obj_align o)) with
  | None => Stop SAbort
  | Some a => Ret (mkPtr (Some (next h)) a,
                   mkHeap (<[next h := (a, o)]> (objs h)) (Pos.succ (next h)))
  end.

Definition lookup_obj (p : Ptr) : M (positive * Z * obj) := λ h,
  match prov p with
  | None => Stop SUndef
  | Some k =>
      match objs h !! k with
      | Some (a, o) => Ret ((k, a, o), h)
      | None => Stop SUndef
      end
  end.

Definition set_obj (k : positive) (a : Z) (o : obj) : M () := λ h,
  Ret ((), mkHeap (<[k := (a, o)]> (objs h)) (next h)).

Definition free_obj (k : positive) : M () := λ h,
  Ret ((), mkHeap (delete k (objs h)) (next h)).

(** [debug_assert!(e)]: the expression is evaluated in a debug build only. *)
Definition debug_assertM (e : comp bool) : M () :=
  if debug_assertions then b ← lift e; lift (debug_assert b) else mret ().

(** *** Byte pointers *)

(** [p.add(n)]: the result stays inside the allocation. *)
Definition ptr_offset (p : Ptr) (n : Z) : M Ptr :=
  if n =? 0 then mret p else
  '(k, a, o) ← lookup_obj p;
  match o with
  | OBytes cells =>
      let i := addr p + n - a in
      if (a <=? addr p) && (addr p <=? a + zlen cells) && (0 <=? i) && (i <=? zlen cells)
      then mret (mkPtr (prov p) (addr p + n)) else stopM SUndef
  | _ => stopM SUndef
  end.
Definition ptr_add (p : Ptr) (n : Z) : M Ptr := ptr_offset p n.
Definition ptr_sub (p : Ptr) (n : Z) : M Ptr := ptr_offset p (- n).

(** The cells at [p .. p + n]. *)
Definition load (p : Ptr) (n : Z) : M (list cell) :=
  if n =? 0 then mret [] else
  '(k, a, o) ← lookup_obj p;
  match o with
  | OBytes cells =>
      let i := addr p - a in
      if (0 <=? i) && (0 <=? n) && (i + n <=? zlen cells)
      then mret (cells_load cells i n) else stopM SUndef
  | _ => stopM SUndef
  end.

Definition store (p : Ptr) (new : list cell) : M () :=
  if zlen new =? 0 then mret () else
  '(k, a, o) ← lookup_obj p;
  match o with
  | OBytes cells =>
      let i := addr p - a in
      if (0 <=? i) && (i + zlen new <=? zlen cells)
      then set_obj k a (OBytes (cells_store cells i new))
      else stopM SUndef
  | _ => stopM SUndef
  end.

(** The requirement of [slice::from_raw_parts_mut(p, n)]. *)
Definition valid_range (p : Ptr) (n : Z) : M () := load p n;; mret ().

(** [slice::from_raw_parts(p, n)], read as bytes. *)
Definition load_bytes (p : Ptr) (n : Z) : M (list byte) :=
  cells ← load p n;
  match init_bytes cells with Some bs => mret bs | None => stopM SUndef end.

(** [ptr::copy(src, dst, n)]; the ranges may overlap. *)
Definition ptr_copy (src dst : Ptr) (n : Z) : M () :=
  cells ← load src n; store dst cells.

(** [ptr::copy_nonoverlapping(src, dst, n)] *)
Definition ptr_copy_nonoverlapping (src dst : Ptr) (n : Z) : M () :=
  if bool_decide (addr src + n ≤ addr dst ∨ addr dst + n ≤ addr src)
  then ptr_copy src dst n else stopM SUndef.

(** [offset_from] of [lib.rs]: a difference of addresses. *)
Definition offset_from (dst original : Ptr) : comp Z := usize_sub (addr dst) (addr original).

(** *** Vectors *)

Definition rv_with_capacity (n : Z) : M RVec :=
  if isize_max <? n then panicM PCapacity else
  p ← alloc_obj (OBytes (replicate (Z.to_nat n) None));
  mret (mkRVec p n 0).

Definition rv_new : M RVec := rv_with_capacity 0.

(** [slice.to_vec()], [vec![b; n]]: a vector of exactly these bytes. *)
Definition rv_of_bytes (bs : list byte) : M RVec :=
  if isize_max <? zlen bs then panicM PCapacity else
  p ← alloc_obj (OBytes (Some <$> bs));
  mret (mkRVec p (zlen bs) (zlen bs)).

(** The allocation of a vector, whose pointer is to its start and whose
    capacity is its size. *)
Definition rv_cells (v : RVec) : M (positive * list cell) :=
  '(k, a, o) ← lookup_obj (rv_ptr v);
  match o with
  | OBytes cells =>
      if (addr (rv_ptr v) =? a) && (zlen cells =? rv_cap v) then mret (k, cells)
      else stopM SUndef
  | _ => stopM SUndef
  end.

(** Moves the vector to a new allocation of [cap] bytes; [realloc] may also
    grow it in place, that is at the same address. *)
Definition rv_realloc (v : RVec) (cap : Z) : M RVec :=
  '(k, cells) ← rv_cells v;
  free_obj k;;
  p ← alloc_obj (OBytes (cells ++ replicate (Z.to_nat (cap - rv_cap v)) None));
  mret (mkRVec p cap (rv_len v)).

Definition rv_reserve (v : RVec) (additional : Z) : M RVec :=
  if rv_cap v - rv_len v <? additional then
    match grow_amortized (rv_cap v) (rv_len v) additional with
    | None => panicM PCapacity
    | Some cap => rv_realloc v cap
    end
  else mret v.

Definition rv_set_len (v : RVec) (n : Z) : RVec := mkRVec (rv_ptr v) (rv_cap v) n.

Definition rv_extend_from_slice (v : RVec) (bs : list byte) : M RVec :=
  v ← rv_reserve v (zlen bs);
  p ← ptr_add (rv_ptr v) (rv_len v);
  store p (Some <$> bs);;
  mret (rv_set_len v (rv_len v + zlen bs)).

Definition rv_drop (v : RVec) : M () :=
  '(k, _) ← rv_cells v; free_obj k.

(** *** [Box<Shared>] *)

Definition box_shared (s : Shared) : M Ptr := alloc_obj (OShared s).

Definition get_shared (p : Ptr) : M Shared :=
  '(k, a, o) ← lookup_obj p;
  match o with
  | OShared s => if addr p =? a then mret s else stopM SUndef
  | _ => stopM SUndef
  end.

Definition set_shared (p : Ptr) (s : Shared) : M () :=
  '(k, a, o) ← lookup_obj p;
  match o with
  | OShared _ => if addr p =? a then set_obj k a (OShared s) else stopM SUndef
  | _ => stopM SUndef
  end.

(** [drop(Box::from_raw(p))]: the vector inside, then the box. *)
Definition drop_box_shared (p : Ptr) : M () :=
  '(k, a, o) ← lookup_obj p;
  match o with
  | OShared s =>
      if addr p =? a then rv_drop (sh_vec s);; free_obj k else stopM SUndef
  | _ => stopM SUndef
  end.
End ops.

(** ** Ranges of cells *)

(** No cell belongs to both ranges. *)
Definition separate (a n b m : Z) : Prop := n = 0 ∨ m = 0 ∨ a + n ≤ b ∨ b + m ≤ a.

Section cells.
Implicit Types cells new : list cell.

Lemma zlen_load cells i n :
  0 ≤ i → 0 ≤ n → i + n ≤ zlen cells → zlen (cells_load cells i n) = n.
Proof. intros. unfold cells_load. rewrite zlen_ztake, zlen_zdrop; lia. Qed.

Lemma zlen_store cells i new :
  0 ≤ i → i + zlen new ≤ zlen cells → zlen (cells_store cells i new) = zlen cells.
Proof.
  intros. unfold cells_store. pose proof (zlen_nonneg new).
  rewrite !zlen_app, zlen_ztake, zlen_zdrop; lia.
Qed.

Lemma load_lookup cells i n j :
  0 ≤ i → 0 ≤ n →
  cells_load cells i n !! j = if bool_decide (Z.of_nat j < n) then cells !! (Z.to_nat i + j)%nat else None.
Proof.
  intros. unfold cells_load, ztake, zdrop. case_bool_decide.
  - rewrite lookup_take_lt by lia. by rewrite lookup_drop.
  - by rewrite lookup_take_ge by lia.
Qed.

Lemma store_lookup cells i new j :
  0 ≤ i → i + zlen new ≤ zlen cells →
  cells_store cells i new !! j =
    if bool_decide (i ≤ Z.of_nat j < i + zlen new) then new !! (j - Z.to_nat i)%nat
    else cells !! j.
Proof.
  unfold cells_store, ztake, zdrop, zlen. intros Hi Hl.
  assert (length (take (Z.to_nat i) cells) = Z.to_nat i) as Ht by (rewrite length_take; lia).
  case_bool_decide as Hj.
  - rewrite lookup_app_r, Ht by lia. by rewrite lookup_app_l by lia.
  - destruct (decide (Z.of_nat j < i)).
    + rewrite lookup_app_l by lia. by rewrite lookup_take_lt by lia.
    + rewrite lookup_app_r, Ht by lia. rewrite lookup_app_r, lookup_drop by lia.
      f_equal. lia.
Qed.

(** A store does not change a range it is separate from. *)
Lemma load_store_separate cells i new j n :
  0 ≤ i → i + zlen new ≤ zlen cells → 0 ≤ j → 0 ≤ n → separate i (zlen new) j n →
  cells_load (cells_store cells i new) j n = cells_load cells j n.
Proof.
  intros Hi Hl Hj Hn Hs. apply list_eq. intros x. rewrite !load_lookup by done.
  case_bool_decide; [|done]. rewrite store_lookup by done.
  rewrite bool_decide_false; [done|]. unfold separate in Hs. lia.
Qed.

Lemma load_store cells i new :
  0 ≤ i → i + zlen new ≤ zlen cells →
  cells_load (cells_store cells i new) i (zlen new) = new.
Proof.
  intros Hi Hl. apply list_eq. intros x. rewrite load_lookup by (done || apply zlen_nonneg).
  case_bool_decide.
  - rewrite store_lookup, bool_decide_true by lia. f_equal. lia.
  - symmetry. apply lookup_ge_None_2. unfold zlen in *. lia.
Qed.

Lemma load_add cells i n m :
  0 ≤ i → 0 ≤ n → 0 ≤ m →
  cells_load cells i (n + m) = cells_load cells i n ++ cells_load cells (i + n) m.
Proof. intros. unfold cells_load. by rewrite ztake_add, zdrop_zdrop by lia. Qed.

(** The cells of a range of a range. *)
Lemma load_zdrop cells i n m :
  0 ≤ i → 0 ≤ m ≤ n → cells_load cells (i + m) (n - m) = zdrop m (cells_load cells i n).
Proof.
  intros. unfold cells_load, ztake, zdrop. rewrite skipn_firstn_comm, drop_drop. do 2 f_equal; lia.
Qed.

Lemma load_ztake cells i n m :
  0 ≤ m ≤ n → cells_load cells i m = ztake m (cells_load cells i n).
Proof. intros. unfold cells_load. by rewrite ztake_ztake. Qed.

Lemma load_app_l cells k i n :
  0 ≤ i → 0 ≤ n → i + n ≤ zlen cells → cells_load (cells ++ k) i n = cells_load cells i n.
Proof.
  intros. unfold cells_load. rewrite zdrop_app_le, ztake_app_le; [done|rewrite zlen_zdrop; lia|lia].
Qed.

Lemma store_nil cells i : cells_store cells i [] = cells.
Proof.
  unfold cells_store. replace (i + zlen (@nil cell)) with i by (unfold zlen; simpl; lia).
  simpl. apply ztake_zdrop.
Qed.

Lemma load_0 cells i : cells_load cells i 0 = [].
Proof. done. Qed.

Lemma load_all cells : cells_load cells 0 (zlen cells) = cells.
Proof. unfold cells_load. by rewrite zdrop_0, ztake_all. Qed.
End cells.

(** ** Rules *)

Definition wpm {A} (m : M A) (h : heap) (E : stop → Prop) (Q : A → heap → Prop) : Prop :=
  wp (m h) E (λ '(a, h'), Q a h').

Section wpm.
Context (E : stop → Prop).

Lemma wpm_bind {A B} (m : M A) (f : A → M B) h Q :
  wpm m h E (λ a h', wpm (f a) h' E Q) → wpm (m ≫= f) h E Q.
Proof using Type. unfold wpm. intros Hm. apply wp_bind. by destruct (m h) as [[a h']|]. Qed.

Lemma wpm_ret {A} (a : A) h (Q : A → heap → Prop) : Q a h → wpm (mret a) h E Q.
Proof using Type. done. Qed.

Lemma wpm_mono {A} (m : M A) h (Q Q' : A → heap → Prop) :
  wpm m h E Q → (∀ a h', Q a h' → Q' a h') → wpm m h E Q'.
Proof using Type. unfold wpm. intros Hm HQ. eapply wp_mono; [exact Hm|done|]. intros []; auto. Qed.

Lemma wpm_stop {A} s h (Q : A → heap → Prop) : E s → wpm (stopM s) h E Q.
Proof using Type. done. Qed.

Lemma wpm_lift {A} (c : comp A) h (Q : A → heap → Prop) :
  wp c E (λ a, Q a h) → wpm (lift c) h E Q.
Proof using Type. by destruct c. Qed.

Section arith.
Context `{Build}.

Lemma wpm_usize_add a b h (Q : Z → heap → Prop) :
  0 ≤ a + b < 2 ^ 64 → Q (a + b) h → wpm (lift (usize_add a b)) h E Q.
Proof using Type. intros ? ?. apply wpm_lift. by rewrite usize_add_in. Qed.

Lemma wpm_usize_sub a b h (Q : Z → heap → Prop) :
  0 ≤ a - b < 2 ^ 64 → Q (a - b) h → wpm (lift (usize_sub a b)) h E Q.
Proof using Type. intros ? ?. apply wpm_lift. by rewrite usize_sub_in. Qed.

Lemma wpm_debug_assert e h (Q : () → heap → Prop) :
  e = Ret true → Q () h → wpm (debug_assertM e) h E Q.
Proof using Type.
  intros -> HQ. unfold debug_assertM. destruct debug_assertions eqn:Hd; [|done].
  apply wpm_bind, wpm_lift. simpl. apply wpm_lift. unfold debug_assert. by rewrite Hd.
Qed.
End arith.

Lemma wpm_lookup_obj p k a o h Q :
  prov p = Some k → objs h !! k = Some (a, o) → Q (k, a, o) h → wpm (lookup_obj p) h E Q.
Proof using Type. unfold wpm, lookup_obj. by intros -> ->. Qed.

Lemma wpm_ptr_offset k a cells i n h (Q : Ptr → heap → Prop) :
  objs h !! k = Some (a, OBytes cells) → 0 ≤ i ≤ zlen cells → 0 ≤ i + n ≤ zlen cells →
  Q (mkPtr (Some k) (a + (i + n))) h →
  wpm (ptr_offset (mkPtr (Some k) (a + i)) n) h E Q.
Proof using Type.
  intros Hk Hi Hn HQ. unfold ptr_offset. destruct (Z.eqb_spec n 0) as [->|].
  - apply wpm_ret. by rewrite Z.add_0_r in HQ.
  - apply wpm_bind, (wpm_lookup_obj _ k a (OBytes cells)); [done..|]. simpl.
    rewrite !(proj2 (Z.leb_le _ _)) by lia. apply wpm_ret. simpl. by rewrite <-Z.add_assoc.
Qed.

Lemma wpm_load k a cells i n h (Q : list cell → heap → Prop) :
  objs h !! k = Some (a, OBytes cells) → 0 ≤ i → 0 ≤ n → i + n ≤ zlen cells →
  Q (cells_load cells i n) h →
  wpm (load (mkPtr (Some k) (a + i)) n) h E Q.
Proof using Type.
  intros Hk Hi Hn Hl HQ. unfold load. destruct (Z.eqb_spec n 0) as [->|].
  - by apply wpm_ret.
  - apply wpm_bind, (wpm_lookup_obj _ k a (OBytes cells)); [done..|]. simpl.
    replace (a + i - a) with i by lia.
    rewrite !(proj2 (Z.leb_le _ _)) by lia. by apply wpm_ret.
Qed.

Lemma wpm_load_bytes k a cells i n bs h (Q : list byte → heap → Prop) :
  objs h !! k = Some (a, OBytes cells) → 0 ≤ i → 0 ≤ n → i + n ≤ zlen cells →
  cells_load cells i n = Some <$> bs → Q bs h →
  wpm (load_bytes (mkPtr (Some k) (a + i)) n) h E Q.
Proof using Type.
  intros Hk Hi Hn Hl Hc HQ. unfold load_bytes. apply wpm_bind.
  eapply wpm_load; [done..|]. rewrite Hc, init_bytes_Some. by apply wpm_ret.
Qed.

Lemma wpm_valid_range k a cells i n h (Q : () → heap → Prop) :
  objs h !! k = Some (a, OBytes cells) → 0 ≤ i → 0 ≤ n → i + n ≤ zlen cells →
  Q () h → wpm (valid_range (mkPtr (Some k) (a + i)) n) h E Q.
Proof using Type. intros. unfold valid_range. apply wpm_bind. by eapply wpm_load. Qed.

Lemma wpm_store k a cells i new h (Q : () → heap → Prop) :
  objs h !! k = Some (a, OBytes cells) → 0 ≤ i → i + zlen new ≤ zlen cells →
  Q () (mkHeap (<[k := (a, OBytes (cells_store cells i new))]> (objs h)) (next h)) →
  wpm (store (mkPtr (Some k) (a + i)) new) h E Q.
Proof using Type.
  intros Hk Hi Hl HQ. unfold store. destruct (Z.eqb_spec (zlen new) 0) as [E0%zlen_nil_inv|].
  - apply wpm_ret. rewrite E0, store_nil, insert_id in HQ by done. by destruct h.
  - apply wpm_bind, (wpm_lookup_obj _ k a (OBytes cells)); [done..|]. simpl.
    replace (a + i - a) with i by lia.
    rewrite !(proj2 (Z.leb_le _ _)) by lia. exact HQ.
Qed.

Lemma wpm_get_shared k a s h (Q : Shared → heap → Prop) :
  objs h !! k = Some (a, OShared s) → Q s h → wpm (get_shared (mkPtr (Some k) a)) h E Q.
Proof using Type.
  intros Hk HQ. unfold get_shared. apply wpm_bind, (wpm_lookup_obj _ k a (OShared s)); [done..|].
  simpl. rewrite Z.eqb_refl. by apply wpm_ret.
Qed.

Lemma wpm_set_shared k a s s' h (Q : () → heap → Prop) :
  objs h !! k = Some (a, OShared s) →
  Q () (mkHeap (<[k := (a, OShared s')]> (objs h)) (next h)) →
  wpm (set_shared (mkPtr (Some k) a) s') h E Q.
Proof using Type.
  intros Hk HQ. unfold set_shared. apply wpm_bind, (wpm_lookup_obj _ k a (OShared s)); [done..|].
  simpl. by rewrite Z.eqb_refl.
Qed.
End wpm.

(** ** Well-formed heaps *)

Definition obj_ok (a : Z) (o : obj) : Prop :=
  0 < a ∧ a mod obj_align o = 0 ∧ a + obj_size o < 2 ^ 64.

Record heap_ok (h : heap) : Prop := {
  ok_next k : is_Some (objs h !! k) → (k < next h)%positive;
  ok_obj k a o : objs h !! k = Some (a, o) → obj_ok a o;
  ok_disjoint k k' a o a' o' :
    k ≠ k' → objs h !! k = Some (a, o) → objs h !! k' = Some (a', o') →
    0 < obj_size o → 0 < obj_size o' → disjoint_ranges a (obj_size o) a' (obj_size o');
}.

Lemma empty_heap_ok : heap_ok empty_heap.
Proof. split; simpl; intros *; rewrite ?lookup_empty; by intros; destruct_and?; try done; destruct H. Qed.

Section heap_ok.
Implicit Types h : heap.

Lemma heap_ok_fresh h : heap_ok h → objs h !! next h = None.
Proof.
  intros Hok. destruct (objs h !! next h) eqn:Hn; [|done].
  destruct (Pos.lt_irrefl (next h)). apply (ok_next h Hok). by rewrite Hn.
Qed.

(** An object may change, but not its place. *)
Lemma heap_ok_update h k a o o' :
  heap_ok h → objs h !! k = Some (a, o) → obj_size o' = obj_size o → obj_align o' = obj_align o →
  heap_ok (mkHeap (<[k := (a, o')]> (objs h)) (next h)).
Proof.
  intros Hok Hk Hs Ha. destruct Hok as [Hnext Hobj Hdis].
  assert (∀ k1 a1 o1, <[k := (a, o')]> (objs h) !! k1 = Some (a1, o1) →
    ∃ o2, objs h !! k1 = Some (a1, o2) ∧ obj_size o1 = obj_size o2
      ∧ obj_align o1 = obj_align o2) as Hold.
  { intros k1 a1 o1. destruct (decide (k = k1)) as [<-|].
    - rewrite lookup_insert_eq. intros [= <- <-]. eauto.
    - rewrite lookup_insert_ne by done. eauto. }
  split; simpl.
  - intros k1 [[a1 o1] (o2 & ? & _)%Hold]. eauto.
  - intros k1 a1 o1 (o2 & Hk1 & Hs1 & Ha1)%Hold. destruct (Hobj _ _ _ Hk1) as (?&?&?).
    unfold obj_ok. by rewrite Hs1, Ha1.
  - intros k1 k2 a1 o1 a2 o2 ? (o1' & ? & -> & _)%Hold (o2' & ? & -> & _)%Hold. by eapply Hdis.
Qed.

Lemma heap_ok_free h k : heap_ok h → heap_ok (mkHeap (delete k (objs h)) (next h)).
Proof.
  intros [Hnext Hobj Hdis].
  assert (∀ k1 x, delete k (objs h) !! k1 = Some x → objs h !! k1 = Some x) as Hold.
  { intros k1 x. rewrite lookup_delete_Some. by intros []. }
  split; simpl.
  - intros k1 [x ?%Hold]. eauto.
  - eauto.
  - intros *. intros ? ?%Hold ?%Hold. eauto.
Qed.
End heap_ok.

Definition alloc_heap (h : heap) (a : Z) (o : obj) : heap :=
  mkHeap (<[next h := (a, o)]> (objs h)) (Pos.succ (next h)).

Section alloc_rules.
Context `{Build} `{AllocatorLaws} (E : stop → Prop).
Context (Eabort : E SAbort).

Lemma alloc_heap_ok h a o :
  heap_ok h → obj_ok a o →
  (∀ k b o', objs h !! k = Some (b, o') → 0 < obj_size o → 0 < obj_size o' →
    disjoint_ranges a (obj_size o) b (obj_size o')) →
  heap_ok (alloc_heap h a o).
Proof using Type.
  intros [Hnext Hobj Hdis] Ho Hnew. split; simpl.
  - intros k [x Hx]. destruct (decide (k = next h)) as [->|]; [lia|].
    rewrite lookup_insert_ne in Hx by done. pose proof (Hnext k (mk_is_Some _ _ Hx)). lia.
  - intros k a1 o1. destruct (decide (next h = k)) as [<-|].
    + rewrite lookup_insert_eq. by intros [= <- <-].
    + rewrite lookup_insert_ne by done. apply Hobj.
  - intros k k' a1 o1 a2 o2 Hne. destruct (decide (next h = k)) as [<-|].
    + rewrite lookup_insert_eq, lookup_insert_ne by done. intros [= <- <-] ???. eauto.
    + rewrite lookup_insert_ne by done. destruct (decide (next h = k')) as [<-|].
      * rewrite lookup_insert_eq. intros ? [= <- <-] ??.
        destruct (Hnew k a1 o1) as [|]; [done..|by right|by left].
      * rewrite lookup_insert_ne by done. by apply Hdis.
Qed.

Lemma wpm_alloc_obj o h (Q : Ptr → heap → Prop) :
  heap_ok h →
  (∀ a, obj_ok a o → heap_ok (alloc_heap h a o) →
    Q (mkPtr (Some (next h)) a) (alloc_heap h a o)) →
  wpm (alloc_obj o) h E Q.
Proof using Eabort H1.
  intros Hok HQ. unfold wpm, alloc_obj.
  assert (0 ≤ obj_size o) by (destruct o; simpl; first [apply zlen_nonneg|lia]).
  destruct (Z.eqb_spec (obj_size o) 0) as [Hz|Hz].
  - assert (obj_ok (obj_align o) o) as Ho.
    { unfold obj_ok. rewrite Hz. destruct o; simpl; by split_and!. }
    apply HQ; [done|]. apply alloc_heap_ok; [done|done|lia].
  - destruct (allocate _ _ _) as [a|] eqn:Ha; [|done].
    apply allocate_ok in Ha as (? & ? & ? & Hd); [|lia|destruct o; simpl; by auto].
    assert (obj_ok a o) as Ho by by split_and!.
    apply HQ; [done|]. apply alloc_heap_ok; [done..|]. intros. by eapply Hd.
Qed.

Context (Ecap : E (SPanic PCapacity)).

Lemma wpm_rv_with_capacity n h (Q : RVec → heap → Prop) :
  heap_ok h → 0 ≤ n →
  (∀ a, let o := OBytes (replicate (Z.to_nat n) None) in
    n ≤ isize_max → obj_ok a o → heap_ok (alloc_heap h a o) →
    Q (mkRVec (mkPtr (Some (next h)) a) n 0) (alloc_heap h a o)) →
  wpm (rv_with_capacity n) h E Q.
Proof using Eabort Ecap H1.
  intros Hok Hn HQ. unfold rv_with_capacity. destruct (Z.ltb_spec isize_max n); [done|].
  apply wpm_bind, wpm_alloc_obj; [done|]. intros a Ho Hh. apply wpm_ret. by apply HQ.
Qed.

Lemma wpm_rv_of_bytes bs h (Q : RVec → heap → Prop) :
  heap_ok h →
  (∀ a, let o := OBytes (Some <$> bs) in
    zlen bs ≤ isize_max → obj_ok a o → heap_ok (alloc_heap h a o) →
    Q (mkRVec (mkPtr (Some (next h)) a) (zlen bs) (zlen bs)) (alloc_heap h a o)) →
  wpm (rv_of_bytes bs) h E Q.
Proof using Eabort Ecap H1.
  intros Hok HQ. unfold rv_of_bytes. destruct (Z.ltb_spec isize_max (zlen bs)); [done|].
  apply wpm_bind, wpm_alloc_obj; [done|]. intros a Ho Hh. apply wpm_ret. by apply HQ.
Qed.

Lemma wpm_rv_cells k a cells len h (Q : positive * list cell → heap → Prop) :
  objs h !! k = Some (a, OBytes cells) → Q (k, cells) h →
  wpm (rv_cells (mkRVec (mkPtr (Some k) a) (zlen cells) len)) h E Q.
Proof using Type.
  intros Hk HQ. unfold rv_cells. simpl.
  apply wpm_bind, (wpm_lookup_obj _ _ k a (OBytes cells)); [done..|]. simpl.
  rewrite !Z.eqb_refl. by apply wpm_ret.
Qed.

Lemma wpm_rv_drop k a cells len h (Q : () → heap → Prop) :
  objs h !! k = Some (a, OBytes cells) →
  Q () (mkHeap (delete k (objs h)) (next h)) →
  wpm (rv_drop (mkRVec (mkPtr (Some k) a) (zlen cells) len)) h E Q.
Proof using Type.
  intros Hk HQ. unfold rv_drop. apply wpm_bind. eapply wpm_rv_cells; [done|]. exact HQ.
Qed.

(** A vector with room stays where it is; otherwise it moves to a larger
    allocation with the same cells at the start. *)
Lemma wpm_rv_reserve k a cells len n h (Q : RVec → heap → Prop) :
  heap_ok h → objs h !! k = Some (a, OBytes cells) → 0 ≤ len ≤ zlen cells → 0 ≤ n →
  (n ≤ zlen cells - len → Q (mkRVec (mkPtr (Some k) a) (zlen cells) len) h) →
  (∀ a' new, let cells' := cells ++ replicate (Z.to_nat new) None in
    let h' := mkHeap (delete k (objs h)) (next h) in
    0 ≤ new → zlen cells - len < n → len + n ≤ zlen cells + new → zlen cells + new ≤ isize_max →
    obj_ok a' (OBytes cells') → heap_ok (alloc_heap h' a' (OBytes cells')) →
    Q (mkRVec (mkPtr (Some (next h)) a') (zlen cells + new) len)
      (alloc_heap h' a' (OBytes cells'))) →
  wpm (rv_reserve (mkRVec (mkPtr (Some k) a) (zlen cells) len) n) h E Q.
Proof using Eabort Ecap H1.
  intros Hok Hk Hlen Hn Hstay Hmove. unfold rv_reserve. simpl.
  destruct (Z.ltb_spec (zlen cells - len) n); [|by apply wpm_ret, Hstay].
  destruct (grow_amortized _ _ _) as [cap|] eqn:Hg; [|done].
  apply grow_amortized_spec in Hg as (? & ? & ?); [|done..].
  unfold rv_realloc. apply wpm_bind. eapply wpm_rv_cells; [done|].
  apply wpm_bind. unfold free_obj, wpm at 1. simpl.
  apply wpm_bind, wpm_alloc_obj; [by apply heap_ok_free|]. intros a' Ho Hh. apply wpm_ret. simpl.
  replace cap with (zlen cells + (cap - zlen cells)) at 1 by lia.
  apply (Hmove a' (cap - zlen cells)); [lia..|done|done].
Qed.

Lemma wpm_drop_box_shared sid sa k a cells len repr rc h (Q : () → heap → Prop) :
  sid ≠ k → objs h !! k = Some (a, OBytes cells) →
  objs h !! sid
    = Some (sa, OShared (mkShared (mkRVec (mkPtr (Some k) a) (zlen cells) len) repr rc)) →
  Q () (mkHeap (delete sid (delete k (objs h))) (next h)) →
  wpm (drop_box_shared (mkPtr (Some sid) sa)) h E Q.
Proof using Type.
  intros Hne Hk Hs HQ. unfold drop_box_shared.
  apply wpm_bind. eapply wpm_lookup_obj; [done|exact Hs|]. simpl. rewrite Z.eqb_refl.
  apply wpm_bind. eapply wpm_rv_drop; [done|]. exact HQ.
Qed.
End alloc_rules.

(** ** An allocator

    The contract can be met: an allocator that places every object behind all
    live ones. *)

Definition heap_top (hs : objects) : Z := map_fold (λ _ '(a, o) m, Z.max m (a + obj_size o)) 8 hs.

Definition bump : Allocator := λ hs size _,
  let a := 8 * ((heap_top hs + 7) / 8) in
  if a + size <? 2 ^ 64 then Some a else None.

Lemma heap_top_bound hs : 8 ≤ heap_top hs ∧ ∀ k a o, hs !! k = Some (a, o) → a + obj_size o ≤ heap_top hs.
Proof.
  unfold heap_top. apply (map_fold_weak_ind (λ m hs,
    8 ≤ m ∧ ∀ k a o, hs !! k = Some (a, o) → a + obj_size o ≤ m)).
  - split; [lia|]. intros k a o. by rewrite lookup_empty.
  - intros k [a o] hs' m _ [? IH]. split; [lia|]. intros k' a' o'.
    rewrite lookup_insert_Some. intros [[_ [= <- <-]]|[_ ?%IH]]; lia.
Qed.

#[global] Instance bump_laws : @AllocatorLaws bump.
Proof.
  intros hs size align a Hs Ha. unfold allocate, bump. destruct (Z.ltb_spec (8 * ((heap_top hs + 7) / 8) + size) (2 ^ 64)); [|done].
  intros [= <-]. destruct (heap_top_bound hs) as [H8 Htop].
  assert (heap_top hs ≤ 8 * ((heap_top hs + 7) / 8)) by (Z.to_euclidean_division_equations; lia).
  split_and!; [lia| |done|].
  - destruct Ha as [->| ->]; [apply Z.mod_1_r|]. rewrite Z.mul_comm. by apply Z_mod_mult.
  - intros k b o Hk _. right. specialize (Htop k b o Hk). lia.
Qed.
