(* ===== verification/BytesMut.v ===== *)
(** * [bytes/src/bytes_mut.rs]: the [BytesMut] buffer

    A [BytesMut] refers to a range of a vector.  Its word [data] is either a tag
    (the handle owns the whole vector, which starts [pos] bytes before the range)
    or the address of a reference-counted [Shared] that owns the vector.  Methods
    that take [&mut self] return the new value of the handle. *)

From S2P Require Import Prelude RustVec Mem Buf.

(** ** Data *)

Record BytesMut := mkBytesMut {
  bm_ptr : Ptr;
  bm_len : Z;
  bm_cap : Z;
  bm_data : Ptr;
}.

Definition KIND_ARC : Z := 0.
Definition KIND_VEC : Z := 1.
Definition KIND_MASK : Z := 1.
Definition MAX_ORIGINAL_CAPACITY_WIDTH : Z := 17.
Definition MIN_ORIGINAL_CAPACITY_WIDTH : Z := 10.
Definition ORIGINAL_CAPACITY_MASK : Z := 28.
Definition ORIGINAL_CAPACITY_OFFSET : Z := 2.
Definition VEC_POS_OFFSET : Z := 5.
Definition MAX_VEC_POS : Z := Z.shiftr usize_max VEC_POS_OFFSET.
Definition NOT_VEC_POS_MASK : Z := 31.
Definition PTR_WIDTH : Z := 64.

(** [usize::leading_zeros] *)
Definition leading_zeros (z : Z) : Z := if z =? 0 then 64 else 63 - Z.log2 z.

Definition original_capacity_to_repr (cap : Z) : Z :=
  let width := PTR_WIDTH - leading_zeros (Z.shiftr cap MIN_ORIGINAL_CAPACITY_WIDTH) in
  Z.min width (MAX_ORIGINAL_CAPACITY_WIDTH - MIN_ORIGINAL_CAPACITY_WIDTH).

Definition original_capacity_from_repr (repr : Z) : Z :=
  if repr =? 0 then 0 else Z.shiftl 1 (repr + (MIN_ORIGINAL_CAPACITY_WIDTH - 1)).

Definition kind (b : BytesMut) : Z := Z.land (addr (bm_data b)) KIND_MASK.

Section bytes_mut.
Context `{Build} `{Allocator}.

(** ** Helpers *)

Definition vptr (p : Ptr) : M Ptr :=
  if addr p =? 0 then (if debug_assertions then panicM PExpect else stopM SUndef)
  else mret p.

Definition invalid_ptr (a : Z) : Ptr := mkPtr None (uwrap 64 a).

Definition rebuild_vec (p : Ptr) (len cap offset : Z) : M RVec :=
  p ← ptr_sub p offset;
  len ← lift (usize_add len offset);
  cap ← lift (usize_add cap offset);
  mret (mkRVec p cap len).

Definition increment_shared (p : Ptr) : M () :=
  s ← get_shared p;
  let old_size := sh_ref s in
  set_shared p (mkShared (sh_vec s) (sh_repr s) (uwrap 64 (old_size + 1)));;
  if isize_max <? old_size then stopM SAbort else mret ().

Definition release_shared (p : Ptr) : M () :=
  s ← get_shared p;
  let old_size := sh_ref s in
  set_shared p (mkShared (sh_vec s) (sh_repr s) (uwrap 64 (old_size - 1)));;
  if negb (old_size =? 1) then mret () else drop_box_shared p.

Definition is_unique (s : Shared) : bool := sh_ref s =? 1.

Definition get_vec_pos (b : BytesMut) : M Z :=
  debug_assertM (Ret (kind b =? KIND_VEC));;
  mret (Z.shiftr (addr (bm_data b)) VEC_POS_OFFSET).

Definition set_vec_pos (b : BytesMut) (pos : Z) : M BytesMut :=
  debug_assertM (Ret (kind b =? KIND_VEC));;
  debug_assertM (Ret (pos <=? MAX_VEC_POS));;
  mret (mkBytesMut (bm_ptr b) (bm_len b) (bm_cap b)
    (invalid_ptr (Z.lor (uwrap 64 (Z.shiftl pos VEC_POS_OFFSET))
                        (Z.land (addr (bm_data b)) NOT_VEC_POS_MASK)))).

Definition promote_to_shared (b : BytesMut) (ref_cnt : Z) : M BytesMut :=
  debug_assertM (Ret (kind b =? KIND_VEC));;
  debug_assertM (Ret ((ref_cnt =? 1) || (ref_cnt =? 2)));;
  let repr := Z.shiftr (Z.land (addr (bm_data b)) ORIGINAL_CAPACITY_MASK)
                       ORIGINAL_CAPACITY_OFFSET in
  let offset := Z.shiftr (addr (bm_data b)) VEC_POS_OFFSET in
  v ← rebuild_vec (bm_ptr b) (bm_len b) (bm_cap b) offset;
  shared ← box_shared (mkShared v repr ref_cnt);
  debug_assertM (Ret (Z.land (addr shared) KIND_MASK =? KIND_ARC));;
  mret (mkBytesMut (bm_ptr b) (bm_len b) (bm_cap b) shared).

(** The handle itself, promoted or not, and its copy. *)
Definition shallow_clone (b : BytesMut) : M (BytesMut * BytesMut) :=
  if kind b =? KIND_ARC then
    increment_shared (bm_data b);; mret (b, b)
  else
    b ← promote_to_shared b 2; mret (b, b).

Definition advance_unchecked (b : BytesMut) (count : Z) : M BytesMut :=
  if count =? 0 then mret b else
  debug_assertM (Ret (count <=? bm_cap b));;
  b ← (if kind b =? KIND_VEC then
         pos ← get_vec_pos b;
         pos ← lift (usize_add pos count);
         if pos <=? MAX_VEC_POS then set_vec_pos b pos else promote_to_shared b 1
       else mret b);
  p ← ptr_add (bm_ptr b) count;
  p ← vptr p;
  let len := match checked_sub (bm_len b) count with Some len => len | None => 0 end in
  cap ← lift (usize_sub (bm_cap b) count);
  mret (mkBytesMut p len cap (bm_data b)).

(** [set_len] *)
Definition bm_set_len (b : BytesMut) (len : Z) : M BytesMut :=
  debug_assertM (Ret (len <=? bm_cap b));;
  mret (mkBytesMut (bm_ptr b) len (bm_cap b) (bm_data b)).

(** ** Construction *)

Definition from_vec (v : RVec) : M BytesMut :=
  p ← vptr (rv_ptr v);
  let repr := original_capacity_to_repr (rv_cap v) in
  let data := Z.lor (Z.shiftl repr ORIGINAL_CAPACITY_OFFSET) KIND_VEC in
  mret (mkBytesMut p (rv_len v) (rv_cap v) (invalid_ptr data)).

Definition with_capacity (capacity : Z) : M BytesMut :=
  v ← rv_with_capacity capacity; from_vec v.

(** [BytesMut::new] *)
Definition bm_new : M BytesMut := with_capacity 0.

Definition zeroed (len : Z) : M BytesMut :=
  v ← rv_of_bytes (replicate (Z.to_nat len) Byte.x00); from_vec v.

Definition from_slice (bs : list byte) : M BytesMut :=
  v ← rv_of_bytes bs; from_vec v.

(** ** Reading *)

Definition as_slice (b : BytesMut) : M (list byte) := load_bytes (bm_ptr b) (bm_len b).

(** [clone] *)
Definition bm_clone (b : BytesMut) : M BytesMut :=
  bs ← as_slice b; from_slice bs.

(** A write through [as_mut()], at an index of the slice. *)
Definition as_mut_write (b : BytesMut) (i : Z) (x : byte) : M () :=
  valid_range (bm_ptr b) (bm_len b);;
  if bool_decide (0 ≤ i < bm_len b) then
    p ← ptr_add (bm_ptr b) i; store p [Some x]
  else panicM PIndex.

(** ** Splitting *)

Definition split_off (b : BytesMut) (at_ : Z) : M (BytesMut * BytesMut) :=
  lift (rust_assert (at_ <=? bm_cap b));;
  '(b, other) ← shallow_clone b;
  other ← advance_unchecked other at_;
  mret (mkBytesMut (bm_ptr b) (Z.min (bm_len b) at_) at_ (bm_data b), other).

Definition split_to (b : BytesMut) (at_ : Z) : M (BytesMut * BytesMut) :=
  lift (rust_assert (at_ <=? bm_len b));;
  '(b, other) ← shallow_clone b;
  b ← advance_unchecked b at_;
  mret (b, mkBytesMut (bm_ptr other) at_ at_ (bm_data other)).

(** [split] *)
Definition bm_split (b : BytesMut) : M (BytesMut * BytesMut) := split_to b (bm_len b).

Definition truncate (b : BytesMut) (len : Z) : M BytesMut :=
  if len <=? bm_len b then bm_set_len b len else mret b.

Definition clear (b : BytesMut) : M BytesMut := bm_set_len b 0.

(** [Buf::advance] *)
Definition bm_advance (b : BytesMut) (cnt : Z) : M BytesMut :=
  lift (rust_assert (cnt <=? bm_len b));;
  advance_unchecked b cnt.

(** ** Growing *)

(** The branch of [reserve_inner] for a handle that owns its vector. *)
Definition reserve_vec (b : BytesMut) (additional : Z) (allocate_ : bool)
    : M (BytesMut * bool) :=
  offset ← get_vec_pos b;
  spare ← lift (usize_sub (bm_cap b) (bm_len b));
  spare ← lift (usize_add spare offset);
  if (additional <=? spare) && (bm_len b <=? offset) then
    base_ptr ← ptr_sub (bm_ptr b) offset;
    ptr_copy_nonoverlapping (bm_ptr b) base_ptr (bm_len b);;
    p ← vptr base_ptr;
    b ← set_vec_pos (mkBytesMut p (bm_len b) (bm_cap b) (bm_data b)) 0;
    cap ← lift (usize_add (bm_cap b) offset);
    mret (mkBytesMut (bm_ptr b) (bm_len b) cap (bm_data b), true)
  else if negb allocate_ then mret (b, false)
  else
    v ← rebuild_vec (bm_ptr b) (bm_len b) (bm_cap b) offset;
    v ← rv_reserve v additional;
    p ← ptr_add (rv_ptr v) offset;
    p ← vptr p;
    cap ← lift (usize_sub (rv_cap v) offset);
    debug_assertM (n ← usize_sub (rv_len v) offset; Ret (bm_len b =? n));;
    mret (mkBytesMut p (bm_len b) cap (bm_data b), true).

(** The branch for the only handle of a [Shared]. *)
Definition reserve_unique (b : BytesMut) (s : Shared) (new_cap : Z) (allocate_ : bool)
    : M (BytesMut * bool) :=
  let v := sh_vec s in
  let v_capacity := rv_cap v in
  let p := rv_ptr v in
  offset ← lift (offset_from (bm_ptr b) p);
  total ← lift (usize_add new_cap offset);
  if total <=? v_capacity then
    mret (mkBytesMut (bm_ptr b) (bm_len b) new_cap (bm_data b), true)
  else if (new_cap <=? v_capacity) && (bm_len b <=? offset) then
    ptr_copy_nonoverlapping (bm_ptr b) p (bm_len b);;
    p ← vptr p;
    mret (mkBytesMut p (bm_len b) (rv_cap v) (bm_data b), true)
  else if negb allocate_ then mret (b, false)
  else
    offset ← lift (usize_sub (addr (bm_ptr b)) (addr (rv_ptr v)));
    match checked_add 64 new_cap offset with
    | None => panicM PExpect
    | Some new_cap =>
        let double := uwrap 64 (Z.shiftl (rv_cap v) 1) in
        let new_cap := Z.max double new_cap in
        debug_assertM (n ← usize_add offset (bm_len b); Ret (n <=? rv_cap v));;
        n ← lift (usize_add offset (bm_len b));
        let v := rv_set_len v n in
        more ← lift (usize_sub new_cap (rv_len v));
        v ← rv_reserve v more;
        set_shared (bm_data b) (mkShared v (sh_repr s) (sh_ref s));;
        p ← ptr_add (rv_ptr v) offset;
        p ← vptr p;
        cap ← lift (usize_sub (rv_cap v) offset);
        mret (mkBytesMut p (bm_len b) cap (bm_data b), true)
    end.

Definition reserve_inner (b : BytesMut) (additional : Z) (allocate_ : bool)
    : M (BytesMut * bool) :=
  let len := bm_len b in
  if kind b =? KIND_VEC then reserve_vec b additional allocate_ else
  debug_assertM (Ret (kind b =? KIND_ARC));;
  let shared := bm_data b in
  match checked_add 64 len additional with
  | None => if negb allocate_ then mret (b, false) else panicM PExplicit
  | Some new_cap =>
      s ← get_shared shared;
      if is_unique s then reserve_unique b s new_cap allocate_
      else if negb allocate_ then mret (b, false)
      else
        let repr := sh_repr s in
        let new_cap := Z.max new_cap (original_capacity_from_repr repr) in
        v ← rv_with_capacity new_cap;
        bs ← as_slice b;
        v ← rv_extend_from_slice v bs;
        release_shared shared;;
        let data := Z.lor (Z.shiftl repr ORIGINAL_CAPACITY_OFFSET) KIND_VEC in
        p ← vptr (rv_ptr v);
        debug_assertM (Ret (len =? rv_len v));;
        mret (mkBytesMut p len (rv_cap v) (invalid_ptr data), true)
  end.

Definition reserve (b : BytesMut) (additional : Z) : M BytesMut :=
  rem ← lift (usize_sub (bm_cap b) (bm_len b));
  if additional <=? rem then mret b else
  '(b, _) ← reserve_inner b additional true; mret b.

(** The source passes [true] for [allocate]. *)
Definition try_reclaim (b : BytesMut) (additional : Z) : M (BytesMut * bool) :=
  rem ← lift (usize_sub (bm_cap b) (bm_len b));
  if additional <=? rem then mret (b, true) else reserve_inner b additional true.

(** ** Writing *)

Definition spare_capacity_mut (b : BytesMut) : M (Ptr * Z) :=
  p ← ptr_add (bm_ptr b) (bm_len b);
  len ← lift (usize_sub (bm_cap b) (bm_len b));
  valid_range p len;;
  mret (p, len).

(** [BufMut::advance_mut] *)
Definition bm_advance_mut (b : BytesMut) (cnt : Z) : M BytesMut :=
  rem ← lift (usize_sub (bm_cap b) (bm_len b));
  if rem <? cnt then panicM (PAdvance cnt rem) else
  len ← lift (usize_add (bm_len b) cnt);
  mret (mkBytesMut (bm_ptr b) len (bm_cap b) (bm_data b)).

Definition extend_from_slice (b : BytesMut) (extend : list byte) : M BytesMut :=
  let cnt := zlen extend in
  b ← reserve b cnt;
  '(dst, n) ← spare_capacity_mut b;
  debug_assertM (Ret (cnt <=? n));;
  store dst (Some <$> extend);;
  bm_advance_mut b cnt.

Definition resize (b : BytesMut) (new_len : Z) (value : byte) : M BytesMut :=
  match checked_sub new_len (bm_len b) with
  | None => truncate b new_len
  | Some additional =>
      if additional =? 0 then mret b else
      b ← reserve b additional;
      '(dst, _) ← spare_capacity_mut b;
      store dst (replicate (Z.to_nat additional) (Some value));;
      bm_set_len b new_len
  end.

Definition bm_remaining_mut (b : BytesMut) : comp Z := usize_sub usize_max (bm_len b).

(** [BufMut::chunk_mut] *)
Definition bm_chunk_mut (b : BytesMut) : M (BytesMut * (Ptr * Z)) :=
  b ← (if bm_cap b =? bm_len b then reserve b 64 else mret b);
  s ← spare_capacity_mut b;
  mret (b, s).

Definition bm_put_slice (b : BytesMut) (src : list byte) : M BytesMut :=
  extend_from_slice b src.

Definition bm_put_bytes (b : BytesMut) (val : byte) (cnt : Z) : M BytesMut :=
  b ← reserve b cnt;
  '(dst, n) ← spare_capacity_mut b;
  debug_assertM (Ret (cnt <=? n));;
  store dst (replicate (Z.to_nat cnt) (Some val));;
  bm_advance_mut b cnt.

(** [BufMut::put] *)
Fixpoint bm_put {S} `{BufCore S} (fuel : nat) (b : BytesMut) (src : S) : M (BytesMut * S) :=
  if has_remaining src then
    match fuel with
    | O => stopM SFuel
    | Datatypes.S fuel' =>
        let s := chunk src in
        let l := zlen s in
        b ← extend_from_slice b s;
        src ← lift (advance src l);
        bm_put fuel' b src
    end
  else mret (b, src).

(** [fmt::Write::write_str] *)
Definition bm_write_str (b : BytesMut) (s : list byte) : M (BytesMut * result () ()) :=
  rem ← lift (bm_remaining_mut b);
  if zlen s <=? rem then b ← bm_put_slice b s; mret (b, Ok ())
  else mret (b, Err ()).

(** [Extend<u8>::extend] over an iterator whose [size_hint] starts with
    [lower]; it hands the iterator to itself. *)
Fixpoint bm_extend (fuel : nat) (b : BytesMut) (lower : Z) (items : list byte) : M BytesMut :=
  match fuel with
  | O => stopM SFuel
  | S fuel' =>
      b ← reserve b lower;
      bm_extend fuel' b lower items
  end.

(** [Extend<Bytes>::extend], over the contents of the items. *)
Fixpoint bm_extend_bytes (b : BytesMut) (items : list (list byte)) : M BytesMut :=
  match items with
  | [] => mret b
  | bs :: items' => b ← extend_from_slice b bs; bm_extend_bytes b items'
  end.

(** ** Joining and ending *)

(** [Drop::drop] *)
Definition bm_drop (b : BytesMut) : M () :=
  if kind b =? KIND_VEC then
    offset ← get_vec_pos b;
    v ← rebuild_vec (bm_ptr b) (bm_len b) (bm_cap b) offset;
    rv_drop v
  else if kind b =? KIND_ARC then release_shared (bm_data b)
  else mret ().

(** [other] is dropped when the function returns [Ok]. *)
Definition try_unsplit (b other : BytesMut) : M (BytesMut * result () BytesMut) :=
  if bm_cap other =? 0 then bm_drop other;; mret (b, Ok ()) else
  p ← ptr_add (bm_ptr b) (bm_len b);
  if (addr p =? addr (bm_ptr other)) && (kind b =? KIND_ARC) && (kind other =? KIND_ARC)
     && (addr (bm_data b) =? addr (bm_data other)) then
    len ← lift (usize_add (bm_len b) (bm_len other));
    cap ← lift (usize_add (bm_cap b) (bm_cap other));
    bm_drop other;;
    mret (mkBytesMut (bm_ptr b) len cap (bm_data b), Ok ())
  else mret (b, Err other).

Definition unsplit (b other : BytesMut) : M BytesMut :=
  if bm_len b =? 0 then bm_drop b;; mret other else
  '(b, r) ← try_unsplit b other;
  match r with
  | Ok _ => mret b
  | Err other =>
      bs ← as_slice other;
      b ← extend_from_slice b bs;
      bm_drop other;;
      mret b
  end.

(** [From<BytesMut> for Vec<u8>] *)
Definition into_vec (b : BytesMut) : M RVec :=
  let finish v :=
    let len := bm_len b in
    ptr_copy (bm_ptr b) (rv_ptr v) len;;
    mret (rv_set_len v len) in
  if kind b =? KIND_VEC then
    offset ← get_vec_pos b;
    v ← rebuild_vec (bm_ptr b) (bm_len b) (bm_cap b) offset;
    finish v
  else
    s ← get_shared (bm_data b);
    if is_unique s then
      empty ← rv_new;
      set_shared (bm_data b) (mkShared empty (sh_repr s) (sh_ref s));;
      release_shared (bm_data b);;
      finish (sh_vec s)
    else
      bs ← as_slice b;
      v ← rv_of_bytes bs;
      bm_drop b;;
      mret v.
End bytes_mut.
