(* ===== verification/Bytes.v ===== *)
(** * [bytes/src/bytes.rs]: the immutable handle [Bytes], and [freeze]

    A [Bytes] is a range of memory with a table of functions that know who owns
    it: nobody (static data), an [Owned] box, a boxed slice that is promoted to a
    counted [Shared] by the first clone, such a [Shared], or the [Shared] of
    [bytes_mut.rs].  A method that takes [&self] may still change the word
    [data], so it returns the handle too. *)

From S2P Require Import Prelude RustVec Mem Buf BytesMut.

(** ** Data *)

(** The function tables of [bytes.rs] and the one of [bytes_mut.rs]. *)
Inductive Vtable : Set :=
| STATIC_VTABLE
| OWNED_VTABLE
| PROMOTABLE_EVEN_VTABLE
| PROMOTABLE_ODD_VTABLE
| SHARED_VTABLE
| MUT_SHARED_VTABLE.

#[global] Instance Vtable_eq_dec : EqDecision Vtable.
Proof. solve_decision. Defined.

(** [struct Bytes] *)
Record Bytes := mkBytes {
  by_ptr : Ptr;
  by_len : Z;
  by_data : Ptr;
  by_vtable : Vtable;
}.

Definition with_vtable (p : Ptr) (len : Z) (data : Ptr) (vtable : Vtable) : Bytes :=
  mkBytes p len data vtable.

Definition null : Ptr := mkPtr None 0.

Definition ptr_map (p : Ptr) (f : Z → Z) : Ptr :=
  let old_address := addr p in
  let new_address := f old_address in
  let diff := uwrap 64 (new_address - old_address) in
  mkPtr (prov p) (uwrap 64 (old_address + diff)).

(** [p.wrapping_add(n)] *)
Definition ptr_wrapping_add (p : Ptr) (n : Z) : Ptr := mkPtr (prov p) (uwrap 64 (addr p + n)).

Definition without_provenance (a : Z) : Ptr := ptr_wrapping_add null a.

(** [addr & !KIND_MASK] *)
Definition clear_kind (a : Z) : Z := Z.land a (usize_max - KIND_MASK).

Definition kind_of (p : Ptr) : Z := Z.land (addr p) KIND_MASK.

(** [Bytes::from_static], from the parts of the slice. *)
Definition from_static (p : Ptr) (len : Z) : Bytes := mkBytes p len null STATIC_VTABLE.

(** [Bytes::new] *)
Definition by_new : Bytes := from_static (mkPtr None 1) 0.

Section bytes.
Context `{Build} `{Allocator}.

Definition new_empty_with_ptr (p : Ptr) : M Bytes :=
  debug_assertM (Ret (negb (addr p =? 0)));;
  let p := without_provenance (addr p) in
  mret (mkBytes p 0 null STATIC_VTABLE).

(** ** Boxes and raw memory *)

(** [dealloc(buf, Layout(cap, 1))] *)
Definition dealloc (buf : Ptr) (cap : Z) : M () :=
  if cap =? 0 then stopM SUndef else
  '(k, _) ← rv_cells (mkRVec buf cap 0); free_obj k.

Definition get_bshared (p : Ptr) : M BShared :=
  '(k, a, o) ← lookup_obj p;
  match o with
  | OBShared s => if addr p =? a then mret s else stopM SUndef
  | _ => stopM SUndef
  end.

Definition set_bshared (p : Ptr) (s : BShared) : M () :=
  '(k, a, o) ← lookup_obj p;
  match o with
  | OBShared _ => if addr p =? a then set_obj k a (OBShared s) else stopM SUndef
  | _ => stopM SUndef
  end.

(** [Box::from_raw(p)], forgotten: the box goes, its buffer stays. *)
Definition forget_bshared (p : Ptr) : M BShared :=
  '(k, a, o) ← lookup_obj p;
  match o with
  | OBShared s => if addr p =? a then free_obj k;; mret s else stopM SUndef
  | _ => stopM SUndef
  end.

(** [drop(Box::from_raw(p))], with [Drop for Shared]. *)
Definition drop_bshared (p : Ptr) : M () :=
  s ← get_bshared p;
  dealloc (bs_buf s) (bs_cap s);;
  forget_bshared p;;
  mret ().

Definition get_owned (p : Ptr) : M (positive * Z * Owned) :=
  '(k, a, o) ← lookup_obj p;
  match o with
  | OOwned s => if addr p =? a then mret (k, a, s) else stopM SUndef
  | _ => stopM SUndef
  end.

(** ** [Shared] *)

(** [release_shared] *)
Definition by_release_shared (p : Ptr) : M () :=
  s ← get_bshared p;
  set_bshared p (mkBShared (bs_buf s) (bs_cap s) (uwrap 64 (bs_ref s - 1)));;
  if negb (bs_ref s =? 1) then mret () else drop_bshared p.

(** The count is read, not incremented. *)
Definition shallow_clone_arc (shared p : Ptr) (len : Z) : M Bytes :=
  s ← get_bshared shared;
  let old_size := bs_ref s in
  if Z.shiftr usize_max 1 <? old_size then stopM SAbort else
  mret (mkBytes p len shared SHARED_VTABLE).

(** The new value of [atom], and the clone. *)
Definition shallow_clone_vec (atom p buf offset : Ptr) (len : Z) : M (Ptr * Bytes) :=
  off ← lift (offset_from offset buf);
  cap ← lift (usize_add off len);
  shared ← alloc_obj (OBShared (mkBShared buf cap 2));
  debug_assertM (Ret (0 =? kind_of shared));;
  if addr atom =? addr p then
    mret (shared, mkBytes offset len shared SHARED_VTABLE)
  else
    forget_bshared shared;;
    b ← shallow_clone_arc atom offset len;
    mret (atom, b).

Definition shared_clone (data p : Ptr) (len : Z) : M Bytes := shallow_clone_arc data p len.

Definition shared_to_vec_impl (shared p : Ptr) (len : Z) : M RVec :=
  s ← get_bshared shared;
  if bs_ref s =? 1 then
    set_bshared shared (mkBShared (bs_buf s) (bs_cap s) 0);;
    s ← forget_bshared shared;
    let buf := bs_buf s in
    let cap := bs_cap s in
    ptr_copy p buf len;;
    mret (mkRVec buf cap len)
  else
    bs ← load_bytes p len;
    v ← rv_of_bytes bs;
    by_release_shared shared;;
    mret v.

Definition shared_to_vec (data p : Ptr) (len : Z) : M RVec := shared_to_vec_impl data p len.

Definition shared_to_mut_impl (shared p : Ptr) (len : Z) : M BytesMut :=
  s ← get_bshared shared;
  if bs_ref s =? 1 then
    s ← forget_bshared shared;
    let buf := bs_buf s in
    let cap := bs_cap s in
    offset ← lift (offset_from p buf);
    n ← lift (usize_add len offset);
    b ← from_vec (mkRVec buf cap n);
    advance_unchecked b offset
  else
    bs ← load_bytes p len;
    v ← rv_of_bytes bs;
    by_release_shared shared;;
    from_vec v.

Definition shared_to_mut (data p : Ptr) (len : Z) : M BytesMut := shared_to_mut_impl data p len.

Definition shared_is_unique (data : Ptr) : M bool :=
  s ← get_bshared data; mret (bs_ref s =? 1).

Definition shared_drop (data : Ptr) : M () := by_release_shared data.

(** ** Promotable: a boxed slice, until the first clone *)

Definition free_boxed_slice (buf offset : Ptr) (len : Z) : M () :=
  off ← lift (offset_from offset buf);
  cap ← lift (usize_add off len);
  dealloc buf cap.

Definition promotable_clone (f : Ptr → Ptr) (data p : Ptr) (len : Z) : M (Ptr * Bytes) :=
  let shared := data in
  let kind := kind_of shared in
  if kind =? KIND_ARC then
    b ← shallow_clone_arc shared p len; mret (data, b)
  else
    debug_assertM (Ret (kind =? KIND_VEC));;
    shallow_clone_vec data shared (f shared) p len.

(** The address of the slice in the word [data]: the odd ones are stored as they
    are. *)
Definition even_buf (shared : Ptr) : Ptr := ptr_map shared clear_kind.
Definition odd_buf (shared : Ptr) : Ptr := shared.

Definition promotable_even_clone : Ptr → Ptr → Z → M (Ptr * Bytes) := promotable_clone even_buf.
Definition promotable_odd_clone : Ptr → Ptr → Z → M (Ptr * Bytes) := promotable_clone odd_buf.

Definition promotable_to_vec (data p : Ptr) (len : Z) (f : Ptr → Ptr) : M RVec :=
  let shared := data in
  let kind := kind_of shared in
  if kind =? KIND_ARC then shared_to_vec_impl shared p len
  else
    debug_assertM (Ret (kind =? KIND_ARC));;
    let buf := f shared in
    off ← lift (offset_from p buf);
    cap ← lift (usize_add off len);
    ptr_copy p buf len;;
    mret (mkRVec buf cap len).

(** [kind] is [shared as usize * KIND_MASK]. *)
Definition promotable_to_mut (data p : Ptr) (len : Z) (f : Ptr → Ptr) : M BytesMut :=
  let shared := data in
  kind ← lift (unsigned_op 64 (addr shared * KIND_MASK));
  if kind =? KIND_ARC then shared_to_mut_impl shared p len
  else
    debug_assertM (Ret (kind =? KIND_VEC));;
    let buf := f shared in
    offset ← lift (offset_from p buf);
    cap ← lift (usize_add offset len);
    b ← from_vec (mkRVec buf cap cap);
    advance_unchecked b offset.

Definition promotable_even_to_vec (data p : Ptr) (len : Z) : M RVec :=
  promotable_to_vec data p len even_buf.
Definition promotable_even_to_mut (data p : Ptr) (len : Z) : M BytesMut :=
  promotable_to_mut data p len even_buf.
Definition promotable_odd_to_vec (data p : Ptr) (len : Z) : M RVec :=
  promotable_to_vec data p len odd_buf.
Definition promotable_odd_to_mut (data p : Ptr) (len : Z) : M BytesMut :=
  promotable_to_mut data p len odd_buf.

Definition promotable_drop (f : Ptr → Ptr) (data p : Ptr) (len : Z) : M () :=
  let shared := data in
  let kind := kind_of shared in
  if kind =? KIND_ARC then by_release_shared shared
  else
    debug_assertM (Ret (kind =? KIND_VEC));;
    free_boxed_slice (f shared) p len.

Definition promotable_even_drop : Ptr → Ptr → Z → M () := promotable_drop even_buf.
Definition promotable_odd_drop : Ptr → Ptr → Z → M () := promotable_drop odd_buf.

Definition promotable_is_unique (data : Ptr) : M bool :=
  let kind := kind_of data in
  if kind =? KIND_ARC then s ← get_bshared data; mret (bs_ref s =? 1)
  else mret true.

(** ** Static data *)

Definition static_clone (p : Ptr) (len : Z) : M Bytes :=
  valid_range p len;; mret (from_static p len).
Definition static_to_vec (p : Ptr) (len : Z) : M RVec :=
  bs ← load_bytes p len; rv_of_bytes bs.
Definition static_to_mut (p : Ptr) (len : Z) : M BytesMut :=
  bs ← load_bytes p len; from_slice bs.
Definition static_is_unique : M bool := mret false.
Definition static_drop : M () := mret ().

(** ** Owners *)

(** [Bytes::from_owner] of a vector. *)
Definition from_owner (owner : RVec) : M Bytes :=
  owned ← alloc_obj (OOwned (mkOwned 1 owner));
  mret (mkBytes (rv_ptr owner) (rv_len owner) owned OWNED_VTABLE).

(** Drops the box and the owner in it. *)
Definition owned_box_and_drop (p : Ptr) : M () :=
  '(k, _, o) ← get_owned p;
  rv_drop (ow_owner o);;
  free_obj k.

Definition owned_clone (data p : Ptr) (len : Z) : M Bytes :=
  '(k, a, o) ← get_owned data;
  set_obj k a (OOwned (mkOwned (uwrap 64 (ow_ref o + 1)) (ow_owner o)));;
  if Z.shiftr usize_max 1 <? ow_ref o then stopM SAbort else
  mret (mkBytes p len data OWNED_VTABLE).

Definition owned_to_vec (p : Ptr) (len : Z) : M RVec :=
  bs ← load_bytes p len; rv_of_bytes bs.

Definition owned_drop_impl (owned : Ptr) : M () :=
  '(k, a, o) ← get_owned owned;
  set_obj k a (OOwned (mkOwned (uwrap 64 (ow_ref o - 1)) (ow_owner o)));;
  if negb (ow_ref o =? 1) then mret () else owned_box_and_drop owned.

Definition owned_to_mut (data p : Ptr) (len : Z) : M BytesMut :=
  v ← owned_to_vec p len;
  b ← from_vec v;
  owned_drop_impl data;;
  mret b.

Definition owned_is_unique : M bool := mret false.
Definition owned_drop (data : Ptr) : M () := owned_drop_impl data.

(** ** The table of [bytes_mut.rs] *)

Definition shared_v_clone (data p : Ptr) (len : Z) : M Bytes :=
  increment_shared data;;
  mret (with_vtable p len data MUT_SHARED_VTABLE).

Definition shared_v_to_vec (data p : Ptr) (len : Z) : M RVec :=
  s ← get_shared data;
  if is_unique s then
    empty ← rv_new;
    set_shared data (mkShared empty (sh_repr s) (sh_ref s));;
    release_shared data;;
    let v := sh_vec s in
    ptr_copy p (rv_ptr v) len;;
    mret (rv_set_len v len)
  else
    bs ← load_bytes p len;
    v ← rv_of_bytes bs;
    release_shared data;;
    mret v.

Definition shared_v_to_mut (data p : Ptr) (len : Z) : M BytesMut :=
  s ← get_shared data;
  if is_unique s then
    let v := sh_vec s in
    let v_capacity := rv_cap v in
    offset ← lift (offset_from p (rv_ptr v));
    cap ← lift (usize_sub v_capacity offset);
    p ← vptr p;
    mret (mkBytesMut p len cap data)
  else
    bs ← load_bytes p len;
    v ← rv_of_bytes bs;
    release_shared data;;
    from_vec v.

Definition shared_v_is_unique (data : Ptr) : M bool :=
  s ← get_shared data; mret (sh_ref s =? 1).

Definition shared_v_drop (data : Ptr) : M () := release_shared data.

(** ** Dispatch *)

Definition set_data (b : Bytes) (data : Ptr) : Bytes :=
  mkBytes (by_ptr b) (by_len b) data (by_vtable b).

(** [Clone::clone]: the handle and the clone. *)
Definition by_clone (b : Bytes) : M (Bytes * Bytes) :=
  let '(mkBytes p len data vtable) := b in
  match vtable with
  | STATIC_VTABLE => c ← static_clone p len; mret (b, c)
  | OWNED_VTABLE => c ← owned_clone data p len; mret (b, c)
  | PROMOTABLE_EVEN_VTABLE => '(data, c) ← promotable_even_clone data p len; mret (set_data b data, c)
  | PROMOTABLE_ODD_VTABLE => '(data, c) ← promotable_odd_clone data p len; mret (set_data b data, c)
  | SHARED_VTABLE => c ← shared_clone data p len; mret (b, c)
  | MUT_SHARED_VTABLE => c ← shared_v_clone data p len; mret (b, c)
  end.

(** [From<Bytes> for Vec<u8>] *)
Definition by_into_vec (b : Bytes) : M RVec :=
  let '(mkBytes p len data vtable) := b in
  match vtable with
  | STATIC_VTABLE => static_to_vec p len
  | OWNED_VTABLE => owned_to_vec p len
  | PROMOTABLE_EVEN_VTABLE => promotable_even_to_vec data p len
  | PROMOTABLE_ODD_VTABLE => promotable_odd_to_vec data p len
  | SHARED_VTABLE => shared_to_vec data p len
  | MUT_SHARED_VTABLE => shared_v_to_vec data p len
  end.

(** [From<Bytes> for BytesMut] *)
Definition into_mut (b : Bytes) : M BytesMut :=
  let '(mkBytes p len data vtable) := b in
  match vtable with
  | STATIC_VTABLE => static_to_mut p len
  | OWNED_VTABLE => owned_to_mut data p len
  | PROMOTABLE_EVEN_VTABLE => promotable_even_to_mut data p len
  | PROMOTABLE_ODD_VTABLE => promotable_odd_to_mut data p len
  | SHARED_VTABLE => shared_to_mut data p len
  | MUT_SHARED_VTABLE => shared_v_to_mut data p len
  end.

(** [Bytes::is_unique] *)
Definition by_is_unique (b : Bytes) : M bool :=
  match by_vtable b with
  | STATIC_VTABLE => static_is_unique
  | OWNED_VTABLE => owned_is_unique
  | PROMOTABLE_EVEN_VTABLE | PROMOTABLE_ODD_VTABLE => promotable_is_unique (by_data b)
  | SHARED_VTABLE => shared_is_unique (by_data b)
  | MUT_SHARED_VTABLE => shared_v_is_unique (by_data b)
  end.

(** [Drop::drop] *)
Definition by_drop (b : Bytes) : M () :=
  let '(mkBytes p len data vtable) := b in
  match vtable with
  | STATIC_VTABLE => static_drop
  | OWNED_VTABLE => owned_drop data
  | PROMOTABLE_EVEN_VTABLE => promotable_even_drop data p len
  | PROMOTABLE_ODD_VTABLE => promotable_odd_drop data p len
  | SHARED_VTABLE => shared_drop data
  | MUT_SHARED_VTABLE => shared_v_drop data
  end.

Definition try_into_mut (b : Bytes) : M (result BytesMut Bytes) :=
  u ← by_is_unique b;
  if (u : bool) then m ← into_mut b; mret (Ok m) else mret (Err b).

(** ** Construction *)

(** [From<Box<[u8]>>]; an empty box is dropped. *)
Definition from_box (p : Ptr) (len : Z) : M Bytes :=
  if len =? 0 then rv_drop (mkRVec p 0 0);; mret by_new else
  if Z.land (addr p) 1 =? 0 then
    let data := ptr_map p (λ a, Z.lor a KIND_VEC) in
    mret (mkBytes p len data PROMOTABLE_EVEN_VTABLE)
  else mret (mkBytes p len p PROMOTABLE_ODD_VTABLE).

(** [From<Vec<u8>>] *)
Definition by_from_vec (v : RVec) : M Bytes :=
  let p := rv_ptr v in
  let len := rv_len v in
  let cap := rv_cap v in
  if len =? cap then from_box p len else
  shared ← alloc_obj (OBShared (mkBShared p cap 1));
  debug_assertM (Ret (0 =? kind_of shared));;
  mret (mkBytes p len shared SHARED_VTABLE).

Definition copy_from_slice (data : list byte) : M Bytes :=
  v ← rv_of_bytes data; by_from_vec v.

(** ** Reading and moving the ends *)

(** [as_slice] *)
Definition by_as_slice (b : Bytes) : M (list byte) := load_bytes (by_ptr b) (by_len b).

Definition inc_start (b : Bytes) (n : Z) : M Bytes :=
  debug_assertM (Ret (n <=? by_len b));;
  len ← lift (usize_sub (by_len b) n);
  p ← ptr_add (by_ptr b) n;
  mret (mkBytes p len (by_data b) (by_vtable b)).

(** [Buf::advance] *)
Definition by_advance (b : Bytes) (cnt : Z) : M Bytes :=
  lift (rust_assert (cnt <=? by_len b));;
  inc_start b cnt.

(** The range of [Bytes::slice], by its bounds. *)
Inductive bound := Included (n : Z) | Excluded (n : Z) | Unbounded.

Definition range_begin (b : bound) : comp Z :=
  match b with
  | Included n => Ret n
  | Excluded n => match checked_add 64 n 1 with Some m => Ret m | None => Panic PExpect end
  | Unbounded => Ret 0
  end.

Definition range_end (b : bound) (len : Z) : comp Z :=
  match b with
  | Included n => match checked_add 64 n 1 with Some m => Ret m | None => Panic PExpect end
  | Excluded n => Ret n
  | Unbounded => Ret len
  end.

(** [Bytes::slice]: the handle and the slice. *)
Definition by_slice (b : Bytes) (start_bound end_bound : bound) : M (Bytes * Bytes) :=
  let len := by_len b in
  beg ← lift (range_begin start_bound);
  fin ← lift (range_end end_bound len);
  lift (rust_assert (beg <=? fin));;
  lift (rust_assert (fin <=? len));;
  if fin =? beg then mret (b, by_new) else
  '(b, ret) ← by_clone b;
  n ← lift (usize_sub fin beg);
  p ← ptr_add (by_ptr ret) beg;
  mret (b, mkBytes p n (by_data ret) (by_vtable ret)).

(** [Bytes::slice_ref], with the parts of the slice [subset]. *)
Definition slice_ref (b : Bytes) (subset_ptr subset_len : Z) : M (Bytes * Bytes) :=
  if subset_len =? 0 then mret (b, by_new) else
  let bytes_ptr := addr (by_ptr b) in
  let bytes_len := by_len b in
  lift (rust_assert (subset_ptr <=? bytes_ptr));;
  subset_end ← lift (usize_add subset_ptr subset_len);
  bytes_end ← lift (usize_add bytes_ptr bytes_len);
  lift (rust_assert (subset_end <=? bytes_end));;
  subset_offset ← lift (usize_sub subset_ptr bytes_ptr);
  n ← lift (usize_add subset_offset subset_len);
  by_slice b (Included subset_offset) (Excluded n).

(** [Bytes::split_off] *)
Definition by_split_off (b : Bytes) (at_ : Z) : M (Bytes * Bytes) :=
  if at_ =? by_len b then
    other ← new_empty_with_ptr (ptr_wrapping_add (by_ptr b) at_); mret (b, other)
  else if at_ =? 0 then
    empty ← new_empty_with_ptr (by_ptr b); mret (empty, b)
  else
    lift (rust_assert (at_ <=? by_len b));;
    '(b, ret) ← by_clone b;
    let b := mkBytes (by_ptr b) at_ (by_data b) (by_vtable b) in
    ret ← inc_start ret at_;
    mret (b, ret).

(** [Bytes::split_to] *)
Definition by_split_to (b : Bytes) (at_ : Z) : M (Bytes * Bytes) :=
  if at_ =? by_len b then
    let end_ptr := ptr_wrapping_add (by_ptr b) at_ in
    empty ← new_empty_with_ptr end_ptr; mret (empty, b)
  else if at_ =? 0 then
    other ← new_empty_with_ptr (by_ptr b); mret (b, other)
  else
    lift (rust_assert (at_ <=? by_len b));;
    '(b, ret) ← by_clone b;
    b ← inc_start b at_;
    mret (b, mkBytes (by_ptr ret) at_ (by_data ret) (by_vtable ret)).

(** [Bytes::truncate] *)
Definition by_truncate (b : Bytes) (len : Z) : M Bytes :=
  if len <? by_len b then
    if bool_decide (by_vtable b = PROMOTABLE_EVEN_VTABLE)
       || bool_decide (by_vtable b = PROMOTABLE_ODD_VTABLE) then
      '(b, other) ← by_split_off b len;
      by_drop other;;
      mret b
    else mret (mkBytes (by_ptr b) len (by_data b) (by_vtable b))
  else mret b.

(** [Bytes::clear] *)
Definition by_clear (b : Bytes) : M Bytes := by_truncate b 0.

(** [Buf::copy_to_bytes] *)
Definition by_copy_to_bytes (b : Bytes) (len : Z) : M (Bytes * Bytes) := by_split_to b len.

(** ** [bytes_mut.rs]: the way to [Bytes] *)

Definition freeze (m : BytesMut) : M Bytes :=
  if kind m =? KIND_VEC then
    offset ← get_vec_pos m;
    v ← rebuild_vec (bm_ptr m) (bm_len m) (bm_cap m) offset;
    b ← by_from_vec v;
    by_advance b offset
  else
    debug_assertM (Ret (kind m =? KIND_ARC));;
    mret (with_vtable (bm_ptr m) (bm_len m) (bm_data m) MUT_SHARED_VTABLE).

(** [Buf::copy_to_bytes] of [BytesMut] *)
Definition bm_copy_to_bytes (m : BytesMut) (len : Z) : M (BytesMut * Bytes) :=
  '(m, other) ← split_to m len;
  b ← freeze other;
  mret (m, b).
End bytes.
