(* ===== verification/Vtables.v ===== *)
(** * The function tables of [Bytes], and the unit tests of [bytes_mut.rs]

    A [Vtable] is a record of functions; every handle calls through the table it has.
    [Bytes] dispatches on the name of the table instead: the two agree. *)

From S2P Require Import Prelude RustVec Mem Buf BytesMut Bytes.

Section tables.
Context `{Build} `{Allocator}.

(** [struct Vtable].  [clone] takes the word [data] by reference and may change it. *)
Record VtableFns := mkVtable {
  vt_clone : Ptr → Ptr → Z → M (Ptr * Bytes);
  vt_to_vec : Ptr → Ptr → Z → M RVec;
  vt_to_mut : Ptr → Ptr → Z → M BytesMut;
  vt_is_unique : Ptr → M bool;
  vt_drop : Ptr → Ptr → Z → M ();
}.

(** A [clone] that leaves the word [data] alone. *)
Definition keeping (f : Ptr → Ptr → Z → M Bytes) (data p : Ptr) (len : Z) : M (Ptr * Bytes) :=
  c ← f data p len; mret (data, c).

Definition static_vtable : VtableFns :=
  mkVtable (keeping (λ _, static_clone)) (λ _, static_to_vec) (λ _, static_to_mut) (λ _, static_is_unique)
    (λ _ _ _, static_drop).
Definition owned_vtable : VtableFns :=
  mkVtable (keeping owned_clone) (λ _, owned_to_vec) owned_to_mut (λ _, owned_is_unique) (λ data _ _, owned_drop data).
Definition promotable_even_vtable : VtableFns :=
  mkVtable promotable_even_clone promotable_even_to_vec promotable_even_to_mut promotable_is_unique promotable_even_drop.
Definition promotable_odd_vtable : VtableFns :=
  mkVtable promotable_odd_clone promotable_odd_to_vec promotable_odd_to_mut promotable_is_unique promotable_odd_drop.
Definition shared_vtable : VtableFns :=
  mkVtable (keeping shared_clone) shared_to_vec shared_to_mut shared_is_unique (λ data _ _, shared_drop data).
Definition mut_shared_vtable : VtableFns :=
  mkVtable (keeping shared_v_clone) shared_v_to_vec shared_v_to_mut shared_v_is_unique (λ data _ _, shared_v_drop data).

Definition table (vt : Vtable) : VtableFns :=
  match vt with
  | STATIC_VTABLE => static_vtable
  | OWNED_VTABLE => owned_vtable
  | PROMOTABLE_EVEN_VTABLE => promotable_even_vtable
  | PROMOTABLE_ODD_VTABLE => promotable_odd_vtable
  | SHARED_VTABLE => shared_vtable
  | MUT_SHARED_VTABLE => mut_shared_vtable
  end.

(** Every method of a handle is the call of its table on the parts of the handle. *)
Theorem dispatch_table b h (t := table (by_vtable b)) :
  by_clone b h = ('(data, c) ← vt_clone t (by_data b) (by_ptr b) (by_len b); mret (set_data b data, c)) h
  ∧ by_into_vec b h = vt_to_vec t (by_data b) (by_ptr b) (by_len b) h
  ∧ into_mut b h = vt_to_mut t (by_data b) (by_ptr b) (by_len b) h
  ∧ by_is_unique b h = vt_is_unique t (by_data b) h
  ∧ by_drop b h = vt_drop t (by_data b) (by_ptr b) (by_len b) h.
Proof.
  subst t. destruct b as [p len data vt]. split; [|by destruct vt].
  destruct vt; simpl; try done; unfold keeping, mbind, M_bind.
  - by destruct (static_clone p len h) as [[]|].
  - by destruct (owned_clone data p len h) as [[]|].
  - by destruct (shared_clone data p len h) as [[]|].
  - by destruct (shared_v_clone data p len h) as [[]|].
Qed.
End tables.

(** ** The unit tests of [bytes_mut.rs] *)

(** [assert_eq!] *)
Definition assert_eq (a b : Z) : comp () := rust_assert (a =? b).

Fixpoint for_each (l : list Z) (f : Z → comp ()) : comp () :=
  match l with [] => Ret () | x :: l => f x;; for_each l f end.

Definition test_original_capacity_to_repr : comp () :=
  assert_eq (original_capacity_to_repr 0) 0;;
  let max_width := 32 in
  for_each (seqZ 1 max_width) (λ width,
    let cap := Z.shiftl 1 (width - 1) in
    let expected :=
      if width <? MIN_ORIGINAL_CAPACITY_WIDTH then 0
      else if width <? MAX_ORIGINAL_CAPACITY_WIDTH then width - MIN_ORIGINAL_CAPACITY_WIDTH
      else MAX_ORIGINAL_CAPACITY_WIDTH - MIN_ORIGINAL_CAPACITY_WIDTH in
    assert_eq (original_capacity_to_repr cap) expected;;
    (if 1 <? width then assert_eq (original_capacity_to_repr (cap + 1)) expected else Ret ());;
    (if width =? MIN_ORIGINAL_CAPACITY_WIDTH + 1 then
       assert_eq (original_capacity_to_repr (cap - 24)) (expected - 1);;
       assert_eq (original_capacity_to_repr (cap + 76)) expected
     else if width =? MIN_ORIGINAL_CAPACITY_WIDTH + 2 then
       assert_eq (original_capacity_to_repr (cap - 1)) (expected - 1);;
       assert_eq (original_capacity_to_repr (cap - 48)) (expected - 1)
     else Ret ())).

Definition test_original_capacity_from_repr : comp () :=
  assert_eq 0 (original_capacity_from_repr 0);;
  let min_cap := Z.shiftl 1 MIN_ORIGINAL_CAPACITY_WIDTH in
  assert_eq min_cap (original_capacity_from_repr 1);;
  assert_eq (min_cap * 2) (original_capacity_from_repr 2);;
  assert_eq (min_cap * 4) (original_capacity_from_repr 3);;
  assert_eq (min_cap * 8) (original_capacity_from_repr 4);;
  assert_eq (min_cap * 16) (original_capacity_from_repr 5);;
  assert_eq (min_cap * 32) (original_capacity_from_repr 6);;
  assert_eq (min_cap * 64) (original_capacity_from_repr 7).

(** Both tests pass. *)
Example capacity_tests_pass : test_original_capacity_to_repr = Ret () ∧ test_original_capacity_from_repr = Ret ().
Proof. split; vm_compute; reflexivity. Qed.
