(* ===== verification/World.v ===== *)
(** * The memory behind a set of live handles

    [world L hs] says that the live objects [hs] are exactly what the handles of
    [L] own, and that each handle of [L] shows the byte string it is paired
    with.  The handles fall into groups that own their objects together: a
    vector belongs to one handle, or to a counted object that knows the number
    of the handles into it.  The ranges of two handles into one vector do not
    overlap if one of them writes.  Nothing else is allocated. *)

From S2P Require Import Prelude RustVec Mem BytesMut Bytes.

(** ** Handles *)

Inductive handle :=
| HMut (b : BytesMut)
| HBytes (b : Bytes).

Definition h_ptr (x : handle) : Ptr :=
  match x with HMut b => bm_ptr b | HBytes b => by_ptr b end.
Definition h_len (x : handle) : Z :=
  match x with HMut b => bm_len b | HBytes b => by_len b end.
(** The range a handle may touch; a [Bytes] only reads. *)
Definition h_cap (x : handle) : Z :=
  match x with HMut b => bm_cap b | HBytes b => by_len b end.
Definition h_data (x : handle) : Ptr :=
  match x with HMut b => bm_data b | HBytes b => by_data b end.
Definition h_writes (x : handle) : bool :=
  match x with HMut _ => true | HBytes _ => false end.

Abbreviation entry := (handle * list byte)%type.

(** The handle's range lies in the vector, and its first [len] cells hold the
    bytes. *)
Definition shows (cells : list cell) (base : Z) (e : entry) : Prop :=
  let off := addr (h_ptr (fst e)) - base in
  0 ≤ off ∧ 0 ≤ h_len (fst e) ≤ h_cap (fst e) ∧ off + h_cap (fst e) ≤ zlen cells
  ∧ cells_load cells off (h_len (fst e)) = Some <$> snd e.

(** Two handles into the same vector have no cell in common, unless both only
    read. *)
Definition compat (e e' : entry) : Prop :=
  (h_writes (fst e) = false ∧ h_writes (fst e') = false)
  ∨ separate (addr (h_ptr (fst e))) (h_cap (fst e)) (addr (h_ptr (fst e'))) (h_cap (fst e')).

(** *** A handle that owns its vector *)

(** The word [data] of a [BytesMut]. *)
Definition vec_data (pos repr : Z) : Z := 32 * pos + 4 * repr + 1.

(** The word [data] of a [Bytes] made from a boxed slice. *)
Definition box_data (blk : positive) (base : Z) (vt : Vtable) : option Ptr :=
  if decide (vt = PROMOTABLE_EVEN_VTABLE ∧ base mod 2 = 0) then Some (mkPtr (Some blk) (base + 1))
  else if decide (vt = PROMOTABLE_ODD_VTABLE ∧ base mod 2 = 1) then Some (mkPtr (Some blk) base)
  else None.

Definition vec_handle (blk : positive) (base : Z) (cells : list cell) (e : entry) : Prop :=
  let off := addr (h_ptr (fst e)) - base in
  shows cells base e ∧ prov (h_ptr (fst e)) = Some blk ∧ off + h_cap (fst e) = zlen cells
  ∧ match fst e with
    | HMut b => off ≤ MAX_VEC_POS ∧ ∃ repr, 0 ≤ repr ≤ 7 ∧ bm_data b = mkPtr None (vec_data off repr)
    | HBytes b => 0 < zlen cells ∧ box_data blk base (by_vtable b) = Some (by_data b)
    end.

(** *** Handles that share a vector *)

(** The object that counts the handles. *)
Inductive counter :=
| CMut (vlen repr : Z)     (** the [Shared] of [bytes_mut.rs] *)
| CShared                  (** the [Shared] of [bytes.rs] *)
| COwned (vlen : Z).       (** the [Owned] of [bytes.rs] *)

Definition counter_obj (c : counter) (blk : positive) (base : Z) (cells : list cell) (n : Z) : obj :=
  let p := mkPtr (Some blk) base in
  match c with
  | CMut vlen repr => OShared (mkShared (mkRVec p (zlen cells) vlen) repr n)
  | CShared => OBShared (mkBShared p (zlen cells) n)
  | COwned vlen => OOwned (mkOwned n (mkRVec p (zlen cells) vlen))
  end.

Definition counter_ok (c : counter) (cells : list cell) : Prop :=
  match c with
  | CMut _ repr => 0 ≤ repr ≤ 7
  | CShared => 0 < zlen cells
  | COwned _ => True
  end.

(** Which handles a counter counts.  A promotable [Bytes] keeps its table when
    its word [data] becomes a counter. *)
Definition counts (c : counter) (x : handle) : Prop :=
  match c, x with
  | CMut _ _, HMut _ => True
  | CMut _ _, HBytes b => by_vtable b = MUT_SHARED_VTABLE
  | CShared, HBytes b =>
      by_vtable b = SHARED_VTABLE ∨ by_vtable b = PROMOTABLE_EVEN_VTABLE
      ∨ by_vtable b = PROMOTABLE_ODD_VTABLE
  | COwned _, HBytes b => by_vtable b = OWNED_VTABLE
  | _, HMut _ => False
  end.

Definition shared_handle (c : counter) (blk : positive) (base : Z) (cells : list cell)
    (sid : positive) (sa : Z) (e : entry) : Prop :=
  shows cells base e ∧ prov (h_ptr (fst e)) = Some blk ∧ h_data (fst e) = mkPtr (Some sid) sa
  ∧ counts c (fst e).

Record family (c : counter) (blk : positive) (base : Z) (cells : list cell) (sid : positive)
    (sa : Z) (S : list entry) : Prop := {
  fam_ids : sid ≠ blk;
  fam_handles : Forall (shared_handle c blk base cells sid sa) S;
  fam_compat : ForallOrdPairs compat S;
  fam_ok : counter_ok c cells;
  fam_count : 0 < zlen S ≤ 2 ^ 63;
}.

(** The families of [BytesMut] handles. *)
Abbreviation arc_handle := (shared_handle (CMut 0 0)).
Definition arc_family (blk : positive) (base : Z) (cells : list cell) (sid : positive) (sa : Z)
    (repr : Z) (S : list entry) : Prop := family (CMut 0 repr) blk base cells sid sa S.

(** ** Groups *)

(** An empty [Bytes] without an owner. *)
Definition empty_handle (e : entry) : Prop :=
  snd e = [] ∧ match fst e with
               | HMut _ => False
               | HBytes b => by_vtable b = STATIC_VTABLE ∧ by_len b = 0 ∧ by_data b = null
                            ∧ 0 < addr (by_ptr b) < 2 ^ 64
               end.

Inductive group : list entry → objects → Prop :=
| group_empty e : empty_handle e → group [e] ∅
| group_vec e blk base cells :
    zlen cells ≤ isize_max → vec_handle blk base cells e →
    group [e] {[blk := (base, OBytes cells)]}
| group_family c S blk base cells sid sa :
    zlen cells ≤ isize_max → family c blk base cells sid sa S →
    group S (<[sid := (sa, counter_obj c blk base cells (zlen S))]>
             {[blk := (base, OBytes cells)]}).

Inductive world : list entry → objects → Prop :=
| world_nil : world [] ∅
| world_group E o L hs : group E o → world L hs → o ##ₘ hs → world (E ++ L) (o ∪ hs)
| world_perm L L' hs : world L hs → L ≡ₚ L' → world L' hs.

#[global] Instance world_proper : Proper ((≡ₚ) ==> (=) ==> iff) world.
Proof.
  intros L L' HL hs _ <-. split; intros Hw; (eapply world_perm; [exact Hw|]); [done|by symmetry].
Qed.

(** The state of a program with the live handles [L]. *)
Definition live (L : list entry) (h : heap) : Prop := heap_ok h ∧ world L (objs h).

#[global] Instance live_proper : Proper ((≡ₚ) ==> (=) ==> iff) live.
Proof. intros L L' HL h _ <-. unfold live. by rewrite HL. Qed.

(** ** Lemmas *)

Lemma compat_sym e e' : compat e e' → compat e' e.
Proof. unfold compat, separate. intros [[]|]; [by left|right; lia]. Qed.

Lemma ForallOrdPairs_perm {A} (R : A → A → Prop) l l' :
  (∀ x y, R x y → R y x) → l ≡ₚ l' → ForallOrdPairs R l → ForallOrdPairs R l'.
Proof.
  intros Hsym Hp. induction Hp as [|x l l' Hp IH|x y l|l1 l2 l3 H1 IH1 H2 IH2]; intros Hl.
  - done.
  - inversion Hl as [|?? Hx Hl']; subst. constructor; [|by apply IH]. by rewrite <-Hp.
  - inversion Hl as [|?? Hy Hl']; subst. inversion Hl' as [|?? Hx Hl'']; subst.
    inversion Hy as [|?? Hyx Hyl]; subst. repeat constructor; auto.
  - auto.
Qed.

Lemma family_perm c blk base cells sid sa S S' :
  S ≡ₚ S' → family c blk base cells sid sa S → family c blk base cells sid sa S'.
Proof.
  intros Hp [? Hh Hc ? Hn]. split; [done|by rewrite <-Hp| |done|].
  - eapply ForallOrdPairs_perm; [apply compat_sym|done|done].
  - unfold zlen in *. by rewrite <-Hp.
Qed.

Lemma arc_family_perm blk base cells sid sa repr S S' :
  S ≡ₚ S' → arc_family blk base cells sid sa repr S → arc_family blk base cells sid sa repr S'.
Proof. apply family_perm. Qed.

(** A handle of a family, replaced by one in its range. *)
Lemma family_head c blk base cells sid sa e e' S :
  family c blk base cells sid sa (e :: S) → shared_handle c blk base cells sid sa e' →
  (∀ x, compat e x → compat e' x) → family c blk base cells sid sa (e' :: S).
Proof.
  intros [? Hh Hc ? Hn] He Hx. inversion Hh; inversion Hc; subst. split; try done.
  - by constructor.
  - constructor; [|done]. eapply Forall_impl; [|done]. auto.
Qed.

Lemma family_tail c blk base cells sid sa e S :
  family c blk base cells sid sa (e :: S) → S ≠ [] → family c blk base cells sid sa S.
Proof.
  intros [? Hh Hc ? Hn] Hne. inversion Hh; inversion Hc; subst. split; try done.
  unfold zlen in *. simpl in Hn. destruct S; [done|]. simpl in *. lia.
Qed.

Lemma group_perm E E' o : E ≡ₚ E' → group E o → group E' o.
Proof.
  intros Hp Hg. inversion Hg; subst.
  - apply Permutation_singleton_l in Hp. subst. by constructor.
  - apply Permutation_singleton_l in Hp. subst. by constructor.
  - replace (zlen E) with (zlen E') by (unfold zlen; by rewrite Hp).
    constructor; [done|]. by eapply family_perm.
Qed.

(** A handle of a world, the rest of its group and the rest of the world. *)
Lemma world_split L hs e R :
  world L hs → L ≡ₚ e :: R →
  ∃ E R' o hs', group (e :: E) o ∧ R ≡ₚ E ++ R' ∧ world R' hs' ∧ o ##ₘ hs' ∧ hs = o ∪ hs'.
Proof.
  intros Hw. revert R. induction Hw as [|E o L hs Hg Hw IH Hd|L L' hs Hw IH Hp]; intros R HL.
  - by apply Permutation_nil_cons in HL.
  - assert (e ∈ E ++ L) as [He|He]%elem_of_app by (rewrite HL; left).
    + apply elem_of_Permutation in He as [E' HE].
      exists E', L, o, hs. split_and!; try done; [by eapply group_perm|].
      apply (Permutation.Permutation_cons_inv (a:=e)). by rewrite <-HL, HE.
    + apply elem_of_Permutation in He as [L1 HL1].
      destruct (IH L1 HL1) as (E1 & R1 & o1 & hs1 & Hg1 & HR1 & Hw1 & Hd1 & ->).
      apply map_disjoint_union_r in Hd as [Hd2 Hd3].
      exists E1, (E ++ R1), o1, (o ∪ hs1). split_and!; try done.
      * apply (Permutation.Permutation_cons_inv (a:=e)). rewrite <-HL, HL1, HR1.
        rewrite (assoc_L (++) E1), (Permutation_app_comm E1 E), <-(assoc_L (++) E).
        by rewrite <-Permutation_middle.
      * by apply world_group.
      * by apply map_disjoint_union_r_2.
      * rewrite !(map_union_assoc), (map_union_comm o1 o); done.
  - apply IH. by rewrite Hp.
Qed.

(** ** The groups as insertions *)

Lemma world_empty e L hs : world L hs → empty_handle e → world (e :: L) hs.
Proof.
  intros Hw He. rewrite <-(map_empty_union hs).
  apply (world_group [e] ∅); [by constructor|done|apply map_disjoint_empty_l].
Qed.

Lemma world_vec e L hs blk base cells :
  world L hs → hs !! blk = None → zlen cells ≤ isize_max → vec_handle blk base cells e →
  world (e :: L) (<[blk := (base, OBytes cells)]> hs).
Proof.
  intros Hw Hb Hc Hv. rewrite insert_union_singleton_l.
  apply (world_group [e]); [by constructor|done|by apply map_disjoint_singleton_l].
Qed.

Lemma world_family c S L hs blk base cells sid sa :
  world L hs → hs !! blk = None → hs !! sid = None → zlen cells ≤ isize_max →
  family c blk base cells sid sa S →
  world (S ++ L) (<[sid := (sa, counter_obj c blk base cells (zlen S))]>
                  (<[blk := (base, OBytes cells)]> hs)).
Proof.
  intros Hw Hb Hs Hc Hf.
  rewrite (insert_union_singleton_l hs blk), insert_union_l.
  apply world_group; [by constructor|done|].
  apply map_disjoint_insert_l_2; [done|]. by apply map_disjoint_singleton_l.
Qed.

(** ** The places of a handle *)

(** It owns its vector. *)
Definition owns_vec (e : entry) (R : list entry) (hs : objects) : Prop :=
  ∃ hs' blk base cells, hs = <[blk := (base, OBytes cells)]> hs'
    ∧ world R hs' ∧ hs' !! blk = None ∧ zlen cells ≤ isize_max ∧ vec_handle blk base cells e.

(** It is in a family. *)
Definition in_family (e : entry) (R : list entry) (hs : objects) : Prop :=
  ∃ c hs' S R' blk base cells sid sa, R ≡ₚ S ++ R'
    ∧ hs = <[sid := (sa, counter_obj c blk base cells (zlen (e :: S)))]>
             (<[blk := (base, OBytes cells)]> hs')
    ∧ world R' hs' ∧ hs' !! blk = None ∧ hs' !! sid = None ∧ zlen cells ≤ isize_max
    ∧ family c blk base cells sid sa (e :: S).

Lemma world_inv e R hs :
  world (e :: R) hs → (empty_handle e ∧ world R hs) ∨ owns_vec e R hs ∨ in_family e R hs.
Proof.
  intros Hw. destruct (world_split _ _ e R Hw) as (E & R' & o & hs' & Hg & HR & Hw' & Hd & ->); [done|].
  inversion Hg as [e' He|e' blk base cells Hc Hv|c S blk base cells sid sa Hc Hf]; subst.
  - left. rewrite HR, map_empty_union. done.
  - right; left. exists hs', blk, base, cells. rewrite HR. split_and!; try done.
    + by rewrite <-insert_union_singleton_l.
    + by apply map_disjoint_singleton_l in Hd.
  - right; right. pose proof (fam_ids _ _ _ _ _ _ _ Hf) as Hids.
    apply map_disjoint_insert_l in Hd as [Hs Hb%map_disjoint_singleton_l].
    exists c, hs', E, R', blk, base, cells, sid, sa. split_and!; try done.
    by rewrite <-insert_union_l, <-insert_union_singleton_l.
Qed.

(** ** Families with a [BytesMut] *)

Lemma family_mut vlen vlen' repr blk base cells sid sa S :
  family (CMut vlen repr) blk base cells sid sa S → family (CMut vlen' repr) blk base cells sid sa S.
Proof. by intros []; split. Qed.

Section arc.
Context {blk : positive} {base : Z} {cells : list cell} {sid : positive} {sa repr : Z} {S : list entry}.
Context (Hf : arc_family blk base cells sid sa repr S).

Lemma arc_ids : sid ≠ blk.
Proof using Hf. by destruct Hf. Qed.
Lemma arc_handles : Forall (arc_handle blk base cells sid sa) S.
Proof using Hf. by destruct Hf. Qed.
Lemma arc_compat : ForallOrdPairs compat S.
Proof using Hf. by destruct Hf. Qed.
Lemma arc_repr : 0 ≤ repr ≤ 7.
Proof using Hf. by destruct Hf. Qed.
Lemma arc_count : 0 < zlen S ≤ 2 ^ 63.
Proof using Hf. by destruct Hf. Qed.
End arc.

Definition shares_vec (e : entry) (R : list entry) (hs : objects) : Prop :=
  ∃ hs' S R' blk base cells sid sa vlen repr, R ≡ₚ S ++ R'
    ∧ hs = <[sid := (sa, OShared (mkShared (mkRVec (mkPtr (Some blk) base) (zlen cells) vlen) repr
                                           (zlen (e :: S))))]>
             (<[blk := (base, OBytes cells)]> hs')
    ∧ world R' hs' ∧ hs' !! blk = None ∧ hs' !! sid = None ∧ zlen cells ≤ isize_max
    ∧ arc_family blk base cells sid sa repr (e :: S).

Lemma world_arc S L hs blk base cells sid sa vlen repr :
  world L hs → hs !! blk = None → hs !! sid = None → zlen cells ≤ isize_max →
  arc_family blk base cells sid sa repr S →
  world (S ++ L)
    (<[sid := (sa, OShared (mkShared (mkRVec (mkPtr (Some blk) base) (zlen cells) vlen) repr (zlen S)))]>
     (<[blk := (base, OBytes cells)]> hs)).
Proof. intros. apply (world_family (CMut vlen repr)); try done. by eapply family_mut. Qed.

(** A [BytesMut] owns its vector or shares it. *)
Lemma world_mut_inv b bs R hs :
  world ((HMut b, bs) :: R) hs → owns_vec (HMut b, bs) R hs ∨ shares_vec (HMut b, bs) R hs.
Proof.
  intros [[[_ []] _]|[?|(c & hs' & S & R' & blk & base & cells & sid & sa & HR & -> & ? & ? & ? & ? & Hf)]]%world_inv;
    [by left|right].
  pose proof (fam_handles _ _ _ _ _ _ _ Hf) as Hh. inversion Hh as [|?? (_ & _ & _ & Hc) _]; subst.
  destruct c as [vlen repr| |]; [|done|done].
  exists hs', S, R', blk, base, cells, sid, sa, vlen, repr. split_and!; try done.
  by eapply family_mut.
Qed.

(** Without handles, nothing is allocated. *)
Lemma live_nil h : live [] h → objs h = ∅.
Proof.
  intros [_ Hw]. remember [] as L eqn:HL. induction Hw as [|E o L hs Hg Hw IH Hd|L L' hs Hw IH HP].
  - done.
  - apply app_eq_nil in HL as [-> ->]. inversion Hg; subst. by destruct (fam_count _ _ _ _ _ _ _ H0).
  - subst. apply IH. by apply Permutation_nil_r.
Qed.

(** ** Giving up a handle of a family *)

(** One of several: the counter goes down. *)
Lemma live_drop_one c e S R' h hs blk base cells sid sa n :
  heap_ok h →
  objs h = <[sid := (sa, counter_obj c blk base cells n)]> (<[blk := (base, OBytes cells)]> hs) →
  world R' hs → hs !! blk = None → hs !! sid = None → zlen cells ≤ isize_max →
  family c blk base cells sid sa (e :: S) → S ≠ [] →
  live (S ++ R') (mkHeap (<[sid := (sa, counter_obj c blk base cells (zlen S))]> (objs h)) (next h)).
Proof.
  intros Hok Hh HR Hb Hs Hc Hf Hne. split.
  - apply (heap_ok_update h sid sa (counter_obj c blk base cells n));
      [done|rewrite Hh; apply lookup_insert_eq|by destruct c..].
  - simpl. rewrite Hh, insert_insert_eq. apply world_family; try done. by eapply family_tail.
Qed.

(** The last one: the counter and the vector go. *)
Lemma live_drop_last R' h hs blk sid x y z :
  heap_ok h → objs h = <[sid := x]> (<[blk := y]> hs) → hs !! blk = None → hs !! sid = None →
  sid ≠ blk → world R' hs →
  live R' (mkHeap (delete sid (delete blk (<[sid := z]> (objs h)))) (next h)).
Proof.
  intros Hok Hh Hb Hs Hne HR.
  assert (delete sid (delete blk (<[sid := z]> (objs h))) = hs) as E.
  { rewrite Hh, insert_insert_eq, (delete_insert_ne _ blk sid) by done.
    by rewrite (delete_insert_id hs), delete_insert_id. }
  assert (delete sid (delete blk (objs h)) = hs) as E'.
  { rewrite Hh, (delete_insert_ne _ blk sid) by done.
    by rewrite (delete_insert_id hs), delete_insert_id. }
  split; simpl; rewrite E; [|done]. rewrite <-E'.
  exact (heap_ok_free _ sid (heap_ok_free h blk Hok)).
Qed.
