(* ===== verification/BytesMutSpec.v ===== *)
(** * What the operations of [BytesMut] do

    Every operation is specified on the program state [live L h]: it changes the
    byte string of the handle it is called on as documented, keeps those of all
    the other handles, has no undefined behaviour, and leaks nothing. *)

From S2P Require Import Prelude RustVec Mem BytesMut World.

(** ** The word [data] *)

Section data_word.
Context (pos repr : Z) (Hpos : 0 ≤ pos ≤ MAX_VEC_POS) (Hrepr : 0 ≤ repr ≤ 7).

Lemma max_vec_pos_val : MAX_VEC_POS = 2 ^ 59 - 1.
Proof using Type. done. Qed.

Lemma lor_low p low : 0 ≤ low < 32 → Z.lor (Z.shiftl p 5) low = 32 * p + low.
Proof using Type.
  intros Hl. rewrite <-Z.add_nocarry_lor.
  - rewrite Z.shiftl_mul_pow2 by lia. lia.
  - apply Z.bits_inj'. intros n Hn. rewrite Z.land_spec, Z.bits_0.
    destruct (Z.ltb_spec n 5).
    + by rewrite Z.shiftl_spec_low.
    + rewrite andb_comm, <-(Z.mod_small low (2 ^ 5)) by lia.
      by rewrite Z.mod_pow2_bits_high by lia.
Qed.

Lemma vec_data_bound : 0 ≤ vec_data pos repr < 2 ^ 64.
Proof using Hpos Hrepr. rewrite max_vec_pos_val in Hpos. unfold vec_data. lia. Qed.

Lemma vec_data_kind : Z.land (vec_data pos repr) KIND_MASK = KIND_VEC.
Proof using Type.
  unfold vec_data, KIND_MASK, KIND_VEC. change 1 with (Z.ones 1) at 2.
  rewrite Z.land_ones by lia. dlia.
Qed.

Lemma vec_data_pos : Z.shiftr (vec_data pos repr) VEC_POS_OFFSET = pos.
Proof using Hrepr.
  unfold vec_data, VEC_POS_OFFSET. rewrite Z.shiftr_div_pow2 by lia. dlia.
Qed.

Lemma vec_data_low : Z.land (vec_data pos repr) NOT_VEC_POS_MASK = 4 * repr + 1.
Proof using Hrepr.
  unfold vec_data, NOT_VEC_POS_MASK. change 31 with (Z.ones 5).
  rewrite Z.land_ones by lia. dlia.
Qed.

(** [set_vec_pos] *)
Lemma vec_data_set pos' :
  0 ≤ pos' ≤ MAX_VEC_POS →
  invalid_ptr (Z.lor (uwrap 64 (Z.shiftl pos' VEC_POS_OFFSET))
                     (Z.land (vec_data pos repr) NOT_VEC_POS_MASK))
  = mkPtr None (vec_data pos' repr).
Proof using Hrepr.
  intros Hp. rewrite max_vec_pos_val in Hp. rewrite vec_data_low. unfold VEC_POS_OFFSET, uwrap.
  rewrite (Z.mod_small (Z.shiftl _ _)), lor_low by (rewrite ?Z.shiftl_mul_pow2; lia).
  unfold invalid_ptr, uwrap, vec_data. f_equal. rewrite Z.mod_small; lia.
Qed.

Lemma vec_data_new :
  invalid_ptr (Z.lor (Z.shiftl repr ORIGINAL_CAPACITY_OFFSET) KIND_VEC)
  = mkPtr None (vec_data 0 repr).
Proof using Hrepr.
  clear Hpos pos. unfold invalid_ptr, ORIGINAL_CAPACITY_OFFSET, KIND_VEC, vec_data, uwrap. f_equal.
  assert (repr ∈ [0;1;2;3;4;5;6;7]) as Hin by (set_unfold; lia).
  set_unfold in Hin. by destruct_or! Hin; subst repr.
Qed.

Lemma vec_data_repr :
  Z.shiftr (Z.land (vec_data pos repr) ORIGINAL_CAPACITY_MASK) ORIGINAL_CAPACITY_OFFSET = repr.
Proof using Hrepr.
  clear Hpos. replace ORIGINAL_CAPACITY_MASK with (Z.land NOT_VEC_POS_MASK 28) by done.
  rewrite Z.land_assoc, vec_data_low.
  assert (repr ∈ [0;1;2;3;4;5;6;7]) as Hin by (set_unfold; lia).
  set_unfold in Hin. by destruct_or! Hin; subst repr.
Qed.
End data_word.

Lemma arc_data_kind sa : sa mod 8 = 0 → Z.land sa KIND_MASK = KIND_ARC.
Proof.
  intros. unfold KIND_MASK, KIND_ARC. change 1 with (Z.ones 1).
  rewrite Z.land_ones by lia. dlia.
Qed.

Lemma original_capacity_to_repr_range cap : 0 ≤ cap → 0 ≤ original_capacity_to_repr cap ≤ 7.
Proof.
  intros Hc. unfold original_capacity_to_repr, leading_zeros, PTR_WIDTH. simpl.
  destruct (Z.eqb_spec (Z.shiftr cap MIN_ORIGINAL_CAPACITY_WIDTH) 0); [by simpl|].
  pose proof (Z.log2_nonneg (Z.shiftr cap MIN_ORIGINAL_CAPACITY_WIDTH)).
  unfold MAX_ORIGINAL_CAPACITY_WIDTH, MIN_ORIGINAL_CAPACITY_WIDTH in *. lia.
Qed.

(** ** Handles, taken apart *)

Lemma vec_handle_inv blk base cells b bs :
  vec_handle blk base cells (HMut b, bs) →
  ∃ off repr, b = mkBytesMut (mkPtr (Some blk) (base + off)) (zlen bs) (zlen cells - off)
                    (mkPtr None (vec_data off repr))
    ∧ 0 ≤ off ≤ MAX_VEC_POS ∧ 0 ≤ repr ≤ 7 ∧ off + zlen bs ≤ zlen cells
    ∧ cells_load cells off (zlen bs) = Some <$> bs.
Proof.
  destruct b as [[pr ad] len cap data]. unfold vec_handle, shows. simpl.
  intros ((Hoff & Hlen & Hcap & Hload) & -> & Hall & Hmax & repr & Hrepr & ->).
  assert (len = zlen bs) as ->.
  { apply (f_equal zlen) in Hload. rewrite zlen_load in Hload by lia.
    unfold zlen in Hload at 1. by rewrite length_fmap in Hload. }
  exists (ad - base), repr. split; [f_equal; [f_equal; lia|lia]|].
  split_and!; try done; lia.
Qed.

Lemma vec_handle_intro blk base cells off repr bs :
  0 ≤ off ≤ MAX_VEC_POS → 0 ≤ repr ≤ 7 → off + zlen bs ≤ zlen cells →
  cells_load cells off (zlen bs) = Some <$> bs →
  vec_handle blk base cells
    (HMut (mkBytesMut (mkPtr (Some blk) (base + off)) (zlen bs) (zlen cells - off)
       (mkPtr None (vec_data off repr))), bs).
Proof.
  intros. unfold vec_handle, shows. simpl. replace (base + off - base) with off by lia.
  pose proof (zlen_nonneg bs). split_and!; try done; try lia. by exists repr.
Qed.

Lemma arc_handle_inv blk base cells sid sa b bs :
  arc_handle blk base cells sid sa (HMut b, bs) →
  ∃ off cap, b = mkBytesMut (mkPtr (Some blk) (base + off)) (zlen bs) cap (mkPtr (Some sid) sa)
    ∧ 0 ≤ off ∧ zlen bs ≤ cap ∧ off + cap ≤ zlen cells
    ∧ cells_load cells off (zlen bs) = Some <$> bs.
Proof.
  destruct b as [[pr ad] len cap data]. unfold shared_handle, shows. simpl.
  intros ((Hoff & Hlen & Hcap & Hload) & -> & -> & _).
  assert (len = zlen bs) as ->.
  { apply (f_equal zlen) in Hload. rewrite zlen_load in Hload by lia.
    unfold zlen in Hload at 1. by rewrite length_fmap in Hload. }
  exists (ad - base), cap. split; [do 2 f_equal; lia|]. split_and!; try done; lia.
Qed.

Lemma arc_handle_intro blk base cells sid sa off cap bs :
  0 ≤ off → zlen bs ≤ cap → off + cap ≤ zlen cells →
  cells_load cells off (zlen bs) = Some <$> bs →
  arc_handle blk base cells sid sa
    (HMut (mkBytesMut (mkPtr (Some blk) (base + off)) (zlen bs) cap (mkPtr (Some sid) sa)), bs).
Proof.
  intros. unfold shared_handle, shows. simpl. replace (base + off - base) with off by lia.
  pose proof (zlen_nonneg bs). split_and!; try done; lia.
Qed.

(** The other handles of a family do not see a store into a range that is
    separate from theirs, nor more cells at the end. *)
Lemma shared_handle_store c blk base cells sid sa e i new :
  0 ≤ i → i + zlen new ≤ zlen cells →
  separate (base + i) (zlen new) (addr (h_ptr (fst e))) (h_cap (fst e)) →
  shared_handle c blk base cells sid sa e →
  shared_handle c blk base (cells_store cells i new) sid sa e.
Proof.
  intros Hi Hn Hs ((? & ? & ? & Hload) & ?). split; [|done].
  unfold shows. rewrite zlen_store by done. split_and!; [lia..|].
  rewrite load_store_separate; [done|done|done|done|lia|]. unfold separate in *. lia.
Qed.

(** The ways an operation on a [BytesMut] may stop: the allocator refuses. *)
Definition bm_stop (s : stop) : Prop := s = SAbort ∨ s = SPanic PCapacity.

Lemma bm_stop_abort : bm_stop SAbort.
Proof. by left. Qed.
Lemma bm_stop_capacity : bm_stop (SPanic PCapacity).
Proof. by right. Qed.
#[export] Hint Resolve bm_stop_abort bm_stop_capacity : chiya.

(** ** The two forms of a live handle *)

(** The handle owns its vector. *)
Definition at_vec (b : BytesMut) (bs : list byte) (R : list entry) (h : heap)
    (hs : objects) (blk : positive) (base : Z) (cells : list cell) (off repr : Z) : Prop :=
  objs h = <[blk := (base, OBytes cells)]> hs ∧ world R hs ∧ hs !! blk = None
  ∧ zlen cells ≤ isize_max
  ∧ b = mkBytesMut (mkPtr (Some blk) (base + off)) (zlen bs) (zlen cells - off)
          (mkPtr None (vec_data off repr))
  ∧ 0 ≤ off ≤ MAX_VEC_POS ∧ 0 ≤ repr ≤ 7 ∧ off + zlen bs ≤ zlen cells
  ∧ cells_load cells off (zlen bs) = Some <$> bs.

(** The handle is one of those of a [Shared], with [S] the others; [count] is the
    value of the reference count. *)
Definition at_arc (b : BytesMut) (bs : list byte) (S R' : list entry) (h : heap)
    (hs : objects) (blk : positive) (base : Z) (cells : list cell) (sid : positive) (sa : Z)
    (vlen repr off cap count : Z) : Prop :=
  objs h = <[sid := (sa, OShared (mkShared (mkRVec (mkPtr (Some blk) base) (zlen cells) vlen)
                                           repr count))]>
             (<[blk := (base, OBytes cells)]> hs)
  ∧ world R' hs ∧ hs !! blk = None ∧ hs !! sid = None ∧ zlen cells ≤ isize_max
  ∧ b = mkBytesMut (mkPtr (Some blk) (base + off)) (zlen bs) cap (mkPtr (Some sid) sa)
  ∧ arc_family blk base cells sid sa repr ((HMut b, bs) :: S)
  ∧ 0 ≤ off ∧ zlen bs ≤ cap ∧ off + cap ≤ zlen cells
  ∧ cells_load cells off (zlen bs) = Some <$> bs
  ∧ sa mod 8 = 0.

(** The block of a handle is where its pointer says. *)
Lemma at_vec_lookup b bs R h hs blk base cells off repr :
  at_vec b bs R h hs blk base cells off repr → objs h !! blk = Some (base, OBytes cells).
Proof. intros (-> & _). apply lookup_insert_eq. Qed.

Lemma at_arc_lookup b bs S R' h hs blk base cells sid sa vlen repr off cap count :
  at_arc b bs S R' h hs blk base cells sid sa vlen repr off cap count →
  objs h !! blk = Some (base, OBytes cells)
  ∧ objs h !! sid = Some (sa, OShared (mkShared
      (mkRVec (mkPtr (Some blk) base) (zlen cells) vlen) repr count)).
Proof.
  intros (-> & _ & _ & _ & _ & _ & Hf & _). pose proof (arc_ids Hf).
  rewrite lookup_insert_ne, !lookup_insert_eq by done. done.
Qed.

Lemma live_inv b bs R h :
  live ((HMut b, bs) :: R) h →
  heap_ok h
  ∧ ((∃ hs blk base cells off repr, at_vec b bs R h hs blk base cells off repr)
     ∨ (∃ S R' hs blk base cells sid sa vlen repr off cap, R ≡ₚ S ++ R'
          ∧ at_arc b bs S R' h hs blk base cells sid sa vlen repr off cap (zlen S + 1))).
Proof.
  intros [Hok Hw]. split; [done|].
  apply world_mut_inv in Hw as
    [(hs & blk & base & cells & Hh & HR & Hb & Hc & Hv)
    |(hs & S & R' & blk & base & cells & sid & sa & vlen & repr & HS & Hh & HR & Hb & Hs & Hc & Hf)].
  - left. apply vec_handle_inv in Hv as (off & repr & Hv).
    exists hs, blk, base, cells, off, repr. unfold at_vec. by destruct Hv.
  - right. pose proof (arc_handles Hf) as Hall. inversion Hall as [|?? Hv _]; subst.
    apply arc_handle_inv in Hv as (off & cap & Hv).
    exists S, R', hs, blk, base, cells, sid, sa, vlen, repr, off, cap. split; [done|].
    assert (zlen ((HMut b, bs) :: S) = zlen S + 1) as Hlen by (unfold zlen; simpl; lia).
    rewrite Hlen in Hh.
    assert (sa mod 8 = 0).
    { assert (objs h !! sid = Some (sa, OShared (mkShared
        (mkRVec (mkPtr (Some blk) base) (zlen cells) vlen) repr (zlen S + 1)))) as Hk
        by (rewrite Hh; apply lookup_insert_eq).
      by destruct (ok_obj h Hok _ _ _ Hk) as (_ & ? & _). }
    destruct Hv as (? & ? & ? & ? & ?). unfold at_arc. by split_and!.
Qed.

Lemma live_len b bs R h :
  live ((HMut b, bs) :: R) h → bm_len b = zlen bs ∧ bm_len b ≤ bm_cap b ∧ bm_cap b ≤ isize_max.
Proof.
  intros [_ [(?&?&?&?&?&?&(_&_&_&?&->&?&_&?&_))
    |(?&?&?&?&?&?&?&?&?&?&?&?&_&(_&_&_&_&?&->&_&?&?&?&_))]]%live_inv; simpl; split_and!; lia.
Qed.

Lemma live_vec R h hs blk base cells off repr bs :
  heap_ok h → objs h = <[blk := (base, OBytes cells)]> hs → world R hs → hs !! blk = None →
  zlen cells ≤ isize_max → 0 ≤ off ≤ MAX_VEC_POS → 0 ≤ repr ≤ 7 → off + zlen bs ≤ zlen cells →
  cells_load cells off (zlen bs) = Some <$> bs →
  live ((HMut (mkBytesMut (mkPtr (Some blk) (base + off)) (zlen bs) (zlen cells - off)
          (mkPtr None (vec_data off repr))), bs) :: R) h.
Proof.
  intros Hok Hh HR Hb Hc Hoff Hrepr Hl Hload. split; [done|]. rewrite Hh.
  apply world_vec; [done..|]. by apply vec_handle_intro.
Qed.

Lemma live_arc S R R' h hs blk base cells sid sa vlen repr count :
  heap_ok h →
  objs h = <[sid := (sa, OShared (mkShared (mkRVec (mkPtr (Some blk) base) (zlen cells) vlen)
                                           repr count))]>
             (<[blk := (base, OBytes cells)]> hs) →
  world R' hs → hs !! blk = None → hs !! sid = None → zlen cells ≤ isize_max →
  arc_family blk base cells sid sa repr S → count = zlen S → R ≡ₚ S ++ R' →
  live R h.
Proof.
  intros Hok Hh HR Hb Hs Hc Hf -> Hp. rewrite Hp. split; [done|]. rewrite Hh.
  by apply (world_arc S R' hs blk base cells sid sa vlen repr).
Qed.

(** A handle that writes keeps apart from every other handle of its family. *)
Lemma compat_mut b bs e :
  compat (HMut b, bs) e ↔
  separate (addr (bm_ptr b)) (bm_cap b) (addr (h_ptr (fst e))) (h_cap (fst e)).
Proof. unfold compat. simpl. split; [intros [[]|]; done|by right]. Qed.

(** ** Rules for the helpers *)

Section rules.
Context `{Build} `{Hal : AllocatorLaws}.

Lemma wpm_vptr p h E (Q : Ptr → heap → Prop) : addr p ≠ 0 → Q p h → wpm (vptr p) h E Q.
Proof. intros Hp HQ. unfold vptr. by rewrite (proj2 (Z.eqb_neq _ _)). Qed.

Lemma wpm_rebuild_vec blk base cells off len cap h E (Q : RVec → heap → Prop) :
  objs h !! blk = Some (base, OBytes cells) → zlen cells ≤ isize_max →
  0 ≤ off → 0 ≤ len ≤ cap → off + cap = zlen cells →
  Q (mkRVec (mkPtr (Some blk) base) (zlen cells) (off + len)) h →
  wpm (rebuild_vec (mkPtr (Some blk) (base + off)) len cap off) h E Q.
Proof.
  intros Hk Hm Hoff Hlen Hcap HQ. unfold isize_max in *. unfold rebuild_vec.
  apply wpm_bind. eapply wpm_ptr_offset; [done|lia|lia|].
  apply wpm_bind, wpm_usize_add; [lia|]. apply wpm_bind, wpm_usize_add; [lia|].
  apply wpm_ret. replace (base + (off + - off)) with base by lia.
  replace (cap + off) with (zlen cells) by lia. by rewrite (Z.add_comm len).
Qed.

Lemma kind_vec p len cap off repr :
  kind (mkBytesMut p len cap (mkPtr None (vec_data off repr))) = KIND_VEC.
Proof. apply vec_data_kind. Qed.

Lemma kind_arc p len cap sid sa :
  sa mod 8 = 0 → kind (mkBytesMut p len cap (mkPtr (Some sid) sa)) = KIND_ARC.
Proof. apply arc_data_kind. Qed.

Lemma wpm_get_vec_pos p len cap off repr h E (Q : Z → heap → Prop) :
  0 ≤ repr ≤ 7 → Q off h →
  wpm (get_vec_pos (mkBytesMut p len cap (mkPtr None (vec_data off repr)))) h E Q.
Proof.
  intros Hr HQ. unfold get_vec_pos. rewrite kind_vec.
  apply wpm_bind, wpm_debug_assert; [done|]. simpl. by rewrite vec_data_pos.
Qed.

Lemma wpm_set_vec_pos p len cap off repr pos h E (Q : BytesMut → heap → Prop) :
  0 ≤ repr ≤ 7 → 0 ≤ pos ≤ MAX_VEC_POS →
  Q (mkBytesMut p len cap (mkPtr None (vec_data pos repr))) h →
  wpm (set_vec_pos (mkBytesMut p len cap (mkPtr None (vec_data off repr))) pos) h E Q.
Proof.
  intros Hr Hp HQ. unfold set_vec_pos. rewrite kind_vec.
  apply wpm_bind, wpm_debug_assert; [done|].
  apply wpm_bind, wpm_debug_assert; [by rewrite (proj2 (Z.leb_le _ _)) by lia|].
  apply wpm_ret. simpl. by rewrite vec_data_set.
Qed.

Lemma wpm_promote blk base cells off len repr rc h (Q : BytesMut → heap → Prop) :
  heap_ok h → objs h !! blk = Some (base, OBytes cells) → zlen cells ≤ isize_max →
  0 ≤ off → 0 ≤ len → off + len ≤ zlen cells → 0 ≤ repr ≤ 7 → rc = 1 ∨ rc = 2 →
  let p := mkPtr (Some blk) (base + off) in
  (∀ sa, let s := mkShared (mkRVec (mkPtr (Some blk) base) (zlen cells) (off + len)) repr rc in
    sa mod 8 = 0 → heap_ok (alloc_heap h sa (OShared s)) →
    Q (mkBytesMut p len (zlen cells - off) (mkPtr (Some (next h)) sa))
      (alloc_heap h sa (OShared s))) →
  wpm (promote_to_shared (mkBytesMut p len (zlen cells - off) (mkPtr None (vec_data off repr))) rc)
    h bm_stop Q.
Proof using Hal.
  intros Hok Hk Hm Hoff Hlen Hl Hrepr Hrc p HQ. subst p.
  unfold promote_to_shared. simpl. rewrite kind_vec.
  apply wpm_bind, wpm_debug_assert; [done|].
  apply wpm_bind, wpm_debug_assert; [by destruct Hrc as [-> | ->]|].
  rewrite vec_data_repr, vec_data_pos by done.
  apply wpm_bind. eapply wpm_rebuild_vec; [done|done|lia|lia|lia|].
  apply wpm_bind. unfold box_shared. apply wpm_alloc_obj; [auto with chiya|done|].
  intros sa (_ & Ha & _) Hok'. simpl in Ha.
  apply wpm_bind, wpm_debug_assert; [simpl; by rewrite arc_data_kind|].
  apply wpm_ret. by apply HQ.
Qed.

(** [advance_unchecked] on a handle of a [Shared] only moves the handle. *)
Lemma wpm_advance_arc blk base cells off len cap sid sa cnt h E (Q : BytesMut → heap → Prop) :
  objs h !! blk = Some (base, OBytes cells) → 0 < base → sa mod 8 = 0 →
  zlen cells ≤ isize_max → 0 ≤ off → off + cap ≤ zlen cells → 0 ≤ len ≤ cap →
  0 ≤ cnt ≤ cap →
  Q (mkBytesMut (mkPtr (Some blk) (base + (off + cnt))) (Z.max 0 (len - cnt)) (cap - cnt)
       (mkPtr (Some sid) sa)) h →
  wpm (advance_unchecked (mkBytesMut (mkPtr (Some blk) (base + off)) len cap
         (mkPtr (Some sid) sa)) cnt) h E Q.
Proof.
  intros Hk Hb Hsa Hm Hoff Hcap Hlen Hcnt HQ. unfold isize_max in *. unfold advance_unchecked.
  destruct (Z.eqb_spec cnt 0) as [->|].
  { apply wpm_ret. rewrite Z.add_0_r, !Z.sub_0_r, Z.max_r in HQ by lia. exact HQ. }
  simpl bm_cap. apply wpm_bind, wpm_debug_assert; [by rewrite (proj2 (Z.leb_le _ _)) by lia|].
  rewrite kind_arc by done. apply wpm_bind, wpm_ret. simpl.
  apply wpm_bind. eapply wpm_ptr_offset; [done|lia|lia|].
  apply wpm_bind, wpm_vptr; [simpl; lia|].
  apply wpm_bind, wpm_usize_sub; [lia|]. apply wpm_ret.
  replace (match checked_sub len cnt with Some l => l | None => 0 end) with (Z.max 0 (len - cnt));
    [done|]. unfold checked_sub. destruct (Z.leb_spec cnt len); lia.
Qed.
End rules.

(** ** A vector the handle is the last to share *)

Lemma single_family blk base cells sid sa repr off cap (bs : list byte) :
  sid ≠ blk → 0 ≤ repr ≤ 7 → 0 ≤ off → zlen bs ≤ cap → off + cap ≤ zlen cells →
  cells_load cells off (zlen bs) = Some <$> bs →
  arc_family blk base cells sid sa repr
    [(HMut (mkBytesMut (mkPtr (Some blk) (base + off)) (zlen bs) cap (mkPtr (Some sid) sa)), bs)].
Proof.
  intros. split; [done| | |done|done].
  - constructor; [by apply arc_handle_intro|done].
  - repeat constructor.
Qed.

(** The last handle of a [Shared], with its vector at [blk]. *)
Lemma live_last R h hs blk base cells sid sa vlen repr off cap bs :
  heap_ok h →
  objs h = <[sid := (sa, OShared (mkShared (mkRVec (mkPtr (Some blk) base) (zlen cells) vlen)
                                           repr 1))]>
             (<[blk := (base, OBytes cells)]> hs) →
  world R hs → hs !! blk = None → hs !! sid = None → zlen cells ≤ isize_max →
  sid ≠ blk → 0 ≤ repr ≤ 7 → 0 ≤ off → zlen bs ≤ cap → off + cap ≤ zlen cells →
  cells_load cells off (zlen bs) = Some <$> bs →
  live ((HMut (mkBytesMut (mkPtr (Some blk) (base + off)) (zlen bs) cap
          (mkPtr (Some sid) sa)), bs) :: R) h.
Proof.
  intros Hok Hh HR Hb Hs Hm ??????.
  set (e := (HMut (mkBytesMut _ _ _ _), bs)).
  eapply (live_arc [e] _ R); [done|exact Hh|done..| |done|done]. by apply single_family.
Qed.

(** ** Splitting *)

Section specs.
Context `{Build} `{Hal : AllocatorLaws}.

Lemma at_vec_base b bs R h hs blk base cells off repr :
  heap_ok h → at_vec b bs R h hs blk base cells off repr →
  0 < base ∧ base + zlen cells < 2 ^ 64.
Proof.
  intros Hok Hat%at_vec_lookup. by destruct (ok_obj h Hok _ _ _ Hat) as (? & _ & ?).
Qed.

Lemma at_arc_base b bs S R' h hs blk base cells sid sa vlen repr off cap count :
  heap_ok h → at_arc b bs S R' h hs blk base cells sid sa vlen repr off cap count →
  0 < base ∧ base + zlen cells < 2 ^ 64.
Proof.
  intros Hok [Hat _]%at_arc_lookup. by destruct (ok_obj h Hok _ _ _ Hat) as (? & _ & ?).
Qed.

(** A vector that has just been promoted, with [count] handles. *)
Lemma promoted_at_arc b bs R h hs blk base cells off repr sa count :
  heap_ok h → at_vec b bs R h hs blk base cells off repr → sa mod 8 = 0 →
  let s := mkShared (mkRVec (mkPtr (Some blk) base) (zlen cells) (off + zlen bs)) repr count in
  at_arc (mkBytesMut (bm_ptr b) (bm_len b) (bm_cap b) (mkPtr (Some (next h)) sa)) bs [] R
    (alloc_heap h sa (OShared s)) hs blk base cells (next h) sa (off + zlen bs) repr off
    (zlen cells - off) count.
Proof.
  intros Hok (Hh & HR & Hb & Hm & -> & Hoff & Hrepr & Hl & Hload) Hsa s.
  pose proof (heap_ok_fresh h Hok) as Hfresh. rewrite Hh in Hfresh.
  apply lookup_insert_None in Hfresh as [Hf1 Hf2].
  pose proof (zlen_nonneg bs). unfold at_arc, s. simpl. rewrite Hh.
  assert (arc_family blk base cells (next h) sa repr
    [(HMut (mkBytesMut (mkPtr (Some blk) (base + off)) (zlen bs) (zlen cells - off)
       (mkPtr (Some (next h)) sa)), bs)]) as Hf.
  { split; [congruence| | |done|done].
    - constructor; [|done]. apply arc_handle_intro; (done || lia).
    - repeat constructor. }
  split_and!; (done || lia).
Qed.

Lemma shallow_clone_ok b bs R h :
  live ((HMut b, bs) :: R) h →
  wpm (shallow_clone b) h bm_stop (λ '(b1, b2) h',
    b1 = b2 ∧ bm_ptr b1 = bm_ptr b ∧ bm_len b1 = bm_len b ∧ bm_cap b1 = bm_cap b
    ∧ heap_ok h'
    ∧ ∃ S R' hs blk base cells sid sa vlen repr off cap, R ≡ₚ S ++ R' ∧ zlen S + 2 ≤ 2 ^ 63
      ∧ at_arc b1 bs S R' h' hs blk base cells sid sa vlen repr off cap (zlen S + 2)).
Proof using Hal.
  intros [Hok [(hs & blk & base & cells & off & repr & Hat)
    |(S & R' & hs & blk & base & cells & sid & sa & vlen & repr & off & cap & HR & Hat)]]%live_inv;
    unfold shallow_clone.
  - pose proof Hat as (_ & _ & _ & _ & Eb & _). rewrite Eb at 1. rewrite kind_vec. simpl.
    pose proof (at_vec_lookup _ _ _ _ _ _ _ _ _ _ Hat) as Hk.
    pose proof Hat as (_ & _ & _ & ? & _ & ? & ? & ? & _). pose proof (zlen_nonneg bs).
    rewrite Eb. apply wpm_bind. eapply wpm_promote; [done|done|done|lia|lia|lia|done|by right|].
    intros sa s Hsa Hok'. apply wpm_ret. split_and!; [done..|].
    exists [], R, hs, blk, base, cells, (next h), sa. do 4 eexists.
    split_and!; [done|done|]. rewrite Eb in Hat. by apply (promoted_at_arc _ _ _ _ _ _ _ _ _ _ _ _ Hok Hat).
  - pose proof (at_arc_lookup _ _ _ _ _ _ _ _ _ _ _ _ _ _ _ _ Hat) as [Hk Hs].
    pose proof Hat as (Hh & HR' & Hb & Hs' & Hm & Eb & Hf & ? & ? & ? & ? & Hsa).
    rewrite Eb at 1. rewrite kind_arc by done. simpl.
    pose proof (arc_count Hf) as Hcount.
    replace (zlen ((HMut b, bs) :: S)) with (zlen S + 1) in Hcount by (unfold zlen; simpl; lia).
    apply wpm_bind. unfold increment_shared. rewrite Eb. simpl.
    apply wpm_bind. eapply wpm_get_shared; [done|].
    apply wpm_bind. eapply wpm_set_shared; [done|]. simpl.
    destruct (Z.ltb_spec isize_max (zlen S + 1)); [by left|]. unfold isize_max in *.
    apply wpm_ret. apply wpm_ret. split_and!; [done..| |].
    { by eapply heap_ok_update. }
    exists S, R', hs, blk, base, cells, sid, sa, vlen, repr, off, cap.
    split_and!; [done|lia|]. unfold at_arc. simpl. rewrite Hh, insert_insert_eq.
    unfold uwrap. rewrite Z.mod_small by lia. replace (zlen S + 1 + 1) with (zlen S + 2) by lia.
    rewrite <-Eb. by split_and!.
Qed.

Lemma cells_load_sub cells off len (bs : list byte) cnt :
  0 ≤ off → cells_load cells off len = Some <$> bs → zlen bs = len → 0 ≤ cnt →
  cells_load cells (off + cnt) (Z.max 0 (len - cnt)) = Some <$> zdrop cnt bs.
Proof.
  intros Hoff Hload Hlen Hcnt. destruct (Z.le_gt_cases cnt len).
  - rewrite Z.max_r, load_zdrop, Hload by lia. unfold zdrop. by rewrite fmap_drop.
  - rewrite Z.max_l by lia. by rewrite load_0, zdrop_all by lia.
Qed.

(** The handle at [cnt] and the one before it, in place of the whole. *)
Lemma split_family blk base cells sid sa repr bs S off cap at_ :
  0 ≤ off → zlen bs ≤ cap → off + cap ≤ zlen cells →
  cells_load cells off (zlen bs) = Some <$> bs →
  0 ≤ at_ ≤ cap → zlen S + 2 ≤ 2 ^ 63 →
  let whole := mkBytesMut (mkPtr (Some blk) (base + off)) (zlen bs) cap (mkPtr (Some sid) sa) in
  let front := mkBytesMut (mkPtr (Some blk) (base + off)) (Z.min (zlen bs) at_) at_
                 (mkPtr (Some sid) sa) in
  let back := mkBytesMut (mkPtr (Some blk) (base + (off + at_))) (Z.max 0 (zlen bs - at_))
                (cap - at_) (mkPtr (Some sid) sa) in
  arc_family blk base cells sid sa repr ((HMut whole, bs) :: S) →
  arc_family blk base cells sid sa repr
    ((HMut front, ztake at_ bs) :: (HMut back, zdrop at_ bs) :: S).
Proof.
  intros Hoff Hlen Hcap Hload Hat Hn whole front back [Hids Hh Hc Hr _].
  inversion Hh as [|?? _ HhS]; inversion Hc as [|?? HcS HcSS]; subst.
  assert (zlen (ztake at_ bs) = Z.min (zlen bs) at_) as Hf by (rewrite zlen_ztake; lia).
  assert (zlen (zdrop at_ bs) = Z.max 0 (zlen bs - at_)) as Hbk by (rewrite zlen_zdrop; lia).
  pose proof (zlen_nonneg bs). split; [done| | |done|].
  - constructor; [|constructor; [|done]].
    + unfold front. rewrite <-Hf. apply arc_handle_intro; [done|lia|lia|].
      rewrite Hf, (load_ztake _ _ (zlen bs)), Hload by lia. unfold ztake.
      rewrite <-fmap_take. f_equal. destruct (Z.min_spec (zlen bs) at_) as [[? ->]|[? ->]]; [|done].
      unfold zlen in *. rewrite !take_ge by lia. done.
    + unfold back. rewrite <-Hbk. apply arc_handle_intro; [lia|lia|lia|].
      rewrite Hbk. apply cells_load_sub; (done || lia).
  - constructor; [constructor|constructor; [|done]].
    + apply compat_mut. simpl. unfold separate. lia.
    + eapply Forall_impl; [|exact HcS]. intros e. rewrite !compat_mut. simpl. unfold separate. lia.
    + eapply Forall_impl; [|exact HcS]. intros e. rewrite !compat_mut. simpl. unfold separate. lia.
  - unfold zlen in *. simpl. lia.
Qed.

(** The range of [other] starts where that of [b] ends, in a shared vector. *)
Definition adjacent (b other : BytesMut) : Prop :=
  kind b = KIND_ARC ∧ bm_data other = bm_data b
  ∧ addr (bm_ptr other) = addr (bm_ptr b) + bm_cap b.

Lemma split_off_ok b bs R h at_ :
  live ((HMut b, bs) :: R) h → 0 ≤ at_ ≤ bm_cap b →
  wpm (split_off b at_) h bm_stop (λ '(b', other) h',
    live ((HMut b', ztake at_ bs) :: (HMut other, zdrop at_ bs) :: R) h'
    ∧ bm_cap b' = at_ ∧ bm_cap other = bm_cap b - at_
    ∧ bm_ptr b' = bm_ptr b ∧ adjacent b' other).
Proof using Hal.
  intros Hlive Hat. unfold split_off.
  apply wpm_bind, wpm_lift. rewrite (proj2 (Z.leb_le _ _)) by lia. simpl.
  apply wpm_bind. eapply wpm_mono; [by apply shallow_clone_ok|].
  intros [b1 b2] h1 (<- & Eptr & _ & Ecap & Hok & S & R' & hs & blk & base & cells & sid & sa & vlen
    & repr & off & cap & HR & Hn & Harc).
  pose proof (at_arc_base _ _ _ _ _ _ _ _ _ _ _ _ _ _ _ _ Hok Harc) as [Hb0 _].
  pose proof (at_arc_lookup _ _ _ _ _ _ _ _ _ _ _ _ _ _ _ _ Harc) as [Hk _].
  destruct Harc as (Hh & HR' & Hb & Hs' & Hm & -> & Hf & Hoff & Hlen & Hcap & Hload & Hsa).
  simpl in Ecap. subst cap. pose proof (zlen_nonneg bs).
  apply wpm_bind. eapply wpm_advance_arc; [done|done|done|done|lia|lia|lia|lia|].
  apply wpm_ret. split; [|split; [done|]; split; [done|]; split; [done|]; split; [by apply kind_arc|];
    split; [done|simpl; lia]].
  eapply live_arc; [done|exact Hh|done|done|done|done| | |].
  - exact (split_family blk base cells sid sa repr bs S off (bm_cap b) at_ Hoff Hlen Hcap Hload
      Hat Hn Hf).
  - unfold zlen. simpl. lia.
  - by rewrite HR.
Qed.

Lemma split_to_ok b bs R h at_ :
  live ((HMut b, bs) :: R) h → 0 ≤ at_ ≤ zlen bs →
  wpm (split_to b at_) h bm_stop (λ '(b', other) h',
    live ((HMut b', zdrop at_ bs) :: (HMut other, ztake at_ bs) :: R) h'
    ∧ bm_cap b' = bm_cap b - at_ ∧ bm_cap other = at_).
Proof using Hal.
  intros Hlive Hat. unfold split_to.
  apply wpm_bind, wpm_lift.
  destruct (live_len _ _ _ _ Hlive) as (Hbs & Hbc & _).
  rewrite (proj2 (Z.leb_le _ _)) by lia. simpl.
  apply wpm_bind. eapply wpm_mono; [by apply shallow_clone_ok|].
  intros [b1 b2] h1 (<- & _ & _ & Ecap & Hok & S & R' & hs & blk & base & cells & sid & sa & vlen
    & repr & off & cap & HR & Hn & Harc).
  pose proof (at_arc_base _ _ _ _ _ _ _ _ _ _ _ _ _ _ _ _ Hok Harc) as [Hb0 _].
  pose proof (at_arc_lookup _ _ _ _ _ _ _ _ _ _ _ _ _ _ _ _ Harc) as [Hk _].
  destruct Harc as (Hh & HR' & Hb & Hs' & Hm & -> & Hf & Hoff & Hlen & Hcap & Hload & Hsa).
  simpl in Ecap. subst cap. pose proof (zlen_nonneg bs).
  apply wpm_bind. eapply wpm_advance_arc; [done|done|done|done|lia|lia|lia|lia|].
  apply wpm_ret. split; [|done]. rewrite (Permutation_swap (HMut _, ztake _ _)).
  eapply live_arc; [done|exact Hh|done|done|done|done| | |].
  - exact (split_family blk base cells sid sa repr bs S off (bm_cap b) at_ Hoff Hlen Hcap Hload
      ltac:(lia) Hn Hf).
  - unfold zlen. simpl. lia.
  - rewrite HR. simpl. by rewrite Z.min_r by lia.
Qed.

(** ** Moving the ends of the range *)

(** A handle of a family, changed within its old range. *)
Lemma at_arc_shrink b bs S R R' h hs blk base cells sid sa vlen repr off cap off' cap' bs' :
  heap_ok h → R ≡ₚ S ++ R' →
  at_arc b bs S R' h hs blk base cells sid sa vlen repr off cap (zlen S + 1) →
  off ≤ off' → off' + cap' ≤ off + cap → zlen bs' ≤ cap' →
  cells_load cells off' (zlen bs') = Some <$> bs' →
  live ((HMut (mkBytesMut (mkPtr (Some blk) (base + off')) (zlen bs') cap'
          (mkPtr (Some sid) sa)), bs') :: R) h.
Proof.
  intros Hok HR (Hh & HR' & Hb & Hs & Hm & -> & Hf & Hoff & Hlen & Hcap & Hload & Hsa) ????.
  set (e := (HMut (mkBytesMut _ _ _ _), bs')).
  eapply (live_arc (e :: S)); [done|exact Hh|done..| |unfold zlen; simpl; lia|by rewrite HR].
  eapply family_head; [exact Hf|apply arc_handle_intro; (done || lia)|].
  intros x. unfold e. rewrite !compat_mut. simpl. pose proof (zlen_nonneg bs').
  unfold separate. lia.
Qed.

(** Moving the start of a handle that owns its vector; the bytes passed over need
    not be initialised. *)
Lemma advance_vec_ok R h hs blk base cells off len repr cnt bs :
  heap_ok h → objs h = <[blk := (base, OBytes cells)]> hs → world R hs → hs !! blk = None →
  zlen cells ≤ isize_max → 0 ≤ off ≤ MAX_VEC_POS → 0 ≤ repr ≤ 7 → 0 ≤ len →
  off + len ≤ zlen cells → 0 < cnt ≤ zlen cells - off →
  zlen bs = Z.max 0 (len - cnt) → cells_load cells (off + cnt) (zlen bs) = Some <$> bs →
  let b := mkBytesMut (mkPtr (Some blk) (base + off)) len (zlen cells - off)
             (mkPtr None (vec_data off repr)) in
  wpm (advance_unchecked b cnt) h bm_stop (λ b' h',
    live ((HMut b', bs) :: R) h' ∧ bm_cap b' = bm_cap b - cnt).
Proof using Hal.
  intros Hok Hh HR Hb Hm Hoff Hrepr Hlen Hl Hcnt Hz Hload b. subst b.
  assert (objs h !! blk = Some (base, OBytes cells)) as Hk by (rewrite Hh; apply lookup_insert_eq).
  destruct (ok_obj h Hok _ _ _ Hk) as (Hb0 & _).
  unfold advance_unchecked. rewrite (proj2 (Z.eqb_neq _ _)) by lia. simpl bm_cap. rewrite kind_vec.
  unfold isize_max in *.
  assert (∀ (data : Ptr) h', objs h' !! blk = Some (base, OBytes cells) → ∀ (Q : BytesMut → heap → Prop),
    Q (mkBytesMut (mkPtr (Some blk) (base + (off + cnt))) (zlen bs)
         (zlen cells - (off + cnt)) data) h' →
    wpm (p ← ptr_add (mkPtr (Some blk) (base + off)) cnt; p ← vptr p;
         let len := match checked_sub len cnt with Some len => len | None => 0 end in
         cap ← lift (usize_sub (zlen cells - off) cnt);
         mret (mkBytesMut p len cap data)) h' bm_stop Q) as Htail.
  { intros data h' Hk' Q HQ. apply wpm_bind. eapply wpm_ptr_offset; [done|lia|lia|].
    apply wpm_bind, wpm_vptr; [simpl; lia|]. apply wpm_bind, wpm_usize_sub; [lia|].
    apply wpm_ret. replace (zlen cells - off - cnt) with (zlen cells - (off + cnt)) by lia.
    replace (match checked_sub len cnt with Some l => l | None => 0 end) with (zlen bs); [done|].
    rewrite Hz. unfold checked_sub. destruct (Z.leb_spec cnt len); lia. }
  apply wpm_bind, wpm_debug_assert; [by rewrite (proj2 (Z.leb_le _ _)) by lia|].
  apply wpm_bind. simpl. apply wpm_bind, wpm_get_vec_pos; [done|].
  apply wpm_bind, wpm_usize_add; [rewrite max_vec_pos_val in *; lia|].
  destruct (Z.leb_spec (off + cnt) MAX_VEC_POS).
  - apply wpm_set_vec_pos; [done|lia|]. apply Htail; [done|]. split; [|simpl; lia].
    eapply live_vec; [done|exact Hh|done|done|done|lia|done|lia|done].
  - eapply wpm_promote; [done|exact Hk|done|lia|lia|lia|done|by left|]. intros sa s Hsa Hok'.
    pose proof (heap_ok_fresh h Hok) as Hfresh. rewrite Hh in Hfresh.
    apply lookup_insert_None in Hfresh as [Hf1 Hf2].
    apply Htail; [simpl; by rewrite lookup_insert_ne by congruence|]. split; [|simpl; lia]. simpl.
    eapply live_last; [done|simpl; by rewrite Hh|done|done|done|done|congruence|done|lia|lia|lia|done].
Qed.

Lemma advance_unchecked_ok b bs R h cnt :
  live ((HMut b, bs) :: R) h → 0 ≤ cnt ≤ bm_cap b →
  wpm (advance_unchecked b cnt) h bm_stop (λ b' h',
    live ((HMut b', zdrop cnt bs) :: R) h' ∧ bm_cap b' = bm_cap b - cnt).
Proof using Hal.
  intros Hlive Hcnt. destruct (Z.eqb_spec cnt 0) as [->|Hne].
  { unfold advance_unchecked. simpl. apply wpm_ret. split; [done|lia]. }
  pose proof (zlen_nonneg bs).
  assert (zlen (zdrop cnt bs) = Z.max 0 (zlen bs - cnt)) as Hz by (rewrite zlen_zdrop; lia).
  apply live_inv in Hlive as [Hok [(hs & blk & base & cells & off & repr & Hat)
    |(S & R' & hs & blk & base & cells & sid & sa & vlen & repr & off & cap & HR & Hat)]].
  - destruct Hat as (Hh & HR & Hb & Hm & -> & Hoff & Hrepr & Hl & Hload). simpl in Hcnt.
    eapply advance_vec_ok; try done; [lia|]. rewrite Hz. apply cells_load_sub; (done || lia).
  - pose proof (at_arc_base _ _ _ _ _ _ _ _ _ _ _ _ _ _ _ _ Hok Hat) as [Hb0 _].
    pose proof (at_arc_lookup _ _ _ _ _ _ _ _ _ _ _ _ _ _ _ _ Hat) as [Hk _].
    pose proof Hat as (Hh & HR' & Hb & Hs' & Hm & -> & Hf & Hoff & Hlen & Hcap & Hload & Hsa).
    simpl in Hcnt. eapply wpm_advance_arc; [done|done|done|done|lia|lia|lia|lia|].
    split; [|done]. rewrite <-Hz.
    eapply at_arc_shrink; [done|done|exact Hat|lia|lia|lia|].
    rewrite Hz. apply cells_load_sub; (done || lia).
Qed.

Lemma bm_advance_ok b bs R h cnt :
  live ((HMut b, bs) :: R) h → 0 ≤ cnt ≤ zlen bs →
  wpm (bm_advance b cnt) h bm_stop (λ b' h', live ((HMut b', zdrop cnt bs) :: R) h').
Proof using Hal.
  intros Hlive Hcnt. destruct (live_len _ _ _ _ Hlive) as (Hl & Hc & _). unfold bm_advance.
  apply wpm_bind, wpm_lift. rewrite (proj2 (Z.leb_le _ _)) by lia. simpl.
  eapply wpm_mono; [apply advance_unchecked_ok; [done|lia]|]. by intros b' h' [? _].
Qed.

(** Shortening a handle. *)
Lemma live_shorten b bs R h len :
  live ((HMut b, bs) :: R) h → 0 ≤ len ≤ zlen bs →
  live ((HMut (mkBytesMut (bm_ptr b) len (bm_cap b) (bm_data b)), ztake len bs) :: R) h.
Proof.
  intros Hlive Hlen.
  assert (zlen (ztake len bs) = len) as Hz by (rewrite zlen_ztake; lia).
  assert (∀ cells off, cells_load cells off (zlen bs) = Some <$> bs →
    cells_load cells off len = Some <$> ztake len bs) as Hload'.
  { intros cells off E. rewrite (load_ztake _ _ (zlen bs)), E by lia.
    unfold ztake. by rewrite fmap_take. }
  apply live_inv in Hlive as [Hok [(hs & blk & base & cells & off & repr & Hat)
    |(S & R' & hs & blk & base & cells & sid & sa & vlen & repr & off & cap & HR & Hat)]].
  - destruct Hat as (Hh & HR & Hb & Hm & -> & Hoff & Hrepr & Hl & Hload). simpl.
    rewrite <-Hz at 1. eapply live_vec; [done|exact Hh|done|done|done|done|done|lia|].
    rewrite Hz. auto.
  - pose proof Hat as (_ & _ & _ & _ & _ & -> & _ & ? & ? & ? & ? & _). simpl.
    rewrite <-Hz at 1. eapply at_arc_shrink; [done|done|exact Hat|lia|lia|lia|].
    rewrite Hz. auto.
Qed.

Lemma bm_set_len_ok b bs R h len :
  live ((HMut b, bs) :: R) h → 0 ≤ len ≤ zlen bs →
  wpm (bm_set_len b len) h bm_stop (λ b' h', live ((HMut b', ztake len bs) :: R) h').
Proof.
  intros Hlive Hlen. destruct (live_len _ _ _ _ Hlive) as (? & ? & _). unfold bm_set_len.
  apply wpm_bind, wpm_debug_assert; [by rewrite (proj2 (Z.leb_le _ _)) by lia|].
  apply wpm_ret. by apply live_shorten.
Qed.

Lemma truncate_ok b bs R h len :
  live ((HMut b, bs) :: R) h → 0 ≤ len →
  wpm (truncate b len) h bm_stop (λ b' h', live ((HMut b', ztake len bs) :: R) h').
Proof.
  intros Hlive Hlen. destruct (live_len _ _ _ _ Hlive) as (Hl & _). unfold truncate.
  destruct (Z.leb_spec len (bm_len b)).
  - apply bm_set_len_ok; [done|lia].
  - apply wpm_ret. by rewrite ztake_all by lia.
Qed.

(** ** Dropping *)

(** Releasing the reference of a handle gives up the handle. *)
Lemma release_family_ok e S R' h hs blk base cells sid sa vlen repr :
  heap_ok h →
  objs h = <[sid := (sa, counter_obj (CMut vlen repr) blk base cells (zlen S + 1))]>
             (<[blk := (base, OBytes cells)]> hs) →
  world R' hs → hs !! blk = None → hs !! sid = None → zlen cells ≤ isize_max →
  family (CMut vlen repr) blk base cells sid sa (e :: S) →
  wpm (release_shared (mkPtr (Some sid) sa)) h bm_stop (λ _ h', live (S ++ R') h').
Proof.
  intros Hok Hh HR Hb Hs Hm Hf. pose proof (fam_ids _ _ _ _ _ _ _ Hf) as Hids.
  pose proof (fam_count _ _ _ _ _ _ _ Hf) as Hn. unfold zlen in Hn. simpl in Hn.
  assert (objs h !! sid = Some (sa, counter_obj (CMut vlen repr) blk base cells (zlen S + 1))) as Hsk
    by (rewrite Hh; apply lookup_insert_eq).
  unfold release_shared. apply wpm_bind. eapply wpm_get_shared; [done|].
  apply wpm_bind. eapply wpm_set_shared; [done|]. simpl.
  replace (uwrap 64 (zlen S + 1 - 1)) with (zlen S)
    by (unfold uwrap; rewrite Z.mod_small; unfold zlen; lia).
  destruct (Z.eqb_spec (zlen S + 1) 1) as [Hz|Hz]; simpl.
  - assert (S = []) as -> by (apply zlen_nil_inv; lia).
    eapply wpm_drop_box_shared; [exact Hids| |by apply lookup_insert_eq|].
    + simpl. rewrite lookup_insert_ne, Hh, lookup_insert_ne by done. apply lookup_insert_eq.
    + simpl. by eapply live_drop_last.
  - apply wpm_ret. eapply (live_drop_one (CMut vlen repr)); try done. by intros ->.
Qed.

Lemma release_ok b bs R h :
  live ((HMut b, bs) :: R) h → kind b = KIND_ARC →
  wpm (release_shared (bm_data b)) h bm_stop (λ _ h', live R h').
Proof.
  intros Hlive Hkind. apply live_inv in Hlive as [Hok [(hs & blk & base & cells & off & repr & Hat)
    |(S & R' & hs & blk & base & cells & sid & sa & vlen & repr & off & cap & HR & Hat)]].
  { destruct Hat as (_ & _ & _ & _ & -> & _). by rewrite kind_vec in Hkind. }
  destruct Hat as (Hh & HR' & Hb & Hs' & Hm & -> & Hf & _). simpl bm_data.
  eapply wpm_mono; [eapply release_family_ok; try done; by eapply family_mut|].
  intros [] h' Hl. by rewrite HR.
Qed.

Lemma bm_drop_ok b bs R h :
  live ((HMut b, bs) :: R) h → wpm (bm_drop b) h bm_stop (λ _ h', live R h').
Proof.
  intros Hlive. unfold bm_drop. pose proof Hlive as
    [Hok [(hs & blk & base & cells & off & repr & Hat)
    |(S & R' & hs & blk & base & cells & sid & sa & vlen & repr & off & cap & HR & Hat)]]%live_inv.
  - pose proof (at_vec_lookup _ _ _ _ _ _ _ _ _ _ Hat) as Hk.
    destruct Hat as (Hh & HR & Hb & Hm & -> & Hoff & Hrepr & Hl & _). rewrite kind_vec. simpl.
    pose proof (zlen_nonneg bs).
    apply wpm_bind, wpm_get_vec_pos; [done|].
    apply wpm_bind. eapply wpm_rebuild_vec; [done|done|lia|lia|lia|].
    eapply wpm_rv_drop; [done|]. split; [by apply heap_ok_free|]. simpl.
    by rewrite Hh, delete_insert_id.
  - pose proof Hat as (_ & _ & _ & _ & _ & Eb & _ & _ & _ & _ & _ & Hsa).
    assert (kind b = KIND_ARC) as Hkind by (rewrite Eb; by apply kind_arc).
    rewrite Hkind. simpl. by eapply release_ok.
Qed.
End specs.
