(* ===== verification/BytesMutGrow.v ===== *)
(** * Growing a [BytesMut]: [reserve], and the operations that write

    [reserve_inner] has six ways to make room: data moved back inside the
    vector, the vector grown, for a vector the handle owns and for one it is the
    last to share, and a new vector for a handle that shares. *)

From S2P Require Import Prelude RustVec Mem Buf BytesMut World BytesMutSpec.

Section grow.
Context `{Build} `{Hal : AllocatorLaws}.

(** What a reservation of [additional] bytes leaves. *)
Definition reserved (bs : list byte) (R : list entry) (additional : Z) (b : BytesMut) (h : heap)
    : Prop :=
  live ((HMut b, bs) :: R) h ∧ zlen bs + additional ≤ bm_cap b.

(** ** A vector the handle owns *)

Lemma copy_back blk base cells off n h (Q : () → heap → Prop) :
  objs h !! blk = Some (base, OBytes cells) → 0 ≤ n ≤ off → off + n ≤ zlen cells →
  Q () (mkHeap (<[blk := (base, OBytes (cells_store cells 0 (cells_load cells off n)))]> (objs h))
          (next h)) →
  wpm (ptr_copy_nonoverlapping (mkPtr (Some blk) (base + off)) (mkPtr (Some blk) base) n)
    h bm_stop Q.
Proof.
  intros Hk Hn Hl HQ. unfold ptr_copy_nonoverlapping. simpl.
  rewrite bool_decide_true by lia. unfold ptr_copy.
  apply wpm_bind. eapply wpm_load; [done|lia|lia|lia|].
  replace base with (base + 0) at 1 by lia. eapply wpm_store; [done|lia| |done].
  rewrite zlen_load; lia.
Qed.

(** Data that has been copied to the front of its vector. *)
Lemma load_front cells (new : list cell) :
  zlen new ≤ zlen cells → cells_load (cells_store cells 0 new) 0 (zlen new) = new.
Proof. intros. apply load_store; lia. Qed.

Lemma wpm_ptr_add_base k a cells n h E (Q : Ptr → heap → Prop) :
  objs h !! k = Some (a, OBytes cells) → 0 ≤ n ≤ zlen cells →
  Q (mkPtr (Some k) (a + n)) h → wpm (ptr_add (mkPtr (Some k) a) n) h E Q.
Proof.
  intros Hk Hn HQ. replace a with (a + 0) at 1 by lia.
  eapply wpm_ptr_offset; [done|lia|lia|exact HQ].
Qed.

(** The end of the growing branch, on the vector [rv_reserve] has returned. *)
Lemma grow_vec_tail blk base cells off (bs : list byte) data h (Q : BytesMut * bool → heap → Prop) :
  objs h !! blk = Some (base, OBytes cells) → 0 < base → 0 ≤ off →
  off + zlen bs ≤ zlen cells → zlen cells ≤ isize_max →
  Q (mkBytesMut (mkPtr (Some blk) (base + off)) (zlen bs) (zlen cells - off) data, true) h →
  wpm (let v := mkRVec (mkPtr (Some blk) base) (zlen cells) (off + zlen bs) in
       p ← ptr_add (rv_ptr v) off; p ← vptr p; cap ← lift (usize_sub (rv_cap v) off);
       debug_assertM (n ← usize_sub (rv_len v) off; Ret (zlen bs =? n));;
       mret (mkBytesMut p (zlen bs) cap data, true)) h bm_stop Q.
Proof.
  intros Hk Hb Hoff Hl Hm HQ. pose proof (zlen_nonneg bs). unfold isize_max in *. simpl.
  apply wpm_bind. eapply wpm_ptr_add_base; [done|lia|].
  apply wpm_bind, wpm_vptr; [simpl; lia|]. apply wpm_bind, wpm_usize_sub; [lia|].
  apply wpm_bind, wpm_debug_assert; [|by apply wpm_ret].
  rewrite usize_sub_in by lia. simpl. replace (off + zlen bs - off) with (zlen bs) by lia.
  by rewrite Z.eqb_refl.
Qed.

Lemma grow_vec_ok b bs R h hs blk base cells off repr additional data :
  heap_ok h → at_vec b bs R h hs blk base cells off repr → 0 ≤ additional →
  data = mkPtr None (vec_data off repr) →
  wpm (rv_reserve (mkRVec (mkPtr (Some blk) base) (zlen cells) (off + zlen bs)) additional)
    h bm_stop (λ v h1,
      wpm (p ← ptr_add (rv_ptr v) off; p ← vptr p; cap ← lift (usize_sub (rv_cap v) off);
           debug_assertM (n ← usize_sub (rv_len v) off; Ret (zlen bs =? n));;
           mret (mkBytesMut p (zlen bs) cap data, true)) h1 bm_stop
        (λ '(b', r) h', if (r : bool) then reserved bs R additional b' h'
                        else true = false ∧ b' = b ∧ h' = h)).
Proof using Hal.
  intros Hok Hat Hadd ->. pose proof (at_vec_base _ _ _ _ _ _ _ _ _ _ Hok Hat) as [Hb0 _].
  pose proof (at_vec_lookup _ _ _ _ _ _ _ _ _ _ Hat) as Hk.
  pose proof Hat as (Hh & HR & Hb & Hm & Eb & Hoff & Hrepr & Hl & Hload).
  pose proof (zlen_nonneg bs).
  apply (wpm_rv_reserve _ bm_stop_abort bm_stop_capacity); [done|done|lia|lia| |].
  - intros Hstay. apply grow_vec_tail; [done|done|lia|lia|done|].
    split; [|simpl; lia]. by apply (live_vec R h hs blk base cells off repr bs).
  - intros a' new cells' h1 Hnew Hfull Hroom Hmax (Ha' & _) Hok'.
    assert (zlen cells' = zlen cells + new) as Hz.
    { unfold cells'. rewrite zlen_app. f_equal. unfold zlen. rewrite length_replicate. lia. }
    rewrite <-Hz. apply grow_vec_tail; [apply lookup_insert_eq|done|lia|lia|lia|].
    split; [|simpl; lia].
    assert (objs h1 = hs) as Hh1 by (unfold h1; simpl; by rewrite Hh, delete_insert_id).
    apply (live_vec R _ hs (next h) a' cells' off repr bs); try done; try lia.
    + change (<[next h := (a', OBytes cells')]> (objs h1) = <[next h := (a', OBytes cells')]> hs).
      by rewrite Hh1.
    + pose proof (heap_ok_fresh h Hok) as Hf. rewrite Hh in Hf.
      by apply lookup_insert_None in Hf as [? _].
    + unfold cells'. rewrite load_app_l by lia. done.
Qed.

Lemma reserve_vec_ok b bs R h hs blk base cells off repr additional allocate_ :
  heap_ok h → at_vec b bs R h hs blk base cells off repr → 0 ≤ additional →
  wpm (reserve_vec b additional allocate_) h bm_stop (λ '(b', r) h',
    if (r : bool) then reserved bs R additional b' h'
    else allocate_ = false ∧ b' = b ∧ h' = h).
Proof using Hal.
  intros Hok Hat Hadd. pose proof (at_vec_base _ _ _ _ _ _ _ _ _ _ Hok Hat) as [Hb0 _].
  pose proof (at_vec_lookup _ _ _ _ _ _ _ _ _ _ Hat) as Hk.
  pose proof Hat as (Hh & HR & Hb & Hm & Eb & Hoff & Hrepr & Hl & Hload).
  pose proof (zlen_nonneg bs). unfold isize_max in *. unfold reserve_vec. rewrite Eb at 1. simpl.
  apply wpm_bind, wpm_get_vec_pos; [done|]. rewrite Eb. simpl.
  apply wpm_bind, wpm_usize_sub; [lia|]. apply wpm_bind, wpm_usize_add; [lia|].
  destruct (Z.leb_spec additional (zlen cells - off - zlen bs + off)); simpl;
    [destruct (Z.leb_spec (zlen bs) off); simpl|].
  1: { (* the data moves back *)
    apply wpm_bind. eapply wpm_ptr_offset; [done|lia|lia|].
    replace (base + (off + - off)) with base by lia.
    apply wpm_bind. eapply copy_back; [done|lia|lia|]. rewrite Hload.
    apply wpm_bind, wpm_vptr; [simpl; lia|].
    apply wpm_bind, wpm_set_vec_pos; [done|rewrite max_vec_pos_val; lia|]. simpl.
    apply wpm_bind, wpm_usize_add; [lia|]. apply wpm_ret.
    assert (zlen (Some <$> bs) = zlen bs) as Hz by (unfold zlen; by rewrite length_fmap).
    split; [|simpl; lia].
    replace (zlen cells - off + off) with (zlen (cells_store cells 0 (Some <$> bs)) - 0)
      by (rewrite zlen_store; lia).
    replace base with (base + 0) at 1 by lia.
    apply (live_vec R _ hs blk base); try done; simpl.
    - eapply heap_ok_update; [done|done| |done]. simpl. apply zlen_store; lia.
    - by rewrite Hh, insert_insert_eq.
    - rewrite zlen_store by lia. unfold isize_max. lia.
    - rewrite zlen_store by lia. lia.
    - rewrite <-Hz. apply load_front. lia. }
  all: destruct allocate_; simpl; [|by apply wpm_ret].
  all: (* the vector grows *)
    apply wpm_bind; eapply wpm_rebuild_vec; [done|done|lia|lia|lia|];
    apply wpm_bind; by eapply grow_vec_ok.
Qed.

(** ** A vector the handle is the last to share *)

Lemma grow_unique_ok b bs R h hs blk base cells sid sa vlen repr off cap additional new_cap :
  heap_ok h → at_arc b bs [] R h hs blk base cells sid sa vlen repr off cap 1 →
  0 ≤ additional → new_cap = zlen bs + additional + off → zlen cells < new_cap < 2 ^ 64 →
  wpm (let double := uwrap 64 (Z.shiftl (zlen cells) 1) in
       let new_cap := Z.max double new_cap in
       debug_assertM (n ← usize_add off (zlen bs); Ret (n <=? zlen cells));;
       n ← lift (usize_add off (zlen bs));
       let v := rv_set_len (mkRVec (mkPtr (Some blk) base) (zlen cells) vlen) n in
       more ← lift (usize_sub new_cap (rv_len v));
       v ← rv_reserve v more;
       set_shared (mkPtr (Some sid) sa) (mkShared v repr 1);;
       p ← ptr_add (rv_ptr v) off;
       p ← vptr p;
       cap ← lift (usize_sub (rv_cap v) off);
       mret (mkBytesMut p (zlen bs) cap (mkPtr (Some sid) sa), true)) h bm_stop (λ '(b', r) h',
    if (r : bool) then reserved bs R additional b' h'
    else true = false ∧ b' = b ∧ h' = h).
Proof using Hal.
  intros Hok Hat Hadd Hnew Hfull.
  pose proof (at_arc_lookup _ _ _ _ _ _ _ _ _ _ _ _ _ _ _ _ Hat) as [Hk Hsk].
  destruct Hat as (Hh & HR & Hb & Hs & Hm & Eb & Hf & Hoff & Hlen & Hcap & Hload & Hsa).
  pose proof (arc_ids Hf) as Hids. pose proof (arc_repr Hf) as Hrepr.
  pose proof (zlen_nonneg bs). unfold isize_max in *.
  cbn zeta. replace (uwrap 64 (Z.shiftl (zlen cells) 1)) with (2 * zlen cells)
    by (rewrite Z.shiftl_mul_pow2 by lia; unfold uwrap; rewrite Z.mod_small; lia).
  apply wpm_bind, wpm_debug_assert.
  { rewrite usize_add_in by lia. simpl. by rewrite (proj2 (Z.leb_le _ _)) by lia. }
  apply wpm_bind, wpm_usize_add; [lia|]. cbn [rv_set_len rv_len rv_ptr rv_cap].
  apply wpm_bind, wpm_usize_sub; [lia|].
  apply wpm_bind. apply (wpm_rv_reserve _ bm_stop_abort bm_stop_capacity); [done|done|lia|lia|lia|].
  intros a' new cells' h1 Hnew' _ Hroom Hmax (Ha' & _) Hok'.
  assert (zlen cells' = zlen cells + new) as Hz.
  { unfold cells'. rewrite zlen_app. f_equal. unfold zlen. rewrite length_replicate. lia. }
  rewrite <-Hz in *. unfold isize_max in Hmax. simpl.
  pose proof (heap_ok_fresh h Hok) as Hfr. rewrite Hh in Hfr.
  apply lookup_insert_None in Hfr as [[Hfr1 Hfr2]%lookup_insert_None Hfr3].
  assert (objs (alloc_heap h1 a' (OBytes cells'))
    = <[next h := (a', OBytes cells')]> (<[sid := (sa, OShared (mkShared
        (mkRVec (mkPtr (Some blk) base) (zlen cells) vlen) repr 1))]> hs)) as Ho.
  { unfold alloc_heap, h1. simpl. rewrite Hh, (delete_insert_ne _ blk sid) by congruence.
    by rewrite delete_insert_id. }
  apply wpm_bind. eapply wpm_set_shared.
  { rewrite Ho, lookup_insert_ne by congruence. apply lookup_insert_eq. }
  set (h2 := mkHeap _ _). assert (objs h2 !! next h = Some (a', OBytes cells')) as Hk2.
  { unfold h2. simpl. rewrite lookup_insert_ne by congruence. apply lookup_insert_eq. }
  apply wpm_bind. eapply wpm_ptr_add_base; [exact Hk2|lia|].
  apply wpm_bind, wpm_vptr; [simpl; lia|]. apply wpm_bind, wpm_usize_sub; [lia|].
  apply wpm_ret. split; [|simpl; lia].
  apply (live_last R h2 hs (next h) a' cells' sid sa (off + zlen bs) repr); try done;
    try (unfold isize_max; lia).
  - apply (heap_ok_update (alloc_heap h1 a' (OBytes cells')) sid sa (OShared (mkShared
      (mkRVec (mkPtr (Some blk) base) (zlen cells) vlen) repr 1))); [done| |done|done].
    rewrite Ho, lookup_insert_ne by congruence. apply lookup_insert_eq.
  - unfold h2. cbn [objs]. rewrite Ho. rewrite (insert_insert_ne _ (next h)) by congruence.
    by rewrite insert_insert_eq.
  - unfold cells'. rewrite load_app_l by lia. done.
Qed.

Lemma reserve_unique_ok b bs R h hs blk base cells sid sa vlen repr off cap additional allocate_ :
  heap_ok h → at_arc b bs [] R h hs blk base cells sid sa vlen repr off cap 1 →
  0 ≤ additional → zlen bs + additional + off < 2 ^ 64 →
  wpm (reserve_unique b (mkShared (mkRVec (mkPtr (Some blk) base) (zlen cells) vlen) repr 1)
         (zlen bs + additional) allocate_) h bm_stop (λ '(b', r) h',
    if (r : bool) then reserved bs R additional b' h'
    else allocate_ = false ∧ b' = b ∧ h' = h).
Proof using Hal.
  intros Hok Hat Hadd Hover. pose proof (at_arc_base _ _ _ _ _ _ _ _ _ _ _ _ _ _ _ _ Hok Hat) as [Hb0 _].
  pose proof (at_arc_lookup _ _ _ _ _ _ _ _ _ _ _ _ _ _ _ _ Hat) as [Hk Hsk].
  pose proof Hat as (Hh & HR & Hb & Hs & Hm & Eb & Hf & Hoff & Hlen & Hcap & Hload & Hsa).
  pose proof (arc_ids Hf) as Hids. pose proof (arc_repr Hf) as Hrepr.
  pose proof (zlen_nonneg bs). unfold isize_max in *. unfold reserve_unique. subst b. simpl.
  apply wpm_bind. unfold offset_from. simpl. apply wpm_usize_sub; [lia|].
  replace (base + off - base) with off by lia.
  apply wpm_bind, wpm_usize_add; [lia|].
  destruct (Z.leb_spec (zlen bs + additional + off) (zlen cells)).
  { apply wpm_ret. split; [|simpl; lia].
    eapply live_last; [done|exact Hh|done|done|done|done|done|done|done|lia|lia|done]. }
  destruct (Z.leb_spec (zlen bs + additional) (zlen cells)); simpl;
    [destruct (Z.leb_spec (zlen bs) off); simpl|].
  1: { apply wpm_bind. eapply copy_back; [done|lia|lia|]. rewrite Hload.
    apply wpm_bind, wpm_vptr; [simpl; lia|]. apply wpm_ret. split; [|simpl; lia].
    assert (zlen (Some <$> bs) = zlen bs) as Hz by (unfold zlen; by rewrite length_fmap).
    assert (zlen (cells_store cells 0 (Some <$> bs)) = zlen cells) as Hzs
      by (apply zlen_store; lia).
    replace base with (base + 0) at 1 by lia.
    apply (live_last R _ hs blk base (cells_store cells 0 (Some <$> bs)) sid sa vlen repr);
      try done; try lia; simpl.
    - eapply heap_ok_update; [done|done|simpl; lia|done].
    - rewrite Hh, Hzs. rewrite insert_insert_ne by congruence. by rewrite insert_insert_eq.
    - unfold isize_max. lia.
    - rewrite <-Hz. apply load_front. lia. }
  all: destruct allocate_; simpl; [|by apply wpm_ret].
  all: apply wpm_bind, wpm_usize_sub; [lia|]; replace (base + off - base) with off by lia.
  all: unfold checked_add; rewrite (proj2 (Z.ltb_lt _ _)) by lia.
  all: eapply grow_unique_ok; [done|exact Hat|done|lia|lia].
Qed.

(** ** A handle that shares its vector *)

Lemma zlen_uninit n : 0 ≤ n → zlen (replicate (Z.to_nat n) (@None byte)) = n.
Proof. intros. unfold zlen. rewrite length_replicate. lia. Qed.

Lemma zlen_Some (bs : list byte) : zlen (Some <$> bs) = zlen bs.
Proof. unfold zlen. by rewrite length_fmap. Qed.

(** A vector that is new in the heap, as a handle. *)
Lemma live_new_vec R h h' a cells repr bs :
  live R h → heap_ok h' → objs h' = <[next h := (a, OBytes cells)]> (objs h) →
  zlen cells ≤ isize_max → 0 ≤ repr ≤ 7 → zlen bs ≤ zlen cells →
  cells_load cells 0 (zlen bs) = Some <$> bs →
  live ((HMut (mkBytesMut (mkPtr (Some (next h)) a) (zlen bs) (zlen cells)
           (mkPtr None (vec_data 0 repr))), bs) :: R) h'.
Proof.
  intros [Hok Hw] Hok' Hh' Hm Hrepr Hl Hload.
  replace a with (a + 0) at 1 by lia. replace (zlen cells) with (zlen cells - 0) at 1 by lia.
  eapply live_vec; [done|exact Hh'|done|by apply heap_ok_fresh|done| |done|lia|done].
  rewrite max_vec_pos_val. lia.
Qed.

(** [v.extend_from_slice(bs)] on an empty vector with room. *)
Lemma wpm_fill_vec k a n bs h (Q : RVec → heap → Prop) :
  heap_ok h → objs h !! k = Some (a, OBytes (replicate (Z.to_nat n) None)) → 0 ≤ n →
  zlen bs ≤ n →
  (let cells := cells_store (replicate (Z.to_nat n) None) 0 (Some <$> bs) in
   Q (mkRVec (mkPtr (Some k) a) n (zlen bs))
     (mkHeap (<[k := (a, OBytes cells)]> (objs h)) (next h))) →
  wpm (rv_extend_from_slice (mkRVec (mkPtr (Some k) a) n 0) bs) h bm_stop Q.
Proof using Hal.
  intros Hok Hk Hn Hl HQ. unfold rv_extend_from_slice. pose proof (zlen_nonneg bs).
  assert (zlen (replicate (Z.to_nat n) (@None byte)) = n) as Hz by by apply zlen_uninit.
  apply wpm_bind. replace (mkRVec (mkPtr (Some k) a) n 0) with
    (mkRVec (mkPtr (Some k) a) (zlen (replicate (Z.to_nat n) (@None byte))) 0) by (by rewrite Hz).
  apply (wpm_rv_reserve _ bm_stop_abort bm_stop_capacity); [done|done|lia|lia| |lia].
  intros _. rewrite Hz. simpl. apply wpm_bind. eapply wpm_ptr_add_base; [done|lia|].
  apply wpm_bind. eapply wpm_store; [done|lia|rewrite zlen_Some; lia|]. by apply wpm_ret.
Qed.

Lemma original_capacity_from_repr_bound repr :
  0 ≤ repr ≤ 7 → 0 ≤ original_capacity_from_repr repr ≤ 65536.
Proof.
  intros Hr. clear -Hr. assert (repr ∈ [0;1;2;3;4;5;6;7]) as Hin by (set_unfold; lia).
  set_unfold in Hin. by destruct_or! Hin; subst repr.
Qed.

Lemma reserve_inner_ok b bs R h additional allocate_ :
  live ((HMut b, bs) :: R) h → 0 ≤ additional ≤ isize_max →
  wpm (reserve_inner b additional allocate_) h bm_stop (λ '(b', r) h',
    if (r : bool) then reserved bs R additional b' h'
    else allocate_ = false ∧ b' = b ∧ h' = h).
Proof using Hal.
  intros Hlive Hadd. unfold reserve_inner. pose proof Hlive as
    [Hok [(hs & blk & base & cells & off & repr & Hat)
    |(S & R' & hs & blk & base & cells & sid & sa & vlen & repr & off & cap & HR & Hat)]]%live_inv.
  { assert (kind b = KIND_VEC) as -> by (destruct Hat as (_&_&_&_&->&_); apply kind_vec).
    simpl. eapply reserve_vec_ok; [done|done|lia]. }
  pose proof (at_arc_lookup _ _ _ _ _ _ _ _ _ _ _ _ _ _ _ _ Hat) as [Hk Hsk].
  pose proof Hat as (Hh & HR' & Hb & Hs & Hm & Eb & Hf & Hoff & Hlen & Hcap & Hload & Hsa).
  assert (kind b = KIND_ARC) as Hkind by (rewrite Eb; by apply kind_arc).
  rewrite Hkind. simpl. apply wpm_bind, wpm_debug_assert; [done|].
  assert (bm_len b = zlen bs ∧ bm_data b = mkPtr (Some sid) sa ∧ bm_ptr b = mkPtr (Some blk) (base + off))
    as (El & Ed & Ep) by (by rewrite Eb). rewrite El, Ed.
  pose proof (arc_repr Hf) as Hrepr. pose proof (zlen_nonneg bs).
  unfold checked_add. rewrite (proj2 (Z.ltb_lt _ _)) by (unfold isize_max in *; lia).
  apply wpm_bind. eapply wpm_get_shared; [done|]. unfold is_unique. simpl.
  destruct (Z.eqb_spec (zlen S + 1) 1) as [Hz|Hz].
  { assert (S = []) as -> by (apply zlen_nil_inv; lia).
    assert (live ((HMut b, bs) :: R') h) as Hlive' by (by rewrite <-HR).
    eapply wpm_mono; [eapply reserve_unique_ok; [done|exact Hat|lia|unfold isize_max in *; lia]|].
    intros [b' []] h'; [|done]. unfold reserved. by rewrite HR. }
  destruct allocate_; simpl; [|by apply wpm_ret].
  pose proof (original_capacity_from_repr_bound repr Hrepr) as Horig.
  set (n := Z.max _ _).
  apply wpm_bind. apply (wpm_rv_with_capacity _ bm_stop_abort bm_stop_capacity); [done|lia|].
  intros a o Hn Ho Hok1. unfold o in *. clear o.
  pose proof (heap_ok_fresh h Hok) as Hfr.
  apply wpm_bind. unfold as_slice. rewrite Ep, El.
  apply (wpm_load_bytes _ blk base cells off (zlen bs) bs); [|lia|lia|lia|exact Hload|].
  { simpl. rewrite lookup_insert_ne by congruence. exact Hk. }
  apply wpm_bind. apply wpm_fill_vec; [done|apply lookup_insert_eq|lia|lia|].
  set (cs := cells_store _ _ _). simpl. set (h2 := mkHeap _ _).
  assert (zlen cs = n) as Hcs.
  { unfold cs. rewrite zlen_store; rewrite ?zlen_uninit, ?zlen_Some; lia. }
  assert (objs h2 = <[next h := (a, OBytes cs)]> (objs h)) as Hh2
    by (unfold h2; simpl; by rewrite insert_insert_eq).
  assert (heap_ok h2) as Hok2.
  { eapply (heap_ok_update (alloc_heap h a _)); [done|apply lookup_insert_eq| |done].
    simpl. rewrite zlen_uninit; lia. }
  pose proof (live_new_vec _ h h2 a cs repr bs Hlive Hok2 Hh2) as Hnew.
  rewrite (Permutation_swap (HMut b, bs)) in Hnew.
  apply wpm_bind. rewrite <-Ed. eapply wpm_mono; [eapply release_ok; [apply Hnew|done]|].
  { lia. } { done. } { lia. }
  { unfold cs. rewrite <-(zlen_Some bs). apply load_front. rewrite zlen_Some, zlen_uninit; lia. }
  intros [] h3 Hlive3. apply wpm_bind, wpm_vptr.
  { destruct Ho. simpl. lia. }
  apply wpm_bind, wpm_debug_assert; [by rewrite Z.eqb_refl|]. apply wpm_ret.
  rewrite vec_data_new by done. rewrite Hcs in Hlive3. split; [done|simpl; lia].
Qed.

(** [reserve] makes room and changes nothing else. *)
Lemma reserve_ok b bs R h additional :
  live ((HMut b, bs) :: R) h → 0 ≤ additional ≤ isize_max →
  wpm (reserve b additional) h bm_stop (reserved bs R additional).
Proof using Hal.
  intros Hlive Hadd. destruct (live_len _ _ _ _ Hlive) as (? & ? & ?).
  pose proof (zlen_nonneg bs). unfold reserve.
  apply wpm_bind, wpm_usize_sub; [unfold isize_max in *; lia|].
  destruct (Z.leb_spec additional (bm_cap b - bm_len b)).
  { apply wpm_ret. split; [done|lia]. }
  apply wpm_bind. eapply wpm_mono; [by apply reserve_inner_ok|].
  by intros [b' []] h'; [|intros []].
Qed.

Lemma try_reclaim_ok b bs R h additional :
  live ((HMut b, bs) :: R) h → 0 ≤ additional ≤ isize_max →
  wpm (try_reclaim b additional) h bm_stop (λ '(b', r) h',
    r = true ∧ reserved bs R additional b' h').
Proof using Hal.
  intros Hlive Hadd. destruct (live_len _ _ _ _ Hlive) as (? & ? & ?).
  pose proof (zlen_nonneg bs). unfold try_reclaim.
  apply wpm_bind, wpm_usize_sub; [unfold isize_max in *; lia|].
  destruct (Z.leb_spec additional (bm_cap b - bm_len b)).
  { apply wpm_ret. split; [done|]. split; [done|lia]. }
  eapply wpm_mono; [by apply reserve_inner_ok|]. by intros [b' []] h'; [|intros []].
Qed.

(** ** Writing after the end *)

Lemma load_append cells off (bs new : list byte) :
  0 ≤ off → off + zlen bs + zlen new ≤ zlen cells →
  cells_load cells off (zlen bs) = Some <$> bs →
  cells_load (cells_store cells (off + zlen bs) (Some <$> new)) off (zlen (bs ++ new))
  = Some <$> bs ++ new.
Proof.
  intros Hoff Hl Hload. pose proof (zlen_nonneg bs). pose proof (zlen_nonneg new).
  rewrite zlen_app, load_add, fmap_app by lia. f_equal.
  - rewrite load_store_separate; [done|lia|rewrite zlen_Some; lia|lia|lia|]. unfold separate. lia.
  - rewrite <-(zlen_Some new) at 1. apply load_store; rewrite ?zlen_Some; lia.
Qed.

Lemma load_update cells off (bs : list byte) i x :
  0 ≤ off → 0 ≤ i < zlen bs → off + zlen bs ≤ zlen cells →
  cells_load cells off (zlen bs) = Some <$> bs →
  cells_load (cells_store cells (off + i) [Some x]) off (zlen bs)
  = Some <$> <[Z.to_nat i := x]> bs.
Proof.
  intros Hoff Hi Hl Hload. apply list_eq. intros j. rewrite load_lookup, list_lookup_fmap by lia.
  apply (f_equal (.!! j)) in Hload. rewrite load_lookup, list_lookup_fmap in Hload by lia.
  rewrite store_lookup by (unfold zlen in *; simpl; lia). change (zlen [Some x]) with 1.
  destruct (decide (Z.of_nat j = i)) as [<-|].
  - rewrite Nat2Z.id, list_lookup_insert_eq by (unfold zlen in *; lia).
    rewrite !bool_decide_true by lia. by replace (Z.to_nat off + j - _)%nat with 0%nat by lia.
  - rewrite list_lookup_insert_ne, <-Hload by lia.
    by rewrite (bool_decide_false (off + i ≤ _ < _)) by lia.
Qed.

(** A handle of a family stores into its own range. *)
Lemma store_family blk base cells sid sa repr off cap bs bs' S i new :
  let e bs := (HMut (mkBytesMut (mkPtr (Some blk) (base + off)) (zlen bs) cap
                       (mkPtr (Some sid) sa)), bs) in
  arc_family blk base cells sid sa repr (e bs :: S) →
  0 ≤ off → off + cap ≤ zlen cells → 0 ≤ i → i + zlen new ≤ cap → zlen bs' ≤ cap →
  let cells' := cells_store cells (off + i) new in
  cells_load cells' off (zlen bs') = Some <$> bs' →
  arc_family blk base cells' sid sa repr (e bs' :: S).
Proof.
  intros e [? Hh Hc Hr Hn] ????? cells' Hload. unfold e in *. pose proof (zlen_nonneg new).
  inversion Hh as [|?? _ HS]; inversion Hc as [|?? HcS HcSS]; subst.
  assert (zlen cells' = zlen cells) as Hz by (apply zlen_store; lia).
  split; [done| |constructor; [|done]|done|done].
  - constructor; [apply arc_handle_intro; (done || lia)|].
    rewrite Forall_forall in HS, HcS |- *. intros x Hx. apply shared_handle_store; auto; try lia.
    specialize (HcS x Hx). rewrite compat_mut in HcS. simpl in HcS. unfold separate in *. lia.
  - eapply Forall_impl; [|exact HcS]. intros x. by rewrite !compat_mut.
Qed.

(** The cells [new], stored at the index [i] of a handle whose range has room
    for them, so that it shows [bs']. *)
Lemma store_ok b bs R h i new bs' :
  live ((HMut b, bs) :: R) h → 0 ≤ i → i + zlen new ≤ bm_cap b → zlen bs' ≤ bm_cap b →
  (∀ cells off, 0 ≤ off → off + bm_cap b ≤ zlen cells →
    cells_load cells off (zlen bs) = Some <$> bs →
    cells_load (cells_store cells (off + i) new) off (zlen bs') = Some <$> bs') →
  wpm (store (mkPtr (prov (bm_ptr b)) (addr (bm_ptr b) + i)) new) h bm_stop (λ _ h',
    live ((HMut (mkBytesMut (bm_ptr b) (zlen bs') (bm_cap b) (bm_data b)), bs') :: R) h').
Proof.
  intros [Hok [(hs & blk & base & cells & off & repr & Hat)
    |(S & R' & hs & blk & base & cells & sid & sa & vlen & repr & off & cap & HR & Hat)]]%live_inv
    Hi Hroom Hbs' Hshow; pose proof (zlen_nonneg bs); pose proof (zlen_nonneg new);
    set (cells' := cells_store cells (off + i) new).
  - pose proof (at_vec_lookup _ _ _ _ _ _ _ _ _ _ Hat) as Hk.
    destruct Hat as (Hh & HR & Hb & Hm & -> & Hoff & Hrepr & Hl & Hload). simpl in *.
    assert (zlen cells' = zlen cells) as Hz by (apply zlen_store; lia).
    rewrite <-Z.add_assoc. eapply wpm_store; [done|lia|lia|].
    replace (zlen cells - off) with (zlen cells' - off) by lia.
    apply (live_vec R _ hs blk base cells' off repr); try done; try lia.
    + by eapply heap_ok_update.
    + simpl. by rewrite Hh, insert_insert_eq.
    + apply Hshow; (done || lia).
  - pose proof (at_arc_lookup _ _ _ _ _ _ _ _ _ _ _ _ _ _ _ _ Hat) as [Hk _].
    destruct Hat as (Hh & HR' & Hb & Hs & Hm & -> & Hf & Hoff & Hlen & Hcap & Hload & Hsa).
    simpl in *. pose proof (arc_ids Hf) as Hids.
    assert (zlen cells' = zlen cells) as Hz by (apply zlen_store; lia).
    rewrite <-Z.add_assoc. eapply wpm_store; [done|lia|lia|].
    set (e := (HMut (mkBytesMut _ _ _ _), bs')).
    apply (live_arc (e :: S) _ R' _ hs blk base cells' sid sa vlen repr (zlen S + 1)); try done.
    + by eapply heap_ok_update.
    + simpl. rewrite Hh, Hz, insert_insert_ne by congruence. by rewrite insert_insert_eq.
    + lia.
    + apply (store_family _ _ _ _ _ _ _ cap bs); (done || lia || apply Hshow; (done || lia)).
    + unfold zlen. simpl. lia.
    + by rewrite HR.
Qed.

(** The bytes [new], stored behind the content of a handle with room. *)
Lemma store_spare_ok b bs R h new :
  live ((HMut b, bs) :: R) h → zlen bs + zlen new ≤ bm_cap b →
  ∀ p, p = mkPtr (prov (bm_ptr b)) (addr (bm_ptr b) + zlen bs) →
  wpm (store p (Some <$> new)) h bm_stop (λ _ h',
    live ((HMut (mkBytesMut (bm_ptr b) (zlen bs + zlen new) (bm_cap b) (bm_data b)),
           bs ++ new) :: R) h').
Proof.
  intros Hlive Hroom p ->. pose proof (zlen_nonneg bs). rewrite <-zlen_app.
  eapply store_ok; [exact Hlive|lia|rewrite zlen_Some; lia|rewrite zlen_app; lia|].
  intros. apply load_append; (done || lia).
Qed.

Lemma live_block b bs R h :
  live ((HMut b, bs) :: R) h →
  ∃ blk base cells off, bm_ptr b = mkPtr (Some blk) (base + off)
    ∧ objs h !! blk = Some (base, OBytes cells) ∧ 0 ≤ off ∧ off + bm_cap b ≤ zlen cells
    ∧ zlen cells ≤ isize_max ∧ cells_load cells off (zlen bs) = Some <$> bs.
Proof.
  intros [Hok [(hs & blk & base & cells & off & repr & Hat)
    |(S & R' & hs & blk & base & cells & sid & sa & vlen & repr & off & cap & HR & Hat)]]%live_inv;
    exists blk, base, cells, off.
  - pose proof (at_vec_lookup _ _ _ _ _ _ _ _ _ _ Hat) as Hk.
    destruct Hat as (_ & _ & _ & ? & -> & ? & _ & ? & ?). simpl. split_and!; (done || lia).
  - pose proof (at_arc_lookup _ _ _ _ _ _ _ _ _ _ _ _ _ _ _ _ Hat) as [Hk _].
    destruct Hat as (_ & _ & _ & _ & ? & -> & _ & ? & ? & ? & ? & _). simpl.
    split_and!; (done || lia).
Qed.

Lemma spare_ok b bs R h :
  live ((HMut b, bs) :: R) h →
  wpm (spare_capacity_mut b) h bm_stop (λ '(p, n) h',
    h' = h ∧ p = mkPtr (prov (bm_ptr b)) (addr (bm_ptr b) + zlen bs) ∧ n = bm_cap b - zlen bs).
Proof.
  intros Hlive. destruct (live_len _ _ _ _ Hlive) as (El & Hc & Hm).
  pose proof (zlen_nonneg bs). unfold spare_capacity_mut, isize_max in *. rewrite El.
  destruct (live_block _ _ _ _ Hlive) as (blk & base & cells & off & Ep & Hk & Hoff & Hcells & _).
  rewrite Ep. simpl. apply wpm_bind. eapply wpm_ptr_offset; [done|lia|lia|].
  apply wpm_bind, wpm_usize_sub; [lia|].
  apply wpm_bind. eapply wpm_valid_range; [done|lia|lia|lia|].
  apply wpm_ret. split_and!; [done| |done]. by rewrite Z.add_assoc.
Qed.

(** [BufMut::advance_mut] over bytes that have been stored. *)
Lemma wpm_advance_mut b cnt h (Q : BytesMut → heap → Prop) :
  0 ≤ bm_len b → 0 ≤ cnt → bm_len b + cnt ≤ bm_cap b → bm_cap b ≤ isize_max →
  Q (mkBytesMut (bm_ptr b) (bm_len b + cnt) (bm_cap b) (bm_data b)) h →
  wpm (bm_advance_mut b cnt) h bm_stop Q.
Proof.
  intros. unfold bm_advance_mut, isize_max in *. apply wpm_bind, wpm_usize_sub; [lia|].
  rewrite (proj2 (Z.ltb_ge _ _)) by lia. apply wpm_bind, wpm_usize_add; [lia|]. by apply wpm_ret.
Qed.

(** What [extend_from_slice] and [put_bytes] do after the reservation. *)
Lemma append_tail_ok b bs R h new :
  reserved bs R (zlen new) b h →
  wpm ('(dst, n) ← spare_capacity_mut b;
       debug_assertM (Ret (zlen new <=? n));;
       store dst (Some <$> new);;
       bm_advance_mut b (zlen new)) h bm_stop (λ b' h', live ((HMut b', bs ++ new) :: R) h').
Proof.
  intros [Hlive Hroom]. destruct (live_len _ _ _ _ Hlive) as (El & Hc & Hm).
  pose proof (zlen_nonneg bs). pose proof (zlen_nonneg new).
  apply wpm_bind. eapply wpm_mono; [by eapply spare_ok|].
  intros [p n] h' (-> & -> & ->).
  apply wpm_bind, wpm_debug_assert; [by rewrite (proj2 (Z.leb_le _ _)) by lia|].
  apply wpm_bind. eapply wpm_mono; [eapply store_spare_ok; [exact Hlive|lia|done]|].
  intros [] h' Hlive'. apply wpm_advance_mut; [lia..|]. by rewrite El.
Qed.

Lemma extend_from_slice_ok b bs R h new :
  live ((HMut b, bs) :: R) h → zlen new ≤ isize_max →
  wpm (extend_from_slice b new) h bm_stop (λ b' h', live ((HMut b', bs ++ new) :: R) h').
Proof using Hal.
  intros Hlive Hn. pose proof (zlen_nonneg new). unfold extend_from_slice.
  apply wpm_bind. eapply wpm_mono; [by apply reserve_ok|].
  intros b1 h1 Hres. by apply append_tail_ok.
Qed.

Lemma bm_put_bytes_ok b bs R h val cnt :
  live ((HMut b, bs) :: R) h → 0 ≤ cnt ≤ isize_max →
  wpm (bm_put_bytes b val cnt) h bm_stop
      (λ b' h', live ((HMut b', bs ++ replicate (Z.to_nat cnt) val) :: R) h').
Proof using Hal.
  intros Hlive Hn. unfold bm_put_bytes. apply wpm_bind. eapply wpm_mono; [by apply reserve_ok|].
  intros b1 h1 Hres. assert (zlen (replicate (Z.to_nat cnt) val) = cnt) as Hz
    by (unfold zlen; rewrite length_replicate; lia).
  set (new := replicate _ _) in *. rewrite <-Hz in Hres.
  pose proof (append_tail_ok _ _ _ _ _ Hres) as Ht. rewrite Hz in Ht. unfold new in Ht.
  by rewrite fmap_replicate in Ht.
Qed.

Lemma resize_ok b bs R h new_len value :
  live ((HMut b, bs) :: R) h → 0 ≤ new_len ≤ isize_max →
  wpm (resize b new_len value) h bm_stop (λ b' h',
    live ((HMut b', ztake new_len bs ++ replicate (Z.to_nat (new_len - zlen bs)) value) :: R) h').
Proof using Hal.
  intros Hlive Hn. destruct (live_len _ _ _ _ Hlive) as (El & _).
  pose proof (zlen_nonneg bs). unfold resize, checked_sub.
  destruct (Z.leb_spec (bm_len b) new_len).
  - rewrite ztake_all by lia. destruct (Z.eqb_spec (new_len - bm_len b) 0) as [E|E].
    { apply wpm_ret. replace (new_len - zlen bs) with 0 by lia. simpl. by rewrite app_nil_r. }
    set (new := replicate (Z.to_nat (new_len - zlen bs)) value).
    assert (zlen new = new_len - zlen bs) as Hz
      by (unfold new, zlen; rewrite length_replicate; unfold zlen in *; lia).
    apply wpm_bind. eapply wpm_mono; [apply reserve_ok; [done|lia]|].
    intros b1 h1 [Hlive1 Hroom]. destruct (live_len _ _ _ _ Hlive1) as (El1 & ? & ?).
    apply wpm_bind. eapply wpm_mono; [by eapply spare_ok|]. intros [p n] h' (-> & -> & ->).
    rewrite El, <-fmap_replicate. fold new.
    apply wpm_bind. eapply wpm_mono; [eapply store_spare_ok; [exact Hlive1|lia|done]|].
    intros [] h2 Hlive2. unfold bm_set_len.
    apply wpm_bind, wpm_debug_assert; [by rewrite (proj2 (Z.leb_le _ _)) by lia|].
    apply wpm_ret. by replace (zlen bs + zlen new) with new_len in Hlive2 by lia.
  - replace (Z.to_nat (new_len - zlen bs)) with 0%nat by lia. rewrite app_nil_r.
    apply truncate_ok; [done|lia].
Qed.
End grow.
