(* ===== verification/BytesMutOps.v ===== *)
(** * The remaining operations of [BytesMut]: construction, reading, joining and
    conversion to a vector *)

From S2P Require Import Prelude RustVec Mem Buf BufAdapters.
From S2P Require Import BytesMut World BytesMutSpec BytesMutGrow.

Section ops.
Context `{Build} `{Hal : AllocatorLaws}.

(** ** Vectors *)

(** A [Vec<u8>] with the content [bs], next to the handles [R]. *)
Definition vec_live (v : RVec) (bs : list byte) (R : list entry) (h : heap) : Prop :=
  heap_ok h ∧ ∃ hs blk base cells,
    v = mkRVec (mkPtr (Some blk) base) (zlen cells) (zlen bs)
    ∧ objs h = <[blk := (base, OBytes cells)]> hs ∧ hs !! blk = None ∧ world R hs
    ∧ zlen cells ≤ isize_max ∧ zlen bs ≤ zlen cells
    ∧ cells_load cells 0 (zlen bs) = Some <$> bs.

Lemma vec_live_new R h a cells bs :
  live R h → heap_ok (alloc_heap h a (OBytes cells)) → zlen cells ≤ isize_max →
  zlen bs ≤ zlen cells → cells_load cells 0 (zlen bs) = Some <$> bs →
  vec_live (mkRVec (mkPtr (Some (next h)) a) (zlen cells) (zlen bs)) bs R
    (alloc_heap h a (OBytes cells)).
Proof.
  intros [Hok Hw] Hok' ???. split; [done|]. exists (objs h), (next h), a, cells.
  split_and!; try done. by apply heap_ok_fresh.
Qed.

(** A vector is a handle that owns all of its allocation. *)
Definition as_handle (v : RVec) : BytesMut :=
  mkBytesMut (rv_ptr v) (rv_len v) (rv_cap v) (mkPtr None (vec_data 0 0)).

Lemma vec_live_handle v bs R h : vec_live v bs R h ↔ live ((HMut (as_handle v), bs) :: R) h.
Proof.
  split.
  - intros [Hok (hs & blk & base & cells & -> & Hh & Hb & HR & Hm & Hl & Hload)].
    unfold as_handle. simpl. replace base with (base + 0) by lia.
    replace (zlen cells) with (zlen cells - 0) by lia.
    by eapply live_vec.
  - intros [Hok [(hs & blk & base & cells & off & repr & Hat)
      |(S & R' & hs & blk & base & cells & sid & sa & vlen & repr & off & cap & HR & Hat)]]%live_inv.
    + destruct Hat as (Hh & HR & Hb & Hm & Ev & Hoff & Hrepr & Hl & Hload).
      destruct v as [p cap len]. injection Ev as -> -> -> Hd. unfold vec_data in Hd.
      assert (off = 0) as -> by lia. split; [done|]. exists hs, blk, base, cells.
      rewrite Z.add_0_r, Z.sub_0_r. by split_and!.
    + by destruct Hat as (_ & _ & _ & _ & _ & [=] & _).
Qed.

Lemma rv_of_bytes_ok R h bs :
  live R h → wpm (rv_of_bytes bs) h bm_stop (λ v h', vec_live v bs R h').
Proof using Hal.
  intros Hlive. apply (wpm_rv_of_bytes _ bm_stop_abort bm_stop_capacity); [apply Hlive|].
  intros a o Hl _ Hok. unfold o in *. rewrite <-(zlen_Some bs) at 1.
  apply vec_live_new; rewrite ?zlen_Some; try done.
  rewrite <-(zlen_Some bs). apply load_all.
Qed.

Lemma rv_with_capacity_ok R h n :
  live R h → 0 ≤ n →
  wpm (rv_with_capacity n) h bm_stop (λ v h', vec_live v [] R h' ∧ rv_cap v = n).
Proof using Hal.
  intros Hlive Hn. apply (wpm_rv_with_capacity _ bm_stop_abort bm_stop_capacity);
    [apply Hlive|done|].
  intros a o Hl _ Hok. unfold o in *. split; [|done].
  rewrite <-(zlen_uninit n) at 1 by done. apply (vec_live_new R h a _ []); try done.
  - by rewrite zlen_uninit.
  - apply zlen_nonneg.
Qed.

Lemma from_vec_ok v bs R h :
  vec_live v bs R h →
  wpm (from_vec v) h bm_stop
      (λ b h', live ((HMut b, bs) :: R) h' ∧ bm_cap b = rv_cap v).
Proof.
  intros [Hok (hs & blk & base & cells & -> & Hh & Hb & HR & Hm & Hl & Hload)].
  assert (0 < base).
  { destruct (ok_obj h Hok blk base (OBytes cells)) as [? _]; [|done].
    rewrite Hh. apply lookup_insert_eq. }
  unfold from_vec. apply wpm_bind, wpm_vptr; [simpl; lia|].
  pose proof (original_capacity_to_repr_range (zlen cells) (zlen_nonneg _)).
  apply wpm_ret. simpl. rewrite vec_data_new by done. split; [|done].
  replace base with (base + 0) at 1 by lia. replace (zlen cells) with (zlen cells - 0) at 1 by lia.
  eapply live_vec; [done|exact Hh|done|done|done| |done|lia|done].
  rewrite max_vec_pos_val. lia.
Qed.

Lemma from_slice_ok R h bs :
  live R h → wpm (from_slice bs) h bm_stop (λ b h', live ((HMut b, bs) :: R) h').
Proof using Hal.
  intros Hlive. apply wpm_bind. eapply wpm_mono; [by apply rv_of_bytes_ok|].
  intros v h' Hv. eapply wpm_mono; [eapply from_vec_ok; exact Hv|]. by intros b h'' [? _].
Qed.

Lemma zeroed_ok R h n :
  live R h →
  wpm (zeroed n) h bm_stop (λ b h', live ((HMut b, replicate (Z.to_nat n) Byte.x00) :: R) h').
Proof using Hal. intros Hlive. by apply (from_slice_ok R h (replicate _ _)). Qed.

Lemma with_capacity_ok R h n :
  live R h → 0 ≤ n →
  wpm (with_capacity n) h bm_stop (λ b h', live ((HMut b, []) :: R) h' ∧ bm_cap b = n).
Proof using Hal.
  intros Hlive Hn. apply wpm_bind. eapply wpm_mono; [by apply rv_with_capacity_ok|].
  intros v h' [Hv <-]. eapply from_vec_ok; exact Hv.
Qed.

(** ** Reading *)

Lemma as_slice_ok b bs R h E :
  live ((HMut b, bs) :: R) h → wpm (as_slice b) h E (λ r h', r = bs ∧ h' = h).
Proof.
  intros Hlive. destruct (live_len _ _ _ _ Hlive) as (El & ? & _). pose proof (zlen_nonneg bs).
  destruct (live_block _ _ _ _ Hlive) as (blk & base & cells & off & Ep & Hk & ? & ? & ? & Hload).
  unfold as_slice. rewrite Ep, El.
  eapply wpm_load_bytes; [exact Hk|lia|lia|lia|exact Hload|done].
Qed.

Lemma as_mut_write_ok b bs R h i x :
  live ((HMut b, bs) :: R) h → 0 ≤ i < zlen bs →
  wpm (as_mut_write b i x) h bm_stop (λ _ h', live ((HMut b, <[Z.to_nat i := x]> bs) :: R) h').
Proof.
  intros Hlive Hi. destruct (live_len _ _ _ _ Hlive) as (El & ? & _).
  destruct (live_block _ _ _ _ Hlive) as (blk & base & cells & off & Ep & Hk & ? & ? & ? & Hload).
  unfold as_mut_write. rewrite Ep, El.
  apply wpm_bind. eapply wpm_valid_range; [exact Hk|lia|lia|lia|].
  rewrite bool_decide_true by done.
  apply wpm_bind. eapply wpm_ptr_offset; [exact Hk|lia|lia|]. rewrite Z.add_assoc.
  assert (zlen (<[Z.to_nat i := x]> bs) = zlen bs) as Hz by (unfold zlen; by rewrite length_insert).
  pose proof (store_ok b bs R h i [Some x] (<[Z.to_nat i := x]> bs) Hlive) as Hst.
  rewrite Ep in Hst. simpl in Hst. rewrite Hz, <-Ep, <-El in Hst. destruct b; simpl in *.
  apply Hst; [lia|unfold zlen at 1; simpl; lia|lia|].
  intros. subst. apply load_update; (done || lia).
Qed.

Lemma bm_clone_ok b bs R h :
  live ((HMut b, bs) :: R) h →
  wpm (bm_clone b) h bm_stop (λ b' h', live ((HMut b', bs) :: (HMut b, bs) :: R) h').
Proof using Hal.
  intros Hlive. apply wpm_bind. eapply wpm_mono; [by eapply as_slice_ok|].
  intros r h' [-> ->]. by apply from_slice_ok.
Qed.

(** ** Writing a sequence of chunks *)

Lemma bm_extend_bytes_ok b bs R h items :
  live ((HMut b, bs) :: R) h → Forall (λ i, zlen i ≤ isize_max) items →
  wpm (bm_extend_bytes b items) h bm_stop (λ b' h', live ((HMut b', bs ++ mjoin items) :: R) h').
Proof using Hal.
  revert b bs h. induction items as [|i items IH]; intros b bs h Hlive Hall; simpl.
  - apply wpm_ret. by rewrite app_nil_r.
  - inversion Hall; subst. apply wpm_bind.
    eapply wpm_mono; [by apply extend_from_slice_ok|]. intros b1 h1 Hlive1.
    rewrite (assoc_L (++)). by apply IH.
Qed.

(** A string that fits into memory is always written. *)
Lemma bm_write_str_ok b bs R h s :
  live ((HMut b, bs) :: R) h → zlen s ≤ isize_max →
  wpm (bm_write_str b s) h bm_stop (λ '(b', r) h',
    r = Ok () ∧ live ((HMut b', bs ++ s) :: R) h').
Proof using Hal.
  intros Hlive Hs. destruct (live_len _ _ _ _ Hlive) as (El & ? & ?). pose proof (zlen_nonneg bs).
  unfold bm_write_str. apply wpm_bind. apply wpm_usize_sub; [unfold usize_max, isize_max in *; lia|].
  rewrite (proj2 (Z.leb_le _ _)) by (unfold usize_max, isize_max in *; lia).
  apply wpm_bind. eapply wpm_mono; [by apply extend_from_slice_ok|]. by intros b' h' ?.
Qed.

(** [I] is what every [advance] of the source keeps. *)
Lemma bm_put_inv_ok {B} `{BufLaws B} (I : B → Prop) fuel b bs R h (src : B) :
  (∀ s n s', buf_wf s → I s → 0 ≤ n ≤ zlen (content s) → advance s n = Ret s' → I s') → I src →
  live ((HMut b, bs) :: R) h → buf_wf src → zlen (content src) ≤ isize_max →
  zlen (content src) ≤ Z.of_nat fuel →
  wpm (bm_put fuel b src) h bm_stop (λ '(b', src') h',
    live ((HMut b', bs ++ content src) :: R) h' ∧ content src' = [] ∧ buf_wf src' ∧ I src').
Proof using Hal.
  intros HI. revert b bs h src. induction fuel as [|fuel IH]; intros b bs h src Hi Hlive Hs Hm Hf; simpl;
    rewrite has_remaining_spec by done; case_bool_decide as Hc; simpl;
    try (rewrite Hc, app_nil_r; by apply wpm_ret).
  { destruct (content src); [done|]. unfold zlen in Hf. simpl in Hf. lia. }
  destruct (chunk_prefix src Hs) as [k Hk]. pose proof (chunk_nonempty src Hs Hc) as Hne.
  assert (0 < zlen (chunk src)).
  { destruct (chunk src); [done|]. unfold zlen. simpl. lia. }
  assert (zlen (content src) = zlen (chunk src) + zlen k) as Hlk by (by rewrite Hk, zlen_app).
  pose proof (zlen_nonneg k).
  apply wpm_bind. eapply wpm_mono; [apply extend_from_slice_ok; [done|lia]|].
  intros b1 h1 Hlive1.
  destruct (advance_ok src (zlen (chunk src)) Hs) as (src' & Hadv & Hs' & Hc'); [lia|].
  apply wpm_bind, wpm_lift. rewrite Hadv. simpl. rewrite Hk, zdrop_app_exact in Hc'.
  assert (I src') as Hi' by (eapply (HI src); [done|done| |exact Hadv]; lia).
  eapply wpm_mono; [apply IH; [exact Hi'|exact Hlive1|done|rewrite Hc'; lia|rewrite Hc'; lia]|].
  intros [b2 src2] h2 (Hlive2 & ?). split; [|done]. by rewrite Hk, (assoc_L (++)), <-Hc'.
Qed.

Lemma bm_put_ok {B} `{BufLaws B} fuel b bs R h (src : B) :
  live ((HMut b, bs) :: R) h → buf_wf src → zlen (content src) ≤ isize_max →
  zlen (content src) ≤ Z.of_nat fuel →
  wpm (bm_put fuel b src) h bm_stop (λ '(b', src') h',
    live ((HMut b', bs ++ content src) :: R) h' ∧ content src' = []).
Proof using Hal.
  intros. eapply wpm_mono; [by apply (bm_put_inv_ok (λ _, True))|]. by intros [b' s'] h' (? & ? & _).
Qed.

(** ** Joining *)

(** A handle with a reference count has its [Shared] in the heap. *)
Lemma arc_in_world L hs o os :
  world L hs → (HMut o, os) ∈ L → kind o = KIND_ARC →
  ∃ sid sa s, bm_data o = mkPtr (Some sid) sa ∧ hs !! sid = Some (sa, OShared s).
Proof.
  intros Hw [R HR]%elem_of_Permutation Hkind.
  rewrite HR in Hw. apply world_mut_inv in Hw as
    [(hs' & blk & base & cells & _ & _ & _ & _ & Hv)
    |(hs' & S & R' & blk & base & cells & sid & sa & vlen & repr & _ & -> & _ & _ & _ & _ & Hf)].
  - apply vec_handle_inv in Hv as (off & repr & -> & _). by rewrite kind_vec in Hkind.
  - pose proof (arc_handles Hf) as Hall. inversion Hall as [|?? Ho _]; subst.
    destruct Ho as (_ & _ & Hd & _). exists sid, sa. eexists. split; [done|]. apply lookup_insert_eq.
Qed.

(** Two handles whose [data] words are the same share one vector. *)
Lemma same_data_same_family b bs o os S R' h hs blk base cells sid sa vlen repr off cap count :
  heap_ok h → at_arc b bs S R' h hs blk base cells sid sa vlen repr off cap count →
  (HMut o, os) ∈ S ++ R' → kind o = KIND_ARC → addr (bm_data o) = sa → (HMut o, os) ∈ S.
Proof.
  intros Hok Hat [Hin|Hin]%elem_of_app Hkind Hsa; [done|]. exfalso.
  pose proof (at_arc_lookup _ _ _ _ _ _ _ _ _ _ _ _ _ _ _ _ Hat) as [_ Hsk].
  destruct Hat as (Hh & HR' & Hb & Hs & _).
  destruct (arc_in_world _ _ _ _ HR' Hin Hkind) as (sid' & sa' & s & Hd & Hk).
  rewrite Hd in Hsa. simpl in Hsa. subst sa'.
  assert (sid ≠ sid') by congruence. assert (blk ≠ sid') by congruence.
  assert (objs h !! sid' = Some (sa, OShared s)) as Hk'
    by (by rewrite Hh, !lookup_insert_ne).
  pose proof (ok_disjoint h Hok sid sid' _ _ _ _ ltac:(done) Hsk Hk') as Hd'.
  unfold disjoint_ranges in Hd'. simpl in Hd'. lia.
Qed.

Lemma merge_family blk base cells sid sa repr off len cap olen ocap (bs os : list byte) S :
  let ptr := mkPtr (Some blk) (base + off) in
  let optr := mkPtr (Some blk) (base + (off + len)) in
  let data := mkPtr (Some sid) sa in
  arc_family blk base cells sid sa repr
    ((HMut (mkBytesMut ptr len cap data), bs) :: (HMut (mkBytesMut optr olen ocap data), os) :: S) →
  0 < len → 0 < ocap →
  arc_family blk base cells sid sa repr
    ((HMut (mkBytesMut ptr (len + olen) (cap + ocap) data), bs ++ os) :: S).
Proof.
  intros ptr optr data [Hids Hh Hc Hr Hn] Hlen Hocap. subst ptr optr data.
  inversion Hh as [|?? Hb Hh']; subst. inversion Hh' as [|?? Ho HS]; subst.
  inversion Hc as [|?? Hcb Hc']; subst. inversion Hc' as [|?? Hco HcS]; subst.
  inversion Hcb as [|?? Hbo HcbS]; subst.
  apply arc_handle_inv in Hb as (off1 & cap1 & Eb & Hoff & Hcap & Hin & Hload).
  apply arc_handle_inv in Ho as (off2 & cap2 & Eo & Hoff2 & Hcap2 & Hin2 & Hload2).
  injection Eb as E1 E2 E3. injection Eo as E4 E5 E6. rewrite compat_mut in Hbo. simpl in Hbo.
  assert (off1 = off) as -> by lia. assert (off2 = off + len) as -> by lia. subst cap1 cap2 len olen.
  pose proof (zlen_nonneg bs). pose proof (zlen_nonneg os).
  assert (cap = zlen bs) as -> by (unfold separate in Hbo; lia).
  split; [done| |constructor; [|done]|done|unfold zlen in *; simpl in *; lia].
  - constructor; [|done]. rewrite <-zlen_app. apply arc_handle_intro; [done|rewrite zlen_app; lia|lia|].
    rewrite zlen_app, load_add, fmap_app by lia. by rewrite Hload, Hload2.
  - rewrite Forall_forall in HcbS, Hco, HS |- *. intros x Hx. specialize (HcbS x Hx).
    specialize (Hco x Hx). destruct (HS x Hx) as ((_ & ? & _) & _).
    rewrite compat_mut in HcbS, Hco |- *. simpl in *. unfold separate in *. lia.
Qed.

Lemma ForallOrdPairs_cons_inv {A} (P : A → A → Prop) x l :
  ForallOrdPairs P (x :: l) → Forall (P x) l ∧ ForallOrdPairs P l.
Proof. by inversion 1. Qed.

Lemma unsplit_merge_ok b bs o os R h :
  live ((HMut b, bs) :: (HMut o, os) :: R) h → 0 < zlen bs → 0 < bm_cap o →
  addr (bm_ptr b) + bm_len b = addr (bm_ptr o) →
  kind b = KIND_ARC → kind o = KIND_ARC → addr (bm_data b) = addr (bm_data o) →
  wpm (bm_drop o) h bm_stop (λ _ h',
    live ((HMut (mkBytesMut (bm_ptr b) (bm_len b + bm_len o) (bm_cap b + bm_cap o) (bm_data b)),
           bs ++ os) :: R) h')
  ∧ bm_len b + bm_len o ≤ isize_max ∧ bm_cap b + bm_cap o ≤ isize_max.
Proof.
  intros Hlive Hbs Hocap Hptr Hkb Hko Hdata.
  destruct (live_len _ _ _ _ Hlive) as (Elb & _).
  apply live_inv in Hlive as [Hok [(hs & blk & base & cells & off & repr & Hat)
    |(S & R' & hs & blk & base & cells & sid & sa & vlen & repr & off & cap & HR & Hat)]].
  { destruct Hat as (_ & _ & _ & _ & -> & _). by rewrite kind_vec in Hkb. }
  pose proof (at_arc_lookup _ _ _ _ _ _ _ _ _ _ _ _ _ _ _ _ Hat) as [Hk Hsk].
  assert ((HMut o, os) ∈ S) as [S' HS]%elem_of_Permutation.
  { eapply same_data_same_family; [done|exact Hat|rewrite <-HR; left|done|].
    rewrite <-Hdata. by destruct Hat as (_ & _ & _ & _ & _ & -> & _). }
  destruct Hat as (Hh & HR' & Hb & Hs & Hm & Eb & Hf & Hoff & Hlen & Hcap & Hload & Hsa).
  eapply arc_family_perm in Hf; [|apply perm_skip, HS].
  pose proof (arc_handles Hf) as Hall.
  rewrite !Forall_cons_iff in Hall. destruct Hall as (_ & Ho & _).
  apply arc_handle_inv in Ho as (ooff & ocap & Eo & Hooff & Holen & Hocap' & Hoload).
  subst b o. simpl in *. assert (ooff = off + zlen bs) as -> by lia.
  pose proof (arc_compat Hf) as [Hcb _]%ForallOrdPairs_cons_inv.
  rewrite Forall_cons_iff in Hcb. destruct Hcb as [Hbo _]. rewrite compat_mut in Hbo. simpl in Hbo.
  pose proof (zlen_nonneg os).
  assert (cap = zlen bs) by (unfold separate in Hbo; lia). split; [|lia].
  assert (zlen S = zlen S' + 1) as HzS by (unfold zlen; rewrite HS; simpl; lia).
  pose proof (arc_count Hf) as [_ Hcnt].
  assert (2 + zlen S' ≤ 2 ^ 63) by (unfold zlen in *; simpl in Hcnt; lia).
  unfold bm_drop. rewrite Hko. simpl. unfold release_shared.
  apply wpm_bind. eapply wpm_get_shared; [done|]. apply wpm_bind. eapply wpm_set_shared; [done|].
  simpl. pose proof (zlen_nonneg S'). rewrite (proj2 (Z.eqb_neq _ _)) by lia. simpl.
  apply wpm_ret. rewrite HzS. replace (uwrap 64 (zlen S' + 1 + 1 - 1)) with (zlen S' + 1)
    by (unfold uwrap; rewrite Z.mod_small; lia).
  set (e := (HMut (mkBytesMut _ _ _ _), bs ++ os)).
  apply (live_arc (e :: S') _ R' _ hs blk base cells sid sa vlen repr (zlen S' + 1)); try done.
  - by eapply heap_ok_update.
  - simpl. by rewrite Hh, insert_insert_eq.
  - by eapply merge_family.
  - unfold zlen. simpl. lia.
  - simpl. rewrite HS in HR. simpl in HR. by apply Permutation.Permutation_cons_inv in HR; rewrite HR.
Qed.

Lemma try_unsplit_ok b bs o os R h :
  live ((HMut b, bs) :: (HMut o, os) :: R) h → 0 < zlen bs →
  wpm (try_unsplit b o) h bm_stop (λ '(b', r) h',
    match r with
    | Ok _ => live ((HMut b', bs ++ os) :: R) h'
    | Err o' => b' = b ∧ o' = o ∧ h' = h
    end).
Proof.
  intros Hlive Hbs. pose proof Hlive as Hlive'. rewrite perm_swap in Hlive'.
  destruct (live_len _ _ _ _ Hlive) as (Elb & ? & ?).
  destruct (live_len _ _ _ _ Hlive') as (Elo & ? & ?).
  pose proof (zlen_nonneg os). unfold try_unsplit. destruct (Z.eqb_spec (bm_cap o) 0).
  { apply wpm_bind. eapply wpm_mono; [by eapply bm_drop_ok|]. intros [] h1 Hlive1.
    apply wpm_ret. assert (os = []) as -> by (apply zlen_nil_inv; lia). by rewrite app_nil_r. }
  destruct (live_block _ _ _ _ Hlive) as (blk & base & cells & off & Ep & Hk & ? & ? & ? & _).
  apply wpm_bind. rewrite Ep. eapply wpm_ptr_offset; [exact Hk|lia|lia|]. rewrite <-Ep. simpl.
  destruct (_ && _) eqn:Hc; [|by apply wpm_ret]. rewrite !andb_true_iff, !Z.eqb_eq in Hc.
  destruct Hc as [[[Hp ?] ?] ?].
  destruct (unsplit_merge_ok _ _ _ _ _ _ Hlive) as (Hdrop & ? & ?); [done|lia| |done..|].
  { rewrite Ep. simpl. lia. }
  apply wpm_bind, wpm_usize_add; [unfold isize_max in *; lia|].
  apply wpm_bind, wpm_usize_add; [unfold isize_max in *; lia|].
  apply wpm_bind. eapply wpm_mono; [exact Hdrop|]. intros [] h1 Hlive1. by apply wpm_ret.
Qed.

Lemma unsplit_ok b bs o os R h :
  live ((HMut b, bs) :: (HMut o, os) :: R) h →
  wpm (unsplit b o) h bm_stop (λ b' h', live ((HMut b', bs ++ os) :: R) h').
Proof using Hal.
  intros Hlive. pose proof Hlive as Hlive'. rewrite perm_swap in Hlive'.
  destruct (live_len _ _ _ _ Hlive) as (Elb & _). destruct (live_len _ _ _ _ Hlive') as (Elo & ? & ?).
  pose proof (zlen_nonneg bs). unfold unsplit. destruct (Z.eqb_spec (bm_len b) 0).
  { apply wpm_bind. eapply wpm_mono; [by eapply bm_drop_ok|]. intros [] h1 Hlive1.
    apply wpm_ret. assert (bs = []) as -> by (apply zlen_nil_inv; lia). done. }
  apply wpm_bind. eapply wpm_mono; [eapply try_unsplit_ok; [exact Hlive|lia]|].
  intros [b1 [[]|o1]] h1; [intros Hlive1; by apply wpm_ret|]. intros (-> & -> & ->).
  apply wpm_bind. eapply wpm_mono; [by eapply as_slice_ok|]. intros r h1 [-> ->].
  apply wpm_bind. eapply wpm_mono; [eapply extend_from_slice_ok; [exact Hlive|lia]|].
  intros b2 h2 Hlive2. simpl in Hlive2. rewrite perm_swap in Hlive2. apply wpm_bind.
  eapply wpm_mono; [by eapply bm_drop_ok|]. intros [] h3 Hlive3. by apply wpm_ret.
Qed.

(** Two neighbours in one vector are joined in place. *)
Lemma unsplit_adjacent_ok b bs o os R h :
  live ((HMut b, bs) :: (HMut o, os) :: R) h → 0 < zlen bs → bm_cap b = zlen bs → adjacent b o →
  wpm (unsplit b o) h bm_stop (λ b' h',
    live ((HMut b', bs ++ os) :: R) h' ∧ bm_ptr b' = bm_ptr b ∧ bm_cap b' = bm_cap b + bm_cap o).
Proof.
  intros Hlive Hbs Ecap (Hkind & Hdata & Hptr). pose proof Hlive as Hlive'.
  rewrite perm_swap in Hlive'. destruct (live_len _ _ _ _ Hlive) as (Elb & ? & ?).
  destruct (live_len _ _ _ _ Hlive') as (Elo & ? & ?). pose proof (zlen_nonneg os).
  unfold unsplit. rewrite (proj2 (Z.eqb_neq _ _)) by lia. unfold try_unsplit.
  apply wpm_bind. destruct (Z.eqb_spec (bm_cap o) 0) as [E0|].
  { apply wpm_bind. eapply wpm_mono; [by eapply bm_drop_ok|]. intros [] h1 Hlive1.
    apply wpm_ret, wpm_ret. assert (os = []) as -> by (apply zlen_nil_inv; lia).
    rewrite app_nil_r. split_and!; [done|done|lia]. }
  destruct (live_block _ _ _ _ Hlive) as (blk & base & cells & off & Ep & Hk & ? & ? & ? & _).
  apply wpm_bind. rewrite Ep. eapply wpm_ptr_offset; [exact Hk|lia|lia|]. rewrite <-Ep.
  assert (kind o = KIND_ARC) as Hko by (unfold kind; by rewrite Hdata).
  rewrite Hkind, Hko, Hdata, !Z.eqb_refl. simpl. rewrite (proj2 (Z.eqb_eq _ _)).
  2:{ rewrite Hptr, Ep. simpl. lia. }
  destruct (unsplit_merge_ok _ _ _ _ _ _ Hlive) as (Hdrop & ? & ?); try done; [lia|lia|by rewrite Hdata|].
  simpl. apply wpm_bind, wpm_usize_add; [unfold isize_max in *; lia|].
  apply wpm_bind, wpm_usize_add; [unfold isize_max in *; lia|].
  apply wpm_bind. eapply wpm_mono; [exact Hdrop|]. intros [] h1 Hlive1. by apply wpm_ret, wpm_ret.
Qed.

(** ** Conversion to a vector *)

(** The bytes are moved to the start of the vector. *)
Lemma finish_vec_ok blk base cells off len0 bs R h hs :
  heap_ok h → objs h = <[blk := (base, OBytes cells)]> hs → hs !! blk = None → world R hs →
  zlen cells ≤ isize_max → 0 ≤ off → off + zlen bs ≤ zlen cells →
  cells_load cells off (zlen bs) = Some <$> bs →
  let v := mkRVec (mkPtr (Some blk) base) (zlen cells) len0 in
  wpm (ptr_copy (mkPtr (Some blk) (base + off)) (rv_ptr v) (zlen bs);;
       mret (rv_set_len v (zlen bs))) h bm_stop
    (λ v' h', vec_live v' bs R h' ∧ rv_cap v' = zlen cells).
Proof.
  intros Hok Hh Hb HR Hm Hoff Hl Hload v. subst v. pose proof (zlen_nonneg bs).
  assert (objs h !! blk = Some (base, OBytes cells)) as Hk by (rewrite Hh; apply lookup_insert_eq).
  apply wpm_bind, wpm_bind. eapply wpm_load; [exact Hk|lia..|]. rewrite Hload. simpl rv_ptr.
  replace base with (base + 0) at 1 by lia.
  eapply wpm_store; [exact Hk|lia|rewrite zlen_Some; lia|]. apply wpm_ret. split; [|done].
  split; [eapply heap_ok_update; [done|exact Hk| |done]; simpl; rewrite zlen_store; rewrite ?zlen_Some; lia|].
  exists hs, blk, base, (cells_store cells 0 (Some <$> bs)).
  rewrite zlen_store by (rewrite ?zlen_Some; lia).
  split_and!; try done; [simpl; by rewrite Hh, insert_insert_eq|lia|].
  rewrite <-(zlen_Some bs). apply load_store; rewrite ?zlen_Some; lia.
Qed.

(** The only handle of a [Shared] takes the vector out, leaves an empty one and
    lets the [Shared] go. *)
Lemma take_unique_ok {A} blk base cells sid sa v repr h hs (k : M A) (Q : A → heap → Prop) :
  let p := mkPtr (Some sid) sa in
  heap_ok h →
  objs h = <[sid := (sa, OShared (mkShared v repr 1))]> (<[blk := (base, OBytes cells)]> hs) →
  hs !! sid = None → sid ≠ blk →
  (∀ h', heap_ok h' → objs h' = <[blk := (base, OBytes cells)]> hs → wpm k h' bm_stop Q) →
  wpm (empty ← rv_new; set_shared p (mkShared empty repr 1);; release_shared p;; k) h bm_stop Q.
Proof using Hal.
  intros p Hok Hh Hs Hne Hk. subst p. pose proof (heap_ok_fresh h Hok) as Hf.
  assert (next h ≠ sid) as Hn by (intros E; by rewrite Hh, E, lookup_insert_eq in Hf).
  apply wpm_bind, (wpm_rv_with_capacity _ bm_stop_abort bm_stop_capacity); [done|lia|].
  intros a o _ _ Hok1. set (h1 := alloc_heap h a o) in *.
  assert (objs h1 !! sid = Some (sa, OShared (mkShared v repr 1))) as Hk1
    by (unfold h1; simpl; by rewrite lookup_insert_ne, Hh, lookup_insert_eq).
  apply wpm_bind. eapply wpm_set_shared; [exact Hk1|].
  set (s1 := mkShared _ _ _). set (h2 := mkHeap _ _).
  assert (heap_ok h2) as Hok2 by by eapply heap_ok_update.
  assert (objs h2 !! sid = Some (sa, OShared s1)) as Hk2 by apply lookup_insert_eq.
  apply wpm_bind. unfold release_shared. apply wpm_bind. eapply wpm_get_shared; [exact Hk2|].
  apply wpm_bind. eapply wpm_set_shared; [exact Hk2|]. simpl negb. cbv iota.
  set (s2 := mkShared _ _ _). set (h3 := mkHeap _ _).
  assert (heap_ok h3) as Hok3 by by eapply heap_ok_update.
  eapply (wpm_drop_box_shared _ sid sa (next h) a []); [done| |by apply lookup_insert_eq|].
  { unfold h3, h2, h1. simpl. by rewrite !lookup_insert_ne, lookup_insert_eq by done. }
  apply Hk; [exact (heap_ok_free _ sid (heap_ok_free h3 _ Hok3))|]. unfold h3, h2, h1. simpl.
  rewrite insert_insert_eq, (delete_insert_ne _ (next h)) by done.
  rewrite (delete_insert_id (objs h)) by done. rewrite Hh, insert_insert_eq, delete_insert_id; [done|].
  by rewrite lookup_insert_ne.
Qed.

Lemma into_vec_ok b bs R h :
  live ((HMut b, bs) :: R) h →
  wpm (into_vec b) h bm_stop (λ v h', vec_live v bs R h').
Proof using Hal.
  intros Hlive. destruct (live_len _ _ _ _ Hlive) as (El & _). pose proof (zlen_nonneg bs).
  unfold into_vec. pose proof Hlive as
    [Hok [(hs & blk & base & cells & off & repr & Hat)
    |(S & R' & hs & blk & base & cells & sid & sa & vlen & repr & off & cap & HR & Hat)]]%live_inv.
  - pose proof (at_vec_lookup _ _ _ _ _ _ _ _ _ _ Hat) as Hk.
    destruct Hat as (Hh & HR & Hb & Hm & -> & Hoff & Hrepr & Hl & Hload). rewrite kind_vec. simpl.
    apply wpm_bind, wpm_get_vec_pos; [done|].
    apply wpm_bind. eapply wpm_rebuild_vec; [done|done|lia|lia|lia|].
    eapply wpm_mono; [eapply finish_vec_ok; (done || lia)|]. by intros v h' [? _].
  - pose proof (at_arc_lookup _ _ _ _ _ _ _ _ _ _ _ _ _ _ _ _ Hat) as [Hk Hsk].
    pose proof Hat as (Hh & HR' & Hb & Hs & Hm & Eb & Hf & Hoff & Hlen & Hcap & Hload & Hsa).
    assert (kind b = KIND_ARC) as Hkind by (rewrite Eb; by apply kind_arc). rewrite Hkind. simpl.
    apply wpm_bind. rewrite Eb. simpl bm_data. eapply wpm_get_shared; [exact Hsk|].
    unfold is_unique. simpl. destruct (Z.eqb_spec (zlen S + 1) 1).
    + assert (S = []) as -> by (apply zlen_nil_inv; lia). simpl in HR.
      pose proof (arc_ids Hf).
      eapply take_unique_ok; [exact Hok|exact Hh|done|done|]. intros h' Hok' Hh'. simpl.
      eapply wpm_mono; [eapply finish_vec_ok; (done || lia)|].
      intros v h'' [[Hok'' Hv] _]. split; [done|]. destruct Hv as (hs' & ? & ? & ? & Hv).
      exists hs'. do 3 eexists. by rewrite HR.
    + apply wpm_bind. rewrite <-Eb. eapply wpm_mono; [by eapply as_slice_ok|]. intros r h1 [-> ->].
      apply wpm_bind. eapply wpm_mono; [by apply rv_of_bytes_ok|].
      intros v h1 Hv%vec_live_handle. rewrite perm_swap in Hv.
      apply wpm_bind. eapply wpm_mono; [by eapply bm_drop_ok|]. intros [] h2 Hlive2.
      apply wpm_ret. by apply vec_live_handle.
Qed.
End ops.
