(* ===== verification/BytesSpec.v ===== *)
(** * What the operations of [Bytes] do

    The same program states as for [BytesMut]: an operation keeps the content of
    every other handle, has no undefined behaviour and leaks nothing. *)

From S2P Require Import Prelude RustVec Mem Buf BytesMut Bytes World BytesMutSpec BytesMutGrow BytesMutOps.

(** ** The forms of a live [Bytes] *)

(** It owns a boxed slice. *)
Definition at_box (b : Bytes) (bs : list byte) (R : list entry) (h : heap)
    (hs : objects) (blk : positive) (base : Z) (cells : list cell) (off : Z) : Prop :=
  objs h = <[blk := (base, OBytes cells)]> hs ∧ world R hs ∧ hs !! blk = None
  ∧ zlen cells ≤ isize_max ∧ 0 < zlen cells
  ∧ by_ptr b = mkPtr (Some blk) (base + off) ∧ by_len b = zlen bs
  ∧ box_data blk base (by_vtable b) = Some (by_data b)
  ∧ 0 ≤ off ∧ off + zlen bs = zlen cells ∧ cells_load cells off (zlen bs) = Some <$> bs.

(** It is counted with the handles [S]. *)
Definition at_count (c : counter) (b : Bytes) (bs : list byte) (S R' : list entry) (h : heap)
    (hs : objects) (blk : positive) (base : Z) (cells : list cell) (sid : positive) (sa off : Z)
    : Prop :=
  objs h = <[sid := (sa, counter_obj c blk base cells (zlen S + 1))]>
             (<[blk := (base, OBytes cells)]> hs)
  ∧ world R' hs ∧ hs !! blk = None ∧ hs !! sid = None ∧ zlen cells ≤ isize_max
  ∧ by_ptr b = mkPtr (Some blk) (base + off) ∧ by_len b = zlen bs
  ∧ by_data b = mkPtr (Some sid) sa ∧ counts c (HBytes b)
  ∧ family c blk base cells sid sa ((HBytes b, bs) :: S)
  ∧ 0 ≤ off ∧ off + zlen bs ≤ zlen cells ∧ cells_load cells off (zlen bs) = Some <$> bs
  ∧ sa mod 8 = 0.

Lemma shows_bytes cells base b bs :
  shows cells base (HBytes b, bs) →
  ∃ off, addr (by_ptr b) = base + off ∧ by_len b = zlen bs ∧ 0 ≤ off
    ∧ off + zlen bs ≤ zlen cells ∧ cells_load cells off (zlen bs) = Some <$> bs.
Proof.
  unfold shows. simpl. intros (Hoff & Hlen & Hcap & Hload).
  assert (by_len b = zlen bs) as El.
  { apply (f_equal zlen) in Hload. by rewrite zlen_load, zlen_Some in Hload by lia. }
  exists (addr (by_ptr b) - base). rewrite El in *. split_and!; (done || lia).
Qed.

Lemma shows_bytes_intro cells base b bs off :
  addr (by_ptr b) = base + off → by_len b = zlen bs → 0 ≤ off → off + zlen bs ≤ zlen cells →
  cells_load cells off (zlen bs) = Some <$> bs → shows cells base (HBytes b, bs).
Proof.
  intros Ep El ???. unfold shows. simpl. rewrite Ep, El. replace (base + off - base) with off by lia.
  pose proof (zlen_nonneg bs). split_and!; (done || lia).
Qed.

Lemma counter_align c blk base cells n : obj_align (counter_obj c blk base cells n) = 8.
Proof. by destruct c. Qed.
Lemma counter_size c blk base cells n n' :
  obj_size (counter_obj c blk base cells n) = obj_size (counter_obj c blk base cells n').
Proof. by destruct c. Qed.

Lemma ptr_eta p k a : prov p = Some k → addr p = a → p = mkPtr (Some k) a.
Proof. by destruct p; simpl; intros -> ->. Qed.

Lemma live_bytes_inv b bs R h :
  live ((HBytes b, bs) :: R) h →
  heap_ok h
  ∧ ((empty_handle (HBytes b, bs) ∧ live R h)
     ∨ (∃ hs blk base cells off, at_box b bs R h hs blk base cells off)
     ∨ (∃ c S R' hs blk base cells sid sa off, R ≡ₚ S ++ R'
          ∧ at_count c b bs S R' h hs blk base cells sid sa off)).
Proof.
  intros [Hok Hw]. split; [done|].
  apply world_inv in Hw as [[He Hw]
    |[(hs & blk & base & cells & Hh & HR & Hb & Hc & Hv)
    |(c & hs & S & R' & blk & base & cells & sid & sa & HS & Hh & HR & Hb & Hs & Hc & Hf)]].
  - by left.
  - right; left. destruct Hv as (Hsh & Hprov & Hend & Hpos & Hdata). simpl in *.
    apply shows_bytes in Hsh as (off & Ep & El & ? & ? & ?).
    exists hs, blk, base, cells, off. unfold at_box.
    split_and!; try done; [by apply ptr_eta|]. rewrite Ep, El in Hend. lia.
  - right; right. pose proof (fam_handles _ _ _ _ _ _ _ Hf) as Hall.
    inversion Hall as [|?? (Hsh & Hprov & Hdata & Hcounts) _]; subst. simpl in *.
    apply shows_bytes in Hsh as (off & Ep & El & ? & ? & ?).
    replace (zlen ((HBytes b, bs) :: S)) with (zlen S + 1) in Hh by (unfold zlen; simpl; lia).
    exists c, S, R', hs, blk, base, cells, sid, sa, off. split; [done|]. unfold at_count.
    split_and!; try done; [by apply ptr_eta|].
    assert (objs h !! sid = Some (sa, counter_obj c blk base cells (zlen S + 1))) as Hk
      by (rewrite Hh; apply lookup_insert_eq).
    destruct (ok_obj h Hok _ _ _ Hk) as (_ & Hal & _). by rewrite counter_align in Hal.
Qed.

Lemma at_box_lookup b bs R h hs blk base cells off :
  at_box b bs R h hs blk base cells off → objs h !! blk = Some (base, OBytes cells).
Proof. intros (-> & _). apply lookup_insert_eq. Qed.

Lemma at_count_lookup c b bs S R' h hs blk base cells sid sa off :
  at_count c b bs S R' h hs blk base cells sid sa off →
  objs h !! blk = Some (base, OBytes cells)
  ∧ objs h !! sid = Some (sa, counter_obj c blk base cells (zlen S + 1)).
Proof.
  intros (-> & _ & _ & _ & _ & _ & _ & _ & _ & Hf & _). pose proof (fam_ids _ _ _ _ _ _ _ Hf).
  by rewrite lookup_insert_ne, !lookup_insert_eq.
Qed.

Lemma bytes_len b bs R h : live ((HBytes b, bs) :: R) h → by_len b = zlen bs ∧ by_len b ≤ isize_max.
Proof.
  intros [_ [[[He (_ & El & _)] _]
    |[(hs & blk & base & cells & off & (_ & _ & _ & ? & _ & _ & -> & _ & ? & ? & _))
     |(c & S & R' & hs & blk & base & cells & sid & sa & off & _ &
       (_ & _ & _ & _ & ? & _ & -> & _ & _ & _ & ? & ? & _))]]]%live_bytes_inv;
    [simpl in He; subst; rewrite El; done|lia|lia].
Qed.

(** Families, put back. *)
Lemma live_family c S R R' h hs blk base cells sid sa n :
  heap_ok h →
  objs h = <[sid := (sa, counter_obj c blk base cells n)]> (<[blk := (base, OBytes cells)]> hs) →
  world R' hs → hs !! blk = None → hs !! sid = None → zlen cells ≤ isize_max →
  family c blk base cells sid sa S → n = zlen S → R ≡ₚ S ++ R' →
  live R h.
Proof.
  intros Hok Hh HR Hb Hs Hc Hf -> Hp. rewrite Hp. split; [done|]. rewrite Hh.
  by apply (world_family c S R').
Qed.


(** ** Rules for the helpers *)

Section rules.
Context `{Build} `{Hal : AllocatorLaws} (E : stop → Prop).

Lemma wpm_get_bshared k a s h (Q : BShared → heap → Prop) :
  objs h !! k = Some (a, OBShared s) → Q s h → wpm (get_bshared (mkPtr (Some k) a)) h E Q.
Proof.
  intros Hk HQ. apply wpm_bind, (wpm_lookup_obj _ _ k a (OBShared s)); [done..|].
  simpl. rewrite Z.eqb_refl. by apply wpm_ret.
Qed.

Lemma wpm_set_bshared k a s s' h (Q : () → heap → Prop) :
  objs h !! k = Some (a, OBShared s) →
  Q () (mkHeap (<[k := (a, OBShared s')]> (objs h)) (next h)) →
  wpm (set_bshared (mkPtr (Some k) a) s') h E Q.
Proof.
  intros Hk HQ. apply wpm_bind, (wpm_lookup_obj _ _ k a (OBShared s)); [done..|].
  simpl. by rewrite Z.eqb_refl.
Qed.

Lemma wpm_forget_bshared k a s h (Q : BShared → heap → Prop) :
  objs h !! k = Some (a, OBShared s) → Q s (mkHeap (delete k (objs h)) (next h)) →
  wpm (forget_bshared (mkPtr (Some k) a)) h E Q.
Proof.
  intros Hk HQ. apply wpm_bind, (wpm_lookup_obj _ _ k a (OBShared s)); [done..|].
  simpl. by rewrite Z.eqb_refl.
Qed.

Lemma wpm_dealloc k a cells h (Q : () → heap → Prop) :
  objs h !! k = Some (a, OBytes cells) → 0 < zlen cells →
  Q () (mkHeap (delete k (objs h)) (next h)) →
  wpm (dealloc (mkPtr (Some k) a) (zlen cells)) h E Q.
Proof.
  intros Hk Hc HQ. unfold dealloc. rewrite (proj2 (Z.eqb_neq _ _)) by lia.
  apply wpm_bind. by eapply wpm_rv_cells.
Qed.

Lemma wpm_drop_bshared sid sa k a cells rc h (Q : () → heap → Prop) :
  sid ≠ k → objs h !! k = Some (a, OBytes cells) → 0 < zlen cells →
  objs h !! sid = Some (sa, OBShared (mkBShared (mkPtr (Some k) a) (zlen cells) rc)) →
  Q () (mkHeap (delete sid (delete k (objs h))) (next h)) →
  wpm (drop_bshared (mkPtr (Some sid) sa)) h E Q.
Proof.
  intros Hne Hk Hc Hs HQ. unfold drop_bshared. apply wpm_bind. eapply wpm_get_bshared; [done|].
  apply wpm_bind. eapply wpm_dealloc; [done|done|].
  apply wpm_bind. eapply wpm_forget_bshared; [|by apply wpm_ret].
  simpl. by rewrite lookup_delete_ne.
Qed.

Lemma wpm_get_owned k a o h (Q : positive * Z * Owned → heap → Prop) :
  objs h !! k = Some (a, OOwned o) → Q (k, a, o) h → wpm (get_owned (mkPtr (Some k) a)) h E Q.
Proof.
  intros Hk HQ. apply wpm_bind, (wpm_lookup_obj _ _ k a (OOwned o)); [done..|].
  simpl. rewrite Z.eqb_refl. by apply wpm_ret.
Qed.

Lemma wpm_offset_from k k' a n h (Q : Z → heap → Prop) :
  0 ≤ n < 2 ^ 64 → Q n h →
  wpm (lift (offset_from (mkPtr k (a + n)) (mkPtr k' a))) h E Q.
Proof.
  intros Hn HQ. unfold offset_from. simpl. apply wpm_usize_sub; [lia|].
  by replace (a + n - a) with n by lia.
Qed.
End rules.

(** The buffer in the word [data] of a handle that owns a boxed slice. *)
Definition box_buf (vt : Vtable) : Ptr → Ptr :=
  if decide (vt = PROMOTABLE_EVEN_VTABLE) then even_buf else odd_buf.

Lemma land_1 a : Z.land a 1 = a mod 2.
Proof. change 1 with (Z.ones 1) at 1. by rewrite Z.land_ones. Qed.

Lemma clear_kind_even a : 0 ≤ a < 2 ^ 64 → clear_kind a = 2 * (a / 2).
Proof.
  intros Ha. unfold clear_kind.
  change (usize_max - KIND_MASK) with (Z.land (Z.ones 64) (Z.lnot (Z.ones 1))).
  rewrite Z.land_assoc, Z.land_ones, Z.mod_small by lia.
  change (Z.land a (Z.lnot (Z.ones 1))) with (Z.ldiff a (Z.ones 1)).
  rewrite Z.ldiff_ones_r, Z.shiftl_mul_pow2, Z.shiftr_div_pow2 by lia. change (2 ^ 1) with 2. lia.
Qed.

Lemma box_data_spec blk base vt data :
  0 < base < 2 ^ 64 → box_data blk base vt = Some data →
  (vt = PROMOTABLE_EVEN_VTABLE ∨ vt = PROMOTABLE_ODD_VTABLE)
  ∧ kind_of data = KIND_VEC ∧ box_buf vt data = mkPtr (Some blk) base ∧ 0 < addr data < 2 ^ 64.
Proof.
  intros Hb. unfold box_data, box_buf, kind_of, KIND_MASK, KIND_VEC.
  destruct (decide (_ ∧ base mod 2 = 0)) as [[-> Hev]|_];
    [|destruct (decide (_ ∧ base mod 2 = 1)) as [[-> Hodd]|_]; [|done]]; intros [= <-];
    simpl addr; rewrite land_1.
  - assert (base + 1 < 2 ^ 64) by dlia. split; [by left|]. split; [dlia|]. split; [|lia].
    rewrite decide_True by done. unfold even_buf, ptr_map. simpl. rewrite clear_kind_even by lia. f_equal. unfold uwrap. dlia.
  - split; [by right|]. split; [done|]. split; [|lia]. by rewrite decide_False by done.
Qed.

(** ** Reading, and moving the start *)

Section ops.
Context `{Build} `{Hal : AllocatorLaws}.

(** Where the bytes of a handle are. *)
Lemma bytes_block b bs R h :
  live ((HBytes b, bs) :: R) h →
  (by_len b = 0 ∧ bs = [])
  ∨ ∃ blk base cells off, by_ptr b = mkPtr (Some blk) (base + off)
      ∧ objs h !! blk = Some (base, OBytes cells) ∧ 0 ≤ off ∧ off + zlen bs ≤ zlen cells
      ∧ zlen cells ≤ isize_max ∧ cells_load cells off (zlen bs) = Some <$> bs.
Proof.
  intros [_ [[[He (_ & El & _)] _]
    |[(hs & blk & base & cells & off & Hat)
     |(c & S & R' & hs & blk & base & cells & sid & sa & off & _ & Hat)]]]%live_bytes_inv.
  - by left.
  - right. pose proof (at_box_lookup _ _ _ _ _ _ _ _ _ Hat).
    destruct Hat as (_ & _ & _ & ? & _ & ? & _ & _ & ? & ? & ?).
    exists blk, base, cells, off. split_and!; (done || lia).
  - right. pose proof (at_count_lookup _ _ _ _ _ _ _ _ _ _ _ _ _ Hat) as [? _].
    destruct Hat as (_ & _ & _ & _ & ? & ? & _ & _ & _ & _ & ? & ? & ? & _).
    exists blk, base, cells, off. by split_and!.
Qed.

Lemma wpm_load_bytes_live b bs R h E (Q : list byte → heap → Prop) :
  live ((HBytes b, bs) :: R) h → Q bs h → wpm (load_bytes (by_ptr b) (by_len b)) h E Q.
Proof.
  intros Hlive HQ. destruct (bytes_len _ _ _ _ Hlive) as [El _].
  destruct (bytes_block _ _ _ _ Hlive) as [[El' ->]|(blk & base & cells & off & -> & ? & ? & ? & ? & ?)].
  - rewrite El'. done.
  - rewrite El. eapply wpm_load_bytes; try done. apply zlen_nonneg.
Qed.

Lemma by_as_slice_ok b bs R h : live ((HBytes b, bs) :: R) h → by_as_slice b h = Ret (bs, h).
Proof.
  intros Hlive. assert (wpm (by_as_slice b) h (λ _, False) (λ r h', r = bs ∧ h' = h)) as Hr
    by by eapply wpm_load_bytes_live.
  unfold wpm in Hr. destruct (by_as_slice b h) as [[r h']|]; [by destruct Hr as [-> ->]|done].
Qed.

(** A handle that keeps its owner may show a part of its range. *)
Lemma compat_sub b b' (bs bs' : list byte) x off :
  addr (by_ptr b') = addr (by_ptr b) + off → 0 ≤ off → 0 ≤ by_len b' → off + by_len b' ≤ by_len b →
  compat (HBytes b, bs) x → compat (HBytes b', bs') x.
Proof.
  intros Ep ???. unfold compat. simpl. intros [?|Hs]; [by left|right].
  unfold separate in *. rewrite Ep. lia.
Qed.

Lemma sub_load cells off n (bs : list byte) i :
  0 ≤ off → 0 ≤ i → 0 ≤ n → i + n ≤ zlen bs → cells_load cells off (zlen bs) = Some <$> bs →
  cells_load cells (off + i) n = Some <$> ztake n (zdrop i bs).
Proof.
  intros. rewrite (load_ztake _ _ (zlen bs - i)), load_zdrop by lia.
  match goal with Hl : cells_load _ _ _ = _ |- _ => rewrite Hl end.
  unfold ztake, zdrop. by rewrite fmap_take, fmap_drop.
Qed.

(** The handle of a family, moved within its range. *)
Lemma count_sub c b bs S R R' h hs blk base cells sid sa off i n :
  heap_ok h → R ≡ₚ S ++ R' → at_count c b bs S R' h hs blk base cells sid sa off →
  0 ≤ i → 0 ≤ n → i + n ≤ zlen bs →
  let b' := mkBytes (mkPtr (Some blk) (base + (off + i))) n (by_data b) (by_vtable b) in
  live ((HBytes b', ztake n (zdrop i bs)) :: R) h.
Proof.
  intros Hok HR (Hh & HR' & Hb & Hs & Hm & Ep & El & Ed & Hc & Hf & Hoff & Hl & Hload & _) ??? b'.
  assert (zlen (ztake n (zdrop i bs)) = n) as Hz by (rewrite zlen_ztake, zlen_zdrop; lia).
  set (e := (HBytes b', ztake n (zdrop i bs))).
  apply (live_family c (e :: S) _ R' h hs blk base cells sid sa (zlen S + 1)); try done.
  - eapply family_head; [exact Hf| |].
    + split; [|done]. apply (shows_bytes_intro _ _ _ _ (off + i)); simpl; rewrite ?Hz; try done; try lia.
      by apply sub_load.
    + intros x. apply (compat_sub b b' _ _ _ i); simpl; rewrite ?Ep; simpl; lia.
  - unfold zlen. simpl. lia.
  - by rewrite HR.
Qed.

Lemma inc_start_ok b bs R h n :
  live ((HBytes b, bs) :: R) h → 0 ≤ n ≤ zlen bs →
  wpm (inc_start b n) h bm_stop (λ b' h', live ((HBytes b', zdrop n bs) :: R) h'
    ∧ by_vtable b' = by_vtable b ∧ by_data b' = by_data b).
Proof.
  intros Hlive Hn. destruct (bytes_len _ _ _ _ Hlive) as [El Hm]. pose proof (zlen_nonneg bs).
  unfold inc_start, isize_max in *.
  apply wpm_bind, wpm_debug_assert; [by rewrite (proj2 (Z.leb_le _ _)) by lia|].
  apply wpm_bind, wpm_usize_sub; [lia|]. apply wpm_bind. rewrite El.
  apply live_bytes_inv in Hlive as [Hok [[[He (Hvt & El' & Hp)] Hlive]
    |[(hs & blk & base & cells & off & Hat)
     |(c & S & R' & hs & blk & base & cells & sid & sa & off & HR & Hat)]]].
  - simpl in He. subst bs. unfold zlen in Hn. simpl in Hn. assert (n = 0) as -> by lia. simpl.
    apply wpm_ret. split; [|done]. destruct Hlive as [_ Hw]. split; [done|]. by apply world_empty.
  - pose proof (at_box_lookup _ _ _ _ _ _ _ _ _ Hat) as Hk.
    destruct Hat as (Hh & HR & Hb & Hc & Hpos & Ep & _ & Hd & Hoff & Hl & Hload).
    rewrite Ep. eapply wpm_ptr_offset; [exact Hk|lia|lia|]. apply wpm_ret. split; [|done].
    split; [done|]. rewrite Hh. apply world_vec; [done..|].
    assert (zlen (zdrop n bs) = zlen bs - n) as Hz by (rewrite zlen_zdrop; lia).
    unfold vec_handle. simpl. split_and!; [|done|lia|done|done].
    apply (shows_bytes_intro _ _ _ _ (off + n)); simpl; rewrite ?Hz; try done; try lia.
    rewrite load_zdrop, Hload by lia. unfold zdrop. by rewrite fmap_drop.
  - pose proof (at_count_lookup _ _ _ _ _ _ _ _ _ _ _ _ _ Hat) as [Hk _].
    pose proof Hat as (_ & _ & _ & _ & _ & Ep & _ & _ & _ & _ & Hoff & Hl & _).
    rewrite Ep. eapply wpm_ptr_offset; [exact Hk|lia|lia|]. apply wpm_ret. split; [|done].
    pose proof (count_sub _ _ _ _ _ _ _ _ _ _ _ _ _ _ n (zlen bs - n) Hok HR Hat) as Hsub.
    rewrite ztake_all in Hsub by (rewrite zlen_zdrop; lia). apply Hsub; lia.
Qed.

Lemma by_advance_ok b bs R h n :
  live ((HBytes b, bs) :: R) h → 0 ≤ n ≤ zlen bs →
  wpm (by_advance b n) h bm_stop (λ b' h', live ((HBytes b', zdrop n bs) :: R) h').
Proof.
  intros Hlive Hn. destruct (bytes_len _ _ _ _ Hlive) as [El _]. unfold by_advance.
  apply wpm_bind, wpm_lift. rewrite (proj2 (Z.leb_le _ _)) by lia. simpl.
  eapply wpm_mono; [by apply inc_start_ok|]. by intros b' h' [? _].
Qed.

(** ** Dropping *)

Lemma by_release_ok e S R' h hs blk base cells sid sa :
  heap_ok h →
  objs h = <[sid := (sa, counter_obj CShared blk base cells (zlen S + 1))]>
             (<[blk := (base, OBytes cells)]> hs) →
  world R' hs → hs !! blk = None → hs !! sid = None → zlen cells ≤ isize_max →
  family CShared blk base cells sid sa (e :: S) →
  wpm (by_release_shared (mkPtr (Some sid) sa)) h bm_stop (λ _ h', live (S ++ R') h').
Proof.
  intros Hok Hh HR Hb Hs Hm Hf. pose proof (fam_ids _ _ _ _ _ _ _ Hf) as Hids.
  pose proof (fam_count _ _ _ _ _ _ _ Hf) as Hn. unfold zlen in Hn. simpl in Hn.
  pose proof (fam_ok _ _ _ _ _ _ _ Hf) as Hpos. simpl in Hpos.
  assert (objs h !! sid = Some (sa, counter_obj CShared blk base cells (zlen S + 1))) as Hsk
    by (rewrite Hh; apply lookup_insert_eq).
  unfold by_release_shared. apply wpm_bind. eapply wpm_get_bshared; [done|].
  apply wpm_bind. eapply wpm_set_bshared; [done|]. simpl.
  replace (uwrap 64 (zlen S + 1 - 1)) with (zlen S)
    by (unfold uwrap; rewrite Z.mod_small; unfold zlen; lia).
  destruct (Z.eqb_spec (zlen S + 1) 1) as [Hz|Hz]; simpl.
  - assert (S = []) as -> by (apply zlen_nil_inv; lia).
    eapply wpm_drop_bshared; [exact Hids| |exact Hpos|by apply lookup_insert_eq|].
    + simpl. rewrite lookup_insert_ne, Hh, lookup_insert_ne by done. apply lookup_insert_eq.
    + simpl. by eapply live_drop_last.
  - apply wpm_ret. eapply (live_drop_one CShared); try done. by intros ->.
Qed.

Lemma owned_drop_ok e S R' h hs blk base cells sid sa vlen :
  heap_ok h →
  objs h = <[sid := (sa, counter_obj (COwned vlen) blk base cells (zlen S + 1))]>
             (<[blk := (base, OBytes cells)]> hs) →
  world R' hs → hs !! blk = None → hs !! sid = None → zlen cells ≤ isize_max →
  family (COwned vlen) blk base cells sid sa (e :: S) →
  wpm (owned_drop_impl (mkPtr (Some sid) sa)) h bm_stop (λ _ h', live (S ++ R') h').
Proof.
  intros Hok Hh HR Hb Hs Hm Hf. pose proof (fam_ids _ _ _ _ _ _ _ Hf) as Hids.
  pose proof (fam_count _ _ _ _ _ _ _ Hf) as Hn. unfold zlen in Hn. simpl in Hn.
  assert (objs h !! sid = Some (sa, counter_obj (COwned vlen) blk base cells (zlen S + 1))) as Hsk
    by (rewrite Hh; apply lookup_insert_eq).
  unfold owned_drop_impl. apply wpm_bind. eapply wpm_get_owned; [done|].
  apply wpm_bind. unfold set_obj, wpm at 1. simpl.
  replace (uwrap 64 (zlen S + 1 - 1)) with (zlen S)
    by (unfold uwrap; rewrite Z.mod_small; unfold zlen; lia).
  destruct (Z.eqb_spec (zlen S + 1) 1) as [Hz|Hz]; simpl.
  - assert (S = []) as -> by (apply zlen_nil_inv; lia).
    unfold owned_box_and_drop. apply wpm_bind. eapply wpm_get_owned; [by apply lookup_insert_eq|].
    apply wpm_bind. simpl. eapply wpm_rv_drop.
    + simpl. rewrite lookup_insert_ne, Hh, lookup_insert_ne by done. apply lookup_insert_eq.
    + unfold free_obj, wpm. simpl. by eapply live_drop_last.
  - apply wpm_ret. eapply (live_drop_one (COwned vlen)); try done. by intros ->.
Qed.

(** The kind in the word [data] of a promotable handle. *)
Lemma kind_of_count sid sa : sa mod 8 = 0 → kind_of (mkPtr (Some sid) sa) = KIND_ARC.
Proof. apply arc_data_kind. Qed.

Lemma box_drop_ok b bs R h hs blk base cells off :
  heap_ok h → at_box b bs R h hs blk base cells off →
  wpm (by_drop b) h bm_stop (λ _ h', live R h').
Proof.
  intros Hok Hat. pose proof (at_box_lookup _ _ _ _ _ _ _ _ _ Hat) as Hk.
  destruct Hat as (Hh & HR & Hb & Hc & Hpos & Ep & El & Hd & Hoff & Hl & Hload).
  destruct (ok_obj h Hok _ _ _ Hk) as (Hb0 & _ & Hend). simpl in Hend.
  assert (0 < base < 2 ^ 64) as Hb1 by lia.
  destruct (box_data_spec _ _ _ _ Hb1 Hd) as (Hvt & Hkind & Hbuf & _).
  pose proof (zlen_nonneg bs). unfold isize_max in *.
  assert (wpm (promotable_drop (box_buf (by_vtable b)) (by_data b) (by_ptr b) (by_len b)) h bm_stop
    (λ _ h', live R h')) as Hdrop.
  { unfold promotable_drop. rewrite Hkind. simpl. apply wpm_bind, wpm_debug_assert; [done|].
    unfold free_boxed_slice. rewrite Hbuf, Ep, El.
    apply wpm_bind, wpm_offset_from; [lia|]. apply wpm_bind, wpm_usize_add; [lia|].
    rewrite Hl. eapply wpm_dealloc; [exact Hk|done|]. split; [by apply heap_ok_free|].
    simpl. by rewrite Hh, delete_insert_id. }
  unfold by_drop. destruct b as [p len data vt]. simpl in *. by destruct Hvt as [-> | ->].
Qed.

Lemma count_drop_ok c b bs S R' h hs blk base cells sid sa off :
  heap_ok h → at_count c b bs S R' h hs blk base cells sid sa off →
  wpm (by_drop b) h bm_stop (λ _ h', live (S ++ R') h').
Proof.
  intros Hok (Hh & HR & Hb & Hs & Hm & _ & _ & Ed & Hc & Hf & _ & _ & _ & Hsa).
  destruct b as [p len data vt]. simpl in *. subst data.
  destruct c as [vlen repr| |vlen]; simpl in Hc.
  - subst vt. simpl. unfold shared_v_drop. by eapply release_family_ok.
  - assert (wpm (by_release_shared (mkPtr (Some sid) sa)) h bm_stop (λ _ h', live (S ++ R') h')) as Hr
      by (by eapply by_release_ok).
    destruct Hc as [->|[-> | ->]]; [done| |]; simpl;
      unfold promotable_even_drop, promotable_odd_drop, promotable_drop; by rewrite kind_of_count.
  - subst vt. simpl. unfold owned_drop. by eapply owned_drop_ok.
Qed.

Lemma by_drop_ok b bs R h :
  live ((HBytes b, bs) :: R) h → wpm (by_drop b) h bm_stop (λ _ h', live R h').
Proof.
  intros [Hok [[[He (Hvt & _ & _)] Hlive]
    |[(hs & blk & base & cells & off & Hat)
     |(c & S & R' & hs & blk & base & cells & sid & sa & off & HR & Hat)]]]%live_bytes_inv.
  - unfold by_drop. destruct b as [p len data vt]. simpl in Hvt. subst vt. by apply wpm_ret.
  - by eapply box_drop_ok.
  - eapply wpm_mono; [by eapply count_drop_ok|]. intros [] h' Hl. by rewrite HR.
Qed.

(** ** Construction from a vector *)

(** The handle that [Bytes::from(vec)] makes of a vector of length [n].  The
    first bytes of the vector may be uninitialised, if the handle is moved past
    them. *)
Definition frozen (R : list entry) (blk : positive) (base n : Z) (cells : list cell) (b : Bytes)
    (h : heap) : Prop :=
  (n = 0 ∧ b = by_new ∧ live R h)
  ∨ (by_ptr b = mkPtr (Some blk) base ∧ by_len b = n
     ∧ objs h !! blk = Some (base, OBytes cells)
     ∧ ∀ off bs, 0 ≤ off → off + zlen bs = n → cells_load cells off (zlen bs) = Some <$> bs →
         live ((HBytes (mkBytes (mkPtr (Some blk) (base + off)) (zlen bs) (by_data b) (by_vtable b)),
                bs) :: R) h).

Lemma by_new_empty : empty_handle (HBytes by_new, []).
Proof. done. Qed.

Lemma from_box_data blk base :
  0 < base < 2 ^ 64 →
  let p := mkPtr (Some blk) base in
  box_data blk base (if Z.land base 1 =? 0 then PROMOTABLE_EVEN_VTABLE else PROMOTABLE_ODD_VTABLE)
  = Some (if Z.land base 1 =? 0 then ptr_map p (λ a, Z.lor a KIND_VEC) else p).
Proof.
  intros Hb p. unfold box_data. rewrite land_1. destruct (Z.eqb_spec (base mod 2) 0) as [E|E].
  - rewrite decide_True by done. do 2 f_equal. unfold p, ptr_map. simpl. unfold KIND_VEC.
    assert (Z.lor base 1 = base + 1) as ->.
    { rewrite (Z.div_mod base 2) at 1 by lia. rewrite E, Z.add_0_r.
      replace (2 * (base / 2)) with (Z.shiftl (base / 2) 1) by (rewrite Z.shiftl_mul_pow2; lia).
      rewrite Z.lor_comm, <-(Z.add_nocarry_lor 1); [rewrite Z.shiftl_mul_pow2 by lia; dlia|].
      apply Z.bits_inj'. intros i Hi. rewrite Z.land_spec, Z.bits_0.
      destruct (Z.eqb_spec i 0) as [->|]; [by rewrite Z.shiftl_spec_low, andb_false_r by lia|].
      change 1 with (2 ^ 0). by rewrite Z.pow2_bits_false by lia. }
    f_equal. unfold uwrap. dlia.
  - rewrite decide_False by (intros [_ ?]; lia). rewrite decide_True by (split; [done|dlia]). done.
Qed.

Lemma by_from_vec_ok R h hs blk base cells n :
  heap_ok h → objs h = <[blk := (base, OBytes cells)]> hs → world R hs → hs !! blk = None →
  zlen cells ≤ isize_max → 0 ≤ n ≤ zlen cells →
  wpm (by_from_vec (mkRVec (mkPtr (Some blk) base) (zlen cells) n)) h bm_stop
    (frozen R blk base n cells).
Proof using Hal.
  intros Hok Hh HR Hb Hc Hn.
  assert (objs h !! blk = Some (base, OBytes cells)) as Hk by (rewrite Hh; apply lookup_insert_eq).
  destruct (ok_obj h Hok _ _ _ Hk) as (Hb0 & _ & Hend). simpl in Hend.
  unfold by_from_vec. simpl. destruct (Z.eqb_spec n (zlen cells)) as [->|Hne].
  - unfold from_box. simpl. destruct (Z.eqb_spec (zlen cells) 0) as [Hz|Hz].
    { apply wpm_bind. rewrite <-Hz at 1. eapply wpm_rv_drop; [exact Hk|]. apply wpm_ret. left.
      split_and!; [done..|]. split; [by apply heap_ok_free|]. simpl. by rewrite Hh, delete_insert_id. }
    assert (0 < base < 2 ^ 64) as Hb1 by lia. pose proof (from_box_data blk base Hb1) as Hd. simpl in Hd.
    assert (∀ vt data, box_data blk base vt = Some data →
      frozen R blk base (zlen cells) cells (mkBytes (mkPtr (Some blk) base) (zlen cells) data vt) h) as Hfr.
    { intros vt data Hd'. right. split_and!; [done..|]. intros off bs Hoff Hl Hload. split; [done|].
      rewrite Hh. apply world_vec; [done..|]. unfold vec_handle. simpl.
      pose proof (zlen_nonneg bs). split_and!; [|done|lia|lia|done].
      apply (shows_bytes_intro _ _ _ _ off); simpl; (done || lia). }
    destruct (Z.land base 1 =? 0); apply wpm_ret; by apply Hfr.
  - apply wpm_bind, (wpm_alloc_obj _ bm_stop_abort); [done|]. intros sa (_ & Ha & _) Hok'. simpl in Ha.
    apply wpm_bind, wpm_debug_assert; [by rewrite kind_of_count|]. apply wpm_ret. right. simpl.
    pose proof (heap_ok_fresh h Hok) as Hfresh.
    assert (next h ≠ blk) by congruence. assert (hs !! next h = None)
      by (rewrite Hh, lookup_insert_ne in Hfresh by done; done).
    split_and!; [done|done|by rewrite lookup_insert_ne|].
    intros off bs Hoff Hl Hload. pose proof (zlen_nonneg bs). set (e := (HBytes _, bs)).
    apply (live_family CShared [e] _ R _ hs blk base cells (next h) sa 1); try done.
    { simpl. by rewrite Hh. }
    split; [done| |by repeat constructor|simpl; lia|done]. constructor; [|done].
    split; [|split_and!; [done|done|by left]].
    apply (shows_bytes_intro _ _ _ _ off); simpl; (done || lia).
Qed.

Lemma from_vec_bytes_ok v bs R h :
  vec_live v bs R h → wpm (by_from_vec v) h bm_stop (λ b h', live ((HBytes b, bs) :: R) h').
Proof using Hal.
  intros [Hok (hs & blk & base & cells & -> & Hh & Hb & HR & Hm & Hl & Hload)].
  pose proof (zlen_nonneg bs). eapply wpm_mono; [eapply by_from_vec_ok; (done || lia)|].
  intros b h' [(Hz & -> & Hok' & Hw)|(Ep & El & _ & Hlive)].
  - rewrite (zlen_nil_inv _ Hz). split; [done|]. by apply world_empty.
  - specialize (Hlive 0 bs ltac:(done) ltac:(lia) Hload).
    rewrite Z.add_0_r, <-Ep, <-El in Hlive. by destruct b.
Qed.

Lemma copy_from_slice_ok R h bs :
  live R h → wpm (copy_from_slice bs) h bm_stop (λ b h', live ((HBytes b, bs) :: R) h').
Proof using Hal.
  intros Hlive. apply wpm_bind. eapply wpm_mono; [by apply rv_of_bytes_ok|].
  intros v h' Hv. by apply from_vec_bytes_ok.
Qed.

(** [Bytes::from_owner] of a vector: the first handle of a new [Owned]. *)
Lemma from_owner_ok v bs R h :
  vec_live v bs R h → wpm (from_owner v) h bm_stop (λ b h', live ((HBytes b, bs) :: R) h').
Proof using Hal.
  intros [Hok (hs & blk & base & cells & -> & Hh & Hb & HR & Hm & Hl & Hload)].
  pose proof (zlen_nonneg bs). unfold from_owner.
  apply wpm_bind, (wpm_alloc_obj _ bm_stop_abort); [done|]. intros sa (_ & Ha & _) Hok'. apply wpm_ret. simpl.
  assert (objs h !! blk = Some (base, OBytes cells)) as Hk by (rewrite Hh; apply lookup_insert_eq).
  pose proof (heap_ok_fresh h Hok) as Hfresh. assert (next h ≠ blk) by congruence.
  assert (hs !! next h = None) by (rewrite Hh, lookup_insert_ne in Hfresh by done; done).
  set (e := (HBytes _, bs)).
  apply (live_family (COwned (zlen bs)) [e] _ R _ hs blk base cells (next h) sa 1); try done.
  { simpl. by rewrite Hh. }
  split; [done| |by repeat constructor|done|done]. constructor; [|done].
  split; [|split_and!; done].
  apply (shows_bytes_intro _ _ _ _ 0); simpl; (done || lia).
Qed.

Lemma owner_of_bytes_ok R h bs :
  live R h → wpm (v ← rv_of_bytes bs; from_owner v) h bm_stop (λ b h', live ((HBytes b, bs) :: R) h').
Proof using Hal.
  intros Hlive. apply wpm_bind. eapply wpm_mono; [by apply rv_of_bytes_ok|].
  intros v h' Hv. by apply from_owner_ok.
Qed.

(** ** [freeze] *)

Lemma freeze_ok m bs R h :
  live ((HMut m, bs) :: R) h → wpm (freeze m) h bm_stop (λ b h',
    live ((HBytes b, bs) :: R) h' ∧ (bs ≠ [] → by_ptr b = bm_ptr m)).
Proof using Hal.
  intros [Hok [(hs & blk & base & cells & off & repr & Hat)
    |(S & R' & hs & blk & base & cells & sid & sa & vlen & repr & off & cap & HR & Hat)]]%live_inv;
    unfold freeze; pose proof (zlen_nonneg bs).
  - pose proof (at_vec_lookup _ _ _ _ _ _ _ _ _ _ Hat) as Hk.
    destruct Hat as (Hh & HR & Hb & Hm & -> & Hoff & Hrepr & Hl & Hload). rewrite kind_vec. simpl.
    apply wpm_bind, wpm_get_vec_pos; [done|].
    apply wpm_bind. eapply wpm_rebuild_vec; [done|done|lia|lia|lia|].
    apply wpm_bind. eapply wpm_mono; [eapply by_from_vec_ok; (done || lia)|].
    intros b h' [(Hz & -> & Hok' & Hw)|(Ep & El & Hk' & Hlive)]; unfold by_advance.
    + assert (off = 0) as -> by lia. assert (bs = []) as -> by (apply zlen_nil_inv; lia).
      eapply wpm_mono; [apply (inc_start_ok by_new [] R h' 0); [|done]|by intros b h'' [? _]; split].
      split; [done|]. by apply world_empty.
    + apply wpm_bind, wpm_lift. rewrite (proj2 (Z.leb_le _ _)) by lia. simpl.
      unfold inc_start, isize_max in *.
      apply wpm_bind, wpm_debug_assert; [by rewrite (proj2 (Z.leb_le _ _)) by lia|].
      apply wpm_bind, wpm_usize_sub; [lia|]. apply wpm_bind. rewrite Ep.
      eapply wpm_ptr_add_base; [exact Hk'|lia|]. apply wpm_ret.
      replace (by_len b - off) with (zlen bs) by lia. split; [|done]. apply Hlive; (done || lia).
  - destruct Hat as (Hh & HR' & Hb & Hs & Hm & -> & Hf & Hoff & Hlen & Hcap & Hload & Hsa).
    rewrite kind_arc by done. simpl. apply wpm_bind, wpm_debug_assert; [done|]. apply wpm_ret.
    split; [|done]. unfold with_vtable. set (e := (HBytes _, bs)).
    apply (live_family (CMut vlen repr) (e :: S) _ R' h hs blk base cells sid sa (zlen S + 1)); try done.
    + eapply family_head; [by eapply family_mut| |].
      * split; [|done]. apply (shows_bytes_intro _ _ _ _ off); simpl; (done || lia).
      * intros x. rewrite compat_mut. intros Hx. right. simpl in *. unfold separate in *. lia.
    + unfold zlen. simpl. lia.
    + by rewrite HR.
Qed.

(** ** Cloning *)

(** The handles that [clone] treats as it should: all but those whose word [data]
    is a [Shared] of [bytes.rs]. *)
Definition clonable (b : Bytes) : Prop :=
  match by_vtable b with
  | SHARED_VTABLE => False
  | PROMOTABLE_EVEN_VTABLE | PROMOTABLE_ODD_VTABLE => kind_of (by_data b) = KIND_VEC
  | _ => True
  end.

(** A second handle with the same range. *)
Lemma family_dup c blk base cells sid sa b b' bs S :
  family c blk base cells sid sa ((HBytes b, bs) :: S) → zlen S + 2 ≤ 2 ^ 63 →
  by_ptr b' = by_ptr b → by_len b' = by_len b → by_data b' = by_data b → counts c (HBytes b') →
  family c blk base cells sid sa ((HBytes b, bs) :: (HBytes b', bs) :: S).
Proof.
  intros [? Hh Hc ? Hn] Hmax Ep El Ed Hcounts.
  inversion Hh as [|?? Hb HS]; inversion Hc as [|?? HbS HSS]; subst.
  assert (∀ x, compat (HBytes b, bs) x → compat (HBytes b', bs) x) as Hx.
  { intros x. unfold compat. simpl. by rewrite Ep, El. }
  split; [done| | |done|unfold zlen in *; simpl; lia].
  - constructor; [done|]. constructor; [|done]. destruct Hb as (Hsh & Hp & Hd & _).
    unfold shared_handle, shows in *. simpl in *. by rewrite Ep, El, Ed.
  - constructor; [constructor; [by left|done]|]. constructor; [|done].
    eapply Forall_impl; [exact Hx|done].
Qed.

(** The counter goes up. *)
Lemma live_dup c b b' bs S R R' h hs blk base cells sid sa off :
  heap_ok h → R ≡ₚ S ++ R' → at_count c b bs S R' h hs blk base cells sid sa off →
  zlen S + 2 ≤ 2 ^ 63 →
  by_ptr b' = by_ptr b → by_len b' = by_len b → by_data b' = by_data b → counts c (HBytes b') →
  live ((HBytes b, bs) :: (HBytes b', bs) :: R)
    (mkHeap (<[sid := (sa, counter_obj c blk base cells (zlen S + 2))]> (objs h)) (next h)).
Proof.
  intros Hok HR Hat Hmax ????. pose proof (at_count_lookup _ _ _ _ _ _ _ _ _ _ _ _ _ Hat) as [_ Hsk].
  destruct Hat as (Hh & HR' & Hb & Hs & Hm & Ep & El & Ed & Hc & Hf & _).
  apply (live_family c ((HBytes b, bs) :: (HBytes b', bs) :: S) _ R' _ hs blk base cells sid sa
    (zlen S + 2)); try done.
  - eapply heap_ok_update; [done|exact Hsk|apply counter_size|by rewrite !counter_align].
  - simpl. by rewrite Hh, insert_insert_eq.
  - by apply family_dup.
  - unfold zlen. simpl. lia.
  - by rewrite HR.
Qed.

(** The first clone of a boxed slice makes a [Shared]. *)
Lemma box_clone_ok b bs R h hs blk base cells off :
  heap_ok h → at_box b bs R h hs blk base cells off →
  wpm (promotable_clone (box_buf (by_vtable b)) (by_data b) (by_ptr b) (by_len b)) h bm_stop
    (λ '(data, c) h',
      live ((HBytes (set_data b data), bs) :: (HBytes c, bs) :: R) h'
      ∧ kind_of data = KIND_ARC ∧ c = mkBytes (by_ptr b) (by_len b) data SHARED_VTABLE).
Proof using Hal.
  intros Hok Hat. pose proof (at_box_lookup _ _ _ _ _ _ _ _ _ Hat) as Hk.
  destruct Hat as (Hh & HR & Hb & Hc & Hpos & Ep & El & Hd & Hoff & Hl & Hload).
  destruct (ok_obj h Hok _ _ _ Hk) as (Hb0 & _ & Hend). simpl in Hend.
  assert (0 < base < 2 ^ 64) as Hb1 by lia.
  destruct (box_data_spec _ _ _ _ Hb1 Hd) as (Hvt & Hkind & Hbuf & _).
  pose proof (zlen_nonneg bs). unfold isize_max in *.
  unfold promotable_clone. rewrite Hkind. simpl. apply wpm_bind, wpm_debug_assert; [done|].
  unfold shallow_clone_vec. rewrite Hbuf, Ep, El.
  apply wpm_bind, wpm_offset_from; [lia|]. apply wpm_bind, wpm_usize_add; [lia|]. rewrite Hl.
  apply wpm_bind, (wpm_alloc_obj _ bm_stop_abort); [done|]. intros sa (_ & Ha & _) Hok'. simpl in Ha.
  apply wpm_bind, wpm_debug_assert; [by rewrite kind_of_count|]. rewrite Z.eqb_refl. apply wpm_ret.
  split; [|by rewrite kind_of_count]. pose proof (heap_ok_fresh h Hok) as Hfresh.
  assert (next h ≠ blk) by congruence.
  assert (hs !! next h = None) by (rewrite Hh, lookup_insert_ne in Hfresh by done; done).
  set (data := mkPtr (Some (next h)) sa). set (b1 := set_data b data). set (b2 := mkBytes _ _ _ _).
  apply (live_family CShared [(HBytes b1, bs); (HBytes b2, bs)] _ R _ hs blk base cells (next h) sa 2);
    try done; [simpl; by rewrite Hh|].
  apply family_dup; try done; [|simpl; congruence..|by left].
  split; [done| |by repeat constructor|simpl; lia|done]. constructor; [|done].
  split; [|unfold b1; simpl; rewrite Ep; by split_and!; try right].
  apply (shows_bytes_intro _ _ _ _ off); unfold b1; simpl; rewrite ?Ep; (done || lia).
Qed.

Lemma by_clone_ok b bs R h :
  live ((HBytes b, bs) :: R) h → clonable b →
  wpm (by_clone b) h bm_stop (λ '(b', c) h',
    live ((HBytes b', bs) :: (HBytes c, bs) :: R) h'
    ∧ kind_of (by_data b') = KIND_ARC ∧ kind_of (by_data c) = KIND_ARC ∧ by_ptr c = by_ptr b).
Proof using Hal.
  intros Hlive Hcl. pose proof Hlive as [Hok [[[He (Hvt & El & Hd & Hp)] Hlive0]
    |[(hs & blk & base & cells & off & Hat)
     |(c & S & R' & hs & blk & base & cells & sid & sa & off & HR & Hat)]]]%live_bytes_inv.
  - simpl in He. subst bs. destruct b as [p len data vt]. simpl in *. subst vt len data.
    apply wpm_bind. unfold static_clone. simpl. apply wpm_bind, wpm_ret, wpm_ret, wpm_ret.
    split; [|done]. destruct Hlive0 as [_ Hw]. split; [done|]. apply world_empty; [by apply world_empty|done].
  - pose proof (box_clone_ok _ _ _ _ _ _ _ _ _ Hok Hat) as Hbox.
    pose proof (at_box_lookup _ _ _ _ _ _ _ _ _ Hat) as Hk.
    destruct Hat as (_ & _ & _ & _ & Hpos & _ & _ & Hd & _).
    destruct (ok_obj h Hok _ _ _ Hk) as (Hb0 & _ & Hend). simpl in Hend.
    assert (0 < base < 2 ^ 64) as Hb1 by lia.
    destruct (box_data_spec _ _ _ _ Hb1 Hd) as (Hvt & _).
    assert (∀ '(data, c) h', live ((HBytes (set_data b data), bs) :: (HBytes c, bs) :: R) h'
      ∧ kind_of data = KIND_ARC ∧ c = mkBytes (by_ptr b) (by_len b) data SHARED_VTABLE →
      wpm (mret (set_data b data, c)) h' bm_stop (λ '(b', c) h',
        live ((HBytes b', bs) :: (HBytes c, bs) :: R) h'
        ∧ kind_of (by_data b') = KIND_ARC ∧ kind_of (by_data c) = KIND_ARC ∧ by_ptr c = by_ptr b)) as Hend'.
    { intros [data c] h' (? & ? & ->). apply wpm_ret. done. }
    destruct b as [p len data vt]. simpl in *. destruct Hvt as [-> | ->]; simpl in *; apply wpm_bind;
      (eapply wpm_mono; [exact Hbox|]); intros [data' c] h' Hq; exact (Hend' (data', c) h' Hq).
  - pose proof (at_count_lookup _ _ _ _ _ _ _ _ _ _ _ _ _ Hat) as [_ Hsk].
    pose proof Hat as (_ & _ & _ & _ & _ & _ & _ & Ed & Hc & Hf & _ & _ & _ & Hsa).
    pose proof (fam_count _ _ _ _ _ _ _ Hf) as Hn.
    replace (zlen ((HBytes b, bs) :: S)) with (zlen S + 1) in Hn by (unfold zlen; simpl; lia).
    assert (kind_of (by_data b) = KIND_ARC) as Hkind by (rewrite Ed; by apply kind_of_count).
    assert (uwrap 64 (zlen S + 1 + 1) = zlen S + 2) as Hw
      by (unfold uwrap; rewrite Z.mod_small; pose proof (zlen_nonneg S); lia).
    destruct b as [p len data vt]. simpl in *. subst data.
    destruct c as [vlen repr| |vlen]; simpl in Hc.
    + subst vt. simpl. apply wpm_bind. unfold shared_v_clone, increment_shared.
      apply wpm_bind, wpm_bind. eapply wpm_get_shared; [done|].
      apply wpm_bind. eapply wpm_set_shared; [done|]. simpl. rewrite Hw.
      destruct (Z.ltb_spec isize_max (zlen S + 1)); [by left|]. unfold isize_max in *.
      do 3 apply wpm_ret. split; [|done].
      apply (live_dup (CMut vlen repr) _ _ _ S R R' h hs blk base cells sid sa off); try done. lia.
    + exfalso. unfold clonable in Hcl. simpl in Hcl.
      by destruct Hc as [->|[-> | ->]]; rewrite ?Hkind in Hcl.
    + subst vt. simpl. apply wpm_bind. unfold owned_clone. apply wpm_bind.
      eapply wpm_get_owned; [done|]. apply wpm_bind. unfold set_obj, wpm at 1. simpl. rewrite Hw.
      change (Z.shiftr usize_max 1) with isize_max.
      destruct (Z.ltb_spec isize_max (zlen S + 1)); [by left|]. unfold isize_max in *.
      do 2 apply wpm_ret. split; [|done].
      apply (live_dup (COwned vlen) _ _ _ S R R' h hs blk base cells sid sa off); try done. lia.
Qed.
(** ** Splitting and slicing *)

Lemma bytes_addr b bs R h :
  live ((HBytes b, bs) :: R) h → 0 < addr (by_ptr b) ∧ addr (by_ptr b) + by_len b < 2 ^ 64.
Proof.
  intros Hlive. destruct (bytes_len _ _ _ _ Hlive) as [El _]. pose proof (zlen_nonneg bs).
  pose proof Hlive as [Hok _]. pose proof (bytes_block _ _ _ _ Hlive) as Hb.
  apply live_bytes_inv in Hlive as [_ [[[_ (_ & El' & _ & Hp)] _]|Hother]]; [lia|].
  destruct Hb as [[El' ->]|(blk & base & cells & off & Ep & Hk & ? & ? & _)].
  - destruct Hother as [(hs & blk & base & cells & off & Hat)
      |(c & S & R' & hs & blk & base & cells & sid & sa & off & _ & Hat)].
    + pose proof (at_box_lookup _ _ _ _ _ _ _ _ _ Hat) as Hk.
      destruct Hat as (_ & _ & _ & _ & _ & -> & -> & _ & ? & ? & _).
      destruct (ok_obj h Hok _ _ _ Hk) as (? & _ & Hend). simpl in *. lia.
    + pose proof (at_count_lookup _ _ _ _ _ _ _ _ _ _ _ _ _ Hat) as [Hk _].
      destruct Hat as (_ & _ & _ & _ & _ & -> & -> & _ & _ & _ & ? & ? & _).
      destruct (ok_obj h Hok _ _ _ Hk) as (? & _ & Hend). simpl in *. lia.
  - destruct (ok_obj h Hok _ _ _ Hk) as (? & _ & Hend). rewrite Ep, El. simpl in *. lia.
Qed.

Lemma live_swap e e' L h : live (e :: e' :: L) h → live (e' :: e :: L) h.
Proof. by rewrite Permutation_swap. Qed.

(** A counted handle may show a part of its range. *)
Lemma bytes_sub b bs R h i n :
  live ((HBytes b, bs) :: R) h → kind_of (by_data b) = KIND_ARC → 0 ≤ i → 0 ≤ n → i + n ≤ zlen bs →
  wpm (ptr_add (by_ptr b) i) h bm_stop (λ p h',
    live ((HBytes (mkBytes p n (by_data b) (by_vtable b)), ztake n (zdrop i bs)) :: R) h').
Proof.
  intros [Hok [[[He (Hvt & El & Hd & Hp)] Hlive0]
    |[(hs & blk & base & cells & off & Hat)
     |(c & S & R' & hs & blk & base & cells & sid & sa & off & HR & Hat)]]]%live_bytes_inv Hkind ? ? Hn.
  - simpl in He. subst bs. unfold zlen in Hn. simpl in Hn.
    assert (n = 0) as -> by lia. assert (i = 0) as -> by lia. apply wpm_ret.
    destruct Hlive0 as [_ Hw]. split; [done|]. by apply world_empty.
  - exfalso. pose proof (at_box_lookup _ _ _ _ _ _ _ _ _ Hat) as Hk.
    destruct Hat as (_ & _ & _ & _ & Hpos & _ & _ & Hd & _).
    destruct (ok_obj h Hok _ _ _ Hk) as (? & _ & Hend). simpl in Hend.
    assert (0 < base < 2 ^ 64) as Hb1 by lia.
    destruct (box_data_spec _ _ _ _ Hb1 Hd) as (_ & Hk' & _). by rewrite Hkind in Hk'.
  - pose proof (at_count_lookup _ _ _ _ _ _ _ _ _ _ _ _ _ Hat) as [Hk _].
    pose proof Hat as (_ & _ & _ & _ & _ & Ep & _ & _ & _ & _ & ? & ? & _).
    rewrite Ep. eapply wpm_ptr_offset; [exact Hk|lia|lia|]. by eapply count_sub.
Qed.

Lemma bytes_shorten b bs R h n :
  live ((HBytes b, bs) :: R) h → kind_of (by_data b) = KIND_ARC → 0 ≤ n ≤ zlen bs →
  live ((HBytes (mkBytes (by_ptr b) n (by_data b) (by_vtable b)), ztake n bs) :: R) h.
Proof.
  intros Hlive Hkind Hn.
  exact (bytes_sub _ _ _ _ 0 n Hlive Hkind ltac:(lia) ltac:(lia) ltac:(lia)).
Qed.

Lemma new_empty_ok R h p :
  live R h → 0 < addr p < 2 ^ 64 →
  wpm (new_empty_with_ptr p) h bm_stop (λ b h', live ((HBytes b, []) :: R) h' ∧ h' = h).
Proof.
  intros [Hok Hw] Hp. unfold new_empty_with_ptr.
  apply wpm_bind, wpm_debug_assert; [by rewrite (proj2 (Z.eqb_neq _ _)) by lia|].
  apply wpm_ret. split; [|done]. split; [done|]. apply world_empty; [done|].
  repeat split; simpl; unfold uwrap; rewrite Z.mod_small; lia.
Qed.

Lemma by_split_off_ok b bs R h n :
  live ((HBytes b, bs) :: R) h → 0 ≤ n ≤ zlen bs → (0 < n < zlen bs → clonable b) →
  wpm (by_split_off b n) h bm_stop (λ '(b', o) h',
    live ((HBytes b', ztake n bs) :: (HBytes o, zdrop n bs) :: R) h').
Proof using Hal.
  intros Hlive Hn Hcl. destruct (bytes_len _ _ _ _ Hlive) as [El Hm].
  destruct (bytes_addr _ _ _ _ Hlive) as [Ha Hend]. unfold by_split_off, isize_max in *. rewrite El.
  destruct (Z.eqb_spec n (zlen bs)) as [->|Hne].
  { apply wpm_bind. eapply wpm_mono.
    - apply (new_empty_ok _ _ (ptr_wrapping_add (by_ptr b) (zlen bs)) Hlive).
      simpl. unfold uwrap. rewrite Z.mod_small; lia.
    - intros o h' [Hl _]. apply wpm_ret. rewrite ztake_all, zdrop_all by lia. by apply live_swap. }
  destruct (Z.eqb_spec n 0) as [->|Hn0].
  { apply wpm_bind. eapply wpm_mono; [apply (new_empty_ok _ _ (by_ptr b) Hlive); lia|].
    intros o h' [Hl _]. apply wpm_ret. done. }
  apply wpm_bind, wpm_lift. rewrite (proj2 (Z.leb_le _ _)) by lia. simpl.
  apply wpm_bind. eapply wpm_mono; [apply (by_clone_ok _ _ _ _ Hlive), Hcl; lia|].
  intros [b1 c] h1 (Hl1 & Hk1 & Hk2 & _).
  apply (bytes_shorten _ _ _ _ n Hl1 Hk1) in Hn as Hs.
  apply live_swap in Hs. apply wpm_bind.
  eapply wpm_mono; [by apply (inc_start_ok c bs _ _ n Hs)|]. intros c' h2 [Hl2 _]. apply wpm_ret.
  by apply live_swap.
Qed.

Lemma by_split_to_ok b bs R h n :
  live ((HBytes b, bs) :: R) h → 0 ≤ n ≤ zlen bs → (0 < n < zlen bs → clonable b) →
  wpm (by_split_to b n) h bm_stop (λ '(b', o) h',
    live ((HBytes b', zdrop n bs) :: (HBytes o, ztake n bs) :: R) h').
Proof using Hal.
  intros Hlive Hn Hcl. destruct (bytes_len _ _ _ _ Hlive) as [El Hm].
  destruct (bytes_addr _ _ _ _ Hlive) as [Ha Hend]. unfold by_split_to, isize_max in *. rewrite El.
  destruct (Z.eqb_spec n (zlen bs)) as [->|Hne].
  { apply wpm_bind. eapply wpm_mono.
    - apply (new_empty_ok _ _ (ptr_wrapping_add (by_ptr b) (zlen bs)) Hlive).
      simpl. unfold uwrap. rewrite Z.mod_small; lia.
    - intros o h' [Hl _]. apply wpm_ret. by rewrite ztake_all, zdrop_all by lia. }
  destruct (Z.eqb_spec n 0) as [->|Hn0].
  { apply wpm_bind. eapply wpm_mono; [apply (new_empty_ok _ _ (by_ptr b) Hlive); lia|].
    intros o h' [Hl _]. apply wpm_ret. by apply live_swap. }
  apply wpm_bind, wpm_lift. rewrite (proj2 (Z.leb_le _ _)) by lia. simpl.
  apply wpm_bind. eapply wpm_mono; [apply (by_clone_ok _ _ _ _ Hlive), Hcl; lia|].
  intros [b1 c] h1 (Hl1 & Hk1 & Hk2 & _). apply wpm_bind.
  eapply wpm_mono; [by apply (inc_start_ok b1 bs _ _ n Hl1)|]. intros b2 h2 [Hl2 _]. apply wpm_ret.
  apply live_swap, bytes_shorten; [by apply live_swap|done|done].
Qed.

Lemma by_slice_ok b bs R h i n :
  live ((HBytes b, bs) :: R) h → 0 ≤ i ≤ n → n ≤ zlen bs → (i < n → clonable b) →
  wpm (by_slice b (Included i) (Excluded n)) h bm_stop (λ '(b', o) h',
    live ((HBytes b', bs) :: (HBytes o, ztake (n - i) (zdrop i bs)) :: R) h').
Proof using Hal.
  intros Hlive Hi Hn Hcl. destruct (bytes_len _ _ _ _ Hlive) as [El Hm].
  unfold by_slice, range_begin, range_end. apply wpm_bind, wpm_ret. apply wpm_bind, wpm_ret.
  apply wpm_bind, wpm_lift. rewrite (proj2 (Z.leb_le i n)) by lia. simpl.
  apply wpm_bind, wpm_lift. rewrite El, (proj2 (Z.leb_le n _)) by lia. simpl.
  destruct (Z.eqb_spec n i) as [->|Hne].
  { apply wpm_ret. rewrite Z.sub_diag. destruct Hlive as [? Hw]. split; [done|].
    rewrite Permutation_swap. by apply world_empty. }
  apply wpm_bind. eapply wpm_mono; [apply (by_clone_ok _ _ _ _ Hlive), Hcl; lia|].
  intros [b1 c] h1 (Hl1 & Hk1 & Hk2 & _). apply live_swap in Hl1.
  unfold isize_max in *. apply wpm_bind, wpm_usize_sub; [lia|]. apply wpm_bind.
  eapply wpm_mono; [apply (bytes_sub _ _ _ _ i (n - i) Hl1); (done || lia)|].
  intros p h' Hl. apply wpm_ret. by apply live_swap.
Qed.

(** Cutting a handle that owns a boxed slice goes through a clone. *)
Lemma by_truncate_ok b bs R h n :
  live ((HBytes b, bs) :: R) h → 0 ≤ n →
  (0 < n < zlen bs → clonable b ∨ by_vtable b = SHARED_VTABLE) →
  wpm (by_truncate b n) h bm_stop (λ b' h', live ((HBytes b', ztake n bs) :: R) h').
Proof using Hal.
  intros Hlive Hn Hcl. destruct (bytes_len _ _ _ _ Hlive) as [El Hm]. unfold by_truncate. rewrite El.
  destruct (Z.ltb_spec n (zlen bs)); [|apply wpm_ret; by rewrite ztake_all by lia].
  destruct (decide (by_vtable b = PROMOTABLE_EVEN_VTABLE ∨ by_vtable b = PROMOTABLE_ODD_VTABLE)) as [Hp|Hp].
  - rewrite <-bool_decide_or, bool_decide_eq_true_2 by done. apply wpm_bind.
    eapply wpm_mono; [apply (by_split_off_ok _ _ _ _ n Hlive); [lia|]|].
    { intros Hn'. destruct (Hcl Hn') as [?|E]; [done|]. rewrite E in Hp. by destruct Hp. }
    intros [b' o] h' Hl%live_swap. apply wpm_bind. eapply wpm_mono; [by eapply by_drop_ok|].
    intros [] h'' ?. by apply wpm_ret.
  - rewrite <-bool_decide_or, bool_decide_eq_false_2 by done. apply wpm_ret.
    apply bytes_shorten; [done| |lia].
    apply live_bytes_inv in Hlive as [Hok [[[_ (_ & _ & -> & _)] _]
      |[(hs & blk & base & cells & off & Hat)
       |(c & S & R' & hs & blk & base & cells & sid & sa & off & HR & Hat)]]]; [done| |].
    + exfalso. destruct Hat as (_ & _ & _ & _ & _ & _ & _ & Hd & _). unfold box_data in Hd.
      rewrite !decide_False in Hd by (intros [? _]; auto). done.
    + destruct Hat as (_ & _ & _ & _ & _ & _ & _ & -> & _ & _ & _ & _ & _ & Hsa). by apply kind_of_count.
Qed.
End ops.
