(* ===== verification/BytesConv.v ===== *)
(** * [Bytes] back to [Vec<u8>] and to [BytesMut]

    The last handle of an allocation gives it up without a copy, the others are
    copied. *)

From S2P Require Import Prelude RustVec Mem Buf BytesMut Bytes World BytesMutSpec BytesMutGrow BytesMutOps.
From S2P Require Import BytesSpec.

Definition promotable (b : Bytes) : Prop :=
  by_vtable b = PROMOTABLE_EVEN_VTABLE ∨ by_vtable b = PROMOTABLE_ODD_VTABLE.

#[global] Instance promotable_dec b : Decision (promotable b).
Proof. unfold promotable. apply _. Defined.

Section conv.
Context `{Hbd : Build} `{Hal : AllocatorLaws}.

(** The conversions that keep the books: an [Owned] is not released by
    [owned_to_vec], and a boxed slice fails a debug assertion. *)
Definition vec_convertible (b : Bytes) : Prop :=
  by_vtable b ≠ OWNED_VTABLE
  ∧ (promotable b → kind_of (by_data b) = KIND_ARC ∨ debug_assertions = false).

Definition mut_convertible (b : Bytes) : Prop :=
  promotable b → kind_of (by_data b) = KIND_VEC ∧ debug_assertions = false.

Lemma copy_out_ok b bs R h (rel : M ()) :
  live ((HBytes b, bs) :: R) h → rel = by_drop b →
  wpm (bs ← load_bytes (by_ptr b) (by_len b); v ← rv_of_bytes bs; rel;; mret v) h bm_stop
    (λ v h', vec_live v bs R h').
Proof using Hbd Hal.
  intros Hlive ->. apply wpm_bind. eapply wpm_load_bytes_live; [exact Hlive|].
  apply wpm_bind. eapply wpm_mono; [by apply rv_of_bytes_ok|].
  intros v h1 Hv%vec_live_handle%live_swap. apply wpm_bind.
  eapply wpm_mono; [by eapply by_drop_ok|]. intros [] h2 Hl. apply wpm_ret. by apply vec_live_handle.
Qed.

Lemma copy_out_mut_ok b bs R h (rel : M ()) :
  live ((HBytes b, bs) :: R) h → rel = by_drop b →
  wpm (bs ← load_bytes (by_ptr b) (by_len b); v ← rv_of_bytes bs; rel;; from_vec v) h bm_stop
    (λ m h', live ((HMut m, bs) :: R) h').
Proof using Hbd Hal.
  intros Hlive ->. apply wpm_bind. eapply wpm_load_bytes_live; [exact Hlive|].
  apply wpm_bind. eapply wpm_mono; [by apply rv_of_bytes_ok|].
  intros v h1 Hv%vec_live_handle%live_swap. apply wpm_bind.
  eapply wpm_mono; [by eapply by_drop_ok|]. intros [] h2 Hl%vec_live_handle.
  eapply wpm_mono; [by apply from_vec_ok|]. by intros m h3 [? _].
Qed.

(** A vector made into a handle and moved past its first bytes. *)
Lemma from_vec_advance_ok blk base cells off bs R h hs :
  heap_ok h → objs h = <[blk := (base, OBytes cells)]> hs → hs !! blk = None → world R hs →
  zlen cells ≤ isize_max → 0 ≤ off → off + zlen bs ≤ zlen cells →
  cells_load cells off (zlen bs) = Some <$> bs →
  wpm (b ← from_vec (mkRVec (mkPtr (Some blk) base) (zlen cells) (off + zlen bs));
       advance_unchecked b off) h bm_stop (λ m h', live ((HMut m, bs) :: R) h').
Proof using Hbd Hal.
  intros Hok Hh Hb HR Hm Hoff Hl Hload. pose proof (zlen_nonneg bs).
  assert (objs h !! blk = Some (base, OBytes cells)) as Hk by (rewrite Hh; apply lookup_insert_eq).
  destruct (ok_obj h Hok _ _ _ Hk) as (Hb0 & _).
  apply wpm_bind. unfold from_vec. apply wpm_bind, wpm_vptr; [simpl; lia|]. apply wpm_ret.
  pose proof (original_capacity_to_repr_range (zlen cells) (zlen_nonneg _)). simpl.
  rewrite vec_data_new by done. set (repr := original_capacity_to_repr _) in *.
  destruct (Z.eq_dec off 0) as [->|].
  - apply wpm_ret. replace base with (base + 0) by lia. replace (zlen cells) with (zlen cells - 0) by lia.
    eapply live_vec; [done|exact Hh|done|done|done| |done|lia|done]. rewrite max_vec_pos_val. lia.
  - pose proof (advance_vec_ok R h hs blk base cells 0 (off + zlen bs) repr off bs) as Hadv.
    simpl in Hadv. rewrite Z.add_0_r, Z.sub_0_r in Hadv.
    eapply wpm_mono; [apply Hadv; try done; rewrite ?max_vec_pos_val; lia|]. by intros m h' [? _].
Qed.
(** The only handle of a [Shared] of [bytes.rs] takes the box apart. *)
Lemma forget_unique_ok {A} blk base cells sid sa n h hs (k : BShared → M A) (Q : A → heap → Prop) :
  let p := mkPtr (Some sid) sa in
  heap_ok h →
  objs h = <[sid := (sa, counter_obj CShared blk base cells n)]> (<[blk := (base, OBytes cells)]> hs) →
  hs !! sid = None → sid ≠ blk →
  (∀ h', heap_ok h' → objs h' = <[blk := (base, OBytes cells)]> hs →
    wpm (k (mkBShared (mkPtr (Some blk) base) (zlen cells) n)) h' bm_stop Q) →
  wpm (s ← forget_bshared p; k s) h bm_stop Q.
Proof.
  intros p Hok Hh Hs Hne Hk. subst p. apply wpm_bind.
  eapply wpm_forget_bshared; [rewrite Hh; apply lookup_insert_eq|].
  apply Hk; [by apply heap_ok_free|]. simpl. rewrite Hh, delete_insert_id; [done|].
  by rewrite lookup_insert_ne.
Qed.

Lemma vec_live_perm v bs R R' h : R ≡ₚ R' → vec_live v bs R h → vec_live v bs R' h.
Proof. intros HR. by rewrite !vec_live_handle, HR. Qed.

Lemma counted_drop b sid sa :
  by_vtable b = SHARED_VTABLE ∨ by_vtable b = PROMOTABLE_EVEN_VTABLE
  ∨ by_vtable b = PROMOTABLE_ODD_VTABLE →
  by_data b = mkPtr (Some sid) sa → sa mod 8 = 0 → by_release_shared (by_data b) = by_drop b.
Proof.
  destruct b as [p len data vt]. simpl. intros Hvt -> Hsa. destruct Hvt as [->|[-> | ->]]; [done| |]; simpl;
    unfold promotable_even_drop, promotable_odd_drop, promotable_drop; by rewrite kind_of_count.
Qed.

Lemma shared_to_vec_ok b bs S R R' h hs blk base cells sid sa off :
  heap_ok h → live ((HBytes b, bs) :: R) h → R ≡ₚ S ++ R' →
  at_count CShared b bs S R' h hs blk base cells sid sa off →
  wpm (shared_to_vec_impl (by_data b) (by_ptr b) (by_len b)) h bm_stop (λ v h', vec_live v bs R h').
Proof using Hbd Hal.
  intros Hok Hlive HR Hat. pose proof (at_count_lookup _ _ _ _ _ _ _ _ _ _ _ _ _ Hat) as [_ Hsk].
  destruct Hat as (Hh & HR' & Hb & Hs & Hm & Ep & El & Ed & Hc & Hf & Hoff & Hl & Hload & Hsa).
  pose proof (fam_ids _ _ _ _ _ _ _ Hf). pose proof (counted_drop _ _ _ Hc Ed Hsa) as Hrel.
  unfold shared_to_vec_impl. apply wpm_bind. rewrite Ed at 1. eapply wpm_get_bshared; [exact Hsk|].
  simpl. destruct (Z.eqb_spec (zlen S + 1) 1).
  - assert (S = []) as -> by (apply zlen_nil_inv; lia). rewrite Ed. apply wpm_bind.
    eapply wpm_set_bshared; [exact Hsk|].
    apply (forget_unique_ok blk base cells sid sa 0 _ hs); try done.
    + by eapply heap_ok_update.
    + simpl. by rewrite Hh, insert_insert_eq.
    + intros h' Hok' Hh'. simpl. rewrite Ep, El.
      eapply wpm_mono; [by apply (finish_vec_ok blk base cells off 0 bs R' h' hs)|].
      intros v h'' [Hv _]. by eapply vec_live_perm.
  - by apply copy_out_ok.
Qed.

Lemma mut_shared_to_vec_ok vlen repr b bs S R R' h hs blk base cells sid sa off :
  heap_ok h → live ((HBytes b, bs) :: R) h → R ≡ₚ S ++ R' →
  at_count (CMut vlen repr) b bs S R' h hs blk base cells sid sa off →
  wpm (shared_v_to_vec (by_data b) (by_ptr b) (by_len b)) h bm_stop (λ v h', vec_live v bs R h').
Proof using Hbd Hal.
  intros Hok Hlive HR Hat. pose proof (at_count_lookup _ _ _ _ _ _ _ _ _ _ _ _ _ Hat) as [_ Hsk].
  destruct Hat as (Hh & HR' & Hb & Hs & Hm & Ep & El & Ed & Hc & Hf & Hoff & Hl & Hload & Hsa).
  pose proof (fam_ids _ _ _ _ _ _ _ Hf). unfold shared_v_to_vec.
  apply wpm_bind. rewrite Ed at 1. eapply wpm_get_shared; [exact Hsk|]. unfold is_unique.
  simpl. destruct (Z.eqb_spec (zlen S + 1) 1) as [Hz|].
  - assert (S = []) as -> by (apply zlen_nil_inv; lia). rewrite Ed. simpl in Hh.
    eapply take_unique_ok; [exact Hok|exact Hh|done|done|]. intros h' Hok' Hh'. rewrite Ep, El.
    eapply wpm_mono; [by apply (finish_vec_ok blk base cells off vlen bs R' h' hs)|].
    intros v h'' [Hv _]. by eapply vec_live_perm.
  - apply copy_out_ok; [done|]. destruct b as [p len data vt]. simpl in *. by subst vt.
Qed.

Lemma box_to_vec_ok b bs R h hs blk base cells off :
  heap_ok h → at_box b bs R h hs blk base cells off → debug_assertions = false →
  wpm (promotable_to_vec (by_data b) (by_ptr b) (by_len b) (box_buf (by_vtable b))) h bm_stop
    (λ v h', vec_live v bs R h').
Proof.
  intros Hok Hat Hrel. pose proof (at_box_lookup _ _ _ _ _ _ _ _ _ Hat) as Hk.
  destruct Hat as (Hh & HR & Hb & Hc & Hpos & Ep & El & Hd & Hoff & Hl & Hload).
  destruct (ok_obj h Hok _ _ _ Hk) as (Hb0 & _ & Hend). simpl in Hend.
  assert (0 < base < 2 ^ 64) as Hb1 by lia.
  destruct (box_data_spec _ _ _ _ Hb1 Hd) as (_ & Hkind & Hbuf & _).
  pose proof (zlen_nonneg bs). unfold promotable_to_vec, debug_assertM. rewrite Hkind, Hrel, Hbuf, Ep, El.
  simpl. unfold isize_max in *. apply wpm_bind, wpm_ret.
  apply wpm_bind, wpm_offset_from; [lia|]. apply wpm_bind, wpm_usize_add; [lia|]. rewrite Hl.
  eapply wpm_mono; [by apply (finish_vec_ok blk base cells off 0 bs R h hs); try lia|].
  by intros v h' [? _].
Qed.

Lemma by_into_vec_ok b bs R h :
  live ((HBytes b, bs) :: R) h → vec_convertible b →
  wpm (by_into_vec b) h bm_stop (λ v h', vec_live v bs R h').
Proof using Hbd Hal.
  intros Hlive [Hno Hpk]. pose proof Hlive as [Hok [[[He (Hvt & El & _)] Hlive0]
    |[(hs & blk & base & cells & off & Hat)
     |(c & S & R' & hs & blk & base & cells & sid & sa & off & HR & Hat)]]]%live_bytes_inv.
  - simpl in He. subst bs. destruct b as [p len data vt]. simpl in *. subst vt len.
    unfold static_to_vec. apply wpm_bind, wpm_ret. by apply rv_of_bytes_ok.
  - pose proof (at_box_lookup _ _ _ _ _ _ _ _ _ Hat) as Hk.
    pose proof Hat as (_ & _ & _ & _ & Hpos & _ & _ & Hd & _).
    destruct (ok_obj h Hok _ _ _ Hk) as (Hb0 & _ & Hend). simpl in Hend.
    assert (0 < base < 2 ^ 64) as Hb1 by lia.
    destruct (box_data_spec _ _ _ _ Hb1 Hd) as (Hvt & Hkind & _).
    assert (debug_assertions = false) as Hrel by (destruct (Hpk Hvt) as [E|]; [by rewrite E in Hkind|done]).
    pose proof (box_to_vec_ok _ _ _ _ _ _ _ _ _ Hok Hat Hrel) as Hbox.
    destruct b as [p len data vt]. simpl in *. by destruct Hvt as [-> | ->].
  - pose proof Hat as (_ & _ & _ & _ & _ & _ & _ & Ed & Hc & _ & _ & _ & _ & Hsa).
    destruct c as [vlen repr| |vlen]; [| |done].
    + pose proof (mut_shared_to_vec_ok _ _ _ _ _ _ _ _ _ _ _ _ _ _ _ Hok Hlive HR Hat).
      destruct b as [p len data vt]. simpl in *. by subst vt.
    + pose proof (shared_to_vec_ok _ _ _ _ _ _ _ _ _ _ _ _ _ Hok Hlive HR Hat) as Hsh.
      destruct b as [p len data vt]. simpl in *. subst data.
      destruct Hc as [->|[-> | ->]]; [done| |]; simpl;
        unfold promotable_even_to_vec, promotable_odd_to_vec, promotable_to_vec;
        by rewrite kind_of_count.
Qed.
(** ** To [BytesMut] *)

Lemma shared_to_mut_ok b bs S R R' h hs blk base cells sid sa off :
  heap_ok h → live ((HBytes b, bs) :: R) h → R ≡ₚ S ++ R' →
  at_count CShared b bs S R' h hs blk base cells sid sa off →
  wpm (shared_to_mut_impl (by_data b) (by_ptr b) (by_len b)) h bm_stop
    (λ m h', live ((HMut m, bs) :: R) h').
Proof using Hbd Hal.
  intros Hok Hlive HR Hat. pose proof (at_count_lookup _ _ _ _ _ _ _ _ _ _ _ _ _ Hat) as [_ Hsk].
  destruct Hat as (Hh & HR' & Hb & Hs & Hm & Ep & El & Ed & Hc & Hf & Hoff & Hl & Hload & Hsa).
  pose proof (fam_ids _ _ _ _ _ _ _ Hf). pose proof (counted_drop _ _ _ Hc Ed Hsa) as Hrel.
  pose proof (zlen_nonneg bs).
  unfold shared_to_mut_impl. apply wpm_bind. rewrite Ed at 1. eapply wpm_get_bshared; [exact Hsk|].
  simpl. destruct (Z.eqb_spec (zlen S + 1) 1).
  - assert (S = []) as -> by (apply zlen_nil_inv; lia). rewrite Ed.
    eapply forget_unique_ok; [exact Hok|exact Hh|done|done|]. intros h' Hok' Hh'. simpl.
    rewrite Ep, El. unfold isize_max in *.
    apply wpm_bind, wpm_offset_from; [lia|]. apply wpm_bind, wpm_usize_add; [lia|].
    rewrite (Z.add_comm (zlen bs)).
    eapply wpm_mono; [by apply (from_vec_advance_ok blk base cells off bs R' h' hs)|].
    intros m h'' Hl'. by rewrite HR.
  - by apply copy_out_mut_ok.
Qed.

Lemma mut_shared_to_mut_ok vlen repr b bs S R R' h hs blk base cells sid sa off :
  heap_ok h → live ((HBytes b, bs) :: R) h → R ≡ₚ S ++ R' →
  at_count (CMut vlen repr) b bs S R' h hs blk base cells sid sa off →
  wpm (shared_v_to_mut (by_data b) (by_ptr b) (by_len b)) h bm_stop
    (λ m h', live ((HMut m, bs) :: R) h').
Proof using Hbd Hal.
  intros Hok Hlive HR Hat. pose proof (at_count_lookup _ _ _ _ _ _ _ _ _ _ _ _ _ Hat) as [Hk Hsk].
  destruct Hat as (Hh & HR' & Hb & Hs & Hm & Ep & El & Ed & Hc & Hf & Hoff & Hl & Hload & Hsa).
  pose proof (fam_ids _ _ _ _ _ _ _ Hf). destruct (ok_obj h Hok _ _ _ Hk) as (Hb0 & _).
  pose proof (fam_ok _ _ _ _ _ _ _ Hf) as Hrepr. simpl in Hrepr. pose proof (zlen_nonneg bs).
  unfold shared_v_to_mut. apply wpm_bind. rewrite Ed at 1. eapply wpm_get_shared; [exact Hsk|].
  unfold is_unique. simpl. destruct (Z.eqb_spec (zlen S + 1) 1) as [Hz|].
  - assert (S = []) as -> by (apply zlen_nil_inv; lia). rewrite Ed, Ep, El. simpl in Hh.
    unfold isize_max in *. apply wpm_bind, wpm_offset_from; [lia|].
    apply wpm_bind, wpm_usize_sub; [lia|]. apply wpm_bind, wpm_vptr; [simpl; lia|]. apply wpm_ret.
    rewrite HR. simpl.
    apply (live_last R' h hs blk base cells sid sa vlen repr off); try done; lia.
  - apply copy_out_mut_ok; [done|]. destruct b as [p len data vt]. simpl in *. by subst vt.
Qed.

(** [kind] comes out as the whole word, which is not [KIND_ARC]; without debug
    assertions the slice is converted all the same. *)
Lemma box_to_mut_ok b bs R h hs blk base cells off :
  heap_ok h → at_box b bs R h hs blk base cells off → debug_assertions = false →
  wpm (promotable_to_mut (by_data b) (by_ptr b) (by_len b) (box_buf (by_vtable b))) h bm_stop
    (λ m h', live ((HMut m, bs) :: R) h').
Proof using Hbd Hal.
  intros Hok Hat Hrel. pose proof (at_box_lookup _ _ _ _ _ _ _ _ _ Hat) as Hk.
  destruct Hat as (Hh & HR & Hb & Hc & Hpos & Ep & El & Hd & Hoff & Hl & Hload).
  destruct (ok_obj h Hok _ _ _ Hk) as (Hb0 & _ & Hend). simpl in Hend.
  assert (0 < base < 2 ^ 64) as Hb1 by lia.
  destruct (box_data_spec _ _ _ _ Hb1 Hd) as (_ & _ & Hbuf & Hda).
  pose proof (zlen_nonneg bs). unfold promotable_to_mut, debug_assertM.
  apply wpm_bind, wpm_lift. unfold KIND_MASK. rewrite Z.mul_1_r, unsigned_op_in by lia. simpl.
  unfold KIND_ARC. rewrite (proj2 (Z.eqb_neq (addr (by_data b)) 0)) by lia.
  rewrite Hrel, Hbuf, Ep, El. unfold isize_max in *. apply wpm_bind, wpm_ret.
  apply wpm_bind, wpm_offset_from; [lia|]. apply wpm_bind, wpm_usize_add; [lia|].
  rewrite Hl at 1. by apply (from_vec_advance_ok blk base cells off bs R h hs); try lia.
Qed.

Lemma owned_to_mut_ok vlen b bs S R R' h hs blk base cells sid sa off :
  live ((HBytes b, bs) :: R) h → at_count (COwned vlen) b bs S R' h hs blk base cells sid sa off →
  wpm (owned_to_mut (by_data b) (by_ptr b) (by_len b)) h bm_stop
    (λ m h', live ((HMut m, bs) :: R) h').
Proof using Hbd Hal.
  intros Hlive (_ & _ & _ & _ & _ & _ & _ & _ & Hc & _). unfold owned_to_mut, owned_to_vec.
  apply wpm_bind, wpm_bind. eapply wpm_load_bytes_live; [exact Hlive|].
  eapply wpm_mono; [by apply rv_of_bytes_ok|]. intros v h1 Hv. apply wpm_bind.
  eapply wpm_mono; [exact (from_vec_ok _ _ _ _ Hv)|]. intros m h2 [Hl%live_swap _]. apply wpm_bind.
  assert (owned_drop_impl (by_data b) = by_drop b) as ->
    by (destruct b as [p len data vt]; simpl in *; by subst vt).
  eapply wpm_mono; [by eapply by_drop_ok|]. intros [] h3 ?. by apply wpm_ret.
Qed.

Lemma into_mut_ok b bs R h :
  live ((HBytes b, bs) :: R) h → mut_convertible b →
  wpm (into_mut b) h bm_stop (λ m h', live ((HMut m, bs) :: R) h').
Proof using Hbd Hal.
  intros Hlive Hpk. pose proof Hlive as [Hok [[[He (Hvt & El & _)] Hlive0]
    |[(hs & blk & base & cells & off & Hat)
     |(c & S & R' & hs & blk & base & cells & sid & sa & off & HR & Hat)]]]%live_bytes_inv.
  - simpl in He. subst bs. destruct b as [p len data vt]. simpl in *. subst vt len.
    unfold static_to_mut. apply wpm_bind, wpm_ret. by apply from_slice_ok.
  - pose proof (at_box_lookup _ _ _ _ _ _ _ _ _ Hat) as Hk.
    pose proof Hat as (_ & _ & _ & _ & Hpos & _ & _ & Hd & _).
    destruct (ok_obj h Hok _ _ _ Hk) as (Hb0 & _ & Hend). simpl in Hend.
    assert (0 < base < 2 ^ 64) as Hb1 by lia.
    destruct (box_data_spec _ _ _ _ Hb1 Hd) as (Hvt & _). destruct (Hpk Hvt) as [_ Hrel].
    pose proof (box_to_mut_ok _ _ _ _ _ _ _ _ _ Hok Hat Hrel) as Hbox.
    destruct b as [p len data vt]. simpl in *. by destruct Hvt as [-> | ->].
  - pose proof Hat as (_ & _ & _ & _ & _ & _ & _ & Ed & Hc & _ & _ & _ & _ & Hsa).
    destruct c as [vlen repr| |vlen].
    + pose proof (mut_shared_to_mut_ok _ _ _ _ _ _ _ _ _ _ _ _ _ _ _ Hok Hlive HR Hat).
      destruct b as [p len data vt]. simpl in *. by subst vt.
    + pose proof (shared_to_mut_ok _ _ _ _ _ _ _ _ _ _ _ _ _ Hok Hlive HR Hat) as Hsh.
      destruct b as [p len data vt]. simpl in *. subst data.
      destruct Hc as [->|Hp]; [done|]. exfalso. destruct (Hpk Hp) as [E _].
      simpl in E. by rewrite kind_of_count in E.
    + pose proof (owned_to_mut_ok _ _ _ _ _ _ _ _ _ _ _ _ _ _ Hlive Hat) as Hsh.
      destruct b as [p len data vt]. simpl in *. by subst vt.
Qed.

(** ** Uniqueness *)

(** Reading the count changes nothing. *)
Lemma by_is_unique_ok b bs R h :
  live ((HBytes b, bs) :: R) h → wpm (by_is_unique b) h bm_stop (λ _ h', h' = h).
Proof.
  intros [Hok [[[He (Hvt & _)] _]
    |[(hs & blk & base & cells & off & Hat)
     |(c & S & R' & hs & blk & base & cells & sid & sa & off & HR & Hat)]]]%live_bytes_inv;
    unfold by_is_unique.
  - by rewrite Hvt.
  - pose proof (at_box_lookup _ _ _ _ _ _ _ _ _ Hat) as Hk.
    destruct Hat as (_ & _ & _ & _ & Hpos & _ & _ & Hd & _).
    destruct (ok_obj h Hok _ _ _ Hk) as (Hb0 & _ & Hend). simpl in Hend.
    assert (0 < base < 2 ^ 64) as Hb1 by lia.
    destruct (box_data_spec _ _ _ _ Hb1 Hd) as (Hvt & Hkind & _).
    unfold promotable_is_unique. rewrite Hkind. by destruct Hvt as [-> | ->].
  - pose proof (at_count_lookup _ _ _ _ _ _ _ _ _ _ _ _ _ Hat) as [_ Hsk].
    destruct Hat as (_ & _ & _ & _ & _ & _ & _ & -> & Hc & _ & _ & _ & _ & Hsa).
    destruct c as [vlen repr| |vlen]; simpl in Hc.
    + rewrite Hc. apply wpm_bind. by eapply wpm_get_shared.
    + assert (wpm (shared_is_unique (mkPtr (Some sid) sa)) h bm_stop (λ _ h', h' = h)) as Hu
        by (apply wpm_bind; by eapply wpm_get_bshared).
      unfold promotable_is_unique. rewrite kind_of_count by done.
      by destruct Hc as [->|[-> | ->]].
    + by rewrite Hc.
Qed.

Lemma try_into_mut_ok b bs R h :
  live ((HBytes b, bs) :: R) h → mut_convertible b →
  wpm (try_into_mut b) h bm_stop (λ r h',
    match r with
    | Ok m => live ((HMut m, bs) :: R) h'
    | Err b' => b' = b ∧ h' = h
    end).
Proof using Hbd Hal.
  intros Hlive Hc. unfold try_into_mut. apply wpm_bind.
  eapply wpm_mono; [by eapply by_is_unique_ok|]. intros [] h' ->; [|by apply wpm_ret].
  apply wpm_bind. eapply wpm_mono; [by apply into_mut_ok|]. intros m h' ?. by apply wpm_ret.
Qed.
End conv.
