(* ===== verification/BytesMutClient.v ===== *)
(** * Programs over [BytesMut] handles, and what they are equivalent to

    A client holds a list of handles and runs operations of [bytes_mut.rs] on
    them.  The abstract machine holds a list of byte strings that have nothing to
    do with each other.  Whatever is shared, promoted, moved or reused below, the
    two give the same answers; nothing undefined happens, and nothing stays
    allocated when the handles are gone. *)

From S2P Require Import Prelude RustVec Mem Buf BufAdapters.
From S2P Require Import BytesMut World BytesMutSpec BytesMutGrow BytesMutOps.

(** ** Commands *)

(** The operand [i] is a position in the list of handles.  The handles an
    operation leaves are put at the front, the others keep their order. *)
Inductive cmd :=
| CFromSlice (bs : list byte)
| CWithCapacity (n : Z)
| CZeroed (n : Z)
| CClone (i : nat)
| CSplitOff (i : nat) (at_ : Z)
| CSplitTo (i : nat) (at_ : Z)
| CSplit (i : nat)
| CTruncate (i : nat) (n : Z)
| CClear (i : nat)
| CAdvance (i : nat) (n : Z)
| CReserve (i : nat) (n : Z)
| CTryReclaim (i : nat) (n : Z)
| CExtend (i : nat) (bs : list byte)
| CResize (i : nat) (n : Z) (v : byte)
| CPutBytes (i : nat) (v : byte) (n : Z)
| CWrite (i : nat) (at_ : Z) (v : byte)
| CUnsplit (i j : nat)
| CRead (i : nat)
| CDrop (i : nat).

Definition pick {A} (i : nat) (l : list A) : option (A * list A) :=
  x ← l !! i; Some (x, delete i l).

(** A slice is not longer than [isize::MAX].  Positions, lengths and capacities to construct
    with are any [usize]; the sizes by which a handle grows are bounded by [isize::MAX],
    since for larger ones [reserve] can wrap around in a release build ([reserve_wraps] in
    [BytesMutProps]). *)
Definition cmd_ok (c : cmd) : Prop :=
  match c with
  | CFromSlice bs | CExtend _ bs => zlen bs ≤ isize_max
  | CWithCapacity n | CZeroed n | CSplitOff _ n | CSplitTo _ n | CTruncate _ n | CAdvance _ n
  | CWrite _ n _ => 0 ≤ n ≤ usize_max
  | CReserve _ n | CTryReclaim _ n | CResize _ n _ | CPutBytes _ _ n => 0 ≤ n ≤ isize_max
  | _ => True
  end.

(** ** The program *)

Section client.
Context `{Build} `{Allocator}.

(** One operand. *)
Definition on1 (i : nat) (st : list BytesMut)
    (f : BytesMut → M (list BytesMut * list byte)) : M (list BytesMut * list byte) :=
  match pick i st with
  | None => mret (st, [])
  | Some (b, rest) => '(bs, out) ← f b; mret (bs ++ rest, out)
  end.

Definition ret1 (m : M BytesMut) : M (list BytesMut * list byte) := b ← m; mret ([b], []).
Definition ret2 (m : M (BytesMut * BytesMut)) : M (list BytesMut * list byte) :=
  '(b, o) ← m; mret ([b; o], []).

Definition exec (c : cmd) (st : list BytesMut) : M (list BytesMut * list byte) :=
  match c with
  | CFromSlice bs => b ← from_slice bs; mret (b :: st, [])
  | CWithCapacity n => b ← with_capacity n; mret (b :: st, [])
  | CZeroed n => b ← zeroed n; mret (b :: st, [])
  | CClone i => on1 i st (λ b, b' ← bm_clone b; mret ([b'; b], []))
  | CSplitOff i n => on1 i st (λ b, ret2 (split_off b n))
  | CSplitTo i n => on1 i st (λ b, ret2 (split_to b n))
  | CSplit i => on1 i st (λ b, ret2 (bm_split b))
  | CTruncate i n => on1 i st (λ b, ret1 (truncate b n))
  | CClear i => on1 i st (λ b, ret1 (clear b))
  | CAdvance i n => on1 i st (λ b, ret1 (bm_advance b n))
  | CReserve i n => on1 i st (λ b, ret1 (reserve b n))
  | CTryReclaim i n => on1 i st (λ b, '(b, _) ← try_reclaim b n; mret ([b], []))
  | CExtend i bs => on1 i st (λ b, ret1 (extend_from_slice b bs))
  | CResize i n v => on1 i st (λ b, ret1 (resize b n v))
  | CPutBytes i v n => on1 i st (λ b, ret1 (bm_put_bytes b v n))
  | CWrite i n v => on1 i st (λ b, as_mut_write b n v;; mret ([b], []))
  | CUnsplit i j => on1 i st (λ b, mret ([b], [])) ≫= λ '(st, _),
      match st with
      | b :: st' => match pick j st' with
                    | None => mret (st, [])
                    | Some (o, rest) => b ← unsplit b o; mret (b :: rest, [])
                    end
      | [] => mret (st, [])
      end
  | CRead i => on1 i st (λ b, out ← as_slice b; mret ([b], out))
  | CDrop i => on1 i st (λ b, bm_drop b;; mret ([], []))
  end.

Fixpoint run (p : list cmd) (st : list BytesMut) : M (list BytesMut * list (list byte)) :=
  match p with
  | [] => mret (st, [])
  | c :: p =>
      '(st, out) ← exec c st;
      '(st, outs) ← run p st;
      mret (st, out :: outs)
  end.

(** The end of the handles' scope. *)
Fixpoint drop_all (st : list BytesMut) : M () :=
  match st with
  | [] => mret ()
  | b :: st => bm_drop b;; drop_all st
  end.
End client.

(** ** The abstract machine *)

Abbreviation strings := (list (list byte)).

Definition sp1 (i : nat) (ss : strings) (f : list byte → strings * list byte)
    : strings * list byte :=
  match pick i ss with
  | None => (ss, [])
  | Some (s, rest) => let '(l, out) := f s in (l ++ rest, out)
  end.

Definition spec (c : cmd) (ss : strings) : strings * list byte :=
  match c with
  | CFromSlice bs => (bs :: ss, [])
  | CWithCapacity n => ([] :: ss, [])
  | CZeroed n => (replicate (Z.to_nat n) Byte.x00 :: ss, [])
  | CClone i => sp1 i ss (λ s, ([s; s], []))
  | CSplitOff i n => sp1 i ss (λ s, ([ztake n s; zdrop n s], []))
  | CSplitTo i n => sp1 i ss (λ s, ([zdrop n s; ztake n s], []))
  | CSplit i => sp1 i ss (λ s, ([[]; s], []))
  | CTruncate i n => sp1 i ss (λ s, ([ztake n s], []))
  | CClear i => sp1 i ss (λ s, ([[]], []))
  | CAdvance i n => sp1 i ss (λ s, ([zdrop n s], []))
  | CReserve i n | CTryReclaim i n => sp1 i ss (λ s, ([s], []))
  | CExtend i bs => sp1 i ss (λ s, ([s ++ bs], []))
  | CResize i n v => sp1 i ss (λ s, ([ztake n s ++ replicate (Z.to_nat (n - zlen s)) v], []))
  | CPutBytes i v n => sp1 i ss (λ s, ([s ++ replicate (Z.to_nat n) v], []))
  | CWrite i n v => sp1 i ss (λ s, ([<[Z.to_nat n := v]> s], []))
  | CUnsplit i j =>
      let '(ss, _) := sp1 i ss (λ s, ([s], [])) in
      match ss with
      | s :: ss' => match pick j ss' with
                    | None => (ss, [])
                    | Some (o, rest) => ((s ++ o) :: rest, [])
                    end
      | [] => (ss, [])
      end
  | CRead i => sp1 i ss (λ s, ([s], s))
  | CDrop i => sp1 i ss (λ s, ([], []))
  end.

(** The arguments the documentation asks for; others may panic. *)
Definition guard (c : cmd) (ss : strings) : bool :=
  let within i (f : list byte → bool) := match ss !! i with Some s => f s | None => true end in
  match c with
  | CSplitOff i n | CSplitTo i n | CAdvance i n => within i (λ s, n <=? zlen s)
  | CWrite i n _ => within i (λ s, n <? zlen s)
  | _ => true
  end.

Fixpoint spec_run (p : list cmd) (ss : strings) : strings * list (list byte) :=
  match p with
  | [] => (ss, [])
  | c :: p =>
      let '(ss, out) := spec c ss in
      let '(ss, outs) := spec_run p ss in
      (ss, out :: outs)
  end.

Fixpoint guards (p : list cmd) (ss : strings) : bool :=
  match p with
  | [] => true
  | c :: p => guard c ss && guards p (fst (spec c ss))
  end.

(** ** The simulation *)

Definition entries_of {A} (f : A → handle) (st : list A) (ss : strings) : list entry := zip (f <$> st) ss.
Abbreviation entries := (entries_of HMut).

(** Every handle shows its string, next to the other handles [R]. *)
Definition sim (R : list entry) (st : list BytesMut) (ss : strings) (h : heap) : Prop :=
  length st = length ss ∧ live (entries st ss ++ R) h.

(** How a program may stop: the allocator refuses, or an argument was wrong. *)
Definition client_stop (ok : bool) (s : stop) : Prop :=
  bm_stop s ∨ (ok = false ∧ ∃ p, s = SPanic p).

Section simulation.
Context `{Build} `{Hal : AllocatorLaws}.

Lemma live_pick {A} (f : A → handle) i st ss R h :
  length st = length ss → live (entries_of f st ss ++ R) h →
  match pick i st, pick i ss with
  | Some (b, st'), Some (s, ss') =>
      length st' = length ss' ∧ live ((f b, s) :: entries_of f st' ss' ++ R) h
  | None, None => True
  | _, _ => False
  end.
Proof.
  intros Hlen Hlive. unfold pick.
  destruct (st !! i) as [b|] eqn:Hb, (ss !! i) as [s|] eqn:Hs; simpl; try done.
  - split.
    + apply lookup_lt_Some in Hb. rewrite !length_delete; [lia|by rewrite Hs|].
      apply lookup_lt_is_Some. lia.
    + unfold entries_of in *. revert Hlive. rewrite (delete_take_drop st), (delete_take_drop ss).
      rewrite <-(take_drop_middle st i b Hb) at 1. rewrite <-(take_drop_middle ss i s Hs) at 1.
      rewrite !fmap_app, !zip_with_app; [|rewrite !length_fmap, !length_take; lia..].
      intros Hl. eapply live_proper; [|done|exact Hl]. simpl.
      by rewrite <-(Permutation_middle (zip (f <$> take i st) _)).
  - apply lookup_lt_Some in Hb. apply lookup_ge_None in Hs. lia.
  - apply lookup_lt_Some in Hs. apply lookup_ge_None in Hb. lia.
Qed.

Lemma wpm_stop_mono {A} (m : M A) h (E E' : stop → Prop) Q :
  wpm m h E Q → (∀ s, E s → E' s) → wpm m h E' Q.
Proof. intros Hm HE. eapply wp_mono; [exact Hm|done|]. by intros []. Qed.

Lemma client_stop_bm ok s : bm_stop s → client_stop ok s.
Proof. by left. Qed.

(** What a step of the program has to match. *)
Definition matches (R : list entry) (r : strings * list byte) : list BytesMut * list byte → heap → Prop :=
  λ '(st, out) h, out = snd r ∧ sim R st (fst r) h.

Lemma on1_sim F i st ss h ok f g :
  sim F st ss h →
  (∀ b s R, ss !! i = Some s → live ((HMut b, s) :: R) h →
    wpm (f b) h (client_stop ok) (matches R (g s))) →
  wpm (on1 i st f) h (client_stop ok) (matches F (sp1 i ss g)).
Proof.
  intros Hsim Hf. pose proof (live_pick HMut i _ _ _ _ (proj1 Hsim) (proj2 Hsim)) as Hp. unfold on1, sp1.
  destruct (pick i st) as [[b st']|] eqn:Hb, (pick i ss) as [[s ss']|] eqn:Hs; try done.
  destruct Hp as [Hlen Hlive]. apply wpm_bind. eapply wpm_mono; [eapply Hf; [|exact Hlive]|].
  { unfold pick in Hs. by destruct (ss !! i); simplify_eq/=. }
  intros [bs out] h' (-> & Hlen' & Hlive'). destruct (g s) as [l o]. apply wpm_ret.
  split; [done|]. simpl in *. split; [rewrite !length_app; lia|].
  unfold entries_of. rewrite fmap_app, zip_with_app, <-app_assoc by (by rewrite length_fmap). exact Hlive'.
Qed.

Lemma ret1_ok m h ok R s (Q : BytesMut → heap → Prop) :
  wpm m h bm_stop Q → (∀ b h', Q b h' → live ((HMut b, s) :: R) h') →
  wpm (ret1 m) h (client_stop ok) (matches R ([s], [])).
Proof.
  intros Hm HQ. apply wpm_bind. eapply wpm_stop_mono; [|apply client_stop_bm].
  eapply wpm_mono; [exact Hm|]. intros b h' Hb. apply wpm_ret. split; [done|]. split; [done|]. by apply HQ.
Qed.

Lemma ret2_ok m h ok R s t (Q : BytesMut * BytesMut → heap → Prop) :
  wpm m h bm_stop Q →
  (∀ b o h', Q (b, o) h' → live ((HMut b, s) :: (HMut o, t) :: R) h') →
  wpm (ret2 m) h (client_stop ok) (matches R ([s; t], [])).
Proof.
  intros Hm HQ. apply wpm_bind. eapply wpm_stop_mono; [|apply client_stop_bm].
  eapply wpm_mono; [exact Hm|]. intros [b o] h' Hb. apply wpm_ret. split; [done|]. split; [done|].
  by apply HQ.
Qed.

(** A failed [assert!] stops the program before anything has happened. *)
Lemma assert_stop {A} (c : bool) (m : M A) h ok Q :
  c = false → ok = false → wpm (lift (rust_assert c);; m) h (client_stop ok) Q.
Proof. intros -> ->. right. split; [done|]. by eexists. Qed.

Lemma new_sim F m h ok st ss s (Q : BytesMut → heap → Prop) :
  sim F st ss h → wpm m h bm_stop Q → (∀ b h', Q b h' → live ((HMut b, s) :: entries st ss ++ F) h') →
  wpm (b ← m; mret (b :: st, [])) h (client_stop ok) (matches F (s :: ss, [])).
Proof.
  intros [Hlen _] Hm HQ. apply wpm_bind. eapply wpm_stop_mono; [|apply client_stop_bm].
  eapply wpm_mono; [exact Hm|]. intros b h' Hb. apply wpm_ret. split; [done|].
  split; [by simpl; f_equal|]. by apply HQ.
Qed.

Lemma unsplit_sim F i j st ss h :
  sim F st ss h →
  wpm (exec (CUnsplit i j) st) h (client_stop true) (matches F (spec (CUnsplit i j) ss)).
Proof using Hal.
  intros Hsim. simpl. apply wpm_bind.
  eapply wpm_mono; [apply (on1_sim F i st ss h true _ (λ s, ([s], []))); [done|]|].
  { intros b s R _ Hlive. by apply wpm_ret. }
  intros [st' out] h' [-> Hsim']. destruct (sp1 _ _ _) as [ss' ?]. simpl in Hsim'.
  destruct st' as [|b st'], ss' as [|s ss']; destruct Hsim' as [Hl Hlive]; try done.
  assert (live (entries st' ss' ++ (HMut b, s) :: F) h') as Hlive'
    by (by rewrite <-Permutation_middle).
  pose proof (live_pick HMut j st' ss' ((HMut b, s) :: F) h') as Hp. simpl in Hl.
  specialize (Hp ltac:(lia) Hlive').
  destruct (pick j st') as [[o st'']|], (pick j ss') as [[t ss'']|]; try done.
  destruct Hp as [Hl' Hlive'']. rewrite <-Permutation_middle in Hlive''.
  rewrite Permutation_swap in Hlive''.
  apply wpm_bind. eapply wpm_stop_mono; [|apply client_stop_bm].
  eapply wpm_mono; [by apply unsplit_ok|]. intros b' h'' Hlive3. apply wpm_ret.
  split; [done|]. split; [simpl; by f_equal|done].
Qed.

(** *** The operations with a documented panic *)

Lemma split_off_sim b s R h n :
  live ((HMut b, s) :: R) h → 0 ≤ n →
  wpm (ret2 (split_off b n)) h (client_stop (n <=? zlen s))
    (matches R ([ztake n s; zdrop n s], [])).
Proof using Hal.
  intros Hlive Hn. destruct (live_len _ _ _ _ Hlive) as (? & ? & _).
  destruct (Z.leb_spec n (bm_cap b)) as [Hc|Hc].
  - eapply ret2_ok; [by apply split_off_ok|]. by intros b' o h' [? _].
  - rewrite (proj2 (Z.leb_gt n (zlen s))) by lia. unfold ret2, split_off.
    apply wpm_bind, assert_stop; [|done]. apply Z.leb_gt. lia.
Qed.

Lemma split_to_sim b s R h n :
  live ((HMut b, s) :: R) h → 0 ≤ n →
  wpm (ret2 (split_to b n)) h (client_stop (n <=? zlen s))
    (matches R ([zdrop n s; ztake n s], [])).
Proof using Hal.
  intros Hlive Hn. destruct (live_len _ _ _ _ Hlive) as (El & ? & _).
  destruct (Z.leb_spec n (zlen s)) as [Hc|Hc].
  - eapply ret2_ok; [by apply split_to_ok|]. by intros b' o h' [? _].
  - apply wpm_bind, assert_stop; [|done]. apply Z.leb_gt. lia.
Qed.

Lemma advance_sim b s R h n :
  live ((HMut b, s) :: R) h → 0 ≤ n →
  wpm (ret1 (bm_advance b n)) h (client_stop (n <=? zlen s)) (matches R ([zdrop n s], [])).
Proof using Hal.
  intros Hlive Hn. destruct (live_len _ _ _ _ Hlive) as (El & ? & _).
  destruct (Z.leb_spec n (zlen s)) as [Hc|Hc].
  - eapply ret1_ok; [by apply bm_advance_ok|done].
  - apply wpm_bind, assert_stop; [|done]. apply Z.leb_gt. lia.
Qed.

Lemma write_sim b s R h n v :
  live ((HMut b, s) :: R) h → 0 ≤ n →
  wpm (as_mut_write b n v;; mret ([b], [])) h (client_stop (n <? zlen s))
    (matches R ([<[Z.to_nat n := v]> s], [])).
Proof.
  intros Hlive Hn. destruct (live_len _ _ _ _ Hlive) as (El & ? & _).
  destruct (Z.ltb_spec n (zlen s)) as [Hc|Hc]; apply wpm_bind.
  - eapply wpm_stop_mono; [|apply client_stop_bm].
    eapply wpm_mono; [by apply as_mut_write_ok|]. intros [] h' Hlive'. by apply wpm_ret.
  - destruct (live_block _ _ _ _ Hlive) as (blk & base & cells & off & Ep & Hk & ? & ? & _).
    pose proof (zlen_nonneg s). unfold as_mut_write. apply wpm_bind. rewrite Ep, El.
    eapply wpm_valid_range; [exact Hk|lia|lia|lia|].
    rewrite bool_decide_false by lia. right. split; [done|]. by eexists.
Qed.

Lemma exec_sim F c st ss h :
  sim F st ss h → cmd_ok c →
  wpm (exec c st) h (client_stop (guard c ss)) (matches F (spec c ss)).
Proof using Hal.
  intros Hsim Hok. pose proof Hsim as [_ Hlive].
  destruct c; try (by apply unsplit_sim); simpl in *.
  all: try (apply on1_sim; [done|]; intros b s R Hs Hb; rewrite ?Hs).
  - eapply new_sim; [done|by apply from_slice_ok|done].
  - eapply new_sim; [done|apply with_capacity_ok; [done|lia]|]. by intros b h' [? _].
  - eapply new_sim; [done|by apply zeroed_ok|done].
  - apply wpm_bind. eapply wpm_stop_mono; [|apply client_stop_bm].
    eapply wpm_mono; [by apply bm_clone_ok|]. intros b' h' Hlive'. by apply wpm_ret.
  - apply split_off_sim; [done|lia].
  - apply split_to_sim; [done|lia].
  - destruct (live_len _ _ _ _ Hb) as (El & _). pose proof (zlen_nonneg s).
    eapply ret2_ok; [apply split_to_ok; [done|lia]|].
    rewrite El. intros b' o h' [Hlive' _]. by rewrite zdrop_all, ztake_all in Hlive' by lia.
  - eapply ret1_ok; [apply truncate_ok; [done|lia]|done].
  - pose proof (zlen_nonneg s). eapply ret1_ok; [apply bm_set_len_ok; [done|lia]|done].
  - apply advance_sim; [done|lia].
  - eapply ret1_ok; [by apply reserve_ok|]. by intros b' h' [? _].
  - apply wpm_bind. eapply wpm_stop_mono; [|apply client_stop_bm].
    eapply wpm_mono; [by apply try_reclaim_ok|]. intros [b' r] h' [_ [Hlive' _]]. by apply wpm_ret.
  - eapply ret1_ok; [by apply extend_from_slice_ok|done].
  - eapply ret1_ok; [by apply resize_ok|done].
  - eapply ret1_ok; [by apply bm_put_bytes_ok|done].
  - apply write_sim; [done|lia].
  - apply wpm_bind. eapply wpm_stop_mono; [|apply client_stop_bm].
    eapply wpm_mono; [by eapply as_slice_ok|]. intros out h' [-> ->]. by apply wpm_ret.
  - apply wpm_bind. eapply wpm_stop_mono; [|apply client_stop_bm].
    eapply wpm_mono; [by eapply bm_drop_ok|]. intros [] h' Hlive'. by apply wpm_ret.
Qed.

Lemma client_stop_weaken ok ok' s : (ok = false → ok' = false) → client_stop ok s → client_stop ok' s.
Proof. intros Hi [?|[? ?]]; [by left|right; auto]. Qed.

Lemma run_sim F p st ss h :
  sim F st ss h → Forall cmd_ok p →
  wpm (run p st) h (client_stop (guards p ss)) (λ '(st', outs) h',
    outs = snd (spec_run p ss) ∧ sim F st' (fst (spec_run p ss)) h').
Proof using Hal.
  revert st ss h. induction p as [|c p IH]; intros st ss h Hsim Hall; simpl; [by apply wpm_ret|].
  inversion Hall; subst. apply wpm_bind.
  eapply wpm_stop_mono; [|intros ?; apply client_stop_weaken, andb_false_intro1].
  eapply wpm_mono; [by apply exec_sim|]. intros [st1 out] h1 [-> Hsim1].
  destruct (spec c ss) as [ss1 o]. simpl in *. apply wpm_bind.
  eapply wpm_stop_mono; [|intros ?; apply client_stop_weaken, andb_false_intro2].
  eapply wpm_mono; [by apply IH|]. intros [st2 outs] h2 [-> Hsim2].
  destruct (spec_run p ss1) as [ss2 os]. by apply wpm_ret.
Qed.

Lemma drop_all_sim F st ss h :
  sim F st ss h → wpm (drop_all st) h bm_stop (λ _ h', live F h').
Proof.
  revert ss h. induction st as [|b st IH]; intros [|s ss] h [Hlen Hlive]; try done.
  simpl. apply wpm_bind. eapply wpm_mono; [exact (bm_drop_ok b s (entries st ss ++ F) h Hlive)|].
  intros [] h' Hlive'. apply (IH ss). split; [simpl in Hlen; lia|done].
Qed.

Lemma sim_nil : sim [] [] [] empty_heap.
Proof. split; [done|]. split; [apply empty_heap_ok|constructor]. Qed.
End simulation.
