(* ===== verification/BytesMutProps.v ===== *)
(** * The properties of [bytes_mut.rs] *)

From S2P Require Import Prelude RustVec Mem Buf BufAdapters.
From S2P Require Import BytesMut World BytesMutSpec BytesMutGrow BytesMutOps BytesMutClient.

(** ** Programs *)

(** C19: every program over [BytesMut] handles, with sizes to grow by of at most
    [isize::MAX] ([cmd_ok]), gives the outputs of the abstract
    machine, whose strings are independent values, and leaves handles that show
    its strings.  It stops only if the allocator refuses, or with a panic if an
    argument was outside its documented range; it never does anything
    undefined.  This holds for debug and release builds. *)
Theorem bytes_mut_refines `{Build} `{AllocatorLaws} (p : list cmd) :
  Forall cmd_ok p →
  wpm (run p []) empty_heap (client_stop (guards p [])) (λ '(st, outs) h,
    outs = snd (spec_run p []) ∧ sim [] st (fst (spec_run p [])) h).
Proof. apply run_sim, sim_nil. Qed.

Definition hello : list byte := [Byte.x68; Byte.x65; Byte.x6c; Byte.x6c; Byte.x6f].

(** Two halves of a split buffer, one written to while the other is alive. *)
Definition demo : list cmd :=
  [CFromSlice hello; CSplitOff 0 2; CExtend 0 hello; CRead 0; CRead 1; CUnsplit 1 0; CRead 0].

Lemma demo_ok : Forall cmd_ok demo.
Proof. repeat constructor; vm_compute; by intros. Qed.

(** The program runs to its end, with the outputs of the abstract machine. *)
Definition outputs {A} (r : comp (A * heap)) : option A :=
  match r with Ret (a, _) => Some a | Stop _ => None end.

Lemma bytes_mut_refines_witness :
  Forall cmd_ok demo ∧ guards demo [] = true
  ∧ snd <$> outputs (@run debug_build bump demo [] empty_heap) = Some (snd (spec_run demo []))
  ∧ wpm (@run debug_build bump demo []) empty_heap (client_stop true) (λ '(st, outs) h,
      outs = snd (spec_run demo []) ∧ sim [] st (fst (spec_run demo [])) h).
Proof.
  split; [exact demo_ok|]. split; [reflexivity|]. split; [by vm_compute|].
  exact (@bytes_mut_refines debug_build bump bump_laws demo demo_ok).
Defined.

(** When the handles a program leaves are dropped, nothing is allocated any
    more. *)
Theorem bytes_mut_no_leak `{Build} `{AllocatorLaws} (p : list cmd) :
  Forall cmd_ok p →
  wpm ('(st, _) ← run p []; drop_all st) empty_heap (client_stop (guards p [])) (λ _ h, objs h = ∅).
Proof.
  intros Hp. apply wpm_bind. eapply wpm_mono; [by apply run_sim; [apply sim_nil|]|].
  intros [st outs] h [_ Hsim]. eapply wpm_stop_mono; [|apply client_stop_bm].
  eapply wpm_mono; [by eapply drop_all_sim|]. intros [] h' Hl. by apply live_nil.
Qed.

Lemma bytes_mut_no_leak_witness :
  Forall cmd_ok demo ∧ guards demo [] = true
  ∧ outputs (('(st, _) ← @run debug_build bump demo []; @drop_all debug_build st) empty_heap) = Some ()
  ∧ wpm ('(st, _) ← @run debug_build bump demo []; @drop_all debug_build st) empty_heap (client_stop true)
      (λ _ h, objs h = ∅).
Proof.
  split; [exact demo_ok|]. split; [reflexivity|]. split; [by vm_compute|].
  exact (@bytes_mut_no_leak debug_build bump bump_laws demo demo_ok).
Defined.

(** ** Single operations *)

(** A handle in a heap of its own. *)
Lemma from_slice_live `{Build} (bs : list byte) :
  match @from_slice _ bump bs empty_heap with
  | Ret (b, h) => live [(HMut b, bs)] h
  | Stop s => bm_stop s
  end.
Proof. exact (from_slice_ok (Hal := bump_laws) [] empty_heap bs (proj2 sim_nil)). Qed.

Definition hello_state : BytesMut * heap :=
  match @from_slice debug_build bump hello empty_heap with
  | Ret r => r
  | Stop _ => (mkBytesMut (mkPtr None 0) 0 0 (mkPtr None 0), empty_heap)
  end.

Lemma hello_live : live [(HMut (fst hello_state), hello)] (snd hello_state).
Proof. exact (@from_slice_live debug_build hello). Qed.

(** C39: [unsplit] undoes [split_off] without copying: the handle is back at its
    place, with its length, its capacity and its content. *)
Theorem split_off_unsplit `{Build} `{AllocatorLaws} b bs R h at_ :
  live ((HMut b, bs) :: R) h → 0 < at_ ≤ zlen bs →
  wpm ('(b1, other) ← split_off b at_; unsplit b1 other) h bm_stop (λ b' h',
    live ((HMut b', bs) :: R) h'
    ∧ bm_ptr b' = bm_ptr b ∧ bm_len b' = bm_len b ∧ bm_cap b' = bm_cap b).
Proof.
  intros Hlive Hat. destruct (live_len _ _ _ _ Hlive) as (El & ? & ?). apply wpm_bind.
  eapply wpm_mono; [apply split_off_ok; [done|lia]|].
  intros [b1 o] h1 (Hlive1 & Ec1 & Eco & Ep & Hadj).
  assert (zlen (ztake at_ bs) = at_) as Hz by (rewrite zlen_ztake; lia).
  eapply wpm_mono; [eapply unsplit_adjacent_ok; [exact Hlive1|lia|lia|done]|].
  intros b' h' (Hlive' & Ep' & Ec'). rewrite ztake_zdrop in Hlive'.
  destruct (live_len _ _ _ _ Hlive') as (El' & _). split_and!; [done|congruence|lia|lia].
Qed.

Lemma split_off_unsplit_witness :
  wpm ('(b1, other) ← @split_off debug_build bump (fst hello_state) 2;
       @unsplit debug_build bump b1 other) (snd hello_state) bm_stop (λ b' h',
    live [(HMut b', hello)] h'
    ∧ bm_ptr b' = bm_ptr (fst hello_state) ∧ bm_len b' = bm_len (fst hello_state)
    ∧ bm_cap b' = bm_cap (fst hello_state)).
Proof.
  apply (@split_off_unsplit debug_build bump bump_laws); [exact hello_live|].
  unfold zlen. simpl. lia.
Defined.

(** [put] appends everything a [Buf] has left, whatever its chunks are. *)
Theorem bytes_mut_put `{Build} `{AllocatorLaws} {B} `{BufLaws B} fuel b bs R h (src : B) :
  live ((HMut b, bs) :: R) h → buf_wf src → zlen (content src) ≤ isize_max →
  zlen (content src) ≤ Z.of_nat fuel →
  wpm (bm_put fuel b src) h bm_stop (λ '(b', src') h',
    live ((HMut b', bs ++ content src) :: R) h' ∧ content src' = []).
Proof. apply bm_put_ok. Qed.

Lemma bytes_mut_put_witness :
  wpm (@bm_put debug_build bump (list byte) buf_core 5 (fst hello_state) (hello : list byte)) (snd hello_state) bm_stop
    (λ '(b', src') h', live [(HMut b', hello ++ content hello)] h' ∧ content src' = []).
Proof.
  refine (bytes_mut_put (H0 := bump) (H1 := bump_laws) 5 (fst hello_state) hello [] (snd hello_state)
    (hello : list byte) hello_live _ _ _); [done|unfold zlen, isize_max; simpl; lia..].
Defined.

(** The vector made from a [BytesMut] holds its bytes, wherever they were;
    the other handles keep theirs.  Made into a [BytesMut] again it is a handle
    with the same content. *)
Theorem into_vec_spec `{Build} `{AllocatorLaws} b bs R h :
  live ((HMut b, bs) :: R) h →
  wpm (into_vec b) h bm_stop (λ v h', vec_live v bs R h'
    ∧ wpm (from_vec v) h' bm_stop (λ b' h'', live ((HMut b', bs) :: R) h'' ∧ bm_cap b' = rv_cap v)).
Proof.
  intros Hlive. eapply wpm_mono; [by apply into_vec_ok|]. intros v h' Hv. split; [done|].
  by apply from_vec_ok.
Qed.

Lemma into_vec_spec_witness :
  wpm (@into_vec debug_build bump (fst hello_state)) (snd hello_state) bm_stop (λ v h',
    vec_live v hello [] h'
    ∧ wpm (@from_vec debug_build v) h' bm_stop (λ b' h'',
        live [(HMut b', hello)] h'' ∧ bm_cap b' = rv_cap v)).
Proof. apply (@into_vec_spec debug_build bump bump_laws). exact hello_live. Defined.

(** The original capacity that a handle remembers in three bits is the
    largest power of two in its capacity, cut at 64 KiB, and 0 below 1 KiB. *)
Theorem original_capacity_rounds cap :
  0 ≤ cap →
  original_capacity_from_repr (original_capacity_to_repr cap) =
    if cap <? 1024 then 0 else if 65536 <=? cap then 65536 else 2 ^ Z.log2 cap.
Proof.
  intros Hc. unfold original_capacity_to_repr, leading_zeros, PTR_WIDTH.
  change MIN_ORIGINAL_CAPACITY_WIDTH with 10. change MAX_ORIGINAL_CAPACITY_WIDTH with 17.
  assert (Z.shiftr cap 10 = cap / 1024) as Hs by (by rewrite Z.shiftr_div_pow2 by lia).
  destruct (Z.ltb_spec cap 1024).
  { rewrite Hs, Z.div_small by lia. done. }
  assert (10 ≤ Z.log2 cap) by (apply Z.log2_le_pow2; lia).
  rewrite Z.log2_shiftr, Z.max_r by lia. rewrite (proj2 (Z.eqb_neq _ _)) by (rewrite Hs; dlia).
  unfold original_capacity_from_repr. change MIN_ORIGINAL_CAPACITY_WIDTH with 10.
  rewrite (proj2 (Z.eqb_neq _ 0)), Z.shiftl_1_l by lia. destruct (Z.leb_spec 65536 cap).
  - assert (16 ≤ Z.log2 cap) by (apply Z.log2_le_pow2; lia). by rewrite Z.min_r by lia.
  - assert (Z.log2 cap < 16) by (apply Z.log2_lt_pow2; lia). rewrite Z.min_l by lia. f_equal. lia.
Qed.

Lemma original_capacity_rounds_witness :
  original_capacity_from_repr (original_capacity_to_repr 5000) = 4096.
Proof. rewrite original_capacity_rounds by lia. reflexivity. Defined.

(** The position stored by [set_vec_pos] is read back by [get_vec_pos];
    the kind and the remembered capacity stay. *)
Theorem vec_pos_roundtrip `{Build} b pos h :
  kind b = KIND_VEC → 0 ≤ pos ≤ MAX_VEC_POS →
  ∃ b', set_vec_pos b pos h = Ret (b', h) ∧ get_vec_pos b' h = Ret (pos, h)
    ∧ kind b' = KIND_VEC
    ∧ Z.land (addr (bm_data b')) ORIGINAL_CAPACITY_MASK
      = Z.land (addr (bm_data b)) ORIGINAL_CAPACITY_MASK.
Proof.
  intros Hk Hpos. set (d := addr (bm_data b)). set (low := Z.land d NOT_VEC_POS_MASK).
  assert (0 ≤ low < 32) as Hlow.
  { unfold low, NOT_VEC_POS_MASK. change 31 with (Z.ones 5). rewrite Z.land_ones by lia. dlia. }
  assert (Z.land low NOT_VEC_POS_MASK = low) as Hll by (unfold low; by rewrite <-Z.land_assoc).
  set (w := 32 * pos + low).
  assert (Z.land w NOT_VEC_POS_MASK = low) as Hw.
  { unfold w, NOT_VEC_POS_MASK. change 31 with (Z.ones 5). rewrite Z.land_ones by lia. dlia. }
  assert (∀ m, Z.land NOT_VEC_POS_MASK m = m → Z.land w m = Z.land d m) as Hsame.
  { intros m <-. by rewrite !Z.land_assoc, Hw. }
  pose proof Hk as Hk0. unfold kind in Hk0. fold d in Hk0. rewrite max_vec_pos_val in Hpos.
  exists (mkBytesMut (bm_ptr b) (bm_len b) (bm_cap b) (mkPtr None w)).
  assert (kind (mkBytesMut (bm_ptr b) (bm_len b) (bm_cap b) (mkPtr None w)) = KIND_VEC) as Hk'
    by (unfold kind; simpl; rewrite Hsame by done; exact Hk0).
  assert (Z.shiftr w VEC_POS_OFFSET = pos) as Hpos'.
  { unfold w, VEC_POS_OFFSET. rewrite Z.shiftr_div_pow2 by lia. dlia. }
  split_and!; [| |done|by apply Hsame].
  - unfold set_vec_pos, debug_assertM, debug_assert. rewrite Hk.
    rewrite (proj2 (Z.leb_le pos _)) by (rewrite max_vec_pos_val; lia).
    fold d. fold low. unfold VEC_POS_OFFSET, uwrap.
    rewrite (Z.mod_small (Z.shiftl _ _)), lor_low by (rewrite ?Z.shiftl_mul_pow2; lia).
    fold w. unfold invalid_ptr, uwrap. rewrite Z.mod_small by (unfold w; lia).
    by destruct debug_assertions eqn:Hd; simpl; rewrite ?Hd.
  - unfold get_vec_pos, debug_assertM, debug_assert. rewrite Hk'. simpl. rewrite Hpos'.
    by destruct debug_assertions eqn:Hd; simpl; rewrite ?Hd.
Qed.

Lemma vec_pos_roundtrip_witness :
  kind (fst hello_state) = KIND_VEC
  ∧ ∃ b', @set_vec_pos debug_build (fst hello_state) 3 empty_heap = Ret (b', empty_heap)
    ∧ @get_vec_pos debug_build b' empty_heap = Ret (3, empty_heap).
Proof.
  split; [reflexivity|].
  destruct (@vec_pos_roundtrip debug_build (fst hello_state) 3 empty_heap) as (b' & ? & ? & _);
    [reflexivity|rewrite max_vec_pos_val; lia|]. by exists b'.
Defined.

(** [try_reclaim] never answers [false]: it allocates when it cannot
    reclaim, so that on return there is room. *)
Theorem try_reclaim_allocates `{Build} `{AllocatorLaws} b bs R h additional :
  live ((HMut b, bs) :: R) h → 0 ≤ additional ≤ isize_max →
  wpm (try_reclaim b additional) h bm_stop (λ '(b', r) h',
    r = true ∧ live ((HMut b', bs) :: R) h' ∧ zlen bs + additional ≤ bm_cap b').
Proof. apply try_reclaim_ok. Qed.

Lemma try_reclaim_allocates_witness :
  wpm (@try_reclaim debug_build bump (fst hello_state) 1000) (snd hello_state) bm_stop (λ '(b', r) h',
    r = true ∧ live [(HMut b', hello)] h' ∧ zlen hello + 1000 ≤ bm_cap b').
Proof.
  apply (@try_reclaim_allocates debug_build bump bump_laws); [exact hello_live|unfold isize_max; lia].
Defined.

(** The way of [reserve] to the unchecked addition. *)
Lemma reserve_in_place `{Build} `{Allocator} b bs R' h hs blk base cells sid sa vlen repr off cap
    additional E (P : Prop) :
  at_arc b bs [] R' h hs blk base cells sid sa vlen repr off cap 1 → heap_ok h →
  cap < zlen bs + additional → zlen bs + additional < 2 ^ 64 →
  wpm (lift (usize_add (zlen bs + additional) off)) h E (λ t h', P ∧ t ≤ zlen cells ∧ h' = h) →
  wpm (reserve b additional) h E (λ b' h',
    P ∧ b' = mkBytesMut (bm_ptr b) (zlen bs) (zlen bs + additional) (bm_data b) ∧ h' = h).
Proof.
  intros Hat Hok Hmore Hfit Hadd. pose proof (zlen_nonneg bs).
  pose proof (at_arc_lookup _ _ _ _ _ _ _ _ _ _ _ _ _ _ _ _ Hat) as [Hk Hsk].
  destruct Hat as (_ & _ & _ & _ & Hm & -> & _ & Hoff & Hlen & Hcap & _ & Hsa).
  unfold isize_max in *. destruct (ok_obj h Hok _ _ _ Hk) as (Hb & _ & Hend). simpl in Hend.
  unfold reserve. simpl. apply wpm_bind, wpm_usize_sub; [lia|]. rewrite (proj2 (Z.leb_gt _ _)) by lia.
  unfold reserve_inner. rewrite kind_arc by done. simpl.
  apply wpm_bind, wpm_bind, wpm_debug_assert; [done|].
  unfold checked_add. rewrite (proj2 (Z.ltb_lt _ _)) by lia.
  apply wpm_bind. eapply wpm_get_shared; [done|]. simpl. unfold reserve_unique, offset_from. simpl.
  apply wpm_bind, wpm_usize_sub; [lia|]. replace (base + off - base) with off by lia.
  apply wpm_bind. eapply wpm_mono; [exact Hadd|]. intros t h' (HP & Ht & ->).
  rewrite (proj2 (Z.leb_le _ _)) by lia. by apply wpm_ret, wpm_ret.
Qed.

(** A growth by more than [isize::MAX] never succeeds: it stops, or, in a release build and
    without touching the heap, the capacity wraps around. *)
Definition stops (s : stop) : Prop := s = SAbort ∨ ∃ p, s = SPanic p.

Lemma bm_stop_stops s : bm_stop s → stops s.
Proof. intros [->| ->]; [by left|by right; eexists]. Qed.

Definition wrapped `{Build} (b : BytesMut) (bs : list byte) (h : heap) (additional : Z) (b' : BytesMut) (h' : heap) : Prop :=
  debug_assertions = false ∧ b' = mkBytesMut (bm_ptr b) (zlen bs) (zlen bs + additional) (bm_data b) ∧ h' = h.

Lemma reserved_small bs R additional b h : isize_max < additional → ¬ reserved bs R additional b h.
Proof.
  intros Hadd [Hl Hr]. destruct (live_len _ _ _ _ Hl) as (? & ? & ?). pose proof (zlen_nonneg bs). lia.
Qed.

Lemma reserve_large_arc `{Build} `{AllocatorLaws} b bs S R' h hs blk base cells sid sa vlen repr off cap additional :
  at_arc b bs S R' h hs blk base cells sid sa vlen repr off cap (zlen S + 1) → heap_ok h →
  isize_max < additional ≤ usize_max → wpm (reserve b additional) h stops (wrapped b bs h additional).
Proof.
  intros Hat Hok Hadd. pose proof (at_arc_lookup _ _ _ _ _ _ _ _ _ _ _ _ _ _ _ _ Hat) as [Hk Hsk].
  pose proof Hat as (Hh & HR' & Hb & Hs & Hm & Eb & Hf & Hoff & Hlen & Hcap & Hload & Hsa).
  pose proof (zlen_nonneg bs). pose proof (zlen_nonneg S). pose proof (arc_repr Hf) as Hrepr.
  unfold isize_max, usize_max in *.
  destruct (decide (S = [] ∧ zlen bs + additional < 2 ^ 64 ∧ 2 ^ 64 ≤ zlen bs + additional + off)) as [(-> & Hfit & Hbig)|Hno].
  { eapply reserve_in_place; [exact Hat|done|lia|done|]. apply wpm_lift. unfold usize_add, add_w, unsigned_op.
    rewrite (proj2 (Z.ltb_ge _ _)), andb_false_r by lia.
    destruct (debug_assertions : bool) eqn:Ed; simpl; [by right; eexists|].
    split_and!; [done| |done]. unfold uwrap. dlia. }
  unfold reserve. rewrite Eb. simpl. apply wpm_bind, wpm_usize_sub; [lia|]. rewrite (proj2 (Z.leb_gt _ _)) by lia.
  unfold reserve_inner. rewrite kind_arc by done. simpl. apply wpm_bind, wpm_bind, wpm_debug_assert; [done|].
  unfold checked_add. destruct (Z.ltb_spec (zlen bs + additional) (2 ^ 64)); [|by right; eexists].
  apply wpm_bind. eapply wpm_get_shared; [exact Hsk|]. unfold is_unique. simpl.
  destruct (Z.eqb_spec (zlen S + 1) 1) as [Hz|Hz].
  - assert (S = []) as -> by (apply zlen_nil_inv; lia). rewrite Eb in Hat. eapply wpm_stop_mono; [|apply bm_stop_stops].
    eapply wpm_mono; [eapply reserve_unique_ok; [done|exact Hat|lia|]|].
    { destruct (decide (zlen bs + additional + off < 2 ^ 64)); [done|]. destruct Hno. split_and!; [done|lia|lia]. }
    intros [b' []] h' Hr; [|by destruct Hr]. exfalso. by eapply reserved_small; [|exact Hr]; unfold isize_max; lia.
  - apply wpm_bind. unfold rv_with_capacity.
    pose proof (original_capacity_from_repr_bound repr Hrepr).
    rewrite (proj2 (Z.ltb_lt isize_max _)) by (unfold isize_max; lia). by right; eexists.
Qed.

Lemma reserve_large `{Build} `{AllocatorLaws} b bs R h additional :
  live ((HMut b, bs) :: R) h → isize_max < additional ≤ usize_max →
  wpm (reserve b additional) h stops (wrapped b bs h additional).
Proof.
  intros Hlive Hadd. destruct (live_len _ _ _ _ Hlive) as (El & Hcap & Hlen). pose proof (zlen_nonneg bs).
  pose proof Hlive as [Hok [(hs & blk & base & cells & off & repr & Hat)
    |(S & R' & hs & blk & base & cells & sid & sa & vlen & repr & off & cap & HR & Hat)]]%live_inv;
    [|by eapply reserve_large_arc].
  unfold reserve. apply wpm_bind, wpm_usize_sub; [unfold isize_max in *; lia|].
  rewrite (proj2 (Z.leb_gt _ _)) by (unfold isize_max in *; lia). unfold reserve_inner.
  assert (kind b = KIND_VEC) as -> by (destruct Hat as (_&_&_&_&->&_); apply kind_vec). simpl.
  apply wpm_bind. eapply wpm_stop_mono; [|apply bm_stop_stops].
  eapply wpm_mono; [eapply reserve_vec_ok; [done|exact Hat|unfold isize_max in *; lia]|].
  intros [b' []] h' Hr; [|by destruct Hr]. exfalso. by eapply reserved_small; [|exact Hr]; lia.
Qed.

(** C37: [reserve] for any [usize]: up to [isize::MAX] it leaves the content of every handle
    alone and makes room for [additional] more bytes, and with room already there it does
    nothing.  Beyond, it never makes room: it stops, or, in a release build, the capacity
    wraps around. *)
Theorem reserve_spec `{Build} `{AllocatorLaws} b bs R h additional :
  live ((HMut b, bs) :: R) h → 0 ≤ additional ≤ usize_max →
  (additional ≤ isize_max → wpm (reserve b additional) h bm_stop (λ b' h',
    live ((HMut b', bs) :: R) h' ∧ bm_len b' = zlen bs ∧ zlen bs + additional ≤ bm_cap b'))
  ∧ (zlen bs + additional ≤ bm_cap b → reserve b additional h = Ret (b, h))
  ∧ (isize_max < additional →
      wpm (reserve b additional) h stops (wrapped b bs h additional)).
Proof.
  intros Hlive Hadd. destruct (live_len _ _ _ _ Hlive) as (El & ? & ?).
  pose proof (zlen_nonneg bs). split_and!.
  - intros Hs. eapply wpm_mono; [apply reserve_ok; [done|lia]|]. intros b' h' [Hlive' Hroom].
    destruct (live_len _ _ _ _ Hlive') as (El' & _). done.
  - intros Hroom. unfold reserve, mbind, M_bind, lift.
    rewrite usize_sub_in by (unfold isize_max in *; lia). simpl.
    by rewrite (proj2 (Z.leb_le _ _)) by lia.
  - intros Hb. eapply reserve_large; [done|lia].
Qed.

Lemma reserve_spec_witness :
  wpm (@reserve debug_build bump (fst hello_state) 100) (snd hello_state) bm_stop (λ b' h',
    live [(HMut b', hello)] h' ∧ bm_len b' = zlen hello ∧ zlen hello + 100 ≤ bm_cap b').
Proof.
  apply (@reserve_spec debug_build bump bump_laws); [exact hello_live|unfold usize_max|unfold isize_max]; lia.
Defined.

(** C38: [reserve] on the only handle of a shared vector, [off] bytes into it,
    adds without a check.  For an [additional] near [usize::MAX] a release build
    answers at once with a capacity beyond the vector; a debug build panics. *)
Theorem reserve_wraps `{Allocator} b bs R' h hs blk base cells sid sa vlen repr off cap additional :
  at_arc b bs [] R' h hs blk base cells sid sa vlen repr off cap 1 → heap_ok h →
  2 ^ 64 ≤ zlen bs + additional + off → zlen bs + additional < 2 ^ 64 →
  @reserve release_build _ b additional h
    = Ret (mkBytesMut (bm_ptr b) (zlen bs) (zlen bs + additional) (bm_data b), h)
  ∧ zlen cells < zlen bs + additional
  ∧ @reserve debug_build _ b additional h = Panic POverflow.
Proof.
  intros Hat Hok Hbig Hfit. pose proof (zlen_nonneg bs).
  pose proof Hat as (_ & _ & _ & _ & Hm & _ & _ & Hoff & Hlen & Hcap & _).
  unfold isize_max in *. split_and!; [|lia|].
  - assert (wpm (@reserve release_build _ b additional) h (λ _, False) (λ b' h', True
      ∧ b' = mkBytesMut (bm_ptr b) (zlen bs) (zlen bs + additional) (bm_data b) ∧ h' = h)) as Hw.
    { eapply reserve_in_place; [exact Hat|done|lia|done|]. apply wpm_lift.
      unfold usize_add, add_w, unsigned_op. rewrite (proj2 (Z.ltb_ge _ _)), andb_false_r by lia. simpl.
      split_and!; [done| |done]. unfold uwrap. dlia. }
    unfold wpm in Hw. destruct (reserve b additional h) as [[b' h']|]; [|done].
    by destruct Hw as (_ & -> & ->).
  - assert (wpm (@reserve debug_build _ b additional) h (λ s, s = SPanic POverflow) (λ b' h', False
      ∧ b' = mkBytesMut (bm_ptr b) (zlen bs) (zlen bs + additional) (bm_data b) ∧ h' = h)) as Hw.
    { eapply reserve_in_place; [exact Hat|done|lia|done|]. apply wpm_lift.
      unfold usize_add, add_w, unsigned_op. by rewrite (proj2 (Z.ltb_ge _ _)), andb_false_r by lia. }
    unfold wpm in Hw. destruct (reserve b additional h) as [[b' h']|s]; [by destruct Hw|].
    by rewrite Hw.
Qed.

(** The handle of the last four bytes of [hello], alone with its [Shared]. *)
Definition tail_cells : list cell := Some <$> hello.
Definition tail_b : BytesMut := mkBytesMut (mkPtr (Some 1%positive) (8 + 1)) 4 4 (mkPtr (Some 2%positive) 16).
Definition tail_heap : heap :=
  mkHeap (<[2%positive := (16, OShared (mkShared (mkRVec (mkPtr (Some 1%positive) 8) 5 5) 0 1))]>
          (<[1%positive := (8, OBytes tail_cells)]> ∅)) 3.

Lemma tail_at_arc :
  at_arc tail_b (drop 1 hello) [] [] tail_heap ∅ 1 8 tail_cells 2 16 5 0 1 4 1.
Proof.
  unfold at_arc. split_and!; try done; [constructor|]. by apply (single_family 1 8 tail_cells 2 16 0 1 4 (drop 1 hello)).
Qed.

Lemma tail_heap_ok : heap_ok tail_heap.
Proof.
  assert (∀ k a o, objs tail_heap !! k = Some (a, o) →
    (k = 2%positive ∧ a = 16 ∧ obj_size o = 40 ∧ obj_align o = 8)
    ∨ (k = 1%positive ∧ a = 8 ∧ obj_size o = 5 ∧ obj_align o = 1)) as Hall.
  { intros k a o. simpl. rewrite !lookup_insert_Some, lookup_empty.
    intros [[<- [= <- <-]]|[_ [[<- [= <- <-]]|[_ ?]]]]; [by left|by right|done]. }
  split.
  - intros k [[a o] [[-> _]|[-> _]]%Hall]; done.
  - intros k a o [(_ & -> & Hs & Ha)|(_ & -> & Hs & Ha)]%Hall; unfold obj_ok; by rewrite Hs, Ha.
  - intros k k' a o a' o' Hne [(-> & -> & -> & _)|(-> & -> & -> & _)]%Hall
      [(-> & -> & -> & _)|(-> & -> & -> & _)]%Hall; try done; unfold disjoint_ranges; lia.
Qed.

Lemma reserve_wraps_witness :
  @reserve release_build bump tail_b (2 ^ 64 - 5) tail_heap
    = Ret (mkBytesMut (bm_ptr tail_b) 4 (2 ^ 64 - 1) (bm_data tail_b), tail_heap)
  ∧ @reserve debug_build bump tail_b (2 ^ 64 - 5) tail_heap = Panic POverflow.
Proof.
  destruct (@reserve_wraps bump _ _ _ _ _ _ _ _ _ _ _ _ _ _ (2 ^ 64 - 5) tail_at_arc tail_heap_ok)
    as (H1 & _ & H2); [unfold zlen; simpl; lia..|]. exact (conj H1 H2).
Defined.

(** What follows in a release build: a write outside the vector. *)
Example reserve_wraps_undefined :
  let _ : Build := release_build in let _ : Allocator := bump in
  (b ← from_slice hello;
   '(b, other) ← split_to b 1;
   bm_drop other;;
   b ← reserve b (2 ^ 64 - 5);
   extend_from_slice b hello) empty_heap = Stop SUndef.
Proof. reflexivity. Qed.

(** [Extend<u8>::extend] calls itself with the iterator it was given and
    never returns. *)
Theorem extend_never_returns `{Build} `{Allocator} fuel b lower items h r :
  bm_extend fuel b lower items h ≠ Ret r.
Proof.
  revert b h. induction fuel as [|fuel IH]; intros b h; simpl; [done|].
  unfold mbind, M_bind. destruct (reserve b lower h) as [[b' h']|s]; simpl; [|done]. apply IH.
Qed.
