(* ===== verification/BytesProps.v ===== *)
(** * The properties of [bytes.rs] *)

From S2P Require Import Prelude RustVec Mem Buf BufAdapters.
From S2P Require Import BytesMut Bytes World BytesMutSpec BytesMutGrow BytesMutOps BytesMutClient.
From S2P Require Import BytesSpec BytesConv.

(** ** States for the witnesses *)

Definition word : list byte := [Byte.x68; Byte.x65; Byte.x6c; Byte.x6c; Byte.x6f].

Lemma empty_live : live [] empty_heap.
Proof. apply sim_nil. Qed.

Definition the {A} (d : A) (m : M A) : A * heap :=
  match m empty_heap with Ret r => r | Stop _ => (d, empty_heap) end.

Definition no_mut : BytesMut := mkBytesMut null 0 0 null.

(** A buffer with all of its capacity in use, and one with room left. *)
Definition full_prog : M BytesMut := @from_slice debug_build bump word.
Definition roomy_prog : M BytesMut :=
  m ← @with_capacity debug_build bump 8; @extend_from_slice debug_build bump m word.

Lemma the_live {A} (d : A) (m : M A) (P : A → entry) :
  wpm m empty_heap bm_stop (λ a h, live [P a] h) → (if m empty_heap is Ret _ then true else false) = true →
  live [P (fst (the d m))] (snd (the d m)).
Proof. unfold wpm, the. by destruct (m empty_heap) as [[a h]|s]. Qed.

Definition full : BytesMut * heap := the no_mut full_prog.
Definition roomy : BytesMut * heap := the no_mut roomy_prog.

Lemma full_live : live [(HMut (fst full), word)] (snd full).
Proof.
  apply (the_live no_mut full_prog (λ m, (HMut m, word))); [|reflexivity].
  exact (@from_slice_ok debug_build bump bump_laws [] empty_heap word empty_live).
Qed.

Lemma roomy_live : live [(HMut (fst roomy), word)] (snd roomy).
Proof.
  apply (the_live no_mut roomy_prog (λ m, (HMut m, word))); [|reflexivity].
  unfold roomy_prog. apply wpm_bind.
  eapply wpm_mono; [apply (@with_capacity_ok debug_build bump bump_laws [] empty_heap 8 empty_live); lia|].
  intros m h [Hm _]. apply (@extend_from_slice_ok debug_build bump bump_laws m [] [] h word Hm).
  by vm_compute.
Qed.

(** ** What holds *)

(** [freeze] keeps the bytes where they are: the new handle reads the content
    of the old one, every other handle keeps its content, and dropping it leaves
    exactly the others. *)
Theorem freeze_spec `{Build} `{AllocatorLaws} m bs R h :
  live ((HMut m, bs) :: R) h →
  wpm (freeze m) h bm_stop (λ b h', live ((HBytes b, bs) :: R) h'
    ∧ (bs ≠ [] → by_ptr b = bm_ptr m) ∧ by_as_slice b h' = Ret (bs, h')
    ∧ wpm (by_drop b) h' bm_stop (λ _ h'', live R h'')).
Proof.
  intros Hlive. eapply wpm_mono; [by apply freeze_ok|]. intros b h' [Hl Hp].
  split_and!; [done|done|by eapply by_as_slice_ok|by eapply by_drop_ok].
Qed.

Lemma freeze_spec_witness :
  wpm (@freeze debug_build bump (fst roomy)) (snd roomy) bm_stop (λ b h', live [(HBytes b, word)] h'
    ∧ (word ≠ [] → by_ptr b = bm_ptr (fst roomy)) ∧ by_as_slice b h' = Ret (word, h')
    ∧ wpm (@by_drop debug_build b) h' bm_stop (λ _ h'', live [] h'')).
Proof. exact (@freeze_spec debug_build bump bump_laws _ _ _ _ roomy_live). Defined.

(** The two buffers, frozen. *)
Definition no_bytes : Bytes := by_new.
Definition boxed : Bytes * heap :=
  the no_bytes (m ← full_prog; @freeze debug_build bump m).
Definition shared : Bytes * heap :=
  the no_bytes (m ← roomy_prog; @freeze debug_build bump m).

Lemma frozen_live (prog : M BytesMut) :
  (∀ m h, prog empty_heap = Ret (m, h) → live [(HMut m, word)] h) →
  wpm (m ← prog; @freeze debug_build bump m) empty_heap bm_stop (λ b h, live [(HBytes b, word)] h)
  ∨ ∃ s, prog empty_heap = Stop s.
Proof.
  intros Hp. destruct (prog empty_heap) as [[m h]|s] eqn:E; [left|right; by exists s].
  apply wpm_bind. unfold wpm at 1. rewrite E. simpl.
  eapply wpm_mono; [apply (@freeze_ok debug_build bump bump_laws _ _ _ _ (Hp m h eq_refl))|].
  by intros b h' [? _].
Qed.

Lemma boxed_live : live [(HBytes (fst boxed), word)] (snd boxed).
Proof.
  apply (the_live no_bytes (m ← full_prog; freeze m) (λ b, (HBytes b, word))); [|reflexivity].
  destruct (frozen_live full_prog) as [?|[s Hs]]; [|done|by vm_compute in Hs].
  intros m h E. pose proof full_live as Hl. unfold full, the in Hl. by rewrite E in Hl.
Qed.

Lemma shared_live : live [(HBytes (fst shared), word)] (snd shared).
Proof.
  apply (the_live no_bytes (m ← roomy_prog; freeze m) (λ b, (HBytes b, word))); [|reflexivity].
  destruct (frozen_live roomy_prog) as [?|[s Hs]]; [|done|by vm_compute in Hs].
  intros m h E. pose proof roomy_live as Hl. unfold roomy, the in Hl. by rewrite E in Hl.
Qed.

Lemma boxed_kind : by_vtable (fst boxed) = PROMOTABLE_EVEN_VTABLE ∧ kind_of (by_data (fst boxed)) = KIND_VEC.
Proof. by vm_compute. Qed.
Lemma shared_kind : by_vtable (fst shared) = SHARED_VTABLE.
Proof. by vm_compute. Qed.

(** A clone reads the same bytes at the same address, and either handle can
    be dropped while the other one is used. *)
Theorem bytes_clone_spec `{Build} `{AllocatorLaws} b bs R h :
  live ((HBytes b, bs) :: R) h → clonable b →
  wpm (by_clone b) h bm_stop (λ '(b', c) h',
    live ((HBytes b', bs) :: (HBytes c, bs) :: R) h' ∧ by_ptr c = by_ptr b
    ∧ wpm (by_drop b') h' bm_stop (λ _ h2, by_as_slice c h2 = Ret (bs, h2)
        ∧ wpm (by_drop c) h2 bm_stop (λ _ h3, live R h3))
    ∧ wpm (by_drop c) h' bm_stop (λ _ h2, by_as_slice b' h2 = Ret (bs, h2)
        ∧ wpm (by_drop b') h2 bm_stop (λ _ h3, live R h3))).
Proof.
  intros Hlive Hc. eapply wpm_mono; [by apply by_clone_ok|]. intros [b' c] h' (Hl & _ & _ & Hp).
  assert (∀ x y, live ((HBytes x, bs) :: (HBytes y, bs) :: R) h' →
    wpm (by_drop x) h' bm_stop (λ _ h2, by_as_slice y h2 = Ret (bs, h2)
      ∧ wpm (by_drop y) h2 bm_stop (λ _ h3, live R h3))) as Hd.
  { intros x y Hxy. eapply wpm_mono; [by eapply by_drop_ok|]. intros [] h2 Hy.
    split; [by eapply by_as_slice_ok|by eapply by_drop_ok]. }
  split_and!; [done|done|by apply Hd|by apply Hd, live_swap].
Qed.

Lemma boxed_clonable : clonable (fst boxed).
Proof. by vm_compute. Qed.

Lemma bytes_clone_spec_witness :
  clonable (fst boxed)
  ∧ wpm (@by_clone debug_build bump (fst boxed)) (snd boxed) bm_stop (λ '(b', c) h',
      live [(HBytes b', word); (HBytes c, word)] h').
Proof.
  split; [exact boxed_clonable|].
  refine (wpm_mono _ _ _ _ _ (@bytes_clone_spec debug_build bump bump_laws _ _ _ _
    boxed_live boxed_clonable) _).
  by intros [b' c] h' [? _].
Defined.

(** [split_off], [split_to] and [truncate] cut the content at [n]; past the
    end the first two panic and the last does nothing. *)
Theorem bytes_split_spec `{Build} `{AllocatorLaws} b bs R h n :
  live ((HBytes b, bs) :: R) h → 0 ≤ n → (0 < n < zlen bs → clonable b) →
  if n <=? zlen bs then
    wpm (by_split_off b n) h bm_stop (λ '(b', o) h',
      live ((HBytes b', ztake n bs) :: (HBytes o, zdrop n bs) :: R) h')
    ∧ wpm (by_split_to b n) h bm_stop (λ '(b', o) h',
      live ((HBytes b', zdrop n bs) :: (HBytes o, ztake n bs) :: R) h')
    ∧ wpm (by_truncate b n) h bm_stop (λ b' h', live ((HBytes b', ztake n bs) :: R) h')
  else
    by_split_off b n h = Stop (SPanic PAssert) ∧ by_split_to b n h = Stop (SPanic PAssert)
    ∧ by_truncate b n h = Ret (b, h).
Proof.
  intros Hlive Hn Hc. destruct (bytes_len _ _ _ _ Hlive) as [El _]. pose proof (zlen_nonneg bs).
  destruct (Z.leb_spec n (zlen bs)).
  - split_and!; [by apply by_split_off_ok|by apply by_split_to_ok|].
    apply by_truncate_ok; [done|done|]. intros ?. left. auto.
  - unfold by_split_off, by_split_to, by_truncate. rewrite El.
    rewrite (proj2 (Z.eqb_neq n (zlen bs))), (proj2 (Z.eqb_neq n 0)), (proj2 (Z.ltb_ge n _)) by lia.
    unfold mbind, M_bind, lift. by rewrite (proj2 (Z.leb_gt n _)) by lia.
Qed.

Lemma bytes_split_spec_witness :
  wpm (@by_split_off debug_build bump (fst boxed) 2) (snd boxed) bm_stop (λ '(b', o) h',
    live [(HBytes b', [Byte.x68; Byte.x65]); (HBytes o, [Byte.x6c; Byte.x6c; Byte.x6f])] h')
  ∧ @by_split_off debug_build bump (fst boxed) 6 (snd boxed) = Stop (SPanic PAssert).
Proof.
  assert (∀ n, 0 < n < zlen word → clonable (fst boxed)) as Hc by (intros; exact boxed_clonable).
  split.
  - exact (proj1 (@bytes_split_spec debug_build bump bump_laws _ _ _ _ 2 boxed_live
      ltac:(lia) (Hc 2))).
  - exact (proj1 (@bytes_split_spec debug_build bump bump_laws _ _ _ _ 6 boxed_live
      ltac:(lia) (Hc 6))).
Defined.

(** [slice(i..n)] is a handle to the bytes from [i] to [n] and leaves the
    original as it is; an inverted range or one past the end panics. *)
Theorem bytes_slice_spec `{Build} `{AllocatorLaws} b bs R h i n :
  live ((HBytes b, bs) :: R) h → 0 ≤ i → 0 ≤ n → (i < n → clonable b) →
  if (i <=? n) && (n <=? zlen bs) then
    wpm (by_slice b (Included i) (Excluded n)) h bm_stop (λ '(b', s) h',
      live ((HBytes b', bs) :: (HBytes s, ztake (n - i) (zdrop i bs)) :: R) h')
  else by_slice b (Included i) (Excluded n) h = Stop (SPanic PAssert).
Proof.
  intros Hlive Hi Hn Hc. destruct (bytes_len _ _ _ _ Hlive) as [El _].
  destruct (Z.leb_spec i n); simpl.
  - destruct (Z.leb_spec n (zlen bs)); [by apply by_slice_ok|].
    unfold by_slice, range_begin, range_end, mbind, M_bind, lift. simpl. rewrite El.
    rewrite (proj2 (Z.leb_le i n)) by lia. simpl. by rewrite (proj2 (Z.leb_gt n _)) by lia.
  - unfold by_slice, range_begin, range_end, mbind, M_bind, lift. simpl.
    by rewrite (proj2 (Z.leb_gt i n)) by lia.
Qed.

Lemma bytes_slice_spec_witness :
  wpm (@by_slice debug_build bump (fst boxed) (Included 1) (Excluded 4)) (snd boxed) bm_stop (λ '(b', s) h',
    live [(HBytes b', word); (HBytes s, [Byte.x65; Byte.x6c; Byte.x6c])] h')
  ∧ @by_slice debug_build bump (fst boxed) (Included 2) (Excluded 9) (snd boxed) = Stop (SPanic PAssert).
Proof.
  split.
  - exact (@bytes_slice_spec debug_build bump bump_laws _ _ _ _ 1 4 boxed_live
      ltac:(lia) ltac:(lia) (λ _, boxed_clonable)).
  - exact (@bytes_slice_spec debug_build bump bump_laws _ _ _ _ 2 9 boxed_live
      ltac:(lia) ltac:(lia) (λ _, boxed_clonable)).
Defined.

(** C20: turning a [Bytes] into a [BytesMut] or a [Vec] keeps its content and all
    other handles, whether the allocation is taken over or copied, for every
    table but those of boxed slices in a debug build, counted boxed slices (to
    [BytesMut]) and owners (to [Vec]); [try_into_mut] gives the handle back
    unchanged where it is not alone. *)
Theorem bytes_conversions `{Build} `{AllocatorLaws} b bs R h :
  live ((HBytes b, bs) :: R) h →
  (vec_convertible b → wpm (by_into_vec b) h bm_stop (λ v h', vec_live v bs R h'))
  ∧ (mut_convertible b → wpm (into_mut b) h bm_stop (λ m h', live ((HMut m, bs) :: R) h')
     ∧ wpm (try_into_mut b) h bm_stop (λ r h',
         match r with Ok m => live ((HMut m, bs) :: R) h' | Err b' => b' = b ∧ h' = h end)).
Proof.
  intros Hlive. split; [by apply by_into_vec_ok|]. intros Hc.
  split; [by apply into_mut_ok|by apply try_into_mut_ok].
Qed.

Lemma bytes_conversions_witness :
  wpm (@by_into_vec debug_build bump (fst shared)) (snd shared) bm_stop (λ v h', vec_live v word [] h')
  ∧ wpm (@into_mut debug_build bump (fst shared)) (snd shared) bm_stop (λ m h', live [(HMut m, word)] h').
Proof.
  destruct (@bytes_conversions debug_build bump bump_laws _ _ _ _ shared_live) as [Hv Hm].
  assert (¬ promotable (fst shared)) as Hp by (vm_compute; by intros [|]).
  split; [apply Hv|apply Hm].
  - split; [by rewrite shared_kind|]. by intros ?%Hp.
  - by intros ?%Hp.
Defined.

(** ** What does not hold *)

Lemma wpm_undef {A} (m : M A) h : wpm m h (λ s, s = SUndef) (λ _ _, False) → m h = Stop SUndef.
Proof. unfold wpm. destruct (m h) as [[]|s]; simpl; [done|]. by intros ->. Qed.

(** C25: [clone] of the only handle of a [Shared] does not count the new handle:
    when the clone is dropped the bytes are freed, and the handle that is left
    reads freed memory. *)
Theorem shared_clone_use_after_free `{Build} `{AllocatorLaws} b bs R h :
  live ((HBytes b, bs) :: R) h → by_vtable b = SHARED_VTABLE → bs ≠ [] →
  by_is_unique b h = Ret (true, h) →
  ('(b', c) ← by_clone b; by_drop c;; by_as_slice b') h = Stop SUndef.
Proof.
  intros [Hok [[[He _] _]
    |[(hs & blk & base & cells & off & Hat)
     |(c & S & R' & hs & blk & base & cells & sid & sa & off & HR & Hat)]]]%live_bytes_inv Hvt Hne Hu.
  - done.
  - exfalso. destruct Hat as (_ & _ & _ & _ & _ & _ & _ & Hd & _). unfold box_data in Hd.
    rewrite Hvt, !decide_False in Hd by (by intros [? _]). done.
  - pose proof (at_count_lookup _ _ _ _ _ _ _ _ _ _ _ _ _ Hat) as [Hk Hsk].
    destruct Hat as (Hh & HR' & Hb & Hs & Hm & Ep & El & Ed & Hc & Hf & _).
    pose proof (fam_ids _ _ _ _ _ _ _ Hf). pose proof (fam_ok _ _ _ _ _ _ _ Hf) as Hpos.
    destruct c as [vlen repr| |vlen]; simpl in Hc; [by rewrite Hc in Hvt| |by rewrite Hc in Hvt].
    assert (zlen S + 1 = 1) as Hone.
    { assert (wpm (by_is_unique b) h bm_stop (λ u _, u = (zlen S + 1 =? 1))) as Hq.
      { unfold by_is_unique. rewrite Hvt, Ed. apply wpm_bind. by eapply wpm_get_bshared. }
      unfold wpm in Hq. rewrite Hu in Hq. simpl in Hq. lia. }
    assert (zlen bs ≠ 0) as Hlen by (by intros ?%zlen_nil_inv).
    apply wpm_undef. destruct b as [p len data vt]. simpl in *. subst p len data vt. rewrite Hone in *.
    apply wpm_bind. simpl. apply wpm_bind. unfold shared_clone, shallow_clone_arc.
    apply wpm_bind. eapply wpm_get_bshared; [exact Hsk|]. simpl. apply wpm_ret, wpm_ret.
    apply wpm_bind. simpl. unfold shared_drop, by_release_shared.
    apply wpm_bind. eapply wpm_get_bshared; [exact Hsk|].
    apply wpm_bind. eapply wpm_set_bshared; [exact Hsk|]. simpl.
    eapply (wpm_drop_bshared _ sid sa blk base cells 0); [done| |done|apply lookup_insert_eq|].
    { simpl. by rewrite lookup_insert_ne. }
    unfold by_as_slice, load_bytes, load. simpl. rewrite (proj2 (Z.eqb_neq _ _)) by done.
    apply wpm_bind, wpm_bind. unfold wpm, lookup_obj. simpl.
    by rewrite lookup_delete_ne, lookup_delete_eq.
Qed.

Lemma shared_clone_use_after_free_witness :
  by_is_unique (fst shared) (snd shared) = Ret (true, snd shared)
  ∧ ('(b', c) ← @by_clone debug_build bump (fst shared); @by_drop debug_build c;; by_as_slice b')
      (snd shared) = Stop SUndef.
Proof.
  assert (by_is_unique (fst shared) (snd shared) = Ret (true, snd shared)) as Hu by (by vm_compute).
  split; [exact Hu|].
  exact (@shared_clone_use_after_free debug_build bump bump_laws _ _ _ _ shared_live shared_kind
    ltac:(discriminate) Hu).
Defined.

(** A debug build cannot turn a boxed slice into a vector or a [BytesMut]. *)
Theorem boxed_conversions_panic `{AllocatorLaws} b h :
  promotable b → kind_of (by_data b) = KIND_VEC → 1 < addr (by_data b) < 2 ^ 64 →
  @by_into_vec debug_build _ b h = Stop (SPanic PDebugAssert)
  ∧ @into_mut debug_build _ b h = Stop (SPanic PDebugAssert).
Proof.
  intros Hp Hkind Ha. destruct b as [p len data vt]. simpl in *. split.
  - destruct Hp as [E|E]; simpl in E; subst vt; simpl;
      unfold promotable_even_to_vec, promotable_odd_to_vec, promotable_to_vec; by rewrite Hkind.
  - destruct Hp as [E|E]; simpl in E; subst vt; simpl;
      unfold promotable_even_to_mut, promotable_odd_to_mut, promotable_to_mut, mbind, M_bind, lift;
      unfold KIND_MASK, KIND_ARC, KIND_VEC; rewrite Z.mul_1_r, unsigned_op_in by lia; simpl;
      by rewrite (proj2 (Z.eqb_neq _ 0)), (proj2 (Z.eqb_neq _ 1)) by lia.
Qed.

(** [slice_ref] refuses every part of the slice that does not start where the
    slice starts. *)
Theorem slice_ref_inner_panics `{Build} `{Allocator} b subset_ptr subset_len h :
  0 < subset_len → addr (by_ptr b) < subset_ptr →
  slice_ref b subset_ptr subset_len h = Stop (SPanic PAssert).
Proof.
  intros Hl Hp. unfold slice_ref, mbind, M_bind, lift.
  rewrite (proj2 (Z.eqb_neq subset_len 0)) by lia. by rewrite (proj2 (Z.leb_gt subset_ptr _)) by lia.
Qed.

(** Turning the only handle of an owner into a vector keeps the owner allocated
    for good. *)
Theorem owned_to_vec_leaks `{Build} `{AllocatorLaws} b bs h :
  live [(HBytes b, bs)] h → by_vtable b = OWNED_VTABLE →
  wpm (v ← by_into_vec b; rv_drop v) h bm_stop (λ _ h', objs h' = objs h ∧ objs h' ≠ ∅).
Proof.
  intros Hlive Hvt. assert (objs h ≠ ∅) as Hne.
  { apply live_bytes_inv in Hlive as [_ [[[_ (Hvt' & _)] _]|[(hs & blk & base & cells & off & Hat)
      |(c & S & R' & hs & blk & base & cells & sid & sa & off & HR & Hat)]]].
    - by rewrite Hvt in Hvt'.
    - destruct Hat as (-> & _). apply insert_non_empty.
    - destruct Hat as (-> & _). apply insert_non_empty. }
  pose proof Hlive as [Hok _]. destruct b as [p len data vt]. simpl in Hvt. subst vt.
  apply wpm_bind. simpl. unfold owned_to_vec. apply wpm_bind.
  eapply (wpm_load_bytes_live (mkBytes p len data OWNED_VTABLE)); [exact Hlive|].
  apply (wpm_rv_of_bytes _ bm_stop_abort bm_stop_capacity); [done|]. intros a o Hl _ Hok'.
  rewrite <-(zlen_Some bs) at 1. eapply wpm_rv_drop; [simpl; apply lookup_insert_eq|]. simpl.
  by rewrite delete_insert_id by (by apply heap_ok_fresh).
Qed.
