(* ===== verification/BytesCmp.v ===== *)
(** * The comparisons of [bytes.rs] and [bytes_mut.rs]

    [PartialEq] and [PartialOrd] between the handles and slices, strings, vectors
    and references to them, one instance per [impl]. *)

From S2P Require Import Prelude Mem BytesMut Bytes World BytesMutSpec BytesMutOps BytesMutClient.
From S2P Require Import BytesSpec BytesProps.

(** ** The types compared *)

(** The unsized and owned types of the standard library, by their bytes. *)
Record slice := mkSlice { slice_bytes : list byte }.
Record str := mkStr { str_bytes : list byte }.
Record vec8 := mkVec8 { vec_all : list byte }.
Record string8 := mkString8 { string_bytes : list byte }.
Record ref (A : Type) := mkRef { deref : A }.
Arguments mkRef {A} _.
Arguments deref {A} _.

(** [v[..]] *)
Definition vec_range (v : vec8) : slice := mkSlice (vec_all v).
Definition string_range (s : string8) : str := mkStr (string_bytes s).

(** *** [==] and [cmp] of [[u8]] *)

Definition byte_cmp (x y : byte) : comparison := (byte.unsigned x ?= byte.unsigned y).

Fixpoint slice_cmp (xs ys : list byte) : comparison :=
  match xs, ys with
  | [], [] => Eq
  | [], _ :: _ => Lt
  | _ :: _, [] => Gt
  | x :: xs, y :: ys =>
      match byte_cmp x y with
      | Eq => slice_cmp xs ys
      | c => c
      end
  end.

Fixpoint slice_eq (xs ys : list byte) : bool :=
  match xs, ys with
  | [], [] => true
  | x :: xs, y :: ys => (byte.unsigned x =? byte.unsigned y) && slice_eq xs ys
  | _, _ => false
  end.

(** ** The traits *)

Class PartialEq (A B : Type) := peq : A → B → M bool.
Class PartialOrd (A B : Type) := pcmp : A → B → M (option comparison).

Definition eq_slices (x y : M (list byte)) : M bool := a ← x; b ← y; mret (slice_eq a b).
Definition cmp_slices (x y : M (list byte)) : M (option comparison) :=
  a ← x; b ← y; mret (Some (slice_cmp a b)).

(** ** [impl] blocks of [bytes.rs] *)

#[global] Instance by_eq : PartialEq Bytes Bytes := λ self other,
  eq_slices (by_as_slice self) (by_as_slice other).
#[global] Instance by_partial_cmp : PartialOrd Bytes Bytes := λ self other,
  cmp_slices (by_as_slice self) (by_as_slice other).
(** [Ord::cmp] *)
Definition by_cmp (self other : Bytes) : M comparison :=
  a ← by_as_slice self; b ← by_as_slice other; mret (slice_cmp a b).

#[global] Instance by_eq_slice : PartialEq Bytes slice := λ self other,
  eq_slices (by_as_slice self) (mret (slice_bytes other)).
#[global] Instance by_cmp_slice : PartialOrd Bytes slice := λ self other,
  cmp_slices (by_as_slice self) (mret (slice_bytes other)).
#[global] Instance slice_eq_by : PartialEq slice Bytes := λ self other, peq other self.
#[global] Instance slice_cmp_by : PartialOrd slice Bytes := λ self other,
  cmp_slices (mret (slice_bytes self)) (by_as_slice other).

#[global] Instance by_eq_str : PartialEq Bytes str := λ self other,
  eq_slices (by_as_slice self) (mret (str_bytes other)).
#[global] Instance by_cmp_str : PartialOrd Bytes str := λ self other,
  cmp_slices (by_as_slice self) (mret (str_bytes other)).
#[global] Instance str_eq_by : PartialEq str Bytes := λ self other, peq other self.
#[global] Instance str_cmp_by : PartialOrd str Bytes := λ self other,
  cmp_slices (mret (str_bytes self)) (by_as_slice other).

#[global] Instance by_eq_vec : PartialEq Bytes vec8 := λ self other, peq self (vec_range other).
#[global] Instance by_cmp_vec : PartialOrd Bytes vec8 := λ self other,
  cmp_slices (by_as_slice self) (mret (slice_bytes (vec_range other))).
#[global] Instance vec_eq_by : PartialEq vec8 Bytes := λ self other, peq other self.
#[global] Instance vec_cmp_by : PartialOrd vec8 Bytes := λ self other,
  cmp_slices (mret (vec_all self)) (by_as_slice other).

#[global] Instance by_eq_string : PartialEq Bytes string8 := λ self other, peq self (string_range other).
#[global] Instance by_cmp_string : PartialOrd Bytes string8 := λ self other,
  cmp_slices (by_as_slice self) (mret (string_bytes other)).
#[global] Instance string_eq_by : PartialEq string8 Bytes := λ self other, peq other self.
#[global] Instance string_cmp_by : PartialOrd string8 Bytes := λ self other,
  cmp_slices (mret (string_bytes self)) (by_as_slice other).

(** References on the right, generic, and on the left. *)
#[global] Instance by_eq_ref {T} `{PartialEq Bytes T} : PartialEq Bytes (ref T) := λ self other,
  peq self (deref other).
#[global] Instance by_cmp_ref {T} `{PartialOrd Bytes T} : PartialOrd Bytes (ref T) := λ self other,
  pcmp self (deref other).
#[global] Instance ref_slice_eq_by : PartialEq (ref slice) Bytes := λ self other, peq other self.
#[global] Instance ref_slice_cmp_by : PartialOrd (ref slice) Bytes := λ self other,
  cmp_slices (mret (slice_bytes (deref self))) (by_as_slice other).
#[global] Instance ref_str_eq_by : PartialEq (ref str) Bytes := λ self other, peq other self.
#[global] Instance ref_str_cmp_by : PartialOrd (ref str) Bytes := λ self other,
  cmp_slices (mret (str_bytes (deref self))) (by_as_slice other).

(** ** [impl] blocks of [bytes_mut.rs] *)

#[global] Instance bm_eq : PartialEq BytesMut BytesMut := λ self other,
  eq_slices (as_slice self) (as_slice other).
#[global] Instance bm_partial_cmp : PartialOrd BytesMut BytesMut := λ self other,
  cmp_slices (as_slice self) (as_slice other).
Definition bm_cmp (self other : BytesMut) : M comparison :=
  a ← as_slice self; b ← as_slice other; mret (slice_cmp a b).

#[global] Instance bm_eq_slice : PartialEq BytesMut slice := λ self other,
  eq_slices (as_slice self) (mret (slice_bytes other)).
#[global] Instance bm_cmp_slice : PartialOrd BytesMut slice := λ self other,
  cmp_slices (as_slice self) (mret (slice_bytes other)).
#[global] Instance slice_eq_bm : PartialEq slice BytesMut := λ self other, peq other self.
#[global] Instance slice_cmp_bm : PartialOrd slice BytesMut := λ self other,
  cmp_slices (mret (slice_bytes self)) (as_slice other).

#[global] Instance bm_eq_str : PartialEq BytesMut str := λ self other,
  eq_slices (as_slice self) (mret (str_bytes other)).
#[global] Instance bm_cmp_str : PartialOrd BytesMut str := λ self other,
  cmp_slices (as_slice self) (mret (str_bytes other)).
#[global] Instance str_eq_bm : PartialEq str BytesMut := λ self other, peq other self.
#[global] Instance str_cmp_bm : PartialOrd str BytesMut := λ self other,
  cmp_slices (mret (str_bytes self)) (as_slice other).

#[global] Instance bm_eq_vec : PartialEq BytesMut vec8 := λ self other, peq self (vec_range other).
#[global] Instance bm_cmp_vec : PartialOrd BytesMut vec8 := λ self other,
  cmp_slices (as_slice self) (mret (slice_bytes (vec_range other))).
#[global] Instance vec_eq_bm : PartialEq vec8 BytesMut := λ self other, peq other self.
(** The operands are swapped and the result is not reversed. *)
#[global] Instance vec_cmp_bm : PartialOrd vec8 BytesMut := λ self other, pcmp other self.

#[global] Instance bm_eq_string : PartialEq BytesMut string8 := λ self other, peq self (string_range other).
#[global] Instance bm_cmp_string : PartialOrd BytesMut string8 := λ self other,
  cmp_slices (as_slice self) (mret (string_bytes other)).
#[global] Instance string_eq_bm : PartialEq string8 BytesMut := λ self other, peq other self.
#[global] Instance string_cmp_bm : PartialOrd string8 BytesMut := λ self other,
  cmp_slices (mret (string_bytes self)) (as_slice other).

#[global] Instance bm_eq_ref {T} `{PartialEq BytesMut T} : PartialEq BytesMut (ref T) := λ self other,
  peq self (deref other).
#[global] Instance bm_cmp_ref {T} `{PartialOrd BytesMut T} : PartialOrd BytesMut (ref T) := λ self other,
  pcmp self (deref other).
#[global] Instance ref_slice_eq_bm : PartialEq (ref slice) BytesMut := λ self other, peq other self.
#[global] Instance ref_slice_cmp_bm : PartialOrd (ref slice) BytesMut := λ self other,
  cmp_slices (mret (slice_bytes (deref self))) (as_slice other).
#[global] Instance ref_str_eq_bm : PartialEq (ref str) BytesMut := λ self other, peq other self.
(** Swapped, as for vectors. *)
#[global] Instance ref_str_cmp_bm : PartialOrd (ref str) BytesMut := λ self other,
  pcmp other self.

#[global] Instance by_eq_bm : PartialEq Bytes BytesMut := λ self other,
  eq_slices (as_slice other) (by_as_slice self).
#[global] Instance bm_eq_by : PartialEq BytesMut Bytes := λ self other,
  eq_slices (by_as_slice other) (as_slice self).

(** ** The order of byte strings *)

Lemma byte_unsigned_inj x y : byte.unsigned x = byte.unsigned y → x = y.
Proof. intros E. by rewrite <-(byte.of_Z_unsigned x), E, byte.of_Z_unsigned. Qed.

Lemma slice_eq_true xs ys : slice_eq xs ys = bool_decide (xs = ys).
Proof.
  revert ys. induction xs as [|x xs IH]; intros [|y ys]; try done. simpl. rewrite IH.
  destruct (Z.eqb_spec (byte.unsigned x) (byte.unsigned y)) as [->%byte_unsigned_inj|Hne]; simpl.
  - apply bool_decide_ext. split; [by intros ->|by intros [=]].
  - symmetry. apply bool_decide_eq_false. by intros [= -> ->].
Qed.

Lemma slice_cmp_eq xs ys : slice_cmp xs ys = Eq ↔ xs = ys.
Proof.
  revert ys. induction xs as [|x xs IH]; intros [|y ys]; try done. simpl. unfold byte_cmp.
  destruct (Z.compare_spec (byte.unsigned x) (byte.unsigned y)) as [->%byte_unsigned_inj|Hl|Hl].
  - rewrite IH. split; [by intros ->|by intros [=]].
  - split; [done|]. intros [= -> ->]. lia.
  - split; [done|]. intros [= -> ->]. lia.
Qed.

Lemma slice_cmp_antisym xs ys : slice_cmp ys xs = CompOpp (slice_cmp xs ys).
Proof.
  revert ys. induction xs as [|x xs IH]; intros [|y ys]; try done. simpl. unfold byte_cmp.
  rewrite (Z.compare_antisym (byte.unsigned x)), IH. by destruct (byte.unsigned x ?= byte.unsigned y).
Qed.

Lemma slice_cmp_trans xs ys zs : slice_cmp xs ys = Lt → slice_cmp ys zs = Lt → slice_cmp xs zs = Lt.
Proof.
  revert ys zs. induction xs as [|x xs IH]; intros [|y ys] [|z zs]; try done. simpl. unfold byte_cmp.
  destruct (Z.compare_spec (byte.unsigned x) (byte.unsigned y));
    destruct (Z.compare_spec (byte.unsigned y) (byte.unsigned z));
    destruct (Z.compare_spec (byte.unsigned x) (byte.unsigned z)); try done; try lia. apply IH.
Qed.

(** ** Comparisons go by content *)

Definition eq_agrees {A B} `{PartialEq A B} (h : heap) (x : A) (y : B) (xs ys : list byte) : Prop :=
  peq x y h = Ret (bool_decide (xs = ys), h).
Definition cmp_agrees {A B} `{PartialOrd A B} (h : heap) (x : A) (y : B) (xs ys : list byte) : Prop :=
  pcmp x y h = Ret (Some (slice_cmp xs ys), h).

(** [==] both ways. *)
Definition eq_both {A B} `{PartialEq A B, PartialEq B A} (h : heap) (x : A) (y : B)
    (xs ys : list byte) : Prop :=
  eq_agrees h x y xs ys ∧ eq_agrees h y x ys xs.
(** [pcmp] both ways. *)
Definition cmp_both {A B} `{PartialOrd A B, PartialOrd B A} (h : heap) (x : A) (y : B)
    (xs ys : list byte) : Prop :=
  cmp_agrees h x y xs ys ∧ cmp_agrees h y x ys xs.

Lemma bytes_reads L h b bs : live L h → (HBytes b, bs) ∈ L → by_as_slice b h = Ret (bs, h).
Proof. intros Hlive [R HR]%elem_of_Permutation. rewrite HR in Hlive. by eapply by_as_slice_ok. Qed.

Lemma bytes_mut_reads L h m ms : live L h → (HMut m, ms) ∈ L → as_slice m h = Ret (ms, h).
Proof.
  intros Hlive [R HR]%elem_of_Permutation. rewrite HR in Hlive. pose proof (as_slice_ok m ms R h (λ _, False) Hlive) as Hr. unfold wpm in Hr.
  destruct (as_slice m h) as [[r h']|]; [by destruct Hr as [-> ->]|done].
Qed.

(** [==] and [pcmp] between a [Bytes], a [BytesMut] and slices,
    strings, vectors and references compare the contents, by equality and
    lexicographically; all impls but those of [PartialOrd<BytesMut>] for [Vec<u8>]
    and [&str]. *)
Theorem comparisons_by_content b bs b2 bs2 m ms m2 ms2 R h (xs : list byte) :
  live ((HBytes b, bs) :: (HBytes b2, bs2) :: (HMut m, ms) :: (HMut m2, ms2) :: R) h →
  (eq_both h b b2 bs bs2 ∧ cmp_both h b b2 bs bs2 ∧ by_cmp b b2 h = Ret (slice_cmp bs bs2, h)
   ∧ eq_both h m m2 ms ms2 ∧ cmp_both h m m2 ms ms2 ∧ bm_cmp m m2 h = Ret (slice_cmp ms ms2, h)
   ∧ eq_both h b m bs ms)
  ∧ (eq_both h b (mkSlice xs) bs xs ∧ cmp_both h b (mkSlice xs) bs xs
     ∧ eq_both h b (mkStr xs) bs xs ∧ cmp_both h b (mkStr xs) bs xs
     ∧ eq_both h b (mkVec8 xs) bs xs ∧ cmp_both h b (mkVec8 xs) bs xs
     ∧ eq_both h b (mkString8 xs) bs xs ∧ cmp_both h b (mkString8 xs) bs xs
     ∧ eq_both h b (mkRef (mkSlice xs)) bs xs ∧ cmp_both h b (mkRef (mkSlice xs)) bs xs
     ∧ eq_both h b (mkRef (mkStr xs)) bs xs ∧ cmp_both h b (mkRef (mkStr xs)) bs xs)
  ∧ (eq_both h m (mkSlice xs) ms xs ∧ cmp_both h m (mkSlice xs) ms xs
     ∧ eq_both h m (mkStr xs) ms xs ∧ cmp_both h m (mkStr xs) ms xs
     ∧ eq_both h m (mkVec8 xs) ms xs ∧ cmp_agrees h m (mkVec8 xs) ms xs
     ∧ eq_both h m (mkString8 xs) ms xs ∧ cmp_both h m (mkString8 xs) ms xs
     ∧ eq_both h m (mkRef (mkSlice xs)) ms xs ∧ cmp_both h m (mkRef (mkSlice xs)) ms xs
     ∧ eq_both h m (mkRef (mkStr xs)) ms xs ∧ cmp_agrees h m (mkRef (mkStr xs)) ms xs).
Proof.
  intros Hlive.
  assert (by_as_slice b h = Ret (bs, h) ∧ by_as_slice b2 h = Ret (bs2, h)
    ∧ as_slice m h = Ret (ms, h) ∧ as_slice m2 h = Ret (ms2, h)) as (Hb & Hb2 & Hm & Hm2).
  { split_and!; (eapply bytes_reads || eapply bytes_mut_reads); try exact Hlive; set_solver. }
  assert (∀ (x y : M (list byte)) l r, x h = Ret (l, h) → y h = Ret (r, h) →
    eq_slices x y h = Ret (bool_decide (l = r), h)) as Heq.
  { intros x y l r Hx Hy. unfold eq_slices, mbind, M_bind. rewrite Hx. simpl. rewrite Hy. simpl.
    by rewrite slice_eq_true. }
  assert (∀ (x y : M (list byte)) l r, x h = Ret (l, h) → y h = Ret (r, h) →
    eq_slices x y h = Ret (bool_decide (r = l), h)) as Heq'.
  { intros x y l r Hx Hy. rewrite (Heq x y l r Hx Hy). do 2 f_equal. by apply bool_decide_ext. }
  assert (∀ (x y : M (list byte)) l r, x h = Ret (l, h) → y h = Ret (r, h) →
    cmp_slices x y h = Ret (Some (slice_cmp l r), h)) as Hcmp.
  { intros x y l r Hx Hy. unfold cmp_slices, mbind, M_bind. rewrite Hx. simpl. by rewrite Hy. }
  repeat split; try first [by apply Heq|by apply Heq'|by apply Hcmp].
  - unfold by_cmp, mbind, M_bind. rewrite Hb. simpl. by rewrite Hb2.
  - unfold bm_cmp, mbind, M_bind. rewrite Hm. simpl. by rewrite Hm2.
Qed.

(** Four handles in one heap. *)
Definition four_prog : M (Bytes * Bytes * BytesMut * BytesMut) :=
  m2 ← @from_slice debug_build bump [Byte.x61];
  m ← @from_slice debug_build bump word;
  b2 ← @copy_from_slice debug_build bump [];
  b ← @copy_from_slice debug_build bump word;
  mret (b, b2, m, m2).

Definition four : (Bytes * Bytes * BytesMut * BytesMut) * heap :=
  the (no_bytes, no_bytes, no_mut, no_mut) four_prog.

Lemma four_live :
  let '(b, b2, m, m2, h) := four in
  live [(HBytes b, word); (HBytes b2, []); (HMut m, word); (HMut m2, [Byte.x61])] h.
Proof.
  assert (wpm four_prog empty_heap bm_stop (λ '(b, b2, m, m2) h,
    live [(HBytes b, word); (HBytes b2, []); (HMut m, word); (HMut m2, [Byte.x61])] h)) as Hp.
  { unfold four_prog. apply wpm_bind.
    eapply wpm_mono; [exact (@from_slice_ok debug_build bump bump_laws _ _ [Byte.x61] empty_live)|].
    intros m2 h2 Hl2. apply wpm_bind.
    eapply wpm_mono; [exact (@from_slice_ok debug_build bump bump_laws _ _ word Hl2)|].
    intros m h3 Hl3. apply wpm_bind.
    eapply wpm_mono; [exact (@copy_from_slice_ok debug_build bump bump_laws _ _ [] Hl3)|].
    intros b2 h4 Hl4. apply wpm_bind.
    eapply wpm_mono; [exact (@copy_from_slice_ok debug_build bump bump_laws _ _ word Hl4)|].
    intros b h5 Hl5. by apply wpm_ret. }
  unfold four, the, wpm in *.
  assert ((if four_prog empty_heap is Ret _ then true else false) = true) as Hr by by vm_compute.
  destruct (four_prog empty_heap) as [[[[[b b2] m] m2] h]|]; [exact Hp|done].
Qed.

Lemma comparisons_by_content_witness :
  let '(b, b2, m, m2, h) := four in
  eq_both h b m word word ∧ cmp_both h m (mkSlice [Byte.x69]) word [Byte.x69].
Proof.
  pose proof four_live as Hl. destruct four as [[[[b b2] m] m2] h].
  destruct (comparisons_by_content _ _ _ _ _ _ _ _ _ _ [Byte.x69] Hl) as (Hx & _ & Hy).
  split; [apply Hx|apply Hy].
Defined.

(** A vector or a [&str] less than the content of a [BytesMut] compares as
    greater, and the other way round. *)
Theorem vec_partial_cmp_reversed m ms R h (xs : list byte) :
  live ((HMut m, ms) :: R) h →
  pcmp (mkVec8 xs) m h = Ret (Some (CompOpp (slice_cmp xs ms)), h)
  ∧ pcmp (mkRef (mkStr xs)) m h = Ret (Some (CompOpp (slice_cmp xs ms)), h).
Proof.
  intros Hlive. assert (as_slice m h = Ret (ms, h)) as Hm.
  { eapply bytes_mut_reads; [exact Hlive|]. set_solver. }
  rewrite <-slice_cmp_antisym.
  unfold pcmp, vec_cmp_bm, ref_str_cmp_bm, pcmp, bm_cmp_ref, bm_cmp_vec, pcmp, bm_cmp_str.
  unfold cmp_slices, mbind, M_bind. rewrite Hm. done.
Qed.
