(* ===== verification/RefCount.v ===== *)
(** * [bytes_mut.rs]: the reference count of [Shared] between threads

    [increment_shared], [release_shared] and [is_unique] as programs over the atomic
    [ref_count], with the memory orders the source gives them, and a machine in which
    any number of threads run them on one [Shared].

    The machine has the release/acquire memory of Rust: the count is the list of the
    values it had ([msgs]), each with the view that an acquiring reader gets; a load
    reads any value that is not older than what its thread has seen, and a
    read-modify-write reads the last one and continues its release sequence.  A view
    is the set of accesses to the buffer that happen before, and the newest value of the
    count that is known.  Every access to the buffer is recorded with the accesses
    that happen before it ([accs]), so that a data race is a property of the state.

    Threads get handles the way safe Rust gives them: a handle can be lent to other
    threads (shared references), returned, and sent (lent, and returned by its owner);
    what needs [&mut] or the value needs that no other thread holds the handle.
    [run_sequential] says that in one thread the programs are the operations of
    [BytesMut]. *)

From S2P Require Import Prelude Mem BytesMut.

(** ** The programs *)

Inductive order := Relaxed | Release | Acquire.

(** Accesses to the [Shared] behind a pointer, with what follows them. *)
Inductive prog (A : Type) : Type :=
| PRet (a : A)
| FetchAdd (n : Z) (o : order) (k : Z → prog A)
| FetchSub (n : Z) (o : order) (k : Z → prog A)
| Load (o : order) (k : Z → prog A)
| DropBox (k : prog A)
| PAbort.
Arguments PRet {A}.
Arguments FetchAdd {A}.
Arguments FetchSub {A}.
Arguments Load {A}.
Arguments DropBox {A}.
Arguments PAbort {A}.

Definition increment_shared : prog () :=
  FetchAdd 1 Relaxed (λ old_size, if isize_max <? old_size then PAbort else PRet ()).

Definition release_shared : prog () :=
  FetchSub 1 Release (λ old_size,
    if negb (old_size =? 1) then PRet ()
    else Load Acquire (λ _, DropBox (PRet ()))).

Definition is_unique : prog bool := Load Acquire (λ ref_count, PRet (ref_count =? 1)).

(** ** Views and the modification order of the count *)

Record view := mkView { v_evs : gset nat; v_idx : nat }.

Definition vjoin (v w : view) : view := mkView (v_evs v ∪ v_evs w) (v_idx v `max` v_idx w).
Definition vempty : view := mkView ∅ 0.

Definition releases (o : order) : bool := match o with Release => true | _ => false end.
Definition acquires (o : order) : bool := match o with Acquire => true | _ => false end.

Record message := mkMsg { m_val : Z; m_view : view }.

Definition msg0 : message := mkMsg 0 vempty.
Definition last_idx (ms : list message) : nat := pred (length ms).
Definition last_msg (ms : list message) : message := nth (last_idx ms) ms msg0.

(** The view of a thread that reads the message [i]. *)
Definition see (o : order) (v : view) (i : nat) (m : message) : view :=
  let v := if acquires o then vjoin v (m_view m) else v in mkView (v_evs v) (v_idx v `max` i).

(** A read-modify-write by a thread with the view [v]: the old value, the messages
    and the view after it. *)
Definition rmw (f : Z → Z) (o : order) (ms : list message) (v : view) : Z * list message * view :=
  let m := last_msg ms in
  let v := see o v (length ms) m in
  let w := if releases o then vjoin (m_view m) v else m_view m in
  (m_val m, ms ++ [mkMsg (uwrap 64 (f (m_val m))) w], v).

(** ** The machine *)

Definition range : Type := Z * Z.
Definition overlap (r s : range) : Prop := r.1 `max` s.1 < r.2 `min` s.2.
Definition within (r s : range) : Prop := s.1 ≤ r.1 ∧ r.2 ≤ s.2.

(** An access to the buffer: its bytes, whether it writes (or frees) them, and the
    accesses that happen before it. *)
Record access := mkAccess { a_range : range; a_write : bool; a_seen : gset nat }.

(** A [BytesMut], or a [Bytes] made from one ([frozen]), and who can reach it. *)
Record handle := mkHandle { h_range : range; h_frozen : bool; h_holders : gset nat }.

Inductive task :=
| TIdle
| TClone (h : nat) (r r' : range) (c : prog ())     (* [h] keeps [r], the new handle gets [r'] *)
| TDrop (c : prog ())
| TUnique (h : nat) (c : prog bool)
| TExcl (h : nat).                                  (* [is_unique] has returned true *)

Record state := mkState {
  msgs : list message;
  accs : list access;
  handles : gmap nat handle;
  threads : gmap nat (view * task);
  freed : bool;
  bad : bool;                                       (* something was used after the free *)
  aborted : bool }.

Definition set_thread (s : state) (t : nat) (x : view * task) : state :=
  mkState (msgs s) (accs s) (handles s) (<[t:=x]> (threads s)) (freed s) (bad s) (aborted s).
Definition set_handles (s : state) (hs : gmap nat handle) : state :=
  mkState (msgs s) (accs s) hs (threads s) (freed s) (bad s) (aborted s).
(** Touches the memory of [Shared] or of the buffer. *)
Definition touch (s : state) : state :=
  mkState (msgs s) (accs s) (handles s) (threads s) (freed s) (bad s || freed s) (aborted s).
Definition set_msgs (s : state) (ms : list message) : state :=
  mkState ms (accs s) (handles s) (threads s) (freed s) (bad s) (aborted s).
Definition set_freed (s : state) : state :=
  mkState (msgs s) (accs s) (handles s) (threads s) true (bad s) (aborted s).
Definition set_aborted (s : state) : state :=
  mkState (msgs s) (accs s) (handles s) (threads s) (freed s) (bad s) true.

(** An access of the thread [t], which has the view [v]. *)
Definition do_access (s : state) (t : nat) (v : view) (x : task) (r : range) (w : bool) : state :=
  let v' := mkView ({[ length (accs s) ]} ∪ v_evs v) (v_idx v) in
  set_thread (mkState (msgs s) (accs s ++ [mkAccess r w (v_evs v)]) (handles s) (threads s)
                      (freed s) (bad s || freed s) (aborted s)) t (v', x).

Definition idle (s : state) (t : nat) (v : view) : Prop := threads s !! t = Some (v, TIdle).
Definition holds (s : state) (t h : nat) (hd : handle) : Prop :=
  handles s !! h = Some hd ∧ t ∈ h_holders hd.
Definition owns (s : state) (t h : nat) (hd : handle) : Prop :=
  handles s !! h = Some hd ∧ h_holders hd = {[ t ]}.

Definition set_holders (hd : handle) (ts : gset nat) : handle :=
  mkHandle (h_range hd) (h_frozen hd) ts.

Section machine.
Variable cap : Z.

Inductive step (s : state) : state → Prop :=
| step_lend t t' h hd v v' :
    idle s t v → idle s t' v' → t ≠ t' → holds s t h hd →
    step s (set_thread (set_handles s (<[h := set_holders hd ({[ t' ]} ∪ h_holders hd)]> (handles s)))
                       t' (vjoin v' v, TIdle))
| step_return t t' h hd v v' :
    idle s t v → idle s t' v' → t ≠ t' → holds s t h hd → t' ∈ h_holders hd →
    step s (set_thread (set_handles s (<[h := set_holders hd (h_holders hd ∖ {[ t ]})]> (handles s)))
                       t' (vjoin v' v, TIdle))
| step_read t h hd v r :
    idle s t v → holds s t h hd → within r (h_range hd) →
    step s (do_access s t v TIdle r false)
| step_write t h hd v r :
    idle s t v → owns s t h hd → h_frozen hd = false → within r (h_range hd) →
    step s (do_access s t v TIdle r true)
| step_reshape t h hd v r fz :                      (* [advance], [truncate], [freeze] *)
    idle s t v → owns s t h hd → within r (h_range hd) → (h_frozen hd = true → fz = true) →
    step s (set_handles s (<[h := mkHandle r fz {[ t ]}]> (handles s)))
| step_unsplit t h hd g gd v :
    idle s t v → owns s t h hd → owns s t g gd → h ≠ g →
    h_frozen hd = false → h_frozen gd = false → (h_range hd).2 = (h_range gd).1 →
    step s (set_thread (set_handles s
      (<[h := mkHandle ((h_range hd).1, (h_range gd).2) false {[ t ]}]> (delete g (handles s))))
                       t (v, TDrop release_shared))
| step_clone t h hd v :                             (* [shared_v_clone] *)
    idle s t v → holds s t h hd → h_frozen hd = true →
    step s (set_thread s t (v, TClone h (h_range hd) (h_range hd) increment_shared))
| step_split t h hd v r r' :                        (* [shallow_clone] of a split *)
    idle s t v → owns s t h hd → within r (h_range hd) → within r' (h_range hd) → ¬ overlap r r' →
    step s (set_thread s t (v, TClone h r r' increment_shared))
| step_drop t h hd v :
    idle s t v → owns s t h hd →
    step s (set_thread (set_handles s (delete h (handles s))) t (v, TDrop release_shared))
| step_unique t h hd v :
    idle s t v → owns s t h hd →
    step s (set_thread s t (v, TUnique h is_unique))
| step_fetch_add t h r r' v n o k :
    threads s !! t = Some (v, TClone h r r' (FetchAdd n o k)) →
    step s (let '(old, ms, v') := rmw (λ x, x + n) o (msgs s) v in
            set_thread (set_msgs (touch s) ms) t (v', TClone h r r' (k old)))
| step_fetch_sub t v n o k :
    threads s !! t = Some (v, TDrop (FetchSub n o k)) →
    step s (let '(old, ms, v') := rmw (λ x, x - n) o (msgs s) v in
            set_thread (set_msgs (touch s) ms) t (v', TDrop (k old)))
| step_load_drop t v o k i m :
    threads s !! t = Some (v, TDrop (Load o k)) → (v_idx v ≤ i)%nat → msgs s !! i = Some m →
    step s (set_thread (touch s) t (see o v i m, TDrop (k (m_val m))))
| step_load_unique t h v o k i m :
    threads s !! t = Some (v, TUnique h (Load o k)) → (v_idx v ≤ i)%nat → msgs s !! i = Some m →
    step s (set_thread (touch s) t (see o v i m, TUnique h (k (m_val m))))
| step_drop_box t v k :
    threads s !! t = Some (v, TDrop (DropBox k)) →
    step s (set_freed (do_access s t v (TDrop k) (0, cap) true))
| step_clone_ret t h h' hd r r' v :
    threads s !! t = Some (v, TClone h r r' (PRet ())) → handles s !! h = Some hd →
    handles s !! h' = None →
    step s (set_thread (set_handles s
      (<[h' := mkHandle r' (h_frozen hd) {[ t ]}]> (<[h := mkHandle r (h_frozen hd) (h_holders hd)]> (handles s))))
                       t (v, TIdle))
| step_drop_ret t v :
    threads s !! t = Some (v, TDrop (PRet ())) → step s (set_thread s t (v, TIdle))
| step_unique_ret t h v b :
    threads s !! t = Some (v, TUnique h (PRet b)) →
    step s (set_thread s t (v, if b then TExcl h else TIdle))
| step_excl t h v r w :                             (* the whole buffer, through [vec] *)
    threads s !! t = Some (v, TExcl h) → within r (0, cap) →
    step s (do_access s t v (TExcl h) r w)
| step_leave t h v r fz :                           (* the handle may have grown or thawed *)
    threads s !! t = Some (v, TExcl h) → within r (0, cap) →
    step s (set_thread (set_handles s (<[h := mkHandle r fz {[ t ]}]> (handles s))) t (v, TIdle))
| step_abort t h r r' v :
    threads s !! t = Some (v, TClone h r r' PAbort) → step s (set_aborted s).

(** The process stops at an abort. *)
Definition mstep (s s' : state) : Prop := aborted s = false ∧ step s s'.

(** What [promote_to_shared] leaves behind on the thread [t] of [ts]: one handle
    (from [advance_unchecked]) or the two halves of a split. *)
Definition promoted (ts : gset nat) (t : nat) (cut : option Z) : state :=
  let hs := match cut with
            | None => {[ 0%nat := mkHandle (0, cap) false {[ t ]} ]}
            | Some k => <[1%nat := mkHandle (k, cap) false {[ t ]}]>
                          {[ 0%nat := mkHandle (0, k) false {[ t ]} ]}
            end in
  mkState [mkMsg (Z.of_nat (size hs)) vempty] [] hs (gset_to_gmap (vempty, TIdle) ts) false false false.
End machine.

(** ** What is to be shown *)

Definition conflict (a b : access) : Prop :=
  overlap (a_range a) (a_range b) ∧ (a_write a = true ∨ a_write b = true).

(** Of two conflicting accesses the earlier happens before the later. *)
Definition race_free (ac : list access) : Prop :=
  ∀ i j a b, (i < j)%nat → ac !! i = Some a → ac !! j = Some b → conflict a b → i ∈ a_seen b.

Definition count (s : state) : Z := m_val (last_msg (msgs s)).

(** The threads that have a share of the count without a handle: after the
    [fetch_add], or before the [fetch_sub]. *)
Definition weight (x : task) : Z :=
  match x with
  | TClone _ _ _ (FetchAdd _ _ _) => 0
  | TClone _ _ _ _ | TDrop (FetchSub _ _ _) => 1
  | _ => 0
  end.

Definition aborting (x : task) : Z := match x with TClone _ _ _ PAbort => 1 | _ => 0 end.
Definition closing (x : task) : Z := match x with TDrop (Load _ _) | TDrop (DropBox _) => 1 | _ => 0 end.

Definition tsum (f : task → Z) (ths : gmap nat (view * task)) : Z :=
  map_fold (λ _ x n, f x.2 + n) 0 ths.

Section tsum.
Context (f : task → Z).
Implicit Types ths : gmap nat (view * task).

Lemma tsum_insert_new ths t x : ths !! t = None → tsum f (<[t:=x]> ths) = f x.2 + tsum f ths.
Proof. intros. unfold tsum. rewrite map_fold_insert_L; [done|intros; lia|done]. Qed.

Lemma tsum_delete ths t x : ths !! t = Some x → tsum f ths = f x.2 + tsum f (delete t ths).
Proof.
  intros Ht. rewrite <-(tsum_insert_new _ t) by apply lookup_delete_eq. by rewrite insert_delete_id.
Qed.

Lemma tsum_insert ths t x y :
  ths !! t = Some x → tsum f (<[t:=y]> ths) = tsum f ths - f x.2 + f y.2.
Proof.
  intros Ht. rewrite (tsum_delete _ _ _ Ht), <-insert_delete_eq, tsum_insert_new by apply lookup_delete_eq. lia.
Qed.

Lemma tsum_bound ths : (∀ x, 0 ≤ f x ≤ 1) → 0 ≤ tsum f ths ≤ Z.of_nat (size ths).
Proof.
  intros Hf. induction ths as [|t x ths Ht IH] using map_ind; [done|].
  rewrite tsum_insert_new, map_size_insert_None by done. pose proof (Hf x.2). lia.
Qed.

Lemma tsum_le ths t v x : (∀ x, 0 ≤ f x ≤ 1) → ths !! t = Some (v, x) → f x ≤ tsum f ths.
Proof.
  intros Hf Ht. rewrite (tsum_delete _ _ _ Ht). pose proof (tsum_bound (delete t ths) Hf). simpl. lia.
Qed.

Lemma tsum_le2 ths t u v w x y :
  (∀ x, 0 ≤ f x ≤ 1) → t ≠ u → ths !! t = Some (v, x) → ths !! u = Some (w, y) → f x + f y ≤ tsum f ths.
Proof.
  intros Hf Hn Ht Hu. rewrite (tsum_delete _ _ _ Ht). simpl.
  enough (f y ≤ tsum f (delete t ths)) by lia.
  eapply (tsum_le _ u); [done|]. by rewrite lookup_delete_ne.
Qed.

Lemma tsum_zero ths : (∀ t v x, ths !! t = Some (v, x) → f x = 0) → tsum f ths = 0.
Proof.
  induction ths as [|t [v x] ths Ht IH] using map_ind; [done|]. intros H.
  rewrite tsum_insert_new by done. simpl. rewrite (H t v x), IH; [done| |by rewrite lookup_insert_eq].
  intros u w y Hu. apply (H u w). rewrite lookup_insert_ne by naive_solver. done.
Qed.
End tsum.

Lemma weight_range x : 0 ≤ weight x ≤ 1.
Proof. destruct x as [|???[]|[]|?[]|]; simpl; lia. Qed.
Lemma aborting_range x : 0 ≤ aborting x ≤ 1.
Proof. destruct x as [|???[]|[]|?[]|]; simpl; lia. Qed.
Lemma closing_range x : 0 ≤ closing x ≤ 1.
Proof. destruct x as [|???[]|[]|?[]|]; simpl; lia. Qed.
#[export] Hint Resolve weight_range aborting_range closing_range : chiya.

(** ** The invariant *)

Definition vle (v w : view) : Prop := v_evs v ⊆ v_evs w ∧ (v_idx v ≤ v_idx w)%nat.

#[global] Instance vle_preorder : PreOrder vle.
Proof. split; [intros v; split; done|]. intros u v w [??] [??]. split; [set_solver|lia]. Qed.

Lemma vle_join_l v w : vle v (vjoin v w).
Proof. split; simpl; [set_solver|lia]. Qed.
Lemma vle_join_r v w : vle w (vjoin v w).
Proof. split; simpl; [set_solver|lia]. Qed.
Lemma vle_see o v i m : vle v (see o v i m).
Proof. unfold see. destruct (acquires o); split; simpl; [set_solver|lia|done|lia]. Qed.
#[export] Hint Resolve vle_join_l vle_join_r vle_see : chiya.

(** A thread with this view reads the value 1 only while it is the last. *)
Definition newest (ms : list message) (v : view) : Prop :=
  ∀ i m, (v_idx v ≤ i)%nat → ms !! i = Some m → m_val m = 1 → i = last_idx ms.

Definition all_seen (ac : list access) (v : view) : Prop := ∀ i, (i < length ac)%nat → i ∈ v_evs v.

Lemma newest_mono ms v w : vle v w → newest ms v → newest ms w.
Proof. intros [_ ?] Hn i m ?. apply Hn. lia. Qed.
Lemma all_seen_mono ac v w : vle v w → all_seen ac v → all_seen ac w.
Proof. intros [? _] Hs i Hi. apply Hs in Hi. set_solver. Qed.

(** Nobody else has a share of the count. *)
Definition alone (s : state) (v : view) : Prop :=
  size (handles s) = 1%nat ∧ count s = 1 ∧ all_seen (accs s) v.

Definition cut_ok (t : nat) (hd : handle) (r r' : range) : Prop :=
  (h_frozen hd = true ∧ r = h_range hd ∧ r' = h_range hd) ∨
  (h_holders hd = {[ t ]} ∧ within r (h_range hd) ∧ within r' (h_range hd) ∧ ¬ overlap r r').

Definition thread_ok (s : state) (t : nat) (v : view) (x : task) : Prop :=
  match x with
  | TIdle => True
  | TClone h r r' c =>
      (∃ hd, holds s t h hd ∧ cut_ok t hd r r') ∧
      (c = increment_shared ∨ (c = PRet () ∨ c = PAbort) ∧ newest (msgs s) v)
  | TDrop c =>
      c = release_shared ∨ c = PRet () ∨
      (c = Load Acquire (λ _, DropBox (PRet ())) ∧ (last_idx (msgs s) ≤ v_idx v)%nat) ∨
      (c = DropBox (PRet ()) ∧ all_seen (accs s) v)
  | TUnique h c =>
      (∃ hd, owns s t h hd) ∧ (c = is_unique ∨ c = PRet false ∨ c = PRet true ∧ alone s v)
  | TExcl h => (∃ hd, owns s t h hd) ∧ alone s v
  end.

Record handle_ok (ths : gmap nat (view * task)) (ms : list message) (ac : list access)
    (hd : handle) : Prop := {
  h_newest : ∃ t v x, t ∈ h_holders hd ∧ ths !! t = Some (v, x) ∧ newest ms v;
  h_writes t v x i a : t ∈ h_holders hd → ths !! t = Some (v, x) → ac !! i = Some a →
    a_write a = true → overlap (a_range a) (h_range hd) → i ∈ v_evs v;
  h_reads i a : h_frozen hd = false → ac !! i = Some a → overlap (a_range a) (h_range hd) →
    ∃ t v x, t ∈ h_holders hd ∧ ths !! t = Some (v, x) ∧ i ∈ v_evs v }.

(** Threads whose view the last one to leave has to get. *)
Definition stakeholder (s : state) (t : nat) (x : task) : Prop :=
  (∃ h hd, holds s t h hd) ∨ weight x = 1.

Definition disjoint_handles (hs : gmap nat handle) : Prop :=
  ∀ h g hd gd, h ≠ g → hs !! h = Some hd → hs !! g = Some gd → h_frozen hd = false →
    ¬ overlap (h_range hd) (h_range gd).

Record inv (s : state) : Prop := {
  i_threads t v x : threads s !! t = Some (v, x) → thread_ok s t v x;
  i_handles h hd : handles s !! h = Some hd → handle_ok (threads s) (msgs s) (accs s) hd;
  i_disj : disjoint_handles (handles s);
  i_count : count s = Z.of_nat (size (handles s)) + tsum weight (threads s);
  i_bound : count s ≤ isize_max + 1 + tsum aborting (threads s);
  i_size : Z.of_nat (size (threads s)) ≤ isize_max;
  i_close : tsum closing (threads s) + Z.b2z (freed s) = Z.b2z (count s =? 0);
  i_cov i : (i < length (accs s))%nat → freed s = false →
    i ∈ v_evs (m_view (last_msg (msgs s))) ∨
    ∃ t v x, threads s !! t = Some (v, x) ∧ i ∈ v_evs v ∧ stakeholder s t x;
  i_race : race_free (accs s);
  i_bad : bad s = false;
  i_msgs : msgs s ≠ [] }.

(** ** Steps that change neither the count nor the accesses *)

Lemma size_one_eq {A} (m : gmap nat A) i j x y :
  size m = 1%nat → m !! i = Some x → m !! j = Some y → i = j.
Proof.
  intros Hs Hi Hj. destruct (decide (i = j)) as [|Hn]; [done|exfalso].
  assert (delete i m = ∅) as He.
  { apply map_size_empty_inv. rewrite map_size_delete_Some by (by rewrite Hi). lia. }
  apply (f_equal (.!! j)) in He. by rewrite lookup_delete_ne, Hj in He.
Qed.

(** A handle with other holders, in a machine where the view of [t] has grown. *)
Lemma handle_ok_grow ths ms ac t v v' x x' hd :
  ths !! t = Some (v, x) → vle v v' → handle_ok ths ms ac hd →
  handle_ok (<[t:=(v', x')]> ths) ms ac hd.
Proof.
  intros Ht Hv [(u & w & y & Hu & Hw & Hn) Hwr Hrd]. split.
  - destruct (decide (u = t)) as [->|?].
    + simplify_eq. exists t, v', x'. rewrite lookup_insert_eq. eauto using newest_mono.
    + exists u, w, y. by rewrite lookup_insert_ne.
  - intros u' w' y' i a Hu' [[<- [= <- <-]]|[? Hw']]%lookup_insert_Some Ha Hwa Ho; [|by eauto].
    apply Hv. eauto.
  - intros i a Hf Ha Ho. destruct (Hrd i a Hf Ha Ho) as (u' & w' & y' & Hu' & Hw' & Hi).
    destruct (decide (u' = t)) as [->|?].
    + simplify_eq. exists t, v', x'. rewrite lookup_insert_eq. by repeat split; [..|apply Hv].
    + exists u', w', y'. by rewrite lookup_insert_ne.
Qed.

(** The handles that the busy thread [u] works with stay as they are. *)
Definition keeps (u : nat) (hs hs' : gmap nat handle) : Prop :=
  (size hs' = size hs ∨ ∃ g gd, hs !! g = Some gd ∧ h_holders gd ≠ {[ u ]}) ∧
  ∀ h hd, hs !! h = Some hd → u ∈ h_holders hd → ∃ hd', hs' !! h = Some hd' ∧
    h_range hd' = h_range hd ∧ h_frozen hd' = h_frozen hd ∧ u ∈ h_holders hd' ∧
    (h_holders hd = {[ u ]} → h_holders hd' = {[ u ]}).

Lemma keeps_refl u hs : keeps u hs hs.
Proof. split; [by left|]. intros h hd Hh Hu. by exists hd. Qed.

Lemma thread_ok_keeps s t y u v x hs' :
  keeps u (handles s) hs' → thread_ok s u v x → thread_ok (set_thread (set_handles s hs') t y) u v x.
Proof.
  intros [Hsz Hk]. assert (∀ h, (∃ hd, owns s u h hd) →
    ∃ hd, owns (set_thread (set_handles s hs') t y) u h hd) as Hown.
  { intros h (hd & Hh & Hu). destruct (Hk h hd Hh) as (hd' & ? & _ & _ & _ & Ho); [set_solver|].
    exists hd'. split; [done|by apply Ho]. }
  assert (∀ h, (∃ hd, owns s u h hd) → alone s v → alone (set_thread (set_handles s hs') t y) v) as Hal.
  { intros h (hd & Hh & Hu) (H1 & Hc & Hs). split; [|done]. simpl.
    destruct Hsz as [->|(g & gd & Hg & Hn)]; [done|].
    pose proof (size_one_eq _ _ _ _ _ H1 Hh Hg). by simplify_eq. }
  destruct x as [|h r r' c|c|h c|h]; simpl; [done| |done| |].
  2: { intros [Ho Hc]. split; [by apply Hown|].
       destruct Hc as [?|[?|[? Ha]]]; [by left|by right; left|right; right]. by eauto. }
  2: { intros [Ho Ha]. by eauto. }
  intros [(hd & [Hh Hu] & Hc) ?]. split; [|done].
  destruct (Hk h hd Hh Hu) as (hd' & ? & Hr & Hf & ? & Ho). exists hd'. split; [by split|].
  unfold cut_ok in *. rewrite Hr, Hf. naive_solver.
Qed.

Section update.
Context (s : state) (t : nat) (v v' : view) (x x' : task) (hs' : gmap nat handle).
Let s' : state := set_thread (set_handles s hs') t (v', x').
Hypothesis Hinv : inv s.
Hypothesis Ht : threads s !! t = Some (v, x).
Hypothesis Hv : vle v v'.
Hypothesis Hsize : Z.of_nat (size hs') + weight x' = Z.of_nat (size (handles s)) + weight x.
Hypothesis Hab : aborting x' = aborting x.
Hypothesis Hcl : closing x' = closing x.
Hypothesis Hok : thread_ok s' t v' x'.
Hypothesis Hkeep : ∀ u w y, u ≠ t → threads s !! u = Some (w, y) → y ≠ TIdle → keeps u (handles s) hs'.
Hypothesis Hhs : ∀ h hd, hs' !! h = Some hd → handles s !! h = Some hd ∨
  handle_ok (<[t:=(v', x')]> (threads s)) (msgs s) (accs s) hd.
Hypothesis Hdisj : disjoint_handles hs'.
Hypothesis Hst : stakeholder s t x → stakeholder s' t x'.
Hypothesis Hsu : ∀ u w y, u ≠ t → threads s !! u = Some (w, y) → stakeholder s u y →
  stakeholder s' u y ∨ vle w v' ∧ stakeholder s' t x'.

Lemma inv_update : inv s'.
Proof using All.
  destruct Hinv as [It Ih Id Ic Ib Is Icl Icov Ir Ibd Im]. subst s'. split; try done.
  - simpl. intros u w y [[<- [= <- <-]]|[Hn Hu]]%lookup_insert_Some; [done|].
    assert (y = TIdle ∨ y ≠ TIdle) as [->|Hy] by (destruct y; auto); [done|]. apply thread_ok_keeps; eauto.
  - intros h hd Hh. destruct (Hhs h hd Hh) as [Hh'|]; [|done].
    eapply handle_ok_grow; eauto.
  - change (count s = Z.of_nat (size hs') + tsum weight (<[t:=(v', x')]> (threads s))).
    rewrite (tsum_insert _ _ _ _ _ Ht). simpl. lia.
  - change (count s ≤ isize_max + 1 + tsum aborting (<[t:=(v', x')]> (threads s))).
    rewrite (tsum_insert _ _ _ _ _ Ht). simpl. lia.
  - simpl. by rewrite map_size_insert_Some by (by rewrite Ht).
  - change (tsum closing (<[t:=(v', x')]> (threads s)) + Z.b2z (freed s) = Z.b2z (count s =? 0)).
    rewrite (tsum_insert _ _ _ _ _ Ht). simpl. lia.
  - intros i Hi Hf. destruct (Icov i Hi Hf) as [|(u & w & y & Hu & Hiw & Hs)]; [by left|right].
    destruct (decide (u = t)) as [->|Hn].
    + simplify_eq. exists t, v', x'. simpl. rewrite lookup_insert_eq. split; [done|].
      split; [by apply Hv|auto].
    + destruct (Hsu u w y Hn Hu Hs) as [?|[[Hw _] ?]].
      * exists u, w, y. simpl. by rewrite lookup_insert_ne.
      * exists t, v', x'. simpl. rewrite lookup_insert_eq. split; [done|]. split; [set_solver|done].
Qed.
End update.

(** Only the thread [t] changes. *)
Lemma inv_task s t v v' x x' :
  inv s → threads s !! t = Some (v, x) → vle v v' → weight x' = weight x →
  aborting x' = aborting x → closing x' = closing x → thread_ok s t v' x' →
  inv (set_thread s t (v', x')).
Proof.
  intros Hi Ht Hv Hw Ha Hc Hok.
  assert (set_thread s t (v', x') = set_thread (set_handles s (handles s)) t (v', x')) as -> by by destruct s.
  apply (inv_update _ _ v _ x); try done.
  - lia.
  - intros u w y _ _ _. apply keeps_refl.
  - intros h hd Hh. by left.
  - apply Hi.
  - unfold stakeholder. by rewrite Hw.
  - intros u w y _ _ Hs. by left.
Qed.

(** ** Lending and changing handles *)

Lemma disjoint_insert hs h hd hd' :
  disjoint_handles hs → hs !! h = Some hd → within (h_range hd') (h_range hd) →
  (h_frozen hd = true → h_frozen hd' = true) → disjoint_handles (<[h:=hd']> hs).
Proof.
  intros Hd Hh Hw Hf g1 g2 d1 d2 Hn H1 H2 Hf1.
  apply lookup_insert_Some in H1 as [[<- <-]|[? H1]]; apply lookup_insert_Some in H2 as [[<- <-]|[? H2]].
  - done.
  - assert (h_frozen hd = false) as Hf' by (destruct (h_frozen hd); [rewrite Hf in Hf1|]; done).
    pose proof (Hd h g2 hd d2 Hn Hh H2 Hf'). unfold within, overlap in *. lia.
  - pose proof (Hd g1 h d1 hd Hn H1 Hh Hf1). unfold within, overlap in *. lia.
  - by apply (Hd g1 g2).
Qed.

Lemma within_refl r : within r r.
Proof. by split. Qed.
#[local] Hint Resolve within_refl : core.

Lemma overlap_within r q q' : within q q' → overlap r q → overlap r q'.
Proof. unfold within, overlap. lia. Qed.

(** The thread [t'] becomes a holder (or stays one) and gets the view of the holder [t]. *)
Lemma handle_ok_holders ths ms ac hd t t' v v' ts :
  ths !! t = Some (v, TIdle) → ths !! t' = Some (v', TIdle) → t ∈ h_holders hd → t' ∈ ts →
  (∀ u, u ∈ ts → u ≠ t' → u ∈ h_holders hd) → (∀ u, u ∈ h_holders hd → u ≠ t → u ∈ ts) →
  handle_ok ths ms ac hd →
  handle_ok (<[t' := (vjoin v' v, TIdle)]> ths) ms ac (set_holders hd ts).
Proof.
  intros Ht Ht' Hin Hin' Hts Hts' [(u & w & y & Hu & Hw & Hn) Hwr Hrd]. split; simpl.
  - destruct (decide (u = t' ∨ u = t)) as [Hc|Hc].
    + exists t', (vjoin v' v), TIdle. rewrite lookup_insert_eq. split; [done|]. split; [done|].
      destruct Hc as [-> | ->]; simplify_eq;
        [apply (newest_mono _ v')|apply (newest_mono _ v)]; auto with chiya.
    + exists u, w, y. rewrite lookup_insert_ne by naive_solver. naive_solver.
  - intros u' w' y' i a Hu' [[<- [= <- <-]]|[? Hw']]%lookup_insert_Some Ha Hwa Ho.
    + simpl. apply elem_of_union_r. eauto.
    + apply (Hwr u' w' y' i a); auto.
  - intros i a Hf Ha Ho. destruct (Hrd i a Hf Ha Ho) as (u' & w' & y' & Hu' & Hw' & Hi).
    destruct (decide (u' = t' ∨ u' = t)) as [Hc|Hc].
    + exists t', (vjoin v' v), TIdle. rewrite lookup_insert_eq. split; [done|]. split; [done|].
      apply elem_of_union. destruct Hc as [-> | ->]; simplify_eq; auto.
    + exists u', w', y'. rewrite lookup_insert_ne by naive_solver. naive_solver.
Qed.

Lemma inv_holders s t t' h hd v v' ts :
  inv s → idle s t v → idle s t' v' → t ≠ t' → holds s t h hd → t' ∈ ts →
  (∀ u, u ∈ ts → u ≠ t' → u ∈ h_holders hd) → (∀ u, u ∈ h_holders hd → u ≠ t → u ∈ ts) →
  inv (set_thread (set_handles s (<[h := set_holders hd ts]> (handles s))) t' (vjoin v' v, TIdle)).
Proof.
  intros Hi Ht Ht' Hne [Hh Hin] Hin' Hts Hts'.
  assert (∀ u g gd y, u ≠ t → holds s u g gd → stakeholder (set_thread (set_handles s
    (<[h := set_holders hd ts]> (handles s))) t' (vjoin v' v, TIdle)) u y) as Hst.
  { intros u g gd y Hu [Hg Hug]. left. destruct (decide (g = h)) as [->|].
    - simplify_eq. exists h, (set_holders hd ts). split; simpl; [by rewrite lookup_insert_eq|auto].
    - exists g, gd. split; [|done]. simpl. by rewrite lookup_insert_ne. }
  eapply (inv_update _ _ v' _ TIdle); try done; auto with chiya.
  - rewrite map_size_insert_Some by (by rewrite Hh). done.
  - intros u w y Hu Hw Hy. assert (u ≠ t) by (intros ->; unfold idle in Ht; naive_solver). split.
    { left. by rewrite map_size_insert_Some by (by rewrite Hh). }
    intros g gd Hg Hug. destruct (decide (g = h)) as [->|].
    + simplify_eq. exists (set_holders hd ts). rewrite lookup_insert_eq. simpl.
      split_and!; [done..|by auto|]. intros He. rewrite He in Hin. by apply elem_of_singleton in Hin.
    + exists gd. by rewrite lookup_insert_ne.
  - intros g gd [[<- <-]|[? Hg]]%lookup_insert_Some; [right|by left].
    eapply handle_ok_holders; eauto. by apply Hi in Hh.
  - eapply disjoint_insert; eauto. apply Hi.
  - intros _. left. exists h, (set_holders hd ts). split; [|done]. simpl. by rewrite lookup_insert_eq.
  - intros u w y Hu Hw [(g & gd & Hg)|Hy]; [|by left; right].
    destruct (decide (u = t)) as [->|]; [right|left; eauto].
    unfold idle in *. simplify_eq. split; [apply vle_join_r|]. left. exists h, (set_holders hd ts).
    split; [|done]. simpl. by rewrite lookup_insert_eq.
Qed.

(** The thread [t] changes handles that nobody else holds. *)
Lemma inv_owned s t v x x' hs' :
  inv s → threads s !! t = Some (v, x) → (∃ h hd, holds s t h hd) →
  (∀ h hd, handles s !! h = Some hd → hs' !! h = Some hd ∨ h_holders hd = {[ t ]}) →
  Z.of_nat (size hs') + weight x' = Z.of_nat (size (handles s)) + weight x →
  aborting x' = aborting x → closing x' = closing x →
  thread_ok (set_thread (set_handles s hs') t (v, x')) t v x' →
  (∀ h hd, hs' !! h = Some hd → handles s !! h = Some hd ∨
    handle_ok (<[t:=(v, x')]> (threads s)) (msgs s) (accs s) hd) →
  disjoint_handles hs' → stakeholder (set_thread (set_handles s hs') t (v, x')) t x' →
  inv (set_thread (set_handles s hs') t (v, x')).
Proof.
  intros Hi Ht (g & gd & Hg & Htg) Hc Hsz Ha Hcl Hok Hhs Hd Hst.
  assert (∀ u h hd, u ≠ t → holds s u h hd → hs' !! h = Some hd) as Hu.
  { intros u h hd Hn [Hh Huh]. destruct (Hc h hd Hh) as [|He]; [done|].
    rewrite He in Huh. by apply elem_of_singleton in Huh. }
  apply (inv_update _ _ v _ x); try done.
  - intros u w y Hn Hw Hy. split.
    + right. exists g, gd. split; [done|]. intros He. rewrite He in Htg.
      apply elem_of_singleton in Htg. congruence.
    + intros h hd Hh Huh. exists hd. by rewrite (Hu u h hd).
  - intros u w y Hn Hw [(h & hd & Hh)|?]; left; [left|by right].
    exists h, hd. split; [by apply (Hu u)|apply Hh].
Qed.

(** What the only holder of a handle knows. *)
Definition sees (ac : list access) (v : view) (r : range) (fz : bool) : Prop :=
  ∀ i a, ac !! i = Some a → overlap (a_range a) r → a_write a = true ∨ fz = false → i ∈ v_evs v.

Lemma owner_sees s t h hd v x :
  inv s → owns s t h hd → threads s !! t = Some (v, x) →
  newest (msgs s) v ∧ sees (accs s) v (h_range hd) (h_frozen hd).
Proof.
  intros Hi [Hh Ho] Ht. destruct (i_handles s Hi h hd Hh) as [(u & w & y & Hu & Hw & Hn) Hwr Hrd].
  rewrite Ho in *. apply elem_of_singleton in Hu as ->. simplify_eq. split; [done|].
  intros i a Ha Hov [Hwa|Hf].
  - eapply Hwr; eauto. by apply elem_of_singleton.
  - destruct (Hrd i a Hf Ha Hov) as (u' & w' & y' & Hu' & Hw' & Hi').
    apply elem_of_singleton in Hu' as ->. by simplify_eq.
Qed.

Lemma handle_ok_owner ths ms ac t v x r fz :
  ths !! t = Some (v, x) → newest ms v → sees ac v r fz → handle_ok ths ms ac (mkHandle r fz {[ t ]}).
Proof.
  intros Ht Hn Hs. split; simpl.
  - exists t, v, x. split; [by apply elem_of_singleton|done].
  - intros u w y i a ->%elem_of_singleton Hu Ha Hwa Ho. simplify_eq. eauto.
  - intros i a Hf Ha Ho. exists t, v, x. split; [by apply elem_of_singleton|]. eauto.
Qed.

Lemma sees_sub ac v r r' fz fz' :
  sees ac v r fz → within r' r → (fz = true → fz' = true) → sees ac v r' fz'.
Proof.
  intros Hs Hw Hf i a Ha Ho Hwa. apply (Hs i a Ha); [by apply (overlap_within _ r')|].
  destruct Hwa as [|Hf']; [by left|right]. destruct fz; [rewrite Hf in Hf'|]; done.
Qed.

Lemma all_seen_sees ac v r fz : all_seen ac v → sees ac v r fz.
Proof. intros Ha i a Hi _ _. apply Ha, lookup_lt_is_Some. eauto. Qed.

Lemma owns_holds s t h hd : owns s t h hd → holds s t h hd.
Proof. intros [? Ho]. split; [done|]. rewrite Ho. by apply elem_of_singleton. Qed.

Lemma set_thread_id s t x hs : threads s !! t = Some x → set_thread (set_handles s hs) t x = set_handles s hs.
Proof. intros. unfold set_thread, set_handles. simpl. by rewrite insert_id. Qed.

(** ** One lemma per rule *)

Lemma inv_reshape s t h hd v r fz :
  inv s → idle s t v → owns s t h hd → within r (h_range hd) → (h_frozen hd = true → fz = true) →
  inv (set_handles s (<[h := mkHandle r fz {[ t ]}]> (handles s))).
Proof.
  intros Hi Ht Ho Hw Hf. pose proof Ho as [Hh Hhs]. rewrite <-(set_thread_id s t (v, TIdle)) by done.
  apply (inv_owned _ _ _ TIdle); try done; eauto using owns_holds.
  - intros g gd Hg. destruct (decide (g = h)) as [->|]; [right; by simplify_eq|left].
    by rewrite lookup_insert_ne.
  - by rewrite map_size_insert_Some by (by rewrite Hh).
  - intros g gd [[<- <-]|[? Hg]]%lookup_insert_Some; [right|by left].
    destruct (owner_sees _ _ _ _ _ _ Hi Ho Ht). eapply handle_ok_owner; eauto using sees_sub.
    by rewrite lookup_insert_eq.
  - eapply disjoint_insert; eauto. apply Hi.
  - left. exists h, (mkHandle r fz {[ t ]}).
    split; simpl; [by rewrite lookup_insert_eq|by apply elem_of_singleton].
Qed.

Lemma disjoint_delete hs h : disjoint_handles hs → disjoint_handles (delete h hs).
Proof. intros Hd g1 g2 d1 d2 Hn [_ H1]%lookup_delete_Some [_ H2]%lookup_delete_Some. by apply (Hd g1 g2). Qed.

Lemma size_delete_Z (hs : gmap nat handle) h hd :
  hs !! h = Some hd → Z.of_nat (size (delete h hs)) + 1 = Z.of_nat (size hs).
Proof.
  intros Hh. rewrite map_size_delete_Some by (by rewrite Hh).
  assert (size hs ≠ 0%nat) by (intros ?%map_size_empty_inv; simplify_map_eq). lia.
Qed.

Lemma inv_drop s t h hd v :
  inv s → idle s t v → owns s t h hd →
  inv (set_thread (set_handles s (delete h (handles s))) t (v, TDrop release_shared)).
Proof.
  intros Hi Ht Ho. pose proof Ho as [Hh Hhs]. apply (inv_owned _ _ _ TIdle); try done; eauto using owns_holds.
  - intros g gd Hg. destruct (decide (g = h)) as [->|]; [right; by simplify_eq|left].
    by rewrite lookup_delete_ne.
  - simpl. pose proof (size_delete_Z _ _ _ Hh). lia.
  - by left.
  - intros g gd [? Hg]%lookup_delete_Some. by left.
  - apply disjoint_delete, Hi.
  - by right.
Qed.

Lemma inv_unsplit s t h hd g gd v :
  inv s → idle s t v → owns s t h hd → owns s t g gd → h ≠ g →
  h_frozen hd = false → h_frozen gd = false → (h_range hd).2 = (h_range gd).1 →
  inv (set_thread (set_handles s
    (<[h := mkHandle ((h_range hd).1, (h_range gd).2) false {[ t ]}]> (delete g (handles s))))
    t (v, TDrop release_shared)).
Proof.
  intros Hi Ht Ho Hog Hn Hf Hfg Hr. pose proof Ho as [Hh Hhs]. pose proof Hog as [Hg Hgs].
  assert (delete g (handles s) !! h = Some hd) as Hh' by (by rewrite lookup_delete_ne).
  assert (∀ r, overlap r ((h_range hd).1, (h_range gd).2) → overlap r (h_range hd) ∨ overlap r (h_range gd))
    as Hcut by (unfold overlap; simpl; lia).
  destruct (owner_sees _ _ _ _ _ _ Hi Ho Ht) as [Hnw Hs1].
  destruct (owner_sees _ _ _ _ _ _ Hi Hog Ht) as [_ Hs2].
  apply (inv_owned _ _ _ TIdle); try done; eauto using owns_holds.
  - intros k kd Hk. destruct (decide (k = h)) as [->|]; [right; by simplify_eq|].
    destruct (decide (k = g)) as [->|]; [right; by simplify_eq|left].
    by rewrite lookup_insert_ne, lookup_delete_ne.
  - rewrite map_size_insert_Some by (by rewrite Hh'). simpl. pose proof (size_delete_Z _ _ _ Hg). lia.
  - by left.
  - intros k kd [[<- <-]|[? [? Hk]%lookup_delete_Some]]%lookup_insert_Some; [right|by left].
    eapply handle_ok_owner; [by rewrite lookup_insert_eq|done|].
    intros i a Ha [?|?]%Hcut _; [apply (Hs1 i a)|apply (Hs2 i a)]; auto.
  - pose proof (i_disj s Hi) as Hd. intros k1 k2 d1 d2 Hk H1 H2 Hf1.
    apply lookup_insert_Some in H1 as [[<- <-]|[? [? H1]%lookup_delete_Some]];
      apply lookup_insert_Some in H2 as [[<- <-]|[? [? H2]%lookup_delete_Some]]; [done|..].
    + pose proof (Hd h k2 hd d2 Hk Hh H2 Hf). pose proof (Hd g k2 gd d2 ltac:(done) Hg H2 Hfg).
      unfold overlap in *. simpl. lia.
    + intros [Hov|Hov]%Hcut; [by apply (Hd k1 h d1 hd) in Hov|by apply (Hd k1 g d1 gd) in Hov].
    + by apply (Hd k1 k2).
  - by right.
Qed.

Lemma inv_leave s t h v r fz :
  inv s → threads s !! t = Some (v, TExcl h) →
  inv (set_thread (set_handles s (<[h := mkHandle r fz {[ t ]}]> (handles s))) t (v, TIdle)).
Proof.
  intros Hi Ht. destruct (i_threads s Hi _ _ _ Ht) as ((hd & Ho) & H1 & Hc & Hs).
  pose proof Ho as [Hh Hhs].
  assert (∀ g gd, handles s !! g = Some gd → g = h) as Hone by eauto using size_one_eq.
  apply (inv_owned _ _ _ (TExcl h)); try done; eauto using owns_holds.
  - intros g gd Hg. pose proof (Hone g gd Hg). right. by simplify_eq.
  - by rewrite map_size_insert_Some by (by rewrite Hh).
  - intros g gd [[<- <-]|[? Hg]]%lookup_insert_Some; [right|by left].
    destruct (owner_sees _ _ _ _ _ _ Hi Ho Ht) as [Hn _].
    eapply handle_ok_owner; [by rewrite lookup_insert_eq|done|by apply all_seen_sees].
  - intros g1 g2 d1 d2 Hn H1' H2 _. exfalso.
    apply lookup_insert_Some in H1' as [[? _]|[? H1'%Hone]]; apply lookup_insert_Some in H2 as [[? _]|[? H2%Hone]];
      congruence.
  - left. exists h, (mkHandle r fz {[ t ]}).
    split; simpl; [by rewrite lookup_insert_eq|by apply elem_of_singleton].
Qed.

(** A handle is cut in two, or cloned. *)
Lemma disjoint_cut hs t h h' hd r r' :
  disjoint_handles hs → hs !! h = Some hd → hs !! h' = None → cut_ok t hd r r' →
  disjoint_handles (<[h' := mkHandle r' (h_frozen hd) {[ t ]}]> (<[h := mkHandle r (h_frozen hd) (h_holders hd)]> hs)).
Proof.
  intros Hd Hh Hh' Hc. assert (within r (h_range hd) ∧ within r' (h_range hd) ∧
    (h_frozen hd = false → ¬ overlap r r')) as (Hw & Hw' & Hrr).
  { destruct Hc as [(? & -> & ->)|(_ & ? & ? & ?)]; [|done]. split_and!; [done..|congruence]. }
  intros g1 g2 d1 d2 Hn H1 H2 Hf.
  pose proof (disjoint_insert _ h hd (mkHandle r (h_frozen hd) (h_holders hd)) Hd Hh Hw id) as Hd1.
  pose proof (disjoint_insert _ h hd (mkHandle r' (h_frozen hd) (h_holders hd)) Hd Hh Hw' id) as Hd2.
  apply lookup_insert_Some in H1 as [[<- <-]|[Hn1 H1]]; apply lookup_insert_Some in H2 as [[<- <-]|[Hn2 H2]].
  - done.
  - simpl in *. destruct (decide (g2 = h)) as [->|].
    + rewrite lookup_insert_eq in H2. simplify_eq/=. unfold overlap in *. specialize (Hrr Hf). lia.
    + rewrite lookup_insert_ne in H2 by done. apply (Hd2 h g2 (mkHandle r' (h_frozen hd) (h_holders hd)) d2); auto.
      * by rewrite lookup_insert_eq.
      * by rewrite lookup_insert_ne.
  - simpl in *. destruct (decide (g1 = h)) as [->|].
    + rewrite lookup_insert_eq in H1. simplify_eq/=. by apply Hrr.
    + rewrite lookup_insert_ne in H1 by done. apply (Hd2 g1 h d1 (mkHandle r' (h_frozen hd) (h_holders hd))); auto.
      * by rewrite lookup_insert_ne.
      * by rewrite lookup_insert_eq.
  - by apply (Hd1 g1 g2).
Qed.

Lemma inv_clone_ret s t h h' hd r r' v :
  inv s → threads s !! t = Some (v, TClone h r r' (PRet ())) → handles s !! h = Some hd →
  handles s !! h' = None →
  inv (set_thread (set_handles s
    (<[h' := mkHandle r' (h_frozen hd) {[ t ]}]> (<[h := mkHandle r (h_frozen hd) (h_holders hd)]> (handles s))))
    t (v, TIdle)).
Proof.
  intros Hi Ht Hh Hh'. destruct (i_threads s Hi _ _ _ Ht) as [(hd1 & [Hh1 Hth] & Hc) Hp]. simplify_eq.
  destruct Hp as [?|[_ Hnw]]; [done|]. assert (h ≠ h') as Hne by congruence.
  assert (<[h := mkHandle r (h_frozen hd) (h_holders hd)]> (handles s) !! h' = None) as Hn1
    by (by rewrite lookup_insert_ne).
  assert (sees (accs s) v r' (h_frozen hd)) as Hs'.
  { destruct Hc as [(Hf & -> & ->)|(Ho & Hw & Hw' & _)].
    - intros i a Ha Hov [Hwa|?]; [|congruence]. destruct (i_handles s Hi _ _ Hh) as [_ Hwr _]. eauto.
    - destruct (owner_sees s t h hd _ _ Hi (conj Hh Ho) Ht). eauto using sees_sub. }
  apply (inv_owned _ _ _ (TClone h r r' (PRet ()))); try done.
  - by exists h, hd.
  - intros g gd Hg. destruct (decide (g = h)) as [->|].
    + simplify_eq. destruct Hc as [(Hf & -> & ->)|(Ho & _)]; [left|by right].
      rewrite lookup_insert_ne, lookup_insert_eq by done. by destruct hd.
    + left. rewrite !lookup_insert_ne by congruence. done.
  - rewrite map_size_insert_None, map_size_insert_Some by (done || by rewrite Hh). simpl. lia.
  - intros g gd [[<- <-]|[? Hg]]%lookup_insert_Some.
    { right. eapply handle_ok_owner; [by rewrite lookup_insert_eq|done..]. }
    apply lookup_insert_Some in Hg as [[<- <-]|[? Hg]]; [|by left].
    destruct Hc as [(Hf & -> & ->)|(Ho & Hw & Hw' & _)]; [left; by destruct hd|right].
    destruct (owner_sees s t h hd _ _ Hi (conj Hh Ho) Ht). rewrite Ho.
    eapply handle_ok_owner; [by rewrite lookup_insert_eq|done|eauto using sees_sub].
  - eapply disjoint_cut; eauto. apply Hi.
  - left. exists h', (mkHandle r' (h_frozen hd) {[ t ]}).
    split; simpl; [by rewrite lookup_insert_eq|by apply elem_of_singleton].
Qed.

(** ** Accesses to the buffer *)

Lemma race_free_snoc ac a :
  race_free ac →
  (∀ i b, ac !! i = Some b → conflict b a → i ∈ a_seen a) → race_free (ac ++ [a]).
Proof.
  intros Hr Hn i j b c Hij Hb [Hc|[Hj Hc]]%lookup_app_Some Hcf.
  - rewrite lookup_app_l in Hb by (apply lookup_lt_Some in Hc; lia). by apply (Hr i j b c).
  - apply lookup_lt_Some in Hc as Hlt. simpl in Hlt. assert (j = length ac) as -> by lia.
    rewrite Nat.sub_diag in Hc. simplify_eq/=. rewrite lookup_app_l in Hb by lia. eauto.
Qed.

Lemma vle_access v n : vle v (mkView ({[ n ]} ∪ v_evs v) (v_idx v)).
Proof. split; simpl; [set_solver|done]. Qed.

Lemma holder_live s t h hd : inv s → holds s t h hd → 1 ≤ count s ∧ freed s = false.
Proof.
  intros [_ _ _ Ic _ _ Icl _ _ _ _] [Hh1 _].
  pose proof (size_delete_Z _ _ _ Hh1). pose proof (tsum_bound weight (threads s) weight_range).
  pose proof (tsum_bound closing (threads s) closing_range).
  assert (1 ≤ count s) by lia. split; [done|].
  destruct (Z.eqb_spec (count s) 0); [lia|]. destruct (freed s); simpl in *; [lia|done].
Qed.

(** A thread for which [is_unique] has returned true is alone. *)
Lemma exclusive_alone s u y z k :
  inv s → threads s !! u = Some (y, z) → z = TExcl k ∨ z = TUnique k (PRet true) →
  (∃ kd, owns s u k kd) ∧ alone s y.
Proof.
  intros Hi Hu Hz. apply (i_threads s Hi) in Hu. destruct Hz as [-> | ->]; [done|].
  by destruct Hu as [? [?|[?|[_ ?]]]].
Qed.

(** While a thread is alone nobody else holds a handle. *)
Lemma alone_owner s u y z k t h hd :
  inv s → threads s !! u = Some (y, z) → z = TExcl k ∨ z = TUnique k (PRet true) → holds s t h hd → u = t.
Proof.
  intros Hi Hu Hz [Hh Hth]. destruct (exclusive_alone s u y z k Hi Hu Hz) as ((kd & Hk & Hks) & H1 & _).
  pose proof (size_one_eq _ _ _ _ _ H1 Hk Hh). simplify_eq.
  rewrite Hks in Hth. by apply elem_of_singleton in Hth.
Qed.

Lemma closing_count s t v x : inv s → threads s !! t = Some (v, x) → closing x = 1 →
  count s = 0 ∧ freed s = false ∧ handles s = ∅ ∧ tsum weight (threads s) = 0.
Proof.
  intros Hi Ht Hx. pose proof (i_close s Hi) as Hcl. pose proof (i_count s Hi) as Hc.
  pose proof (tsum_le closing _ _ _ _ closing_range Ht). pose proof (tsum_bound weight (threads s) weight_range).
  destruct (Z.eqb_spec (count s) 0); destruct (freed s); simpl in *; try lia.
  split_and!; [done..| |lia]. apply map_size_empty_inv. lia.
Qed.

(** An access through a handle of [t], by all that [thread_ok] and the handles ask for. *)
Section access.
Context (s : state) (t : nat) (v : view) (x : task) (h : nat) (hd : handle) (r : range) (w : bool).
Hypothesis Hinv : inv s.
Hypothesis Ht : threads s !! t = Some (v, x).
Hypothesis Hh : holds s t h hd.
Hypothesis Hx : x = TIdle ∨ x = TExcl h.
Hypothesis Hr : within r (h_range hd) ∨ x = TExcl h.
Hypothesis Hw : w = true → h_holders hd = {[ t ]} ∧ h_frozen hd = false ∨ x = TExcl h.

Let v' : view := mkView ({[ length (accs s) ]} ∪ v_evs v) (v_idx v).

Lemma access_conflict i b :
  accs s !! i = Some b → conflict b (mkAccess r w (v_evs v)) → i ∈ v_evs v.
Proof using All.
  intros Hb [Ho Hc]. simpl in *.
  assert (x = TExcl h → i ∈ v_evs v) as Hex.
  { intros ->. destruct (i_threads s Hinv _ _ _ Ht) as (_ & _ & _ & Ha). apply Ha. by eapply lookup_lt_Some. }
  destruct Hr as [Hin|]; [|auto]. apply (overlap_within _ _ _ Hin) in Ho.
  destruct Hh as [Hh1 Hth]. destruct Hc as [Hbw|Hww].
  - destruct (i_handles s Hinv _ _ Hh1) as [_ Hwr _]. eauto.
  - destruct (Hw Hww) as [[Hs Hf]|]; [|auto].
    destruct (owner_sees s t h hd _ _ Hinv (conj Hh1 Hs) Ht) as [_ Hse]. eauto.
Qed.


(** The other handles do not meet the access, or [t] alone holds them. *)
Lemma access_other g gd :
  handles s !! g = Some gd → overlap r (h_range gd) → w = true ∨ h_frozen gd = false →
  t ∈ h_holders gd ∧ (w = true → h_holders gd = {[ t ]}).
Proof using All.
  intros Hg Ho Hc. destruct Hh as [Hh1 Hth].
  assert (x = TExcl h → g = h ∧ h_holders hd = {[ t ]}) as Hex.
  { intros ->. destruct (i_threads s Hinv _ _ _ Ht) as ((kd & Hk & Hks) & H1 & _). simplify_eq.
    split; [|done]. eauto using size_one_eq. }
  assert (g = h → t ∈ h_holders gd ∧ (w = true → h_holders gd = {[ t ]})) as Heq.
  { intros ->. simplify_eq. split; [done|]. intros [[? _]|[_ ?]%Hex]%Hw; done. }
  destruct (decide (g = h)) as [|Hne]; [auto|]. exfalso.
  destruct Hr as [Hin|[? _]%Hex]; [|done].
  pose proof (i_disj s Hinv) as Hd. destruct Hc as [Hww|Hf].
  - destruct (Hw Hww) as [[_ Hf]|[? _]%Hex]; [|done].
    apply (Hd h g hd gd ltac:(done) Hh1 Hg Hf). unfold overlap, within in *. lia.
  - apply (Hd g h gd hd Hne Hg Hh1 Hf). unfold overlap, within in *. lia.
Qed.

Lemma access_handle g gd :
  handles s !! g = Some gd →
  handle_ok (<[t := (v', x)]> (threads s)) (msgs s) (accs s ++ [mkAccess r w (v_evs v)]) gd.
Proof using All.
  intros Hg. destruct (handle_ok_grow _ _ _ t v v' x x _ Ht (vle_access _ _) (i_handles s Hinv g gd Hg))
    as [Hn Hwr Hrd]. split; [done| |].
  - intros u y z i a Hu Hy [Ha|[Hi Ha]]%lookup_app_Some Hwa Ho; [by eauto|].
    apply lookup_lt_Some in Ha as Hlt. simpl in Hlt. assert (i = length (accs s)) as -> by lia.
    rewrite Nat.sub_diag in Ha. injection Ha as <-. simpl in Hwa, Ho.
    destruct (access_other g gd Hg Ho (or_introl Hwa)) as [_ He].
    rewrite He in Hu by done. apply elem_of_singleton in Hu as ->. rewrite lookup_insert_eq in Hy.
    simplify_eq. simpl. set_solver.
  - intros i a Hf [Ha|[Hi Ha]]%lookup_app_Some Ho; [by eauto|].
    apply lookup_lt_Some in Ha as Hlt. simpl in Hlt. assert (i = length (accs s)) as -> by lia.
    rewrite Nat.sub_diag in Ha. injection Ha as <-. simpl in Ho.
    destruct (access_other g gd Hg Ho (or_intror Hf)) as [Hin _].
    exists t, v', x. rewrite lookup_insert_eq. split; [done|]. split; [done|]. simpl. set_solver.
Qed.

Lemma access_thread u y z :
  <[t := (v', x)]> (threads s) !! u = Some (y, z) → thread_ok (do_access s t v x r w) u y z.
Proof using All.
  intros [[<- [= <- <-]]|[Hn Hu]]%lookup_insert_Some.
  - destruct Hx as [-> | ->]; [done|]. destruct (i_threads s Hinv _ _ _ Ht) as (Ho & H1 & Hc & Ha).
    split; [done|]. split; [done|]. split; [done|]. intros i Hi. simpl in *.
    rewrite length_app in Hi. simpl in Hi. apply elem_of_union.
    destruct (decide (i = length (accs s))); [left; by apply elem_of_singleton|right; apply Ha; lia].
  - pose proof (i_threads s Hinv _ _ _ Hu) as Hok. destruct z as [|????|c|k c|k]; simpl in *; [done|done| | |].
    + destruct Hok as [|[|[|[-> _]]]]; [by left|by right; left|by right; right; left|].
      destruct (holder_live s t h hd Hinv Hh), (closing_count s u y _ Hinv Hu eq_refl). lia.
    + destruct Hok as [Ho [?|[?|[-> _]]]]; [split; auto..|].
      destruct Hn. symmetry. eapply (alone_owner s u y _ k); eauto.
    + destruct Hn. symmetry. eapply (alone_owner s u y _ k); eauto.
Qed.

Lemma inv_access : inv (do_access s t v x r w).
Proof using All.
  destruct (holder_live s t h hd Hinv Hh) as [Hc Hfr].
  pose proof Hinv as [_ _ Id Ic Ib Is Icl Icov Ir Ibd Im]. split; simpl; try done.
  - apply access_thread.
  - apply access_handle.
  - rewrite (tsum_insert _ _ _ _ _ Ht). simpl. unfold count in *. simpl in *. lia.
  - rewrite (tsum_insert _ _ _ _ _ Ht). simpl. unfold count in *. simpl in *. lia.
  - by rewrite map_size_insert_Some by (by rewrite Ht).
  - rewrite (tsum_insert _ _ _ _ _ Ht). simpl. unfold count in *. simpl in *. lia.
  - intros i Hi _. rewrite length_app in Hi. simpl in Hi.
    destruct (decide (i = length (accs s))) as [->|Hn].
    { right. exists t, v', x. rewrite lookup_insert_eq. split; [done|]. split; [set_solver|]. left. by exists h, hd. }
    destruct (Icov i ltac:(lia) Hfr) as [|(u & y & z & Hu & Hiy & Hs)]; [by left|right].
    destruct (decide (u = t)) as [->|Hut].
    + simplify_eq. exists t, v', x. rewrite lookup_insert_eq. split; [done|]. split; [by apply vle_access|done].
    + exists u, y, z. by rewrite lookup_insert_ne.
  - apply race_free_snoc; [done|apply access_conflict].
  - by rewrite Ibd, Hfr.
Qed.
End access.

(** ** Accesses to the count *)

Lemma touch_id s : inv s → freed s = false → touch s = s.
Proof. intros Hi Hf. pose proof (i_bad s Hi) as Hb. unfold touch. destruct s; simpl in *. by subst. Qed.

Lemma last_msg_snoc ms m : last_msg (ms ++ [m]) = m.
Proof.
  unfold last_msg, last_idx. rewrite length_app, Nat.add_1_r. simpl.
  rewrite app_nth2, Nat.sub_diag by lia. done.
Qed.

Lemma last_idx_snoc ms m : last_idx (ms ++ [m]) = length ms.
Proof. unfold last_idx. rewrite length_app, Nat.add_1_r. done. Qed.

Lemma lookup_last ms m : ms !! last_idx ms = Some m → last_msg ms = m.
Proof. intros H. unfold last_msg. by apply nth_lookup_Some. Qed.

Lemma newest_snoc ms m v : newest ms v → m_val (last_msg ms) ≠ 1 → newest (ms ++ [m]) v.
Proof.
  intros Hn Hl i m' Hi Hm Hv. rewrite last_idx_snoc.
  apply lookup_app_Some in Hm as [Hm|[? Hm]].
  - destruct Hl. pose proof (Hn i m' Hi Hm Hv) as ->. by rewrite (lookup_last _ _ Hm).
  - apply lookup_lt_Some in Hm. simpl in Hm. lia.
Qed.

Lemma newest_last ms m v : (length ms ≤ v_idx v)%nat → newest (ms ++ [m]) v.
Proof.
  intros Hl i m' Hi Hm _. rewrite last_idx_snoc. apply lookup_lt_Some in Hm.
  rewrite length_app in Hm. simpl in Hm. lia.
Qed.

Lemma handle_ok_snoc ths ms m ac hd :
  m_val (last_msg ms) ≠ 1 → handle_ok ths ms ac hd → handle_ok ths (ms ++ [m]) ac hd.
Proof.
  intros Hl [(t & v & x & ? & ? & ?) ? ?]. split; [|done..]. exists t, v, x. auto using newest_snoc.
Qed.

Lemma tsum_room f ths t v x :
  (∀ x, 0 ≤ f x ≤ 1) → ths !! t = Some (v, x) → f x = 0 → tsum f ths ≤ Z.of_nat (size ths) - 1.
Proof.
  intros Hf Ht Hx. rewrite (tsum_delete _ _ _ _ Ht). simpl. pose proof (tsum_bound f (delete t ths) Hf).
  rewrite map_size_delete_Some in * by (by rewrite Ht).
  assert (size ths ≠ 0%nat) by (intros ?%map_size_empty_inv; simplify_map_eq). lia.
Qed.

(** A message is added by the thread [t]. *)
Section rmw.
Context (s : state) (t : nat) (v v' : view) (x x' : task) (m : message).
Let s' : state := set_thread (set_msgs (touch s) (msgs s ++ [m])) t (v', x').
Hypothesis Hinv : inv s.
Hypothesis Hfr : freed s = false.
Hypothesis Ht : threads s !! t = Some (v, x).
Hypothesis Hv : vle v v'.
Hypothesis Hlast : (length (msgs s) ≤ v_idx v')%nat.
Hypothesis Hcount : m_val m = count s + weight x' - weight x.
Hypothesis Hbound : m_val m ≤ isize_max + 1 + tsum aborting (threads s) + aborting x' - aborting x.
Hypothesis Hclose : closing x' - closing x = Z.b2z (m_val m =? 0) - Z.b2z (count s =? 0).
Hypothesis Hok : thread_ok s' t v' x'.
(** Who else has a share keeps the count from 1. *)
Hypothesis Hother : ∀ u w y, u ≠ t → threads s !! u = Some (w, y) → weight y = 1 → count s ≠ 1.
Hypothesis Hhandle : ∀ h hd, handles s !! h = Some hd → t ∈ h_holders hd ∨ count s ≠ 1.
Hypothesis Halone : ∀ u w y, u ≠ t → threads s !! u = Some (w, y) →
  closing y = 0 ∧ ∀ k, ¬ (y = TExcl k ∨ y = TUnique k (PRet true)).
Hypothesis Hview : v_evs (m_view (last_msg (msgs s))) ⊆ v_evs (m_view m).
Hypothesis Hst : ∀ i, i ∈ v_evs v → stakeholder s t x → i ∈ v_evs (m_view m) ∨ i ∈ v_evs v' ∧ stakeholder s' t x'.

Lemma rmw_threads u w y : <[t := (v', x')]> (threads s) !! u = Some (w, y) → thread_ok s' u w y.
Proof using All.
  intros [[<- [= <- <-]]|[Hn Hu]]%lookup_insert_Some; [done|].
  assert (u ≠ t) as Hne by congruence. pose proof (i_threads s Hinv _ _ _ Hu) as Hy.
  destruct (Halone u w y Hne Hu) as [Hcy Hal].
  destruct y as [|h r r' c|c|h c|h]; simpl in *; [done| | | |].
  - destruct Hy as [? [?|[Hc Hnw]]]; [by split; [|left]|]. split; [done|right]. split; [done|].
    apply newest_snoc; [done|]. apply (Hother u w _ Hne Hu). simpl. by destruct Hc as [-> | ->].
  - destruct Hy as [|[|[[-> _]|[-> _]]]]; [by left|by right; left|done..].
  - destruct Hy as [? [?|[?|[-> _]]]]; [by split; auto..|]. destruct (Hal h). by right.
  - destruct (Hal h). by left.
Qed.

Lemma rmw_handles h hd : handles s !! h = Some hd →
  handle_ok (<[t := (v', x')]> (threads s)) (msgs s ++ [m]) (accs s) hd.
Proof using All.
  intros Hh. pose proof (i_handles s Hinv h hd Hh) as Hk. destruct (Hhandle h hd Hh) as [Hin|Hne].
  - pose proof (handle_ok_grow _ _ _ _ _ _ _ x' _ Ht Hv Hk) as [_ ? ?]. split; [|done..].
    exists t, v', x'. rewrite lookup_insert_eq. auto using newest_last.
  - eapply handle_ok_grow; eauto using handle_ok_snoc.
Qed.

Lemma inv_rmw : inv s'.
Proof using All.
  pose proof rmw_threads as Hthr. pose proof rmw_handles as Hhan. subst s'.
  pose proof Hinv as [_ _ Id Ic Ib Is Icl Icov Ir Ibd Im].
  split; simpl; try done; unfold count in *; simpl in *; rewrite ?last_msg_snoc.
  - rewrite (tsum_insert _ _ _ _ _ Ht). simpl. lia.
  - rewrite (tsum_insert _ _ _ _ _ Ht). simpl. lia.
  - by rewrite map_size_insert_Some by (by rewrite Ht).
  - rewrite (tsum_insert _ _ _ _ _ Ht). simpl. lia.
  - intros i Hi _. destruct (Icov i Hi Hfr) as [|(u & w & y & Hu & Hiw & Hs)]; [by left; apply Hview|].
    destruct (decide (u = t)) as [->|Hn].
    + simplify_eq. destruct (Hst i Hiw Hs) as [|[? ?]]; [by left|right].
      exists t, v', x'. by rewrite lookup_insert_eq.
    + right. exists u, w, y. by rewrite lookup_insert_ne.
  - by rewrite Ibd, Hfr.
  - by destruct (msgs s).
Qed.
End rmw.

Lemma size_two (hs : gmap nat handle) g h gd hd :
  g ≠ h → hs !! g = Some gd → hs !! h = Some hd → 2 ≤ Z.of_nat (size hs).
Proof.
  intros Hn Hg Hh. rewrite <-(size_delete_Z hs g gd Hg).
  rewrite <-(size_delete_Z (delete g hs) h hd) by (by rewrite lookup_delete_ne). lia.
Qed.

Lemma inv_fetch_add s t h r r' v n o k :
  inv s → threads s !! t = Some (v, TClone h r r' (FetchAdd n o k)) →
  let '(old, ms, v') := rmw (λ x, x + n) o (msgs s) v in
  inv (set_thread (set_msgs (touch s) ms) t (v', TClone h r r' (k old))).
Proof.
  intros Hi Ht. pose proof (i_threads s Hi _ _ _ Ht) as [(hd & Hh & Hcut) [Hc|[[?|?] _]]]; [|done..].
  injection Hc as -> -> ->. simpl. fold (count s). destruct (holder_live s t h hd Hi Hh) as [Hlo Hfr].
  pose proof Hh as [Hh1 Hin]. pose proof (size_delete_Z _ _ _ Hh1) as Hsz.
  pose proof (i_count s Hi) as Hcnt. pose proof (i_bound s Hi) as Hb. pose proof (i_size s Hi) as Hts.
  pose proof (tsum_room aborting _ _ _ _ aborting_range Ht eq_refl) as Hab.
  pose proof (tsum_bound aborting (threads s) aborting_range) as [Hab0 _].
  pose proof (tsum_bound weight (threads s) weight_range) as [Hw0 _].
  assert (uwrap 64 (count s + 1) = count s + 1) as Hu by (apply Z.mod_small; unfold isize_max in *; lia).
  rewrite Hu. apply (inv_rmw s t v _ (TClone h r r' increment_shared)); try done.
  - split; simpl; [done|lia].
  - simpl. lia.
  - simpl. destruct (isize_max <? count s); simpl; lia.
  - simpl. destruct (Z.ltb_spec isize_max (count s)); simpl; lia.
  - simpl. rewrite (proj2 (Z.eqb_neq _ _)), (proj2 (Z.eqb_neq _ _)) by lia. by destruct (isize_max <? count s).
  - simpl. split; [exists hd; by split|]. right. split; [destruct (isize_max <? count s); auto|].
    apply newest_last. simpl. lia.
  - intros u w y Hn Hu' Hy. pose proof (tsum_le weight _ _ _ _ weight_range Hu'). lia.
  - intros g gd Hg. destruct (decide (g = h)) as [->|Hn]; [left; by simplify_eq|right].
    pose proof (size_two _ _ _ _ _ Hn Hg Hh1). lia.
  - intros u w y Hn Hu'. split.
    + pose proof (closing_range y). destruct (decide (closing y = 1)) as [Hy|]; [|lia].
      destruct (closing_count s u w y Hi Hu' Hy). lia.
    + intros q Hq. apply Hn. by eapply alone_owner.
  - intros i Hiv _. right. split; [done|]. left. by exists h, hd.
Qed.

Lemma inv_fetch_sub s t v n o k :
  inv s → threads s !! t = Some (v, TDrop (FetchSub n o k)) →
  let '(old, ms, v') := rmw (λ x, x - n) o (msgs s) v in
  inv (set_thread (set_msgs (touch s) ms) t (v', TDrop (k old))).
Proof.
  intros Hi Ht. pose proof (i_threads s Hi _ _ _ Ht) as [Hc|[|[[? _]|[? _]]]]; [|done..].
  injection Hc as -> -> ->. simpl. fold (count s).
  pose proof (tsum_le weight _ _ _ _ weight_range Ht) as Hw1. simpl in Hw1.
  pose proof (i_count s Hi) as Hcnt. pose proof (i_bound s Hi) as Hb. pose proof (i_size s Hi) as Hts.
  pose proof (tsum_room aborting _ _ _ _ aborting_range Ht eq_refl) as Hab.
  assert (1 ≤ count s) as Hlo by lia.
  assert (freed s = false) as Hfr.
  { pose proof (i_close s Hi) as Hcl. pose proof (tsum_bound closing (threads s) closing_range).
    destruct (Z.eqb_spec (count s) 0); [lia|]. destruct (freed s); simpl in *; [lia|done]. }
  assert (uwrap 64 (count s - 1) = count s - 1) as Hu by (apply Z.mod_small; unfold isize_max in *; lia).
  rewrite Hu. apply (inv_rmw s t v _ (TDrop release_shared)); try done.
  - split; simpl; [done|lia].
  - simpl. lia.
  - simpl. destruct (negb (count s =? 1)); simpl; lia.
  - simpl. destruct (negb (count s =? 1)); simpl; lia.
  - simpl. rewrite (proj2 (Z.eqb_neq (count s) 0)) by lia.
    destruct (Z.eqb_spec (count s) 1) as [->|]; [done|]. simpl. rewrite (proj2 (Z.eqb_neq _ _)) by lia. done.
  - simpl. destruct (count s =? 1); simpl; [right; right; left|by right; left].
    split; [done|]. rewrite last_idx_snoc. lia.
  - intros u w y Hn Hu' Hy. pose proof (tsum_le2 weight _ _ _ _ _ _ _ weight_range (not_eq_sym Hn) Ht Hu') as H2.
    simpl in H2. lia.
  - intros g gd Hg. right. pose proof (size_delete_Z _ _ _ Hg). lia.
  - intros u w y Hn Hu'. split.
    + pose proof (closing_range y). destruct (decide (closing y = 1)) as [Hy|]; [|lia].
      destruct (closing_count s u w y Hi Hu' Hy). lia.
    + intros q Hq. destruct (exclusive_alone s u w y q Hi Hu' Hq) as (_ & H1 & Hc1 & _). lia.
  - simpl. set_solver.
  - intros i Hiv _. left. simpl. set_solver.
Qed.

Lemma inv_load_drop s t v o k i m :
  inv s → threads s !! t = Some (v, TDrop (Load o k)) → (v_idx v ≤ i)%nat → msgs s !! i = Some m →
  inv (set_thread (touch s) t (see o v i m, TDrop (k (m_val m)))).
Proof.
  intros Hi Ht Hle Hm. pose proof (i_threads s Hi _ _ _ Ht) as [Hc|[Hc|[[Hc Hl]|[Hc _]]]]; [done..| |done].
  injection Hc as -> ->. destruct (closing_count s t v _ Hi Ht eq_refl) as (Hc0 & Hfr & Hh & Hw).
  rewrite (touch_id s Hi Hfr). eapply inv_task; eauto with chiya. simpl. right. right. right. split; [done|].
  assert (i = last_idx (msgs s)) as -> by (apply lookup_lt_Some in Hm; unfold last_idx in *; lia).
  intros j Hj. destruct (i_cov s Hi j Hj Hfr) as [Hin|(u & w & y & Hu & _ & [(h & hd & Hhd & _)|Hy])].
  - rewrite (lookup_last _ _ Hm) in Hin. simpl. set_solver.
  - rewrite Hh in Hhd. simplify_map_eq.
  - pose proof (tsum_le weight _ _ _ _ weight_range Hu). lia.
Qed.

Lemma inv_load_unique s t h v o k i m :
  inv s → threads s !! t = Some (v, TUnique h (Load o k)) → (v_idx v ≤ i)%nat → msgs s !! i = Some m →
  inv (set_thread (touch s) t (see o v i m, TUnique h (k (m_val m)))).
Proof.
  intros Hi Ht Hle Hm. pose proof (i_threads s Hi _ _ _ Ht) as [(hd & Ho) [Hc|[Hc|[Hc _]]]]; [|done..].
  injection Hc as -> ->. destruct (holder_live s t h hd Hi (owns_holds _ _ _ _ Ho)) as [_ Hfr].
  rewrite (touch_id s Hi Hfr). eapply inv_task; eauto with chiya. simpl. split; [by exists hd|right].
  destruct (Z.eqb_spec (m_val m) 1) as [H1|]; [right; split; [done|]|by left].
  destruct (owner_sees _ _ _ _ _ _ Hi Ho Ht) as [Hn _]. pose proof (Hn i m Hle Hm H1) as ->.
  assert (count s = 1) as Hc1 by (unfold count; by rewrite (lookup_last _ _ Hm)).
  pose proof Ho as [Hh Hhs]. pose proof (i_count s Hi) as Hcnt. pose proof (size_delete_Z _ _ _ Hh).
  pose proof (tsum_bound weight (threads s) weight_range) as [Hw0 _].
  assert (size (handles s) = 1%nat) as Hs1 by lia. split; [done|]. split; [done|].
  intros j Hj. destruct (i_cov s Hi j Hj Hfr) as [Hin|(u & w & y & Hu & Hjw & [(g & gd & Hg & Hug)|Hy])].
  - rewrite (lookup_last _ _ Hm) in Hin. simpl. set_solver.
  - pose proof (size_one_eq _ _ _ _ _ Hs1 Hh Hg). simplify_eq. rewrite Hhs in Hug.
    apply elem_of_singleton in Hug as ->. simplify_eq. simpl. set_solver.
  - pose proof (tsum_le weight _ _ _ _ weight_range Hu). lia.
Qed.

Lemma inv_drop_box cap s t v k :
  inv s → threads s !! t = Some (v, TDrop (DropBox k)) →
  inv (set_freed (do_access s t v (TDrop k) (0, cap) true)).
Proof.
  intros Hi Ht. pose proof (i_threads s Hi _ _ _ Ht) as [Hc|[Hc|[[Hc _]|[Hc Ha]]]]; [done..|].
  injection Hc as ->. destruct (closing_count s t v _ Hi Ht eq_refl) as (Hc0 & Hfr & Hh & Hw).
  pose proof Hi as [It _ Id Ic Ib Is Icl Icov Ir Ibd Im].
  split; simpl; try done; unfold count in *; simpl in *.
  - intros u w y [[<- [= <- <-]]|[Hn Hu]]%lookup_insert_Some; [by right; left|].
    pose proof (It u w y Hu) as Hy. pose proof (tsum_le2 closing _ _ _ _ _ _ _ closing_range Hn Ht Hu) as H2.
    rewrite Hfr, Hc0 in Icl. unfold holds, owns in *. simpl in *.
    destruct y as [|? ? ? ?|c|? ?|?]; simpl in *; [done| | | |].
    + destruct Hy as [(hd & [Hg _] & _) _]. rewrite Hh in Hg. simplify_map_eq.
    + destruct Hy as [|[|[[-> _]|[-> _]]]]; [by left|by right; left|simpl in H2; lia..].
    + destruct Hy as [(hd & Hg & _) _]. rewrite Hh in Hg. simplify_map_eq.
    + destruct Hy as [(hd & Hg & _) _]. rewrite Hh in Hg. simplify_map_eq.
  - intros h hd Hg. rewrite Hh in Hg. simplify_map_eq.
  - rewrite (tsum_insert _ _ _ _ _ Ht). simpl. lia.
  - rewrite (tsum_insert _ _ _ _ _ Ht). simpl. lia.
  - by rewrite map_size_insert_Some by (by rewrite Ht).
  - rewrite (tsum_insert _ _ _ _ _ Ht). simpl. rewrite Hfr in Icl. simpl in Icl. lia.
  - apply race_free_snoc; [done|]. intros i b Hb _. apply Ha. by eapply lookup_lt_Some.
  - by rewrite Ibd, Hfr.
Qed.

(** ** The theorems *)

Lemma inv_step cap s s' : inv s → step cap s s' → inv s'.
Proof.
  intros Hi [t t' h hd v v' Ht Ht' Hn Hh|t t' h hd v v' Ht Ht' Hn Hh Hin|t h hd v r Ht Hh Hr|t h hd v r Ht Ho Hf Hr
    |t h hd v r fz Ht Ho Hr Hf|t h hd g gd v Ht Ho Hog Hn Hf Hfg Hr|t h hd v Ht Hh Hf|t h hd v r r' Ht Ho Hr Hr' Hd
    |t h hd v Ht Ho|t h hd v Ht Ho|t h r r' v n o k Ht|t v n o k Ht|t v o k i m Ht Hle Hm|t h v o k i m Ht Hle Hm
    |t v k Ht|t h h' hd r r' v Ht Hh Hh'|t v Ht|t h v b Ht|t h v r w Ht Hr|t h v r fz Ht Hr|t h r r' v Ht].
  - eapply inv_holders; eauto; set_solver.
  - eapply inv_holders; eauto; set_solver.
  - eapply inv_access; eauto. done.
  - eapply inv_access; eauto using owns_holds. intros _. left. by destruct Ho.
  - by eapply inv_reshape.
  - by eapply inv_unsplit.
  - eapply inv_task; eauto; try done. split; [|by left]. exists hd. split; [done|]. by left.
  - eapply inv_task; eauto; try done. split; [|by left]. exists hd. split; [by apply owns_holds|].
    right. by destruct Ho.
  - by eapply inv_drop.
  - eapply inv_task; eauto; try done. split; [by exists hd|by left].
  - by apply (inv_fetch_add s t h r r' v n o k).
  - by apply (inv_fetch_sub s t v n o k).
  - by eapply inv_load_drop.
  - by eapply inv_load_unique.
  - by eapply inv_drop_box.
  - by eapply inv_clone_ret.
  - eapply inv_task; eauto; done.
  - pose proof (i_threads s Hi _ _ _ Ht) as [Ho Hb]. destruct b; (eapply inv_task; eauto; try done).
    by destruct Hb as [|[|[_ ?]]].
  - destruct (i_threads s Hi _ _ _ Ht) as [(hd & Ho) _]. eapply inv_access; eauto using owns_holds.
  - by apply inv_leave.
  - by destruct Hi.
Qed.

Lemma inv_promoted cap ts t cut : t ∈ ts → Z.of_nat (size ts) ≤ isize_max → inv (promoted cap ts t cut).
Proof.
  intros Ht Hs. set (s := promoted cap ts t cut).
  assert (threads s !! t = Some (vempty, TIdle)) as Htt by (by apply lookup_gset_to_gmap_Some).
  assert (∀ u w y, threads s !! u = Some (w, y) → y = TIdle) as Hid
    by (intros u w y [_ [= <- <-]]%lookup_gset_to_gmap_Some; done).
  assert (∀ f, f TIdle = 0 → tsum f (threads s) = 0) as Hsum
    by (intros f Hf; apply tsum_zero; intros u w y ->%Hid; done).
  assert (count s = Z.of_nat (size (handles s)) ∧ 1 ≤ count s ≤ 2) as [Hc Hc12].
  { by destruct cut. }
  split; rewrite ?Hsum by done.
  - by intros u w y ->%Hid.
  - intros h hd Hh. assert (∃ r, hd = mkHandle r false {[ t ]}) as [r ->].
    { simpl in Hh. destruct cut as [k|]; [apply lookup_insert_Some in Hh as [[_ <-]|[_ Hh]]; [by eexists|]|];
        apply lookup_singleton_Some in Hh as [_ <-]; by eexists. }
    apply (handle_ok_owner _ _ _ _ _ _ _ _ Htt).
    + intros [|i] m _ Hm _; [done|]. by destruct i.
    + by intros i a.
  - intros h g hd gd Hn Hh Hg _. simpl in Hh, Hg. destruct cut as [k|].
    + apply lookup_insert_Some in Hh as [[<- <-]|[_ [<- <-]%lookup_singleton_Some]];
        apply lookup_insert_Some in Hg as [[<- <-]|[_ [<- <-]%lookup_singleton_Some]]; [done| | |done];
        unfold overlap; simpl; lia.
    + apply lookup_singleton_Some in Hh as [<- _]. by apply lookup_singleton_Some in Hg as [<- _].
  - lia.
  - unfold isize_max. lia.
  - simpl. by rewrite <-size_dom, dom_gset_to_gmap.
  - rewrite (proj2 (Z.eqb_neq _ _)) by lia. done.
  - simpl. lia.
  - by intros i j a b _ Ha.
  - done.
  - done.
Qed.

Lemma shared_inv_reach cap ts t cut s :
  t ∈ ts → Z.of_nat (size ts) ≤ isize_max → rtc (mstep cap) (promoted cap ts t cut) s → inv s.
Proof.
  intros Ht Hs. apply rtc_invariant; [by apply inv_promoted|].
  intros a b _ Ha [_ Hab]. by eapply inv_step.
Qed.

(** Views point into the list of values, so that a load always has one to read. *)
Record idx_ok (s : state) : Prop := {
  x_threads t v x : threads s !! t = Some (v, x) → (v_idx v < length (msgs s))%nat;
  x_msgs i m : msgs s !! i = Some m → (v_idx (m_view m) < length (msgs s))%nat }.

Lemma idx_set_thread s t v x :
  idx_ok s → (v_idx v < length (msgs s))%nat → idx_ok (set_thread s t (v, x)).
Proof. intros [Ht Hm] Hv. split; [|done]. simpl. intros u w y [[_ [= <- _]]|[_ ?]]%lookup_insert_Some; eauto. Qed.

Lemma idx_set_handles s hs : idx_ok s → idx_ok (set_handles s hs).
Proof. by intros []. Qed.

Lemma idx_do_access s t v x r w :
  idx_ok s → (v_idx v < length (msgs s))%nat → idx_ok (do_access s t v x r w).
Proof. intros [Ht Hm] Hv. apply idx_set_thread; [by split|done]. Qed.

Lemma idx_rmw s t v x f o :
  idx_ok s → (v_idx v < length (msgs s))%nat →
  let '(old, ms, v') := rmw f o (msgs s) v in idx_ok (set_thread (set_msgs (touch s) ms) t (v', x old)).
Proof.
  intros [Ht Hm] Hv. simpl. assert (v_idx (m_view (last_msg (msgs s))) < length (msgs s))%nat as Hl.
  { destruct (msgs s !! last_idx (msgs s)) as [m|] eqn:E; [rewrite (lookup_last _ _ E); eauto|].
    apply lookup_ge_None in E. unfold last_idx in E. lia. }
  apply idx_set_thread; [split|]; simpl; rewrite length_app; simpl.
  - intros u w y Hu. specialize (Ht u w y Hu). lia.
  - intros i m [Hi|[_ Hi]]%lookup_app_Some; [specialize (Hm i m Hi); lia|].
    destruct (i - length (msgs s))%nat; [|done]. injection Hi as <-. simpl. unfold see.
    destruct (releases o), (acquires o); simpl; lia.
  - unfold see. destruct (acquires o); simpl; lia.
Qed.

Lemma idx_see s o v i m :
  idx_ok s → (v_idx v < length (msgs s))%nat → msgs s !! i = Some m → (v_idx (see o v i m) < length (msgs s))%nat.
Proof.
  intros [_ Hm] Hv Hi. specialize (Hm i m Hi). apply lookup_lt_Some in Hi. unfold see.
  destruct (acquires o); simpl; lia.
Qed.

Lemma idx_step cap s s' : idx_ok s → step cap s s' → idx_ok s'.
Proof.
  intros Hx Hs. pose proof (x_threads s Hx) as Ht. assert (idx_ok (touch s)) as Hx' by by destruct Hx.
  destruct Hs as [| | | | | | | | | |t h r r' v n o k Htt|t v n o k Htt|t v o k i m Htt ? Hm|t h v o k i m Htt ? Hm
    |t v k Htt| | | | | |]; unfold idle in *.
  all: try (by eapply idx_do_access; eauto).
  all: try (by apply idx_set_thread; [auto using idx_set_handles|simpl;
    repeat match goal with H : threads _ !! _ = Some _ |- _ => apply Ht in H end; lia]).
  - by apply idx_set_handles.
  - apply (idx_rmw s t v (λ old, TClone h r r' (k old)) (λ x, x + n) o); eauto.
  - apply (idx_rmw s t v (λ old, TDrop (k old)) (λ x, x - n) o); eauto.
  - apply idx_set_thread; [done|]. eapply idx_see; eauto.
  - apply idx_set_thread; [done|]. eapply idx_see; eauto.
  - assert (idx_ok (do_access s t v (TDrop k) (0, cap) true)) as [] by (eapply idx_do_access; eauto). by split.
  - by destruct Hx.
Qed.

Lemma idx_reach cap ts t cut s : rtc (mstep cap) (promoted cap ts t cut) s → idx_ok s.
Proof.
  apply rtc_invariant; [|intros a b _ Ha [_ Hab]; by eapply idx_step]. split.
  - intros u w y [_ [= <- _]]%lookup_gset_to_gmap_Some. simpl. lia.
  - intros [|i] m Hm; [injection Hm as <-; simpl; lia|by destruct i].
Qed.

(** A thread in the middle of one of the functions can go on, or is about to abort. *)
Lemma can_move cap s t v x :
  inv s → idx_ok s → threads s !! t = Some (v, x) → x ≠ TIdle →
  ∃ s', step cap s s' ∧ (threads s' !! t ≠ threads s !! t ∨ aborted s' = true).
Proof.
  intros Hi Hx Ht Hn. pose proof (i_threads s Hi _ _ _ Ht) as Hok.
  assert (∃ m, msgs s !! v_idx v = Some m) as [m Hm].
  { apply lookup_lt_is_Some. by eapply x_threads. }
  destruct x as [|h r r' c|c|h c|h]; [done| | | |].
  - destruct Hok as [(hd & [Hh _] & _) [-> |[[-> | ->] _]]].
    + eexists. split; [by apply (step_fetch_add cap s t h r r' v)|left].
      simpl. rewrite lookup_insert_eq, Ht. by destruct (isize_max <? _).
    + pose proof (is_fresh (dom (handles s))) as Hf. apply not_elem_of_dom in Hf.
      eexists. split; [by eapply step_clone_ret|left]. simpl. by rewrite lookup_insert_eq, Ht.
    + eexists. split; [by eapply step_abort|by right].
  - destruct Hok as [-> |[-> |[[-> _]|[-> _]]]].
    + eexists. split; [by apply (step_fetch_sub cap s t v)|left].
      simpl. rewrite lookup_insert_eq, Ht. by destruct (negb _).
    + eexists. split; [by eapply step_drop_ret|left]. simpl. by rewrite lookup_insert_eq, Ht.
    + eexists. split; [by eapply step_load_drop|left]. simpl. by rewrite lookup_insert_eq, Ht.
    + eexists. split; [by eapply step_drop_box|left]. simpl. by rewrite lookup_insert_eq, Ht.
  - destruct Hok as [_ [-> |[-> |[-> _]]]].
    + eexists. split; [by eapply step_load_unique|left]. simpl. by rewrite lookup_insert_eq, Ht.
    + eexists. split; [by eapply step_unique_ret|left]. simpl. by rewrite lookup_insert_eq, Ht.
    + eexists. split; [by eapply step_unique_ret|left]. simpl. by rewrite lookup_insert_eq, Ht.
  - eexists. split; [by apply (step_leave cap s t h v (0, cap) true)|left].
    simpl. by rewrite lookup_insert_eq, Ht.
Qed.

(** What the invariant says about the count and the memory. *)
Lemma inv_count_facts s : inv s →
  bad s = false
  ∧ count s = Z.of_nat (size (handles s)) + tsum weight (threads s)
  ∧ 0 ≤ count s ≤ usize_max
  ∧ (handles s ≠ ∅ → freed s = false)
  ∧ (handles s = ∅ → (∀ u v x, threads s !! u = Some (v, x) → x = TIdle) → freed s = true).
Proof.
  intros Hi. pose proof (i_count s Hi) as Hc.
  pose proof (i_bound s Hi). pose proof (i_size s Hi). pose proof (i_close s Hi) as Hcl.
  pose proof (tsum_bound weight (threads s) weight_range). pose proof (tsum_bound closing (threads s) closing_range).
  pose proof (tsum_bound aborting (threads s) aborting_range).
  split_and!; [apply Hi|done|lia|unfold usize_max, isize_max in *; lia|..].
  - intros [h [hd Hh]]%map_choose. pose proof (size_delete_Z _ _ _ Hh).
    destruct (Z.eqb_spec (count s) 0); [lia|]. destruct (freed s); simpl in *; [lia|done].
  - intros He Hid. rewrite (tsum_zero weight) in Hc by (intros u v x ->%Hid; done).
    rewrite (tsum_zero closing) in Hcl by (intros u v x ->%Hid; done). rewrite Hc, He in Hcl.
    by destruct (freed s).
Qed.

(** C6: However threads clone, split, lend, send, merge, test and drop the handles of a
    [Shared], nothing is used after the free and nothing is freed twice; the count is
    the number of handles, of clones about to return and of drops about to begin, and
    never wraps; the memory is free when every handle is dropped and not before; and
    a thread in the middle of [increment_shared], [release_shared] or [is_unique] can
    always go on, or aborts. *)
Theorem shared_count_safe cap ts t cut s :
  t ∈ ts → Z.of_nat (size ts) ≤ isize_max → rtc (mstep cap) (promoted cap ts t cut) s →
  bad s = false
  ∧ count s = Z.of_nat (size (handles s)) + tsum weight (threads s)
  ∧ 0 ≤ count s ≤ usize_max
  ∧ (handles s ≠ ∅ → freed s = false)
  ∧ (handles s = ∅ → (∀ u v x, threads s !! u = Some (v, x) → x = TIdle) → freed s = true)
  ∧ (aborted s = false → ∀ u v x, threads s !! u = Some (v, x) → x ≠ TIdle →
      ∃ s', mstep cap s s' ∧ (threads s' !! u ≠ threads s !! u ∨ aborted s' = true)).
Proof.
  intros Ht Hs Hr. pose proof (shared_inv_reach _ _ _ _ _ Ht Hs Hr) as Hi.
  destruct (inv_count_facts s Hi) as (? & ? & ? & ? & ?). split_and!; try done; try lia.
  intros Ha u v x Hu Hx. destruct (can_move cap s u v x Hi (idx_reach _ _ _ _ _ Hr) Hu Hx) as (s' & ? & ?).
  exists s'. by split; [split|].
Qed.

(** C3: No two threads race on the bytes: of two overlapping accesses of which one
    writes or frees, the earlier happens before the later, by the orders on the count
    and the way handles are passed alone; and when [is_unique] has returned true no other
    thread and no other handle reaches the buffer, although the load may read old values. *)
Theorem shared_race_free cap ts t cut s :
  t ∈ ts → Z.of_nat (size ts) ≤ isize_max → rtc (mstep cap) (promoted cap ts t cut) s →
  race_free (accs s)
  ∧ ∀ u v h, threads s !! u = Some (v, TExcl h) →
      count s = 1 ∧ ∀ u' g gd, holds s u' g gd → u' = u ∧ g = h.
Proof.
  intros Ht Hs Hr. pose proof (shared_inv_reach _ _ _ _ _ Ht Hs Hr) as Hi. split; [apply Hi|].
  intros u v h Hu. pose proof (i_threads s Hi _ _ _ Hu) as ((hd & Hh & _) & H1 & Hc & _). split; [done|].
  intros u' g gd Hg. split; [symmetry; by eapply alone_owner; eauto|].
  destruct Hg as [Hg _]. eauto using size_one_eq.
Qed.

(** ** One thread

    The programs on the heap of [Mem], one access after the other. *)

Fixpoint run {A} (p : Ptr) (c : prog A) : M A :=
  match c with
  | PRet a => mret a
  | FetchAdd n _ k =>
      s ← get_shared p;
      set_shared p (mkShared (sh_vec s) (sh_repr s) (uwrap 64 (sh_ref s + n)));;
      run p (k (sh_ref s))
  | FetchSub n _ k =>
      s ← get_shared p;
      set_shared p (mkShared (sh_vec s) (sh_repr s) (uwrap 64 (sh_ref s - n)));;
      run p (k (sh_ref s))
  | Load _ k => s ← get_shared p; run p (k (sh_ref s))
  | DropBox k => drop_box_shared p;; run p k
  | PAbort => stopM SAbort
  end.

(** In one thread these are the operations of [BytesMut], on every heap. *)
Lemma run_sequential p h :
  run p increment_shared h = BytesMut.increment_shared p h
  ∧ run p release_shared h = BytesMut.release_shared p h
  ∧ run p is_unique h = (s ← get_shared p; mret (BytesMut.is_unique s)) h.
Proof.
  assert (∀ A (f : Shared → M A), (s ← get_shared p; f s) h =
    match prov p ≫= (λ k, objs h !! k) with
    | Some (a, OShared s) => if addr p =? a then f s h else Stop SUndef
    | _ => Stop SUndef
    end) as Hg.
  { intros A f. unfold get_shared, lookup_obj, mbind, M_bind. destruct (prov p); [simpl|done].
    destruct (objs h !! p0) as [[a []]|]; try done. simpl. by destruct (addr p =? a). }
  unfold BytesMut.increment_shared, BytesMut.release_shared, increment_shared, release_shared, is_unique.
  split_and!; cbn [run]; rewrite !Hg; [..|done];
    (destruct (prov p ≫= _) as [[a []]|] eqn:E; try done); (destruct (addr p =? a) eqn:Ea; [|done]).
  - by destruct (isize_max <? sh_ref s).
  - destruct (sh_ref s =? 1); [|done]. simpl. destruct (prov p) as [k|] eqn:Ep; [|done]. simpl in E.
    unfold mbind, M_bind, set_shared, get_shared, lookup_obj, set_obj, mbind, M_bind. rewrite Ep, E. simpl.
    rewrite Ea. simpl. rewrite lookup_insert_eq. simpl. rewrite Ea. simpl.
    by destruct (drop_box_shared p _) as [[[] ?]|].
Qed.

(** ** A run: the second half goes to another thread, which writes and drops it; then
    the first thread has the buffer for itself. *)

Tactic Notation "run_step" uconstr(R) :=
  eapply rtc_l; [split; [vm_compute; reflexivity|eapply R;
    lazymatch goal with
    | |- holds _ _ _ _ => split; [vm_compute; reflexivity|apply (bool_decide_unpack _); vm_compute; exact I]
    | |- owns _ _ _ _ => split; vm_compute; reflexivity
    | |- within _ _ => split; vm_compute; discriminate
    | |- _ ∈ _ => apply (bool_decide_unpack _); vm_compute; exact I
    | |- (_ ≤ _)%nat => vm_compute; lia
    | |- _ ≠ _ => discriminate
    | |- _ => vm_compute; reflexivity
    end]|];
  match goal with |- rtc _ ?s _ =>
    let s' := eval vm_compute in s in replace s with s' by (vm_compute; reflexivity)
  end.

Lemma run_unique : ∃ s v, rtc (mstep 8) (promoted 8 {[ 0%nat; 1%nat ]} 0 (Some 4)) s
  ∧ threads s !! 0%nat = Some (v, TExcl 0) ∧ length (accs s) = 2%nat ∧ aborted s = false.
Proof.
  do 2 eexists. split.
  - run_step (step_lend 8 _ 0 1 1).
    run_step (step_return 8 _ 0 1 1).
    run_step (step_write 8 _ 1 1 _ _ (5, 7)).
    run_step (step_drop 8 _ 1 1).
    run_step (step_fetch_sub 8 _ 1).
    run_step (step_unique 8 _ 0 0).
    run_step (step_load_unique 8 _ 0 0 _ _ _ 1).
    run_step (step_unique_ret 8 _ 0 0 _ true).
    run_step (step_excl 8 _ 0 0 _ (0, 8) true).
    apply rtc_refl.
  - split_and!; vm_compute; reflexivity.
Qed.

Lemma run_freed : ∃ s, rtc (mstep 8) (promoted 8 {[ 0%nat; 1%nat ]} 0 None) s
  ∧ handles s = ∅ ∧ (∀ u v x, threads s !! u = Some (v, x) → x = TIdle) ∧ length (accs s) = 2%nat.
Proof.
  eexists. split.
  - run_step (step_reshape 8 _ 0 0 _ _ (0, 6) true).
    run_step (step_lend 8 _ 0 1 0).
    run_step (step_clone 8 _ 1 0).
    run_step (step_fetch_add 8 _ 1).
    run_step (step_clone_ret 8 _ 1 0 1).
    run_step (step_return 8 _ 1 0 0).
    run_step (step_drop 8 _ 0 0).
    run_step (step_fetch_sub 8 _ 0).
    run_step (step_read 8 _ 1 1 _ _ (2, 6)).
    run_step (step_drop 8 _ 1 1).
    run_step (step_fetch_sub 8 _ 1).
    run_step (step_load_drop 8 _ 1 _ _ _ 3).
    run_step (step_drop_box 8 _ 1).
    run_step (step_drop_ret 8 _ 1).
    run_step (step_drop_ret 8 _ 0).
    apply rtc_refl.
  - split; [vm_compute; reflexivity|]. split; [|vm_compute; reflexivity].
    intros u v x Hu. apply (elem_of_map_to_list _ u) in Hu. vm_compute in Hu.
    by repeat (apply elem_of_cons in Hu as [[= -> -> ->]|Hu]); [..|apply elem_of_nil in Hu].
Qed.

Lemma shared_count_safe_witness : ∃ s,
  rtc (mstep 8) (promoted 8 {[ 0%nat; 1%nat ]} 0 None) s ∧ bad s = false ∧ freed s = true ∧ length (accs s) = 2%nat.
Proof.
  destruct run_freed as (s & Hr & Hh & Hid & Hn). exists s.
  destruct (shared_count_safe 8 {[ 0%nat; 1%nat ]} 0 None s) as (Hb & _ & _ & _ & Hf & _);
    [by apply (bool_decide_unpack _); vm_compute|by vm_compute|done|].
  split_and!; [done..|by apply Hf|done].
Defined.

Lemma shared_race_free_witness : ∃ s v,
  rtc (mstep 8) (promoted 8 {[ 0%nat; 1%nat ]} 0 (Some 4)) s ∧ threads s !! 0%nat = Some (v, TExcl 0)
  ∧ length (accs s) = 2%nat ∧ race_free (accs s) ∧ count s = 1.
Proof.
  destruct run_unique as (s & v & Hr & Ht & Hn & _). exists s, v.
  destruct (shared_race_free 8 {[ 0%nat; 1%nat ]} 0 (Some 4) s) as [Hf Hx];
    [by apply (bool_decide_unpack _); vm_compute|by vm_compute|done|].
  split_and!; [done..|by apply (Hx 0%nat v 0%nat)].
Defined.
