(* ===== verification/OwnedCount.v ===== *)
(** * [bytes.rs]: the reference count of [Owned] between threads

    The handles of [Bytes::from_owner] count themselves in an [OwnedLifetime].  Here
    [owned_clone] and [owned_drop_impl] are programs over that count in the machine of
    [RefCount], with the memory orders the source gives them: both accesses of
    [owned_drop_impl] are relaxed.  Every run is simulated by a run of the machine with
    [release_shared] in its place, so that the count is exact all the same; but nothing
    orders the reads of other threads before the drop of the owner. *)

From S2P Require Import Prelude Mem BytesMut Bytes RefCount.

(** ** The programs *)

Definition owned_clone_count : prog () :=
  FetchAdd 1 Relaxed (λ old_cnt, if Z.shiftr usize_max 1 <? old_cnt then PAbort else PRet ()).

Definition owned_drop_count : prog () :=
  FetchSub 1 Relaxed (λ old_cnt,
    if negb (old_cnt =? 1) then PRet ()
    else Load Relaxed (λ _, DropBox (PRet ()))).

(** In one thread, on the heap of [Mem]. *)
Fixpoint orun {A} (p : Ptr) (c : prog A) : M A :=
  match c with
  | PRet a => mret a
  | FetchAdd n _ k =>
      '(i, a, o) ← get_owned p; set_obj i a (OOwned (mkOwned (uwrap 64 (ow_ref o + n)) (ow_owner o)));; orun p (k (ow_ref o))
  | FetchSub n _ k =>
      '(i, a, o) ← get_owned p; set_obj i a (OOwned (mkOwned (uwrap 64 (ow_ref o - n)) (ow_owner o)));; orun p (k (ow_ref o))
  | Load _ k => '(_, _, o) ← get_owned p; orun p (k (ow_ref o))
  | DropBox k => owned_box_and_drop p;; orun p k
  | PAbort => stopM SAbort
  end.

(** ** The machine *)

(** The handles of an owner only read. *)
Section machine.
Variable cap : Z.

Inductive ostep (s : state) : state → Prop :=
| ostep_lend t t' h hd v v' :
    idle s t v → idle s t' v' → t ≠ t' → holds s t h hd →
    ostep s (set_thread (set_handles s (<[h := set_holders hd ({[ t' ]} ∪ h_holders hd)]> (handles s)))
                        t' (vjoin v' v, TIdle))
| ostep_return t t' h hd v v' :
    idle s t v → idle s t' v' → t ≠ t' → holds s t h hd → t' ∈ h_holders hd →
    ostep s (set_thread (set_handles s (<[h := set_holders hd (h_holders hd ∖ {[ t ]})]> (handles s)))
                        t' (vjoin v' v, TIdle))
| ostep_read t h hd v r :
    idle s t v → holds s t h hd → within r (h_range hd) →
    ostep s (do_access s t v TIdle r false)
| ostep_reshape t h hd v r :                        (* [advance], [truncate], ... *)
    idle s t v → owns s t h hd → within r (h_range hd) →
    ostep s (set_handles s (<[h := mkHandle r true {[ t ]}]> (handles s)))
| ostep_clone t h hd v :
    idle s t v → holds s t h hd →
    ostep s (set_thread s t (v, TClone h (h_range hd) (h_range hd) owned_clone_count))
| ostep_drop t h hd v :
    idle s t v → owns s t h hd →
    ostep s (set_thread (set_handles s (delete h (handles s))) t (v, TDrop owned_drop_count))
| ostep_fetch_add t h r r' v n o k :
    threads s !! t = Some (v, TClone h r r' (FetchAdd n o k)) →
    ostep s (let '(old, ms, v') := rmw (λ x, x + n) o (msgs s) v in
             set_thread (set_msgs (touch s) ms) t (v', TClone h r r' (k old)))
| ostep_fetch_sub t v n o k :
    threads s !! t = Some (v, TDrop (FetchSub n o k)) →
    ostep s (let '(old, ms, v') := rmw (λ x, x - n) o (msgs s) v in
             set_thread (set_msgs (touch s) ms) t (v', TDrop (k old)))
| ostep_load t v o k i m :
    threads s !! t = Some (v, TDrop (Load o k)) → (v_idx v ≤ i)%nat → msgs s !! i = Some m →
    ostep s (set_thread (touch s) t (see o v i m, TDrop (k (m_val m))))
| ostep_drop_box t v k :                            (* [owned_box_and_drop]: the owner frees its bytes *)
    threads s !! t = Some (v, TDrop (DropBox k)) →
    ostep s (set_freed (do_access s t v (TDrop k) (0, cap) true))
| ostep_clone_ret t h h' hd r r' v :
    threads s !! t = Some (v, TClone h r r' (PRet ())) → handles s !! h = Some hd →
    handles s !! h' = None →
    ostep s (set_thread (set_handles s
      (<[h' := mkHandle r' (h_frozen hd) {[ t ]}]> (<[h := mkHandle r (h_frozen hd) (h_holders hd)]> (handles s))))
                        t (v, TIdle))
| ostep_drop_ret t v :
    threads s !! t = Some (v, TDrop (PRet ())) → ostep s (set_thread s t (v, TIdle))
| ostep_abort t h r r' v :
    threads s !! t = Some (v, TClone h r r' PAbort) → ostep s (set_aborted s).

Definition omstep (s s' : state) : Prop := aborted s = false ∧ ostep s s'.

(** What [from_owner] leaves behind on the thread [t] of [ts]. *)
Definition owned_start (ts : gset nat) (t : nat) : state :=
  mkState [mkMsg 1 vempty] [] {[ 0%nat := mkHandle (0, cap) true {[ t ]} ]}
          (gset_to_gmap (vempty, TIdle) ts) false false false.
End machine.

(** ** The simulation by the machine with [release_shared] *)

Inductive psim : prog () → prog () → Prop :=
| psim_drop : psim owned_drop_count release_shared
| psim_load : psim (Load Relaxed (λ _, DropBox (PRet ()))) (Load Acquire (λ _, DropBox (PRet ())))
| psim_box : psim (DropBox (PRet ())) (DropBox (PRet ()))
| psim_ret : psim (PRet ()) (PRet ()).

Inductive tsim : task → task → Prop :=
| tsim_idle : tsim TIdle TIdle
| tsim_clone h r r' c : tsim (TClone h r r' c) (TClone h r r' c)
| tsim_drop c c' : psim c c' → tsim (TDrop c) (TDrop c').

#[local] Hint Constructors psim tsim : core.

(** The same values of the count, handles and tasks; the views are free. *)
Record sim (s s' : state) : Prop := {
  sim_msgs : m_val <$> msgs s = m_val <$> msgs s';
  sim_handles : handles s = handles s';
  sim_threads t : option_Forall2 (λ a b, tsim a.2 b.2) (threads s !! t) (threads s' !! t);
  sim_freed : freed s = freed s';
  sim_bad : bad s = bad s';
  sim_aborted : aborted s = aborted s';
  sim_frozen h hd : handles s !! h = Some hd → h_frozen hd = true;
}.

Lemma sim_task s s' t v x : sim s s' → threads s !! t = Some (v, x) →
  ∃ v' x', threads s' !! t = Some (v', x') ∧ tsim x x'.
Proof.
  intros Hs Ht. pose proof (sim_threads _ _ Hs t) as Ho. rewrite Ht in Ho.
  inversion Ho as [? [v' x'] Hx|]; subst. eauto.
Qed.

Lemma sim_idle s s' t v : sim s s' → idle s t v → ∃ v', idle s' t v'.
Proof. intros Hs Ht. destruct (sim_task _ _ _ _ _ Hs Ht) as (v' & x' & ? & Hx). inversion Hx; subst. eauto. Qed.

Lemma sim_set_thread s s' t v v' x x' : sim s s' → tsim x x' → sim (set_thread s t (v, x)) (set_thread s' t (v', x')).
Proof.
  intros [] Hx. split; simpl; try done. intros u. destruct (decide (u = t)) as [->|].
  - rewrite !lookup_insert_eq. by constructor.
  - by rewrite !lookup_insert_ne.
Qed.

Lemma sim_set_handles s s' hs : sim s s' → (∀ h hd, hs !! h = Some hd → h_frozen hd = true) →
  sim (set_handles s hs) (set_handles s' hs).
Proof. intros [] ?. by split. Qed.

Lemma sim_insert s s' h hd : sim s s' → h_frozen hd = true →
  sim (set_handles s (<[h := hd]> (handles s))) (set_handles s' (<[h := hd]> (handles s'))).
Proof.
  intros Hs Hf. rewrite <-(sim_handles _ _ Hs). apply sim_set_handles; [done|].
  intros g gd [[_ <-]|[_ ?]]%lookup_insert_Some; [done|]. by eapply (sim_frozen _ _ Hs).
Qed.

Lemma sim_touch s s' : sim s s' → sim (touch s) (touch s').
Proof. intros []. split; simpl; try done; congruence. Qed.

Lemma sim_access s s' t v v' x x' r w : sim s s' → tsim x x' → sim (do_access s t v x r w) (do_access s' t v' x' r w).
Proof. intros [] ?. apply sim_set_thread; [|done]. split; simpl; try done; congruence. Qed.

Lemma last_val ms ms' : m_val <$> ms = m_val <$> ms' → m_val (last_msg ms) = m_val (last_msg ms').
Proof.
  intros E. unfold last_msg, last_idx. rewrite <-!(map_nth m_val).
  replace (length ms) with (length ms') by (apply (f_equal length) in E; by rewrite !length_fmap in E).
  f_equal. exact E.
Qed.

(** A read-modify-write in both machines, with any orders. *)
Lemma sim_rmw s s' f o o' t v v' x x' :
  sim s s' → (∀ old, tsim (x old) (x' old)) →
  sim (let '(old, ms, v1) := rmw f o (msgs s) v in set_thread (set_msgs (touch s) ms) t (v1, x old))
      (let '(old, ms, v1) := rmw f o' (msgs s') v' in set_thread (set_msgs (touch s') ms) t (v1, x' old)).
Proof.
  intros Hs Hx. pose proof (last_val _ _ (sim_msgs _ _ Hs)) as El.
  cbv beta iota zeta delta [rmw]. rewrite El. apply sim_set_thread; [|done].
  destruct (sim_touch _ _ Hs) as [Hm ? ? ? ? ? ?]. split; try done.
  change (msgs (set_msgs ?x ?y)) with y. rewrite !fmap_app. simpl in Hm. rewrite Hm. done.
Qed.

Lemma holds_sim s s' t h hd : sim s s' → holds s t h hd → holds s' t h hd ∧ h_frozen hd = true.
Proof. intros Hs [Hh ?]. split; [|by eapply (sim_frozen _ _ Hs)]. split; [by rewrite <-(sim_handles _ _ Hs)|done]. Qed.

Lemma owns_sim s s' t h hd : sim s s' → owns s t h hd → owns s' t h hd.
Proof. intros Hs [Hh ?]. split; [by rewrite <-(sim_handles _ _ Hs)|done]. Qed.

(** The load is of a value that is not used: the other machine reads the last one. *)
Lemma load_last s t v x : idx_ok s → threads s !! t = Some (v, x) →
  ∃ m, (v_idx v ≤ last_idx (msgs s))%nat ∧ msgs s !! last_idx (msgs s) = Some m.
Proof.
  intros Hx Ht. apply (x_threads s Hx) in Ht. unfold last_idx.
  destruct (lookup_lt_is_Some_2 (msgs s) (pred (length (msgs s)))) as [m Hm]; [lia|]. exists m. split; [lia|done].
Qed.

Lemma sim_step cap s s1 s' : sim s s' → idx_ok s' → ostep cap s s1 → ∃ s1', step cap s' s1' ∧ sim s1 s1'.
Proof.
  intros Hs Hx Ho. pose proof (sim_handles _ _ Hs) as Eh.
  destruct Ho as [t t' h hd v v' Hi Hi' Hn Hh|t t' h hd v v' Hi Hi' Hn Hh Ht'|t h hd v r Hi Hh Hr|t h hd v r Hi Hw Hr
    |t h hd v Hi Hh|t h hd v Hi Hw|t h r r' v n o k Ht|t v n o k Ht|t v o k i m Ht Hle Hm|t v k Ht
    |t h h' hd r r' v Ht Hh Hh'|t v Ht|t h r r' v Ht].
  - destruct (sim_idle _ _ _ _ Hs Hi) as [w Hi1], (sim_idle _ _ _ _ Hs Hi') as [w' Hi1'], (holds_sim _ _ _ _ _ Hs Hh).
    eexists. split; [by apply (step_lend cap s' t t' h hd w w')|]. apply sim_set_thread; [by apply sim_insert|done].
  - destruct (sim_idle _ _ _ _ Hs Hi) as [w Hi1], (sim_idle _ _ _ _ Hs Hi') as [w' Hi1'], (holds_sim _ _ _ _ _ Hs Hh).
    eexists. split; [by apply (step_return cap s' t t' h hd w w')|]. apply sim_set_thread; [by apply sim_insert|done].
  - destruct (sim_idle _ _ _ _ Hs Hi) as [w Hi1], (holds_sim _ _ _ _ _ Hs Hh).
    eexists. split; [by apply (step_read cap s' t h hd w r)|]. by apply sim_access.
  - destruct (sim_idle _ _ _ _ Hs Hi) as [w Hi1]. pose proof (owns_sim _ _ _ _ _ Hs Hw).
    eexists. split; [by apply (step_reshape cap s' t h hd w r true)|]. by apply sim_insert.
  - destruct (sim_idle _ _ _ _ Hs Hi) as [w Hi1], (holds_sim _ _ _ _ _ Hs Hh).
    eexists. split; [by apply (step_clone cap s' t h hd w)|]. by apply sim_set_thread.
  - destruct (sim_idle _ _ _ _ Hs Hi) as [w Hi1]. pose proof (owns_sim _ _ _ _ _ Hs Hw).
    eexists. split; [by apply (step_drop cap s' t h hd w)|]. apply sim_set_thread; [|by auto]. rewrite <-Eh.
    apply sim_set_handles; [done|]. intros g gd [_ ?]%lookup_delete_Some. by eapply (sim_frozen _ _ Hs).
  - destruct (sim_task _ _ _ _ _ Hs Ht) as (w & x' & Ht1 & Hx'). inversion Hx'; subst.
    eexists. split; [by eapply step_fetch_add|]. by apply sim_rmw.
  - destruct (sim_task _ _ _ _ _ Hs Ht) as (w & x' & Ht1 & Hx'). inversion Hx' as [| |c c' Hc]; subst. inversion Hc; subst.
    eexists. split; [by eapply step_fetch_sub|]. apply sim_rmw; [done|]. intros old. destruct (old =? 1); auto.
  - destruct (sim_task _ _ _ _ _ Hs Ht) as (w & x' & Ht1 & Hx'). inversion Hx' as [| |c c' Hc]; subst. inversion Hc; subst.
    destruct (load_last _ _ _ _ Hx Ht1) as (m' & ? & ?).
    eexists. split; [by eapply step_load_drop|]. apply sim_set_thread; [by apply sim_touch|auto].
  - destruct (sim_task _ _ _ _ _ Hs Ht) as (w & x' & Ht1 & Hx'). inversion Hx' as [| |c c' Hc]; subst. inversion Hc; subst.
    eexists. split; [by eapply step_drop_box|].
    destruct (sim_access s s' t v w (TDrop (PRet ())) (TDrop (PRet ())) (0, cap) true Hs) as [? ? ? ? ? ? ?]; [auto|]. by split.
  - destruct (sim_task _ _ _ _ _ Hs Ht) as (w & x' & Ht1 & Hx'). inversion Hx'; subst. rewrite Eh in Hh, Hh'.
    eexists. split; [by eapply step_clone_ret|]. apply sim_set_thread; [|done]. rewrite <-Eh in Hh |- *.
    apply sim_set_handles; [done|]. pose proof (sim_frozen _ _ Hs) as Hf.
    intros g gd [[_ <-]|[_ [[_ <-]|[_ ?]]%lookup_insert_Some]]%lookup_insert_Some; simpl; eauto.
  - destruct (sim_task _ _ _ _ _ Hs Ht) as (w & x' & Ht1 & Hx'). inversion Hx' as [| |c c' Hc]; subst. inversion Hc; subst.
    eexists. split; [by eapply step_drop_ret|]. by apply sim_set_thread.
  - destruct (sim_task _ _ _ _ _ Hs Ht) as (w & x' & Ht1 & Hx'). inversion Hx'; subst.
    eexists. split; [by eapply step_abort|]. by destruct Hs.
Qed.

Lemma sim_start cap ts t : t ∈ ts → ∃ s', mstep cap (promoted cap ts t None) s' ∧ sim (owned_start cap ts t) s'.
Proof.
  intros Ht. eexists. split.
  - split; [done|]. eapply (step_reshape cap _ t 0 _ vempty (0, cap) true); [|split; [reflexivity|done]|split; simpl; lia|done].
    unfold idle. simpl. by apply lookup_gset_to_gmap_Some.
  - split; simpl; try done.
    + intros u. destruct (gset_to_gmap (vempty, TIdle) ts !! u) as [[v x]|] eqn:E; constructor.
      apply lookup_gset_to_gmap_Some in E as [_ [= <- <-]]. done.
    + by intros h hd [_ <-]%lookup_singleton_Some.
Qed.

Lemma sim_reach cap ts t s : t ∈ ts → rtc (omstep cap) (owned_start cap ts t) s →
  ∃ s', rtc (mstep cap) (promoted cap ts t None) s' ∧ sim s s'.
Proof.
  intros Ht. apply (rtc_invariant _ (λ s, ∃ s', rtc (mstep cap) (promoted cap ts t None) s' ∧ sim s s')).
  - destruct (sim_start cap ts t Ht) as (s' & ? & ?). exists s'. split; [by apply rtc_once|done].
  - intros a b _ (s' & Hr' & Hs) [Ha Ho].
    destruct (sim_step cap a b s' Hs (idx_reach _ _ _ _ _ Hr') Ho) as (s1' & ? & ?).
    exists s1'. split; [|done]. eapply rtc_r; [done|]. split; [|done]. by rewrite <-(sim_aborted _ _ Hs).
Qed.

Lemma tsim_weight x x' : tsim x x' → weight x = weight x'.
Proof. by intros [| |c c' []]. Qed.

Lemma sim_tsum s s' : sim s s' → tsum weight (threads s) = tsum weight (threads s').
Proof.
  intros Hs. assert ((λ x, weight x.2) <$> threads s = (λ x, weight x.2) <$> threads s') as E.
  { apply map_eq. intros t. rewrite !lookup_fmap. destruct (sim_threads _ _ Hs t) as [a b Hab|]; [|done].
    simpl. f_equal. by apply tsim_weight. }
  assert (∀ ths, tsum weight ths = map_fold (λ _ w n, w + n) 0 ((λ x, weight x.2) <$> ths)) as Hm.
  { intros ths. by rewrite map_fold_fmap. }
  by rewrite !Hm, E.
Qed.

(** C14: However threads clone, lend, send and drop the handles of an owner: the count is
    the number of handles, of clones about to return and of drops about to begin and
    never wraps, the owner is dropped when every handle is and not before, and in the
    order of the accesses nothing is used after that. *)
Theorem owned_count_exact cap ts t s :
  t ∈ ts → Z.of_nat (size ts) ≤ isize_max → rtc (omstep cap) (owned_start cap ts t) s →
  bad s = false
  ∧ count s = Z.of_nat (size (handles s)) + tsum weight (threads s)
  ∧ 0 ≤ count s ≤ usize_max
  ∧ (handles s ≠ ∅ → freed s = false)
  ∧ (handles s = ∅ → (∀ u v x, threads s !! u = Some (v, x) → x = TIdle) → freed s = true).
Proof.
  intros Ht Hl Hr. destruct (sim_reach cap ts t s Ht Hr) as (s' & Hr' & Hs).
  pose proof (shared_inv_reach _ _ _ _ _ Ht Hl Hr') as Hi.
  destruct (inv_count_facts s' Hi) as (Hb & Hc & Hu & Hf & He).
  assert (count s = count s') as Ec by (apply last_val, Hs).
  rewrite Ec, (sim_handles _ _ Hs), (sim_tsum _ _ Hs), (sim_freed _ _ Hs), (sim_bad _ _ Hs).
  split_and!; try done; [apply Hu..|]. intros Hh Hid. apply He; [done|]. intros u v x Hx.
  pose proof (sim_threads _ _ Hs u) as Ho. rewrite Hx in Ho. inversion Ho as [[w y] b Hy Hw|]; subst.
  symmetry in Hw. apply Hid in Hw. simpl in *. subst y. by inversion Hy.
Qed.

(** In one thread the programs are the operations of [Bytes], on every heap. *)
Lemma orun_sequential p q len h :
  owned_drop_impl p h = orun p owned_drop_count h
  ∧ owned_clone p q len h = (orun p owned_clone_count;; mret (mkBytes q len p OWNED_VTABLE)) h.
Proof.
  unfold owned_drop_impl, owned_clone, orun, owned_drop_count, owned_clone_count, mbind, M_bind.
  destruct (get_owned p h) as [[[[k a] o] h1]|] eqn:E; [|done]. simpl. split.
  - destruct (Z.eqb_spec (ow_ref o) 1) as [E1|E1]; [|done]. simpl.
    assert (prov p = Some k ∧ addr p = a ∧ h1 = h) as (Ep & Ea & ->).
    { unfold get_owned, lookup_obj, mbind, M_bind in E. destruct (prov p) as [k'|]; [|done].
      destruct (objs h !! k') as [[a' []]|]; try done. simpl in E. destruct (Z.eqb_spec (addr p) a'); [|done].
      by injection E as -> -> -> ->. }
    unfold get_owned, lookup_obj, mbind, M_bind. rewrite Ep. simpl. rewrite lookup_insert_eq. simpl.
    rewrite Ea, Z.eqb_refl. simpl. by destruct (owned_box_and_drop p _) as [[[] ?]|].
  - by destruct (_ <? ow_ref o).
Qed.

(** ** Runs *)

(** A clone is sent to a second thread, which reads and drops it; the first drops the
    last handle, and with it the owner. *)
Lemma run_owned : ∃ s, rtc (omstep 8) (owned_start 8 {[ 0%nat; 1%nat ]} 0) s
  ∧ (mkAccess (2, 6) false ∅ :: [mkAccess (0, 8) true ∅]) = accs s
  ∧ handles s = ∅ ∧ (∀ u v x, threads s !! u = Some (v, x) → x = TIdle).
Proof.
  eexists. split.
  - run_step (ostep_clone 8 _ 0 0).
    run_step (ostep_fetch_add 8 _ 0).
    run_step (ostep_clone_ret 8 _ 0 0 1).
    run_step (ostep_lend 8 _ 0 1 1).
    run_step (ostep_return 8 _ 0 1 1).
    run_step (ostep_read 8 _ 1 1 _ _ (2, 6)).
    run_step (ostep_drop 8 _ 1 1).
    run_step (ostep_fetch_sub 8 _ 1).
    run_step (ostep_drop_ret 8 _ 1).
    run_step (ostep_drop 8 _ 0 0).
    run_step (ostep_fetch_sub 8 _ 0).
    run_step (ostep_load 8 _ 0 _ _ _ 3).
    run_step (ostep_drop_box 8 _ 0).
    run_step (ostep_drop_ret 8 _ 0).
    apply rtc_refl.
  - split; [vm_compute; reflexivity|]. split; [vm_compute; reflexivity|].
    intros u v x Hu. apply (elem_of_map_to_list _ u) in Hu. vm_compute in Hu.
    by repeat (apply elem_of_cons in Hu as [[= -> -> ->]|Hu]); [..|apply elem_of_nil in Hu].
Qed.

(** C15: The drop of the owner races with the last uses of its bytes: there is a run of two
    threads in which one reads through its handle and drops it, the other drops the last
    handle and with it the owner, and the read does not happen before the free. *)
Theorem owned_drop_races : ∃ s, rtc (omstep 8) (owned_start 8 {[ 0%nat; 1%nat ]} 0) s ∧ ¬ race_free (accs s).
Proof.
  destruct run_owned as (s & Hr & Ha & _). exists s. split; [done|]. rewrite <-Ha. intros Hf.
  assert (0%nat ∈ (∅ : gset nat)) as Hin.
  { apply (Hf 0%nat 1%nat (mkAccess (2, 6) false ∅) (mkAccess (0, 8) true ∅)); [lia|done|done|].
    split; [unfold overlap; simpl; lia|by right]. }
  by apply elem_of_empty in Hin.
Qed.

Lemma owned_count_exact_witness : ∃ s,
  rtc (omstep 8) (owned_start 8 {[ 0%nat; 1%nat ]} 0) s ∧ bad s = false ∧ freed s = true.
Proof.
  destruct run_owned as (s & Hr & _ & Hh & Hid). exists s.
  destruct (owned_count_exact 8 {[ 0%nat; 1%nat ]} 0 s) as (Hb & _ & _ & _ & Hf);
    [by apply (bool_decide_unpack _); vm_compute|by vm_compute|done|].
  split; [exact Hr|]. split; [exact Hb|]. by apply Hf.
Defined.
