(* ===== verification/OwnerLife.v ===== *)
(** * [Bytes::from_owner] for any owner: [bytes/src/bytes.rs]

    The owner is any value that shows a slice ([AsRef<[u8]>], which may panic) and that
    is dropped.  The boxes of [Owned] hold a count and the owner; dropping an owner is
    recorded.  Programs over such handles refine a machine that drops an owner when the
    last handle of it goes. *)

From S2P Require Import Prelude.

Section owner.
Context {T : Type} (as_ref : T → comp (list byte)).

(** A handle: the address of its box, and the slice it shows. *)
Record gbytes := mkG { g_data : nat; g_slice : list byte }.

(** [Owned<T>] with its [OwnedLifetime]; the next address; the owners dropped so far. *)
Record gstate := mkGstate { g_boxes : gmap nat (Z * T); g_next : nat; g_drops : list T }.

Definition set_boxes (m : gmap nat (Z * T)) (s : gstate) : gstate := mkGstate m (g_next s) (g_drops s).

(** The box behind a pointer; to use one that was freed is undefined behaviour. *)
Definition get_box (p : nat) : stm gstate (Z * T) := λ s,
  match g_boxes s !! p with Some b => Ret (b, s) | None => Stop SUndef end.

Definition g_box_and_drop (p : nat) : stm gstate () :=
  '(_, owner) ← get_box p;
  modify (λ s, mkGstate (delete p (g_boxes s)) (g_next s) (g_drops s ++ [owner])).

Definition g_drop_impl (owned : nat) : stm gstate () :=
  '(old_cnt, owner) ← get_box owned;
  modify (λ s, set_boxes (<[owned := (uwrap 64 (old_cnt - 1), owner)]> (g_boxes s)) s);;
  if negb (old_cnt =? 1) then mret () else get_box owned;; g_box_and_drop owned.

Definition g_clone (b : gbytes) : stm gstate gbytes :=
  '(old_cnt, owner) ← get_box (g_data b);
  modify (λ s, set_boxes (<[g_data b := (uwrap 64 (old_cnt + 1), owner)]> (g_boxes s)) s);;
  if Z.shiftr usize_max 1 <? old_cnt then stop_st SAbort else
  mret (mkG (g_data b) (g_slice b)).

(** A panic of [as_ref] unwinds and drops [ret]. *)
Definition g_from_owner (owner : T) : stm gstate (result gbytes panic) :=
  owned ← gets g_next;
  modify (λ s, mkGstate (<[owned := (1, owner)]> (g_boxes s)) (S owned) (g_drops s));;
  let ret := mkG owned [] in
  match as_ref owner with
  | Ret buf => mret (Ok (mkG (g_data ret) buf))
  | Stop (SPanic p) => g_drop_impl (g_data ret);; mret (Err p)
  | Stop x => stop_st x
  end.

(** The bytes belong to the owner. *)
Definition g_read (b : gbytes) : stm gstate (list byte) := get_box (g_data b);; mret (g_slice b).

Definition g_to_vec (b : gbytes) : stm gstate (list byte) := g_read b.
Definition g_to_mut (b : gbytes) : stm gstate (list byte) :=
  v ← g_to_vec b; g_drop_impl (g_data b);; mret v.

(** ** Programs *)

(** A variable is the position of a handle in the list of all handles made so far;
    [None] is a handle that was moved. *)
Inductive gop :=
| GNew (owner : T)
| GClone (v : nat)
| GRead (v : nat)
| GDrop (v : nat)
| GToVec (v : nat)
| GToMut (v : nat).

Inductive gobs := OBytes (bs : list byte) | OPanic (p : panic).

Definition gvars := list (option gbytes).

Definition gstep (o : gop) (vs : gvars) : option (stm gstate (list gobs * gvars)) :=
  match o with
  | GNew owner => Some (
      r ← g_from_owner owner;
      mret (match r with Ok b => ([], vs ++ [Some b]) | Err p => ([OPanic p], vs) end))
  | GClone v => b ← vs !! v ≫= id; Some (c ← g_clone b; mret ([], vs ++ [Some c]))
  | GRead v => b ← vs !! v ≫= id; Some (x ← g_read b; mret ([OBytes x], vs))
  | GDrop v => b ← vs !! v ≫= id; Some (g_drop_impl (g_data b);; mret ([], <[v := None]> vs))
  | GToVec v => b ← vs !! v ≫= id; Some (x ← g_to_vec b; mret ([OBytes x], <[v := None]> vs))
  | GToMut v => b ← vs !! v ≫= id; Some (x ← g_to_mut b; mret ([OBytes x], <[v := None]> vs))
  end.

(** [None] for a program that uses a handle it does not have. *)
Fixpoint grun (ops : list gop) (vs : gvars) (s : gstate) : option (comp (list gobs * gvars * gstate)) :=
  match ops with
  | [] => Some (Ret ([], vs, s))
  | o :: ops =>
      m ← gstep o vs;
      match m s with
      | Ret ((x, vs'), s') =>
          r ← grun ops vs' s'; Some ('(y, vs'', s'') ← r; Ret (x ++ y, vs'', s''))
      | Stop e => Some (Stop e)
      end
  end.

(** ** The abstract machine *)

(** The owners by number, the numbers that a call of [to_vec] keeps alive for ever, and
    the numbers of those that were dropped. *)
Record gspec := mkGspec { sp_owners : list T; sp_leaks : list nat; sp_drops : list nat }.

Definition held (vs : gvars) : list nat := omap (fmap g_data) vs.

(** How many handles keep the owner [k] alive. *)
Definition refs (k : nat) (vs : gvars) (sp : gspec) : nat := count_occ Nat.eq_dec (held vs ++ sp_leaks sp) k.

(** The handle in [v] goes; its owner too, if it was the last. *)
Definition sp_release (v : nat) (b : gbytes) (vs : gvars) (sp : gspec) : gvars * gspec :=
  let vs := <[v := None]> vs in
  (vs, if Nat.eq_dec (refs (g_data b) vs sp) 0 then mkGspec (sp_owners sp) (sp_leaks sp) (sp_drops sp ++ [g_data b]) else sp).

Definition gspec_step (o : gop) (vs : gvars) (sp : gspec) : option (comp (list gobs * gvars * gspec)) :=
  match o with
  | GNew owner =>
      let k := length (sp_owners sp) in
      let owners := sp_owners sp ++ [owner] in
      Some (match as_ref owner with
            | Ret buf => Ret ([], vs ++ [Some (mkG k buf)], mkGspec owners (sp_leaks sp) (sp_drops sp))
            | Stop (SPanic p) => Ret ([OPanic p], vs, mkGspec owners (sp_leaks sp) (sp_drops sp ++ [k]))
            | Stop x => Stop x
            end)
  | GClone v => b ← vs !! v ≫= id; Some (Ret ([], vs ++ [Some b], sp))
  | GRead v => b ← vs !! v ≫= id; Some (Ret ([OBytes (g_slice b)], vs, sp))
  | GDrop v => b ← vs !! v ≫= id; Some (let '(vs, sp) := sp_release v b vs sp in Ret ([], vs, sp))
  | GToVec v =>
      b ← vs !! v ≫= id;
      Some (Ret ([OBytes (g_slice b)], <[v := None]> vs, mkGspec (sp_owners sp) (g_data b :: sp_leaks sp) (sp_drops sp)))
  | GToMut v => b ← vs !! v ≫= id; Some (let '(vs, sp) := sp_release v b vs sp in Ret ([OBytes (g_slice b)], vs, sp))
  end.

Fixpoint gspec_run (ops : list gop) (vs : gvars) (sp : gspec) : option (comp (list gobs * gvars * gspec)) :=
  match ops with
  | [] => Some (Ret ([], vs, sp))
  | o :: ops =>
      r ← gspec_step o vs sp;
      match r with
      | Ret (x, vs', sp') =>
          r ← gspec_run ops vs' sp'; Some ('(y, vs'', sp'') ← r; Ret (x ++ y, vs'', sp''))
      | Stop e => Some (Stop e)
      end
  end.
End owner.
Arguments gstate T : clear implicits.
Arguments gspec T : clear implicits.
Arguments gop T : clear implicits.

(** ** The relation *)

Section laws.
Context {T : Type}.
Implicit Types (vs : gvars) (s : gstate T) (sp : gspec T).

(** The count of a box is the number of references to its owner, and an owner was
    dropped if it has none. *)
Record grel vs s sp : Prop := {
  gr_next : g_next s = length (sp_owners sp);
  gr_boxes k : g_boxes s !! k
    = (o ← sp_owners sp !! k; if Nat.eq_dec (refs k vs sp) 0 then None else Some (Z.of_nat (refs k vs sp), o));
  gr_drops : g_drops s = omap (sp_owners sp !!.) (sp_drops sp);
  gr_held k : k ∈ held vs ++ sp_leaks sp → (k < length (sp_owners sp))%nat;
  gr_once : NoDup (sp_drops sp);
  gr_gone k : k ∈ sp_drops sp ↔ (k < length (sp_owners sp))%nat ∧ refs k vs sp = 0%nat;
}.

Definition room vs sp : Prop := Z.of_nat (length (held vs ++ sp_leaks sp)) < 2 ^ 63.

Lemma refs_bound k vs sp : (refs k vs sp ≤ length (held vs ++ sp_leaks sp))%nat.
Proof. apply count_occ_bound. Qed.

Lemma held_release vs v b : vs !! v = Some (Some b) → held vs ≡ₚ g_data b :: held (<[v := None]> vs).
Proof.
  intros Hv. destruct (insert_head _ _ _ Hv) as (l & Hl & Hi). unfold held. rewrite (Hi None). by rewrite Hl.
Qed.

Lemma refs_perm k (vs vs' : gvars) sp (sp' : gspec T) :
  held vs ++ sp_leaks sp ≡ₚ held vs' ++ sp_leaks sp' → refs k vs sp = refs k vs' sp'.
Proof. intros Hp. unfold refs. by apply (proj1 (Permutation_count_occ Nat.eq_dec _ _)). Qed.

Lemma refs_cons k j (vs vs' : gvars) sp (sp' : gspec T) :
  held vs ++ sp_leaks sp ≡ₚ j :: held vs' ++ sp_leaks sp' →
  refs k vs sp = if Nat.eq_dec j k then S (refs k vs' sp') else refs k vs' sp'.
Proof. intros Hp. unfold refs. rewrite (proj1 (Permutation_count_occ Nat.eq_dec _ _) Hp k). done. Qed.

(** A variable that holds a handle has a box with its owner. *)
Lemma box_of_var vs s sp v b : grel vs s sp → vs !! v = Some (Some b) →
  ∃ o, sp_owners sp !! g_data b = Some o ∧ refs (g_data b) vs sp ≠ 0%nat
    ∧ g_boxes s !! g_data b = Some (Z.of_nat (refs (g_data b) vs sp), o).
Proof.
  intros Hr Hv. pose proof (held_release _ _ _ Hv) as Hp.
  destruct (lookup_lt_is_Some_2 (sp_owners sp) (g_data b)) as [o Ho].
  { apply (gr_held _ _ _ Hr). rewrite Hp. set_solver. }
  assert (refs (g_data b) vs sp ≠ 0%nat) as Hn.
  { rewrite (refs_cons _ (g_data b) vs (<[v := None]> vs) sp sp) by (by rewrite Hp).
    destruct (Nat.eq_dec _ _); [lia|done]. }
  exists o. split; [done|]. split; [done|]. rewrite (gr_boxes _ _ _ Hr), Ho. simpl. by destruct (Nat.eq_dec _ _).
Qed.

Lemma drop_impl_ok vs s sp v b :
  grel vs s sp → room vs sp → vs !! v = Some (Some b) →
  ∃ s', g_drop_impl (g_data b) s = Ret ((), s')
    ∧ grel (sp_release v b vs sp).1 s' (sp_release v b vs sp).2.
Proof.
  intros Hr Hroom Hv. destruct (box_of_var _ _ _ _ _ Hr Hv) as (o & Ho & Hn & Hb).
  pose proof (held_release _ _ _ Hv) as Hp. set (vs' := <[v := None]> vs) in *. set (k := g_data b) in *.
  assert (∀ j, refs j vs sp = if Nat.eq_dec k j then S (refs j vs' sp) else refs j vs' sp) as Hj.
  { intros j. apply refs_cons. by rewrite Hp. }
  pose proof (Hj k) as Hk. destruct (Nat.eq_dec k k) as [_|]; [|done].
  pose proof (refs_bound k vs sp) as Hbd. unfold room in Hroom.
  assert (uwrap 64 (Z.of_nat (refs k vs sp) - 1) = Z.of_nat (refs k vs' sp)) as Ew.
  { unfold uwrap. rewrite Z.mod_small; lia. }
  assert (∀ x, x ∈ held vs' ++ sp_leaks sp → (x < length (sp_owners sp))%nat) as Hheld.
  { intros x Hx. apply (gr_held _ _ _ Hr). rewrite Hp. set_solver. }
  unfold g_drop_impl, get_box, mbind, stm_bind, modify. rewrite Hb. simpl. unfold sp_release. fold vs' k.
  destruct (Z.eqb_spec (Z.of_nat (refs k vs sp)) 1) as [E1|E1]; simpl.
  - unfold g_box_and_drop, get_box, mbind, stm_bind, modify. simpl. repeat (rewrite lookup_insert_eq; simpl).
    eexists. split; [done|]. destruct (Nat.eq_dec (refs k vs' sp) 0) as [E0|]; [|lia]. simpl.
    destruct Hr as [Hnx Hbx Hdr Hhd Hnd Hgo]. split; simpl; try done.
    + intros j. destruct (decide (j = k)) as [->|Hne].
      * rewrite lookup_delete_eq, Ho. simpl. unfold refs in *. simpl. by destruct (Nat.eq_dec _ _).
      * rewrite lookup_delete_ne, lookup_insert_ne by done. rewrite Hbx, Hj. by destruct (Nat.eq_dec k j).
    + rewrite omap_app. simpl. by rewrite Ho, Hdr.
    + apply list.NoDup_app. split; [done|]. split; [|apply NoDup_singleton].
      intros x Hx ->%list_elem_of_singleton. apply Hgo in Hx as [_ Hx]. lia.
    + intros j. rewrite elem_of_app, list_elem_of_singleton, Hgo.
      change (refs j vs' (mkGspec _ _ _)) with (refs j vs' sp). pose proof (Hj j) as Hjj.
      apply lookup_lt_Some in Ho. destruct (Nat.eq_dec k j) as [<-|]; split; intros; [lia|by right|lia|left; lia].
  - eexists. split; [done|]. destruct (Nat.eq_dec (refs k vs' sp) 0) as [E0|_]; [lia|]. simpl.
    destruct Hr as [Hnx Hbx Hdr Hhd Hnd Hgo]. split; simpl; try done.
    + intros j. destruct (decide (j = k)) as [->|Hne].
      * rewrite lookup_insert_eq, Ho, Ew. simpl. destruct (Nat.eq_dec _ _); [lia|done].
      * rewrite lookup_insert_ne by done. rewrite Hbx, Hj. by destruct (Nat.eq_dec k j).
    + intros j. rewrite Hgo. pose proof (Hj j). destruct (Nat.eq_dec k j) as [<-|]; lia.
Qed.

(** ** One operation *)

Context (as_ref : T → comp (list byte)).

(** A new reference to an owner that has one. *)
Lemma clone_ok vs s sp v b :
  grel vs s sp → room vs sp → vs !! v = Some (Some b) →
  ∃ s', g_clone b s = Ret (b, s') ∧ grel (vs ++ [Some b]) s' sp.
Proof.
  intros Hr Hroom Hv. destruct (box_of_var _ _ _ _ _ Hr Hv) as (o & Ho & Hn & Hb).
  pose proof (refs_bound (g_data b) vs sp) as Hbd. unfold room in Hroom.
  assert (held (vs ++ [Some b]) ++ sp_leaks sp ≡ₚ g_data b :: held vs ++ sp_leaks sp) as Hp.
  { unfold held. rewrite omap_app. simpl. rewrite <-app_assoc. simpl. by rewrite <-Permutation_middle. }
  assert (∀ j, refs j (vs ++ [Some b]) sp = if Nat.eq_dec (g_data b) j then S (refs j vs sp) else refs j vs sp) as Hj
    by (intros j; by apply refs_cons).
  unfold g_clone, get_box, mbind, stm_bind, modify. rewrite Hb. simpl.
  destruct (Z.ltb_spec (Z.shiftr usize_max 1) (Z.of_nat (refs (g_data b) vs sp))) as [Hlt|_].
  { change (Z.shiftr usize_max 1) with (2 ^ 63 - 1) in Hlt. lia. }
  eexists. split; [by destruct b|]. destruct Hr as [Hnx Hbx Hdr Hhd Hnd Hgo]. split; simpl; try done.
  - intros j. rewrite Hj. destruct (decide (j = g_data b)) as [->|Hne].
    + rewrite lookup_insert_eq, Ho. simpl. destruct (Nat.eq_dec (g_data b) (g_data b)); [|done].
      destruct (Nat.eq_dec _ _); [lia|]. do 2 f_equal. unfold uwrap. rewrite Z.mod_small; lia.
    + rewrite lookup_insert_ne, Hbx by done. by destruct (Nat.eq_dec (g_data b) j).
  - intros k Hk. rewrite Hp in Hk. apply elem_of_cons in Hk as [->|Hk]; [by eapply lookup_lt_Some|eauto].
  - intros j. rewrite Hgo, Hj. destruct (Nat.eq_dec (g_data b) j) as [<-|]; lia.
Qed.

(** The new owner has no references yet. *)
Lemma refs_fresh vs s sp : grel vs s sp → refs (length (sp_owners sp)) vs sp = 0%nat.
Proof.
  intros Hr. apply count_occ_not_In. intros Hin%list_elem_of_In. apply (gr_held _ _ _ Hr) in Hin. lia.
Qed.

Lemma owners_snoc (l : list T) (o : T) k : (k < length l)%nat → (l ++ [o]) !! k = l !! k.
Proof. intros. by apply lookup_app_l. Qed.

Lemma drops_snoc vs s sp o : grel vs s sp →
  omap ((sp_owners sp ++ [o]) !!.) (sp_drops sp) = omap (sp_owners sp !!.) (sp_drops sp).
Proof.
  intros Hr. assert (∀ k, k ∈ sp_drops sp → (k < length (sp_owners sp))%nat) as Hd
    by (intros k Hk; by apply (gr_gone _ _ _ Hr) in Hk as [? _]).
  induction (sp_drops sp) as [|k ks IH]; [done|]. csimpl. rewrite owners_snoc by (apply Hd; left).
  rewrite IH by (intros j Hj; apply Hd; by right). done.
Qed.

Lemma new_ok vs s sp owner buf (k := length (sp_owners sp)) : grel vs s sp →
  grel (vs ++ [Some (mkG k buf)]) (mkGstate (<[k := (1, owner)]> (g_boxes s)) (S k) (g_drops s))
    (mkGspec (sp_owners sp ++ [owner]) (sp_leaks sp) (sp_drops sp)).
Proof.
  intros Hr. pose proof (refs_fresh _ _ _ Hr) as H0. fold k in H0.
  set (sp' := mkGspec _ _ _).
  assert (held (vs ++ [Some (mkG k buf)]) ++ sp_leaks sp ≡ₚ k :: held vs ++ sp_leaks sp) as Hp.
  { unfold held. rewrite omap_app. simpl. rewrite <-app_assoc. simpl. by rewrite <-Permutation_middle. }
  assert (∀ j, refs j (vs ++ [Some (mkG k buf)]) sp' = if Nat.eq_dec k j then S (refs j vs sp) else refs j vs sp) as Hj
    by (intros j; apply refs_cons; exact Hp).
  pose proof (drops_snoc vs s sp owner Hr) as Hds. destruct Hr as [Hnx Hbx Hdr Hhd Hnd Hgo]. split; simpl.
  - rewrite length_app. simpl. lia.
  - intros j. rewrite Hj. destruct (decide (j = k)) as [->|Hne].
    + rewrite lookup_insert_eq. unfold k at 4. rewrite list_lookup_middle by done. simpl.
      destruct (Nat.eq_dec k k); [|done]. by rewrite H0.
    + rewrite lookup_insert_ne, Hbx by done. destruct (Nat.eq_dec k j); [done|].
      destruct (decide (j < k)%nat); [by rewrite owners_snoc|].
      rewrite (lookup_ge_None_2 (sp_owners sp)), (lookup_ge_None_2 (_ ++ _)); [done|rewrite length_app; simpl; lia|lia].
  - congruence.
  - intros j Hjj. rewrite Hp in Hjj. rewrite length_app. simpl.
    apply elem_of_cons in Hjj as [->|Hjj]; [lia|]. apply Hhd in Hjj. lia.
  - done.
  - intros j. rewrite Hgo, Hj, length_app. simpl. fold k. destruct (Nat.eq_dec k j) as [<-|]; lia.
Qed.

Lemma new_panic_ok vs s sp owner (k := length (sp_owners sp)) : grel vs s sp →
  grel vs (mkGstate (delete k (<[k := (uwrap 64 (1 - 1), owner)]> (<[k := (1, owner)]> (g_boxes s)))) (S k) (g_drops s ++ [owner]))
    (mkGspec (sp_owners sp ++ [owner]) (sp_leaks sp) (sp_drops sp ++ [k])).
Proof.
  intros Hr. pose proof (refs_fresh _ _ _ Hr) as H0. fold k in H0.
  pose proof (drops_snoc vs s sp owner Hr) as Hds. destruct Hr as [Hnx Hbx Hdr Hhd Hnd Hgo]. split; simpl.
  - rewrite length_app. simpl. lia.
  - intros j. change (refs j vs (mkGspec _ _ _)) with (refs j vs sp). destruct (decide (j = k)) as [->|Hne].
    + rewrite lookup_delete_eq, H0. by destruct (_ !! _).
    + rewrite lookup_delete_ne, !lookup_insert_ne, Hbx by done.
      destruct (decide (j < k)%nat); [by rewrite owners_snoc|].
      rewrite (lookup_ge_None_2 (sp_owners sp)), (lookup_ge_None_2 (_ ++ _)); [done|rewrite length_app; simpl; lia|lia].
  - rewrite omap_app. simpl. unfold k. rewrite list_lookup_middle by done. congruence.
  - intros j Hjj. rewrite length_app. simpl. apply Hhd in Hjj. lia.
  - apply list.NoDup_app. split; [done|]. split; [|apply NoDup_singleton].
    intros x Hx ->%list_elem_of_singleton. apply Hgo in Hx as [? _]. lia.
  - intros j. change (refs j vs (mkGspec _ _ _)) with (refs j vs sp).
    rewrite elem_of_app, list_elem_of_singleton, Hgo, length_app. simpl. fold k.
    destruct (decide (j = k)) as [->|]; lia.
Qed.

(** [to_vec] gives up the handle and keeps the reference. *)
Lemma leak_ok vs s sp v b : grel vs s sp → vs !! v = Some (Some b) →
  grel (<[v := None]> vs) s (mkGspec (sp_owners sp) (g_data b :: sp_leaks sp) (sp_drops sp)).
Proof.
  intros Hr Hv. assert (held vs ++ sp_leaks sp ≡ₚ held (<[v := None]> vs) ++ g_data b :: sp_leaks sp) as Hp.
  { rewrite (held_release _ _ _ Hv). by rewrite <-Permutation_middle. }
  set (sp' := mkGspec _ _ _). assert (∀ j, refs j vs sp = refs j (<[v := None]> vs) sp') as Hj
    by (intros j; by apply refs_perm).
  destruct Hr as [Hnx Hbx Hdr Hhd Hnd Hgo]. split; try done; intros j.
  - by rewrite <-Hj, Hbx.
  - intros Hjj. apply Hhd. by rewrite Hp.
  - by rewrite <-Hj.
Qed.

(** The same observations and variables in related states, or the same stop. *)
Definition agree (n : nat) (m : comp (list gobs * gvars * gstate T)) (r : comp (list gobs * gvars * gspec T)) : Prop :=
  match m, r with
  | Ret (x, vs, s), Ret (x', vs', sp) =>
      x = x' ∧ vs = vs' ∧ grel vs s sp ∧ (length (held vs ++ sp_leaks sp) ≤ n)%nat
  | Stop e, Stop e' => e = e'
  | _, _ => False
  end.

Definition size_of vs sp : nat := length (held vs ++ sp_leaks sp).

Lemma size_release v b vs sp : vs !! v = Some (Some b) →
  (size_of (sp_release v b vs sp).1 (sp_release v b vs sp).2 ≤ S (size_of vs sp))%nat.
Proof.
  intros Hv. unfold size_of. pose proof (held_release _ _ _ Hv) as Hp%Permutation_length. simpl in Hp.
  unfold sp_release. simpl. destruct (Nat.eq_dec _ _); simpl; rewrite !length_app; lia.
Qed.

Lemma from_owner_agrees vs s sp owner : grel vs s sp →
  ∃ m r, gstep as_ref (GNew owner) vs = Some m ∧ gspec_step as_ref (GNew owner) vs sp = Some r
    ∧ agree (S (size_of vs sp)) (m s) r.
Proof.
  intros Hr. do 2 eexists. split; [done|]. split; [done|]. pose proof (gr_next _ _ _ Hr) as Hn.
  unfold size_of, g_from_owner, gets, modify, mbind, stm_bind. simpl. rewrite Hn.
  destruct (as_ref owner) as [buf|[]]; simpl; try done.
  - split; [done|]. split; [done|]. split; [by apply new_ok|]. unfold held. rewrite omap_app, !length_app. simpl. lia.
  - unfold g_drop_impl, g_box_and_drop, get_box, modify, mbind, stm_bind. simpl. repeat (rewrite lookup_insert_eq; simpl).
    split; [done|]. split; [done|]. split; [by apply new_panic_ok|lia].
Qed.

Lemma gstep_agrees o vs s sp : grel vs s sp → room vs sp →
  (gstep as_ref o vs = None ∧ gspec_step as_ref o vs sp = None)
  ∨ ∃ m r, gstep as_ref o vs = Some m ∧ gspec_step as_ref o vs sp = Some r ∧ agree (S (size_of vs sp)) (m s) r.
Proof.
  intros Hr Hroom. destruct o as [owner|v|v|v|v|v]; [right; by apply from_owner_agrees|..]; simpl.
  all: destruct (vs !! v) as [[b|]|] eqn:Hv; simpl; [|by left..].
  all: right; do 2 eexists; split; [reflexivity|]; split; [reflexivity|].
  all: unfold g_to_mut, g_to_vec, g_read, get_box, mbind, stm_bind.
  all: destruct (box_of_var _ _ _ _ _ Hr Hv) as (o & _ & _ & Hb); rewrite ?Hb.
  - destruct (clone_ok _ _ _ _ _ Hr Hroom Hv) as (s' & -> & Hr'). simpl. split_and!; try done.
    unfold size_of, held. rewrite omap_app, !length_app. simpl. lia.
  - simpl. split_and!; try done. unfold size_of. lia.
  - destruct (drop_impl_ok _ _ _ _ _ Hr Hroom Hv) as (s' & -> & Hr'). pose proof (size_release _ _ _ sp Hv).
    split; [done|]. split; [done|]. split; [exact Hr'|assumption].
  - simpl. split_and!; try done; [by apply leak_ok|]. unfold size_of.
    pose proof (held_release _ _ _ Hv) as Hp%Permutation_length. simpl in Hp. rewrite !length_app. simpl. lia.
  - simpl. destruct (drop_impl_ok _ _ _ _ _ Hr Hroom Hv) as (s' & -> & Hr'). pose proof (size_release _ _ _ sp Hv).
    split; [done|]. split; [done|]. split; [exact Hr'|assumption].
Qed.

Lemma grun_agrees ops vs s sp : grel vs s sp → Z.of_nat (size_of vs sp + length ops) < 2 ^ 63 →
  (grun as_ref ops vs s = None ∧ gspec_run as_ref ops vs sp = None)
  ∨ ∃ m r, grun as_ref ops vs s = Some m ∧ gspec_run as_ref ops vs sp = Some r
      ∧ agree (size_of vs sp + length ops) m r.
Proof.
  revert vs s sp. induction ops as [|o ops IH]; intros vs s sp Hr Hsz.
  - right. do 2 eexists. do 2 (split; [done|]). simpl. split_and!; try done. unfold size_of. lia.
  - simpl length in *. destruct (gstep_agrees o vs s sp Hr) as [[E1 E2]|(m & r & E1 & E2 & Hag)].
    { unfold room. fold (size_of vs sp). lia. }
    { left. simpl. by rewrite E1, E2. }
    simpl. rewrite E1, E2. simpl. destruct (m s) as [[[x vs1] s1]|e], r as [[[x' vs1'] sp1]|e']; simpl in Hag; try done.
    + destruct Hag as (<- & <- & Hr1 & Hle). fold (size_of vs1 sp1) in Hle.
      destruct (IH vs1 s1 sp1 Hr1) as [[-> ->]|(m' & r' & -> & -> & Hag')]; [lia|by left|].
      right. do 2 eexists. do 2 (split; [done|]).
      destruct m' as [[[y vs2] s2]|], r' as [[[y' vs2'] sp2]|]; simpl in *; try done.
      destruct Hag' as (<- & <- & Hr2 & Hle2). split_and!; try done. lia.
    + right. subst e'. do 2 eexists. by do 2 (split; [done|]).
Qed.

(** C13: handles of any owners: every program does what the machine of references does, and
    nothing undefined.  A handle shows the slice of its own owner; an owner is dropped
    exactly once, when its last handle is dropped or becomes a [BytesMut], or when its
    [as_ref] panics, and an owner of which a handle became a [Vec] is never dropped. *)
Theorem owner_dropped_once ops :
  Z.of_nat (length ops) < 2 ^ 63 →
  match gspec_run as_ref ops [] (mkGspec [] [] []) with
  | None => grun as_ref ops [] (mkGstate ∅ 0 []) = None
  | Some (Stop e) => grun as_ref ops [] (mkGstate ∅ 0 []) = Some (Stop e)
  | Some (Ret (x, vs, sp)) => ∃ s, grun as_ref ops [] (mkGstate ∅ 0 []) = Some (Ret (x, vs, s))
      ∧ g_drops s = omap (sp_owners sp !!.) (sp_drops sp) ∧ NoDup (sp_drops sp)
      ∧ ∀ k, k ∈ sp_drops sp ↔ (k < length (sp_owners sp))%nat ∧ refs k vs sp = 0%nat
  end.
Proof.
  intros Hsz. destruct (grun_agrees ops [] (mkGstate ∅ 0 []) (mkGspec [] [] [])) as [[-> ->]|(m & r & -> & -> & Hag)].
  - split; simpl; try done; [by intros k Hk; apply elem_of_nil in Hk|constructor|].
    intros k. split; [by intros Hk; apply elem_of_nil in Hk|lia].
  - done.
  - done.
  - destruct m as [[[x vs] s]|e], r as [[[x' vs'] sp]|e']; simpl in Hag; try done; [|by subst].
    destruct Hag as (<- & <- & Hr & _). exists s. split; [done|]. split; [apply Hr|]. split; apply Hr.
Qed.
End laws.

(** ** Witness *)

(** Numbers as owners: 0 panics, others show themselves. *)
Definition small (n : nat) : comp (list byte) :=
  match n with O => Stop (SPanic PExplicit) | _ => Ret (replicate n Byte.x41) end.

Definition owner_ops : list (gop nat) :=
  [GNew 2; GClone 0; GNew 0; GDrop 0; GNew 3; GRead 1; GToMut 1; GToVec 2]%nat.

Lemma owner_dropped_once_witness : ∃ s vs,
  grun small owner_ops [] (mkGstate ∅ 0 []) = Some (Ret ([OPanic PExplicit; OBytes (replicate 2 Byte.x41);
    OBytes (replicate 2 Byte.x41); OBytes (replicate 3 Byte.x41)], vs, s)) ∧ g_drops s = [0%nat; 2%nat].
Proof.
  pose proof (owner_dropped_once small owner_ops ltac:(simpl; lia)) as H. revert H.
  destruct (gspec_run small owner_ops [] (mkGspec [] [] [])) as [[[[x vs] sp]|]|] eqn:E; vm_compute in E; try discriminate E.
  intros (s & Hr & Hd & _). injection E as <- <- <-. exists s, [None; None; None]. split; [exact Hr|]. rewrite Hd. reflexivity.
Defined.
