(* ===== verification/BytesClient.v ===== *)
(** * Programs over [BytesMut] and [Bytes] handles together

    The client of [BytesMutClient] also freezes its buffers, makes [Bytes] from slices
    and owners, clones, splits, slices and drops them, and turns them back into [BytesMut].  It looks at
    a handle before it calls an operation that [bytes.rs] gets wrong for it
    ([allowed]) and stops there. *)

From S2P Require Import Prelude RustVec Mem Buf BufAdapters.
From S2P Require Import BytesMut Bytes World BytesMutSpec BytesMutGrow BytesMutOps BytesSpec BytesConv.
From S2P Require Import BytesMutClient BytesMutProps.

(** ** Commands *)

(** [XMut c] runs a command on the [BytesMut] handles; the others name a [Bytes], or
    with [XFreeze] a [BytesMut], by its position. *)
Inductive bcmd :=
| XMut (c : cmd)
| XCopy (bs : list byte)
| XFromOwner (bs : list byte)     (** [Bytes::from_owner] of a vector of [bs] *)
| XFreeze (i : nat)
| XIntoMut (i : nat)
| XClone (i : nat)
| XSplitOff (i : nat) (at_ : Z)
| XSplitTo (i : nat) (at_ : Z)
| XSlice (i : nat) (lo hi : Z)
| XTruncate (i : nat) (n : Z)
| XAdvance (i : nat) (n : Z)
| XRead (i : nat)
| XDrop (i : nat).

Definition bcmd_ok (c : bcmd) : Prop :=
  match c with
  | XMut c => cmd_ok c
  | XCopy bs | XFromOwner bs => zlen bs ≤ isize_max
  | XSplitOff _ n | XSplitTo _ n | XTruncate _ n | XAdvance _ n => 0 ≤ n ≤ usize_max
  | XSlice _ lo hi => 0 ≤ lo ≤ usize_max ∧ 0 ≤ hi ≤ usize_max
  | _ => True
  end.

#[global] Instance clonable_dec b : Decision (clonable b).
Proof. unfold clonable. destruct (by_vtable b); apply _. Defined.
#[global] Instance mut_convertible_dec `{Build} b : Decision (mut_convertible b).
Proof. unfold mut_convertible. apply _. Defined.

(** ** The program *)

Abbreviation handles := (list BytesMut * list Bytes)%type.

Section program.
Context `{Build} `{Allocator}.

(** A [Bytes] operand; the operation leaves handles of either kind. *)
Definition on_bytes (i : nat) (st : handles) (f : Bytes → M (handles * list byte)) : M (handles * list byte) :=
  match pick i (snd st) with
  | None => mret (st, [])
  | Some (b, rest) => '(ms, bs, out) ← f b; mret ((ms ++ fst st, bs ++ rest), out)
  end.

Definition bret1 (m : M Bytes) : M (handles * list byte) := b ← m; mret (([], [b]), []).
Definition bret2 (m : M (Bytes * Bytes)) : M (handles * list byte) := '(b, o) ← m; mret (([], [b; o]), []).

Definition bexec (c : bcmd) (st : handles) : M (handles * list byte) :=
  match c with
  | XMut c => '(ms, out) ← exec c (fst st); mret ((ms, snd st), out)
  | XCopy bs => b ← copy_from_slice bs; mret ((fst st, b :: snd st), [])
  | XFromOwner bs => b ← (v ← rv_of_bytes bs; from_owner v); mret ((fst st, b :: snd st), [])
  | XFreeze i =>
      match pick i (fst st) with
      | None => mret (st, [])
      | Some (m, rest) => b ← freeze m; mret ((rest, b :: snd st), [])
      end
  | XIntoMut i => on_bytes i st (λ b, m ← into_mut b; mret (([m], []), []))
  | XClone i => on_bytes i st (λ b, bret2 (by_clone b))
  | XSplitOff i n => on_bytes i st (λ b, bret2 (by_split_off b n))
  | XSplitTo i n => on_bytes i st (λ b, bret2 (by_split_to b n))
  | XSlice i lo hi => on_bytes i st (λ b, bret2 (by_slice b (Included lo) (Excluded hi)))
  | XTruncate i n => on_bytes i st (λ b, bret1 (by_truncate b n))
  | XAdvance i n => on_bytes i st (λ b, bret1 (by_advance b n))
  | XRead i => on_bytes i st (λ b, out ← by_as_slice b; mret (([], [b]), out))
  | XDrop i => on_bytes i st (λ b, by_drop b;; mret (([], []), []))
  end.

(** Whether [bytes.rs] keeps its promises for the operand. *)
Definition allowed (c : bcmd) (st : handles) : bool :=
  let with_bytes i (f : Bytes → bool) := match snd st !! i with Some b => f b | None => true end in
  match c with
  | XClone i => with_bytes i (λ b, bool_decide (clonable b))
  | XSplitOff i n | XSplitTo i n => with_bytes i (λ b,
      (n <=? 0) || (by_len b <=? n) || bool_decide (clonable b))
  | XSlice i lo hi => with_bytes i (λ b, (hi <=? lo) || bool_decide (clonable b))
  | XTruncate i n => with_bytes i (λ b,
      (n <=? 0) || (by_len b <=? n) || bool_decide (clonable b ∨ by_vtable b = SHARED_VTABLE))
  | XIntoMut i => with_bytes i (λ b, bool_decide (mut_convertible b))
  | _ => true
  end.

(** Runs the commands up to the first one that is not allowed; the outputs tell how
    many there were. *)
Fixpoint brun (p : list bcmd) (st : handles) : M (handles * list (list byte)) :=
  match p with
  | [] => mret (st, [])
  | c :: p =>
      if allowed c st then
        '(st, out) ← bexec c st;
        '(st, outs) ← brun p st;
        mret (st, out :: outs)
      else mret (st, [])
  end.

Fixpoint bdrop_all (bs : list Bytes) : M () :=
  match bs with
  | [] => mret ()
  | b :: bs => by_drop b;; bdrop_all bs
  end.
End program.

(** ** The abstract machine: byte strings, some of them read-only *)

Abbreviation bstrings := (strings * strings)%type.

Definition sp_bytes (i : nat) (ss : bstrings) (f : list byte → bstrings * list byte) : bstrings * list byte :=
  match pick i (snd ss) with
  | None => (ss, [])
  | Some (s, rest) => let '(ms, bs, out) := f s in ((ms ++ fst ss, bs ++ rest), out)
  end.

Definition bspec (c : bcmd) (ss : bstrings) : bstrings * list byte :=
  match c with
  | XMut c => let '(ms, out) := spec c (fst ss) in ((ms, snd ss), out)
  | XCopy bs | XFromOwner bs => ((fst ss, bs :: snd ss), [])
  | XFreeze i =>
      match pick i (fst ss) with
      | None => (ss, [])
      | Some (s, rest) => ((rest, s :: snd ss), [])
      end
  | XIntoMut i => sp_bytes i ss (λ s, (([s], []), []))
  | XClone i => sp_bytes i ss (λ s, (([], [s; s]), []))
  | XSplitOff i n => sp_bytes i ss (λ s, (([], [ztake n s; zdrop n s]), []))
  | XSplitTo i n => sp_bytes i ss (λ s, (([], [zdrop n s; ztake n s]), []))
  | XSlice i lo hi => sp_bytes i ss (λ s, (([], [s; ztake (hi - lo) (zdrop lo s)]), []))
  | XTruncate i n => sp_bytes i ss (λ s, (([], [ztake n s]), []))
  | XAdvance i n => sp_bytes i ss (λ s, (([], [zdrop n s]), []))
  | XRead i => sp_bytes i ss (λ s, (([], [s]), s))
  | XDrop i => sp_bytes i ss (λ s, (([], []), []))
  end.

Definition bguard (c : bcmd) (ss : bstrings) : bool :=
  let within i (f : list byte → bool) := match snd ss !! i with Some s => f s | None => true end in
  match c with
  | XMut c => guard c (fst ss)
  | XSplitOff i n | XSplitTo i n | XAdvance i n => within i (λ s, n <=? zlen s)
  | XSlice i lo hi => within i (λ s, (lo <=? hi) && (hi <=? zlen s))
  | _ => true
  end.

Fixpoint bspec_run (p : list bcmd) (ss : bstrings) : bstrings * list (list byte) :=
  match p with
  | [] => (ss, [])
  | c :: p =>
      let '(ss, out) := bspec c ss in
      let '(ss, outs) := bspec_run p ss in
      (ss, out :: outs)
  end.

Fixpoint bguards (p : list bcmd) (ss : bstrings) : bool :=
  match p with
  | [] => true
  | c :: p => bguard c ss && bguards p (fst (bspec c ss))
  end.

(** ** The simulation *)

Definition bsim (st : handles) (ss : bstrings) (h : heap) : Prop :=
  length (fst st) = length (fst ss) ∧ length (snd st) = length (snd ss)
  ∧ live (entries (fst st) (fst ss) ++ entries_of HBytes (snd st) (snd ss)) h.

(** What a command leaves, next to the handles [F]. *)
Definition bmatches (F : list entry) (r : bstrings * list byte) : handles * list byte → heap → Prop :=
  λ '(st, out) h, out = snd r ∧ length (fst st) = length (fst (fst r)) ∧ length (snd st) = length (snd (fst r))
    ∧ live (entries (fst st) (fst (fst r)) ++ entries_of HBytes (snd st) (snd (fst r)) ++ F) h.

Section simulation.
Context `{Hbd : Build} `{Hal : AllocatorLaws}.

Lemma entries_of_app {A} (f : A → handle) st st' ss ss' :
  length st = length ss → entries_of f (st ++ st') (ss ++ ss') = entries_of f st ss ++ entries_of f st' ss'.
Proof. intros Hl. unfold entries_of. by rewrite fmap_app, zip_with_app by (by rewrite length_fmap). Qed.

Lemma entries_of_cons {A} (f : A → handle) b s st ss :
  entries_of f (b :: st) (s :: ss) = (f b, s) :: entries_of f st ss.
Proof. done. Qed.

Lemma on_bytes_sim i st ss h ok f g :
  bsim st ss h →
  (∀ b s R, snd st !! i = Some b → snd ss !! i = Some s → live ((HBytes b, s) :: R) h →
    wpm (f b) h (client_stop ok) (bmatches R (g s))) →
  wpm (on_bytes i st f) h (client_stop ok) (bmatches [] (sp_bytes i ss g)).
Proof.
  destruct st as [ms bs], ss as [sm sb]. intros (Hlm & Hlb & Hlive) Hf. simpl in *.
  rewrite Permutation_app_comm in Hlive. pose proof (live_pick HBytes i _ _ _ _ Hlb Hlive) as Hp.
  unfold on_bytes, sp_bytes. simpl.
  destruct (pick i bs) as [[b bs']|] eqn:Hb, (pick i sb) as [[s sb']|] eqn:Hs; try done.
  2: { apply wpm_ret. split; [done|]. simpl. split; [done|]. split; [done|]. by rewrite app_nil_r, Permutation_app_comm. }
  destruct Hp as [Hlen Hlive']. apply wpm_bind. eapply wpm_mono; [eapply Hf; [| |exact Hlive']|].
  { unfold pick in Hb. by destruct (bs !! i); simplify_eq/=. }
  { unfold pick in Hs. by destruct (sb !! i); simplify_eq/=. }
  intros [[ms1 bs1] out] h' (-> & Hl1 & Hl2 & Hlive1). destruct (g s) as [[gm gb] go]. simpl in *.
  apply wpm_ret. split; [done|]. simpl. split; [rewrite !length_app; lia|]. split; [rewrite !length_app; lia|].
  rewrite !entries_of_app, app_nil_r by done. revert Hlive1. apply live_proper; [|done].
  set (a := entries ms1 gm). set (b1 := entries_of HBytes bs1 gb).
  set (c := entries_of HBytes bs' sb'). set (d := entries ms sm).
  rewrite <-!app_assoc. apply Permutation_app_head. rewrite (Permutation_app_comm b1 (c ++ d)).
  rewrite (Permutation_app_comm c d), <-app_assoc. apply Permutation_app_head, Permutation_app_comm.
Qed.

Lemma bret1_ok m h ok R s (Q : Bytes → heap → Prop) :
  wpm m h bm_stop Q → (∀ b h', Q b h' → live ((HBytes b, s) :: R) h') →
  wpm (bret1 m) h (client_stop ok) (bmatches R (([], [s]), [])).
Proof.
  intros Hm HQ. apply wpm_bind. eapply wpm_stop_mono; [|apply client_stop_bm].
  eapply wpm_mono; [exact Hm|]. intros b h' Hb. apply wpm_ret. split; [done|]. split; [done|]. split; [done|].
  by apply HQ.
Qed.

Lemma bret2_ok m h ok R s t (Q : Bytes * Bytes → heap → Prop) :
  wpm m h bm_stop Q → (∀ b o h', Q (b, o) h' → live ((HBytes b, s) :: (HBytes o, t) :: R) h') →
  wpm (bret2 m) h (client_stop ok) (bmatches R (([], [s; t]), [])).
Proof.
  intros Hm HQ. apply wpm_bind. eapply wpm_stop_mono; [|apply client_stop_bm].
  eapply wpm_mono; [exact Hm|]. intros [b o] h' Hb. apply wpm_ret. split; [done|]. split; [done|]. split; [done|].
  by apply HQ.
Qed.

Lemma bytes_split_off_sim b s R h n :
  live ((HBytes b, s) :: R) h → 0 ≤ n →
  (n <=? 0) || (by_len b <=? n) || bool_decide (clonable b) = true →
  wpm (bret2 (by_split_off b n)) h (client_stop (n <=? zlen s)) (bmatches R (([], [ztake n s; zdrop n s]), [])).
Proof using Hal.
  intros Hlive Hn Ha. destruct (bytes_len _ _ _ _ Hlive) as [El _].
  destruct (Z.leb_spec n (zlen s)) as [Hc|Hc].
  - eapply bret2_ok; [apply by_split_off_ok; [done|lia|]|done]. intros Hn'.
    rewrite El, (proj2 (Z.leb_gt n 0)), (proj2 (Z.leb_gt (zlen s) n)) in Ha by lia. by apply bool_decide_eq_true in Ha.
  - pose proof (zlen_nonneg s). unfold bret2, by_split_off. rewrite El, (proj2 (Z.eqb_neq _ _)), (proj2 (Z.eqb_neq n 0)) by lia.
    apply wpm_bind, assert_stop; [|done]. apply Z.leb_gt. lia.
Qed.

Lemma bytes_split_to_sim b s R h n :
  live ((HBytes b, s) :: R) h → 0 ≤ n →
  (n <=? 0) || (by_len b <=? n) || bool_decide (clonable b) = true →
  wpm (bret2 (by_split_to b n)) h (client_stop (n <=? zlen s)) (bmatches R (([], [zdrop n s; ztake n s]), [])).
Proof using Hal.
  intros Hlive Hn Ha. destruct (bytes_len _ _ _ _ Hlive) as [El _].
  destruct (Z.leb_spec n (zlen s)) as [Hc|Hc].
  - eapply bret2_ok; [apply by_split_to_ok; [done|lia|]|done]. intros Hn'.
    rewrite El, (proj2 (Z.leb_gt n 0)), (proj2 (Z.leb_gt (zlen s) n)) in Ha by lia. by apply bool_decide_eq_true in Ha.
  - pose proof (zlen_nonneg s). unfold bret2, by_split_to. rewrite El, (proj2 (Z.eqb_neq _ _)), (proj2 (Z.eqb_neq n 0)) by lia.
    apply wpm_bind, assert_stop; [|done]. apply Z.leb_gt. lia.
Qed.

Lemma bytes_slice_sim b s R h lo hi :
  live ((HBytes b, s) :: R) h → 0 ≤ lo → (hi <=? lo) || bool_decide (clonable b) = true →
  wpm (bret2 (by_slice b (Included lo) (Excluded hi))) h (client_stop ((lo <=? hi) && (hi <=? zlen s)))
    (bmatches R (([], [s; ztake (hi - lo) (zdrop lo s)]), [])).
Proof using Hal.
  intros Hlive Hn Ha. destruct (bytes_len _ _ _ _ Hlive) as [El _].
  destruct (Z.leb_spec lo hi) as [Hc|Hc]; [destruct (Z.leb_spec hi (zlen s)) as [Hc'|Hc']|]; simpl.
  - eapply bret2_ok; [apply by_slice_ok; [done|lia|lia|]|done]. intros Hn'.
    rewrite (proj2 (Z.leb_gt hi lo)) in Ha by lia. by apply bool_decide_eq_true in Ha.
  - unfold bret2, by_slice. simpl. apply wpm_bind. do 2 apply wpm_bind, wpm_ret.
    apply wpm_bind, wpm_lift. rewrite (proj2 (Z.leb_le lo hi)) by lia. simpl.
    apply assert_stop; [|done]. rewrite El. apply Z.leb_gt. lia.
  - unfold bret2, by_slice. simpl. apply wpm_bind. do 2 apply wpm_bind, wpm_ret.
    apply assert_stop; [|done]. apply Z.leb_gt. lia.
Qed.

(** A constructor that leaves the other handles alone. *)
Lemma new_bytes_sim st ss h ok m s :
  bsim st ss h → (∀ R, live R h → wpm m h bm_stop (λ b h', live ((HBytes b, s) :: R) h')) →
  wpm (b ← m; mret ((fst st, b :: snd st), [] : list byte)) h (client_stop ok) (λ '(st', out) h',
    out = [] ∧ bsim st' (fst ss, s :: snd ss) h').
Proof.
  destruct st as [ms bs0], ss as [sm sb]. intros (Hlm & Hlb & Hlive) Hm. simpl in *. apply wpm_bind.
  eapply wpm_stop_mono; [|apply client_stop_bm].
  eapply wpm_mono; [by apply Hm|]. intros b h' Hl. apply wpm_ret. split; [done|].
  split; [done|]. split; [simpl; by f_equal|]. simpl. by rewrite entries_of_cons, <-Permutation_middle.
Qed.

Lemma bexec_sim c st ss h :
  bsim st ss h → bcmd_ok c → allowed c st = true →
  wpm (bexec c st) h (client_stop (bguard c ss)) (λ '(st', out) h',
    out = snd (bspec c ss) ∧ bsim st' (fst (bspec c ss)) h').
Proof using Hal.
  intros Hsim Hok Ha.
  assert (∀ r x h', bmatches [] r x h' → (λ '(st', out) h', out = snd r ∧ bsim st' (fst r) h') x h') as Hnil.
  { intros r [st' out] h' (-> & ? & ? & Hl). rewrite app_nil_r in Hl. by split. }
  destruct c; simpl in *.
  all: try (eapply wpm_mono; [apply on_bytes_sim; [exact Hsim|]; intros b s R Hb Hs Hlive; rewrite ?Hs; rewrite ?Hb in Ha|apply Hnil]).
  - destruct st as [ms bs], ss as [sm sb], Hsim as (Hlm & Hlb & Hlive). simpl in *. apply wpm_bind.
    eapply wpm_mono; [apply (exec_sim (entries_of HBytes bs sb) c ms sm); [by split|done]|].
    intros [ms' out] h' [-> [Hl Hlive']]. destruct (spec c sm) as [sm' o]. by apply wpm_ret.
  - eapply new_bytes_sim; [exact Hsim|]. intros R Hl. by apply copy_from_slice_ok.
  - eapply new_bytes_sim; [exact Hsim|]. intros R Hl. by apply owner_of_bytes_ok.
  - destruct st as [ms bs], ss as [sm sb], Hsim as (Hlm & Hlb & Hlive). simpl in *.
    pose proof (live_pick HMut i _ _ _ _ Hlm Hlive) as Hp.
    destruct (pick i ms) as [[m ms']|], (pick i sm) as [[s sm']|]; try done.
    destruct Hp as [Hlen Hlive']. apply wpm_bind. eapply wpm_stop_mono; [|apply client_stop_bm].
    eapply wpm_mono; [by apply freeze_ok|]. intros b h' [Hl _]. apply wpm_ret. split; [done|].
    split; [done|]. split; [simpl; by f_equal|]. simpl. by rewrite entries_of_cons, <-Permutation_middle.
  - apply wpm_bind. eapply wpm_stop_mono; [|apply client_stop_bm].
    eapply wpm_mono; [apply into_mut_ok; [exact Hlive|by apply bool_decide_eq_true in Ha]|].
    intros m h' Hl. apply wpm_ret. by split_and!.
  - eapply bret2_ok; [apply by_clone_ok; [exact Hlive|by apply bool_decide_eq_true in Ha]|]. by intros b' o h' (? & _).
  - apply bytes_split_off_sim; [done|lia|done].
  - apply bytes_split_to_sim; [done|lia|done].
  - apply bytes_slice_sim; [done|lia|done].
  - destruct (bytes_len _ _ _ _ Hlive) as [El _].
    eapply bret1_ok; [apply by_truncate_ok; [exact Hlive|lia|]|done]. intros Hn.
    rewrite El, (proj2 (Z.leb_gt n 0)), (proj2 (Z.leb_gt (zlen s) n)) in Ha by lia. by apply bool_decide_eq_true in Ha.
  - destruct (bytes_len _ _ _ _ Hlive) as [El _]. destruct (Z.leb_spec n (zlen s)).
    + eapply bret1_ok; [apply by_advance_ok; [exact Hlive|lia]|done].
    + apply wpm_bind, assert_stop; [|done]. apply Z.leb_gt. lia.
  - apply wpm_bind. unfold wpm at 1. rewrite (by_as_slice_ok _ _ _ _ Hlive). simpl.
    apply wpm_ret. by split_and!.
  - apply wpm_bind. eapply wpm_stop_mono; [|apply client_stop_bm].
    eapply wpm_mono; [by eapply by_drop_ok|]. intros [] h' Hl. apply wpm_ret. by split_and!.
Qed.

Lemma brun_sim p st ss h :
  bsim st ss h → Forall bcmd_ok p →
  wpm (brun p st) h (client_stop (bguards p ss)) (λ '(st', outs) h',
    ∃ p', p' `prefix_of` p ∧ outs = snd (bspec_run p' ss) ∧ bsim st' (fst (bspec_run p' ss)) h'
      ∧ (p' = p ∨ ∃ c, p' ++ [c] `prefix_of` p ∧ allowed c st' = false)).
Proof using Hal.
  revert st ss h. induction p as [|c p IH]; intros st ss h Hsim Hall; simpl.
  { apply wpm_ret. exists []. split_and!; try done. by left. }
  inversion Hall; subst. destruct (allowed c st) eqn:Ha.
  2: { apply wpm_ret. exists []. split_and!; try done; [apply prefix_nil|]. right. exists c.
       split; [|done]. by apply prefix_cons, prefix_nil. }
  apply wpm_bind. eapply wpm_stop_mono; [|intros ?; apply client_stop_weaken, andb_false_intro1].
  eapply wpm_mono; [by apply bexec_sim|]. intros [st1 out] h1 [-> Hsim1].
  destruct (bspec c ss) as [ss1 o] eqn:Ec. simpl in *. apply wpm_bind.
  eapply wpm_stop_mono; [|intros ?; apply client_stop_weaken, andb_false_intro2].
  eapply wpm_mono; [by apply IH|]. intros [st2 outs] h2 (p' & Hp & -> & Hsim2 & Hend). apply wpm_ret.
  exists (c :: p'). split; [by apply prefix_cons|]. simpl. rewrite Ec.
  destruct (bspec_run p' ss1) as [ss2 os]. split_and!; try done.
  destruct Hend as [->|(d & Hd & Had)]; [by left|right]. exists d. split; [|done]. by apply prefix_cons.
Qed.

Lemma bdrop_all_sim bs ss h :
  length bs = length ss → live (entries_of HBytes bs ss) h →
  wpm (bdrop_all bs) h bm_stop (λ _ h', live [] h').
Proof.
  revert ss h. induction bs as [|b bs IH]; intros [|s ss] h Hlen Hlive; try done. simpl.
  apply wpm_bind. eapply wpm_mono; [exact (by_drop_ok b s _ h Hlive)|].
  intros [] h' Hlive'. apply (IH ss); [simpl in Hlen; lia|done].
Qed.
End simulation.

(** ** Theorems *)

(** C1: programs over [BytesMut] and [Bytes] handles that freeze, clone, split, slice
    and thaw them, those of an owner too, compute what the machine of independent byte strings computes, up
    to the first call that is not allowed; they stop only where an argument is out
    of range or the allocator gives up. *)
Theorem bytes_refines `{Build} `{AllocatorLaws} (p : list bcmd) :
  Forall bcmd_ok p →
  wpm (brun p ([], [])) empty_heap (client_stop (bguards p ([], []))) (λ '(st, outs) h,
    ∃ p', p' `prefix_of` p ∧ outs = snd (bspec_run p' ([], [])) ∧ bsim st (fst (bspec_run p' ([], []))) h
      ∧ (p' = p ∨ ∃ c, p' ++ [c] `prefix_of` p ∧ allowed c st = false)).
Proof. intros Hp. apply brun_sim; [|done]. split; [done|]. split; [done|]. apply sim_nil. Qed.

(** C2: when such a program, run up to the first call that is not allowed, then drops all
    its handles, nothing stays allocated. *)
Theorem bytes_no_leak `{Build} `{AllocatorLaws} (p : list bcmd) :
  Forall bcmd_ok p →
  wpm ('(st, _) ← brun p ([], []); drop_all (fst st);; bdrop_all (snd st)) empty_heap
    (client_stop (bguards p ([], []))) (λ _ h, objs h = ∅).
Proof.
  intros Hp. apply wpm_bind. eapply wpm_mono; [apply (brun_sim p ([], []) ([], [])); [|done]|].
  { split; [done|]. split; [done|]. apply sim_nil. }
  intros [[ms bs] outs] h (p' & _ & _ & (Hlm & Hlb & Hlive) & _). simpl in *.
  eapply wpm_stop_mono; [|apply client_stop_bm]. apply wpm_bind.
  eapply wpm_mono; [eapply drop_all_sim; by split|]. intros [] h1 Hl1.
  eapply wpm_mono; [by eapply bdrop_all_sim|]. intros [] h2 Hl. by apply live_nil.
Qed.

(** A buffer is split and frozen in halves, which are cloned, sliced, and read while
    the other half is written to; one becomes a buffer again.  Then the handles of an
    owner. *)
Definition bdemo : list bcmd :=
  [XMut (CFromSlice hello); XMut (CSplitOff 0 2); XFreeze 0; XClone 0; XSlice 0 0 1; XMut (CExtend 0 hello);
   XRead 0; XRead 1; XRead 2; XIntoMut 2; XMut (CRead 0); XMut (CRead 1); XDrop 0;
   XFromOwner hello; XClone 0; XDrop 0; XSplitOff 0 3; XRead 1; XIntoMut 0].

Lemma bdemo_ok : Forall bcmd_ok bdemo.
Proof. repeat constructor; vm_compute; by intros. Qed.

Lemma bytes_refines_witness :
  Forall bcmd_ok bdemo ∧ bguards bdemo ([], []) = true
  ∧ snd <$> outputs (@brun debug_build bump bdemo ([], []) empty_heap) = Some (snd (bspec_run bdemo ([], [])))
  ∧ wpm (@brun debug_build bump bdemo ([], [])) empty_heap (client_stop true) (λ '(st, outs) h,
      ∃ p', p' `prefix_of` bdemo ∧ outs = snd (bspec_run p' ([], [])) ∧ bsim st (fst (bspec_run p' ([], []))) h
        ∧ (p' = bdemo ∨ ∃ c, p' ++ [c] `prefix_of` bdemo ∧ @allowed debug_build c st = false)).
Proof.
  split; [exact bdemo_ok|]. split; [reflexivity|]. split; [by vm_compute|].
  exact (@bytes_refines debug_build bump bump_laws bdemo bdemo_ok).
Defined.

Lemma bytes_no_leak_witness :
  outputs (('(st, _) ← @brun debug_build bump bdemo ([], []); @drop_all debug_build (fst st);; @bdrop_all debug_build (snd st))
    empty_heap) = Some ()
  ∧ wpm ('(st, _) ← @brun debug_build bump bdemo ([], []); @drop_all debug_build (fst st);; @bdrop_all debug_build (snd st))
      empty_heap (client_stop true) (λ _ h, objs h = ∅).
Proof.
  split; [by vm_compute|]. exact (@bytes_no_leak debug_build bump bump_laws bdemo bdemo_ok).
Defined.
