(* ===== verification/BufBytes.v ===== *)
(** * [Buf::copy_to_bytes]

    The provided method of [buf_impl.rs] collects the bytes in a [BytesMut] and
    freezes it; [Take] and [Chain] pass the request on when they can.  [ToBytesLaws]
    states what every implementation promises, whatever other handles are alive; a
    [Take] or a [Chain] keeps it if its parts do. *)

From S2P Require Import Prelude RustVec Mem Buf BufAdapters.
From S2P Require Import BytesMut Bytes World BytesMutSpec BytesMutGrow BytesMutOps BytesSpec.
From S2P Require Import BytesMutProps.

(** ** The method *)

Class ToBytes (T : Type) := copy_to_bytes : T → Z → M (T * Bytes).

Section methods.
Context `{Build} `{Allocator}.

(** The provided method; [put] takes at most [len] turns. *)
Definition default_copy_to_bytes {T} `{Buf T} (t : T) (len : Z) : M (T * Bytes) :=
  if remaining t <? len then stopM (SPanic (PAdvance len (remaining t))) else
  ret ← with_capacity len;
  '(ret, tk) ← bm_put (Z.to_nat len) ret (take_new t len);
  b ← freeze ret;
  mret (tk_inner tk, b).

#[global] Instance slice_to_bytes : ToBytes (list byte) := default_copy_to_bytes.
#[global] Instance cursor_to_bytes : ToBytes Cursor := default_copy_to_bytes.
#[global] Instance vd_to_bytes : ToBytes VecDeque := default_copy_to_bytes.

(** [deref_forward_buf!] *)
#[global] Instance deref_to_bytes {T} `{ToBytes T} : ToBytes (Deref T) := λ t len,
  '(t', b) ← copy_to_bytes (deref t) len; mret (mkDeref t', b).

Definition take_copy_to_bytes {T} `{Buf T} `{ToBytes T} (t : Take T) (len : Z) : M (Take T * Bytes) :=
  lift (rust_assert (len <=? take_remaining t));;
  '(inner, r) ← copy_to_bytes (tk_inner t) len;
  limit ← lift (usize_sub (tk_limit t) len);
  mret (mkTake inner limit, r).

#[global] Instance take_to_bytes {T} `{Buf T} `{ToBytes T} : ToBytes (Take T) := take_copy_to_bytes.

Definition chain_copy_to_bytes {T U} `{Buf T} `{Buf U} `{ToBytes T} `{ToBytes U} (c : Chain T U) (len : Z)
    : M (Chain T U * Bytes) :=
  let a_rem := remaining (ch_a c) in
  if len <=? a_rem then '(a, r) ← copy_to_bytes (ch_a c) len; mret (mkChain a (ch_b c), r)
  else if a_rem =? 0 then '(b, r) ← copy_to_bytes (ch_b c) len; mret (mkChain (ch_a c) b, r)
  else
    n ← lift (usize_sub len a_rem);
    lift (rust_assert (n <=? remaining (ch_b c)));;
    ret ← with_capacity len;
    '(ret, a) ← bm_put (Z.to_nat len) ret (mkDeref (ch_a c));
    n ← lift (usize_sub len a_rem);
    '(ret, tb) ← bm_put (Z.to_nat len) ret (take_new (mkDeref (ch_b c)) n);
    r ← freeze ret;
    mret (mkChain (deref a) (deref (tk_inner tb)), r).

#[global] Instance chain_to_bytes {T U} `{Buf T} `{Buf U} `{ToBytes T} `{ToBytes U} : ToBytes (Chain T U) :=
  chain_copy_to_bytes.
End methods.

(** ** The contract *)

(** The first [len] bytes move from the buffer to a new handle; asking for more than
    is left panics. *)
Class ToBytesLaws (T : Type) `{BufLaws T} `{ToBytes T} := {
  copy_to_bytes_ok t len R h : live R h → buf_wf t → 0 ≤ len ≤ zlen (content t) →
    wpm (copy_to_bytes t len) h bm_stop (λ '(t', b) h',
      live ((HBytes b, ztake len (content t)) :: R) h' ∧ buf_wf t' ∧ content t' = zdrop len (content t));
  copy_to_bytes_panics t len h : buf_wf t → zlen (content t) < len ≤ usize_max →
    ∃ p, copy_to_bytes t len h = Panic p;
}.

Section laws.
Context `{Hbd : Build} `{Hal : AllocatorLaws}.

(** [put] of a [take] leaves the rest of the buffer. *)
Lemma put_take_ok {B} `{BufLaws B} fuel b bs R h (t : B) n :
  live ((HMut b, bs) :: R) h → buf_wf t → 0 ≤ n ≤ zlen (content t) → n ≤ isize_max → n ≤ Z.of_nat fuel →
  wpm (bm_put fuel b (take_new t n)) h bm_stop (λ '(b', tk) h',
    live ((HMut b', bs ++ ztake n (content t)) :: R) h'
    ∧ buf_wf (tk_inner tk) ∧ content (tk_inner tk) = zdrop n (content t)).
Proof using Hal.
  intros Hlive Ht Hn Hm Hf. pose proof (content_bound t Ht) as Hbd'.
  assert (zlen (ztake n (content t)) = n) as Hz by (rewrite zlen_ztake; lia).
  eapply wpm_mono; [apply (bm_put_inv_ok (λ s, 0 ≤ tk_limit s ≤ n ∧ buf_wf (tk_inner s)
    ∧ content (tk_inner s) = zdrop (n - tk_limit s) (content t)))|].
  - intros [i l] k s' [Hi _] (Hl & _ & Hc) Hk Ha. simpl in *. unfold take_advance in Ha. simpl in Ha.
    unfold take_content in Hk. simpl in Hk. rewrite zlen_ztake in Hk by lia.
    rewrite (proj2 (Z.leb_le k l)) in Ha by lia. simpl in Ha.
    destruct (advance_ok i k Hi) as (i' & E & Hi' & Hc'); [lia|]. rewrite E in Ha. simpl in Ha.
    rewrite usize_sub_in in Ha by (unfold usize_max in *; lia). injection Ha as <-. simpl.
    split; [lia|]. split; [done|]. rewrite Hc', Hc, zdrop_zdrop by lia. f_equal. lia.
  - simpl. split; [lia|]. split; [done|]. by rewrite Z.sub_diag.
  - exact Hlive.
  - split; [done|]. simpl. unfold is_unsigned, usize_max in *. lia.
  - simpl. unfold take_content. simpl. lia.
  - simpl. unfold take_content. simpl. lia.
  - intros [b' [i l]] h' (Hl & Hnil & _ & Hlim & Hi & Hc). simpl in *. split; [done|]. split; [done|].
    unfold take_content in Hnil. simpl in Hnil.
    assert (l = 0) as ->; [|rewrite Hc; f_equal; lia].
    apply (f_equal zlen) in Hnil. rewrite Hc, zlen_ztake, zlen_zdrop in Hnil by lia. unfold zlen at 2 in Hnil. simpl in Hnil. lia.
Qed.

Lemma default_copy_to_bytes_ok {T} `{BufLaws T} (t : T) len R h :
  live R h → buf_wf t → 0 ≤ len ≤ zlen (content t) →
  wpm (default_copy_to_bytes t len) h bm_stop (λ '(t', b) h',
    live ((HBytes b, ztake len (content t)) :: R) h' ∧ buf_wf t' ∧ content t' = zdrop len (content t)).
Proof using Hal.
  intros Hlive Ht Hn. unfold default_copy_to_bytes. rewrite remaining_content by done.
  rewrite (proj2 (Z.ltb_ge _ _)) by lia. apply wpm_bind.
  eapply wpm_mono; [apply with_capacity_ok; [done|lia]|]. intros m h1 [Hl1 Hcap].
  destruct (live_len _ _ _ _ Hl1) as (_ & _ & Hmax). rewrite Hcap in Hmax. apply wpm_bind.
  eapply wpm_mono; [apply (put_take_ok (Z.to_nat len)); [exact Hl1|done|lia|lia|lia]|].
  intros [m2 tk] h2 (Hl2 & Hw & Hc). apply wpm_bind.
  eapply wpm_mono; [by apply freeze_ok|]. intros b h3 [Hl3 _]. by apply wpm_ret.
Qed.

Lemma default_copy_to_bytes_panics {T} `{BufLaws T} (t : T) len h :
  buf_wf t → zlen (content t) < len → ∃ p, default_copy_to_bytes t len h = Panic p.
Proof.
  intros Ht Hn. unfold default_copy_to_bytes. rewrite remaining_content by done.
  rewrite (proj2 (Z.ltb_lt _ _)) by lia. by eexists.
Qed.

#[global] Instance slice_to_bytes_laws : ToBytesLaws (list byte).
Proof using Hal. split; [apply default_copy_to_bytes_ok|]. intros t len h Ht Hn. apply default_copy_to_bytes_panics; [done|lia]. Qed.
#[global] Instance cursor_to_bytes_laws : ToBytesLaws Cursor.
Proof using Hal. split; [apply default_copy_to_bytes_ok|]. intros t len h Ht Hn. apply default_copy_to_bytes_panics; [done|lia]. Qed.
#[global] Instance vd_to_bytes_laws : ToBytesLaws VecDeque.
Proof using Hal. split; [apply default_copy_to_bytes_ok|]. intros t len h Ht Hn. apply default_copy_to_bytes_panics; [done|lia]. Qed.

#[global] Instance deref_to_bytes_laws {T} `{ToBytesLaws T} : ToBytesLaws (Deref T).
Proof.
  split.
  - intros t len R h Hl Ht Hn. apply wpm_bind. eapply wpm_mono; [by apply copy_to_bytes_ok|].
    intros [t' b] h' ?. by apply wpm_ret.
  - intros t len h Ht Hn. destruct (copy_to_bytes_panics (deref t) len h Ht Hn) as [p E]. exists p.
    unfold copy_to_bytes, deref_to_bytes, mbind, M_bind. by rewrite E.
Qed.

#[global] Instance take_to_bytes_laws {T} `{ToBytesLaws T} : ToBytesLaws (Take T).
Proof.
  split.
  - intros [i l] len R h Hl [Hi Hlim] Hn. simpl in *. unfold take_content in *. simpl in *.
    unfold is_unsigned in Hlim. rewrite zlen_ztake in Hn by lia.
    unfold copy_to_bytes, take_to_bytes, take_copy_to_bytes. apply wpm_bind, wpm_lift.
    unfold take_remaining. simpl. rewrite remaining_content by done.
    rewrite (proj2 (Z.leb_le len _)) by lia. simpl. apply wpm_bind.
    eapply wpm_mono; [apply copy_to_bytes_ok; [exact Hl|done|lia]|]. intros [i' b] h' (Hl' & Hi' & Hc').
    apply wpm_bind, wpm_usize_sub; [lia|]. apply wpm_ret.
    rewrite ztake_ztake by lia. split; [done|]. simpl. split; [split; [done|]; unfold is_unsigned; simpl; lia|].
    unfold take_content. simpl. rewrite Hc', zdrop_ztake by lia. done.
  - intros t len h Hwf Hn. unfold copy_to_bytes, take_to_bytes, take_copy_to_bytes, mbind, M_bind, lift.
    pose proof (remaining_content t Hwf) as Hr. simpl in Hr. rewrite Hr, (proj2 (Z.leb_gt _ _)) by (simpl in Hn; lia).
    by eexists.
Qed.

Lemma chain_copy_middle {T U} `{ToBytesLaws T} `{ToBytesLaws U} (a : T) (b : U) len R h :
  live R h → buf_wf a → buf_wf b → 0 < zlen (content a) < len → len ≤ zlen (content a) + zlen (content b) →
  len ≤ usize_max →
  wpm (chain_copy_to_bytes (mkChain a b) len) h bm_stop (λ '(c, r) h',
    live ((HBytes r, content a ++ ztake (len - zlen (content a)) (content b)) :: R) h'
    ∧ buf_wf (ch_a c) ∧ buf_wf (ch_b c) ∧ content (ch_a c) = []
    ∧ content (ch_b c) = zdrop (len - zlen (content a)) (content b)).
Proof using Hal.
  intros Hl Ha Hb Hn Hlen Hmax. unfold chain_copy_to_bytes. simpl. unfold usize_max in Hmax.
  rewrite !remaining_content by done. rewrite (proj2 (Z.leb_gt len _)), (proj2 (Z.eqb_neq _ _)) by lia.
  apply wpm_bind, wpm_usize_sub; [lia|]. apply wpm_bind, wpm_lift. rewrite (proj2 (Z.leb_le _ _)) by lia. simpl.
  apply wpm_bind. eapply wpm_mono; [apply with_capacity_ok; [exact Hl|lia]|]. intros m h1 [Hl1 Hcap].
  destruct (live_len _ _ _ _ Hl1) as (_ & _ & Hm). rewrite Hcap in Hm. apply wpm_bind.
  pose proof (bm_put_inv_ok (λ _, True) (Z.to_nat len) m [] R h1 (mkDeref a) ltac:(done) I Hl1 Ha) as Hp.
  eapply wpm_mono; [exact (Hp ltac:(simpl; lia) ltac:(simpl; lia))|]. clear Hp.
  intros [m2 [a']] h2 (Hl2 & Hnil & Ha' & _). simpl in *. apply wpm_bind, wpm_usize_sub; [lia|]. apply wpm_bind.
  pose proof (put_take_ok (Z.to_nat len) m2 (content a) R h2 (mkDeref b) (len - zlen (content a)) Hl2 Hb) as Hp.
  eapply wpm_mono; [exact (Hp ltac:(simpl; lia) ltac:(lia) ltac:(lia))|]. clear Hp.
  intros [m3 [[b'] l]] h3 (Hl3 & Hb' & Hc'). simpl in *. apply wpm_bind.
  eapply wpm_mono; [by apply freeze_ok|]. intros r h4 [Hl4 _]. apply wpm_ret. done.
Qed.

#[global] Instance chain_to_bytes_laws {T U} `{ToBytesLaws T} `{ToBytesLaws U} : ToBytesLaws (Chain T U).
Proof using Hal.
  split.
  - intros [a b] len R h Hl (Ha & Hb & Hmax) Hn. simpl in *. unfold chain_content in *. simpl in *.
    rewrite zlen_app in *. pose proof (zlen_nonneg (content a)). pose proof (zlen_nonneg (content b)).
    unfold copy_to_bytes, chain_to_bytes.
    destruct (decide (0 < zlen (content a) < len)) as [Hmid|Hmid].
    + eapply wpm_mono; [apply chain_copy_middle; (done || lia)|].
      intros [[a' b'] r] h' (Hl' & Ha' & Hb' & Ea & Eb). simpl in *.
      rewrite ztake_app_ge, zdrop_app_ge by lia. split; [done|]. unfold chain_wf, chain_content. simpl.
      rewrite Ea, Eb. simpl. split; [|done]. split; [done|]. split; [done|]. rewrite zlen_zdrop; lia.
    + unfold chain_copy_to_bytes. simpl. rewrite remaining_content by done.
      destruct (Z.leb_spec len (zlen (content a))).
      * apply wpm_bind. eapply wpm_mono; [apply copy_to_bytes_ok; [exact Hl|done|lia]|].
        intros [a' r] h' (Hl' & Ha' & Hc'). apply wpm_ret. rewrite ztake_app_le, zdrop_app_le by lia.
        unfold chain_wf, chain_content. simpl. rewrite Hc', zlen_app, zlen_zdrop by lia.
        split_and!; (done || lia).
      * rewrite (proj2 (Z.eqb_eq _ _)) by lia. assert (content a = []) as Ea by (apply zlen_nil_inv; lia).
        rewrite Ea in *. apply wpm_bind. eapply wpm_mono; [apply copy_to_bytes_ok; [exact Hl|done|lia]|].
        intros [b' r] h' (Hl' & Hb' & Hc'). apply wpm_ret. unfold chain_wf, chain_content. simpl.
        rewrite Ea, Hc'. simpl. rewrite zlen_zdrop by lia. split_and!; (done || lia).
  - intros [a b] len h (Ha & Hb & Hmax) Hn. simpl in *. unfold chain_content in *. simpl in *.
    rewrite zlen_app in *. pose proof (zlen_nonneg (content a)). pose proof (zlen_nonneg (content b)).
    unfold copy_to_bytes, chain_to_bytes, chain_copy_to_bytes. simpl. rewrite !remaining_content by done.
    rewrite (proj2 (Z.leb_gt len _)) by lia. destruct (Z.eqb_spec (zlen (content a)) 0).
    + destruct (copy_to_bytes_panics b len h Hb) as [p E]; [lia|]. exists p. unfold mbind, M_bind. by rewrite E.
    + unfold mbind, M_bind, lift. rewrite usize_sub_in by (unfold usize_max in *; lia). simpl.
      rewrite (proj2 (Z.leb_gt _ _)) by lia. by eexists.
Qed.
End laws.

(** C21: [copy_to_bytes] through a [Take] of a [Chain] of any two buffers that keep the
    contract moves the first [len] bytes to a new [Bytes], leaves the rest to be read
    and every other handle alone; asking for more than is left panics. *)
Theorem copy_to_bytes_spec `{Build} `{AllocatorLaws} {T U} `{ToBytesLaws T} `{ToBytesLaws U}
    (a : T) (b : U) limit len R h :
  live R h → buf_wf a → buf_wf b → zlen (content a ++ content b) ≤ usize_max → is_usize limit →
  let t := take_new (chain_new a b) limit in
  let bytes := ztake limit (content a ++ content b) in
  (0 ≤ len ≤ zlen bytes →
    wpm (copy_to_bytes t len) h bm_stop (λ '(t', r) h',
      live ((HBytes r, ztake len bytes) :: R) h' ∧ buf_wf t' ∧ content t' = zdrop len bytes))
  ∧ (zlen bytes < len ≤ usize_max → ∃ p, copy_to_bytes t len h = Panic p).
Proof.
  intros Hl Ha Hb Hm Hlim t bytes. assert (buf_wf t) as Hwf by (split; [split; [done|split; done]|done]). split.
  - exact (copy_to_bytes_ok t len R h Hl Hwf).
  - exact (copy_to_bytes_panics t len h Hwf).
Qed.

#[local] Existing Instance debug_build.
#[local] Existing Instance bump.
#[local] Existing Instance bump_laws.

Lemma copy_to_bytes_spec_witness :
  let t := take_new (chain_new hello (mkCursor hello 1)) 8 in
  let bytes := ztake 8 (hello ++ zdrop 1 hello) in
  wpm (copy_to_bytes t 7) (snd hello_state) bm_stop
    (λ '(t', r) h', live ((HBytes r, ztake 7 bytes) :: [(HMut (fst hello_state), hello)]) h'
      ∧ buf_wf t' ∧ content t' = zdrop 7 bytes).
Proof.
  refine (proj1 (copy_to_bytes_spec hello (mkCursor hello 1) 8 7 [(HMut (fst hello_state), hello)] (snd hello_state)
    hello_live _ _ _ _) _); vm_compute; done || by intros.
Defined.
