(* ===== verification/HandleBuf.v ===== *)
(** * [Buf] for [Bytes] and [BytesMut], and what is built on it

    The handles read from the heap and change it when they move on (an [advance] can
    promote a [BytesMut] to a counted one), so that their [Buf] methods are computations
    of [M].  [HBuf] is the trait for such readers; [HBufLaws] states its contract: a
    reader shows a byte string, and owns entries of the list that [live] describes.
    [Bytes], [BytesMut], the readers of [Buf], [Take] and [Chain] keep it.

    On top of it: [copy_to_slice], the fixed-width [get_*], [BytesMut::put], the byte
    iterator, [FromIterator] and [Extend<Bytes>]. *)

From S2P Require Import Prelude RustVec Mem Buf BufAdapters.
From S2P Require Import BytesMut Bytes World BytesMutSpec BytesMutGrow BytesMutOps BytesSpec BytesMutProps.

(** ** The trait *)

Class HBuf (T : Type) := {
  h_remaining : T → Z;
  h_chunk : T → M (list byte);
  h_advance : T → Z → M T;
  h_drop : T → M ();
}.

Definition h_has_remaining {T} `{HBuf T} (t : T) : bool := 0 <? h_remaining t.

(** A reader that is a value and nothing on the heap. *)
Record Pure (T : Type) := mkPure { pure : T }.
Arguments mkPure {T} _.
Arguments pure {T} _.

Section instances.
Context `{Build} `{Allocator}.

Definition by_remaining (b : Bytes) : Z := by_len b.
Definition by_chunk (b : Bytes) : M (list byte) := by_as_slice b.

#[global] Instance bytes_hbuf : HBuf Bytes := {
  h_remaining := by_remaining;
  h_chunk := by_chunk;
  h_advance := by_advance;
  h_drop := by_drop;
}.

Definition bm_remaining (b : BytesMut) : Z := bm_len b.
Definition bm_chunk (b : BytesMut) : M (list byte) := as_slice b.

#[global] Instance bytes_mut_hbuf : HBuf BytesMut := {
  h_remaining := bm_remaining;
  h_chunk := bm_chunk;
  h_advance := bm_advance;
  h_drop := bm_drop;
}.

#[global] Instance pure_hbuf {T} `{Buf T} : HBuf (Pure T) := {
  h_remaining t := remaining (pure t);
  h_chunk t := mret (chunk (pure t));
  h_advance t cnt := t' ← lift (advance (pure t) cnt); mret (mkPure t');
  h_drop _ := mret ();
}.

(** *** [Take] and [Chain], as in [BufAdapters], over readers on the heap *)

Section adapters.
Context {T U : Type} `{HBuf T} `{HBuf U}.

Definition htake_remaining (t : Take T) : Z := Z.min (h_remaining (tk_inner t)) (tk_limit t).

Definition htake_chunk (t : Take T) : M (list byte) :=
  bytes ← h_chunk (tk_inner t);
  mret (ztake (Z.min (zlen bytes) (tk_limit t)) bytes).

Definition htake_advance (t : Take T) (cnt : Z) : M (Take T) :=
  lift (rust_assert (cnt <=? tk_limit t));;
  inner ← h_advance (tk_inner t) cnt;
  limit ← lift (usize_sub (tk_limit t) cnt);
  mret (mkTake inner limit).

Definition hchain_remaining (c : Chain T U) : Z :=
  saturating_add 64 (h_remaining (ch_a c)) (h_remaining (ch_b c)).

Definition hchain_chunk (c : Chain T U) : M (list byte) :=
  if h_has_remaining (ch_a c) then h_chunk (ch_a c) else h_chunk (ch_b c).

Definition hchain_advance (c : Chain T U) (cnt : Z) : M (Chain T U) :=
  let a_rem := h_remaining (ch_a c) in
  if negb (a_rem =? 0) then
    if cnt <? a_rem then
      a ← h_advance (ch_a c) cnt; mret (mkChain a (ch_b c))
    else
      a ← h_advance (ch_a c) a_rem;
      cnt ← lift (usize_sub cnt a_rem);
      b ← h_advance (ch_b c) cnt; mret (mkChain a b)
  else
    b ← h_advance (ch_b c) cnt; mret (mkChain (ch_a c) b).
End adapters.

#[global] Instance take_hbuf {T} `{HBuf T} : HBuf (Take T) := {
  h_remaining := htake_remaining;
  h_chunk := htake_chunk;
  h_advance := htake_advance;
  h_drop t := h_drop (tk_inner t);
}.

(** The fields are dropped in the order of their declaration. *)
#[global] Instance chain_hbuf {T U} `{HBuf T} `{HBuf U} : HBuf (Chain T U) := {
  h_remaining := hchain_remaining;
  h_chunk := hchain_chunk;
  h_advance := hchain_advance;
  h_drop c := h_drop (ch_a c);; h_drop (ch_b c);
}.

(** ** Provided methods and clients *)

Section clients.
Context {T : Type} `{HBuf T}.

Fixpoint h_copy_loop (fuel : nat) (t : T) (dst_len : Z) (acc : list byte) : M (T * list byte) :=
  if dst_len =? 0 then mret (t, acc) else
  match fuel with
  | O => stopM SFuel
  | S fuel' =>
      src ← h_chunk t;
      let cnt := Z.min (zlen src) dst_len in
      t ← h_advance t cnt;
      h_copy_loop fuel' t (dst_len - cnt) (acc ++ ztake cnt src)
  end.

Definition h_copy_to_slice (t : T) (dst_len : Z) : M (T * list byte) :=
  if h_remaining t <? dst_len then stopM (SPanic (PAdvance dst_len (h_remaining t)))
  else h_copy_loop (Z.to_nat dst_len) t dst_len [].

(** [buf_get_impl!] *)
Definition h_get_impl (size : Z) (conv : list byte → Z) (t : T) : M (T * Z) :=
  if h_remaining t <? size then stopM (SPanic (PAdvance size (h_remaining t))) else
  src ← h_chunk t;
  if size <=? zlen src then
    let ret := conv (ztake size src) in
    t ← h_advance t size;
    mret (t, ret)
  else
    '(t, buf) ← h_copy_to_slice t size;
    mret (t, conv buf).

(** [BufMut::put] of [BytesMut], which drops the source at its end. *)
Fixpoint h_put (fuel : nat) (b : BytesMut) (src : T) : M BytesMut :=
  if h_has_remaining src then
    match fuel with
    | O => stopM SFuel
    | S fuel' =>
        s ← h_chunk src;
        let l := zlen s in
        b ← extend_from_slice b s;
        src ← h_advance src l;
        h_put fuel' b src
    end
  else h_drop src;; mret b.

(** [IntoIter::next] and [size_hint] *)
Definition h_next (it : IntoIter T) : M (IntoIter T * option byte) :=
  if negb (h_has_remaining (it_inner it)) then mret (it, None) else
  src ← h_chunk (it_inner it);
  b ← lift (index src 0);
  inner ← h_advance (it_inner it) 1;
  mret (mkIntoIter inner, Some b).

Definition h_size_hint (it : IntoIter T) : Z * option Z :=
  let rem := h_remaining (it_inner it) in (rem, Some rem).
End clients.

(** *** [Vec::from_iter] of the standard library

    The first item, a vector with room for it and for the lower bound of the rest
    (at least 8 bytes), and then one [push] per item, which reserves for the lower bound
    when the vector is full; at the end the iterator is dropped. *)
Section from_iter.
Context {T : Type} `{HBuf T}.

Definition rv_push (v : RVec) (lower : Z) (b : byte) : M RVec :=
  v ← (if rv_len v =? rv_cap v then rv_reserve v (saturating_add 64 lower 1) else mret v);
  p ← ptr_add (rv_ptr v) (rv_len v);
  store p [Some b];;
  mret (rv_set_len v (rv_len v + 1)).

Fixpoint extend_desugared (fuel : nat) (v : RVec) (it : IntoIter T) : M RVec :=
  match fuel with
  | O => stopM SFuel
  | S fuel' =>
      '(it, item) ← h_next it;
      match item with
      | None => h_drop (it_inner it);; mret v
      | Some b => v ← rv_push v (h_size_hint it).1 b; extend_desugared fuel' v it
      end
  end.

Definition vec_from_iter (fuel : nat) (it : IntoIter T) : M RVec :=
  '(it, item) ← h_next it;
  match item with
  | None => v ← rv_new; h_drop (it_inner it);; mret v
  | Some b =>
      v ← rv_with_capacity (Z.max 8 (saturating_add 64 (h_size_hint it).1 1));
      v ← rv_push v (h_size_hint it).1 b;
      extend_desugared fuel v it
  end.

(** [Bytes::from_iter] and [BytesMut::from_iter], over [t.into_iter()] *)
Definition by_from_iter (fuel : nat) (it : IntoIter T) : M Bytes :=
  v ← vec_from_iter fuel it; by_from_vec v.

Definition bm_from_iter (fuel : nat) (it : IntoIter T) : M BytesMut :=
  v ← vec_from_iter fuel it; from_vec v.
End from_iter.

Definition by_into_iter (b : Bytes) : IntoIter Bytes := iter_new b.
Definition bm_into_iter (b : BytesMut) : IntoIter BytesMut := iter_new b.

(** [Extend<Bytes>::extend]: each item is dropped at the end of its turn. *)
Fixpoint extend_handles (b : BytesMut) (items : list Bytes) : M BytesMut :=
  match items with
  | [] => mret b
  | bytes :: items =>
      s ← by_as_slice bytes;
      b ← extend_from_slice b s;
      by_drop bytes;;
      extend_handles b items
  end.
End instances.

(** ** The contract

    [reads t bs L]: the reader [t] has the bytes [bs] left and owns the handles [L]. *)

Class HBufLaws `{Build} `{Allocator} (T : Type) `{HBuf T} := {
  reads : T → list byte → list entry → Prop;
  reads_bound t bs L R h : reads t bs L → live (L ++ R) h → zlen bs ≤ usize_max;
  h_remaining_ok t bs L R h : reads t bs L → live (L ++ R) h → h_remaining t = zlen bs;
  h_chunk_ok t bs L R h : reads t bs L → live (L ++ R) h →
    wpm (h_chunk t) h bm_stop (λ c h', h' = h ∧ (∃ k, bs = c ++ k) ∧ (bs ≠ [] → c ≠ []));
  h_advance_ok t bs L R h n : reads t bs L → live (L ++ R) h → 0 ≤ n ≤ zlen bs →
    wpm (h_advance t n) h bm_stop (λ t' h', ∃ L', reads t' (zdrop n bs) L' ∧ live (L' ++ R) h');
  h_drop_ok t bs L R h : reads t bs L → live (L ++ R) h →
    wpm (h_drop t) h bm_stop (λ _ h', live R h');
}.

Section laws.
Context `{Build} `{Hal : AllocatorLaws}.

Lemma isize_usize n : n ≤ isize_max → n ≤ usize_max.
Proof. unfold isize_max, usize_max. lia. Qed.

#[global] Program Instance bytes_hlaws : HBufLaws Bytes := {|
  reads b bs L := L = [(HBytes b, bs)];
|}.
Next Obligation. intros b bs L R h -> Hl. destruct (bytes_len _ _ _ _ Hl) as [E ?]. apply isize_usize. lia. Qed.
Next Obligation. intros b bs L R h -> Hl. by destruct (bytes_len _ _ _ _ Hl). Qed.
Next Obligation.
  intros b bs L R h -> Hl. unfold wpm. simpl. unfold by_chunk. rewrite (by_as_slice_ok _ _ _ _ Hl).
  split; [done|]. split; [exists []; by rewrite app_nil_r|done].
Qed.
Next Obligation.
  intros b bs L R h n -> Hl Hn. eapply wpm_mono; [by apply (by_advance_ok b bs R h n)|].
  intros b' h' Hl'. by exists [(HBytes b', zdrop n bs)].
Qed.
Next Obligation. intros b bs L R h -> Hl. by eapply by_drop_ok. Qed.

#[global] Program Instance bytes_mut_hlaws : HBufLaws BytesMut := {|
  reads b bs L := L = [(HMut b, bs)];
|}.
Next Obligation. intros b bs L R h -> Hl. destruct (live_len _ _ _ _ Hl) as (E & ? & ?). apply isize_usize. lia. Qed.
Next Obligation. intros b bs L R h -> Hl. by destruct (live_len _ _ _ _ Hl) as (E & _). Qed.
Next Obligation.
  intros b bs L R h -> Hl. eapply wpm_mono; [by apply (as_slice_ok b bs R h)|].
  intros c h' [-> ->]. split; [done|]. split; [exists []; by rewrite app_nil_r|done].
Qed.
Next Obligation.
  intros b bs L R h n -> Hl Hn. eapply wpm_mono; [by apply (bm_advance_ok b bs R h n)|].
  intros b' h' Hl'. by exists [(HMut b', zdrop n bs)].
Qed.
Next Obligation. intros b bs L R h -> Hl. by eapply bm_drop_ok. Qed.

#[global] Program Instance pure_hlaws {T} `{BufLaws T} : HBufLaws (Pure T) := {|
  reads t bs L := buf_wf (pure t) ∧ bs = content (pure t) ∧ L = [];
|}.
Next Obligation. intros T ? ? t bs L R h (Hw & -> & ->) _. by apply content_bound. Qed.
Next Obligation. intros T ? ? t bs L R h (Hw & -> & ->) _. by apply remaining_content. Qed.
Next Obligation.
  intros T ? ? t bs L R h (Hw & -> & ->) _. apply wpm_ret. split; [done|].
  split; [by apply chunk_prefix|by apply chunk_nonempty].
Qed.
Next Obligation.
  intros T ? ? t bs L R h n (Hw & -> & ->) Hl Hn. apply wpm_bind, wpm_lift.
  destruct (advance_ok (pure t) n Hw Hn) as (t' & -> & Hw' & Hc'). apply wpm_ret. by exists [].
Qed.
Next Obligation. intros T ? ? t bs L R h (Hw & -> & ->) Hl. by apply wpm_ret. Qed.

(** *** Adapters *)

Section take_laws.
Context {T : Type} `{!HBuf T} `{!HBufLaws T}.

#[global] Program Instance take_hlaws : HBufLaws (Take T) := {|
  reads t bs L := is_usize (tk_limit t) ∧ ∃ bs0, reads (tk_inner t) bs0 L ∧ bs = ztake (tk_limit t) bs0;
|}.
Next Obligation.
  intros t bs L R h (Hlim & bs0 & Hr & ->) Hl. pose proof (reads_bound _ _ _ _ _ Hr Hl).
  unfold is_usize, is_unsigned in *. rewrite zlen_ztake by lia. lia.
Qed.
Next Obligation.
  intros t bs L R h (Hlim & bs0 & Hr & ->) Hl. simpl. unfold htake_remaining.
  rewrite (h_remaining_ok _ _ _ _ _ Hr Hl). unfold is_usize, is_unsigned in *. rewrite zlen_ztake; lia.
Qed.
Next Obligation.
  intros t bs L R h (Hlim & bs0 & Hr & ->) Hl. simpl. unfold htake_chunk, is_usize, is_unsigned in *.
  apply wpm_bind. eapply wpm_mono; [by apply (h_chunk_ok _ _ _ R h Hr)|].
  intros c h' (-> & (k & ->) & Hne). apply wpm_ret. split; [done|]. split.
  - destruct (Z.le_ge_cases (tk_limit t) (zlen c)) as [Hc|Hc].
    + exists []. rewrite Z.min_r, app_nil_r, ztake_app_le by lia. done.
    + exists (ztake (tk_limit t - zlen c) k). rewrite Z.min_l, (ztake_all (zlen c) c) by lia. by rewrite ztake_app_ge by lia.
  - intros Hb Hc. apply (f_equal zlen) in Hc. unfold zlen at 3 in Hc. simpl in Hc.
    rewrite zlen_ztake in Hc by (pose proof (zlen_nonneg c); lia).
    assert (c ++ k ≠ []) as Hck by (intros E; rewrite E in Hb; by destruct Hb; unfold ztake; rewrite take_nil).
    destruct (Hne Hck). apply zlen_nil_inv. assert (tk_limit t ≠ 0) by (intros E; by rewrite E, ztake_0 in Hb).
    pose proof (zlen_nonneg c). lia.
Qed.
Next Obligation.
  intros t bs L R h n (Hlim & bs0 & Hr & ->) Hl Hn. simpl. unfold htake_advance, is_usize, is_unsigned in *.
  rewrite zlen_ztake in Hn by lia.
  apply wpm_bind, wpm_lift. rewrite (proj2 (Z.leb_le _ _)) by lia. simpl.
  apply wpm_bind. eapply wpm_mono; [apply (h_advance_ok _ _ _ R h n Hr Hl); lia|].
  intros t' h' (L' & Hr' & Hl'). apply wpm_bind, wpm_usize_sub; [lia|]. apply wpm_ret. exists L'.
  split; [|done]. split; [simpl; lia|]. exists (zdrop n bs0). split; [done|].
  simpl. apply zdrop_ztake. lia.
Qed.
Next Obligation. intros t bs L R h (_ & bs0 & Hr & _) Hl. exact (h_drop_ok _ _ _ _ _ Hr Hl). Qed.
End take_laws.

Lemma live_app_swap L L' R h : live (L ++ L' ++ R) h → live (L' ++ L ++ R) h.
Proof. by rewrite Permutation_app_swap_app. Qed.

Section chain_laws.
Context {T U : Type} `{!HBuf T} `{!HBufLaws T} `{!HBuf U} `{!HBufLaws U}.

#[global] Program Instance chain_hlaws : HBufLaws (Chain T U) := {|
  reads c bs L := zlen bs ≤ usize_max ∧ ∃ bs1 bs2 L1 L2, bs = bs1 ++ bs2 ∧ L = L1 ++ L2
    ∧ reads (ch_a c) bs1 L1 ∧ reads (ch_b c) bs2 L2;
|}.
Next Obligation. by intros c bs L R h [? _] _. Qed.
Next Obligation.
  intros c bs L R h (Hb & bs1 & bs2 & L1 & L2 & -> & -> & Ra & Rb) Hl.
  rewrite <-(assoc_L (++)) in Hl. simpl. unfold hchain_remaining, saturating_add.
  rewrite (h_remaining_ok _ _ _ _ _ Ra Hl), (h_remaining_ok _ _ _ _ _ Rb (live_app_swap _ _ _ _ Hl)).
  rewrite zlen_app in *. unfold usize_max in Hb. lia.
Qed.
Next Obligation.
  intros c bs L R h (Hb & bs1 & bs2 & L1 & L2 & -> & -> & Ra & Rb) Hl.
  rewrite <-(assoc_L (++)) in Hl. simpl. unfold hchain_chunk, h_has_remaining.
  rewrite (h_remaining_ok _ _ _ _ _ Ra Hl). destruct (Z.ltb_spec 0 (zlen bs1)) as [Hp|Hp].
  - eapply wpm_mono; [by apply (h_chunk_ok _ _ _ _ _ Ra Hl)|].
    intros cc h' (-> & (k & ->) & Hne). split; [done|]. split; [exists (k ++ bs2); by rewrite (assoc_L (++))|].
    intros _. apply Hne. intros E. rewrite E in Hp. done.
  - assert (bs1 = []) as -> by (apply zlen_nil_inv; pose proof (zlen_nonneg bs1); lia).
    apply (h_chunk_ok _ _ _ _ _ Rb (live_app_swap _ _ _ _ Hl)).
Qed.
Next Obligation.
  intros c bs L R h n (Hb & bs1 & bs2 & L1 & L2 & -> & -> & Ra & Rb) Hl Hn.
  rewrite <-(assoc_L (++)) in Hl. simpl. unfold hchain_advance.
  rewrite (h_remaining_ok _ _ _ _ _ Ra Hl). rewrite zlen_app in *. pose proof (zlen_nonneg bs1).
  pose proof (zlen_nonneg bs2).
  assert (∀ bs1' L1' (a : T) n' h', reads a bs1' L1' → live (L1' ++ L2 ++ R) h' → 0 ≤ n' ≤ zlen bs2 →
    zlen bs1' + zlen bs2 - n' ≤ usize_max →
    wpm (b ← h_advance (ch_b c) n'; mret (mkChain a b)) h' bm_stop (λ c' h'', ∃ L',
      (zlen (bs1' ++ zdrop n' bs2) ≤ usize_max ∧ ∃ bs1'' bs2'' L1'' L2'', bs1' ++ zdrop n' bs2 = bs1'' ++ bs2''
        ∧ L' = L1'' ++ L2'' ∧ reads (ch_a c') bs1'' L1'' ∧ reads (ch_b c') bs2'' L2'') ∧ live (L' ++ R) h'')) as Hb2.
  { intros bs1' L1' a n' h' Ra' Hl' Hn' Hm. apply wpm_bind.
    eapply wpm_mono; [by apply (h_advance_ok _ _ _ _ _ n' Rb (live_app_swap _ _ _ _ Hl'))|].
    intros b h'' (L2' & Rb' & Hl''). apply wpm_ret. exists (L1' ++ L2').
    rewrite zlen_app, zlen_zdrop by lia. split; [split; [lia|]|].
    - by exists bs1', (zdrop n' bs2), L1', L2'.
    - rewrite <-(assoc_L (++)). by apply live_app_swap. }
  destruct (Z.eqb_spec (zlen bs1) 0) as [E|E]; simpl.
  - rewrite zdrop_app_ge, E, Z.sub_0_r by lia.
    assert (bs1 = []) as -> by (by apply zlen_nil_inv).
    apply (Hb2 [] L1 (ch_a c) n h); try done; lia.
  - destruct (Z.ltb_spec n (zlen bs1)) as [Hlt|Hge].
    + apply wpm_bind. eapply wpm_mono; [apply (h_advance_ok _ _ _ _ _ n Ra Hl); lia|].
      intros a h' (L1' & Ra' & Hl'). apply wpm_ret. exists (L1' ++ L2). rewrite <-(assoc_L (++)).
      split; [|done]. rewrite zlen_zdrop, zlen_app, zdrop_app_le by (rewrite ?zlen_app; lia).
      split; [lia|]. by exists (zdrop n bs1), bs2, L1', L2.
    + apply wpm_bind. eapply wpm_mono; [apply (h_advance_ok _ _ _ _ _ (zlen bs1) Ra Hl); lia|].
      intros a h' (L1' & Ra' & Hl'). unfold usize_max in *. apply wpm_bind, wpm_usize_sub; [lia|].
      rewrite zdrop_app_ge by lia. rewrite zdrop_all in Ra' by lia.
      apply (Hb2 [] L1' a (n - zlen bs1) h'); try done; try (change (zlen (@nil byte)) with 0; unfold usize_max); lia.
Qed.
Next Obligation.
  intros c bs L R h (Hb & bs1 & bs2 & L1 & L2 & -> & -> & Ra & Rb) Hl.
  rewrite <-(assoc_L (++)) in Hl. simpl. apply wpm_bind.
  eapply wpm_mono; [by apply (h_drop_ok _ _ _ _ _ Ra Hl)|]. intros [] h' Hl'. by eapply h_drop_ok.
Qed.
End chain_laws.

(** ** Reading *)

Section reading.
Context {T : Type} `{!HBuf T} `{!HBufLaws T}.

Lemma h_has_remaining_ok t bs L R h :
  reads t bs L → live (L ++ R) h → h_has_remaining t = bool_decide (bs ≠ []).
Proof.
  intros Hr Hl. unfold h_has_remaining. rewrite (h_remaining_ok _ _ _ _ _ Hr Hl).
  destruct bs; [done|]. rewrite bool_decide_true by done. by apply Z.ltb_lt.
Qed.

(** A chunk and what an [advance] over it leaves. *)
Lemma chunk_pos (c k bs : list byte) : bs = c ++ k → (bs ≠ [] → c ≠ []) → bs ≠ [] → 0 < zlen c ≤ zlen bs.
Proof.
  intros -> Hne Hb. specialize (Hne Hb). rewrite zlen_app. pose proof (zlen_nonneg k).
  destruct c; [done|]. unfold zlen. simpl. lia.
Qed.

Lemma h_copy_loop_ok fuel t bs L R h n acc :
  reads t bs L → live (L ++ R) h → 0 ≤ n ≤ zlen bs → n ≤ Z.of_nat fuel →
  wpm (h_copy_loop fuel t n acc) h bm_stop (λ '(t', out) h',
    out = acc ++ ztake n bs ∧ ∃ L', reads t' (zdrop n bs) L' ∧ live (L' ++ R) h').
Proof.
  revert t bs L h n acc. induction fuel as [|fuel IH]; intros t bs L h n acc Hr Hl Hn Hf; simpl;
    (destruct (Z.eqb_spec n 0) as [->|Hn0];
      [apply wpm_ret; rewrite ztake_0, zdrop_0, app_nil_r; by eauto|]); [lia|].
  assert (bs ≠ []) as Hbs by (intros ->; unfold zlen in Hn; simpl in Hn; lia).
  apply wpm_bind. eapply wpm_mono; [by apply (h_chunk_ok _ _ _ _ _ Hr Hl)|].
  intros c h1 (-> & (k & Hk) & Hne). pose proof (chunk_pos _ _ _ Hk Hne Hbs).
  set (cnt := Z.min (zlen c) n). apply wpm_bind.
  eapply wpm_mono; [apply (h_advance_ok _ _ _ _ _ cnt Hr Hl); lia|]. intros t' h' (L' & Hr' & Hl').
  assert (zlen (zdrop cnt bs) = zlen bs - cnt) as Hz by (rewrite zlen_zdrop; lia).
  eapply wpm_mono; [apply (IH t' (zdrop cnt bs) L' h' (n - cnt)); try done; lia|].
  intros [t2 out] h2 (-> & L2 & Hr2 & Hl2). rewrite zdrop_zdrop in Hr2 by lia.
  replace (cnt + (n - cnt)) with n in Hr2 by lia. split; [|by eauto].
  rewrite <-(assoc_L (++)). f_equal. replace (ztake n bs) with (ztake (cnt + (n - cnt)) bs) by (f_equal; lia).
  rewrite ztake_add by lia. f_equal. rewrite Hk, ztake_app_le; [done|lia].
Qed.

Lemma h_copy_to_slice_ok t bs L R h n :
  reads t bs L → live (L ++ R) h → 0 ≤ n ≤ zlen bs →
  wpm (h_copy_to_slice t n) h bm_stop (λ '(t', out) h',
    out = ztake n bs ∧ ∃ L', reads t' (zdrop n bs) L' ∧ live (L' ++ R) h').
Proof.
  intros Hr Hl Hn. unfold h_copy_to_slice. rewrite (h_remaining_ok _ _ _ _ _ Hr Hl).
  rewrite (proj2 (Z.ltb_ge _ _)) by lia. apply (h_copy_loop_ok _ _ _ _ _ _ _ [] Hr Hl Hn). lia.
Qed.

Lemma h_get_impl_ok size conv t bs L R h :
  reads t bs L → live (L ++ R) h → 0 ≤ size →
  (size ≤ zlen bs → wpm (h_get_impl size conv t) h bm_stop (λ '(t', x) h',
    x = conv (ztake size bs) ∧ ∃ L', reads t' (zdrop size bs) L' ∧ live (L' ++ R) h'))
  ∧ (zlen bs < size → h_get_impl size conv t h = Panic (PAdvance size (zlen bs))).
Proof.
  intros Hr Hl Hs. unfold h_get_impl. rewrite (h_remaining_ok _ _ _ _ _ Hr Hl). split; intros Hn;
    [rewrite (proj2 (Z.ltb_ge _ _)) by lia|by rewrite (proj2 (Z.ltb_lt _ _)) by lia].
  apply wpm_bind. eapply wpm_mono; [by apply (h_chunk_ok _ _ _ _ _ Hr Hl)|].
  intros c h1 (-> & (k & Hk) & _). destruct (Z.leb_spec size (zlen c)) as [Hc|Hc]; apply wpm_bind.
  - eapply wpm_mono; [apply (h_advance_ok _ _ _ _ _ size Hr Hl); lia|]. intros t' h' HL.
    apply wpm_ret. split; [|done]. by rewrite Hk, ztake_app_le by lia.
  - eapply wpm_mono; [apply (h_copy_to_slice_ok _ _ _ _ _ size Hr Hl); lia|].
    intros [t' out] h' [-> HL]. by apply wpm_ret.
Qed.

Lemma h_put_ok fuel b cs t bs L R h :
  reads t bs L → live ((HMut b, cs) :: L ++ R) h → zlen bs ≤ isize_max → zlen bs ≤ Z.of_nat fuel →
  wpm (h_put fuel b t) h bm_stop (λ b' h', live ((HMut b', cs ++ bs) :: R) h').
Proof using Hal.
  revert b cs t bs L h. induction fuel as [|fuel IH]; intros b cs t bs L h Hr Hl Hm Hf;
    (assert (live (L ++ (HMut b, cs) :: R) h) as Hl1 by by rewrite <-Permutation_middle); simpl;
    rewrite (h_has_remaining_ok _ _ _ _ _ Hr Hl1);
    (case_bool_decide as Hc; [|subst bs; rewrite app_nil_r; apply wpm_bind;
      eapply wpm_mono; [exact (h_drop_ok _ _ _ _ _ Hr Hl1)|intros [] h' Hl'; by apply wpm_ret]]).
  { destruct bs; [done|]. unfold zlen in Hf. simpl in Hf. lia. }
  apply wpm_bind. eapply wpm_mono; [by apply (h_chunk_ok _ _ _ _ _ Hr Hl1)|].
  intros c h1 (-> & (k & Hk) & Hne). pose proof (chunk_pos _ _ _ Hk Hne Hc).
  apply wpm_bind. eapply wpm_mono; [apply extend_from_slice_ok; [exact Hl|lia]|]. intros b' h' Hl'.
  apply wpm_bind. eapply wpm_mono; [apply (h_advance_ok _ _ _ ((HMut b', cs ++ c) :: R) h' (zlen c) Hr)|];
    [by rewrite <-Permutation_middle|lia|].
  intros t' h2 (L' & Hr' & Hl2). rewrite Hk, zdrop_app_exact in Hr'.
  assert (zlen bs = zlen c + zlen k) as Hz by (by rewrite Hk, zlen_app). pose proof (zlen_nonneg k).
  rewrite Hk, (assoc_L (++)). eapply IH; [exact Hr'| |lia|lia]. by rewrite Permutation_middle.
Qed.

(** ** Iterating and collecting *)

Lemma h_next_ok t bs L R h :
  reads t bs L → live (L ++ R) h →
  wpm (h_next (mkIntoIter t)) h bm_stop (λ '(it, item) h', item = head bs ∧
    ∃ L', reads (it_inner it) (tail bs) L' ∧ live (L' ++ R) h').
Proof.
  intros Hr Hl. unfold h_next. simpl. rewrite (h_has_remaining_ok _ _ _ _ _ Hr Hl).
  destruct bs as [|b bs]; [apply wpm_ret; by eauto|]. rewrite bool_decide_true by done. simpl.
  apply wpm_bind. eapply wpm_mono; [by apply (h_chunk_ok _ _ _ _ _ Hr Hl)|].
  intros c h1 (-> & (k & Hk) & Hne). specialize (Hne ltac:(done)). destruct c as [|b' c]; [done|].
  injection Hk as <- Hk. apply wpm_bind, wpm_lift. unfold index. simpl.
  apply wpm_bind. eapply wpm_mono; [apply (h_advance_ok _ _ _ _ _ 1 Hr Hl)|].
  { unfold zlen. simpl. lia. }
  intros t' h' HL. by apply wpm_ret.
Qed.

Lemma rv_push_ok v acc R h lower x :
  vec_live v acc R h → rv_len v < rv_cap v →
  wpm (rv_push v lower x) h bm_stop (λ v' h', vec_live v' (acc ++ [x]) R h' ∧ rv_cap v' = rv_cap v).
Proof.
  intros Hv Hlt. unfold rv_push. rewrite (proj2 (Z.eqb_neq _ _)) by lia.
  apply wpm_bind, wpm_ret. apply vec_live_handle in Hv.
  destruct (live_len _ _ _ _ Hv) as (El & ? & ?). simpl in El. pose proof (zlen_nonneg acc).
  destruct (live_block _ _ _ _ Hv) as (blk & base & cells & off & Ep & Hk & ? & Hcap & _). simpl in Ep, Hcap.
  apply wpm_bind. rewrite Ep, El. eapply wpm_ptr_offset; [done|lia|lia|].
  apply wpm_bind. eapply wpm_mono;
    [eapply (store_spare_ok _ acc R h [x] Hv); [unfold zlen at 2; simpl; lia|simpl; by rewrite Ep, Z.add_assoc]|].
  intros [] h' Hv'. apply wpm_ret. split; [|done]. by apply vec_live_handle.
Qed.

(** The vector and the iterator it is filled from. *)
Lemma vec_live_swap v acc L R h : vec_live v acc (L ++ R) h ↔ live (L ++ (HMut (as_handle v), acc) :: R) h.
Proof. rewrite vec_live_handle. by rewrite <-Permutation_middle. Qed.

Lemma extend_desugared_ok fuel v acc t bs L R h :
  reads t bs L → vec_live v acc (L ++ R) h → zlen acc + zlen bs ≤ rv_cap v → zlen bs < Z.of_nat fuel →
  wpm (extend_desugared fuel v (mkIntoIter t)) h bm_stop (λ v' h', vec_live v' (acc ++ bs) R h').
Proof.
  revert v acc t bs L h. induction fuel as [|fuel IH]; intros v acc t bs L h Hr Hv Hc Hf.
  { pose proof (zlen_nonneg bs). lia. }
  cbn [extend_desugared]. apply wpm_bind.
  apply vec_live_swap in Hv.
  eapply wpm_mono; [exact (h_next_ok _ _ _ _ _ Hr Hv)|].
  intros [[t'] item] h' (-> & L' & Hr' & Hl'). destruct bs as [|b bs]; simpl in *.
  - apply wpm_bind. eapply wpm_mono; [exact (h_drop_ok _ _ _ _ _ Hr' Hl')|]. intros [] h2 Hl2.
    apply wpm_ret. rewrite app_nil_r. by apply vec_live_handle.
  - apply vec_live_swap in Hl'. assert (zlen (b :: bs) = 1 + zlen bs) as Hz by (unfold zlen; simpl; lia).
    rewrite Hz in *. assert (rv_len v = zlen acc) as El.
    { apply vec_live_handle in Hl'. by destruct (live_len _ _ _ _ Hl'). }
    pose proof (zlen_nonneg bs). apply wpm_bind.
    eapply wpm_mono; [apply (rv_push_ok _ _ _ _ _ _ Hl'); lia|]. intros v2 h2 [Hv2 Hcap].
    replace (acc ++ b :: bs) with ((acc ++ [b]) ++ bs) by by rewrite <-(assoc_L (++)).
    eapply IH; [exact Hr'|exact Hv2| |lia]. rewrite Hcap, zlen_app. change (zlen [b]) with 1. lia.
Qed.

Lemma vec_from_iter_ok fuel t bs L R h :
  reads t bs L → live (L ++ R) h → zlen bs ≤ Z.of_nat fuel →
  wpm (vec_from_iter fuel (iter_new t)) h bm_stop (λ v h', vec_live v bs R h').
Proof using Hal.
  intros Hr Hl Hf. unfold vec_from_iter. apply wpm_bind.
  eapply wpm_mono; [by apply (h_next_ok _ _ _ _ _ Hr Hl)|].
  intros [[t'] item] h' (-> & L' & Hr' & Hl'). destruct bs as [|b bs]; simpl in *.
  - apply wpm_bind. eapply wpm_mono; [apply (rv_with_capacity_ok (L' ++ R) h' 0 Hl'); done|].
    intros v h2 [Hv _]. apply wpm_bind.
    apply vec_live_swap in Hv.
    eapply wpm_mono; [exact (h_drop_ok _ _ _ _ _ Hr' Hv)|]. intros [] h3 Hl3.
    apply wpm_ret. by apply vec_live_handle.
  - assert (zlen (b :: bs) = 1 + zlen bs) as Hz by (unfold zlen; simpl; lia). pose proof (zlen_nonneg bs).
    pose proof (reads_bound _ _ _ _ _ Hr Hl) as Hb. rewrite Hz in *.
    unfold h_size_hint. simpl. rewrite (h_remaining_ok _ _ _ _ _ Hr' Hl').
    assert (saturating_add 64 (zlen bs) 1 = zlen bs + 1) as -> by (unfold saturating_add, usize_max in *; lia).
    apply wpm_bind. eapply wpm_mono; [apply (rv_with_capacity_ok (L' ++ R) h' _ Hl'); lia|].
    intros v h2 [Hv Hcap]. assert (rv_len v = 0) as El.
    { apply vec_live_handle in Hv. by destruct (live_len _ _ _ _ Hv). }
    apply wpm_bind. eapply wpm_mono; [apply (rv_push_ok _ _ _ _ _ _ Hv); lia|]. intros v3 h3 [Hv3 Hcap3].
    eapply (extend_desugared_ok fuel v3 [b]); [exact Hr'|exact Hv3| |lia].
    change (zlen [b]) with 1. lia.
Qed.
End reading.

Lemma extend_handles_ok b cs items R h :
  live ((HMut b, cs) :: map (λ i, (HBytes i.1, i.2)) items ++ R) h →
  wpm (extend_handles b items.*1) h bm_stop (λ b' h', live ((HMut b', cs ++ mjoin items.*2) :: R) h').
Proof using Hal.
  revert b cs h. induction items as [|[i bs] items IH]; intros b cs h Hl; simpl.
  { apply wpm_ret. by rewrite app_nil_r. }
  simpl in Hl. apply live_swap in Hl. destruct (bytes_len _ _ _ _ Hl) as [E Hm].
  apply wpm_bind. unfold wpm at 1. rewrite (by_as_slice_ok _ _ _ _ Hl).
  apply live_swap in Hl. apply wpm_bind. eapply wpm_mono; [apply extend_from_slice_ok; [exact Hl|lia]|].
  intros b' h' Hl'. apply live_swap in Hl'. apply wpm_bind. eapply wpm_mono; [by eapply by_drop_ok|].
  intros [] h2 Hl2. rewrite (assoc_L (++)). by apply IH.
Qed.
End laws.

(** ** The theorems *)

Section theorems.
Context `{Build} `{Hal : AllocatorLaws} {T : Type} `{!HBuf T} `{!HBufLaws T}.

(** C12: Collecting the bytes of a reader into a [Bytes] or a [BytesMut] gives a handle with
    exactly its bytes and frees the handles the reader was made of; all other handles
    keep theirs.  Readers are [Bytes], [BytesMut], every lawful [Buf], and [Take] and
    [Chain] of readers; as much fuel as there are bytes is enough. *)
Theorem collect_roundtrip (t : T) bs L R h fuel :
  reads t bs L → live (L ++ R) h → zlen bs ≤ Z.of_nat fuel →
  wpm (by_from_iter fuel (iter_new t)) h bm_stop (λ b h', live ((HBytes b, bs) :: R) h')
  ∧ wpm (bm_from_iter fuel (iter_new t)) h bm_stop (λ b h', live ((HMut b, bs) :: R) h')
  ∧ h_size_hint (iter_new t) = (zlen bs, Some (zlen bs)).
Proof using Hal.
  intros Hr Hl Hf. split; [|split].
  - apply wpm_bind. eapply wpm_mono; [by apply (vec_from_iter_ok _ _ _ _ _ _ Hr Hl)|].
    intros v h' Hv. by apply from_vec_bytes_ok.
  - apply wpm_bind. eapply wpm_mono; [by apply (vec_from_iter_ok _ _ _ _ _ _ Hr Hl)|].
    intros v h' Hv. eapply wpm_mono; [exact (from_vec_ok v bs R h' Hv)|]. by intros b h2 [? _].
  - unfold h_size_hint. simpl. by rewrite (h_remaining_ok _ _ _ _ _ Hr Hl).
Qed.

(** C22: Reading from handles on the heap, alone or nested in [Take] and [Chain]: an
    integer is what its bytes encode, also where it spans two handles, and too few bytes
    are a panic; [BytesMut::put] appends everything the reader has and drops it, and
    [extend] with [Bytes] handles appends and drops each of them. *)
Theorem handles_read (t : T) bs L R h :
  reads t bs L → live (L ++ R) h →
  (∀ size conv, 0 ≤ size ≤ zlen bs →
    wpm (h_get_impl size conv t) h bm_stop (λ '(t', x) h', x = conv (ztake size bs)
      ∧ ∃ L', reads t' (zdrop size bs) L' ∧ live (L' ++ R) h'))
  ∧ (∀ size conv, zlen bs < size → h_get_impl size conv t h = Panic (PAdvance size (zlen bs)))
  ∧ (∀ b cs R' fuel, R ≡ₚ (HMut b, cs) :: R' → zlen bs ≤ isize_max → zlen bs ≤ Z.of_nat fuel →
      wpm (h_put fuel b t) h bm_stop (λ b' h', live ((HMut b', cs ++ bs) :: R') h'))
  ∧ (∀ b cs items R', L ++ R ≡ₚ (HMut b, cs) :: map (λ i, (HBytes i.1, i.2)) items ++ R' →
      wpm (extend_handles b items.*1) h bm_stop (λ b' h', live ((HMut b', cs ++ mjoin items.*2) :: R') h')).
Proof using Hal.
  intros Hr Hl. split; [|split; [|split]].
  - intros size conv Hs. apply (proj1 (h_get_impl_ok size conv t bs L R h Hr Hl ltac:(lia))). lia.
  - intros size conv Hs. pose proof (zlen_nonneg bs).
    apply (proj2 (h_get_impl_ok size conv t bs L R h Hr Hl ltac:(lia))). lia.
  - intros b cs R' fuel HR Hm Hf. eapply h_put_ok; [exact Hr| |done|done].
    rewrite HR in Hl. by rewrite <-Permutation_middle in Hl.
  - intros b cs items R' HLR. apply extend_handles_ok. by rewrite <-HLR.
Qed.
End theorems.

#[local] Existing Instance debug_build.
#[local] Existing Instance bump.
#[local] Existing Instance bump_laws.

(** Three bytes of a slice, and a [BytesMut] behind them. *)
Definition mixed : Chain (Take (Pure (list byte))) BytesMut :=
  chain_new (take_new (mkPure hello) 3) (fst hello_state).

Lemma mixed_reads : reads mixed (bstr "helhello") [(HMut (fst hello_state), hello)].
Proof.
  split; [by vm_compute|]. exists (bstr "hel"), hello, [], [(HMut (fst hello_state), hello)].
  split_and!; [done..| |done]. split; [by vm_compute|]. exists hello. split; [|done]. by split.
Qed.

Lemma collect_roundtrip_witness :
  wpm (by_from_iter 8 (iter_new mixed)) (snd hello_state) bm_stop
    (λ b h', live [(HBytes b, bstr "helhello")] h').
Proof.
  refine (proj1 (collect_roundtrip mixed _ _ [] (snd hello_state) 8 mixed_reads hello_live _)). by vm_compute.
Defined.

Lemma handles_read_witness :
  wpm (h_get_impl 4 from_be_bytes mixed) (snd hello_state) bm_stop (λ '(t', x) h', x = 0x68656c68
    ∧ ∃ L', reads t' (bstr "ello") L' ∧ live (L' ++ []) h').
Proof.
  refine (proj1 (handles_read mixed _ _ [] (snd hello_state) mixed_reads hello_live) 4 from_be_bytes _).
  by vm_compute.
Defined.
