(* ===== verification/Views.v ===== *)
(** * The small impls of [Bytes] and [BytesMut]: views, conversions, [write_fmt]

    [Deref], [AsRef], the iterators by reference, [Default], the [From] impls that call
    another constructor, and [fmt::Write::write_fmt], which writes the pieces of its
    arguments one after the other. *)

From S2P Require Import Prelude RustVec Mem Buf BytesMut Bytes World BytesMutSpec BytesMutOps BytesSpec BytesMutProps.
From S2P Require Import BufAdapters HandleBuf.

(** ** Reading *)

Definition by_is_empty (b : Bytes) : bool := by_len b =? 0.
Definition bm_is_empty (b : BytesMut) : bool := bm_len b =? 0.
Definition bm_capacity (b : BytesMut) : Z := bm_cap b.

Definition by_deref (b : Bytes) : M (list byte) := by_as_slice b.
Definition by_as_ref (b : Bytes) : M (list byte) := by_as_slice b.
Definition bm_as_ref (b : BytesMut) : M (list byte) := as_slice b.
Definition bm_deref (b : BytesMut) : M (list byte) := bm_as_ref b.

(** The items of [IntoIterator for &Bytes] and [for &BytesMut], in order. *)
Definition by_iter_ref (b : Bytes) : M (list byte) := s ← by_as_slice b; mret s.
Definition bm_iter_ref (b : BytesMut) : M (list byte) := s ← bm_as_ref b; mret s.

(** A write through [borrow_mut()]. *)
Definition bm_borrow_mut_write (b : BytesMut) (i : Z) (x : byte) : M () := as_mut_write b i x.

(** ** Conversions *)

Section conversions.
Context `{Build} `{Allocator}.

Definition by_default : Bytes := by_new.
Definition bm_default : M BytesMut := bm_new.
Definition by_from_static_slice (p : Ptr) (len : Z) : Bytes := from_static p len.
(** [as_bytes] of a [str] is its memory. *)
Definition by_from_static_str (p : Ptr) (len : Z) : Bytes := from_static p len.
(** [into_bytes] of a [String] is its vector. *)
Definition by_from_string (s : RVec) : M Bytes := by_from_vec s.
Definition by_from_bytes_mut (value : BytesMut) : M Bytes := freeze value.

(** [FromIterator<&u8>] and [Extend<&u8>]: [copied()] gives the same bytes. *)
Definition bm_from_iter_ref {T} `{HBuf T} (fuel : nat) (it : IntoIter T) : M BytesMut := bm_from_iter fuel it.
Definition bm_extend_ref (fuel : nat) (b : BytesMut) (lower : Z) (items : list byte) : M BytesMut :=
  bm_extend fuel b lower items.

(** [fmt::write]: the pieces in order, up to the first error. *)
Fixpoint bm_write_fmt (b : BytesMut) (pieces : list (list byte)) : M (BytesMut * result () ()) :=
  match pieces with
  | [] => mret (b, Ok ())
  | s :: pieces =>
      '(b, r) ← bm_write_str b s;
      match r with Ok _ => bm_write_fmt b pieces | Err e => mret (b, Err e) end
  end.
End conversions.

(** ** Laws *)

Section laws.
Context `{Build} `{Hal : AllocatorLaws}.

(** All views of a handle show its bytes. *)
Theorem views_agree b bs m cs R h :
  live ((HBytes b, bs) :: (HMut m, cs) :: R) h →
  by_deref b h = Ret (bs, h) ∧ by_as_ref b h = Ret (bs, h) ∧ by_iter_ref b h = Ret (bs, h)
  ∧ bm_deref m h = Ret (cs, h) ∧ bm_as_ref m h = Ret (cs, h) ∧ bm_iter_ref m h = Ret (cs, h)
  ∧ by_is_empty b = bool_decide (bs = []) ∧ bm_is_empty m = bool_decide (cs = []) ∧ zlen cs ≤ bm_capacity m.
Proof using Type.
  intros Hlive. pose proof (by_as_slice_ok _ _ _ _ Hlive) as Hb. destruct (bytes_len _ _ _ _ Hlive) as [El _].
  assert (live ((HMut m, cs) :: (HBytes b, bs) :: R) h) as Hlive' by (by rewrite Permutation_swap).
  destruct (live_len _ _ _ _ Hlive') as (Em & ? & _).
  assert (as_slice m h = Ret (cs, h)) as Hm.
  { pose proof (as_slice_ok m cs _ h (λ _, False) Hlive') as Hr. unfold wpm in Hr.
    destruct (as_slice m h) as [[r h']|]; [by destruct Hr as [-> ->]|done]. }
  assert (∀ l : list byte, (zlen l =? 0) = bool_decide (l = [])) as Hz by (by intros []).
  unfold by_iter_ref, bm_iter_ref, bm_deref, bm_as_ref, by_deref, by_as_ref, by_is_empty, bm_is_empty, bm_capacity, mbind, M_bind.
  rewrite Hb, Hm, El, Em, !Hz. split_and!; try done. lia.
Qed.

(** [write!] into a [BytesMut] appends everything and never fails. *)
Theorem write_fmt_appends pieces b bs R h :
  live ((HMut b, bs) :: R) h → Forall (λ s, zlen s ≤ isize_max) pieces →
  wpm (bm_write_fmt b pieces) h bm_stop (λ '(b', r) h', r = Ok () ∧ live ((HMut b', bs ++ mjoin pieces) :: R) h').
Proof using Hal.
  intros Hlive Hp. revert b bs h Hlive. induction Hp as [|s pieces Hs _ IH]; intros b bs h Hlive; simpl.
  - apply wpm_ret. by rewrite app_nil_r.
  - apply wpm_bind. eapply wpm_mono; [by apply bm_write_str_ok|]. intros [b' r] h' [-> Hlive'].
    eapply wpm_mono; [by apply (IH _ _ _ Hlive')|]. intros [b2 r] h2 [-> Hl2]. split; [done|]. by rewrite app_assoc.
Qed.
End laws.
