(* ===== verification/Hashing.v ===== *)
(** * Hashing: [Hash] of [Bytes] and [BytesMut], and [coroutine/src/id_hasher.rs]

    A handle hashes as the slice it shows, which [Borrow<[u8]>] requires of the key of
    a map: handles that compare equal, of either type, hash equally with every hasher.
    [IdHasher], the hasher of the local data of a coroutine, takes the identifiers of
    types and nothing else. *)

From S2P Require Import Prelude Mem Buf BytesMut Bytes World BytesMutSpec BytesMutOps BytesSpec BytesCmp.
From S2P Require Import BytesMutProps.

(** ** [std::hash] *)

(** The methods of [Hasher] in use.  [write_u64] and [write_usize] are provided: they
    write the bytes of the number; [write_length_prefix] is [write_usize]. *)
Class Hasher (S : Type) := {
  hash_write : S → list byte → comp S;
  hash_write_u64 : S → Z → comp S;
  hash_write_usize : S → Z → comp S;
  hash_finish : S → Z;
}.

Definition default_write_u64 `{Target} {S} (w : S → list byte → comp S) (st : S) (i : Z) : comp S :=
  w st (to_ne_bytes 8 i).
Definition default_write_usize `{Target} {S} (w : S → list byte → comp S) (st : S) (i : Z) : comp S :=
  w st (to_ne_bytes 8 i).

(** [Hash for [u8]], and [Hash for TypeId], which hashes the low half of the identifier. *)
Definition slice_hash {S} `{Hasher S} (s : list byte) (st : S) : comp S :=
  st ← hash_write_usize st (zlen s); hash_write st s.
Definition type_id_hash {S} `{Hasher S} (id : Z) (st : S) : comp S := hash_write_u64 st (uwrap 64 id).

(** ** The handles *)

Section handles.
Context {S : Type} `{Hasher S}.

Definition by_borrow (b : Bytes) : M (list byte) := by_as_slice b.
Definition bm_borrow (b : BytesMut) : M (list byte) := as_slice b.

Definition by_hash (b : Bytes) (st : S) : M S := s ← by_as_slice b; lift (slice_hash s st).
Definition bm_hash (b : BytesMut) (st : S) : M S := s ← as_slice b; lift (slice_hash s st).
End handles.

(** ** [IdHasher] *)

Record IdHasher := mkIdHasher { ih_id : Z }.

(** [#[derive(Default)]] *)
Definition id_hasher_default : IdHasher := mkIdHasher 0.

Definition id_write (st : IdHasher) (bytes : list byte) : comp IdHasher := Panic PExplicit.
Definition id_write_u64 (st : IdHasher) (i : Z) : comp IdHasher := Ret (mkIdHasher i).
Definition id_finish (st : IdHasher) : Z := ih_id st.

#[global] Instance id_hasher `{Target} : Hasher IdHasher := {
  hash_write := id_write;
  hash_write_u64 := id_write_u64;
  hash_write_usize := default_write_usize id_write;
  hash_finish := id_finish;
}.

(** ** What is shown *)

(** A handle hashes as the slice it borrows to, with every hasher and whatever other
    handles are alive, so that a [Bytes] and a [BytesMut] that are equal hash equally and
    are found under either.  With [IdHasher], hashing a handle panics, and hashing a type
    gives the low 64 bits of its identifier. *)
Theorem hash_agrees `{Target} {S} `{Hasher S} (st : S) b bs m ms R h :
  live ((HBytes b, bs) :: (HMut m, ms) :: R) h →
  (by_hash b st h = (x ← slice_hash bs st; Ret (x, h)) ∧ by_borrow b h = Ret (bs, h))
  ∧ (bm_hash m st h = (x ← slice_hash ms st; Ret (x, h)) ∧ bm_borrow m h = Ret (ms, h))
  ∧ (peq b (mkSlice ms) h = Ret (true, h) → by_hash b st h = bm_hash m st h)
  ∧ (∀ i : IdHasher, by_hash b i h = Panic PExplicit ∧ bm_hash m i h = Panic PExplicit)
  ∧ (∀ id (i : IdHasher), ∃ i', type_id_hash id i = Ret i' ∧ hash_finish i' = id mod 2 ^ 64).
Proof.
  intros Hl. pose proof (by_as_slice_ok _ _ _ _ Hl) as Hb.
  assert (as_slice m h = Ret (ms, h)) as Hm.
  { apply live_swap in Hl. pose proof (as_slice_ok m ms _ h (λ _, False) Hl) as Hw. unfold wpm in Hw.
    destruct (as_slice m h) as [[r h']|]; [|done]. by destruct Hw as [-> ->]. }
  unfold by_hash, bm_hash, by_borrow, bm_borrow, mbind, M_bind. rewrite Hb, Hm. split_and!; try done;
    [|intros id i; by exists (mkIdHasher (uwrap 64 id))].
  unfold peq, by_eq_slice, eq_slices, mbind, M_bind. simpl. rewrite Hb. simpl. intros [= E].
  rewrite slice_eq_true in E. apply bool_decide_eq_true in E. by rewrite E.
Qed.

#[local] Existing Instance debug_build.
#[local] Existing Instance bump.
#[local] Existing Instance bump_laws.
#[local] Instance little : Target := false.

(** A [Bytes] and a [BytesMut] with the same content. *)
Definition pair_state : Bytes * heap :=
  match copy_from_slice hello (snd hello_state) with Ret x => x | Stop _ => (by_new, empty_heap) end.

Lemma pair_live :
  live [(HBytes (fst pair_state), hello); (HMut (fst hello_state), hello)] (snd pair_state).
Proof.
  pose proof (copy_from_slice_ok _ _ hello hello_live) as Hw. unfold wpm in Hw. unfold pair_state.
  destruct (copy_from_slice hello (snd hello_state)) as [[b h]|] eqn:E; [done|]. by vm_compute in E.
Qed.

(** A hasher that keeps what is written. *)
#[local] Instance trace_hasher : Hasher (list byte) := {
  hash_write st bs := Ret (st ++ bs);
  hash_write_u64 st i := default_write_u64 (λ st bs, Ret (st ++ bs)) st i;
  hash_write_usize st i := default_write_usize (λ st bs, Ret (st ++ bs)) st i;
  hash_finish st := zlen st;
}.

Lemma hash_agrees_witness :
  by_hash (fst pair_state) (@nil byte) (snd pair_state) = bm_hash (fst hello_state) (@nil byte) (snd pair_state).
Proof.
  refine (proj1 (proj2 (proj2 (hash_agrees (@nil byte) _ _ _ _ [] _ pair_live))) _). by vm_compute.
Defined.
