(* ===== verification/Promote.v ===== *)
(** * Cloning one [Bytes] from several threads: [bytes/src/bytes.rs]

    The first clone of a boxed slice replaces the word [data] of the handle by a
    counted [Shared] with a compare-and-exchange.  Here the threads that clone the
    same handle interleave at their accesses to that word and to the memory; alone, a
    thread computes what [promotable_clone] of [Bytes] computes. *)

From stdpp Require Import relations.
From S2P Require Import Prelude RustVec Mem Buf BytesMut Bytes World BytesMutSpec BytesSpec BytesProps.

(** A call of [clone] at its next access. *)
Inductive cloning :=
| CLoad                             (** [data.load] *)
| CAlloc (p : Ptr)                  (** [Box::new] of the new [Shared] *)
| CCas (p shared : Ptr)             (** [atom.compare_exchange] *)
| CForget (shared actual : Ptr)     (** it failed: the box is forgotten *)
| CArc (shared : Ptr)               (** [shallow_clone_arc] *)
| CDone (b : Bytes).

Section clone.
Context `{Build} `{Allocator}.

(** One access of [clone] on the handle [b], whose word [data] is [atom]; the new word. *)
Definition clone_step (b : Bytes) (atom : Ptr) (c : cloning) : M (Ptr * cloning) :=
  match c with
  | CLoad =>
      let shared := atom in
      let kind := kind_of shared in
      if kind =? KIND_ARC then mret (atom, CArc shared)
      else debug_assertM (Ret (kind =? KIND_VEC));; mret (atom, CAlloc shared)
  | CAlloc p =>
      let buf := box_buf (by_vtable b) p in
      off ← lift (offset_from (by_ptr b) buf);
      cap ← lift (usize_add off (by_len b));
      shared ← alloc_obj (OBShared (mkBShared buf cap 2));
      debug_assertM (Ret (0 =? kind_of shared));;
      mret (atom, CCas p shared)
  | CCas p shared =>
      if addr atom =? addr p then
        mret (shared, CDone (mkBytes (by_ptr b) (by_len b) shared SHARED_VTABLE))
      else mret (atom, CForget shared atom)
  | CForget shared actual => forget_bshared shared;; mret (atom, CArc actual)
  | CArc shared => r ← shallow_clone_arc shared (by_ptr b) (by_len b); mret (atom, CDone r)
  | CDone _ => mret (atom, c)
  end.

Definition has_returned (c : cloning) : bool := match c with CDone _ => true | _ => false end.

(** A thread alone, for at most [fuel] accesses. *)
Fixpoint clone_alone (fuel : nat) (b : Bytes) (atom : Ptr) (c : cloning) : M (Ptr * cloning) :=
  match fuel, c with
  | O, _ | _, CDone _ => mret (atom, c)
  | S fuel, _ => '(atom, c) ← clone_step b atom c; clone_alone fuel b atom c
  end.

(** ** Threads *)

Record race := mkRace { r_atom : Ptr; r_heap : heap; r_threads : list cloning }.

Definition race_start (b : Bytes) (n : nat) (h : heap) : race := mkRace (by_data b) h (replicate n CLoad).

(** Thread [i] runs one access, if it has not returned. *)
Definition race_step (b : Bytes) (i : nat) (r : race) : option (comp race) :=
  c ← r_threads r !! i;
  if has_returned c then None else
  Some ('((atom, c'), h) ← clone_step b (r_atom r) c (r_heap r); Ret (mkRace atom h (<[i := c']> (r_threads r)))).

Inductive races (b : Bytes) : race → race → Prop :=
| races_step i r r' : race_step b i r = Some (Ret r') → races b r r'.

Definition clone_rank (c : cloning) : nat :=
  match c with CLoad => 5 | CAlloc _ => 4 | CCas _ _ => 3 | CForget _ _ => 2 | CArc _ => 1 | CDone _ => 0 end.
Definition race_rank (r : race) : nat := sum_list_with clone_rank (r_threads r).
End clone.

(** ** The invariant *)

(** The box a thread owns. *)
Definition box_of (c : cloning) : option (positive * Z) :=
  match c with CCas _ s | CForget s _ => (λ k, (k, addr s)) <$> prov s | _ => None end.

(** [won] is the box in the word of the handle, once a thread has put it there. *)
Definition word (b : Bytes) (won : option (positive * Z)) : Ptr :=
  match won with Some (k, a) => mkPtr (Some k) a | None => by_data b end.

Definition thread_ok (b : Bytes) (won : option (positive * Z)) (c : cloning) : Prop :=
  match c with
  | CLoad => True
  | CAlloc p => p = by_data b
  | CCas p s => p = by_data b ∧ is_Some (prov s)
  | CForget s actual => is_Some (prov s) ∧ is_Some won ∧ actual = word b won
  | CArc s => is_Some won ∧ s = word b won
  | CDone r => is_Some won ∧ r = mkBytes (by_ptr b) (by_len b) (word b won) SHARED_VTABLE
  end.

Definition boxes (won : option (positive * Z)) (l : list cloning) : list (positive * Z) :=
  option_list won ++ omap box_of l.

(** The memory: [s] in every box, and the objects there were before. *)
Definition with_boxes (s : BShared) (bl : list (positive * Z)) (hs : objects) : objects :=
  foldr (λ '(k, a), <[k := (a, OBShared s)]>) hs bl.

Record race_inv (b : Bytes) (s : BShared) (hs : objects) (won : option (positive * Z)) (r : race) : Prop := {
  inv_heap : heap_ok (r_heap r);
  inv_atom : r_atom r = word b won;
  inv_threads : Forall (thread_ok b won) (r_threads r);
  inv_objs : objs (r_heap r) = with_boxes s (boxes won (r_threads r)) hs;
  inv_fresh : NoDup (boxes won (r_threads r)).*1 ∧ Forall (λ x, hs !! x.1 = None) (boxes won (r_threads r));
}.

(** ** Boxes in memory *)

Section boxes.
Context (s : BShared).
Implicit Types bl : list (positive * Z).

Lemma with_boxes_perm bl bl' hs : bl ≡ₚ bl' → NoDup bl.*1 → with_boxes s bl hs = with_boxes s bl' hs.
Proof.
  induction 1 as [|[k a] bl bl' _ IH|[k a] [k' a'] bl|bl1 bl2 bl3 H1 IH1 _ IH2]; csimpl; intros Hn.
  - done.
  - apply list.NoDup_cons in Hn as [_ Hn]. by rewrite IH.
  - apply list.NoDup_cons in Hn as [Hk _]. apply insert_insert_ne. set_solver.
  - rewrite IH1 by done. apply IH2. by rewrite <-H1.
Qed.

Lemma with_boxes_None bl hs k : with_boxes s bl hs !! k = None ↔ k ∉ bl.*1 ∧ hs !! k = None.
Proof.
  induction bl as [|[k' a'] bl IH]; csimpl; [set_solver|].
  rewrite lookup_insert_None, IH, not_elem_of_cons. naive_solver.
Qed.

Lemma with_boxes_in bl hs k a : (k, a) ∈ bl → NoDup bl.*1 → with_boxes s bl hs !! k = Some (a, OBShared s).
Proof.
  intros [bl' Hp]%elem_of_Permutation Hn. rewrite (with_boxes_perm _ _ _ Hp Hn). simpl. apply lookup_insert_eq.
Qed.
End boxes.

(** A handle whose word has the bit of a boxed slice is the only one of its slice. *)
Lemma live_box b bs R h :
  live ((HBytes b, bs) :: R) h → kind_of (by_data b) = KIND_VEC →
  heap_ok h ∧ ∃ hs blk base cells off, at_box b bs R h hs blk base cells off.
Proof.
  intros [Hok [[[_ (_ & _ & Hd & _)] _]|[Hat|(c & S & R' & hs & blk & base & cells & sid & sa & off & _ & Hat)]]]%live_bytes_inv Hk.
  - exfalso. by rewrite Hd in Hk.
  - by split.
  - exfalso. destruct Hat as (_ & _ & _ & _ & _ & _ & _ & Ed & _ & _ & _ & _ & _ & Hsa).
    by rewrite Ed, kind_of_count in Hk.
Qed.

Section race_laws.
Context `{Build} `{Hal : AllocatorLaws}.
Context (b : Bytes) (bs : list byte) (R : list entry) (h0 : heap) (hs : objects).
Context (blk : positive) (base : Z) (cells : list cell) (off : Z).
Context (Hok0 : heap_ok h0) (Hat : at_box b bs R h0 hs blk base cells off).

#[local] Abbreviation s := (mkBShared (mkPtr (Some blk) base) (zlen cells) 2).
#[local] Abbreviation inv := (race_inv b s (objs h0)).

Lemma box_facts : kind_of (by_data b) = KIND_VEC ∧ box_buf (by_vtable b) (by_data b) = mkPtr (Some blk) base
  ∧ by_ptr b = mkPtr (Some blk) (base + off) ∧ by_len b = zlen bs ∧ off + zlen bs = zlen cells
  ∧ 0 ≤ off ∧ zlen cells < 2 ^ 64.
Proof using Hok0 Hat.
  pose proof (at_box_lookup _ _ _ _ _ _ _ _ _ Hat) as Hk.
  destruct Hat as (Hh & HR & Hb & Hc & Hpos & Ep & El & Hd & Hoff & Hl & Hload).
  destruct (ok_obj h0 Hok0 _ _ _ Hk) as (Hb0 & _ & Hend). simpl in Hend.
  destruct (box_data_spec blk base (by_vtable b) (by_data b)) as (_ & ? & ? & _); [lia|done|].
  split_and!; try done. lia.
Qed.

Lemma inv_perm won atom h l l' : l ≡ₚ l' → inv won (mkRace atom h l) → inv won (mkRace atom h l').
Proof using Type.
  intros Hp [H1 H2 H3 H4 [H5 H6]]. simpl in *.
  assert (boxes won l ≡ₚ boxes won l') as Hb by (unfold boxes; by rewrite Hp).
  split; simpl; [done|done|by rewrite <-Hp| |by rewrite <-Hb]. rewrite H4. by apply with_boxes_perm.
Qed.

(** A box is an object at an even address. *)
Lemma inv_box won r k a : inv won r → (k, a) ∈ boxes won (r_threads r) →
  objs (r_heap r) !! k = Some (a, OBShared s) ∧ kind_of (mkPtr (Some k) a) = KIND_ARC.
Proof using Type.
  intros [Hh _ _ Ho [Hn _]] Hin. assert (objs (r_heap r) !! k = Some (a, OBShared s)) as Hk.
  { rewrite Ho. by apply with_boxes_in. }
  split; [done|]. destruct (ok_obj _ Hh _ _ _ Hk) as (_ & Ha & _). by apply kind_of_count.
Qed.

Lemma thread_ok_won won c : thread_ok b None c → thread_ok b won c.
Proof using Type. destruct c; simpl; try done; naive_solver eauto using is_Some_None. Qed.

(** One access: only running out of memory stops it, and the invariant stays. *)
Lemma clone_step_ok won atom h c l :
  inv won (mkRace atom h (c :: l)) → has_returned c = false →
  wpm (clone_step b atom c) h (λ e, e = SAbort)
    (λ '(atom', c') h', (∃ won', inv won' (mkRace atom' h' (c' :: l))) ∧ (clone_rank c' < clone_rank c)%nat).
Proof using Hal Hok0 Hat.
  intros Hi Hd. destruct box_facts as (Hkind & Hbuf & Ep & El & Hl & Hoff & Hmax). pose proof (zlen_nonneg bs).
  pose proof Hi as [Hh Ea Ht Ho [Hn Hf]]. simpl in *. apply Forall_cons_1 in Ht as [Hc Ht].
  destruct c as [|p|p sh|sh act|sh|r]; simpl in *; [| | | | |done].
  - destruct won as [[k a]|]; simpl in Ea; subst atom.
    + destruct (inv_box _ _ k a Hi) as [_ Hk]; [by left|]. rewrite Hk. simpl. apply wpm_ret. split; [|simpl; lia].
      exists (Some (k, a)). split; simpl; try done. constructor; [|done]. by split.
    + rewrite Hkind. simpl. apply wpm_bind, wpm_debug_assert; [done|]. apply wpm_ret. split; [|simpl; lia].
      exists None. split; simpl; try done. by constructor.
  - subst p. rewrite Hbuf, Ep, El. apply wpm_bind, wpm_offset_from; [lia|].
    apply wpm_bind, wpm_usize_add; [lia|]. rewrite Hl.
    apply wpm_bind, (wpm_alloc_obj (λ e, e = SAbort) eq_refl); [done|]. intros a (_ & Ha & _) Hok'. simpl in Ha.
    apply wpm_bind, wpm_debug_assert; [by rewrite kind_of_count|]. apply wpm_ret. split; [|simpl; lia]. exists won.
    pose proof (heap_ok_fresh h Hh) as Hfr. rewrite Ho in Hfr. apply with_boxes_None in Hfr as [Hfr Hfr'].
    assert (boxes won (CCas (by_data b) (mkPtr (Some (next h)) a) :: l) ≡ₚ (next h, a) :: boxes won l) as Hp
      by (unfold boxes; simpl; by rewrite <-Permutation_middle).
    assert (NoDup (boxes won (CCas (by_data b) (mkPtr (Some (next h)) a) :: l)).*1) as Hn'
      by (rewrite Hp; by constructor).
    split; simpl; [done|done|by constructor| |split; [done|rewrite Hp; by constructor]].
    rewrite (with_boxes_perm _ _ _ _ Hp Hn'). simpl. f_equal. exact Ho.
  - destruct Hc as [-> [k Hk]]. destruct sh as [[k'|] a]; [|done]. simpl in Hk. injection Hk as ->.
    destruct won as [[kw aw]|]; simpl in Ea; subst atom; simpl.
    + destruct (inv_box _ _ kw aw Hi) as [_ Hw]; [by left|].
      destruct (Z.eqb_spec aw (addr (by_data b))) as [E|E].
      { exfalso. unfold kind_of in *. simpl in Hw. rewrite E, Hkind in Hw. done. }
      apply wpm_ret. split; [|simpl; lia]. exists (Some (kw, aw)). split; simpl; try done. by constructor.
    + rewrite Z.eqb_refl. apply wpm_ret. split; [|simpl; lia]. exists (Some (k, a)). split; simpl; try done.
      constructor; [by split|]. eapply Forall_impl; [|exact Ht]. intros c. apply thread_ok_won.
  - destruct Hc as ([k Hk] & Hw & ->). destruct sh as [[k'|] a]; [|done]. simpl in Hk. injection Hk as ->.
    destruct (inv_box _ _ k a Hi) as [Hk _]. { simpl. unfold boxes. simpl. set_solver. }
    apply wpm_bind. eapply wpm_forget_bshared; [exact Hk|]. apply wpm_ret. split; [|simpl; lia]. exists won.
    assert (boxes won (CForget (mkPtr (Some k) a) (word b won) :: l) ≡ₚ (k, a) :: boxes won l) as Hp
      by (unfold boxes; simpl; by rewrite <-Permutation_middle).
    rewrite (with_boxes_perm _ _ _ _ Hp Hn) in Ho. rewrite Hp in Hn, Hf. csimpl in *.
    apply list.NoDup_cons in Hn as [Hnk Hn]. apply Forall_cons_1 in Hf as [Hfk Hf].
    split; simpl; [by apply heap_ok_free|done|by constructor| |done].
    rewrite Ho. rewrite delete_insert_id; [done|]. by apply with_boxes_None.
  - destruct Hc as [Hw ->]. destruct won as [[k a]|]; [|by destruct Hw]. simpl.
    destruct (inv_box _ _ k a Hi) as [Hk _]; [by left|]. apply wpm_bind, wpm_bind.
    eapply wpm_get_bshared; [exact Hk|]. simpl. apply wpm_ret, wpm_ret. split; [|simpl; lia].
    exists (Some (k, a)). split; simpl; try done. by constructor.
Qed.

(** A whole step of a race. *)
Lemma race_step_ok won r i res :
  inv won r → race_step b i r = Some res →
  wp res (λ e, e = SAbort) (λ r', (∃ won', inv won' r') ∧ length (r_threads r') = length (r_threads r)
    ∧ (race_rank r' < race_rank r)%nat).
Proof using Hal Hok0 Hat.
  destruct r as [atom h l]. unfold race_step. simpl. intros Hi Hr.
  destruct (l !! i) as [c|] eqn:Hc; [|done]. simpl in Hr. destruct (has_returned c) eqn:Hd; [done|]. injection Hr as <-.
  destruct (insert_head l i c Hc) as (l' & Hp & Hp'). apply (inv_perm _ _ _ _ _ Hp) in Hi.
  pose proof (clone_step_ok won atom h c l' Hi Hd) as Hs. unfold wpm in Hs. apply wp_bind.
  destruct (clone_step b atom c h) as [[[atom' c'] h']|e]; [|done]. simpl in *.
  destruct Hs as [[won' Hi'] Hlt]. split_and!.
  - exists won'. by apply (inv_perm _ _ _ _ _ (symmetry (Hp' c'))).
  - by rewrite length_insert.
  - unfold race_rank. simpl. rewrite (Hp' c'), Hp. simpl. lia.
Qed.

Lemma race_start_inv n : inv None (race_start b n h0).
Proof using Hok0.
  assert (omap box_of (replicate n CLoad) = []) as E by (by induction n).
  split; simpl; [done|done|by apply Forall_replicate|by unfold boxes; rewrite E|].
  unfold boxes. rewrite E. simpl. split; constructor.
Qed.

Lemma race_run n k r : nsteps (races b) k (race_start b n h0) r →
  (∃ won, inv won r) ∧ length (r_threads r) = n ∧ (k + race_rank r ≤ 5 * n)%nat.
Proof using Hal Hok0 Hat.
  intros Hr. remember (race_start b n h0) as r0 eqn:E.
  assert ((∃ won, inv won r0) ∧ length (r_threads r0) = n ∧ race_rank r0 = (5 * n)%nat) as (Hi & Hl & Hk).
  { subst r0. split; [exists None; apply race_start_inv|]. split; [apply length_replicate|].
    unfold race_rank. simpl. clear. induction n as [|n IH]; [done|]. simpl sum_list_with. lia. }
  rewrite <-Hk, <-Hl. clear E Hk Hl. induction Hr as [r|k r r1 r2 [i ra rb Hs] Hr IH]; [split_and!; (done || lia)|].
  destruct Hi as [won Hi]. pose proof (race_step_ok won ra i _ Hi Hs) as (Hi1 & Hl1 & Hk1).
  destruct (IH Hi1) as (Hi2 & Hl2 & Hk2). split_and!; [done|congruence|lia].
Qed.

Lemma race_end won r : inv won r → forallb has_returned (r_threads r) = true → r_threads r ≠ [] →
  ∃ sid sa, won = Some (sid, sa) ∧ objs (r_heap r) = <[sid := (sa, OBShared s)]> (objs h0)
    ∧ objs h0 !! sid = None ∧ Forall (λ c, c = CDone (mkBytes (by_ptr b) (by_len b) (r_atom r) SHARED_VTABLE)) (r_threads r).
Proof using Type.
  intros [_ Ea Ht Ho [_ Hf]] Hd Hne. assert (omap box_of (r_threads r) = []) as E.
  { clear -Hd. induction (r_threads r) as [|c l IH]; [done|]. simpl in Hd. apply andb_true_iff in Hd as [Hc Hl].
    simpl. destruct c; try done. by apply IH. }
  unfold boxes in *. rewrite E, app_nil_r in Ho, Hf.
  assert (Forall (λ c, is_Some won ∧ c = CDone (mkBytes (by_ptr b) (by_len b) (r_atom r) SHARED_VTABLE)) (r_threads r)) as Hall.
  { rewrite Ea. clear -Ht Hd.
    induction Ht as [|c l Hc _ IH]; [done|]. apply andb_true_iff in Hd as [Hc' Hd]. constructor; [|by apply IH].
    destruct c; try done. simpl in Hc. by destruct Hc as [? ->]. }
  destruct won as [[sid sa]|].
  - exists sid, sa. split; [done|]. split; [done|]. split; [by apply Forall_cons_1 in Hf as [? _]|].
    eapply Forall_impl; [|exact Hall]. by intros c [_ ?].
  - destruct (r_threads r) as [|c l]; [done|]. apply Forall_cons_1 in Hall as [[[] _] _]; done.
Qed.
End race_laws.

(** C11: threads that clone one handle of a boxed slice at the same time: whatever the
    order of their accesses, only running out of memory stops one, all return after
    at most five accesses each, exactly one [Shared] is left and the handle and all
    clones point to it, the boxes of the threads that lost the exchange are gone and
    nothing else has changed.  Its count is 2, however many clones were made. *)
Theorem promote_once `{Build} `{AllocatorLaws} b bs R h n k r :
  live ((HBytes b, bs) :: R) h → kind_of (by_data b) = KIND_VEC →
  nsteps (races b) k (race_start b n h) r →
  (k ≤ 5 * n)%nat
  ∧ (∀ i e, race_step b i r = Some (Stop e) → e = SAbort)
  ∧ (forallb has_returned (r_threads r) = true → (0 < n)%nat → ∃ sid sa s,
      r_atom r = mkPtr (Some sid) sa
      ∧ bs_buf s = box_buf (by_vtable b) (by_data b) ∧ bs_cap s = addr (by_ptr b) - addr (bs_buf s) + by_len b ∧ bs_ref s = 2
      ∧ objs h !! sid = None ∧ objs (r_heap r) = <[sid := (sa, OBShared s)]> (objs h)
      ∧ r_threads r = replicate n (CDone (mkBytes (by_ptr b) (by_len b) (r_atom r) SHARED_VTABLE))).
Proof.
  intros Hlive Hkind Hr.
  destruct (live_box b bs R h Hlive Hkind) as (Hok & hs & blk & base & cells & off & Hat).
  destruct (race_run _ _ _ _ _ _ _ _ _ Hok Hat n k r Hr) as ([won Hi] & Hl & Hk). split; [lia|]. split.
  - intros i e Hs. exact (race_step_ok _ _ _ _ _ _ _ _ _ Hok Hat won r i _ Hi Hs).
  - intros Hd Hn. destruct (race_end _ _ _ _ _ won r Hi Hd) as (sid & sa & -> & Ho & Hs & Hall).
    { intros E. rewrite E in Hl. simpl in Hl. lia. }
    destruct (box_facts _ _ _ _ _ _ _ _ _ Hok Hat) as (_ & Hbuf & Ep & El & Hlen & _).
    exists sid, sa, (mkBShared (mkPtr (Some blk) base) (zlen cells) 2). split; [apply (inv_atom _ _ _ _ _ Hi)|]. split; [by rewrite Hbuf|]. split; [rewrite Ep, El; simpl; lia|].
    split; [done|]. split; [done|]. split; [done|]. symmetry.
    apply replicate_as_Forall_2; [done|]. eapply Forall_impl; [|exact Hall]. intros c Hc. exact (eq_sym Hc).
Qed.

(** Alone, the accesses of a clone are [promotable_clone]. *)
Lemma clone_alone_promotable `{Build} `{Allocator} b atom h :
  clone_alone 5 b atom CLoad h
  = ('((atom', c), h') ← promotable_clone (box_buf (by_vtable b)) atom (by_ptr b) (by_len b) h;
     Ret ((atom', CDone c), h')).
Proof.
  unfold promotable_clone. simpl clone_alone. unfold mbind, M_bind. unfold clone_step at 1.
  destruct (kind_of atom =? KIND_ARC).
  - simpl. unfold mbind, M_bind, mret, M_ret. simpl. destruct (shallow_clone_arc _ _ _ h) as [[r h']|]; done.
  - unfold mbind, M_bind. destruct (debug_assertM _ h) as [[[] h1]|]; [|done]. simpl.
    unfold shallow_clone_vec, mbind, M_bind. destruct (lift _ h1) as [[off h2]|]; [|done]. simpl.
    destruct (lift _ h2) as [[cap h3]|]; [|done]. simpl. destruct (alloc_obj _ h3) as [[sh h4]|]; [|done]. simpl.
    destruct (debug_assertM _ h4) as [[[] h5]|]; [|done]. simpl. rewrite Z.eqb_refl. done.
Qed.

(** ** Witness *)

#[local] Existing Instance debug_build.
#[local] Existing Instance bump.
#[local] Existing Instance bump_laws.

(** The race of two clones in which the accesses are in the given order. *)
Fixpoint race_order (b : Bytes) (order : list nat) (r : race) : option race :=
  match order with
  | [] => Some r
  | i :: order => match race_step b i r with Some (Ret r) => race_order b order r | _ => None end
  end.

Lemma race_order_nsteps b order r r' : race_order b order r = Some r' → nsteps (races b) (length order) r r'.
Proof.
  revert r. induction order as [|i order IH]; simpl; intros r Hr; [injection Hr as ->; constructor|].
  destruct (race_step b i r) as [[r1|]|] eqn:E; [|done..]. econstructor; [by econstructor|by apply IH].
Qed.

(** Both allocate, the first wins. *)
Definition raced : race :=
  default (race_start (fst boxed) 2 (snd boxed))
    (race_order (fst boxed) [0; 1; 1; 0; 0; 1; 1; 1]%nat (race_start (fst boxed) 2 (snd boxed))).

Lemma promote_once_witness :
  (8 ≤ 5 * 2)%nat ∧ ∃ sid sa s, r_atom raced = mkPtr (Some sid) sa
    ∧ bs_buf s = box_buf (by_vtable (fst boxed)) (by_data (fst boxed))
    ∧ bs_cap s = addr (by_ptr (fst boxed)) - addr (bs_buf s) + by_len (fst boxed) ∧ bs_ref s = 2
    ∧ objs (snd boxed) !! sid = None ∧ objs (r_heap raced) = <[sid := (sa, OBShared s)]> (objs (snd boxed))
    ∧ r_threads raced = replicate 2 (CDone (mkBytes (by_ptr (fst boxed)) (by_len (fst boxed)) (r_atom raced) SHARED_VTABLE)).
Proof.
  destruct (promote_once (fst boxed) _ [] (snd boxed) 2 8 raced boxed_live eq_refl) as (Hk & _ & Hd).
  - apply (race_order_nsteps _ [0; 1; 1; 0; 0; 1; 1; 1]%nat). by vm_compute.
  - split; [exact Hk|]. apply Hd; [by vm_compute|lia].
Defined.
