(* ===== verification/Date.v ===== *)
(** * [date/src/lib.rs] and the functions of [date_time_error.rs]: the cached date

    A cell of 29 bytes is rewritten from the clock by a thread of its own and
    appended to buffers by [append_date].  The clock is an input; reads and
    writes of the cell are taken one at a time here; the source does not
    synchronise them, which is the subject of [DateRace]. *)

From S2P Require Import Prelude RustVec Mem.
From S2P Require Import DateTime Calendar DateText.
From S2P Require Import BytesMut World BytesMutSpec BytesMutGrow BytesMutOps.

(** ** [date_time_error.rs] *)

Definition parse_httph_date `{Build} (httph_date : list byte) : parsed SystemTime :=
  d ←? from_str httph_date;
  t ← into_system_time d;
  Ret (Ok t).

Definition fmt_httph_date `{Build} (sys_t : SystemTime) : comp (list byte) :=
  d ← from_system_time sys_t; fmt d.

(** [Display for DateTimeError] *)
Definition error_display (_ : DateTimeError) : list byte :=
  bstr "Error occured while parsing date. (Unavailable/Invalid)".

(** [io::Error::new(kind, error)] *)
Inductive ErrorKind := Other.
Record io_error := mkIoError { ie_kind : ErrorKind; ie_error : DateTimeError }.
Definition io_error_from (derr : DateTimeError) : io_error := mkIoError Other derr.

(** ** The cell *)

Definition DATE_VALUE_LENGTH : Z := 29.

(** [struct Date] *)
Record Date := mkDate { bytes : list byte }.

(** [Date::now]: the bytes are not set. *)
Definition date_now : Date := mkDate (replicate (Z.to_nat DATE_VALUE_LENGTH) Byte.x00).

Definition as_bytes (d : Date) : list byte := bytes d.

(** [fmt::Write::write_str]; [copy_from_slice] panics on another length. *)
Definition date_write_str (d : Date) (s : list byte) : comp Date :=
  if zlen (bytes d) =? zlen s then Ret (mkDate s) else Panic PExplicit.

(** [update], with the answer of [SystemTime::now()]; [Display] calls
    [write_str] once. *)
Definition update `{Build} (d : Date) (now : SystemTime) : comp Date :=
  date_time ← from_system_time now;
  s ← fmt date_time;
  date_write_str d s.

Definition append_date `{Build} `{Allocator} (current : Date) (dst : BytesMut) : M BytesMut :=
  extend_from_slice dst (as_bytes current).

(** What happens to the cell: the thread's loop, and the callers. *)
Inductive event :=
| Update (now : SystemTime)
| Append.

Section run.
Context `{Build} `{Allocator}.

Fixpoint date_run (evs : list event) (current : Date) (dst : BytesMut) : M (Date * BytesMut) :=
  match evs with
  | [] => mret (current, dst)
  | Update now :: evs => current ← lift (update current now); date_run evs current dst
  | Append :: evs => dst ← append_date current dst; date_run evs current dst
  end.
End run.

(** ** What it does *)

(** The clock shows a time the calendar code accepts. *)
Definition clock_ok (t : SystemTime) : Prop := 0 ≤ tv_sec t < 253402300800.

(** [s] is the IMF-fixdate text of the date at [t]; its year is the one
    [from_system_time] computes. *)
Definition date_text (t : SystemTime) (s : list byte) : Prop :=
  ∃ y d w m, civil_date (tv_sec t) y d ∧ year_c d = masked_year y (mon_c d)
    ∧ wday_name (wday_c d) = Ret w ∧ mon_name (mon_c d) = Ret m
    ∧ s = imf_text w m d ∧ zlen s = DATE_VALUE_LENGTH ∧ is_ascii s = true.

Lemma civil_printable secs y d :
  civil_date secs y d → year_c d = masked_year y (mon_c d) → printable d.
Proof.
  intros (Hv & (? & ? & ?) & _ & Hw) Hy. unfold valid_date in Hv. destruct Hv as (Hy' & Hm & Hd).
  assert (0 ≤ masked_year y (mon_c d) < 2 ^ 16).
  { pose proof (masked_year_range y (mon_c d) ltac:(lia)). lia. }
  assert (day_c d ≤ 31).
  { assert (days_in_month y (mon_c d) ≤ 31); [|lia]. unfold days_in_month. repeat case_match; lia. }
  unfold printable, is_unsigned. rewrite Hy, Hw. unfold weekday. split_and!; dlia.
Qed.

Lemma fmt_httph_date_ok `{Build} t :
  clock_ok t → ∃ s, fmt_httph_date t = Ret s ∧ date_text t s.
Proof.
  intros Ht. destruct t as [secs nsec].
  destruct (from_system_time_date secs nsec Ht) as (y & d & Hd & Hc & Hy).
  destruct (fmt_printable d (civil_printable _ _ _ Hc Hy)) as (w & m & Hw & Hm & Hf & Hl & Ha).
  exists (imf_text w m d). unfold fmt_httph_date. rewrite Hd. simpl. split; [done|].
  by exists y, d, w, m.
Qed.

(** An update succeeds, and leaves the text that [fmt_httph_date] gives. *)
Lemma update_ok `{Build} d t :
  zlen (bytes d) = DATE_VALUE_LENGTH → clock_ok t →
  ∃ s, update d t = Ret (mkDate s) ∧ fmt_httph_date t = Ret s ∧ date_text t s.
Proof.
  intros Hd Ht. destruct (fmt_httph_date_ok t Ht) as (s & Hs & Htext). exists s.
  split; [|done]. unfold update. unfold fmt_httph_date in Hs.
  destruct (from_system_time t) as [dt|]; [|done]. simpl in *. rewrite Hs. simpl.
  unfold date_write_str. destruct Htext as (y & d' & w & m & _ & _ & _ & _ & _ & -> & _).
  by rewrite Hd, Z.eqb_refl.
Qed.

(** The strings that the appends of a sequence of events add. *)
Inductive shown : list byte → list event → list byte → Prop :=
| shown_nil cur : shown cur [] []
| shown_update cur t s evs out : date_text t s → shown s evs out → shown cur (Update t :: evs) out
| shown_append cur evs out : shown cur evs out → shown cur (Append :: evs) (cur ++ out).

Definition event_ok (e : event) : Prop :=
  match e with Update t => clock_ok t | Append => True end.

Section cell.
Context `{Build} `{Hal : AllocatorLaws}.

Lemma date_run_ok evs d dst bs R h :
  Forall event_ok evs → zlen (bytes d) = DATE_VALUE_LENGTH → live ((HMut dst, bs) :: R) h →
  wpm (date_run evs d dst) h bm_stop (λ '(d', dst') h',
    zlen (bytes d') = DATE_VALUE_LENGTH
    ∧ ∃ out, shown (bytes d) evs out ∧ live ((HMut dst', bs ++ out) :: R) h').
Proof using Hal.
  intros Hall. revert d dst bs h. induction Hall as [|[t|] evs He _ IH]; intros d dst bs h Hd Hlive.
  - apply wpm_ret. split; [done|]. exists []. rewrite app_nil_r. split; [constructor|done].
  - destruct (update_ok d t Hd He) as (s & Hs & _ & Ht).
    simpl. apply wpm_bind, wpm_lift. rewrite Hs. simpl.
    eapply wpm_mono; [apply IH; [|exact Hlive]|].
    { by destruct Ht as (? & ? & ? & ? & _ & _ & _ & _ & _ & ? & _). }
    intros [d' dst'] h' (? & out & Hout & ?). split; [done|]. exists out. split; [|done].
    by eapply shown_update.
  - simpl. apply wpm_bind. eapply wpm_mono; [eapply extend_from_slice_ok; [exact Hlive|]|].
    { unfold as_bytes. rewrite Hd. unfold DATE_VALUE_LENGTH, isize_max. lia. }
    intros dst1 h1 Hlive1. eapply wpm_mono; [apply IH; [exact Hd|exact Hlive1]|].
    intros [d' dst'] h' (? & out & Hout & Hlive'). split; [done|].
    exists (bytes d ++ out). split; [by constructor|]. unfold as_bytes in Hlive'.
    by rewrite (assoc_L (++)).
Qed.
End cell.

(** ** Theorems *)

(** Whatever the order of updates and appends, an update never panics
    while the clock is between 1970 and 9999, and [append_date] adds the 29 bytes
    of the last update.  Before the first update these are 29 zero bytes. *)
Theorem date_cell_spec `{Build} `{AllocatorLaws} evs dst bs R h :
  Forall event_ok evs → live ((HMut dst, bs) :: R) h →
  wpm (date_run evs date_now dst) h bm_stop (λ '(d, dst') h',
    zlen (bytes d) = 29
    ∧ ∃ out, shown (replicate 29 Byte.x00) evs out ∧ live ((HMut dst', bs ++ out) :: R) h').
Proof. intros Hall Hlive. by apply (date_run_ok evs date_now). Qed.

Definition demo_events : list event :=
  [Append; Update (mkSystemTime 1735689600 0); Append].

Lemma demo_events_ok : Forall event_ok demo_events.
Proof. repeat constructor; unfold clock_ok; simpl; lia. Qed.

Definition new_state : BytesMut * heap :=
  match @bm_new debug_build bump empty_heap with
  | Ret r => r
  | Stop _ => (mkBytesMut (mkPtr None 0) 0 0 (mkPtr None 0), empty_heap)
  end.

Lemma new_live : live [(HMut (fst new_state), [])] (snd new_state).
Proof.
  assert (live [] empty_heap) as Hl by (split; [apply empty_heap_ok|constructor]).
  exact (proj1 (@with_capacity_ok debug_build bump bump_laws [] empty_heap 0 Hl (Z.le_refl 0))).
Qed.

Lemma date_cell_spec_witness :
  wpm (@date_run debug_build bump demo_events date_now (fst new_state)) (snd new_state) bm_stop
    (λ '(d, dst') h', zlen (bytes d) = 29
      ∧ ∃ out, shown (replicate 29 Byte.x00) demo_events out ∧ live [(HMut dst', [] ++ out)] h').
Proof.
  exact (@date_cell_spec debug_build bump bump_laws demo_events (fst new_state) [] []
    (snd new_state) demo_events_ok new_live).
Defined.

(** A time formatted for a header is the IMF-fixdate text of its date, and
    [parse_httph_date] does not read it back: it accepts no text at all. *)
Theorem httph_date_one_way `{Build} t :
  clock_ok t →
  ∃ s, fmt_httph_date t = Ret s ∧ date_text t s ∧ parse_httph_date s = Ret (Err mkDateTimeError).
Proof.
  intros Ht. destruct (fmt_httph_date_ok t Ht) as (s & Hs & Htext). exists s.
  split_and!; [done..|]. unfold parse_httph_date, try_bind. by rewrite from_str_fails.
Qed.

Lemma httph_date_one_way_witness :
  ∃ s, @fmt_httph_date debug_build (mkSystemTime 1735689600 0) = Ret s
    ∧ date_text (mkSystemTime 1735689600 0) s
    ∧ @parse_httph_date debug_build s = Ret (Err mkDateTimeError).
Proof. apply (@httph_date_one_way debug_build). unfold clock_ok. simpl. lia. Defined.
