(* ===== verification/DateRace.v ===== *)
(** * [date/src/lib.rs]: the date thread and its readers at the same time

    [DataWrap] is [Sync] by declaration only: [update] copies 29 bytes into the cell
    while [append_date] copies them out of it, byte by byte and in an order that
    [memcpy] chooses.  The machine has one updating thread, any number of readers, and
    one byte per step. *)

From S2P Require Import Prelude DateTime Calendar DateText Date.

(** The position a copy can access next is one that it has not accessed yet. *)
Definition positions : gset nat := set_seq 0 29.

Record dstate := mkDstate {
  ds_bytes : list byte;                           (* [Date::bytes] *)
  ds_writer : option (list byte * gset nat);      (* the text of [update], and what is left to copy *)
  ds_readers : gmap nat (gmap nat byte);          (* what each [append_date] has copied *)
  ds_texts : list (list byte) }.                  (* the texts written so far, newest first *)

Inductive action :=
| UpdateStart (now : SystemTime)
| UpdateByte (i : nat)
| UpdateEnd
| ReadStart (r : nat)
| ReadByte (r i : nat).

(** One access of one thread; [None] when the thread is not there. *)
Definition dexec `{Build} (a : action) (s : dstate) : option dstate :=
  match a with
  | UpdateStart now =>
      match ds_writer s, fmt_httph_date now with
      | None, Ret t =>
          if zlen (ds_bytes s) =? zlen t then
            Some (mkDstate (ds_bytes s) (Some (t, positions)) (ds_readers s) (t :: ds_texts s))
          else None                               (* [copy_from_slice] panics *)
      | _, _ => None
      end
  | UpdateByte i =>
      '(t, todo) ← ds_writer s;
      guard (i ∈ todo);;
      b ← t !! i;
      Some (mkDstate (<[i := b]> (ds_bytes s)) (Some (t, todo ∖ {[ i ]})) (ds_readers s) (ds_texts s))
  | UpdateEnd =>
      '(t, todo) ← ds_writer s;
      guard (todo = ∅);;
      Some (mkDstate (ds_bytes s) None (ds_readers s) (ds_texts s))
  | ReadStart r =>
      match ds_readers s !! r with
      | None => Some (mkDstate (ds_bytes s) (ds_writer s) (<[r := ∅]> (ds_readers s)) (ds_texts s))
      | Some _ => None
      end
  | ReadByte r i =>
      m ← ds_readers s !! r;
      guard (m !! i = None);;
      b ← ds_bytes s !! i;
      Some (mkDstate (ds_bytes s) (ds_writer s) (<[r := <[i := b]> m]> (ds_readers s)) (ds_texts s))
  end.

Definition dstep `{Build} (s s' : dstate) : Prop := ∃ a, dexec a s = Some s'.

(** [CURRENT_DATE] after its initialisation *)
Definition date_start : dstate := mkDstate (as_bytes date_now) None ∅ [].

(** What a reader has appended; [None] at a position that it has not reached. *)
Definition appended (m : gmap nat byte) : list (option byte) := (m !!.) <$> seq 0 29.

(** Both threads can access the same byte next, one of them to write it. *)
Definition race `{Build} (s : dstate) : Prop :=
  ∃ r i, is_Some (dexec (UpdateByte i) s) ∧ is_Some (dexec (ReadByte r i) s).

Fixpoint drun `{Build} (acts : list action) (s : dstate) : option dstate :=
  match acts with
  | [] => Some s
  | a :: acts => s ← dexec a s; drun acts s
  end.

Lemma drun_rtc `{Build} acts s s' : drun acts s = Some s' → rtc dstep s s'.
Proof.
  revert s. induction acts as [|a acts IH]; intros s Hr; simpl in Hr; [by simplify_eq|].
  destruct (dexec a s) as [s1|] eqn:E; [|done]. eapply rtc_l; [by exists a|]. by apply IH.
Qed.

(** ** Every byte comes from a text *)

Definition from_texts (ts : list (list byte)) (i : nat) (b : byte) : Prop :=
  ∃ t, t ∈ as_bytes date_now :: ts ∧ t !! i = Some b.

Lemma from_texts_cons t ts i b : from_texts ts i b → from_texts (t :: ts) i b.
Proof. intros (t' & Hin & Hb). exists t'. split; [set_solver|done]. Qed.

Record dinv (s : dstate) : Prop := {
  di_bytes i b : ds_bytes s !! i = Some b → from_texts (ds_texts s) i b;
  di_readers r m i b : ds_readers s !! r = Some m → m !! i = Some b → from_texts (ds_texts s) i b;
  di_writer t todo : ds_writer s = Some (t, todo) → t ∈ ds_texts s }.

Lemma dinv_step `{Build} s s' : dinv s → dstep s s' → dinv s'.
Proof.
  intros [Hb Hr Hw] [a Ha]. destruct a as [now|i| |r|r i]; simpl in Ha.
  - destruct (ds_writer s); [done|]. destruct (fmt_httph_date now) as [t|]; [|done].
    case_match; [|done]. simplify_eq. split; simpl.
    + eauto using from_texts_cons.
    + eauto using from_texts_cons.
    + intros t' todo [= <- _]. set_solver.
  - destruct (ds_writer s) as [[t todo]|]; [|done]. simpl in Ha. simplify_option_eq.
    specialize (Hw _ _ eq_refl). split; simpl; [|done|by intros ? ? [= <- _]].
    intros j c [(<- & -> & _)|[_ Hj]]%list_lookup_insert_Some; [|eauto]. exists t. split; [set_solver|done].
  - destruct (ds_writer s) as [[t todo]|]; [|done]. simpl in Ha. simplify_option_eq. by split.
  - destruct (ds_readers s !! r) eqn:E; [done|]. simplify_eq. split; simpl; [done| |done].
    intros r' m j c [[<- <-]|[_ Hm]]%lookup_insert_Some Hc; [by rewrite lookup_empty in Hc|eauto].
  - destruct (ds_readers s !! r) as [m|] eqn:E; [|done]. simpl in Ha. simplify_option_eq. split; simpl; [done| |done].
    intros r' m' j c [[<- <-]|[_ Hm]]%lookup_insert_Some Hc; [|eauto].
    apply lookup_insert_Some in Hc as [[<- <-]|[_ Hc]]; eauto.
Qed.

Lemma dinv_reach `{Build} s : rtc dstep date_start s → dinv s.
Proof.
  apply rtc_invariant; [|intros a b _ Ha Hab; by eapply dinv_step].
  split; simpl; [|by intros r m i b Hm; rewrite lookup_empty in Hm|done].
  intros i b Hb. exists (as_bytes date_now). split; [set_solver|done].
Qed.

(** ** A torn date *)

Definition before_nine : SystemTime := mkSystemTime 784112399 0.
Definition at_nine : SystemTime := mkSystemTime 784112400 0.

(** A full update; then a reader copies the first 20 bytes of it, is overtaken by the
    next update, and copies the rest. *)
Definition torn_start : list action :=
  UpdateStart before_nine :: (UpdateByte <$> seq 0 29) ++ [UpdateEnd; UpdateStart at_nine; ReadStart 0]
  ++ (ReadByte 0 <$> seq 0 20).
Definition torn_trace : list action :=
  torn_start ++ (UpdateByte <$> seq 0 29) ++ UpdateEnd :: (ReadByte 0 <$> seq 20 9).

Definition final `{Build} (acts : list action) : dstate :=
  match drun acts date_start with Some s => s | None => date_start end.

Lemma final_reach `{Build} acts : is_Some (drun acts date_start) → rtc dstep date_start (final acts).
Proof. intros [s Hs]. unfold final. rewrite Hs. by apply drun_rtc in Hs. Qed.

(** C34: The date thread and a reader race on the same bytes.  What a reader appends is made
    of bytes of the texts written so far (or of the zeros before the first), each at its
    place, and no more than that: around nine o'clock it can be a date an hour away from
    both the old text and the new one. *)
Theorem date_torn `{Build} :
  (∀ s, rtc dstep date_start s → ∀ r m i b, ds_readers s !! r = Some m → m !! i = Some b →
    ∃ t, t ∈ as_bytes date_now :: ds_texts s ∧ t !! i = Some b)
  ∧ (∃ s, rtc dstep date_start s ∧ race s)
  ∧ ∃ s m day, rtc dstep date_start s ∧ ds_readers s !! 0%nat = Some m
      ∧ ds_texts s = [day ++ bstr "09:00:00 GMT"; day ++ bstr "08:59:59 GMT"]
      ∧ appended m = Some <$> (day ++ bstr "08:00:00 GMT").
Proof.
  split; [|split].
  - intros s Hs r m i b. apply (di_readers s (dinv_reach s Hs)).
  - exists (final torn_start). split; [apply final_reach|exists 0%nat, 25%nat];
      destruct (debug_assertions : bool); vm_compute; eauto.
  - exists (final torn_trace). destruct (ds_readers (final torn_trace) !! 0%nat) as [m|] eqn:E;
      [|by destruct (debug_assertions : bool); vm_compute in E].
    exists m, (take 17 (default [] (head (ds_texts (final torn_trace))))).
    split; [apply final_reach; destruct (debug_assertions : bool); vm_compute; eauto|]. split; [done|].
    revert E. destruct (debug_assertions : bool); vm_compute; intros [= <-]; done.
Qed.
