(* ===== verification/Sync.v ===== *)
(** * [coroutine/src/sync]: backoff, the sequence lock and the locked atomic cell

    [backoff.rs], [seq_lock.rs], the fallback paths of [atomic_load] and
    [atomic_store] of [mod.rs], and the locked [fetch_*] methods of
    [atomic_cell.rs] and [atomic_macro.rs].  Threads interleave at every access to
    shared memory; the accesses take effect in one order (no weak memory). *)

From S2P Require Import Prelude.

(** ** [backoff.rs] *)

Definition SPIN_LIMIT : Z := 6.
Definition YIELD_LIMIT : Z := 10.

Record Backoff := mkBackoff { bo_step : Z }.

Definition bo_new : Backoff := mkBackoff 0.
Definition bo_default : Backoff := bo_new.
Definition bo_reset (b : Backoff) : Backoff := mkBackoff 0.

(** The new state, and how often [spin_loop] runs. *)
Definition spin (b : Backoff) : Backoff * Z :=
  let n := Z.shiftl 1 (Z.min (bo_step b) SPIN_LIMIT) in
  (if bo_step b <=? SPIN_LIMIT then mkBackoff (bo_step b + 1) else b, n).

Inductive wait := SpinLoop | YieldNow.

Definition snooze (b : Backoff) : Backoff * wait :=
  let w := if bo_step b <=? SPIN_LIMIT then SpinLoop else YieldNow in
  (if bo_step b <? YIELD_LIMIT then mkBackoff (bo_step b + 1) else b, w).

Definition is_completed (b : Backoff) : bool := YIELD_LIMIT <? bo_step b.

Inductive backoff_op := OpSpin | OpSnooze | OpReset.

Definition backoff_exec (b : Backoff) (o : backoff_op) : Backoff :=
  match o with
  | OpSpin => fst (spin b)
  | OpSnooze => fst (snooze b)
  | OpReset => bo_reset b
  end.

(** ** [seq_lock.rs] *)

(** The value of [SeqLock::state]. *)
Definition seq_new : Z := 0.

Record SeqLockWriteGuard := mkGuard { g_state : Z }.

Definition optimistic_read (state : Z) : option Z := if state =? 1 then None else Some state.

Definition validate_read (state stamp : Z) : bool := state =? stamp.

(** One turn of the loop of [write]: the new state, and the guard if it returns. *)
Definition write_turn (state : Z) : Z * option SeqLockWriteGuard :=
  let previous := state in
  let state := 1 in
  if previous =? 1 then (state, Some (mkGuard previous)) else (state, None).

(** The state that [abort] and [drop] store. *)
Definition guard_abort (g : SeqLockWriteGuard) : Z := g_state g.
Definition guard_drop (g : SeqLockWriteGuard) : Z := uwrap 64 (g_state g + 2).

(** ** The cell and the threads *)

(** The lock of a cell and the words of its value. *)
Record lcell := mkLcell { lc_lock : Z; lc_words : list Z }.

(** Where a thread is in [atomic_load] or [atomic_store].  Words are read and
    written one at a time. *)
Inductive pc :=
| LoadStart
| LoadRead (stamp : Z) (val : list Z)
| LoadLock (b : Backoff)
| LoadLocked (g : SeqLockWriteGuard) (val : list Z)
| LoadDone (val : list Z)
| StoreLock (b : Backoff) (value : list Z)
| StoreWrite (g : SeqLockWriteGuard) (value : list Z) (n : nat)
| StoreDone.

Definition set_lock (s : lcell) (l : Z) : lcell := mkLcell l (lc_words s).
Definition set_word (s : lcell) (i : nat) (w : Z) : lcell := mkLcell (lc_lock s) (<[i := w]> (lc_words s)).

(** [atomic_load] without an atomic type of the right size. *)
Definition load_step (s : lcell) (p : pc) : option (lcell * pc) :=
  match p with
  | LoadStart =>
      match optimistic_read (lc_lock s) with
      | Some stamp => Some (s, LoadRead stamp [])
      | None => Some (s, LoadLock bo_new)
      end
  | LoadRead stamp val =>
      match lc_words s !! length val with
      | Some w => Some (s, LoadRead stamp (val ++ [w]))
      | None =>
          if validate_read (lc_lock s) stamp then Some (s, LoadDone val)
          else Some (s, LoadLock bo_new)
      end
  | LoadLock b =>
      let '(l, g) := write_turn (lc_lock s) in
      match g with
      | Some g => Some (set_lock s l, LoadLocked g [])
      | None => Some (set_lock s l, LoadLock (fst (snooze b)))
      end
  | LoadLocked g val =>
      match lc_words s !! length val with
      | Some w => Some (s, LoadLocked g (val ++ [w]))
      | None => Some (set_lock s (guard_abort g), LoadDone val)
      end
  | _ => None
  end.

(** [atomic_store] without an atomic type of the right size. *)
Definition store_step (s : lcell) (p : pc) : option (lcell * pc) :=
  match p with
  | StoreLock b value =>
      let '(l, g) := write_turn (lc_lock s) in
      match g with
      | Some g => Some (set_lock s l, StoreWrite g value 0)
      | None => Some (set_lock s l, StoreLock (fst (snooze b)) value)
      end
  | StoreWrite g value n =>
      match value !! n with
      | Some w => Some (set_word s n w, StoreWrite g value (S n))
      | None => Some (set_lock s (guard_drop g), StoreDone)
      end
  | _ => None
  end.

Definition thread_step (s : lcell) (p : pc) : option (lcell * pc) :=
  match load_step s p with
  | Some r => Some r
  | None => store_step s p
  end.

Record config := mkConfig { cf_cell : lcell; cf_threads : list pc }.

(** Some thread makes a step. *)
Inductive step : config → config → Prop :=
| step_thread s s' ts i p p' :
    ts !! i = Some p → thread_step s p = Some (s', p') →
    step (mkConfig s ts) (mkConfig s' (<[i := p']> ts)).

(** The same, by a schedule. *)
Fixpoint schedule (c : config) (l : list nat) : option config :=
  match l with
  | [] => Some c
  | i :: l =>
      match cf_threads c !! i with
      | Some p =>
          match thread_step (cf_cell c) p with
          | Some (s, p') => schedule (mkConfig s (<[i := p']> (cf_threads c))) l
          | None => None
          end
      | None => None
      end
  end.

Lemma schedule_reaches c l c' : schedule c l = Some c' → rtc step c c'.
Proof.
  revert c. induction l as [|i l IH]; intros [s ts]; simpl; [by intros [= <-]|].
  destruct (ts !! i) as [p|] eqn:Hi; [|done].
  destruct (thread_step s p) as [[s' p']|] eqn:Hp; [|done].
  intros ?%IH. eapply rtc_l; [by eapply step_thread|done].
Qed.

(** A thread alone. *)
Fixpoint alone (fuel : nat) (s : lcell) (p : pc) : comp (lcell * pc) :=
  match thread_step s p with
  | None => Ret (s, p)
  | Some (s', p') => match fuel with O => Stop SFuel | S fuel => alone fuel s' p' end
  end.

Definition atomic_load (fuel : nat) (s : lcell) : comp (lcell * list Z) :=
  '(s, p) ← alone fuel s LoadStart;
  match p with LoadDone val => Ret (s, val) | _ => Stop SFuel end.

Definition atomic_store (fuel : nat) (s : lcell) (value : list Z) : comp lcell :=
  '(s, p) ← alone fuel s (StoreLock bo_new value);
  match p with StoreDone => Ret s | _ => Stop SFuel end.

(** ** The locked [fetch_*] methods *)

(** The loop of [write]. *)
Fixpoint seq_write (fuel : nat) (state : Z) : comp (Z * SeqLockWriteGuard) :=
  match write_turn state with
  | (state, Some g) => Ret (state, g)
  | (state, None) => match fuel with O => Stop SFuel | S fuel => seq_write fuel state end
  end.

(** The fallback of the [fetch_*] methods: the lock, the new value and the old. *)
Definition fetch_locked {V} (fuel : nat) (state : Z) (value : V) (f : V → V) : comp (Z * V * V) :=
  '(state, g) ← seq_write fuel state;
  let old := value in
  Ret (guard_drop g, f value, old).

(** The integer types of [impl_arithmetic!]. *)
Record int_ty := mkInt { it_signed : bool; it_width : Z }.

Definition int_wrap (t : int_ty) (z : Z) : Z :=
  if it_signed t then swrap (it_width t) z else uwrap (it_width t) z.
Definition int_not (t : int_ty) (z : Z) : Z :=
  if it_signed t then Z.lnot z else 2 ^ it_width t - 1 - z.
Definition int_in (t : int_ty) (z : Z) : Prop :=
  if it_signed t then - 2 ^ (it_width t - 1) ≤ z < 2 ^ (it_width t - 1) else 0 ≤ z < 2 ^ it_width t.

Inductive fetch_op := FetchAdd | FetchSub | FetchAnd | FetchNand | FetchOr | FetchXor | FetchMax | FetchMin.

Definition fetch_apply (t : int_ty) (o : fetch_op) (val old : Z) : Z :=
  match o with
  | FetchAdd => int_wrap t (old + val)
  | FetchSub => int_wrap t (old - val)
  | FetchAnd => Z.land old val
  | FetchNand => int_not t (Z.land old val)
  | FetchOr => Z.lor old val
  | FetchXor => Z.lxor old val
  | FetchMax => Z.max old val
  | FetchMin => Z.min old val
  end.

(** *** Choosing an atomic type: [can_transmute] and the macro [atomic!] *)

Record layout := mkLayout { ly_size : Z; ly_align : Z }.

Definition can_transmute (a b : layout) : bool :=
  (ly_size a =? ly_size b) && (ly_size b <=? ly_size a).

(** [AtomicUnit], then the atomic integers of 8 to 64 bits. *)
Definition atomics : list layout :=
  [mkLayout 0 1; mkLayout 1 1; mkLayout 2 2; mkLayout 4 4; mkLayout 8 8].

(** The first that fits, or the fallback. *)
Definition atomic_select (t : layout) : option layout := List.find (can_transmute t) atomics.

(** [AtomicCell<T>::fetch_*] for an integer [T]: one atomic instruction, or the
    fallback. *)
Definition fetch (fuel : nat) (t : int_ty) (o : fetch_op) (state value val : Z) : comp (Z * Z * Z) :=
  match atomic_select (mkLayout (it_width t / 8) (it_width t / 8)) with
  | Some _ => Ret (state, fetch_apply t o val value, value)
  | None => fetch_locked fuel state value (fetch_apply t o val)
  end.

Definition atomic_is_lock_free (t : layout) : bool := bool_decide (is_Some (atomic_select t)).

(** [AtomicCell<bool>::fetch_*] *)
Inductive bool_op := BoolAnd | BoolNand | BoolOr | BoolXor.

Definition bool_apply (o : bool_op) (value old : bool) : bool :=
  match o with
  | BoolAnd => old && value
  | BoolNand => negb (old && value)
  | BoolOr => old || value
  | BoolXor => xorb old value
  end.

Definition fetch_bool (fuel : nat) (o : bool_op) (state : Z) (cur value : bool) : comp (Z * bool * bool) :=
  match atomic_select (mkLayout 1 1) with
  | Some _ => Ret (state, bool_apply o value cur, cur)
  | None => fetch_locked fuel state cur (bool_apply o value)
  end.

(** The lock of the cell at [addr]. *)
Definition LEN : Z := 67.
Definition lock_index (addr : Z) : Z := addr mod LEN.

(** ** Theorems *)

(** However a [Backoff] is used, its counter stays at most [YIELD_LIMIT], so
    that [is_completed] is never true; [spin] runs between 1 and 64 times. *)
Theorem backoff_never_completes (ops : list backoff_op) :
  let b := foldl backoff_exec bo_new ops in
  0 ≤ bo_step b ≤ YIELD_LIMIT ∧ is_completed b = false ∧ 1 ≤ snd (spin b) ≤ 2 ^ SPIN_LIMIT.
Proof.
  intros b. assert (0 ≤ bo_step b ≤ YIELD_LIMIT) as Hb.
  { unfold b. clear b. assert (0 ≤ bo_step bo_new ≤ YIELD_LIMIT) as H0 by (unfold YIELD_LIMIT; simpl; lia).
    revert H0. generalize bo_new. induction ops as [|o ops IH]; intros b Hb; [done|]. simpl. apply IH.
    unfold YIELD_LIMIT in *. destruct o; simpl; unfold snooze, YIELD_LIMIT, SPIN_LIMIT; simpl; [| |lia].
    - destruct (Z.leb_spec (bo_step b) 6); simpl; lia.
    - destruct (Z.ltb_spec (bo_step b) 10); simpl; lia. }
  assert (1 ≤ snd (spin b) ≤ 2 ^ SPIN_LIMIT).
  { simpl. rewrite Z.shiftl_1_l. unfold SPIN_LIMIT. split.
    - assert (0 < 2 ^ Z.min (bo_step b) 6) by (apply Z.pow_pos_nonneg; lia). lia.
    - apply Z.pow_le_mono_r; lia. }
  split_and!; try lia. unfold is_completed. apply Z.ltb_ge. lia.
Qed.

(** *** Alone *)

Lemma alone_done fuel s p : thread_step s p = None → alone fuel s p = Ret (s, p).
Proof. destruct fuel; simpl; by intros ->. Qed.

Lemma alone_step fuel s p s' p' :
  thread_step s p = Some (s', p') → alone (S fuel) s p = alone fuel s' p'.
Proof. simpl. by intros ->. Qed.

Lemma lookup_end {A} (pre suf : list A) :
  (pre ++ suf) !! length pre = head suf.
Proof. rewrite lookup_app_r by lia. rewrite Nat.sub_diag. by destruct suf. Qed.

(** The words, read one by one. *)
Lemma alone_read fuel l stamp pre suf :
  alone (length suf + fuel) (mkLcell l (pre ++ suf)) (LoadRead stamp pre)
  = alone fuel (mkLcell l (pre ++ suf)) (LoadRead stamp (pre ++ suf)).
Proof.
  revert pre. induction suf as [|w suf IH]; intros pre; [by rewrite app_nil_r|].
  cbn [length Nat.add]. rewrite (alone_step _ _ _ (mkLcell l (pre ++ w :: suf)) (LoadRead stamp (pre ++ [w]))).
  - specialize (IH (pre ++ [w])). by rewrite <-(assoc_L (++)) in IH.
  - unfold thread_step. simpl. by rewrite lookup_end.
Qed.

Lemma alone_read_locked fuel l g pre suf :
  alone (length suf + fuel) (mkLcell l (pre ++ suf)) (LoadLocked g pre)
  = alone fuel (mkLcell l (pre ++ suf)) (LoadLocked g (pre ++ suf)).
Proof.
  revert pre. induction suf as [|w suf IH]; intros pre; [by rewrite app_nil_r|].
  cbn [length Nat.add]. rewrite (alone_step _ _ _ (mkLcell l (pre ++ w :: suf)) (LoadLocked g (pre ++ [w]))).
  - specialize (IH (pre ++ [w])). by rewrite <-(assoc_L (++)) in IH.
  - unfold thread_step. simpl. by rewrite lookup_end.
Qed.

Lemma alone_write fuel l g (pre suf old : list Z) :
  length old = length suf →
  alone (length suf + fuel) (mkLcell l (pre ++ old)) (StoreWrite g (pre ++ suf) (length pre))
  = alone fuel (mkLcell l (pre ++ suf)) (StoreWrite g (pre ++ suf) (length (pre ++ suf))).
Proof.
  revert pre old. induction suf as [|w suf IH]; intros pre [|o old]; simpl; intros Hl;
    [by rewrite !app_nil_r|done|done|].
  assert (thread_step (mkLcell l (pre ++ o :: old)) (StoreWrite g (pre ++ w :: suf) (length pre))
    = Some (mkLcell l (pre ++ w :: old), StoreWrite g (pre ++ w :: suf) (S (length pre)))) as Hs.
  { unfold thread_step. simpl. rewrite lookup_end. simpl. unfold set_word. simpl.
    by rewrite insert_app_r_alt, Nat.sub_diag by lia. }
  rewrite Hs. specialize (IH (pre ++ [w]) old ltac:(lia)).
  rewrite length_app in IH. simpl in IH. rewrite <-!(assoc_L (++)) in IH. simpl in IH.
  by rewrite Nat.add_1_r in IH.
Qed.

(** A locked [write] ends at its second turn at the latest, and its guard always
    holds the stamp 1. *)
Lemma seq_write_two fuel state : seq_write (S fuel) state = Ret (1, mkGuard 1).
Proof. simpl. unfold write_turn. destruct (Z.eqb_spec state 1) as [->|]; [done|]. by destruct fuel. Qed.

Lemma alone_store fuel l words value :
  length words = length value →
  alone (S (S (length value + S fuel))) (mkLcell l words) (StoreLock bo_new value)
  = Ret (mkLcell 3 value, StoreDone).
Proof.
  intros Hl. assert (∀ n, alone (length value + S n) (mkLcell 1 words) (StoreWrite (mkGuard 1) value 0)
    = Ret (mkLcell 3 value, StoreDone)) as Hw.
  { intros n. pose proof (alone_write (S n) 1 (mkGuard 1) [] value words Hl) as H. simpl app in H.
    simpl length in H. rewrite H, (alone_step _ _ _ (mkLcell 3 value) StoreDone).
    - by apply alone_done.
    - unfold thread_step. simpl. by rewrite lookup_ge_None_2 by lia. }
  destruct (Z.eqb_spec l 1) as [->|Hne].
  - rewrite (alone_step _ _ _ (mkLcell 1 words) (StoreWrite (mkGuard 1) value 0)) by done.
    replace (S (length value + S fuel))%nat with (length value + S (S fuel))%nat by lia. apply Hw.
  - rewrite (alone_step _ _ _ (mkLcell 1 words) (StoreLock (mkBackoff 1) value)).
    2: { unfold thread_step. simpl. unfold write_turn. by rewrite (proj2 (Z.eqb_neq _ _)). }
    rewrite (alone_step _ _ _ (mkLcell 1 words) (StoreWrite (mkGuard 1) value 0)) by done.
    apply Hw.
Qed.

Lemma alone_load fuel l words :
  alone (S (S (length words + S fuel))) (mkLcell l words) LoadStart
  = Ret (mkLcell l words, LoadDone words).
Proof.
  destruct (Z.eqb_spec l 1) as [->|Hne].
  - rewrite (alone_step _ _ _ (mkLcell 1 words) (LoadLock bo_new)) by done.
    rewrite (alone_step _ _ _ (mkLcell 1 words) (LoadLocked (mkGuard 1) [])) by done.
    pose proof (alone_read_locked (S fuel) 1 (mkGuard 1) [] words) as Hr. simpl app in Hr. rewrite Hr.
    rewrite (alone_step _ _ _ (mkLcell 1 words) (LoadDone words)); [by apply alone_done|].
    unfold thread_step. simpl. by rewrite lookup_ge_None_2 by lia.
  - rewrite (alone_step _ _ _ (mkLcell l words) (LoadRead l [])).
    2: { unfold thread_step. simpl. unfold optimistic_read. by rewrite (proj2 (Z.eqb_neq _ _)). }
    replace (S (length words + S fuel))%nat with (length words + S (S fuel))%nat by lia.
    pose proof (alone_read (S (S fuel)) l l [] words) as Hr. simpl app in Hr. rewrite Hr.
    rewrite (alone_step _ _ _ (mkLcell l words) (LoadDone words)); [by apply alone_done|].
    unfold thread_step. simpl. rewrite lookup_ge_None_2 by lia. unfold validate_read.
    by rewrite Z.eqb_refl.
Qed.

(** *** The range of the integer operations *)

(** The bits above the range of a type. *)
Definition int_high (t : int_ty) (z : Z) : Z :=
  Z.shiftr z (if it_signed t then it_width t - 1 else it_width t).

Lemma div_range z p : 0 < p → (z / p = 0 ↔ 0 ≤ z < p) ∧ (z / p = -1 ↔ - p ≤ z < 0).
Proof.
  intros Hp. pose proof (Z.mod_pos_bound z p Hp) as Hm. pose proof (Z.div_mod z p ltac:(lia)) as Hd.
  split; split.
  - intros E. rewrite E in Hd. lia.
  - apply Z.div_small.
  - intros E. rewrite E in Hd. lia.
  - intros Hz. symmetry. apply (Z.div_unique _ _ _ (z + p)); lia.
Qed.

Lemma int_in_high t z :
  0 < it_width t → int_in t z ↔ int_high t z = 0 ∨ (it_signed t = true ∧ int_high t z = -1).
Proof.
  intros Hw. unfold int_in, int_high. destruct (it_signed t); rewrite Z.shiftr_div_pow2 by lia.
  - destruct (div_range z (2 ^ (it_width t - 1))) as [-> ->]; [apply Z.pow_pos_nonneg; lia|].
    assert (0 < 2 ^ (it_width t - 1)) by (apply Z.pow_pos_nonneg; lia).
    split; [intros ?; destruct (Z.ltb_spec z 0); [right; split; [done|]|left]; lia|intros [|[_ ?]]; lia].
  - destruct (div_range z (2 ^ it_width t)) as [-> _]; [apply Z.pow_pos_nonneg; lia|].
    split; [by left|intros [|[? _]]; done].
Qed.

Lemma int_wrap_in t z : 0 < it_width t → int_in t (int_wrap t z).
Proof.
  intros Hw. unfold int_in, int_wrap, swrap, uwrap. destruct (it_signed t).
  - pose proof (Z.mod_pos_bound (z + 2 ^ (it_width t - 1)) (2 ^ it_width t)) as Hm.
    replace (2 ^ it_width t) with (2 * 2 ^ (it_width t - 1)) in *.
    2: { rewrite <-(Z.pow_succ_r 2) by lia. f_equal. lia. }
    assert (0 < 2 ^ (it_width t - 1)) by (apply Z.pow_pos_nonneg; lia). lia.
  - apply Z.mod_pos_bound, Z.pow_pos_nonneg; lia.
Qed.

Lemma int_bits_in t f a b :
  0 < it_width t → (∀ n x y, Z.shiftr (f x y) n = f (Z.shiftr x n) (Z.shiftr y n)) →
  f 0 0 = 0 → (∀ x y, x = 0 ∨ x = -1 → y = 0 ∨ y = -1 → f x y = 0 ∨ f x y = -1) →
  int_in t a → int_in t b → int_in t (f a b).
Proof.
  intros Hw Hf H0 H1. rewrite !int_in_high by done. unfold int_high. rewrite Hf. intros Ha Hb.
  destruct (it_signed t).
  - destruct (H1 (Z.shiftr a (it_width t - 1)) (Z.shiftr b (it_width t - 1))); tauto.
  - left. destruct Ha as [->|[? _]], Hb as [->|[? _]]; done.
Qed.

Lemma int_not_in t a : 0 < it_width t → int_in t a → int_in t (int_not t a).
Proof.
  intros Hw. unfold int_in, int_not. destruct (it_signed t); [|lia]. unfold Z.lnot. lia.
Qed.

Lemma fetch_apply_in t o val old :
  0 < it_width t → int_in t val → int_in t old → int_in t (fetch_apply t o val old).
Proof.
  intros Hw Hv Ho. assert (int_in t (Z.land old val)) as Hand.
  { apply (int_bits_in t Z.land); try done; [intros; by rewrite Z.shiftr_land|].
    intros x y [->| ->] [->| ->]; auto. }
  destruct o; simpl; try by apply int_wrap_in.
  - done.
  - by apply int_not_in.
  - apply (int_bits_in t Z.lor); try done; [intros; by rewrite Z.shiftr_lor|].
    intros x y [->| ->] [->| ->]; auto.
  - apply (int_bits_in t Z.lxor); try done; [intros; by rewrite Z.shiftr_lxor|].
    intros x y [->| ->] [->| ->]; auto.
  - unfold int_in in *. destruct (it_signed t); lia.
  - unfold int_in in *. destruct (it_signed t); lia.
Qed.

(** Without other threads the locked cell is a cell, whatever the state of its
    lock: [load] returns the value and leaves it, [store] replaces it, and the
    [fetch_*] methods return the old value and leave the result of the operation in
    the range of the type.  The loop of [write] turns twice at most. *)
Theorem atomic_cell_sequential l words value fuel :
  length words = length value → (length value + 3 ≤ fuel)%nat →
  atomic_load fuel (mkLcell l words) = Ret (mkLcell l words, words)
  ∧ atomic_store fuel (mkLcell l words) value = Ret (mkLcell 3 value)
  ∧ (∀ t o old val, int_in t old → int_in t val → 0 < it_width t → ∃ l',
       fetch fuel t o l old val = Ret (l', fetch_apply t o val old, old)
       ∧ int_in t (fetch_apply t o val old))
  ∧ (∀ o old val, fetch_bool fuel o l old val = Ret (l, bool_apply o val old, old)).
Proof.
  intros Hl Hf. split_and!.
  - unfold atomic_load. replace fuel with (S (S (length words + S (fuel - length words - 3))))%nat by lia.
    by rewrite alone_load.
  - unfold atomic_store. replace fuel with (S (S (length value + S (fuel - length value - 3))))%nat by lia.
    by rewrite alone_store.
  - intros t o old val Hold Hval Hw. unfold fetch. destruct fuel as [|fuel]; [lia|].
    destruct (atomic_select _); [exists l|exists 3]; (split; [|by apply fetch_apply_in]); [done|].
    unfold fetch_locked. by rewrite seq_write_two.
  - done.
Qed.

Lemma atomic_cell_sequential_witness :
  atomic_load 5 (mkLcell 0 [7; 8]) = Ret (mkLcell 0 [7; 8], [7; 8])
  ∧ atomic_store 5 (mkLcell 0 [7; 8]) [1; 2] = Ret (mkLcell 3 [1; 2]).
Proof.
  destruct (atomic_cell_sequential 0 [7; 8] [1; 2] 5) as (? & ? & _); [reflexivity|simpl; lia|].
  by split.
Defined.

(** *** With other threads *)

(** Every word comes from the same place of one of the values [Vals]. *)
Definition from (Vals : list (list Z)) (val : list Z) : Prop :=
  ∀ j w, val !! j = Some w → ∃ v, v ∈ Vals ∧ v !! j = Some w.

Definition pc_ok (Vals : list (list Z)) (k : nat) (p : pc) : Prop :=
  match p with
  | LoadStart | LoadLock _ | StoreDone => True
  | LoadRead _ val => from Vals val ∧ (length val ≤ k)%nat
  | LoadLocked g val => g_state g = 1 ∧ from Vals val ∧ (length val ≤ k)%nat
  | LoadDone val => from Vals val ∧ length val = k
  | StoreLock _ v => v ∈ Vals ∧ length v = k
  | StoreWrite g v _ => g_state g = 1 ∧ v ∈ Vals ∧ length v = k
  end.

(** The invariant of a lock that starts with the state [l]. *)
Record config_ok (l : Z) (Vals : list (list Z)) (k : nat) (c : config) : Prop := {
  ok_lock : lc_lock (cf_cell c) = l ∨ lc_lock (cf_cell c) = 1 ∨ lc_lock (cf_cell c) = 3;
  ok_length : length (lc_words (cf_cell c)) = k;
  ok_words : from Vals (lc_words (cf_cell c));
  ok_threads : Forall (pc_ok Vals k) (cf_threads c);
}.

Lemma from_nil Vals : from Vals [].
Proof. intros j w. by rewrite lookup_nil. Qed.

Lemma from_app Vals val w :
  from Vals val → (∃ v, v ∈ Vals ∧ v !! length val = Some w) → from Vals (val ++ [w]).
Proof.
  intros Hf Hw j x [Hj|[Hj [E Ex]%list_lookup_singleton_Some]]%lookup_app_Some; [by apply Hf|].
  subst x. replace j with (length val) by lia. done.
Qed.

Lemma from_insert Vals words n w v :
  from Vals words → v ∈ Vals → v !! n = Some w → from Vals (<[n := w]> words).
Proof.
  intros Hf Hv Hn j x [(-> & -> & _)|[_ Hj]]%list_lookup_insert_Some; [by exists v|by apply Hf].
Qed.

(** One step of one thread. *)
Lemma thread_step_ok l Vals k s p s' p' ts :
  config_ok l Vals k (mkConfig s ts) → pc_ok Vals k p → thread_step s p = Some (s', p') →
  config_ok l Vals k (mkConfig s' ts) ∧ pc_ok Vals k p'.
Proof.
  intros [Hl Hk Hw Ht] Hp. unfold thread_step. simpl in *.
  destruct p as [|stamp val|b|g val|val|b v|g v n|]; simpl in *.
  - destruct (optimistic_read (lc_lock s)); intros [= <- <-]; (split; [by split|]); [|done].
    split; [apply from_nil|simpl; lia].
  - destruct Hp as [Hf Hlen]. destruct (lc_words s !! length val) as [w|] eqn:E.
    + intros [= <- <-]. split; [by split|]. simpl. split; [apply from_app; [done|by apply Hw]|].
      apply lookup_lt_Some in E. rewrite length_app. simpl. lia.
    + apply lookup_ge_None_1 in E. destruct (validate_read _ _); intros [= <- <-]; (split; [by split|]);
        [|done]. split; [done|lia].
  - unfold write_turn. destruct (Z.eqb_spec (lc_lock s) 1) as [E|E]; intros [= <- <-];
      (split; [split; simpl; auto|]); [|done]. split_and!; [done|apply from_nil|simpl; lia].
  - destruct Hp as (Hg & Hf & Hlen). destruct (lc_words s !! length val) as [w|] eqn:E; intros [= <- <-].
    + split; [by split|]. simpl. split_and!; [done|apply from_app; [done|by apply Hw]|].
      apply lookup_lt_Some in E. rewrite length_app. simpl. lia.
    + apply lookup_ge_None_1 in E. split; [split; simpl; auto|split; [done|lia]].
  - done.
  - unfold write_turn. destruct (Z.eqb_spec (lc_lock s) 1) as [E|E]; intros [= <- <-];
      (split; [split; simpl; auto|]); done.
  - destruct Hp as (Hg & Hv & Hlen). destruct (v !! n) as [w|] eqn:E; intros [= <- <-].
    + split; [|done]. split; simpl; [done|by rewrite length_insert|by eapply from_insert|done].
    + split; [|done]. split; simpl; auto. right; right. unfold guard_drop. by rewrite Hg.
  - done.
Qed.

Lemma step_ok l Vals k c c' : config_ok l Vals k c → step c c' → config_ok l Vals k c'.
Proof.
  intros Hc Hs. destruct Hs as [s s' ts i p p' Hi Hp].
  assert (pc_ok Vals k p) as Hpk by (by eapply Forall_lookup_1; [apply Hc|]).
  destruct (thread_step_ok _ _ _ _ _ _ _ _ Hc Hpk Hp) as [Hc' Hp'].
  destruct Hc'. split; try done. simpl in *. by apply Forall_insert.
Qed.

Lemma reachable_ok l Vals k c c' : config_ok l Vals k c → rtc step c c' → config_ok l Vals k c'.
Proof. intros Hc Hr. induction Hr; [done|]. eauto using step_ok. Qed.

(** A thread that is about to load, or to store a value of [k] words. *)
Definition starts (k : nat) (p : pc) : Prop :=
  match p with
  | LoadStart => True
  | StoreLock b v => b = bo_new ∧ length v = k
  | _ => False
  end.

Definition stored (ts : list pc) : list (list Z) :=
  omap (λ p, match p with StoreLock _ v => Some v | _ => None end) ts.

Lemma initial_ok l words ts :
  Forall (starts (length words)) ts →
  config_ok l (words :: stored ts) (length words) (mkConfig (mkLcell l words) ts).
Proof.
  intros Hts. split; simpl; [by left|done| |].
  - intros j w Hj. exists words. split; [left|done].
  - apply Forall_lookup. intros i p Hi. pose proof (proj1 (Forall_lookup _ _) Hts i p Hi) as Hp.
    destruct p as [|?|?|?|?|b v|?|]; try done. destruct Hp as [_ Hl]. split; [|done].
    right. apply list_elem_of_omap. exists (StoreLock b v). split; [|done]. by eapply list_elem_of_lookup_2.
Qed.

(** In every interleaving of loads and stores, each word a load returns is the
    word in that place of the initial value or of a value some thread stores. *)
Theorem load_words_from_stores l words ts c i val :
  Forall (starts (length words)) ts → rtc step (mkConfig (mkLcell l words) ts) c →
  cf_threads c !! i = Some (LoadDone val) →
  length val = length words
  ∧ ∀ j w, val !! j = Some w → ∃ v, v ∈ words :: stored ts ∧ v !! j = Some w.
Proof.
  intros Hts Hr Hi. pose proof (reachable_ok _ _ _ _ _ (initial_ok l words ts Hts) Hr) as Hc.
  by destruct (proj1 (Forall_lookup _ _) (ok_threads _ _ _ _ Hc) i _ Hi).
Qed.

(** A load that meets a store half way, and the schedule of the threads. *)
Definition torn_threads (c d : Z) : list pc := [StoreLock bo_new [c; d]; LoadStart].
Definition torn_schedule : list nat := [0; 0; 0; 1; 1; 1; 1; 1]%nat.

Lemma torn_run a b c d :
  schedule (mkConfig (mkLcell seq_new [a; b]) (torn_threads c d)) torn_schedule
  = Some (mkConfig (mkLcell 1 [c; b]) [StoreWrite (mkGuard 1) [c; d] 1; LoadDone [c; b]]).
Proof. reflexivity. Qed.

Lemma load_words_from_stores_witness :
  ∃ c, rtc step (mkConfig (mkLcell seq_new [1; 2]) (torn_threads 3 4)) c
  ∧ cf_threads c !! 1%nat = Some (LoadDone [3; 2])
  ∧ ∀ j w, [3; 2] !! j = Some w → ∃ v, v ∈ [1; 2] :: stored (torn_threads 3 4) ∧ v !! j = Some w.
Proof.
  pose proof (schedule_reaches _ _ _ (torn_run 1 2 3 4)) as Hr. eexists. split; [exact Hr|].
  split; [reflexivity|].
  refine (proj2 (load_words_from_stores seq_new [1; 2] (torn_threads 3 4) _ 1%nat [3; 2] _ Hr _));
    [by repeat constructor|reflexivity].
Defined.

(** C31: the sequence lock excludes nobody.  [write] returns when it finds the lock
    taken: two stores can be inside at once, and a load gets inside a store and
    returns half of each value.  The stamp is 3 after every store, so that an
    optimistic read passes its validation after a whole store came between. *)
Theorem seq_lock_excludes_nobody (a b c d : Z) :
  (∃ cf, rtc step (mkConfig (mkLcell seq_new [a; b]) [StoreLock bo_new [c; d]; StoreLock bo_new [b; a]]) cf
     ∧ ∃ g1 g2, cf_threads cf = [StoreWrite g1 [c; d] 0; StoreWrite g2 [b; a] 0])
  ∧ (∃ cf, rtc step (mkConfig (mkLcell seq_new [a; b]) (torn_threads c d)) cf
     ∧ cf_threads cf !! 1%nat = Some (LoadDone [c; b]))
  ∧ (∃ cf, rtc step (mkConfig (mkLcell 3 [a; b]) (torn_threads c d)) cf
     ∧ cf_threads cf = [StoreDone; LoadDone [a; d]])
  ∧ (∀ words ts cf, Forall (starts (length words)) ts →
       rtc step (mkConfig (mkLcell seq_new words) ts) cf →
       lc_lock (cf_cell cf) = 0 ∨ lc_lock (cf_cell cf) = 1 ∨ lc_lock (cf_cell cf) = 3).
Proof.
  split_and!.
  - eexists. split; [apply (schedule_reaches _ [0; 0; 1]%nat); reflexivity|].
    by exists (mkGuard 1), (mkGuard 1).
  - eexists. split; [apply (schedule_reaches _ torn_schedule); reflexivity|done].
  - eexists. split; [apply (schedule_reaches _ [1; 1; 0; 0; 0; 0; 0; 1; 1]%nat); reflexivity|done].
  - intros words ts cf Hts Hr.
    exact (ok_lock _ _ _ _ (reachable_ok _ _ _ _ _ (initial_ok seq_new words ts Hts) Hr)).
Qed.

(** The alignment of the atomic type is not compared: a type without alignment is
    accessed as an [AtomicU64]. *)
Example atomic_select_ignores_align : atomic_select (mkLayout 8 1) = Some (mkLayout 8 8).
Proof. reflexivity. Qed.
