(* ===== verification/Layout.v ===== *)
(** * C layouts: the [#[repr(C)]] structures of [coroutine/src/stack/unix/x86_64.rs]

    Sizes, alignments and offsets of the structures shared with the kernel and the
    assembly, for a target with 64-bit pointers, and [siginfo_t::si_addr], which reads
    a field through a cast to a longer structure. *)

From stdpp Require Import strings.
From S2P Require Import Prelude Buf.

(** An integer or a pointer of so many bytes, an array, a structure. *)
Inductive ctype :=
| TInt (bytes : Z)
| TArray (t : ctype) (n : Z)
| TStruct (fields : list (string * ctype)).

(** [n] rounded up to a multiple of [a]. *)
Definition round_up (n a : Z) : Z := (n + a - 1) / a * a.

(** [align_of] *)
Fixpoint align (t : ctype) : Z :=
  match t with
  | TInt n => n
  | TArray t _ => align t
  | TStruct fs => foldr (λ '(_, f), Z.max (align f)) 1 fs
  end.

(** [size_of]: the fields one after the other, each at a multiple of its alignment. *)
Fixpoint size (t : ctype) : Z :=
  match t with
  | TInt n => n
  | TArray t n => size t * n
  | TStruct fs =>
      round_up (foldl (λ off '(_, f), round_up off (align f) + size f) 0 fs) (align (TStruct fs))
  end.

(** The offsets of the fields, the first not before [off]. *)
Fixpoint offsets (off : Z) (fs : list (string * ctype)) : list Z :=
  match fs with
  | [] => []
  | (_, f) :: fs => round_up off (align f) :: offsets (round_up off (align f) + size f) fs
  end.

Definition field_offset (name : string) (fs : list (string * ctype)) : option Z :=
  '(i, _) ← list_find (λ f, f.1 = name) fs; offsets 0 fs !! i.

(** ** The structures *)

Definition c_int := TInt 4.
Definition c_uint := TInt 4.
Definition c_ulong := TInt 8.
Definition pointer := TInt 8.
Definition u8 := TInt 1.
Definition u16 := TInt 2.
Definition u32 := TInt 4.
Definition u64 := TInt 8.
Definition usize := TInt 8.
Definition rlim_t := u64.
Definition sighandler_t := usize.
Definition size_t := usize.
Definition greg_t := TInt 8.

Open Scope string_scope.

Definition rlimit := [("rlim_cur", rlim_t); ("rlim_max", rlim_t)].
Definition sigset_t := [("__val", TArray u64 16)].
Definition sigaction :=
  [("sa_sigaction", sighandler_t); ("sa_mask", TStruct sigset_t); ("sa_flags", c_int); ("sa_restorer", pointer)].
Definition siginfo_t := [("si_signo", c_int); ("si_errno", c_int); ("si_code", c_int); ("_align", TArray u64 0)].
Definition siginfo_sigfault :=
  [("_si_signo", c_int); ("_si_errno", c_int); ("_si_code", c_int); ("_si_addr", pointer)].
Definition stack_t := [("ss_sp", pointer); ("ss_flags", c_int); ("ss_size", size_t)].
Definition libc_xmmreg := [("element", TArray u32 4)].
Definition libc_fpxreg := [("sigificand", TArray u16 4); ("exponent", u16); ("__private", TArray u16 3)].
Definition libc_fpstate :=
  [("cwd", u16); ("swd", u16); ("ftw", u16); ("fop", u16); ("rip", u64); ("rdp", u64); ("mxcsr", u32);
   ("mxcr_mask", u32); ("_st", TArray (TStruct libc_fpxreg) 8); ("_xmm", TArray (TStruct libc_xmmreg) 16);
   ("__private", TArray u64 12)].
Definition mcontext_t := [("gregs", TArray greg_t 23); ("fpregs", pointer); ("__private", TArray u64 8)].
Definition ucontext_t :=
  [("uc_flags", c_ulong); ("uc_link", pointer); ("uc_stack", TStruct stack_t); ("uc_mcontext", TStruct mcontext_t);
   ("uc_sigmask", TStruct sigset_t); ("__private", TArray u8 512)].
Definition register := [("gpr", TArray usize 8)].

Close Scope string_scope.

(** [si_addr]: the field [_si_addr] of the bytes from [self] on; [None] when they end
    before it does. *)
Definition si_addr (self : list byte) : option Z :=
  off ← field_offset "_si_addr"%string siginfo_sigfault;
  if off + size pointer <=? zlen self then Some (from_le_bytes (ztake (size pointer) (zdrop off self))) else None.

(** The sizes and the offsets of the fields on x86_64. *)
Example sizes :
  (size ∘ TStruct) <$> [rlimit; sigset_t; sigaction; siginfo_t; stack_t; libc_fpstate; mcontext_t; ucontext_t; register]
  = [16; 128; 152; 16; 24; 512; 256; 936; 64].
Proof. reflexivity. Qed.

Example field_offsets :
  offsets 0 <$> [sigaction; siginfo_t; siginfo_sigfault; stack_t; libc_fpxreg; libc_fpstate; mcontext_t; ucontext_t]
  = [[0; 8; 136; 144]; [0; 4; 8; 16]; [0; 4; 8; 16]; [0; 8; 16]; [0; 8; 10];
     [0; 2; 4; 6; 8; 16; 24; 28; 32; 160; 416]; [0; 184; 192]; [0; 8; 16; 40; 296; 424]].
Proof. reflexivity. Qed.

(** ** Layouts *)

(** The widths that exist, and no negative lengths. *)
Fixpoint ctype_ok (t : ctype) : bool :=
  match t with
  | TInt n => bool_decide (n ∈ [1; 2; 4; 8])
  | TArray t n => (0 <=? n) && ctype_ok t
  | TStruct fs => forallb (λ '(_, f), ctype_ok f) fs
  end.

Definition width (a : Z) : Prop := a ∈ [1; 2; 4; 8].

Lemma width_cases a : width a → a = 1 ∨ a = 2 ∨ a = 4 ∨ a = 8.
Proof. unfold width. rewrite !elem_of_cons, elem_of_nil. tauto. Qed.

Lemma width_max a b : width a → width b → width (Z.max a b) ∧ (a | Z.max a b) ∧ (b | Z.max a b).
Proof.
  intros Ha%width_cases Hb%width_cases. destruct Ha as [->|[->|[->| ->]]], Hb as [->|[->|[->| ->]]];
    split_and!; first [by apply elem_of_list_In; simpl; tauto|by apply Z.mod_divide|set_solver].
Qed.

Lemma round_up_spec n a : 0 < a → n ≤ round_up n a < n + a ∧ (a | round_up n a).
Proof.
  intros Ha. unfold round_up. split; [|apply Z.divide_factor_r].
  pose proof (Z.div_mod (n + a - 1) a ltac:(lia)). pose proof (Z.mod_pos_bound (n + a - 1) a Ha). lia.
Qed.

(** What is true of every type. *)
Definition sound (t : ctype) : Prop := width (align t) ∧ 0 ≤ size t ∧ (align t | size t).

Lemma width_pos a : width a → 0 < a.
Proof. intros H%width_cases. lia. Qed.

(** Fields one after the other, from [off] on to [stop]. *)
Inductive laid_out : Z → list (string * ctype) → list Z → Z → Prop :=
| laid_nil off : laid_out off [] [] off
| laid_cons off n f fs o os stop :
    off ≤ o < off + align f → (align f | o) → laid_out (o + size f) fs os stop →
    laid_out off ((n, f) :: fs) (o :: os) stop.

Lemma offsets_laid off fs : Forall (sound ∘ snd) fs →
  laid_out off fs (offsets off fs) (foldl (λ off '(_, f), round_up off (align f) + size f) off fs).
Proof.
  intros Hfs. revert off. induction Hfs as [|[n f] fs (Hw & _ & _) _ IH]; intros off; simpl; [constructor|].
  destruct (round_up_spec off (align f)) as [? ?]; [by apply width_pos|]. by constructor.
Qed.

Lemma laid_out_le off fs os stop : Forall (sound ∘ snd) fs → laid_out off fs os stop → off ≤ stop ∧ Forall (λ o, off ≤ o) os.
Proof.
  intros Hfs Hl. induction Hl as [off|off n f fs o os stop Ho Hd Hl IH]; [by split|].
  apply Forall_cons_1 in Hfs as [(_ & Hs & _) Hfs]. simpl in Hs. destruct (IH Hfs) as [H1 H2]. split; [lia|].
  constructor; [lia|]. eapply Forall_impl; [|exact H2]. simpl. lia.
Qed.

Lemma laid_out_field off fs os stop i n f o : Forall (sound ∘ snd) fs → laid_out off fs os stop →
  fs !! i = Some (n, f) → os !! i = Some o →
  off ≤ o ∧ (align f | o) ∧ o + size f ≤ stop ∧ ∀ j o', (i < j)%nat → os !! j = Some o' → o + size f ≤ o'.
Proof.
  intros Hfs Hl. revert i. induction Hl as [off|off n' f' fs o1 os stop Ho Hd Hl IH]; intros i Hf Hi; [done|].
  apply Forall_cons_1 in Hfs as [(_ & Hs & _) Hfs]. destruct (laid_out_le _ _ _ _ Hfs Hl) as [H1 H2].
  destruct i as [|i]; simpl in *.
  - simplify_eq. split_and!; [lia|done|done|]. intros [|j] o' Hj Ho'; [lia|]. simpl in Ho'.
    by apply (Forall_lookup_1 _ _ _ _ H2 Ho').
  - destruct (IH Hfs i Hf Hi) as (? & ? & ? & Hj). split_and!; [lia|done|done|].
    intros [|j] o' Hlt Ho'; [lia|]. apply (Hj j); [lia|done].
Qed.

Lemma laid_out_length off fs os stop : laid_out off fs os stop → length os = length fs.
Proof. induction 1; simpl; congruence. Qed.

Lemma laid_out_gap off fs os stop i n f o o' : laid_out off fs os stop →
  fs !! i = Some (n, f) → os !! i = Some o → os !! (i + 1)%nat = Some o' →
  ∃ n' f', fs !! (i + 1)%nat = Some (n', f') ∧ o' < o + size f + align f'.
Proof.
  intros Hl. revert i. induction Hl as [off|off n' f' fs o1 os stop Ho Hd Hl IH]; intros i Hf Hi Hi'; [done|].
  destruct i as [|i]; simpl in *; [|by eapply IH]. simplify_eq. inversion Hl; simplify_eq/=. eexists _, _. split; [done|]. lia.
Qed.

Lemma struct_align fs : Forall (sound ∘ snd) fs →
  width (align (TStruct fs)) ∧ Forall (λ f, (align f.2 | align (TStruct fs))) fs.
Proof.
  induction 1 as [|[n f] fs (Hw & _) _ [IH1 IH2]]; simpl; [split; constructor|].
  simpl in IH1, IH2, Hw. destruct (width_max _ _ Hw IH1) as (? & ? & Hd). split; [done|]. constructor; [done|].
  eapply Forall_impl; [|exact IH2]. intros x Hx. exact (Z.divide_trans _ _ _ Hx Hd).
Qed.

Fixpoint sound_all (t : ctype) : ctype_ok t = true → sound t.
Proof.
  destruct t as [n|t n|fs]; simpl; intros Hok.
  - apply bool_decide_eq_true in Hok. unfold sound. simpl. split; [done|]. apply width_cases in Hok. split; [lia|done].
  - apply andb_true_iff in Hok as [Hn Hok]. apply Z.leb_le in Hn. destruct (sound_all t Hok) as (Hw & Hs & Hd).
    unfold sound. simpl. split; [done|]. split; [by apply Z.mul_nonneg_nonneg|by apply Z.divide_mul_l].
  - assert (Forall (sound ∘ snd) fs) as Hfs.
    { induction fs as [|[n f] fs IH]; [constructor|]. simpl in Hok. apply andb_true_iff in Hok as [Hf Hok].
      constructor; [exact (sound_all f Hf)|exact (IH Hok)]. }
    destruct (struct_align fs Hfs) as [Hw _]. unfold sound. split; [done|].
    destruct (round_up_spec (foldl (λ off '(_, f), round_up off (align f) + size f) 0 fs) (align (TStruct fs))) as [H1 H2];
      [by apply width_pos|].
    destruct (laid_out_le _ _ _ _ Hfs (offsets_laid 0 fs Hfs)) as [H3 _]. split; [|exact H2].
    change (size (TStruct fs)) with (round_up (foldl (λ off '(_, f), round_up off (align f) + size f) 0 fs) (align (TStruct fs))). lia.
Qed.

(** The layout of any structure: the fields lie in it one after the other without
    overlapping, aligned wherever the structure is, and without a gap of an alignment or
    more. *)
Lemma struct_layout fs (S := TStruct fs) :
  ctype_ok S = true →
  length (offsets 0 fs) = length fs ∧ (align S | size S)
  ∧ ∀ i n f o base, fs !! i = Some (n, f) → offsets 0 fs !! i = Some o → (align S | base) →
    (align f | base + o) ∧ 0 ≤ o ∧ o + size f ≤ size S
    ∧ (∀ j o', (i < j)%nat → offsets 0 fs !! j = Some o' → o + size f ≤ o')
    ∧ (∀ o', offsets 0 fs !! (i + 1)%nat = Some o' → ∃ n' f', fs !! (i + 1)%nat = Some (n', f') ∧ o' < o + size f + align f').
Proof.
  intros Hok. pose proof (sound_all _ Hok) as (Hw & _ & Hd).
  assert (Forall (sound ∘ snd) fs) as Hfs.
  { simpl in Hok. clear -Hok. induction fs as [|[n f] fs IH]; [constructor|]. simpl in Hok.
    apply andb_true_iff in Hok as [Hf Hok]. constructor; [by apply sound_all|auto]. }
  pose proof (offsets_laid 0 fs Hfs) as Hl. destruct (struct_align fs Hfs) as [_ Ha].
  split; [by eapply laid_out_length|]. split; [done|]. intros i n f o base Hi Ho Hb.
  destruct (laid_out_field _ _ _ _ _ _ _ _ Hfs Hl Hi Ho) as (H1 & H2 & H3 & H4).
  pose proof (Forall_lookup_1 _ _ _ _ Ha Hi) as Hf. simpl in Hf.
  destruct (round_up_spec (foldl (λ off '(_, f), round_up off (align f) + size f) 0 fs) (align S)) as [H5 _];
    [by apply width_pos|].
  split_and!; [|done| |done|].
  - apply Z.divide_add_r; [exact (Z.divide_trans _ _ _ Hf Hb)|done].
  - etrans; [exact H3|]. apply H5.
  - intros o' Ho'. by eapply laid_out_gap.
Qed.

(** [si_addr] reads the bytes 16 to 24, and [siginfo_t] ends at 16: the bytes of the
    structure alone have no such field. *)
Lemma si_addr_beyond self :
  size (TStruct siginfo_t) = 16 ∧ (zlen self = size (TStruct siginfo_t) → si_addr self = None)
  ∧ (24 ≤ zlen self → si_addr self = Some (from_le_bytes (ztake 8 (zdrop 16 self)))).
Proof.
  split; [done|]. unfold si_addr. simpl. split; [by intros ->|]. intros H.
  change (round_up _ 8) with 16. change (16 + 8) with 24. by rewrite (proj2 (Z.leb_le _ _) H).
Qed.
