(* ===== verification/Stack.v ===== *)
(** * [coroutine/src/stack]: the memory of coroutine stacks

    [sys_stack.rs], [unix/mod.rs], [mod.rs], [asm/mod.rs] and
    [initialize_call_frame] of [unix/x86_64.rs].  The operating system is a
    parameter: the page size, the limit on stacks, and where [mmap] finds room.
    Memory is the list of mapped ranges with the words written to them; an access
    outside of them stops with [SUndef]. *)

From stdpp Require Import pretty.
From S2P Require Import Prelude.

(** ** The process *)

Record mapping := mkMapping { mp_addr : Z; mp_len : Z; mp_access : bool }.

Record proc := mkProc {
  pr_page : Z;                (** the static of [page_size] *)
  pr_max : Z;                 (** the static of [max_stack_size] *)
  pr_maps : list mapping;
  pr_words : gmap Z Z;        (** anonymous memory starts as zero *)
}.

(** [sysconf(_SC_PAGESIZE)], [rlim_max] of [getrlimit(RLIMIT_STACK)], [None] when it
    fails; [mmap] gives an address or an error number, [mprotect] an error number
    when it fails; [strerror] is the text of one. *)
Class System := {
  sysconf_pagesize : Z;
  getrlimit_stack : option Z;
  mmap : list mapping → Z → result Z Z;
  mprotect : list mapping → Z → Z → option Z;
  strerror : Z → string;
}.

Abbreviation os := (stm proc).

(** The parts of a mapping outside and inside of a range. *)
Definition outside (a n : Z) (m : mapping) : list mapping :=
  let e := mp_addr m + mp_len m in
  (if mp_addr m <? a then [mkMapping (mp_addr m) (Z.min e a - mp_addr m) (mp_access m)] else [])
  ++ (if a + n <? e then [mkMapping (Z.max (a + n) (mp_addr m)) (e - Z.max (a + n) (mp_addr m)) (mp_access m)]
      else []).

Definition inside (a n : Z) (m : mapping) : list mapping :=
  let lo := Z.max (mp_addr m) a in
  let hi := Z.min (mp_addr m + mp_len m) (a + n) in
  if lo <? hi then [mkMapping lo (hi - lo) (mp_access m)] else [].

Definition no_access (m : mapping) : mapping := mkMapping (mp_addr m) (mp_len m) false.

(** The effect of [mprotect(a, n, PROT_NONE)] and of [munmap(a, n)]. *)
Definition protect_maps (a n : Z) (maps : list mapping) : list mapping :=
  mjoin ((λ m, outside a n m ++ (no_access <$> inside a n m)) <$> maps).
Definition unmap_maps (a n : Z) (maps : list mapping) : list mapping :=
  mjoin (outside a n <$> maps).

Definition covers (a n : Z) (m : mapping) : bool :=
  mp_access m && (mp_addr m <=? a) && (a + n <=? mp_addr m + mp_len m).

Definition accessible (maps : list mapping) (a n : Z) : bool := existsb (covers a n) maps.

(** A word of memory. *)
Definition word_ok (s : proc) (a : Z) : bool := (a mod 8 =? 0) && accessible (pr_maps s) a 8.
Definition word_at (s : proc) (a : Z) : Z := default 0 (pr_words s !! a).

Definition read_word (a : Z) : os Z := λ s,
  if word_ok s a then Ret (word_at s a, s) else Stop SUndef.
Definition write_word (a v : Z) : os () := λ s,
  if word_ok s a then Ret ((), mkProc (pr_page s) (pr_max s) (pr_maps s) (<[a := v]> (pr_words s)))
  else Stop SUndef.

Definition set_maps (s : proc) (maps : list mapping) : proc :=
  mkProc (pr_page s) (pr_max s) maps (pr_words s).

(** The system calls. *)
Definition os_mmap `{System} (size : Z) : os (result Z Z) := λ s,
  match mmap (pr_maps s) size with
  | Err e => Ret (Err e, s)
  | Ok ptr =>
      let words := filter (λ kv, ¬ (ptr ≤ fst kv < ptr + size)) (pr_words s) in
      Ret (Ok ptr, mkProc (pr_page s) (pr_max s) (mkMapping ptr size true :: pr_maps s) words)
  end.
Definition os_mprotect `{System} (a n : Z) : os (option Z) := λ s,
  match mprotect (pr_maps s) a n with
  | None => Ret (None, set_maps s (protect_maps a n (pr_maps s)))
  | Some e => Ret (Some e, s)
  end.
Definition os_munmap (a n : Z) : os () := λ s, Ret ((), set_maps s (unmap_maps a n (pr_maps s))).

Section stack.
Context `{Build} `{System}.

(** ** [unix/mod.rs] *)

Definition page_size : os Z := λ s,
  let ret := pr_page s in
  if ret =? 0 then
    let ret := uwrap 64 sysconf_pagesize in
    Ret (ret, mkProc ret (pr_max s) (pr_maps s) (pr_words s))
  else Ret (ret, s).

Definition min_stack_size : os Z := page_size.

Definition RLIM_INFINITY : Z := 18446744073709551615.

Definition max_stack_size : os Z := λ s,
  let ret := pr_max s in
  if ret =? 0 then
    match getrlimit_stack with
    | Some rlim_max =>
        let ret := if (rlim_max =? RLIM_INFINITY) || (usize_max <? rlim_max) then usize_max
                   else rlim_max in
        Ret (ret, mkProc (pr_page s) ret (pr_maps s) (pr_words s))
    | None => Ret (1024 * 1024 * 1024, s)
    end
  else Ret (ret, s).

(** ** [sys_stack.rs] *)

Record SysStack := mkSysStack { ss_top : Z; ss_bottom : Z }.

(** An [io::Error] is the number of the last system error. *)
Inductive StackError := ExceedsMaximumSize (size : Z) | IoError (e : Z).

Definition io_error_fmt (e : Z) : string := strerror e +:+ " (os error " +:+ pretty e +:+ ")".

(** [Display] and [Error::source] of [StackError]. *)
Definition stack_error_fmt (x : StackError) : string :=
  match x with
  | ExceedsMaximumSize size => "Requested more than max size of " +:+ pretty size +:+ " bytes for a stack"
  | IoError e => io_error_fmt e
  end.
Definition stack_error_source (x : StackError) : option Z :=
  match x with ExceedsMaximumSize _ => None | IoError e => Some e end.

Definition sys_new (top bottom : Z) : comp SysStack :=
  debug_assert (bottom <=? top);;
  Ret (mkSysStack top bottom).

(** [SysStack::len] *)
Definition sys_len (s : SysStack) : comp Z := usize_sub (ss_top s) (ss_bottom s).
Definition sys_top (s : SysStack) : Z := ss_top s.
Definition sys_bottom (s : SysStack) : Z := ss_bottom s.
Definition sys_min_size : os Z := min_stack_size.

Definition allocate_stack (size : Z) : os (result SysStack StackError) :=
  ptr ← os_mmap size;
  match ptr with
  | Err e => mret (Err (IoError e))
  | Ok ptr =>
      top ← st_lift (usize_add ptr size);
      st ← st_lift (sys_new top ptr);
      mret (Ok st)
  end.

Definition protect_stack (stack : SysStack) : os (result SysStack StackError) :=
  page ← page_size;
  len ← st_lift (sys_len stack);
  st_lift (debug_assert ((len mod page =? 0) && negb (len =? 0)));;
  ret ← os_mprotect (ss_bottom stack) page;
  match ret with
  | None =>
      bottom ← st_lift (usize_add (ss_bottom stack) page);
      st ← st_lift (sys_new (ss_top stack) bottom);
      mret (Ok st)
  | Some e => mret (Err (IoError e))
  end.

Definition deallocate_stack (ptr size : Z) : os () := os_munmap ptr size.

(** [SysStack::allocate] *)
Definition sys_allocate (size : Z) (protected : bool) : os (result SysStack StackError) :=
  page ← page_size;
  min ← min_stack_size;
  max ← max_stack_size;
  let add := uwrap 64 (Z.shiftl page (if protected then 1 else 0)) in
  let size := if size <? min then min else size in
  size ← st_lift (usize_sub size 1);
  let size := Z.land size (usize_max - uwrap 64 (page - 1)) in
  match checked_add 64 size add with
  | Some size =>
      if size <=? max then
        ret ← allocate_stack size;
        match ret with
        | Ok stack => if protected then protect_stack stack else mret (Ok stack)
        | Err e => mret (Err e)
        end
      else
        n ← st_lift (usize_sub max add); mret (Err (ExceedsMaximumSize n))
  | None => n ← st_lift (usize_sub max add); mret (Err (ExceedsMaximumSize n))
  end.

(** ** [mod.rs] *)

(** [Stack::size]: in words. *)
Definition st_size (st : SysStack) : comp Z := len ← sys_len st; Ret (len / 8).

Definition MAGIC : Z := 17216961135462248174.  (* 0xEEEEEEEEEEEEEEEE *)

(** [ptr::write_bytes(p, 0xEE, count)] over words. *)
Fixpoint fill_words (p : Z) (count : nat) : os () :=
  match count with
  | O => mret ()
  | S count => write_word p MAGIC;; fill_words (p + 8) count
  end.

(** One word above the top. *)
Definition get_offset (st : SysStack) : Z := ss_top st + 8.

(** [Stack::new] *)
Definition st_new (size : Z) : os SysStack :=
  let track := negb (Z.land size 1 =? 0) in
  bytes ← st_lift (unsigned_op 64 (size * 8));
  min ← min_stack_size;
  let bytes := Z.max bytes min in
  r ← sys_allocate bytes true;
  match r with
  | Err _ => stop_st (SPanic PExpect)
  | Ok stack =>
      n ← st_lift (st_size stack);
      let count := if track then n else 8 in
      fill_words (ss_bottom stack) (Z.to_nat count);;
      write_word (get_offset stack) 1;;
      mret stack
  end.

(** The loop of [get_used_size]: the number of words that still hold the magic. *)
Fixpoint count_magic (fuel : nat) (p offset : Z) : os Z :=
  w ← read_word p;
  if w =? MAGIC then
    match fuel with
    | O => stop_st SFuel
    | S fuel => offset ← st_lift (usize_add offset 1); count_magic fuel (p + 8) offset
    end
  else mret offset.

Definition get_used_size (fuel : nat) (st : SysStack) : os Z :=
  offset ← count_magic fuel (ss_bottom st) 0;
  cap ← st_lift (st_size st);
  st_lift (usize_sub cap offset).

(** [Stack::end] and [Stack::begin] *)
Definition st_end (st : SysStack) : os Z :=
  offset ← read_word (get_offset st); mret (ss_top st - 8 * swrap 64 offset).
Definition st_begin (st : SysStack) : Z := ss_bottom st.

Definition drop_stack (st : SysStack) : os () :=
  len ← st_lift (sys_len st);
  if len =? 0 then mret () else
  page ← page_size;
  guard ← st_lift (usize_sub (ss_bottom st) page);
  len ← st_lift (sys_len st);
  size_with_guard ← st_lift (usize_add len page);
  deallocate_stack guard size_with_guard.

(** ** [asm/mod.rs] and the first frame *)

Definition align_down (sp : Z) : Z := Z.land sp (usize_max - 15).
Definition mut_offset (p count : Z) : Z := p + 8 * count.

(** [struct Register] *)
Record Register := mkRegister { gpr : list Z }.
Definition reg_new : Register := mkRegister (replicate 8 0).

Definition set_reg (i : nat) (v : Z) (r : Register) : Register := mkRegister (<[i := v]> (gpr r)).

Definition RUSTRT_RSP : nat := 1.
Definition RUSTRT_RBP : nat := 2.
Definition RUSTRT_R12 : nat := 4.
Definition RUSTRT_R13 : nat := 5.
Definition RUSTRT_R14 : nat := 6.

(** [bootstrap_green_task] is assembly; only its address is used. *)
Definition initialize_call_frame (bootstrap : Z) (regs : Register) (fptr arg arg2 : Z) (st : SysStack)
    : os Register :=
  e ← st_end st;
  let sp := align_down e in
  let regs := set_reg RUSTRT_R12 arg regs in
  let regs := set_reg RUSTRT_R13 arg2 regs in
  let regs := set_reg RUSTRT_R14 fptr regs in
  let regs := set_reg RUSTRT_RBP 0 regs in
  let regs := set_reg RUSTRT_RSP (mut_offset sp (-2)) regs in
  write_word (mut_offset sp (-2)) bootstrap;;
  write_word (mut_offset sp (-1)) 0;;
  mret regs.
End stack.

(** ** What the system promises *)

Abbreviation page := sysconf_pagesize.

Definition apart (a n : Z) (m : mapping) : Prop := a + n ≤ mp_addr m ∨ mp_addr m + mp_len m ≤ a.

(** [mmap] returns whole pages that nothing is mapped to. *)
Class SystemLaws `{System} := {
  page_power : ∃ k, 6 ≤ k ≤ 40 ∧ page = 2 ^ k;
  rlimit_range m : getrlimit_stack = Some m → 0 ≤ m < 2 ^ 64;
  mmap_fresh maps n a : mmap maps n = Ok a → 0 < n →
    0 < a ∧ a mod page = 0 ∧ a + n < 2 ^ 64 ∧ Forall (apart a n) maps;
}.

Lemma land_high x k : 0 ≤ x < 2 ^ 64 → 0 ≤ k < 64 →
  Z.land x (usize_max - (2 ^ k - 1)) = x - x mod 2 ^ k.
Proof.
  intros Hx Hk. assert (0 < 2 ^ k) by (apply Z.pow_pos_nonneg; lia).
  replace (usize_max - (2 ^ k - 1)) with (Z.ldiff (Z.ones 64) (Z.ones k)).
  - rewrite Z.ldiff_land, Z.land_assoc, Z.land_ones, Z.mod_small by lia.
    rewrite <-Z.ldiff_land, Z.ldiff_ones_r, Z.shiftl_mul_pow2, Z.shiftr_div_pow2 by lia.
    pose proof (Z.div_mod x (2 ^ k)). lia.
  - rewrite Z.ldiff_ones_r, Z.shiftl_mul_pow2, Z.shiftr_div_pow2 by lia.
    rewrite Z.ones_equiv. unfold usize_max.
    assert (2 ^ 64 = 2 ^ (64 - k) * 2 ^ k) as E by (rewrite <-Z.pow_add_r; f_equal; lia).
    assert (0 < 2 ^ (64 - k)) by (apply Z.pow_pos_nonneg; lia).
    rewrite <-(Z.div_unique (Z.pred (2 ^ 64)) (2 ^ k) (2 ^ (64 - k) - 1) (2 ^ k - 1)); lia.
Qed.

Definition round_up (n p : Z) : Z := p * ((n + p - 1) / p).

Lemma round_up_low n p : 0 < p → 0 < n → n - 1 - (n - 1) mod p + p = round_up n p.
Proof.
  intros Hp Hn. unfold round_up. replace (n + p - 1) with (n - 1 + 1 * p) by lia.
  rewrite Z.div_add by lia. pose proof (Z.div_mod (n - 1) p). lia.
Qed.

Lemma round_up_bounds n p : 0 < p → n ≤ round_up n p < n + p ∧ round_up n p mod p = 0.
Proof.
  intros Hp. unfold round_up. pose proof (Z.div_mod (n + p - 1) p). pose proof (Z.mod_pos_bound (n + p - 1) p).
  split; [lia|]. rewrite Z.mul_comm. apply Z.mod_mul. lia.
Qed.

Section laws.
Context `{Hbd : Build} `{Hlaws : SystemLaws}.

(** The limit that [max_stack_size] reports. *)
Definition limit : Z :=
  match getrlimit_stack with
  | Some m => if (m =? RLIM_INFINITY) || (usize_max <? m) then usize_max else m
  | None => 1024 * 1024 * 1024
  end.

(** The statics hold what the system reports, and every mapping is a range. *)
Record proc_ok (s : proc) : Prop := {
  ok_page : pr_page s = 0 ∨ pr_page s = page;
  ok_max : pr_max s = 0 ∨ pr_max s = limit;
  ok_maps : Forall (λ m, 0 < mp_len m) (pr_maps s);
}.

Definition same_mem (s s' : proc) : Prop := pr_maps s' = pr_maps s ∧ pr_words s' = pr_words s.

Lemma page_pos : 64 ≤ page ≤ 2 ^ 40 ∧ page mod 8 = 0.
Proof using Hlaws.
  destruct page_power as (k & Hk & ->). split.
  - split; [change 64 with (2 ^ 6)|]; apply Z.pow_le_mono_r; lia.
  - replace k with (k - 3 + 3) by lia. rewrite Z.pow_add_r by lia. by apply Z.mod_mul.
Qed.

Lemma limit_range : 0 ≤ limit < 2 ^ 64.
Proof using Hlaws.
  unfold limit. destruct getrlimit_stack as [m|] eqn:E; [|lia]. apply rlimit_range in E.
  unfold usize_max. destruct (_ || _); lia.
Qed.

Lemma page_size_ok s : proc_ok s →
  ∃ s', page_size s = Ret (page, s') ∧ proc_ok s' ∧ same_mem s s'.
Proof using Hlaws.
  intros [Hp Hm Hmaps]. destruct page_pos as [? _]. unfold page_size.
  destruct (Z.eqb_spec (pr_page s) 0) as [E|E].
  - unfold uwrap. rewrite Z.mod_small by lia. eexists. split; [done|]. split; [|done]. by split; [right| |].
  - destruct Hp as [|Hp]; [done|]. exists s. rewrite Hp. split; [done|]. split; [|done].
    split; [by right|done|done].
Qed.

Lemma max_stack_size_ok s : proc_ok s →
  ∃ s', max_stack_size s = Ret (limit, s') ∧ proc_ok s' ∧ same_mem s s'.
Proof.
  intros Hok. pose proof Hok as [Hp Hm Hmaps]. unfold max_stack_size.
  destruct (Z.eqb_spec (pr_max s) 0) as [E|E].
  - unfold limit in *. destruct getrlimit_stack as [m|] eqn:El.
    + eexists. split; [done|]. split; [|done]. split; [done| |done]. right. simpl. unfold limit. by rewrite El.
    + exists s. done.
  - destruct Hm as [|Hm]; [done|]. exists s. by rewrite Hm.
Qed.

(** *** Mappings *)

Lemma outside_apart a n m : 0 ≤ n → 0 < mp_len m → apart a n m → outside a n m = [m].
Proof.
  intros Hn Hl Hap. unfold outside, apart in *. destruct m as [b l acc]. simpl in *.
  destruct (Z.ltb_spec b a), (Z.ltb_spec (a + n) (b + l)); simpl; try lia.
  - do 2 f_equal; lia.
  - do 2 f_equal; lia.
Qed.

Lemma inside_apart a n m : apart a n m → inside a n m = [].
Proof.
  unfold inside, apart. destruct m as [b l acc]. simpl. intros Hap.
  destruct (Z.ltb_spec (Z.max b a) (Z.min (b + l) (a + n))); [lia|done].
Qed.

Lemma protect_cons a n m maps :
  protect_maps a n (m :: maps) = (outside a n m ++ (no_access <$> inside a n m)) ++ protect_maps a n maps.
Proof. done. Qed.
Lemma unmap_cons a n m maps : unmap_maps a n (m :: maps) = outside a n m ++ unmap_maps a n maps.
Proof. done. Qed.

Lemma protect_apart a n maps :
  0 ≤ n → Forall (λ m, 0 < mp_len m) maps → Forall (apart a n) maps → protect_maps a n maps = maps.
Proof.
  intros Hn Hl Hap. unfold protect_maps. induction Hap as [|m maps Hm Hap IH]; [done|].
  inversion Hl; subst. simpl. rewrite outside_apart, inside_apart by done. simpl. f_equal. auto.
Qed.

Lemma unmap_apart a n maps :
  0 ≤ n → Forall (λ m, 0 < mp_len m) maps → Forall (apart a n) maps → unmap_maps a n maps = maps.
Proof.
  intros Hn Hl Hap. unfold unmap_maps. induction Hap as [|m maps Hm Hap IH]; [done|].
  inversion Hl; subst. simpl. rewrite outside_apart by done. simpl. f_equal. auto.
Qed.

Lemma apart_sub a n b k maps :
  b ≤ a → a + n ≤ b + k → 0 ≤ n → Forall (apart b k) maps → Forall (apart a n) maps.
Proof. intros ???. apply Forall_impl. intros m. unfold apart. lia. Qed.
(** ** Allocation *)

Definition extra (protected : bool) : Z := if protected then page else 0.

(** What [sys_allocate] maps: the stack, and below it the guard page. *)
Definition stack_maps (st : SysStack) (protected : bool) : list mapping :=
  mkMapping (ss_bottom st) (ss_top st - ss_bottom st) true
  :: (if protected then [mkMapping (ss_bottom st - page) page false] else []).

Definition fresh_stack (size : Z) (protected : bool) (s : proc) (st : SysStack) (s' : proc) : Prop :=
  ss_top st - ss_bottom st = round_up (Z.max size page) page
  ∧ ss_bottom st mod page = 0 ∧ extra protected < ss_bottom st ∧ ss_top st < 2 ^ 64
  ∧ pr_maps s' = stack_maps st protected ++ pr_maps s
  ∧ Forall (apart (ss_bottom st - extra protected)
      (ss_top st - ss_bottom st + extra protected)) (pr_maps s).

Lemma allocate_stack_ok s n :
  proc_ok s → 0 < n < 2 ^ 64 →
  wps (allocate_stack n) s (λ _, False) (λ r s', proc_ok s' ∧
    match r with
    | Err x => ∃ e, x = IoError e ∧ mmap (pr_maps s) n = Err e ∧ s' = s
    | Ok st => ss_top st = ss_bottom st + n ∧ 0 < ss_bottom st ∧ ss_bottom st mod page = 0
        ∧ ss_top st < 2 ^ 64 ∧ pr_maps s' = mkMapping (ss_bottom st) n true :: pr_maps s
        ∧ Forall (apart (ss_bottom st) n) (pr_maps s)
    end).
Proof using Hlaws.
  intros Hok Hn. unfold allocate_stack, os_mmap. apply wps_bind. unfold wps at 1.
  destruct (mmap (pr_maps s) n) as [a|e] eqn:Em; [|by apply wps_ret; split; [|exists e]].
  destruct (mmap_fresh _ _ _ Em) as (Ha & Hp & Hend & Hap); [lia|]. simpl.
  apply wps_bind. eapply wps_lift; [apply usize_add_in; lia|].
  apply wps_bind. eapply wps_lift; [unfold sys_new; by rewrite debug_assert_true by (apply Z.leb_le; lia)|].
  apply wps_ret. destruct Hok as [? ? Hmaps]. split; [|done]. split; simpl; [done..|].
  constructor; [simpl; lia|done].
Qed.

Lemma protect_stack_ok s st n maps :
  proc_ok s → pr_maps s = mkMapping (ss_bottom st) n true :: maps → ss_top st = ss_bottom st + n →
  0 < ss_bottom st → ss_top st < 2 ^ 64 → n mod page = 0 → page < n →
  Forall (apart (ss_bottom st) n) maps →
  wps (protect_stack st) s (λ _, False) (λ r s', proc_ok s' ∧
    match r with
    | Err x => ∃ e, x = IoError e ∧ mprotect (pr_maps s) (ss_bottom st) page = Some e ∧ pr_maps s' = pr_maps s
    | Ok st' => st' = mkSysStack (ss_top st) (ss_bottom st + page)
        ∧ pr_maps s' = stack_maps st' true ++ maps
    end).
Proof using Hlaws.
  intros Hok Hs Ht Hb Htop Hmod Hn Hap. destruct page_pos as [Hp _]. unfold protect_stack.
  destruct (page_size_ok s Hok) as (s1 & E1 & Hok1 & [Em1 Ew1]).
  apply wps_bind. eapply wps_val; [exact E1|]. unfold sys_len.
  apply wps_bind. eapply wps_lift; [apply usize_sub_in; lia|].
  replace (ss_top st - ss_bottom st) with n by lia.
  apply wps_bind. eapply wps_lift.
  { apply debug_assert_true. rewrite Hmod. by rewrite (proj2 (Z.eqb_neq n 0)) by lia. }
  apply wps_bind. unfold os_mprotect, wps at 1.
  destruct (mprotect (pr_maps s1) (ss_bottom st) page) as [e|] eqn:Ep;
    [apply wps_ret; split; [done|]; exists e; by rewrite <-Em1|].
  simpl. apply wps_bind. eapply wps_lift; [apply usize_add_in; lia|].
  apply wps_bind. eapply wps_lift; [unfold sys_new; by rewrite debug_assert_true by (apply Z.leb_le; lia)|].
  assert (protect_maps (ss_bottom st) page (pr_maps s1)
    = stack_maps (mkSysStack (ss_top st) (ss_bottom st + page)) true ++ maps) as E.
  { rewrite Em1, Hs. pose proof (ok_maps s Hok) as Hl. rewrite Hs in Hl. inversion Hl; subst.
    rewrite protect_cons, protect_apart; [|lia|done|eapply apart_sub; [| | |exact Hap]; lia].
    unfold outside, inside. simpl. rewrite (proj2 (Z.ltb_ge (ss_bottom st) (ss_bottom st))) by lia.
    rewrite (proj2 (Z.ltb_lt (ss_bottom st + page) (ss_bottom st + n))) by lia.
    rewrite (proj2 (Z.ltb_lt (Z.max _ _) _)) by lia. simpl. unfold no_access. simpl.
    repeat f_equal; lia. }
  apply wps_ret. split; [|done]. destruct Hok1 as [? ? Hl]. split; simpl; [done..|]. rewrite E.
  rewrite Em1, Hs in Hl. inversion Hl; subst. repeat constructor; simpl; try lia. done.
Qed.

(** The size that [sys_allocate] asks for, guard page included. *)
Definition total (size : Z) (protected : bool) : Z := round_up (Z.max size page) page + extra protected.

Lemma extra_range protected : 0 ≤ extra protected ≤ page.
Proof using Hlaws. destruct page_pos as [Hp _]. unfold extra. destruct protected; lia. Qed.

Lemma total_bounds size protected : 0 ≤ size →
  page ≤ size + page ∧ Z.max size page + extra protected ≤ total size protected < Z.max size page + page + extra protected
  ∧ (total size protected) mod page = 0.
Proof using Hlaws.
  intros Hs. destruct page_pos as [Hp _]. unfold total.
  destruct (round_up_bounds (Z.max size page) page) as [Hr Hm]; [lia|]. split_and!; try lia.
  unfold extra. destruct protected; [|by rewrite Z.add_0_r].
  rewrite Z.add_mod, Hm, Z.mod_same by lia. done.
Qed.

(** The statics and the arithmetic before the system is asked. *)
Lemma sys_allocate_size s size protected : proc_ok s → 0 ≤ size < 2 ^ 64 →
  ∃ s', proc_ok s' ∧ same_mem s s' ∧ sys_allocate size protected s =
    (if total size protected <=? limit then
       (ret ← allocate_stack (total size protected);
        match ret with
        | Ok stack => if protected then protect_stack stack else mret (Ok stack)
        | Err e => mret (Err e)
        end) s'
     else
       (n ← st_lift (usize_sub limit (page + extra protected)); mret (Err (ExceedsMaximumSize n))) s').
Proof using Hlaws.
  intros Hok Hsize. destruct page_pos as [Hp _]. pose proof limit_range as Hlr.
  pose proof (extra_range protected) as He.
  destruct (page_size_ok s Hok) as (s1 & E1 & Hok1 & Hm1).
  destruct (page_size_ok s1 Hok1) as (s2 & E2 & Hok2 & Hm2).
  destruct (max_stack_size_ok s2 Hok2) as (s3 & E3 & Hok3 & Hm3).
  exists s3. split; [done|]. split; [unfold same_mem in *; intuition congruence|].
  assert (uwrap 64 (Z.shiftl page (if protected then 1 else 0)) = page + extra protected) as Eadd.
  { unfold uwrap, extra. destruct protected; rewrite Z.shiftl_mul_pow2, Z.mod_small; lia. }
  assert (Z.land (Z.max size page - 1) (usize_max - uwrap 64 (page - 1))
    = round_up (Z.max size page) page - page) as Eland.
  { unfold uwrap. rewrite Z.mod_small by lia. rewrite <-round_up_low by lia.
    destruct page_power as (k & Hk & Ek). rewrite Ek. rewrite land_high; lia. }
  unfold sys_allocate, min_stack_size. rewrite (stm_bind_ret _ _ _ _ _ E1), (stm_bind_ret _ _ _ _ _ E2).
  rewrite (stm_bind_ret _ _ _ _ _ E3).
  replace (if size <? page then page else size) with (Z.max size page)
    by (destruct (Z.ltb_spec size page); lia).
  erewrite stm_bind_lift by (apply usize_sub_in; lia).
  rewrite Eadd, Eland. unfold checked_add.
  replace (round_up (Z.max size page) page - page + (page + extra protected)) with (total size protected)
    by (unfold total; lia).
  destruct (Z.ltb_spec (total size protected) (2 ^ 64)); [by destruct (_ <=? _)|].
  by rewrite (proj2 (Z.leb_gt _ limit)) by lia.
Qed.

(** What an allocation leaves.  The size in the error is computed without a check. *)
Definition allocated (s : proc) (size : Z) (protected : bool) (r : result SysStack StackError) (s' : proc)
    : Prop :=
  proc_ok s' ∧
  match r with
  | Ok st => total size protected ≤ limit ∧ size ≤ ss_top st - ss_bottom st
      ∧ fresh_stack size protected s st s'
  | Err (ExceedsMaximumSize n) => limit < total size protected
      ∧ n = uwrap 64 (limit - (page + extra protected)) ∧ same_mem s s'
  | Err (IoError e) => total size protected ≤ limit
      ∧ ((mmap (pr_maps s) (total size protected) = Err e ∧ same_mem s s')
         ∨ (protected = true ∧ ∃ a, let leaked := mkMapping a (total size protected) true :: pr_maps s in
              pr_maps s' = leaked ∧ mprotect leaked a page = Some e))
  end.

(** A debug build panics instead of reporting an error when the limit is below the pages
    that are added. *)
Definition limit_panic (protected : bool) (x : stop) : Prop :=
  x = SPanic POverflow ∧ limit < page + extra protected ∧ debug_assertions = true.

Lemma sys_allocate_ok s size protected :
  proc_ok s → 0 ≤ size < 2 ^ 64 →
  wps (sys_allocate size protected) s (limit_panic protected) (allocated s size protected).
Proof using Hlaws.
  intros Hok Hsize. destruct page_pos as [Hp _]. pose proof limit_range as Hlr.
  pose proof (extra_range protected) as He. destruct (total_bounds size protected) as (_ & Hr & Hrm); [lia|].
  destruct (sys_allocate_size s size protected) as (s3 & Hok3 & [Em Ew] & E); [done..|].
  unfold wps. rewrite E. clear E. destruct (Z.leb_spec (total size protected) limit).
  2: { unfold mbind, stm_bind, st_lift, usize_sub, sub_w, unsigned_op, limit_panic.
       destruct (Z.leb_spec 0 (limit - (page + extra protected))); simpl.
       - rewrite (proj2 (Z.ltb_lt _ _)) by lia. simpl. split; [done|]. unfold uwrap. by rewrite Z.mod_small by lia.
       - destruct (debug_assertions : bool) eqn:Ed; simpl; [split_and!; [done|lia|done]|by split]. }
  match goal with |- wp (?m s3) _ _ => change (wps m s3 (limit_panic protected) (allocated s size protected)) end.
  apply wps_bind. apply wps_no_stop.
  eapply wps_mono; [apply allocate_stack_ok; [exact Hok3|lia]|]. rewrite Em.
  intros [st|e] s4 [Hok4 Hr4]; [|by destruct Hr4 as (n & -> & Hnone & ->); apply wps_ret; split_and!; [|done|left]].
  destruct Hr4 as (Ht & Hb & Hbm & Htop & Hmaps & Hap). destruct protected; simpl in *.
  - apply wps_no_stop.
    eapply wps_mono; [eapply (protect_stack_ok s4 st (total size true)); try done; lia|].
    intros [st'|e] s5 [Hok5 Hr5]; (split; [done|]).
    + destruct Hr5 as [-> Hmaps5]. unfold fresh_stack, total in *. simpl in *.
      split_and!; try done; try lia; [by rewrite Z.add_mod, Hbm, Z.mod_same by lia|].
      eapply apart_sub; [| | |exact Hap]; lia.
    + destruct Hr5 as (n & -> & Hn & Hmaps5). split; [done|]. right. split; [done|].
      exists (ss_bottom st). by rewrite Hmaps5, <-Hmaps.
  - apply wps_ret. split; [done|]. unfold fresh_stack, total, stack_maps in *. simpl in *.
    split_and!; try done; try lia; [|eapply apart_sub; [| | |exact Hap]; lia].
    rewrite Hmaps. simpl. do 2 f_equal; lia.
Qed.

(** Sizes below a page are the size of a page, and the statics do not matter. *)
Lemma allocated_max s s0 size r s1 : same_mem s s0 →
  allocated s0 (Z.max size page) true r s1 → allocated s size true r s1.
Proof.
  intros [Em Ew] [Hok Hr]. split; [done|]. unfold fresh_stack, total, same_mem in *.
  rewrite Em, Ew, <-Z.max_assoc, Z.max_id in Hr. destruct r as [st|[n|e]]; [|done|done].
  destruct Hr as (? & ? & Hf). split; [done|]. split; [lia|done].
Qed.

(** ** Release *)

Lemma outside_within a n m : a ≤ mp_addr m → mp_addr m + mp_len m ≤ a + n → outside a n m = [].
Proof.
  intros. unfold outside. rewrite (proj2 (Z.ltb_ge _ _)) by lia.
  by rewrite (proj2 (Z.ltb_ge (a + n) _)) by lia.
Qed.

Lemma drop_stack_ok size s st s' :
  proc_ok s → fresh_stack size true s st s' → proc_ok s' →
  wps (drop_stack st) s' (λ _, False) (λ _ s'', pr_maps s'' = pr_maps s).
Proof using Hlaws.
  intros Hok (Hlen & Hb & Hb0 & Htop & Hmaps & Hap) Hok'. destruct page_pos as [Hp _]. simpl in *.
  destruct (round_up_bounds (Z.max size page) page) as [Hr _]; [lia|].
  unfold drop_stack, sys_len. apply wps_bind. eapply wps_lift; [apply usize_sub_in; lia|].
  rewrite (proj2 (Z.eqb_neq _ _)) by lia.
  destruct (page_size_ok s' Hok') as (s1 & E1 & Hok1 & [Em1 _]).
  apply wps_bind. eapply wps_val; [exact E1|].
  apply wps_bind. eapply wps_lift; [apply usize_sub_in; lia|].
  apply wps_bind. eapply wps_lift; [apply usize_sub_in; lia|].
  apply wps_bind. eapply wps_lift; [apply usize_add_in; lia|].
  unfold deallocate_stack, os_munmap, wps. simpl. rewrite Em1, Hmaps. simpl.
  rewrite !unmap_cons, !outside_within by (simpl; lia). simpl.
  apply unmap_apart; [lia|apply Hok|done].
Qed.

(** ** Filling and counting *)

Lemma covers_accessible maps m a n : m ∈ maps → covers a n m = true → accessible maps a n = true.
Proof. intros Hm Hc. apply existsb_exists. exists m. by rewrite <-list_elem_of_In. Qed.

Lemma fill_words_ok s p n m E :
  m ∈ pr_maps s → mp_access m = true → mp_addr m ≤ p → p + 8 * Z.of_nat n ≤ mp_addr m + mp_len m →
  p mod 8 = 0 →
  wps (fill_words p n) s E (λ _ s', pr_maps s' = pr_maps s ∧ pr_page s' = pr_page s ∧ pr_max s' = pr_max s).
Proof.
  revert s p. induction n as [|n IH]; intros s p Hm Ha Hlo Hhi Hal; [done|]. simpl fill_words.
  apply wps_bind. unfold write_word, wps at 1. unfold word_ok. rewrite Hal. simpl.
  rewrite (covers_accessible _ m) by (done || (unfold covers; rewrite Ha; simpl; apply andb_true_iff; split; apply Z.leb_le; lia)).
  simpl. eapply wps_mono; [apply IH; try done; simpl; try lia|done].
  rewrite Z.add_mod, Hal by lia. done.
Qed.

(** The words of a stack, bottom first. *)
Definition stack_words (s : proc) (p : Z) (n : nat) : list Z :=
  (λ i, word_at s (p + 8 * Z.of_nat i)) <$> seq 0 n.

Fixpoint leading (ws : list Z) : nat :=
  match ws with
  | [] => O
  | w :: ws => if w =? MAGIC then S (leading ws) else O
  end.

Lemma stack_words_cons s p n : stack_words s p (S n) = word_at s p :: stack_words s (p + 8) n.
Proof.
  unfold stack_words. simpl. f_equal; [f_equal; lia|]. rewrite <-seq_shift, <-list_fmap_compose.
  apply list_fmap_ext. intros i x _. simpl. f_equal. lia.
Qed.

Lemma leading_le ws : (leading ws ≤ length ws)%nat.
Proof. induction ws as [|w ws IH]; simpl; [lia|]. destruct (w =? MAGIC); lia. Qed.

Lemma count_magic_ok fuel s p n off m :
  m ∈ pr_maps s → mp_access m = true → mp_addr m ≤ p → p + 8 * Z.of_nat n ≤ mp_addr m + mp_len m →
  p mod 8 = 0 → 0 ≤ off → off + Z.of_nat n < 2 ^ 64 → (n ≤ fuel)%nat →
  let k := leading (stack_words s p n) in
  count_magic fuel p off s =
    if decide (k = n) then count_magic (fuel - n) (p + 8 * Z.of_nat n) (off + Z.of_nat n) s
    else Ret (off + Z.of_nat k, s).
Proof.
  intros Hm Ha. revert fuel p off. induction n as [|n IH]; intros fuel p off Hlo Hhi Hal Hoff Hsum Hfuel k.
  - unfold k. rewrite !Z.add_0_r, Nat.sub_0_r. by rewrite decide_True by done.
  - assert (read_word p s = Ret (word_at s p, s)) as Hread.
    { unfold read_word, word_ok. rewrite Hal. simpl.
      by rewrite (covers_accessible _ m) by (done || (unfold covers; rewrite Ha; simpl; apply andb_true_iff; split; apply Z.leb_le; lia)). }
    unfold k. rewrite stack_words_cons. destruct fuel as [|fuel]; [lia|]. simpl.
    unfold mbind, stm_bind. rewrite Hread. simpl. destruct (Z.eqb_spec (word_at s p) MAGIC) as [E|E].
    + unfold st_lift. rewrite usize_add_in by lia. simpl. rewrite IH; try lia.
      2: { rewrite Z.add_mod, Hal by lia. done. }
      replace (p + 8 + 8 * Z.of_nat n) with (p + 8 * Z.of_nat (S n)) by lia.
      replace (off + 1 + Z.of_nat n) with (off + Z.of_nat (S n)) by lia.
      destruct (decide (leading _ = n)), (decide (S (leading _) = S n)); try lia; [done|].
      do 2 f_equal. lia.
    + rewrite decide_False by lia. by rewrite Z.add_0_r.
Qed.

(** [get_used_size] is the number of words from the first one that is not the
    magic up to the top, and reads past the top when every word is the magic. *)
Theorem get_used_size_spec fuel s st m :
  m ∈ pr_maps s → mp_access m = true → mp_addr m ≤ ss_bottom st → ss_top st ≤ mp_addr m + mp_len m →
  0 ≤ ss_bottom st ≤ ss_top st → ss_bottom st mod 8 = 0 → ss_top st mod 8 = 0 → ss_top st < 2 ^ 64 →
  let n := (ss_top st - ss_bottom st) / 8 in
  let k := Z.of_nat (leading (stack_words s (ss_bottom st) (Z.to_nat n))) in
  n ≤ Z.of_nat fuel →
  (k < n → get_used_size fuel st s = Ret (n - k, s))
  ∧ (k = n → word_ok s (ss_top st) = false → get_used_size fuel st s = Stop SUndef).
Proof using Type.
  intros Hm Ha Hlo Hhi Hb Hbm Htm Htop n k Hfuel.
  assert (ss_bottom st + 8 * n = ss_top st ∧ 0 ≤ n < 2 ^ 61) as [Hn Hn0] by (unfold n; dlia).
  pose proof (count_magic_ok fuel s (ss_bottom st) (Z.to_nat n) 0 m Hm Ha) as Hc.
  specialize (Hc ltac:(lia) ltac:(lia) Hbm ltac:(lia) ltac:(lia) ltac:(lia)). simpl in Hc.
  assert (st_size st = Ret n) as Hsz
    by (unfold st_size, sys_len; rewrite usize_sub_in by lia; done).
  split; intros Hk; [|intros Hno]; unfold get_used_size, mbind, stm_bind; rewrite Hc.
  - rewrite decide_False by (unfold k in Hk; lia). simpl. unfold st_lift. rewrite Hsz. simpl.
    fold k. by rewrite usize_sub_in by lia.
  - rewrite decide_True by (unfold k in Hk; lia).
    replace (ss_bottom st + 8 * Z.of_nat (Z.to_nat n)) with (ss_top st) by lia.
    destruct (fuel - Z.to_nat n)%nat; simpl; unfold mbind, stm_bind, read_word; by rewrite Hno.
Qed.

(** C9: an allocation of a protected stack panics only in a debug build, when the limit is
    below two pages.  A stack it returns is a fresh range of whole pages, at least as large
    as asked for, with a guard page below it, and dropping it gives back exactly what was
    mapped; a size that exceeds the limit with the guard page is refused, with the limit
    less two pages as the maximum; only a failing [mprotect] leaves memory behind. *)
Theorem stack_allocate_drop s size :
  proc_ok s → 0 ≤ size < 2 ^ 64 →
  wps (sys_allocate size true) s (limit_panic true) (λ r s1, allocated s size true r s1 ∧
    ∀ st, r = Ok st → wps (drop_stack st) s1 (λ _, False) (λ _ s2, pr_maps s2 = pr_maps s)).
Proof using Hlaws.
  intros Hok Hsize. eapply wps_mono; [by apply sys_allocate_ok|]. intros r s1 Ha. split; [done|].
  intros st ->. destruct Ha as (Hok1 & _ & _ & Hf). by eapply drop_stack_ok.
Qed.

(** The maximum in the error is a page below the largest size that is accepted, for a limit
    of whole pages. *)
Lemma reported_maximum_low s size n s1 :
  allocated s size true (Err (ExceedsMaximumSize n)) s1 → page + page ≤ limit → limit mod page = 0 →
  n = limit - 2 * page ∧ total (n + page) true = limit.
Proof using Hlaws.
  intros (_ & _ & -> & _) Hlim Hmod. destruct page_pos as [Hp _]. pose proof limit_range. simpl.
  unfold uwrap. rewrite Z.mod_small by lia. split; [lia|]. unfold total, round_up. simpl.
  replace (Z.max _ page + page - 1) with (limit - 1) by lia.
  assert ((limit - 1) / page = limit / page - 1) as ->.
  { symmetry. apply (Z.div_unique _ _ _ (page - 1)); [lia|]. pose proof (Z.div_mod limit page). lia. }
  pose proof (Z.div_mod limit page). lia.
Qed.

(** ** The box usage word *)

Lemma fresh_word_above size s st s' : fresh_stack size true s st s' →
  accessible (pr_maps s') (ss_top st + 8) 8 = accessible (pr_maps s) (ss_top st + 8) 8.
Proof.
  intros (Hlen & _ & _ & _ & -> & _). unfold accessible, stack_maps. simpl.
  unfold covers at 1. simpl.
  rewrite (proj2 (Z.leb_gt (ss_top st + 8 + 8) _)) by lia. by rewrite andb_false_r.
Qed.

Lemma fresh_aligned size s st s' : fresh_stack size true s st s' →
  ss_bottom st mod 8 = 0 ∧ ss_top st mod page = 0 ∧ 0 < ss_bottom st
  ∧ ss_bottom st + 64 ≤ ss_top st < 2 ^ 64.
Proof using Hlaws.
  intros (Hlen & Hb & Hb0 & Htop & _ & _). simpl in *. destruct page_pos as [Hp Hp8].
  destruct (round_up_bounds (Z.max size page) page) as [Hr Hm]; [lia|].
  split_and!; try lia.
  - apply Z.mod_divide; [lia|]. apply Z.mod_divide in Hp8; [|lia]. apply Z.mod_divide in Hb; [|lia].
    by etrans.
  - replace (ss_top st) with (ss_bottom st + round_up (Z.max size page) page) by lia.
    rewrite Z.add_mod, Hb, Hm by lia. done.
Qed.

Lemma stack_top_word t : t mod page = 0 → ((t + 8) mod 8 =? 0) = true.
Proof using Hlaws.
  intros Ht. destruct page_pos as [Hp Hp8]. apply Z.eqb_eq, Z.mod_divide; [lia|].
  apply Z.mod_divide in Hp8, Ht; [|lia..]. apply Z.divide_add_r; [by etrans|by exists 1].
Qed.

(** C24: [Stack::new], of any size from 0 on whose bytes fit a word and with a limit of at
    least two pages, panics when the allocation fails, and only then.  Otherwise it has
    mapped a fresh stack and writes 1 to the word one past the top: outside of what it
    mapped, so the write is invalid unless some other mapping of the process covers the
    word, and then it overwrites that one. *)
Theorem st_new_writes_above s size :
  proc_ok s → 0 ≤ size → size * 8 < 2 ^ 64 → page + page ≤ limit →
  ∃ r s1, allocated s (size * 8) true r s1 ∧
    match r with
    | Err e => st_new size s = Stop (SPanic PExpect)
    | Ok st =>
        if accessible (pr_maps s) (ss_top st + 8) 8
        then ∃ s2, st_new size s = Ret (st, s2) ∧ pr_maps s2 = pr_maps s1 ∧ word_at s2 (ss_top st + 8) = 1
        else st_new size s = Stop SUndef
    end.
Proof using Hlaws.
  intros Hok Hs Hsize Hlim. destruct page_pos as [Hp Hp8]. unfold st_new.
  erewrite stm_bind_lift by (apply unsigned_op_in; lia).
  destruct (page_size_ok s Hok) as (s0 & E0 & Hok0 & Hm0). unfold min_stack_size.
  rewrite (stm_bind_ret _ _ _ _ _ E0).
  assert (0 ≤ Z.max (size * 8) page < 2 ^ 64) as Hrange by lia.
  pose proof (sys_allocate_ok s0 _ true Hok0 Hrange) as Ha. unfold wps in Ha.
  destruct (sys_allocate _ true s0) as [[r s1]|x] eqn:Ea; [|destruct Ha as (_ & Hl & _); simpl in Hl; lia].
  simpl in Ha. exists r, s1. assert (allocated s (size * 8) true r s1) as Ha' by by apply (allocated_max s s0).
  split; [done|]. rewrite (stm_bind_ret _ _ _ _ _ Ea). destruct r as [st|e]; [|done].
  destruct Ha' as (Hok1 & _ & _ & Hf').
  destruct (fresh_aligned _ _ _ _ Hf') as (Hb8 & Htp & Hb0 & Hbt).
  pose proof Hf' as (_ & _ & _ & _ & Hmaps & _).
  erewrite stm_bind_lift by (unfold st_size, sys_len; rewrite usize_sub_in by lia; reflexivity).
  pose proof (fill_words_ok s1 (ss_bottom st)
    (Z.to_nat (if negb (Z.land size 1 =? 0) then (ss_top st - ss_bottom st) / 8 else 8))
    (mkMapping (ss_bottom st) (ss_top st - ss_bottom st) true) (λ _, False)) as Hfill.
  simpl in Hfill. specialize (Hfill ltac:(rewrite Hmaps; by left) eq_refl ltac:(lia)
    ltac:(destruct (negb _); dlia) Hb8).
  unfold wps in Hfill.
  destruct (fill_words _ _ s1) as [[[] s2]|] eqn:Ef; [|done]. simpl in Hfill. destruct Hfill as [Em2 _].
  rewrite (stm_bind_ret _ _ _ _ _ Ef). unfold mbind, stm_bind, write_word, word_ok, get_offset. rewrite Em2, (fresh_word_above _ _ _ _ Hf').
  rewrite (stack_top_word _ Htp). destruct (accessible _ _ _); simpl; [|done].
  eexists. split; [done|]. split; [done|]. unfold word_at. simpl. by rewrite lookup_insert_eq.
Qed.

(** [initialize_call_frame] leaves the pointer of the stack on a multiple of 16
    inside of the stack, the address of [bootstrap_green_task] on top of a null word
    there, and the function with its arguments in R14, R12 and R13. *)
Theorem initialize_call_frame_spec s st m bootstrap fptr arg arg2 :
  m ∈ pr_maps s → mp_access m = true → mp_addr m ≤ ss_bottom st → ss_top st ≤ mp_addr m + mp_len m →
  0 ≤ ss_bottom st → ss_bottom st + 64 ≤ ss_top st → ss_top st < 2 ^ 64 → ss_top st mod 16 = 0 →
  word_ok s (ss_top st + 8) = true → word_at s (ss_top st + 8) = 1 →
  ∃ regs s', initialize_call_frame bootstrap reg_new fptr arg arg2 st s = Ret (regs, s')
    ∧ gpr regs = [0; ss_top st - 32; 0; 0; arg; arg2; fptr; 0]
    ∧ pr_maps s' = pr_maps s
    ∧ word_at s' (ss_top st - 32) = bootstrap ∧ word_at s' (ss_top st - 24) = 0.
Proof.
  intros Hm Ha Hlo Hhi Hb Hbt Ht Hal Hok Hw. unfold initialize_call_frame, st_end, get_offset.
  unfold mbind, stm_bind, read_word. rewrite Hok. simpl. rewrite Hw.
  replace (align_down (ss_top st - 8 * swrap 64 1)) with (ss_top st - 16).
  2: { change (swrap 64 1) with 1. unfold align_down. change 15 with (2 ^ 4 - 1).
       rewrite land_high by lia. change (2 ^ 4) with 16. dlia. }
  assert (∀ k, 0 < k ≤ 8 → ∀ w, word_ok (mkProc (pr_page s) (pr_max s) (pr_maps s) w) (ss_top st - 8 * k) = true) as Hk.
  { intros k Hk w. unfold word_ok. simpl. rewrite (covers_accessible _ m); [|done|].
    - rewrite andb_true_r. apply Z.eqb_eq. dlia.
    - unfold covers. rewrite Ha. simpl. apply andb_true_iff. split; apply Z.leb_le; lia. }
  unfold mut_offset, write_word.
  replace (ss_top st - 16 + 8 * -2) with (ss_top st - 32) by lia.
  replace (ss_top st - 16 + 8 * -1) with (ss_top st - 24) by lia.
  pose proof (Hk 4 ltac:(lia) (pr_words s)) as H4. pose proof (Hk 3 ltac:(lia) (<[ss_top st - 32 := bootstrap]> (pr_words s))) as H3.
  change (8 * 4) with 32 in H4. change (8 * 3) with 24 in H3. destruct s as [pp pm maps words]. simpl in *. rewrite H4. simpl. rewrite H3.
  eexists _, _. split; [done|]. unfold word_at. simpl. split; [done|]. split; [done|].
  split; [by rewrite lookup_insert_ne, lookup_insert_eq by lia|by rewrite lookup_insert_eq].
Qed.
End laws.

(** ** A system *)

Module Linux.

(** Pages of 4096 bytes, 8 MiB of stack, and room above every mapping. *)
Definition top_of (maps : list mapping) : Z := foldr (λ m acc, Z.max (mp_addr m + mp_len m) acc) 0 maps.

Definition Linux_mmap (maps : list mapping) (n : Z) : result Z Z :=
  let a := round_up (top_of maps + 1) 4096 in
  if a + n <? 2 ^ 47 then Ok a else Err 12.

#[export] Instance linux : System := {|
  sysconf_pagesize := 4096; getrlimit_stack := Some 8388608;
  mmap := Linux_mmap; mprotect _ _ _ := None;
  strerror e := if e =? 12 then "Cannot allocate memory" else "";
|}.

Lemma top_of_max maps : Forall (λ m, mp_addr m + mp_len m ≤ top_of maps) maps ∧ 0 ≤ top_of maps.
Proof.
  induction maps as [|m maps [IH H0]]; simpl; [done|]. split; [|lia]. constructor; [lia|].
  revert IH. apply Forall_impl. intros x Hx. simpl in *. lia.
Qed.

#[export] Instance linux_laws : SystemLaws.
Proof.
  split.
  - by exists 12.
  - intros m [= <-]. lia.
  - intros maps n a. simpl. unfold Linux_mmap. destruct (top_of_max maps) as [Hm H0].
    destruct (round_up_bounds (top_of maps + 1) 4096 eq_refl) as [Hr Hrm].
    destruct (Z.ltb_spec (round_up (top_of maps + 1) 4096 + n) (2 ^ 47)); [|done].
    intros [= <-] Hn. split_and!; try lia. revert Hm. apply Forall_impl.
    intros m Hx. right. simpl in *. lia.
Defined.

Definition boot : proc := mkProc 0 0 [] ∅.

Lemma boot_ok : proc_ok boot.
Proof. split; simpl; auto. Qed.
End Linux.

Import Linux.

#[local] Existing Instance debug_build.

Lemma stack_allocate_drop_witness :
  ∃ st s1, sys_allocate 10000 true boot = Ret (Ok st, s1) ∧ allocated boot 10000 true (Ok st) s1
    ∧ wps (drop_stack st) s1 (λ _, False) (λ _ s2, pr_maps s2 = pr_maps boot).
Proof.
  pose proof (stack_allocate_drop boot 10000 boot_ok ltac:(lia)) as H. unfold wps in H.
  destruct (sys_allocate 10000 true boot) as [[[st|e] s1]|x] eqn:E; try (vm_compute in E; discriminate E).
  destruct H as [Ha Hd]. exists st, s1. split; [reflexivity|]. split; [exact Ha|exact (Hd st eq_refl)].
Defined.

(** Nothing lies above the first stack: its creation is undefined. *)
Lemma st_new_writes_above_witness :
  (∃ st s1, allocated boot (4096 * 8) true (Ok st) s1) ∧ st_new 4096 boot = Stop SUndef.
Proof.
  destruct (st_new_writes_above boot 4096) as (r & s1 & Ha & Hr); [apply boot_ok|lia|lia|by vm_compute|].
  destruct r as [st|[n|e]].
  - split; [by exists st, s1|exact Hr].
  - destruct Ha as (_ & Hn & _). vm_compute in Hn. discriminate Hn.
  - destruct Ha as (_ & _ & [[Hm _]|(_ & a & _ & Hm)]); vm_compute in Hm; discriminate Hm.
Defined.

Definition two_stacks : proc :=
  mkProc 4096 0 [mkMapping 4096 4096 true]
    (list_to_map ((λ i, (4096 + 8 * Z.of_nat i, MAGIC)) <$> seq 0 500)).

Lemma get_used_size_spec_witness :
  let st := mkSysStack 8192 4096 in
  (500 < 512 → get_used_size 512 st two_stacks = Ret (512 - 500, two_stacks))
  ∧ (500 = 512 → word_ok two_stacks 8192 = false → get_used_size 512 st two_stacks = Stop SUndef).
Proof.
  apply (get_used_size_spec 512 two_stacks (mkSysStack 8192 4096) (mkMapping 4096 4096 true));
    try done; try by left. 
Defined.

Definition framed : proc := mkProc 4096 0 [mkMapping 4096 8192 true] {[ 8200 := 1 ]}.

Lemma initialize_call_frame_spec_witness :
  ∃ regs s', initialize_call_frame 77 reg_new 1 2 3 (mkSysStack 8192 4096) framed = Ret (regs, s')
    ∧ gpr regs = [0; 8192 - 32; 0; 0; 2; 3; 1; 0]
    ∧ pr_maps s' = pr_maps framed
    ∧ word_at s' (8192 - 32) = 77 ∧ word_at s' (8192 - 24) = 0.
Proof.
  apply (initialize_call_frame_spec framed (mkSysStack 8192 4096) (mkMapping 4096 8192 true));
    try done; try by left.
Defined.
