(* ===== verification/Accessors.v ===== *)
(** * Constructors and accessors of the adapters, and small helpers of the crates

    [get_ref], [get_mut] and [into_inner] of [Take], [Limit], [Reader], [Writer],
    [IntoIter] and [Chain]; the methods of [Buf] and [BufMut] that make an adapter; the
    rest of [uninit_slice.rs]; the helpers of [bytes/src/lib.rs], [quick.rs],
    [atomic_unit.rs]; and [Register::prefetch]. *)

From S2P Require Import Prelude Buf BufAdapters RustVec BufMut Mem Stack.

(** ** Adapters that hold one buffer *)

(** [get_ref] and [get_mut]: a use of the reference that [get_mut] returns replaces the
    inner buffer. *)
Class Adapter (A T : Type) := {
  ad_get_ref : A → T;
  ad_get_mut : A → (T → T) → A;
}.

Class AdapterLaws (A T : Type) `{Adapter A T} := {
  get_ref_mut a f : ad_get_ref (ad_get_mut a f) = f (ad_get_ref a);
  get_mut_id a : ad_get_mut a id = a;
  get_mut_comp a f g : ad_get_mut (ad_get_mut a f) g = ad_get_mut a (g ∘ f);
}.

Section accessors.
Context {T U : Type}.

Definition take_get_ref (t : Take T) : T := tk_inner t.
Definition take_get_mut (t : Take T) (f : T → T) : Take T := mkTake (f (tk_inner t)) (tk_limit t).
Definition take_limit (t : Take T) : Z := tk_limit t.
Definition limit_get_ref (t : Limit T) : T := lm_inner t.
Definition limit_get_mut (t : Limit T) (f : T → T) : Limit T := mkLimit (f (lm_inner t)) (lm_limit t).
Definition limit_limit (t : Limit T) : Z := lm_limit t.
Definition reader_get_ref (r : Reader T) : T := rd_buf r.
Definition reader_get_mut (r : Reader T) (f : T → T) : Reader T := mkReader (f (rd_buf r)).
Definition reader_into_inner (r : Reader T) : T := rd_buf r.
Definition writer_get_ref (w : Writer T) : T := wr_buf w.
Definition writer_get_mut (w : Writer T) (f : T → T) : Writer T := mkWriter (f (wr_buf w)).
Definition iter_get_ref (it : IntoIter T) : T := it_inner it.
Definition iter_get_mut (it : IntoIter T) (f : T → T) : IntoIter T := mkIntoIter (f (it_inner it)).
Definition iter_into_inner (it : IntoIter T) : T := it_inner it.
Definition chain_first_ref (c : Chain T U) : T := ch_a c.
Definition chain_first_mut (c : Chain T U) (f : T → T) : Chain T U := mkChain (f (ch_a c)) (ch_b c).
Definition chain_last_ref (c : Chain T U) : U := ch_b c.
Definition chain_last_mut (c : Chain T U) (f : U → U) : Chain T U := mkChain (ch_a c) (f (ch_b c)).
Definition chain_into_iter (c : Chain T U) : IntoIter (Chain T U) := iter_new c.

(** [Buf::take], [chain], [reader]; [BufMut::limit], [writer], [chain_mut] *)
Definition buf_take (t : T) (limit : Z) : Take T := take_new t limit.
Definition buf_chain (t : T) (next : U) : Chain T U := chain_new t next.
Definition buf_reader (t : T) : Reader T := reader_new t.
Definition buf_limit (t : T) (limit : Z) : Limit T := limit_new t limit.
Definition buf_writer (t : T) : Writer T := writer_new t.
Definition buf_chain_mut (t : T) (next : U) : Chain T U := chain_new t next.
End accessors.

#[global] Instance take_adapter {T} : Adapter (Take T) T := {| ad_get_ref := take_get_ref; ad_get_mut := take_get_mut |}.
#[global] Instance limit_adapter {T} : Adapter (Limit T) T := {| ad_get_ref := limit_get_ref; ad_get_mut := limit_get_mut |}.
#[global] Instance reader_adapter {T} : Adapter (Reader T) T := {| ad_get_ref := reader_get_ref; ad_get_mut := reader_get_mut |}.
#[global] Instance writer_adapter {T} : Adapter (Writer T) T := {| ad_get_ref := writer_get_ref; ad_get_mut := writer_get_mut |}.
#[global] Instance iter_adapter {T} : Adapter (IntoIter T) T := {| ad_get_ref := iter_get_ref; ad_get_mut := iter_get_mut |}.
Definition first_adapter {T U} : Adapter (Chain T U) T := {| ad_get_ref := chain_first_ref; ad_get_mut := chain_first_mut |}.
Definition last_adapter {T U} : Adapter (Chain T U) U := {| ad_get_ref := chain_last_ref; ad_get_mut := chain_last_mut |}.

#[global] Instance take_adapter_laws {T} : AdapterLaws (Take T) T.
Proof. split; by intros []. Qed.
#[global] Instance limit_adapter_laws {T} : AdapterLaws (Limit T) T.
Proof. split; by intros []. Qed.
#[global] Instance reader_adapter_laws {T} : AdapterLaws (Reader T) T.
Proof. split; by intros []. Qed.
#[global] Instance writer_adapter_laws {T} : AdapterLaws (Writer T) T.
Proof. split; by intros []. Qed.
#[global] Instance iter_adapter_laws {T} : AdapterLaws (IntoIter T) T.
Proof. split; by intros []. Qed.
Lemma first_adapter_laws {T U} : @AdapterLaws (Chain T U) T first_adapter.
Proof. split; by intros []. Qed.
Lemma last_adapter_laws {T U} : @AdapterLaws (Chain T U) U last_adapter.
Proof. split; by intros []. Qed.

(** What an adapter has not read is still in the buffer it gives back. *)
Theorem into_inner_rest {B} `{BufLaws B} (b : B) dst :
  buf_wf b → let n := Z.min (zlen (content b)) (zlen dst) in
  (∃ r, reader_read (buf_reader b) dst = Ret (r, ztake n (content b) ++ zdrop n dst, n)
    ∧ buf_wf (reader_into_inner r) ∧ content (reader_into_inner r) = zdrop n (content b))
  ∧ (∀ x rest, content b = x :: rest →
      ∃ it, iter_next (iter_new b) = Ret (it, Some x) ∧ buf_wf (iter_into_inner it) ∧ content (iter_into_inner it) = rest)
  ∧ (content b = [] → iter_next (iter_new b) = Ret (iter_new b, None)).
Proof.
  intros Hwf n. pose proof (zlen_nonneg (content b)). pose proof (zlen_nonneg dst). split_and!.
  - unfold reader_read. simpl. rewrite remaining_content by done. fold n.
    destruct (copy_to_slice_ok b n Hwf) as (b' & -> & ? & ?); [lia|]. by exists (mkReader b').
  - intros x rest Hc. unfold iter_next. simpl. assert (Hne : content b ≠ []) by (by rewrite Hc).
    rewrite has_remaining_spec by done. rewrite bool_decide_true by done.
    simpl. destruct (chunk_prefix b Hwf) as [k Hk]. pose proof (chunk_nonempty b Hwf) as Hn.
    destruct (chunk b) as [|y l]; [exfalso; apply Hn; [by rewrite Hc|done]|].
    rewrite Hc in Hk. injection Hk as <- Hk. simpl.
    destruct (advance_ok b 1 Hwf) as (b' & -> & ? & Hb'); [rewrite Hc; unfold zlen; simpl; lia|].
    exists (mkIntoIter b'). split; [done|]. split; [done|]. simpl. by rewrite Hb', Hc.
  - intros Hc. unfold iter_next. simpl. rewrite has_remaining_spec by done.
    by rewrite bool_decide_false by (rewrite Hc; naive_solver).
Qed.

(** ** [uninit_slice.rs] *)

Definition us_uninit_ref (s : list cell) : UninitSlice := us_uninit s.
(** The slice behind a pointer and a length, from the memory. *)
Definition us_from_raw_parts_mut (p : Ptr) (len : Z) : M UninitSlice := s ← load p len; mret (us_uninit s).
Definition us_as_uninit_slice_mut (s : UninitSlice) : list cell := s.
Definition us_from_slice (s : list byte) : UninitSlice := us_new s.
Definition us_from_uninit (s : list cell) : UninitSlice := us_uninit s.

(** ** [bytes/src/lib.rs] and [quick.rs] *)

Definition panic_advance {A} (idx len : Z) : comp A := Panic (PAdvance idx len).
Definition panic_does_not_fit {A} (size nbytes : Z) : comp A := Panic (PDoesNotFit size nbytes).

(** The unwinding of the panic [p] through a scope with a value whose [drop] is [d]; a
    panic of [d] is a panic while panicking. *)
Definition unwind_through {A} (d : comp ()) (p : panic) : comp A :=
  match d with
  | Ret _ => Panic p
  | Stop (SPanic _) => Stop SAbort
  | Stop s => Stop s
  end.

(** [abort] with and without the feature [std]. *)
Definition abort {A} (std : bool) : comp A :=
  if std then Stop SAbort else unwind_through (Panic PExplicit) PExplicit.

Lemma abort_aborts {A} std : @abort A std = Stop SAbort.
Proof. by destruct std. Qed.

(** [AtomicMut::with_mut] *)
Definition with_mut {T R} (data : T) (f : T → M (T * R)) : M (T * R) := f data.

(** ** [sync/atomic_unit.rs] *)

Definition unit_load (u : ()) : () := u.
Definition unit_store (u : ()) (_ : ()) : () := u.
Definition unit_swap (u : ()) (_ : ()) : () * () := (u, u).
Definition unit_compare_exchange_weak (u : ()) (_ _ : ()) : result () () * () := (Ok (), u).

(** ** [Register::prefetch] *)

(** The addresses of the two prefetches; [add(8)] moves a pointer to words by 64 bytes. *)
Definition reg_prefetch (r : Register) : comp (list Z) :=
  p ← index (gpr r) 1;
  Ret [p; p + 8 * 8].

Lemma reg_prefetch_spec r : length (gpr r) = 8%nat → ∃ rsp, gpr r !! 1%nat = Some rsp ∧ reg_prefetch r = Ret [rsp; rsp + 64].
Proof. intros Hr. destruct r as [[|a [|rsp l]]]; [done..|]. by exists rsp. Qed.
