(* ===== verification/Runtime.v ===== *)
(** * [coroutine/src/runtime.rs]: the contexts of a thread

    The contexts form a list from the top to the root, linked by [parent]; the root
    is created on first use.  [guard.rs], [coroutine_local.rs], [done] and
    [get_coroutine_para] of [yield_now.rs], [register_context.rs] and the signal
    handler of [stack/unix/overflow.rs] are built on it.  Pushing and popping a
    context is not part of the sources, so a thread with running generators is any
    state whose list is well formed. *)

From S2P Require Import Prelude Stack.

(** ** State *)

(** [register_context.rs] *)
Record RegisterContext := mkRegisterContext { rc_regs : Register }.
Definition empty : RegisterContext := mkRegisterContext reg_new.

(** Pointers are addresses, 0 the null pointer.  A [dyn Any] is an [Option<T>] with
    the identifier of [T], or a value of some other type. *)
Inductive cell := COption (t : Z) (v : option Z) | COther (t : Z).

Record Context := mkContext {
  regs : RegisterContext;
  child : Z;
  parent : Z;
  para : Z;
  ret : Z;
  _ref : Z;
  local_data : Z;
  err : option Error;
  stack_guard : Z * Z;
}.

Definition ctx_new : Context := mkContext empty 0 0 0 0 1 0 None (0, 0).

Definition set_parent (p : Z) (c : Context) : Context :=
  mkContext (regs c) (child c) p (para c) (ret c) (_ref c) (local_data c) (err c) (stack_guard c).
Definition set_err (e : option Error) (c : Context) : Context :=
  mkContext (regs c) (child c) (parent c) (para c) (ret c) (_ref c) (local_data c) e (stack_guard c).

(** The map of [coroutine_local.rs], by the identifier of the type. *)
Abbreviation LocalMap := (gmap Z Z).

(** The handle and the join resource are [Arc]s. *)
Record CoroutineLocal := mkCoroutineLocal { cl_coroutine : Z; cl_join : Z; cl_local_data : LocalMap }.

Definition local_new (coroutine join : Z) : CoroutineLocal := mkCoroutineLocal coroutine join ∅.
Definition get_coroutine (l : CoroutineLocal) : Z := cl_coroutine l.
Definition get_join (l : CoroutineLocal) : Z := cl_join l.

Record thread := mkThread {
  th_root : Z;                        (** [ROOT_CONTEXT_P] *)
  th_ctxs : gmap Z Context;
  th_cells : gmap Z cell;
  th_locals : gmap Z CoroutineLocal;
  th_localmap : LocalMap;             (** [LOCALMAP] *)
  th_actions : gmap Z Z;              (** the installed signal actions, default 0 *)
  th_saved : Z;                       (** [SIG_ACTION] *)
  th_init : bool;                     (** [INIT_ONCE] *)
  th_proc : proc;
}.

Abbreviation rt := (stm thread).

Definition set_ctxs (m : gmap Z Context) (s : thread) : thread :=
  mkThread (th_root s) m (th_cells s) (th_locals s) (th_localmap s) (th_actions s) (th_saved s) (th_init s) (th_proc s).
Definition set_root (r : Z) (s : thread) : thread :=
  mkThread r (th_ctxs s) (th_cells s) (th_locals s) (th_localmap s) (th_actions s) (th_saved s) (th_init s) (th_proc s).
Definition set_cells (m : gmap Z cell) (s : thread) : thread :=
  mkThread (th_root s) (th_ctxs s) m (th_locals s) (th_localmap s) (th_actions s) (th_saved s) (th_init s) (th_proc s).
Definition set_locals (m : gmap Z CoroutineLocal) (l : LocalMap) (s : thread) : thread :=
  mkThread (th_root s) (th_ctxs s) (th_cells s) m l (th_actions s) (th_saved s) (th_init s) (th_proc s).
Definition set_signals (m : gmap Z Z) (old : Z) (once : bool) (s : thread) : thread :=
  mkThread (th_root s) (th_ctxs s) (th_cells s) (th_locals s) (th_localmap s) m old once (th_proc s).
Definition set_proc (p : proc) (s : thread) : thread :=
  mkThread (th_root s) (th_ctxs s) (th_cells s) (th_locals s) (th_localmap s) (th_actions s) (th_saved s) (th_init s) p.

Definition on_proc {A} (m : os A) : rt A := λ s, '(a, p) ← m (th_proc s); Ret (a, set_proc p s).

(** Where [Box::new] puts a context. *)
Class BoxAlloc := box_addr : gmap Z Context → Z.
Class BoxLaws `{BoxAlloc} := box_fresh m : box_addr m ≠ 0 ∧ m !! box_addr m = None.

(** A reference made of a pointer. *)
Definition deref (p : Z) : rt Context := λ s,
  match th_ctxs s !! p with Some c => Ret (c, s) | None => Stop SUndef end.
Definition deref_cell (p : Z) : rt cell := λ s,
  match th_cells s !! p with Some c => Ret (c, s) | None => Stop SUndef end.
Definition write_cell (p : Z) (c : cell) : rt () := modify (λ s, set_cells (<[p := c]> (th_cells s)) s).

Section runtime.
Context `{Build} `{System} `{BoxAlloc}.

(** ** [Context] *)

(** [Context::is_generator] for the context at address [self] *)
Definition ctx_is_generator (self : Z) (c : Context) : bool := negb (parent c =? self).

Definition type_error {A} : rt A := stop_st (SPanic (PAny TypeErr)).

Definition get_para (t : Z) (c : Context) : rt (option Z) :=
  st_lift (rust_assert (negb (para c =? 0)));;
  d ← deref_cell (para c);
  match d with
  | COption t' v =>
      if t' =? t then write_cell (para c) (COption t' None);; mret v else type_error
  | COther _ => type_error
  end.

(** The unchecked access: another type is undefined behaviour. *)
Definition unchecked (t p : Z) : rt (option Z) :=
  st_lift (debug_assert (negb (p =? 0)));;
  d ← deref_cell p;
  match d with
  | COption t' v => if t' =? t then mret v else stop_st SUndef
  | COther _ => stop_st SUndef
  end.

Definition coroutine_get_para (t : Z) (c : Context) : rt (option Z) :=
  v ← unchecked t (para c); write_cell (para c) (COption t None);; mret v.

Definition coroutine_set_para (t data : Z) (c : Context) : rt () :=
  unchecked t (para c);; write_cell (para c) (COption t (Some data)).

Definition set_ret (t v : Z) (c : Context) : rt () :=
  st_lift (debug_assert (negb (ret c =? 0)));;
  d ← deref_cell (ret c);
  match d with
  | COption t' _ => if t' =? t then write_cell (ret c) (COption t' (Some v)) else type_error
  | COther _ => type_error
  end.

Definition coroutine_set_ret (t v : Z) (c : Context) : rt () :=
  unchecked t (ret c);; write_cell (ret c) (COption t (Some v)).

(** ** [ContextStack] *)

Definition init_root : rt Z := λ s,
  let p := box_addr (th_ctxs s) in
  let root := set_parent p ctx_new in
  Ret (p, set_root p (set_ctxs (<[p := root]> (th_ctxs s)) s)).

(** [ContextStack::current]; the stack is its root. *)
Definition current : rt Z :=
  root ← gets th_root;
  if root =? 0 then init_root else mret root.

(** [ContextStack::top], as an address. *)
Definition top (env : Z) : rt Z :=
  root ← deref env; deref (parent root);; mret (parent root).

(** The loops of [coroutine_ctx] and of [get_local_data]. *)
Fixpoint search_ctx (fuel : nat) (root ctx : Z) : rt (option Z) :=
  c ← deref ctx;
  if ctx =? root then mret None
  else if negb (local_data c =? 0) then mret (Some ctx)
  else match fuel with
       | O => stop_st SFuel
       | S fuel => search_ctx fuel root (parent c)
       end.

Definition coroutine_ctx (fuel : nat) (env : Z) : rt (option Z) :=
  root ← deref env; search_ctx fuel env (parent root).

Fixpoint search_local (fuel : nat) (root ctx : Z) : rt Z :=
  c ← deref ctx;
  if ctx =? root then mret 0
  else if negb (local_data c =? 0) then mret (local_data c)
  else match fuel with
       | O => stop_st SFuel
       | S fuel => search_local fuel root (parent c)
       end.

Definition get_local_data (fuel : nat) : rt Z :=
  env ← current; root ← deref env; search_local fuel env (parent root).

Definition is_generator : rt bool :=
  env ← current; root ← deref env; mret (negb (child root =? 0)).

(** ** [yield_now.rs] *)

Definition done_ {A} : rt A :=
  g ← is_generator;
  st_lift (rust_assert g);;
  stop_st (SPanic (PAny Done)).

(** The identifier of [EventResult], [io::Error]. *)
Definition EventResult : Z := 1.

Definition coroutine_get_yield (fuel : nat) (t : Z) : rt (option Z) :=
  env ← current;
  ctx ← coroutine_ctx fuel env;
  match ctx with
  | None => mret None
  | Some p => c ← deref p; coroutine_get_para t c
  end.

Definition get_coroutine_para (fuel : nat) : rt (option Z) := coroutine_get_yield fuel EventResult.

(** ** [coroutine_local.rs] and [is_coroutine] of [lib.rs] *)

Definition get_coroutine_local_data (fuel : nat) : rt (option Z) :=
  ptr ← get_local_data fuel; mret (if ptr =? 0 then None else Some ptr).

Definition with_ {R} (fuel : nat) (f : LocalMap → R * LocalMap) : rt R :=
  p ← get_coroutine_local_data fuel;
  match p return rt R with
  | Some p => λ s,
      match th_locals s !! p with
      | Some l =>
          let '(r, m) := f (cl_local_data l) in
          Ret (r, set_locals (<[p := mkCoroutineLocal (cl_coroutine l) (cl_join l) m]> (th_locals s)) (th_localmap s) s)
      | None => Stop SUndef
      end
  | None => λ s, let '(r, m) := f (th_localmap s) in Ret (r, set_locals (th_locals s) m s)
  end.

Definition is_coroutine (fuel : nat) : rt bool :=
  p ← get_coroutine_local_data fuel; mret (bool_decide (is_Some p)).

(** ** [guard.rs] *)

Definition guard_current : rt (Z * Z) :=
  g ← is_generator;
  st_lift (rust_assert g);;
  env ← current;
  root ← deref env;
  c ← deref (child root);
  page ← on_proc page_size;
  lo ← st_lift (usize_sub (fst (stack_guard c)) page);
  mret (lo, snd (stack_guard c)).

(** ** [stack/unix/overflow.rs] *)

Definition SIGBUS : Z := 7.
Definition SIGSEGV : Z := 11.

(** The address of [signal_handler] as an action. *)
Context (handler : Z).

(** [sigaction(signum, act, oldact)] *)
Definition sigaction (signum act : Z) : rt Z := λ s,
  Ret (default 0 (th_actions s !! signum),
       set_signals (<[signum := act]> (th_actions s)) (th_saved s) (th_init s) s).
Definition save_action (old : Z) : rt () := modify (λ s, set_signals (th_actions s) old (th_init s) s).

Definition init : rt () :=
  old ← sigaction SIGSEGV handler; save_action old;;
  old ← sigaction SIGBUS handler; save_action old.

Definition init_once : rt () := λ s,
  if th_init s then Ret ((), s)
  else init (set_signals (th_actions s) (th_saved s) true s).

(** A panic in an [extern "C"] function aborts. *)
Definition extern_c {A} (m : rt A) : rt A := λ s,
  match m s with Stop (SPanic _) => Stop SAbort | r => r end.

Definition signal_handler (signum addr : Z) : rt () := extern_c (
  g ← guard_current;
  if negb ((fst g <=? addr) && (addr <? snd g)) then
    old_action ← gets th_saved;
    sigaction signum old_action;;
    mret ()
  else
    env ← current;
    p ← top env;
    modify (λ s, set_ctxs (alter (set_err (Some StackErr)) p (th_ctxs s)) s);;
    stop_st SAbort).
End runtime.

(** ** The list of contexts *)

(** [chain m root p l]: following [parent] from [p] visits [l] and then the root. *)
Inductive chain (m : gmap Z Context) (root : Z) : Z → list Z → Prop :=
| chain_root : is_Some (m !! root) → chain m root root []
| chain_ctx p c l : p ≠ root → m !! p = Some c → chain m root (parent c) l → chain m root p (p :: l).

(** A thread before its first use of the runtime, or with a root whose list of
    contexts is well formed, top first. *)
Definition thread_ok (s : thread) (l : list Z) : Prop :=
  (th_root s = 0 ∧ l = [])
  ∨ (th_root s ≠ 0 ∧ ∃ r, th_ctxs s !! th_root s = Some r ∧ chain (th_ctxs s) (th_root s) (parent r) l).

(** The first context of [l] with local data. *)
Definition has_local (m : gmap Z Context) (p : Z) : bool :=
  match m !! p with Some c => negb (local_data c =? 0) | None => false end.
Definition first_local (m : gmap Z Context) (l : list Z) : option Z := head (filter (λ p, has_local m p = true) l).
Definition local_of (m : gmap Z Context) (p : Z) : Z := from_option local_data 0 (m !! p).

Section laws.
Context `{Hbd : Build} `{Hsys : System} `{Hbox : BoxLaws}.

Lemma search_ctx_spec s root p l fuel :
  chain (th_ctxs s) root p l → (length l ≤ fuel)%nat →
  search_ctx fuel root p s = Ret (first_local (th_ctxs s) l, s).
Proof.
  intros Hc. revert fuel. induction Hc as [[r Hr]|p c l Hp Hl Hc IH]; intros fuel Hf.
  - destruct fuel; simpl; unfold mbind, stm_bind, deref; by rewrite Hr, Z.eqb_refl.
  - destruct fuel as [|fuel]; simpl in Hf; [lia|]. simpl.
    rewrite (stm_bind_ret _ _ _ c s) by (unfold deref; by rewrite Hl).
    rewrite (proj2 (Z.eqb_neq p root)) by done. unfold first_local. rewrite filter_cons.
    assert (has_local (th_ctxs s) p = negb (local_data c =? 0)) as Hh by (unfold has_local; by rewrite Hl).
    destruct (negb (local_data c =? 0)); [by rewrite decide_True|].
    rewrite decide_False by (by rewrite Hh). apply IH. lia.
Qed.

(** The two searches agree, on any state and with any fuel. *)
Lemma search_local_ctx fuel root p s :
  search_local fuel root p s =
  '(o, s') ← search_ctx fuel root p s; Ret (from_option (local_of (th_ctxs s')) 0 o, s').
Proof.
  revert p. induction fuel as [|fuel IH]; intros p; simpl; unfold mbind at 1 3, stm_bind; unfold deref.
  all: destruct (th_ctxs s !! p) as [c|] eqn:E; simpl; [|done].
  all: destruct (p =? root); [done|]; destruct (negb (local_data c =? 0)); simpl.
  all: unfold local_of; rewrite ?E; done || apply IH.
Qed.

Lemma current_ok s l : thread_ok s l →
  ∃ s', current s = Ret (th_root s', s') ∧ thread_ok s' l ∧ th_root s' ≠ 0
    ∧ (th_root s ≠ 0 → s' = s) ∧ th_ctxs s ⊆ th_ctxs s' ∧ th_cells s' = th_cells s
    ∧ th_locals s' = th_locals s ∧ th_localmap s' = th_localmap s ∧ th_proc s' = th_proc s.
Proof using Hbox.
  intros [[H0 ->]|(H0 & r & Hr & Hc)]; unfold current, mbind, stm_bind; simpl.
  - rewrite H0. simpl. destruct (box_fresh (th_ctxs s)) as [Hn Hf].
    exists (set_root (box_addr (th_ctxs s))
      (set_ctxs (<[box_addr (th_ctxs s) := set_parent (box_addr (th_ctxs s)) ctx_new]> (th_ctxs s)) s)).
    split; [done|]. simpl.
    split_and!; try done; [|by apply insert_subseteq].
    right. split; [done|]. eexists. simpl. rewrite lookup_insert_eq. split; [done|].
    constructor. rewrite lookup_insert_eq. done.
  - rewrite (proj2 (Z.eqb_neq _ 0)) by done. exists s. split; [done|]. split_and!; try done. right. eauto.
Qed.

Lemma get_local_data_ok s l fuel : thread_ok s l → (length l ≤ fuel)%nat →
  ∃ s', thread_ok s' l ∧ current s = Ret (th_root s', s')
    ∧ coroutine_ctx fuel (th_root s') s' = Ret (first_local (th_ctxs s') l, s')
    ∧ get_local_data fuel s = Ret (from_option (local_of (th_ctxs s')) 0 (first_local (th_ctxs s') l), s')
    ∧ th_locals s' = th_locals s ∧ th_localmap s' = th_localmap s.
Proof using Hbox.
  intros Hok Hf. destruct (current_ok s l Hok) as (s' & Hcur & Hok' & Hr & _ & _ & _ & Hl & Hm & _). exists s'.
  pose proof Hok' as [[]|(_ & r & Hr' & Hc)]; [done|].
  pose proof (search_ctx_spec _ _ _ _ _ Hc Hf) as Hs. split_and!; try done.
  - unfold coroutine_ctx. erewrite stm_bind_ret by (unfold deref; by rewrite Hr'). exact Hs.
  - unfold get_local_data. rewrite (stm_bind_ret _ _ _ _ _ Hcur).
    rewrite (stm_bind_ret _ _ _ r s') by (unfold deref; by rewrite Hr'). by rewrite search_local_ctx, Hs.
Qed.

Lemma first_local_some m l p : first_local m l = Some p → local_of m p ≠ 0.
Proof.
  intros Hp. assert (p ∈ filter (λ p, has_local m p = true) l) as Hin.
  { unfold first_local in Hp. destruct (filter _ _); [done|]. injection Hp as ->. left. }
  apply list_elem_of_filter in Hin as [Hh _]. unfold has_local, local_of in *.
  destruct (m !! p) as [c|]; [|done]. simpl. by destruct (Z.eqb_spec (local_data c) 0).
Qed.

(** On a well-formed thread, created or not, [coroutine_ctx] ends and is the first
    context from the top that has local data, [get_local_data] is the local data of
    that one, null without it, and [is_coroutine] tells whether there is one. *)
Theorem local_data_spec s l fuel :
  thread_ok s l → (length l ≤ fuel)%nat →
  ∃ s', thread_ok s' l ∧ current s = Ret (th_root s', s')
    ∧ let found := first_local (th_ctxs s') l in
      coroutine_ctx fuel (th_root s') s' = Ret (found, s')
      ∧ get_local_data fuel s = Ret (from_option (local_of (th_ctxs s')) 0 found, s')
      ∧ is_coroutine fuel s = Ret (bool_decide (is_Some found), s').
Proof using Hbox.
  intros Hok Hf. destruct (get_local_data_ok s l fuel) as (s' & Hok' & Hcur & Hc & Hl & _); [done..|].
  exists s'. cbv zeta. split_and!; try done.
  unfold is_coroutine, get_coroutine_local_data, mbind, stm_bind. rewrite Hl. simpl. do 2 f_equal.
  destruct (first_local (th_ctxs s') l) as [p|] eqn:E; [|done]. simpl. apply first_local_some in E.
  by rewrite (proj2 (Z.eqb_neq _ _) E).
Qed.

(** ** Parameters *)

(** C29: a parameter is stored under its type and taken once: a checked access at
    another type panics with [TypeErr] and changes nothing. *)
Theorem para_typed s c t t' v data :
  para c ≠ 0 → th_cells s !! para c = Some (COption t v) →
  let s1 := set_cells (<[para c := COption t (Some data)]> (th_cells s)) s in
  let s2 := set_cells (<[para c := COption t None]> (th_cells s)) s in
  coroutine_set_para t data c s = Ret ((), s1)
  ∧ get_para t c s1 = Ret (Some data, s2) ∧ coroutine_get_para t c s1 = Ret (Some data, s2)
  ∧ get_para t c s2 = Ret (None, s2)
  ∧ (t' ≠ t → get_para t' c s1 = Panic (PAny TypeErr)).
Proof.
  intros Hp Hcell s1 s2. apply Z.eqb_neq in Hp.
  assert (∀ o, unchecked t (para c) (set_cells (<[para c := COption t o]> (th_cells s)) s) =
     Ret (o, set_cells (<[para c := COption t o]> (th_cells s)) s)) as Hu.
  { intros o. unfold unchecked, mbind, stm_bind, st_lift, deref_cell. rewrite debug_assert_true by (by rewrite Hp).
    simpl. rewrite lookup_insert_eq. simpl. by rewrite Z.eqb_refl. }
  assert (∀ t' o, get_para t' c (set_cells (<[para c := COption t o]> (th_cells s)) s) =
    if t =? t' then Ret (o, s2) else Panic (PAny TypeErr)) as Hg.
  { intros u o. unfold get_para, mbind, stm_bind, st_lift, deref_cell. rewrite Hp. simpl. rewrite lookup_insert_eq. simpl.
    destruct (t =? u); [|done]. unfold write_cell, modify, set_cells. simpl. by rewrite insert_insert_eq. }
  split_and!.
  - unfold coroutine_set_para, mbind, stm_bind, unchecked, mbind, stm_bind, st_lift, deref_cell.
    rewrite debug_assert_true by (by rewrite Hp). simpl. rewrite Hcell. simpl. by rewrite Z.eqb_refl.
  - unfold s1. by rewrite Hg, Z.eqb_refl.
  - unfold coroutine_get_para, mbind, stm_bind. unfold s1. rewrite Hu. simpl.
    unfold write_cell, modify, set_cells. simpl. by rewrite insert_insert_eq.
  - unfold s2 at 1. by rewrite Hg, Z.eqb_refl.
  - intros Ht. unfold s1. rewrite Hg. by rewrite (proj2 (Z.eqb_neq t t')) by done.
Qed.

(** ** Local storage *)

(** A coroutine works on its own map, every other code of the thread on the map
    of the thread: [with] gives the closure that map, stores what the closure makes
    of it there, and leaves every other map alone. *)
Theorem with_spec {R} s l fuel (f : LocalMap → R * LocalMap) :
  thread_ok s l → (length l ≤ fuel)%nat →
  ∃ s0, thread_ok s0 l ∧ th_locals s0 = th_locals s ∧ th_localmap s0 = th_localmap s
    ∧ match from_option (local_of (th_ctxs s0)) 0 (first_local (th_ctxs s0) l) with
      | 0 => with_ fuel f s = Ret (fst (f (th_localmap s)), set_locals (th_locals s) (snd (f (th_localmap s))) s0)
      | p => match th_locals s !! p with
             | Some c => with_ fuel f s = Ret (fst (f (cl_local_data c)),
                 set_locals (<[p := mkCoroutineLocal (cl_coroutine c) (cl_join c) (snd (f (cl_local_data c)))]> (th_locals s))
                   (th_localmap s) s0)
             | None => with_ fuel f s = Stop SUndef
             end
      end.
Proof using Hbox.
  intros Hok Hf. destruct (get_local_data_ok s l fuel) as (s0 & Hok0 & _ & _ & Hl & Hloc & Hmap); [done..|].
  exists s0. split_and!; try done.
  unfold with_, get_coroutine_local_data, mbind, stm_bind. rewrite Hl. simpl.
  destruct (from_option _ _ _) as [|p|p]; simpl; rewrite ?Hloc, ?Hmap; [by destruct (f _)|..].
  all: destruct (th_locals s !! _) as [c|]; [by destruct (f _)|done].
Qed.
End laws.

(** ** Guard pages and signals *)

(** The guard of the running generator: that of the child of the root. *)
Definition guard_of (s : thread) : option (Z * Z) :=
  if th_root s =? 0 then None else
  r ← th_ctxs s !! th_root s;
  if child r =? 0 then None else stack_guard <$> (th_ctxs s !! child r).

Section signals.
Context `{Hbd : Build} `{Hlaws : SystemLaws} `{Hbox : BoxLaws} (handler : Z).

(** The child of the root is a context with a guard above the first page. *)
Definition child_ok (s : thread) : Prop := ∀ r, th_root s ≠ 0 →
  th_ctxs s !! th_root s = Some r → child r ≠ 0 →
  ∃ c, th_ctxs s !! child r = Some c ∧ page ≤ fst (stack_guard c) < 2 ^ 64.

Lemma is_generator_ok s l : thread_ok s l → child_ok s →
  ∃ s', is_generator s = Ret (bool_decide (is_Some (guard_of s)), s') ∧ (th_root s ≠ 0 → s' = s).
Proof using Hbox.
  intros Hok Hch. destruct (current_ok s l Hok) as (s' & Hcur & Hok' & Hr & Hsame & Hsub & _).
  destruct Hok' as [[]|(_ & r & Hr' & _)]; [done|]. exists s'. split; [|done].
  unfold is_generator. rewrite (stm_bind_ret _ _ _ _ _ Hcur).
  rewrite (stm_bind_ret _ _ _ r s') by (unfold deref; by rewrite Hr').
  unfold mret, stm_ret, guard_of. do 2 f_equal. destruct (Z.eqb_spec (th_root s) 0) as [E|E].
  - unfold current in Hcur. unfold mbind, stm_bind in Hcur. simpl in Hcur. rewrite E in Hcur. simpl in Hcur.
    unfold init_root in Hcur. injection Hcur as _ <-. simpl in Hr'. rewrite lookup_insert_eq in Hr'.
    by injection Hr' as <-.
  - rewrite (Hsame E) in Hr'. rewrite Hr'. simpl. destruct (Z.eqb_spec (child r) 0) as [Ec|Ec]; [done|].
    destruct (Hch r) as (c & -> & _); done.
Qed.

Lemma guard_current_ok s l : thread_ok s l → proc_ok (th_proc s) → child_ok s →
  match guard_of s with
  | None => guard_current s = Panic PAssert
  | Some g => ∃ p, proc_ok p ∧ guard_current s = Ret ((fst g - page, snd g), set_proc p s)
  end.
Proof using Hlaws Hbox.
  intros Hok Hpr Hch. destruct (is_generator_ok s l Hok Hch) as (s' & Hg & Hsame).
  unfold guard_current. rewrite (stm_bind_ret _ _ _ _ _ Hg). unfold guard_of in *.
  destruct (Z.eqb_spec (th_root s) 0) as [E|E]; [done|]. rewrite (Hsame E).
  destruct (th_ctxs s !! th_root s) as [r|] eqn:Hr; [|done]. simpl.
  destruct (Z.eqb_spec (child r) 0) as [Ec|Ec]; [done|].
  destruct (Hch r) as (c & Hc & Hpage); [done..|]. rewrite Hc. simpl.
  destruct (page_size_ok _ Hpr) as (p & Hp & Hpok & _). exists p. split; [done|].
  rewrite stm_bind_lift with (a := ()) by done.
  rewrite (stm_bind_ret current _ s (th_root s) s)
    by (unfold current, mbind, stm_bind; simpl; by rewrite (proj2 (Z.eqb_neq _ _) E)).
  rewrite (stm_bind_ret _ _ _ r s) by (unfold deref; by rewrite Hr).
  rewrite (stm_bind_ret _ _ _ c s) by (unfold deref; by rewrite Hc).
  rewrite (stm_bind_ret _ _ _ page (set_proc p s)) by (unfold on_proc; by rewrite Hp).
  rewrite stm_bind_lift with (a := fst (stack_guard c) - page); [done|].
  pose proof page_pos. apply usize_sub_in. lia.
Qed.

(** The handler returns only for an address outside of the guard of the child of
    the root, and then what it installs again is the one action that was saved; in a
    thread without generators, and on an overflow of the stack, it aborts. *)
Lemma signal_handler_ok s l signum addr :
  thread_ok s l → proc_ok (th_proc s) → child_ok s →
  match guard_of s with
  | None => signal_handler signum addr s = Stop SAbort
  | Some (lo, hi) =>
      if (lo - page <=? addr) && (addr <? hi) then signal_handler signum addr s = Stop SAbort
      else ∃ s', signal_handler signum addr s = Ret ((), s')
             ∧ th_actions s' = <[signum := th_saved s]> (th_actions s)
  end.
Proof using Hlaws Hbox.
  intros Hok Hpr Hch. pose proof (guard_current_ok s l Hok Hpr Hch) as Hg.
  unfold signal_handler, extern_c. destruct (guard_of s) as [[lo hi]|] eqn:Eg;
    [|by rewrite (stm_bind_stop _ _ _ _ Hg)].
  destruct Hg as (p & _ & Hg). rewrite (stm_bind_ret _ _ _ _ _ Hg). simpl.
  destruct ((lo - page <=? addr) && (addr <? hi)); simpl; [|eexists; split; done].
  assert (th_root s ≠ 0) as Hr by (unfold guard_of in Eg; by destruct (Z.eqb_spec (th_root s) 0)).
  destruct Hok as [[? _]|(_ & r & Hr' & Hc)]; [done|].
  assert (is_Some (th_ctxs s !! parent r)) as [q Hq] by (inversion Hc; eauto).
  unfold mbind, stm_bind, current, top. simpl.
  unfold mbind, stm_bind. simpl. rewrite (proj2 (Z.eqb_neq _ _) Hr). simpl. unfold deref. simpl.
  rewrite Hr'. simpl. by rewrite Hq.
Qed.

Lemma init_once_ok s : th_init s = false →
  init_once handler s = Ret ((), set_signals (<[SIGBUS := handler]> (<[SIGSEGV := handler]> (th_actions s)))
    (default 0 (th_actions s !! SIGBUS)) true s).
Proof.
  intros Hi. unfold init_once. rewrite Hi. unfold init, mbind, stm_bind, sigaction. simpl.
  by rewrite lookup_insert_ne by done.
Qed.

(** The actions of both signals are saved in the same place, so a fault outside of
    the guard makes the action that was installed for [SIGBUS] that of [SIGSEGV]. *)
Theorem init_keeps_last_action s l addr g :
  th_init s = false → thread_ok s l → proc_ok (th_proc s) → child_ok s →
  guard_of s = Some g → ¬ (fst g - page ≤ addr < snd g) →
  ∃ s1 s2, init_once handler s = Ret ((), s1)
    ∧ th_actions s1 !! SIGSEGV = Some handler ∧ th_actions s1 !! SIGBUS = Some handler
    ∧ signal_handler SIGSEGV addr s1 = Ret ((), s2)
    ∧ th_actions s2 !! SIGSEGV = Some (default 0 (th_actions s !! SIGBUS)).
Proof using Hlaws Hbox.
  intros Hi Hok Hpr Hch Hg Haddr. rewrite (init_once_ok s Hi).
  set (s1 := set_signals _ _ _ s). exists s1.
  pose proof (signal_handler_ok s1 l SIGSEGV addr) as Hh.
  specialize (Hh Hok Hpr Hch). change (guard_of s1) with (guard_of s) in Hh. rewrite Hg in Hh.
  destruct g as [lo hi]. simpl in Haddr.
  destruct (Z.leb_spec (lo - page) addr), (Z.ltb_spec addr hi); simpl in Hh; [lia|..].
  all: destruct Hh as (s2 & Hh & Hact); exists s2; split_and!; [done| | |done|].
  all: rewrite ?Hact; unfold SIGSEGV, SIGBUS; by simplify_map_eq.
Qed.
End signals.

(** ** Witnesses *)

Module Example_thread.
Import Linux.

#[export] Instance box : BoxAlloc := λ m, 1 + foldr Z.max 0 (elements (dom m)).

#[export] Instance box_laws : BoxLaws.
Proof.
  intros m. assert (∀ l p, p ∈ l → p ≤ foldr Z.max 0 l) as Hmax.
  { induction l as [|q l IH]; intros p Hp; [by apply elem_of_nil in Hp|]. simpl.
    apply elem_of_cons in Hp as [->|Hp]; [lia|]. specialize (IH p Hp). lia. }
  assert (∀ l, 0 ≤ foldr Z.max 0 l) as Hpos by (induction l; simpl; lia).
  unfold box_addr, box. specialize (Hpos (elements (dom m))). split; [lia|].
  apply not_elem_of_dom. intros Hin. apply elem_of_elements, Hmax in Hin. lia.
Defined.

Definition fresh_thread : thread := mkThread 0 ∅ ∅ ∅ ∅ {[ SIGBUS := 5; SIGSEGV := 6 ]} 0 false Linux.boot.

(** A generator (3) started by a coroutine (2) with local data at 9. *)
Definition running : thread :=
  mkThread 1
    (list_to_map [(1, mkContext empty 2 3 0 0 1 0 None (0, 0));
                  (2, mkContext empty 3 1 7 8 0 9 None (8192, 16384));
                  (3, mkContext empty 0 2 0 0 0 0 None (32768, 40960))])
    {[ 7 := COption EventResult None ]} {[ 9 := local_new 4 5 ]} ∅
    {[ SIGBUS := 5; SIGSEGV := 6 ]} 0 false Linux.boot.

Lemma running_ok : thread_ok running [3; 2].
Proof.
  right. split; [done|]. eexists. split; [reflexivity|].
  eapply chain_ctx; [done|reflexivity|]. eapply chain_ctx; [done|reflexivity|]. by apply chain_root; eexists.
Qed.

Lemma running_child : child_ok running.
Proof. intros r _ [= <-] _. eexists. split; [reflexivity|]. simpl. lia. Qed.
End Example_thread.

Import Linux Example_thread.

#[local] Existing Instance debug_build.

Lemma local_data_spec_witness :
  ∃ s', thread_ok s' [3; 2] ∧ current running = Ret (th_root s', s')
    ∧ let found := first_local (th_ctxs s') [3; 2] in
      coroutine_ctx 2 (th_root s') s' = Ret (found, s')
      ∧ get_local_data 2 running = Ret (from_option (local_of (th_ctxs s')) 0 found, s')
      ∧ is_coroutine 2 running = Ret (bool_decide (is_Some found), s').
Proof. apply (local_data_spec running [3; 2] 2); [apply running_ok|simpl; lia]. Defined.

Lemma para_typed_witness :
  let c := mkContext empty 3 1 7 8 0 9 None (8192, 16384) in
  let s1 := set_cells (<[7 := COption EventResult (Some 33)]> (th_cells running)) running in
  let s2 := set_cells (<[7 := COption EventResult None]> (th_cells running)) running in
  coroutine_set_para EventResult 33 c running = Ret ((), s1)
  ∧ get_para EventResult c s1 = Ret (Some 33, s2) ∧ coroutine_get_para EventResult c s1 = Ret (Some 33, s2)
  ∧ get_para EventResult c s2 = Ret (None, s2)
  ∧ (2 ≠ EventResult → get_para 2 c s1 = Panic (PAny TypeErr)).
Proof.
  apply (para_typed running (mkContext empty 3 1 7 8 0 9 None (8192, 16384)) EventResult 2 None 33);
    [done|reflexivity].
Defined.

Lemma with_spec_witness :
  ∃ s0, thread_ok s0 [3; 2] ∧ th_locals s0 = th_locals running ∧ th_localmap s0 = th_localmap running
    ∧ match from_option (local_of (th_ctxs s0)) 0 (first_local (th_ctxs s0) [3; 2]) with
      | 0 => with_ 2 (λ m, ((), <[1 := 2]> m)) running
             = Ret (fst ((), <[1 := 2]> (th_localmap running)),
                    set_locals (th_locals running) (snd ((), <[1 := 2]> (th_localmap running))) s0)
      | p => match th_locals running !! p with
             | Some c => with_ 2 (λ m, ((), <[1 := 2]> m)) running = Ret (fst ((), <[1 := 2]> (cl_local_data c)),
                 set_locals (<[p := mkCoroutineLocal (cl_coroutine c) (cl_join c)
                   (snd ((), <[1 := 2]> (cl_local_data c)))]> (th_locals running)) (th_localmap running) s0)
             | None => with_ 2 (λ m, ((), <[1 := 2]> m)) running = Stop SUndef
             end
      end.
Proof. apply (with_spec running [3; 2] 2 (λ m, ((), <[1 := 2]> m))); [apply running_ok|simpl; lia]. Defined.

Lemma init_keeps_last_action_witness :
  ∃ s1 s2, init_once 99 running = Ret ((), s1)
    ∧ th_actions s1 !! SIGSEGV = Some 99 ∧ th_actions s1 !! SIGBUS = Some 99
    ∧ signal_handler SIGSEGV 100 s1 = Ret ((), s2)
    ∧ th_actions s2 !! SIGSEGV = Some (default 0 (th_actions running !! SIGBUS)).
Proof.
  apply (init_keeps_last_action 99 running [3; 2] 100 (8192, 16384));
    [done|apply running_ok|apply boot_ok|apply running_child|reflexivity|simpl; lia].
Defined.
