(* ===== verification/Park.v ===== *)
(** * Parking and cancelling: [coroutine/src/park.rs], [cancel.rs], [sync/blocker.rs]

    [AtomicOption] is a cell whose [take] and [store] are not in the sources; they
    are a parameter with their documented behaviour.  So are the scheduler and the
    parameter of a suspended coroutine: what is handed to them is recorded in a log.
    [sync/thread_park.rs] is modelled by the sections that run under its mutex. *)

From stdpp Require Import relations.
From S2P Require Import Prelude Stack Runtime.

(** ** [sync/atomic_option.rs] *)

Record AtomicOption (T : Type) := mkAtomicOption { inner : option T }.
Arguments mkAtomicOption {T} _.
Arguments inner {T} _.

Definition none {T} : AtomicOption T := mkAtomicOption None.

Class AtomicOptionOps := {
  ao_store {T} : T → AtomicOption T → AtomicOption T;
  ao_take {T} : AtomicOption T → option T * AtomicOption T;
}.

(** [store] puts a value in the cell, [take] leaves the cell empty. *)
Class AtomicOptionLaws `{AtomicOptionOps} := {
  store_some {T} (v : T) c : inner (ao_store v c) = Some v;
  take_inner {T} (c : AtomicOption T) : fst (ao_take c) = inner c;
  take_empties {T} (c : AtomicOption T) : inner (snd (ao_take c)) = None;
}.

Section ao_laws.
Context `{Hao : AtomicOptionLaws}.

Lemma ao_eq {T} (c d : AtomicOption T) : inner c = inner d → c = d.
Proof. destruct c, d. simpl. by intros ->. Qed.

Lemma store_eq {T} (v : T) c : ao_store v c = mkAtomicOption (Some v).
Proof using Hao. apply ao_eq. apply store_some. Qed.

Lemma take_eq {T} (c : AtomicOption T) : ao_take c = (inner c, none).
Proof using Hao.
  destruct (ao_take c) as [o c'] eqn:E. pose proof (take_inner c) as H1. pose proof (take_empties c) as H2.
  rewrite E in H1, H2. simpl in *. subst. f_equal. by apply ao_eq.
Qed.
End ao_laws.

(** A plain cell. *)
Definition plain_ops : AtomicOptionOps := {|
  ao_store T v _ := mkAtomicOption (Some v);
  ao_take T c := (inner c, none);
|}.

Lemma plain_laws : @AtomicOptionLaws plain_ops.
Proof. by split. Qed.

(** ** [sync/thread_park.rs] *)

Inductive ParkError := Cancelled | Timeout.

Record ThreadPark := mkThreadPark { tp_lock : Z }.
Definition tp_new : ThreadPark := mkThreadPark 0.

(** The call of [park_timeout] in progress: at the test of the loop with the result so
    far, in [cvar.wait], or returned. *)
Inductive parking :=
| AtLoop (result : result () ParkError)
| Waiting
| Returned (result : result () ParkError).

Definition is_ok {A E} (r : result A E) : bool := match r with Ok _ => true | Err _ => false end.

(** The section from the lock, or from waking up, to the next wait or return.  The source
    moves its guard into [cvar.wait] and drops the guard it gets back, which the compiler
    rejects; here the loop goes on with the guard that [wait] returns. *)
Definition park_section (tp : ThreadPark) (result : result () ParkError) : ThreadPark * parking :=
  if (tp_lock tp =? 0) && is_ok result then (tp, Waiting)
  else (mkThreadPark 0, Returned result).

(** [unpark], and whether it calls [notify_one]. *)
Definition tp_unpark (tp : ThreadPark) : ThreadPark * bool :=
  if tp_lock tp =? 0 then (mkThreadPark 1, true) else (tp, false).

(** One thread in [park_timeout(dur)], any number of calls of [unpark].  A waiting
    thread may also wake up without being notified. *)
Inductive tp_step (dur : option Z) : ThreadPark * parking → ThreadPark * parking → Prop :=
| tp_run tp r : tp_step dur (tp, AtLoop r) (park_section tp r)
| tp_spurious tp : tp_step dur (tp, Waiting) (tp, AtLoop (Ok ()))
| tp_timeout tp : is_Some dur → tp_step dur (tp, Waiting) (tp, AtLoop (Err Timeout))
| tp_unpark_waiting tp tp' b : tp_unpark tp = (tp', b) →
    tp_step dur (tp, Waiting) (tp', if b then AtLoop (Ok ()) else Waiting)
| tp_unpark_other tp tp' b p : tp_unpark tp = (tp', b) → p ≠ Waiting → tp_step dur (tp, p) (tp', p)
| tp_again tp r : tp_step dur (tp, Returned r) (tp, AtLoop (Ok ())).

(** The contract: a token that [unpark] makes available and [park] waits for and
    takes.  A call that has timed out clears the flag: it discards a token that was made
    available since.  [None] is a call in progress. *)
Inductive token_step (dur : option Z) : bool * option (result () ParkError) → bool * option (result () ParkError) → Prop :=
| token_unpark t p : token_step dur (t, p) (true, p)
| token_take : token_step dur (true, None) (false, Some (Ok ()))
| token_timeout : is_Some dur → token_step dur (false, None) (false, Some (Err Timeout))
| token_discard : is_Some dur → token_step dur (true, None) (false, Some (Err Timeout))
| token_call t r : token_step dur (t, Some r) (t, None).

Definition token_of (c : ThreadPark * parking) : bool * option (result () ParkError) :=
  (negb (tp_lock (fst c) =? 0), match snd c with Returned r => Some r | _ => None end).

(** A waiting thread has not been notified, and only a timed-out call has failed. *)
Definition tp_inv (dur : option Z) (c : ThreadPark * parking) : Prop :=
  match snd c with
  | Waiting => tp_lock (fst c) = 0
  | AtLoop (Err e) | Returned (Err e) => e = Timeout ∧ is_Some dur
  | _ => True
  end.

Lemma tp_inv_step dur c c' : tp_inv dur c → tp_step dur c c' → tp_inv dur c'.
Proof.
  intros Hi Hs. destruct Hs as [tp r|tp|tp Hd|tp tp' b E|tp tp' b p E Hp|tp r]; unfold tp_inv in *; simpl in *.
  - unfold park_section. destruct r as [[]|e]; simpl; [|by rewrite andb_false_r].
    rewrite andb_true_r. by destruct (Z.eqb_spec (tp_lock tp) 0).
  - done.
  - done.
  - unfold tp_unpark in E. rewrite Hi in E. injection E as <- <-. done.
  - by destruct p.
  - done.
Qed.

Lemma tp_step_token dur c c' : tp_inv dur c → tp_step dur c c' →
  token_of c' = token_of c ∨ token_step dur (token_of c) (token_of c').
Proof.
  intros Hi Hs. destruct Hs as [tp r|tp|tp Hd|tp tp' b E|tp tp' b p E Hp|tp r];
    unfold token_of, tp_inv in *; simpl in *; try by left.
  - unfold park_section. destruct (Z.eqb_spec (tp_lock tp) 0) as [E|E], r as [[]|e]; simpl; try rewrite E; simpl.
    + by left.
    + right. destruct Hi as [-> Hd]. by constructor.
    + right. constructor.
    + right. destruct Hi as [-> Hd]. by constructor.
  - right. unfold tp_unpark in E. rewrite Hi in E. injection E as <- <-. rewrite Hi. constructor.
  - unfold tp_unpark in E. destruct (Z.eqb_spec (tp_lock tp) 0) as [E0|E0]; injection E as <- <-.
    + right. constructor.
    + left. by rewrite (proj2 (Z.eqb_neq _ _) E0).
  - right. constructor.
Qed.

(** C17: one thread parks, and any number of calls of [unpark], spurious wakeups and, with
    a duration, timeouts interleave with it.  Every step is a step of the token contract or
    changes nothing; the thread never sleeps while there is a token, a call that finds a
    token ends, and without a duration a call returns only by taking a token. *)
Theorem thread_park_refines dur c :
  rtc (tp_step dur) (tp_new, AtLoop (Ok ())) c →
  (∀ c', tp_step dur c c' → token_of c' = token_of c ∨ token_step dur (token_of c) (token_of c'))
  ∧ rtc (token_step dur) (false, None) (token_of c)
  ∧ (snd c = Waiting → fst (token_of c) = false)
  ∧ (token_of c = (true, None) → ∃ r, tp_step dur c (tp_new, Returned r) ∧ (dur = None → r = Ok ()))
  ∧ (dur = None → ∀ e, snd c ≠ Returned (Err e)).
Proof.
  intros Hr. assert (tp_inv dur c ∧ rtc (token_step dur) (false, None) (token_of c)) as [Hi Ht].
  { refine (rtc_invariant _ (λ c, tp_inv dur c ∧ rtc (token_step dur) (false, None) (token_of c)) _ _ _ _ Hr);
      [done|]. intros a b _ [Hi Ht] Hs. split; [by eapply tp_inv_step|].
    destruct (tp_step_token _ _ _ Hi Hs) as [->|Hstep]; [done|]. by eapply rtc_r. }
  destruct c as [tp p]. unfold tp_inv in Hi. unfold token_of in *. simpl in *.
  split; [intros c' Hs; by apply (tp_step_token dur (tp, p))|]. split; [done|]. split; [by intros ->; rewrite Hi|]. split.
  - intros [= Ht1 Ht2]. destruct (Z.eqb_spec (tp_lock tp) 0) as [|E]; [done|]. destruct p as [r| |]; [|done..].
    exists r. split; [|intros ->; by destruct r as [[]|e]; [|destruct Hi as [_ []]]].
    pose proof (tp_run dur tp r) as Hs. unfold park_section in Hs. by rewrite (proj2 (Z.eqb_neq _ _) E) in Hs.
  - intros -> e ->. by destruct Hi as [_ [? ?]].
Qed.

(** C40: with a duration a wakeup can be lost: the call times out, [unpark] makes the token
    available before the thread has the lock again, and the call clears it and returns
    [Timeout]. *)
Theorem timed_out_park_loses_token d :
  ∃ c, rtc (tp_step (Some d)) (tp_new, AtLoop (Ok ())) c ∧ token_of c = (true, None)
    ∧ tp_step (Some d) c (tp_new, Returned (Err Timeout)) ∧ token_of (tp_new, Returned (Err Timeout)) = (false, Some (Err Timeout)).
Proof.
  exists (mkThreadPark 1, AtLoop (Err Timeout)). split; [|split; [done|split; [apply (tp_run _ (mkThreadPark 1))|done]]].
  eapply rtc_l; [apply tp_run|]. eapply rtc_l; [by apply (tp_timeout _ tp_new)|].
  apply rtc_once. by apply (tp_unpark_other _ tp_new _ true).
Qed.

(** ** [park.rs] and [cancel.rs] *)

(** A slot is the [AtomicOption] of the suspended coroutine behind an [Arc]; a park
    and a cancel that wait for the same coroutine share it.  Fields that nothing in
    the sources reads keep the value of [Park::new]. *)
Record Park := mkPark {
  wait_coroutine : Z;
  pk_state : bool;
  check_cancel_flag : bool;
  timeout : option Z;
  timeout_handle : Z;
  wait_kernel : bool;
}.

Definition park_new (slot : Z) : Park := mkPark slot false true None 0 false.
(** [Default] of [Park] *)
Definition park_default (slot : Z) : Park := park_new slot.
Definition ignore_cancel (ignore : bool) (p : Park) : Park :=
  mkPark (wait_coroutine p) (pk_state p) (negb ignore) (timeout p) (timeout_handle p) (wait_kernel p).

Record CancelImpl := mkCancel { cn_state : Z; cn_coroutine : AtomicOption Z }.

Definition cancel_new : CancelImpl := mkCancel 0 none.

(** [Default] of [CancelImpl] *)
Definition cancel_default : CancelImpl := cancel_new.

(** [CancelIoImpl] has no data; cancelling it does nothing. *)
Definition io_cancel : option (result () Z) := None.

(** Calls of code outside of the sources. *)
Inductive ext_call := ESetPara (coroutine : Z) | ESchedule (coroutine : Z) | ERun (coroutine : Z).

Record world := mkWorld {
  slots : gmap Z (AtomicOption Z);
  the_park : Park;
  the_cancel : CancelImpl;
  calls : list ext_call;
}.

Definition set_slots (m : gmap Z (AtomicOption Z)) (w : world) : world :=
  mkWorld m (the_park w) (the_cancel w) (calls w).
Definition set_park (p : Park) (w : world) : world := mkWorld (slots w) p (the_cancel w) (calls w).
Definition set_cancel (c : CancelImpl) (w : world) : world := mkWorld (slots w) (the_park w) c (calls w).
Definition call (e : ext_call) (w : world) : world := mkWorld (slots w) (the_park w) (the_cancel w) (calls w ++ [e]).

Section park.
Context `{AtomicOptionOps}.

(** [take] on the cell behind a slot *)
Definition take_slot (slot : Z) (w : world) : option Z * world :=
  match slots w !! slot with
  | Some c => let '(o, c') := ao_take c in (o, set_slots (<[slot := c']> (slots w)) w)
  | None => (None, w)
  end.

Definition wake_up (b_sync : bool) (w : world) : world :=
  let '(o, w) := take_slot (wait_coroutine (the_park w)) w in
  match o with
  | Some coroutine => call (if b_sync then ERun coroutine else ESchedule coroutine) w
  | None => w
  end.

Definition unpark (w : world) : world :=
  let p := the_park w in
  let old := pk_state p in
  let w := set_park (mkPark (wait_coroutine p) true (check_cancel_flag p) (timeout p) (timeout_handle p) (wait_kernel p)) w in
  if negb old then wake_up false w else w.

Definition is_cancelled (c : CancelImpl) : bool := cn_state c =? 1.
Definition is_disabled (c : CancelImpl) : bool := 2 <=? cn_state c.

(** [fetch_add] and [fetch_sub] wrap around. *)
Definition disable_cancel (c : CancelImpl) : CancelImpl := mkCancel (uwrap 64 (cn_state c + 2)) (cn_coroutine c).
Definition enable_cancel (c : CancelImpl) : CancelImpl := mkCancel (uwrap 64 (cn_state c - 2)) (cn_coroutine c).

Definition cancel (w : world) : world :=
  let c := the_cancel w in
  let w := set_cancel (mkCancel (Z.lor (cn_state c) 1) (cn_coroutine c)) w in
  match io_cancel with
  | Some (Ok _) => w
  | _ =>
      let c := the_cancel w in
      let '(o, cell) := ao_take (cn_coroutine c) in
      let w := set_cancel (mkCancel (cn_state c) cell) w in
      match o with
      | Some slot =>
          let '(o, w) := take_slot slot w in
          match o with
          | Some coroutine => call (ESchedule coroutine) (call (ESetPara coroutine) w)
          | None => w
          end
      | None => w
      end
  end.
End park.

(** [check_cancel]: [unlikely] is its argument. *)
Definition unlikely (b : bool) : bool := b.
Definition likely (b : bool) : bool := b.

Definition check_cancel `{Build} `{BoxAlloc} (fuel : nat) (c : CancelImpl) : rt () :=
  if unlikely (cn_state c =? 1) then get_coroutine_para fuel;; mret () else mret ().

(** ** The state of a cancel *)

Inductive cancel_op := OpDisable | OpEnable | OpCancel.

Definition cancel_run_op `{AtomicOptionOps} (o : cancel_op) (w : world) : world :=
  match o with
  | OpDisable => set_cancel (disable_cancel (the_cancel w)) w
  | OpEnable => set_cancel (enable_cancel (the_cancel w)) w
  | OpCancel => cancel w
  end.

(** How many times cancelling is disabled, [None] when it was enabled once too often,
    and whether [cancel] was called. *)
Fixpoint disables (n : Z) (ops : list cancel_op) : option Z :=
  match ops with
  | [] => Some n
  | OpDisable :: ops => disables (n + 1) ops
  | OpEnable :: ops => if n =? 0 then None else disables (n - 1) ops
  | OpCancel :: ops => disables n ops
  end.
Definition cancels (ops : list cancel_op) : bool := existsb (λ o, match o with OpCancel => true | _ => false end) ops.

Section cancel_laws.
Context `{Hao : AtomicOptionLaws}.

Lemma cancel_state w : cn_state (the_cancel (cancel w)) = Z.lor (cn_state (the_cancel w)) 1.
Proof.
  unfold cancel. simpl. destruct (ao_take _) as [[slot|] cell]; [|done]. simpl.
  unfold take_slot. simpl. destruct (slots w !! slot) as [c|]; [|done].
  by destruct (ao_take c) as [[]].
Qed.

Lemma lor_1 n (b : bool) : 0 ≤ n → Z.lor (2 * n + Z.b2z b) 1 = 2 * n + 1.
Proof.
  intros Hn. apply Z.bits_inj'. intros i Hi. rewrite Z.lor_spec.
  change 1 with (Z.b2z true) at 2. destruct (decide (i = 0)) as [->|].
  - change (Z.testbit 1 0) with true. rewrite orb_true_r. by rewrite Z.testbit_0_r.
  - replace i with (Z.succ (i - 1)) by lia. rewrite !Z.testbit_succ_r by lia.
    change 1 with (2 * 0 + Z.b2z true) at 2. rewrite Z.testbit_succ_r by lia. by rewrite Z.bits_0, orb_false_r.
Qed.

Lemma cancel_ops_state ops n (b : bool) w m :
  0 ≤ n → n + Z.of_nat (length ops) < 2 ^ 62 → disables n ops = Some m →
  cn_state (the_cancel w) = 2 * n + Z.b2z b →
  cn_state (the_cancel (fold_left (flip cancel_run_op) ops w)) = 2 * m + Z.b2z (b || cancels ops) ∧ 0 ≤ m.
Proof.
  revert n b w. induction ops as [|o ops IH]; intros n b w Hn Hl Hd Hw; simpl in *.
  - injection Hd as <-. by rewrite orb_false_r.
  - assert (0 ≤ Z.b2z b ≤ 1) by (destruct b; simpl; lia). destruct o; simpl.
    + apply (IH (n + 1)); try done; try lia. simpl. rewrite Hw. unfold uwrap. rewrite Z.mod_small; lia.
    + destruct (Z.eqb_spec n 0); [done|]. apply (IH (n - 1)); try done; try lia. simpl. rewrite Hw.
      unfold uwrap. rewrite Z.mod_small; lia.
    + rewrite orb_true_r. replace true with (true || cancels ops) by done.
      apply (IH n true); try done; try lia. rewrite cancel_state, Hw, lor_1 by done. done.
Qed.

(** C28: while every enable has its disable (and there are fewer than 2^62 calls), the
    state of a cancel is twice the number of disables still in force plus the cancelled
    bit: a coroutine reads as cancelled when [cancel] was called and nothing disables it,
    and as disabled while a disable is in force. *)
Theorem cancel_state_spec ops n w :
  disables 0 ops = Some n → Z.of_nat (length ops) < 2 ^ 62 → the_cancel w = cancel_new →
  let c := the_cancel (fold_left (flip cancel_run_op) ops w) in
  cn_state c = 2 * n + Z.b2z (cancels ops)
  ∧ is_cancelled c = cancels ops && (n =? 0) ∧ is_disabled c = (0 <? n).
Proof.
  intros Hd Hl Hw c. destruct (cancel_ops_state ops 0 false w n) as [Hs Hn]; try done; [by rewrite Hw|].
  fold c in Hs. simpl in Hs. split; [done|]. unfold is_cancelled, is_disabled. rewrite Hs.
  destruct (cancels ops); simpl Z.b2z; simpl andb.
  - split; [destruct (Z.eqb_spec n 0), (Z.eqb_spec (2 * n + 1) 1)|
            destruct (Z.leb_spec 2 (2 * n + 1)), (Z.ltb_spec 0 n)]; (done || lia).
  - split; [destruct (Z.eqb_spec (2 * n + 0) 1)|
            destruct (Z.leb_spec 2 (2 * n + 0)), (Z.ltb_spec 0 n)]; (done || lia).
Qed.
End cancel_laws.

(** ** Waking a coroutine up *)

Inductive wake_op := WUnpark | WWakeUp (b_sync : bool) | WCancel | WIgnore (ignore : bool) | WOther (o : cancel_op).

Definition wake_run_op `{AtomicOptionOps} (w : world) (o : wake_op) : world :=
  match o with
  | WUnpark => unpark w
  | WWakeUp b => wake_up b w
  | WCancel => cancel w
  | WIgnore b => set_park (ignore_cancel b (the_park w)) w
  | WOther o => cancel_run_op o w
  end.

Definition wakes (o : wake_op) : bool :=
  match o with WUnpark | WWakeUp _ | WCancel | WOther OpCancel => true | _ => false end.

(** The coroutines that were handed to the scheduler or run. *)
Definition woken (w : world) : list Z :=
  omap (λ e, match e with ESchedule c | ERun c => Some c | ESetPara _ => None end) (calls w).

(** The coroutine [c] waits in [slot], where the park and the cancel find it. *)
Definition parked (slot c : Z) (w : world) : Prop :=
  slots w !! slot = Some (mkAtomicOption (Some c)) ∧ wait_coroutine (the_park w) = slot
  ∧ pk_state (the_park w) = false ∧ inner (cn_coroutine (the_cancel w)) = Some slot.

(** It is gone from there. *)
Definition gone (slot : Z) (w : world) : Prop :=
  slots w !! slot = Some none ∧ wait_coroutine (the_park w) = slot
  ∧ (inner (cn_coroutine (the_cancel w)) = Some slot ∨ inner (cn_coroutine (the_cancel w)) = None).

Section wake_laws.
Context `{Hao : AtomicOptionLaws}.

Lemma woken_call e w : woken (call e w) = woken w ++ match e with ESchedule c | ERun c => [c] | ESetPara _ => [] end.
Proof. unfold woken. simpl. rewrite omap_app. by destruct e. Qed.

Lemma take_slot_eq slot o w : slots w !! slot = Some (mkAtomicOption o) →
  take_slot slot w = (o, set_slots (<[slot := none]> (slots w)) w).
Proof using Hao. intros Hs. unfold take_slot. by rewrite Hs, take_eq. Qed.

Lemma wake_up_ok slot o b w :
  slots w !! slot = Some (mkAtomicOption o) → wait_coroutine (the_park w) = slot →
  woken (wake_up b w) = woken w ++ option_list o ∧ slots (wake_up b w) !! slot = Some none
  ∧ the_park (wake_up b w) = the_park w ∧ the_cancel (wake_up b w) = the_cancel w.
Proof using Hao.
  intros Hs Hp. unfold wake_up. rewrite Hp, (take_slot_eq _ _ _ Hs).
  destruct o as [c|]; rewrite ?woken_call; simpl; rewrite lookup_insert_eq; [by destruct b|].
  split; [|done]. by rewrite app_nil_r.
Qed.

Lemma cancel_ok slot o w :
  slots w !! slot = Some (mkAtomicOption o) →
  inner (cn_coroutine (the_cancel w)) = Some slot ∨ inner (cn_coroutine (the_cancel w)) = None ∧ o = None →
  woken (cancel w) = woken w ++ option_list o ∧ slots (cancel w) !! slot = Some none
  ∧ the_park (cancel w) = the_park w ∧ inner (cn_coroutine (the_cancel (cancel w))) = None.
Proof using Hao.
  intros Hs Hc. unfold cancel. simpl. rewrite take_eq. destruct Hc as [->|[-> ->]].
  - simpl. erewrite take_slot_eq by (simpl; exact Hs).
    destruct o as [c|]; rewrite ?woken_call; simpl; rewrite lookup_insert_eq; [|by rewrite app_nil_r].
    by rewrite app_nil_r.
  - simpl. by rewrite app_nil_r.
Qed.

Lemma gone_keeps slot w o : gone slot w → gone slot (wake_run_op w o) ∧ woken (wake_run_op w o) = woken w.
Proof using Hao.
  intros (Hs & Hp & Hc). assert (∀ w', gone slot w' → gone slot (cancel w') ∧ woken (cancel w') = woken w') as Hcn.
  { intros w' (Hs' & Hp' & Hc'). destruct (cancel_ok slot None w') as (Hw & Hsl & Hpk & Hcc); [done|tauto|].
    rewrite Hw, app_nil_r. split; [|done]. split; [done|]. split; [by rewrite Hpk|by right]. }
  destruct o as [|b| |b|[]]; simpl; try done; try by apply Hcn.
  - unfold unpark. destruct (negb _); [|done].
    match goal with |- context [wake_up false ?x] => destruct (wake_up_ok slot None false x) as (Hw & Hsl & Hpk & Hcc) end; [done..|].
    rewrite Hw, app_nil_r. split; [|done]. unfold gone. by rewrite Hsl, Hpk, Hcc.
  - destruct (wake_up_ok slot None b w) as (Hw & Hsl & Hpk & Hcc); [done..|].
    rewrite Hw, app_nil_r. split; [|done]. unfold gone. by rewrite Hsl, Hpk, Hcc.
Qed.

Lemma parked_wakes slot c w o : parked slot c w →
  if wakes o then gone slot (wake_run_op w o) ∧ woken (wake_run_op w o) = woken w ++ [c]
  else parked slot c (wake_run_op w o) ∧ woken (wake_run_op w o) = woken w.
Proof using Hao.
  intros (Hs & Hp & Hst & Hc).
  assert (gone slot (cancel w) ∧ woken (cancel w) = woken w ++ [c]) as Hcn.
  { destruct (cancel_ok slot (Some c) w) as (Hw & Hsl & Hpk & Hcc); [done|by left|].
    split; [|done]. unfold gone. rewrite Hsl, Hpk, Hcc. auto. }
  destruct o as [|b| |b|[]]; simpl; try done.
  - unfold unpark. rewrite Hst. simpl.
    match goal with |- context [wake_up false ?x] => destruct (wake_up_ok slot (Some c) false x) as (Hw & Hsl & Hpk & Hcc) end; [done..|].
    rewrite Hw. split; [|done]. unfold gone. rewrite Hsl, Hpk, Hcc. simpl. auto.
  - destruct (wake_up_ok slot (Some c) b w) as (Hw & Hsl & Hpk & Hcc); [done..|].
    rewrite Hw. split; [|done]. unfold gone. rewrite Hsl, Hpk, Hcc. auto.
Qed.

Lemma gone_run slot ops w : gone slot w → woken (fold_left wake_run_op ops w) = woken w.
Proof using Hao.
  revert w. induction ops as [|o ops IH]; intros w Hw; [done|]. simpl.
  destruct (gone_keeps slot w o Hw) as [Hg E]. by rewrite (IH _ Hg).
Qed.

(** C16: whatever order a parked coroutine is unparked, woken up and cancelled in, and
    however often, it is handed over exactly once as soon as one of them is called,
    and not before. *)
Theorem woken_exactly_once slot c ops w :
  parked slot c w →
  woken (fold_left wake_run_op ops w) = woken w ++ (if existsb wakes ops then [c] else []).
Proof using Hao.
  revert w. induction ops as [|o ops IH]; intros w Hw; simpl; [by rewrite app_nil_r|].
  pose proof (parked_wakes slot c w o Hw) as Ho. destruct (wakes o); destruct Ho as [Hg E]; simpl.
  - by rewrite (gone_run slot _ _ Hg).
  - by rewrite (IH _ Hg), E.
Qed.
End wake_laws.

(** ** [check_cancel] *)

(** [check_cancel] returns also when the cancel bit is set: it takes the parameter
    of the coroutine and goes on. *)
Theorem check_cancel_returns `{Build} `{BoxLaws} s l fuel cn p c v :
  thread_ok s l → th_root s ≠ 0 → (length l ≤ fuel)%nat → is_cancelled cn = true →
  first_local (th_ctxs s) l = Some p → th_ctxs s !! p = Some c → para c ≠ 0 →
  th_cells s !! para c = Some (COption EventResult v) →
  check_cancel fuel cn s = Ret ((), set_cells (<[para c := COption EventResult None]> (th_cells s)) s).
Proof.
  intros Hok Hr Hf Hcn Hp Hc Hpa Hcell. unfold is_cancelled in Hcn. unfold check_cancel, unlikely. rewrite Hcn.
  destruct (get_local_data_ok s l fuel) as (s' & _ & Hcur & Hctx & _); [done..|].
  assert (s' = s) as ->.
  { unfold current, mbind, stm_bind in Hcur. simpl in Hcur. rewrite (proj2 (Z.eqb_neq _ _) Hr) in Hcur.
    by injection Hcur. }
  rewrite Hp in Hctx. unfold get_coroutine_para, coroutine_get_yield, mbind, stm_bind.
  rewrite Hcur. simpl. rewrite Hctx. simpl. unfold deref. rewrite Hc. simpl.
  unfold coroutine_get_para, mbind, stm_bind, unchecked, mbind, stm_bind, st_lift.
  rewrite debug_assert_true by (by rewrite (proj2 (Z.eqb_neq _ _) Hpa)). simpl. unfold deref_cell. by rewrite Hcell.
Qed.

(** ** [sync/parker.rs] and [sync/blocker.rs] *)

Inductive Parker := PCoroutine (p : Park) | PThread (t : ThreadPark).

Record Blocker := mkBlocker { parker : Parker }.

(** [Blocker::new]; [slot] is the address of a new park's cell. *)
Definition blocker_new `{BoxAlloc} (fuel : nat) (slot : Z) (ignore : bool) : rt Blocker :=
  c ← is_coroutine fuel;
  mret (mkBlocker (if (c : bool) then PCoroutine (ignore_cancel ignore (park_new slot)) else PThread tp_new)).

(** Whether an [unpark] has not been taken by a [park] yet. *)
Definition token (b : Blocker) : bool :=
  match parker b with PCoroutine p => pk_state p | PThread t => negb (tp_lock t =? 0) end.

Lemma blocker_new_token `{BoxAlloc} fuel slot ignore s :
  wps (blocker_new fuel slot ignore) s (λ _, True) (λ b _, token b = false).
Proof.
  unfold blocker_new. apply wps_bind. unfold wps at 1. destruct (is_coroutine fuel s) as [[[] s']|]; done.
Qed.

(** ** Witnesses *)

Module Example_park.

#[export] Instance cells : AtomicOptionOps := plain_ops.
#[export] Instance cells_laws : AtomicOptionLaws := plain_laws.

Definition waiting : world :=
  mkWorld {[ 1 := mkAtomicOption (Some 42) ]} (park_new 1) (mkCancel 0 (mkAtomicOption (Some 1))) [].
End Example_park.

Import Linux Example_thread Example_park.

#[local] Existing Instance debug_build.

Lemma thread_park_refines_witness :
  let c := (mkThreadPark 1, AtLoop (Ok ())) in
  rtc (token_step None) (false, None) (token_of c) ∧ ∃ r, tp_step None c (tp_new, Returned r) ∧ r = Ok ().
Proof.
  destruct (thread_park_refines None (mkThreadPark 1, AtLoop (Ok ()))) as (_ & Ht & _ & Hp & _).
  - eapply rtc_l; [apply tp_run|]. simpl. eapply rtc_l; [by eapply tp_unpark_waiting|]. apply rtc_refl.
  - split; [exact Ht|]. destruct (Hp eq_refl) as (r & Hs & Hr). exists r. split; [exact Hs|exact (Hr eq_refl)].
Defined.

Lemma cancel_state_spec_witness :
  let ops := [OpDisable; OpCancel; OpDisable; OpEnable] in
  let c := the_cancel (fold_left (flip cancel_run_op) ops (mkWorld ∅ (park_new 1) cancel_new [])) in
  cn_state c = 2 * 1 + Z.b2z (cancels ops) ∧ is_cancelled c = cancels ops && (1 =? 0) ∧ is_disabled c = (0 <? 1).
Proof.
  apply (cancel_state_spec [OpDisable; OpCancel; OpDisable; OpEnable] 1); [reflexivity|simpl; lia|reflexivity].
Defined.

Lemma woken_exactly_once_witness :
  let ops := [WIgnore true; WCancel; WUnpark; WUnpark; WWakeUp true] in
  woken (fold_left wake_run_op ops waiting) = woken waiting ++ (if existsb wakes ops then [42] else []).
Proof.
  apply (woken_exactly_once 1 42 [WIgnore true; WCancel; WUnpark; WUnpark; WWakeUp true] waiting). by split_and!.
Defined.

Lemma check_cancel_returns_witness :
  check_cancel 2 (mkCancel 1 none) running
  = Ret ((), set_cells (<[7 := COption EventResult None]> (th_cells running)) running).
Proof.
  apply (check_cancel_returns running [3; 2] 2 (mkCancel 1 none) 2
    (mkContext empty 3 1 7 8 0 9 None (8192, 16384)) None);
    [apply running_ok|done|simpl; lia|done|reflexivity|reflexivity|done|reflexivity].
Defined.
