(* ===== verification/Handles.v ===== *)
(** * Handles of coroutines: [coroutine/src/lib.rs], [builder.rs], [join_handle.rs], [event.rs]

    A [Coroutine] is a reference-counted pointer to its [Inner], which holds the park
    and the cancel of [Park]; cloning a handle copies the pointer.  Programs over
    handles refine a machine in which every handle names a coroutine that waits, or
    does not, and that is woken up at most once. *)

From stdpp Require Import strings.
From S2P Require Import Prelude Stack Runtime Park.

(** ** Data *)

Record Inner := mkInner {
  in_name : option string;
  in_stack_size : Z;
  in_park : Park;
  in_cancel : CancelImpl;
}.

Record Coroutine := mkCoroutine { co_inner : Z }.

(** What lives behind the [Arc]s: the inners and the cells of their parks, the calls
    of the scheduler, and the next unused address. *)
Record heap := mkHeap {
  hp_inners : gmap Z Inner;
  hp_slots : gmap Z (AtomicOption Z);
  hp_calls : list ext_call;
  hp_next : Z;
}.

(** ** [CoroutineBuilder] *)

Record CoroutineBuilder := mkBuilder {
  cb_name : option string;
  cb_stack_size : option Z;
  cb_id : option Z;
}.

Definition cb_new : CoroutineBuilder := mkBuilder None None None.
Definition cb_set_name (name : string) (self : CoroutineBuilder) : CoroutineBuilder :=
  mkBuilder (Some name) (cb_stack_size self) (cb_id self).
Definition cb_set_stack_size (stack_size : Z) (self : CoroutineBuilder) : CoroutineBuilder :=
  mkBuilder (cb_name self) (Some stack_size) (cb_id self).
Definition cb_set_id (id : Z) (self : CoroutineBuilder) : CoroutineBuilder :=
  mkBuilder (cb_name self) (cb_stack_size self) (Some id).

(** ** [JoinHandle]: the handle of the coroutine and what it shares with it *)

Record JoinHandle := mkJoinHandle {
  jh_coroutine : Coroutine;
  jh_join : Z;
  jh_packet : Z;
  jh_panic : Z;
}.

Definition make_join_handle (coroutine : Coroutine) (join packet panic : Z) : JoinHandle :=
  mkJoinHandle coroutine join packet panic.
Definition jh_get_coroutine (h : JoinHandle) : Coroutine := jh_coroutine h.

(** ** Operations of a handle *)

(** Two [Arc::new]: the cell of [Park::new], and the inner. *)
Definition co_new (name : string) (stack_size : Z) (hp : heap) : Coroutine * heap :=
  let slot := hp_next hp in
  let at_ := hp_next hp + 1 in
  (mkCoroutine at_,
   mkHeap (<[at_ := mkInner (Some name) stack_size (park_new slot) cancel_new]> (hp_inners hp))
     (<[slot := none]> (hp_slots hp)) (hp_calls hp) (hp_next hp + 2)).

(** [#[derive(Clone)]] *)
Definition co_clone (h : Coroutine) : Coroutine := mkCoroutine (co_inner h).

Definition co_deref (h : Coroutine) (hp : heap) : option Inner := hp_inners hp !! co_inner h.

Definition co_stack_size (h : Coroutine) (hp : heap) : option Z := in_stack_size <$> co_deref h hp.
Definition co_name (h : Coroutine) (hp : heap) : option (option string) := in_name <$> co_deref h hp.
Definition get_cancel (h : Coroutine) (hp : heap) : option CancelImpl := in_cancel <$> co_deref h hp.

(** A call on the park and the cancel of one inner. *)
Definition focus (i : Inner) (hp : heap) : world := mkWorld (hp_slots hp) (in_park i) (in_cancel i) (hp_calls hp).
Definition unfocus (at_ : Z) (i : Inner) (w : world) (hp : heap) : heap :=
  mkHeap (<[at_ := mkInner (in_name i) (in_stack_size i) (the_park w) (the_cancel w)]> (hp_inners hp))
    (slots w) (calls w) (hp_next hp).
Definition on_inner (f : world → world) (h : Coroutine) (hp : heap) : option heap :=
  i ← co_deref h hp; Some (unfocus (co_inner h) i (f (focus i hp)) hp).

Definition co_unpark `{AtomicOptionOps} (h : Coroutine) (hp : heap) : option heap := on_inner unpark h hp.
Definition co_cancel `{AtomicOptionOps} (h : Coroutine) (hp : heap) : option heap := on_inner cancel h hp.

(** [EventSource::yield_back] of [event.rs] *)
Definition yield_back `{Build} `{BoxAlloc} (fuel : nat) (cancel : CancelImpl) : rt () := check_cancel fuel cancel.

(** ** Programs over handles *)

(** A variable is the position of a handle in the list of all handles made so far. *)
Inductive hop :=
| HNew (name : string) (stack_size : Z)
| HClone (v : nat)
| HUnpark (v : nat)
| HCancel (v : nat)
| HName (v : nat)
| HStackSize (v : nat)
| HIsCancelled (v : nat).

Inductive obs := OName (name : option string) | OSize (n : Z) | OCancelled (b : bool).

Definition hstate : Type := list Coroutine * heap.

Definition hstep `{AtomicOptionOps} (o : hop) (st : hstate) : option (list obs * hstate) :=
  let '(vars, hp) := st in
  match o with
  | HNew name size => let '(h, hp) := co_new name size hp in Some ([], (vars ++ [h], hp))
  | HClone v => h ← vars !! v; Some ([], (vars ++ [co_clone h], hp))
  | HUnpark v => h ← vars !! v; hp ← co_unpark h hp; Some ([], (vars, hp))
  | HCancel v => h ← vars !! v; hp ← co_cancel h hp; Some ([], (vars, hp))
  | HName v => h ← vars !! v; n ← co_name h hp; Some ([OName n], st)
  | HStackSize v => h ← vars !! v; n ← co_stack_size h hp; Some ([OSize n], st)
  | HIsCancelled v => h ← vars !! v; c ← get_cancel h hp; Some ([OCancelled (is_cancelled c)], st)
  end.

Fixpoint hrun `{AtomicOptionOps} (ops : list hop) (st : hstate) : option (list obs * hstate) :=
  match ops with
  | [] => Some ([], st)
  | o :: ops => '(x, st) ← hstep o st; '(y, st) ← hrun ops st; Some (x ++ y, st)
  end.

(** The variables a program uses are bound: [n] of them are at its start. *)
Fixpoint scoped (n : nat) (ops : list hop) : bool :=
  match ops with
  | [] => true
  | HNew _ _ :: ops => scoped (S n) ops
  | HClone v :: ops => bool_decide (v < n)%nat && scoped (S n) ops
  | (HUnpark v | HCancel v | HName v | HStackSize v | HIsCancelled v) :: ops => bool_decide (v < n)%nat && scoped n ops
  end.

(** The coroutines that the scheduler was handed. *)
Definition handed (hp : heap) : list Z :=
  omap (λ e, match e with ESchedule c | ERun c => Some c | ESetPara _ => None end) (hp_calls hp).

(** ** The abstract machine *)

Record spec_co := mkSpec {
  sp_name : option string;
  sp_size : Z;
  sp_cancelled : bool;
  sp_waits : option Z;      (** the suspended coroutine, if it waits *)
}.

(** The coroutine of each variable, the coroutines, and those woken up so far. *)
Definition spec : Type := list nat * list spec_co * list Z.

(** Wake coroutine [k] up, if it waits, and mark it as cancelled for [b]. *)
Definition spec_wake (b : bool) (k : nat) (sp : spec) : option spec :=
  let '(vars, cos, out) := sp in
  s ← cos !! k;
  Some (vars, <[k := mkSpec (sp_name s) (sp_size s) (sp_cancelled s || b) None]> cos, out ++ option_list (sp_waits s)).

Definition spec_step (o : hop) (sp : spec) : option (list obs * spec) :=
  let '(vars, cos, out) := sp in
  match o with
  | HNew name size => Some ([], (vars ++ [length cos], cos ++ [mkSpec (Some name) size false None], out))
  | HClone v => k ← vars !! v; Some ([], (vars ++ [k], cos, out))
  | HUnpark v => k ← vars !! v; sp ← spec_wake false k sp; Some ([], sp)
  | HCancel v => k ← vars !! v; sp ← spec_wake true k sp; Some ([], sp)
  | HName v => k ← vars !! v; s ← cos !! k; Some ([OName (sp_name s)], sp)
  | HStackSize v => k ← vars !! v; s ← cos !! k; Some ([OSize (sp_size s)], sp)
  | HIsCancelled v => k ← vars !! v; s ← cos !! k; Some ([OCancelled (sp_cancelled s)], sp)
  end.

Fixpoint spec_run (ops : list hop) (sp : spec) : option (list obs * spec) :=
  match ops with
  | [] => Some ([], sp)
  | o :: ops => '(x, sp) ← spec_step o sp; '(y, sp) ← spec_run ops sp; Some (x ++ y, sp)
  end.

(** ** The relation *)

Definition slot_of (i : Inner) : Z := wait_coroutine (in_park i).

(** The inner of one coroutine. *)
Definition co_rel (hp : heap) (i : Inner) (s : spec_co) : Prop :=
  in_name i = sp_name s ∧ in_stack_size i = sp_size s ∧ cn_state (in_cancel i) = Z.b2z (sp_cancelled s)
  ∧ match sp_waits s with
    | Some c => parked (slot_of i) c (focus i hp)
    | None => gone (slot_of i) (focus i hp)
    end.

(** The coroutine at position [k] has its inner at [addrs !! k]. *)
Record rel (addrs : list Z) (st : hstate) (sp : spec) : Prop := mkRel {
  rel_vars : Forall2 (λ h k, addrs !! k = Some (co_inner h)) (fst st) (fst (fst sp));
  rel_len : length addrs = length (snd (fst sp));
  rel_nodup : NoDup addrs;
  rel_cos : ∀ k a s, addrs !! k = Some a → snd (fst sp) !! k = Some s →
    ∃ i, hp_inners (snd st) !! a = Some i ∧ co_rel (snd st) i s;
  rel_slots : ∀ a a' i i', hp_inners (snd st) !! a = Some i → hp_inners (snd st) !! a' = Some i' →
    slot_of i = slot_of i' → a = a';
  rel_next : ∀ a i, hp_inners (snd st) !! a = Some i → a < hp_next (snd st) ∧ slot_of i < hp_next (snd st);
  rel_out : handed (snd st) = snd sp;
}.

Definition represents (st : hstate) (sp : spec) : Prop := ∃ addrs, rel addrs st sp.

Section handle_laws.
Context `{Hao : AtomicOptionLaws}.

(** ** One coroutine *)

(** A waking operation touches the slot of its own park only. *)
Lemma wake_frame (b : bool) slot w s :
  wait_coroutine (the_park w) = slot →
  inner (cn_coroutine (the_cancel w)) = Some slot ∨ inner (cn_coroutine (the_cancel w)) = None →
  s ≠ slot → slots ((if b then cancel else unpark) w) !! s = slots w !! s.
Proof using Hao.
  intros Hp Hc Hs.
  assert (∀ w', slots (snd (take_slot slot w')) !! s = slots w' !! s) as Ht.
  { intros w'. unfold take_slot. destruct (slots w' !! slot); [|done]. rewrite take_eq. simpl.
    by rewrite lookup_insert_ne. }
  destruct b.
  - unfold cancel. simpl. rewrite take_eq. destruct Hc as [-> | ->]; [|done]. simpl.
    match goal with |- context [take_slot slot ?x] => specialize (Ht x); destruct (take_slot slot x) as [[c|] w'] end;
      exact Ht.
  - unfold unpark. destruct (negb _); [|done]. unfold wake_up. simpl. rewrite Hp.
    match goal with |- context [take_slot slot ?x] => specialize (Ht x); destruct (take_slot slot x) as [[c|] w'] end;
      exact Ht.
Qed.

Lemma wake_cn_state (b : bool) w (c : bool) : cn_state (the_cancel w) = Z.b2z c →
  cn_state (the_cancel ((if b then cancel else unpark) w)) = Z.b2z (c || b).
Proof.
  intros Hc. destruct b.
  - rewrite cancel_state, Hc. by destruct c.
  - rewrite orb_false_r, <-Hc. unfold unpark, wake_up. destruct (negb _); [|done]. simpl.
    unfold take_slot. simpl. destruct (slots w !! _) as [x|]; [|done]. by destruct (ao_take x) as [[]].
Qed.

(** Waking a coroutine up hands over what waits, and leaves nothing to wake up. *)
Lemma co_rel_wake (b : bool) hp i s (w := (if b then cancel else unpark) (focus i hp)) :
  co_rel hp i s →
  gone (slot_of i) w ∧ woken w = handed hp ++ option_list (sp_waits s)
  ∧ cn_state (the_cancel w) = Z.b2z (sp_cancelled s || b)
  ∧ ∀ s', s' ≠ slot_of i → slots w !! s' = hp_slots hp !! s'.
Proof using Hao.
  intros (_ & _ & Hst & Hw). subst w. set (w := focus i hp) in *. split_and!.
  3: by apply wake_cn_state.
  3: { intros s' Hs'. apply (wake_frame b (slot_of i) w); [done| |done].
       destruct (sp_waits s); [left; apply Hw|apply Hw]. }
  all: pose (o := if b then WCancel else WUnpark); assert (wake_run_op w o = (if b then cancel else unpark) w) as <- by (by destruct b);
    assert (wakes o = true) as Ho by (by destruct b).
  all: destruct (sp_waits s) as [c|];
    [pose proof (parked_wakes _ _ _ o Hw) as Hp; rewrite Ho in Hp|pose proof (gone_keeps _ _ o Hw) as Hp].
  all: destruct Hp as [Hg E]; try exact Hg.
  - by rewrite E.
  - by rewrite E, app_nil_r.
Qed.

Lemma co_rel_ext hp hp' i s :
  hp_slots hp' !! slot_of i = hp_slots hp !! slot_of i → co_rel hp i s → co_rel hp' i s.
Proof.
  intros E (H1 & H2 & H3 & H4). split_and!; [done..|]. destruct (sp_waits s).
  - destruct H4 as (? & ? & ? & ?). unfold parked, focus in *. simpl in *. by rewrite E.
  - destruct H4 as (? & ? & ?). unfold gone, focus in *. simpl in *. by rewrite E.
Qed.

(** ** One operation *)

Lemma rel_var addrs vars hp sp v : rel addrs (vars, hp) sp → (v < length (fst (fst sp)))%nat →
  ∃ h k s i, vars !! v = Some h ∧ fst (fst sp) !! v = Some k ∧ addrs !! k = Some (co_inner h)
    ∧ snd (fst sp) !! k = Some s ∧ co_deref h hp = Some i ∧ co_rel hp i s.
Proof.
  intros HR Hv. destruct (lookup_lt_is_Some_2 _ _ Hv) as [k Hk].
  destruct (Forall2_lookup_r _ _ _ _ _ (rel_vars _ _ _ HR) Hk) as (h & Hh & Ha).
  destruct (lookup_lt_is_Some_2 (snd (fst sp)) k) as [s Hs].
  { rewrite <-(rel_len _ _ _ HR). by eapply lookup_lt_Some. }
  destruct (rel_cos _ _ _ HR k _ s Ha Hs) as (i & Hi & Hc). by exists h, k, s, i.
Qed.

Lemma rel_wake (b : bool) addrs vars hp sp h k s i :
  rel addrs (vars, hp) sp → addrs !! k = Some (co_inner h) → snd (fst sp) !! k = Some s →
  co_deref h hp = Some i → co_rel hp i s →
  ∃ hp' sp', on_inner (if b then cancel else unpark) h hp = Some hp' ∧ spec_wake b k sp = Some sp'
    ∧ rel addrs (vars, hp') sp' ∧ fst (fst sp') = fst (fst sp).
Proof using Hao.
  destruct sp as [[svars cos] out]. simpl. intros HR Ha Hs Hi Hc.
  destruct (co_rel_wake b hp i s Hc) as (Hg & Hw & Hst & Hf).
  unfold on_inner. rewrite Hi. simpl. unfold spec_wake. rewrite Hs. simpl. do 2 eexists. split; [done|]. split; [done|].
  split; [|done]. set (w := (if b then cancel else unpark) (focus i hp)) in *.
  assert (slot_of (mkInner (in_name i) (in_stack_size i) (the_park w) (the_cancel w)) = slot_of i) as Esl.
  { unfold slot_of at 1. apply Hg. }
  unfold co_deref in Hi. destruct HR as [Hv Hl Hn Hcos Hsl Hnx Ho]. simpl in *. split; simpl; try done.
  - by rewrite length_insert.
  - intros k' a s' Hk' Hs'. destruct (decide (k' = k)) as [->|Hne].
    + simplify_eq. rewrite list_lookup_insert_eq in Hs' by (by eapply lookup_lt_Some). injection Hs' as <-.
      eexists. rewrite lookup_insert_eq. split; [done|]. destruct Hc as (? & ? & _). split_and!; try done.
      simpl. rewrite Esl. exact Hg.
    + rewrite list_lookup_insert_ne in Hs' by done. destruct (Hcos k' a s' Hk' Hs') as (i' & Hi' & Hc').
      assert (a ≠ co_inner h) as Hah. { intros ->. apply Hne. by eapply NoDup_lookup. }
      exists i'. rewrite lookup_insert_ne by done. split; [done|]. revert Hc'. apply co_rel_ext. simpl. apply Hf.
      intros E. apply Hah. by eapply Hsl.
  - intros a a' j j' Hj Hj' E. apply lookup_insert_Some in Hj, Hj'.
    destruct Hj as [[<- <-]|[Hne Hj]], Hj' as [[<- <-]|[Hne' Hj']]; rewrite ?Esl in E; try done; eapply Hsl; eauto.
  - intros a j Hj. apply lookup_insert_Some in Hj. destruct Hj as [[<- <-]|[_ Hj]]; [rewrite Esl|]; eauto.
  - rewrite <-Ho. exact Hw.
Qed.

Lemma rel_new addrs vars hp svars cos out name size :
  rel addrs (vars, hp) (svars, cos, out) →
  let '(h, hp') := co_new name size hp in
  rel (addrs ++ [co_inner h]) (vars ++ [h], hp') (svars ++ [length cos], cos ++ [mkSpec (Some name) size false None], out).
Proof.
  intros [Hv Hl Hn Hcos Hsl Hnx Ho]. simpl in *.
  assert (∀ k a, addrs !! k = Some a → a < hp_next hp) as Hlt.
  { intros k a Hk. destruct (lookup_lt_is_Some_2 cos k) as [s Hs]; [rewrite <-Hl; by eapply lookup_lt_Some|].
    destruct (Hcos k a s Hk Hs) as (i & Hi & _). by eapply Hnx. }
  split; simpl; try done.
  - apply Forall2_app.
    + eapply Forall2_impl; [|exact Hv]. intros h k E. simpl in E. by apply lookup_app_l_Some.
    + constructor; [|done]. by rewrite <-Hl, lookup_snoc_Some; right.
  - rewrite !length_app. simpl. lia.
  - apply list.NoDup_app. split; [done|]. split; [|apply NoDup_singleton].
    intros a [k Hk]%list_elem_of_lookup ->%list_elem_of_singleton. apply Hlt in Hk. lia.
  - intros k a s Hk Hs. apply lookup_snoc_Some in Hk as [[Hk1 Hk]|[-> <-]].
    + rewrite lookup_app_l in Hs by lia. destruct (Hcos k a s Hk Hs) as (i & Hi & Hc). exists i.
      destruct (Hnx a i Hi). rewrite lookup_insert_ne by lia. split; [done|]. revert Hc. apply co_rel_ext. simpl.
      rewrite lookup_insert_ne by lia. done.
    + rewrite Hl, list_lookup_middle in Hs by done. injection Hs as <-. eexists. rewrite lookup_insert_eq. split; [done|].
      split_and!; try done. simpl. unfold gone. simpl. rewrite lookup_insert_eq. auto.
  - intros a a' j j' Hj Hj' E. apply lookup_insert_Some in Hj, Hj'.
    destruct Hj as [[<- <-]|[Hne Hj]], Hj' as [[<- <-]|[Hne' Hj']]; try done; [| |by eapply Hsl].
    + apply Hnx in Hj'. unfold slot_of in E at 1. simpl in E. lia.
    + apply Hnx in Hj. unfold slot_of in E at 2. simpl in E. lia.
  - intros a j Hj. apply lookup_insert_Some in Hj. destruct Hj as [[<- <-]|[_ Hj]]; [unfold slot_of; simpl; lia|].
    apply Hnx in Hj. lia.
Qed.

Lemma hstep_rel addrs st sp o n :
  rel addrs st sp → n = length (fst (fst sp)) → scoped n [o] = true →
  ∃ x addrs' st' sp', hstep o st = Some (x, st') ∧ spec_step o sp = Some (x, sp') ∧ rel addrs' st' sp'
    ∧ ∀ ops, scoped n (o :: ops) = scoped (length (fst (fst sp'))) ops.
Proof using Hao.
  destruct st as [vars hp], sp as [[svars cos] out]. simpl. intros HR -> Hs.
  assert (∀ v, match o with HNew _ _ => False | HClone v' | HUnpark v' | HCancel v' | HName v' | HStackSize v' | HIsCancelled v' => v' = v end →
    bool_decide (v < length svars)%nat = true ∧ ∃ h k s i, vars !! v = Some h ∧ svars !! v = Some k ∧ addrs !! k = Some (co_inner h)
    ∧ cos !! k = Some s ∧ co_deref h hp = Some i ∧ co_rel hp i s) as Hv.
  { intros v Hv. assert (bool_decide (v < length svars)%nat = true) as Hb.
    { destruct o; try done; subst; by apply andb_true_iff in Hs as [? _]. }
    split; [done|]. apply bool_decide_eq_true in Hb. by apply (rel_var _ _ _ _ _ HR). }
  destruct o as [name size|v|v|v|v|v|v]; [|destruct (Hv v eq_refl) as (Hb & h & k & s & i & Hh & Hk & Ha & Hc & Hi & Hr); simpl; rewrite Hh, Hk; simpl..].
  - pose proof (rel_new _ _ _ _ _ _ name size HR) as H'. simpl in H'. simpl.
    do 4 eexists. split; [done|]. split; [done|]. split; [exact H'|]. intros ops. simpl. by rewrite length_app, Nat.add_comm.
  - exists [], addrs. do 2 eexists. split; [done|]. split; [done|]. split.
    + destruct HR as [Hvs Hl Hn Hcos Hsl Hnx Ho]. split; simpl; try done. apply Forall2_app; [done|].
      by constructor.
    + intros ops. simpl. by rewrite Hb, length_app, Nat.add_comm.
  - destruct (rel_wake false _ _ _ _ h k s i HR Ha Hc Hi Hr) as (hp' & sp' & E1 & E2 & HR' & Hl).
    unfold co_unpark. rewrite E1. simpl in E2 |- *. rewrite E2. simpl. do 4 eexists. do 2 (split; [done|]). split; [exact HR'|].
    intros ops. rewrite Hl. simpl. by rewrite Hb.
  - destruct (rel_wake true _ _ _ _ h k s i HR Ha Hc Hi Hr) as (hp' & sp' & E1 & E2 & HR' & Hl).
    unfold co_cancel. rewrite E1. simpl in E2 |- *. rewrite E2. simpl. do 4 eexists. do 2 (split; [done|]). split; [exact HR'|].
    intros ops. rewrite Hl. simpl. by rewrite Hb.
  - unfold co_name. rewrite Hi, Hc. simpl. destruct (Hr) as (-> & _). do 4 eexists. do 2 (split; [done|]).
    split; [exact HR|]. intros ops. simpl. by rewrite Hb.
  - unfold co_stack_size. rewrite Hi, Hc. simpl. destruct (Hr) as (_ & -> & _). do 4 eexists. do 2 (split; [done|]).
    split; [exact HR|]. intros ops. simpl. by rewrite Hb.
  - unfold get_cancel. rewrite Hi, Hc. simpl. assert (is_cancelled (in_cancel i) = sp_cancelled s) as ->.
    { destruct Hr as (_ & _ & E & _). unfold is_cancelled. rewrite E. by destruct (sp_cancelled s). }
    do 4 eexists. do 2 (split; [done|]). split; [exact HR|]. intros ops. simpl. by rewrite Hb.
Qed.

(** C10: programs over handles: whatever handles of however many coroutines are made,
    cloned and used in whatever order, every handle reads the name, the stack size and
    the cancellation of its own coroutine, and a coroutine that waits is handed to the
    scheduler by the first [unpark] or [cancel] through any handle of it, once, and
    by nothing else; no handle dangles. *)
Theorem handles_refine ops st sp :
  represents st sp → scoped (length (fst (fst sp))) ops = true →
  ∃ reads st' sp', hrun ops st = Some (reads, st') ∧ spec_run ops sp = Some (reads, sp')
    ∧ represents st' sp' ∧ handed (snd st') = snd sp'.
Proof using Hao.
  revert st sp. induction ops as [|o ops IH]; intros st sp [addrs HR] Hs.
  - exists [], st, sp. do 2 (split; [done|]). split; [by exists addrs|apply (rel_out _ _ _ HR)].
  - destruct (hstep_rel addrs st sp o _ HR eq_refl) as (x & addrs' & st1 & sp1 & E1 & E2 & HR1 & Hn).
    { destruct o; simpl in *; try done; by apply andb_true_iff in Hs as [-> _]. }
    rewrite Hn in Hs. destruct (IH st1 sp1) as (y & st' & sp' & E3 & E4 & HR' & Ho); [by exists addrs'|done|].
    exists (x ++ y), st', sp'. simpl. rewrite E1, E2. simpl. by rewrite E3, E4.
Qed.
End handle_laws.

(** ** Witnesses *)

Module Example_handles.
Import Example_park.

(** Two handles of the coroutine 42, which waits, and one of a coroutine that runs. *)
Definition started : hstate :=
  ([mkCoroutine 2; mkCoroutine 2; mkCoroutine 4],
   mkHeap {[ 2 := mkInner (Some "worker"%string) 4096 (park_new 1) (mkCancel 0 (mkAtomicOption (Some 1)));
             4 := mkInner (Some "main"%string) 8192 (park_new 3) cancel_new ]}
     {[ 1 := mkAtomicOption (Some 42); 3 := none ]} [] 5).
Definition started_spec : spec :=
  ([0%nat; 0%nat; 1%nat], [mkSpec (Some "worker"%string) 4096 false (Some 42); mkSpec (Some "main"%string) 8192 false None], []).

Lemma started_represents : represents started started_spec.
Proof.
  exists [2; 4]. split; simpl; try done.
  - by repeat constructor.
  - by repeat (constructor; [set_solver|]); constructor.
  - intros [|[|k]] a s Ha Hs; simplify_eq/=; (eexists; split; [reflexivity|]); split_and!; try done.
    all: unfold parked, gone; simpl; split_and!; try done; by right.
  - intros a a' i i' Hi Hi' E. apply lookup_insert_Some in Hi, Hi'. rewrite !lookup_singleton_Some in Hi, Hi'.
    destruct Hi as [[<- <-]|(_ & <- & <-)], Hi' as [[<- <-]|(_ & <- & <-)]; done.
  - intros a i Hi. apply lookup_insert_Some in Hi. rewrite lookup_singleton_Some in Hi.
    destruct Hi as [[<- <-]|(_ & <- & <-)]; unfold slot_of; simpl; lia.
Qed.

Definition ops : list hop := [HClone 1; HNew "new" 1024; HUnpark 3; HCancel 2; HIsCancelled 2; HIsCancelled 0; HCancel 0; HUnpark 4; HName 4].

Lemma handles_refine_witness :
  scoped 3 ops = true ∧ ∃ reads st' sp', hrun ops started = Some (reads, st') ∧ spec_run ops started_spec = Some (reads, sp')
    ∧ represents st' sp' ∧ handed (snd st') = snd sp'.
Proof.
  split; [reflexivity|]. apply (handles_refine ops started started_spec); [apply started_represents|reflexivity].
Defined.

(** The run hands the coroutine over once. *)
Example ops_run :
  (λ r, (fst r, handed (snd (snd r)))) <$> hrun ops started
  = Some ([OCancelled true; OCancelled false; OName (Some "new"%string)], [42]).
Proof. reflexivity. Qed.
End Example_handles.
