(* ===== verification/Join.v ===== *)
(** * Joining a coroutine: [coroutine/src/join.rs], [join_handle.rs]

    The end of a coroutine (the closure of [spawn_impl] in [builder.rs], or
    [run_coroutine] of [lib.rs] when it panics) and the threads that wait for it
    interleave at their atomic accesses: [step] runs one access of one of them. *)

From stdpp Require Import relations.
From S2P Require Import Prelude Stack Runtime Park.

(** [Blocker::park(None)] and [Blocker::unpark] are not in the sources; [None] is a
    call that blocks.  [bk_cancelled] tells whether the coroutine that waits with the
    blocker has been cancelled, which ends a [park] with [ParkError::Cancelled]. *)
Class BlockerOps := {
  bk_cancelled : Blocker → bool;
  bk_park : Blocker → option (result () ParkError * Blocker);
  bk_unpark : Blocker → Blocker;
}.

(** [unpark] makes the token available, [park] waits for it and takes it; a thread is
    never cancelled. *)
Class BlockerLaws `{BlockerOps} := {
  thread_not_cancelled t : bk_cancelled (mkBlocker (PThread t)) = false;
  unpark_token b : token (bk_unpark b) = true;
  unpark_cancelled b : bk_cancelled (bk_unpark b) = bk_cancelled b;
  park_blocks b : token b = false → bk_cancelled b = false → bk_park b = None;
  park_takes b : token b = true →
    ∃ b', bk_park b = Some (Ok (), b') ∧ token b' = false ∧ bk_cancelled b' = bk_cancelled b;
  park_cancelled b : token b = false → bk_cancelled b = true →
    ∃ b', bk_park b = Some (Err Cancelled, b') ∧ token b' = false ∧ bk_cancelled b' = true;
}.

(** How a coroutine ends: with a value, or with a panic and its data, if any. *)
Inductive outcome := Returns (v : Z) | Panics (payload : option Z).

(** The boxed error of [JoinHandle::join]. *)
Inductive payload := PData (d : Z) | PError (e : Error).

(** What the coroutine still has to do, from the end of its function on. *)
Inductive finishing :=
| FEnd (o : outcome)
| FState                  (** [trigger]: store the state *)
| FTake                   (** [trigger]: take the blocker *)
| FUnpark (b : nat)       (** [trigger]: unpark it *)
| FDone.

(** A thread in [wait] or [join], at its next access. *)
Inductive waiting_at :=
| WLoad | WRegister | WRecheck | WPark | WUnregister
| WReturn                 (** [wait] has returned *)
| WPanic                  (** the packet was empty *)
| WResult (r : result Z payload).

Record waiter := mkWaiter { joins : bool; at_ : waiting_at }.

(** The join resource, what the handle shares with it, a blocker for each waiter. *)
Record cfg := mkCfg {
  to_wake : AtomicOption nat;
  state : bool;
  panic_ : AtomicOption Z;
  packet : AtomicOption Z;
  blockers : list Blocker;
  fin : finishing;
  waiters : list waiter;
}.

Definition is_done (c : cfg) : bool := negb (state c).

Section join.
Context `{AtomicOptionOps} `{BlockerOps}.

(** The source declares the type of the cell for [d] and stores it in the cell; its only
    caller passes the data of the panic. *)
Definition set_panic_data (d : Z) (c : cfg) : cfg :=
  mkCfg (to_wake c) (state c) (ao_store d (panic_ c)) (packet c) (blockers c) (fin c) (waiters c).
Definition set_fin (f : finishing) (c : cfg) : cfg :=
  mkCfg (to_wake c) (state c) (panic_ c) (packet c) (blockers c) f (waiters c).
Definition set_packet (p : AtomicOption Z) (c : cfg) : cfg :=
  mkCfg (to_wake c) (state c) (panic_ c) p (blockers c) (fin c) (waiters c).
Definition set_panic (p : AtomicOption Z) (c : cfg) : cfg :=
  mkCfg (to_wake c) (state c) p (packet c) (blockers c) (fin c) (waiters c).
Definition set_wake (t : AtomicOption nat) (c : cfg) : cfg :=
  mkCfg t (state c) (panic_ c) (packet c) (blockers c) (fin c) (waiters c).
Definition set_state (b : bool) (c : cfg) : cfg :=
  mkCfg (to_wake c) b (panic_ c) (packet c) (blockers c) (fin c) (waiters c).
Definition set_blocker (i : nat) (b : Blocker) (c : cfg) : cfg :=
  mkCfg (to_wake c) (state c) (panic_ c) (packet c) (<[i := b]> (blockers c)) (fin c) (waiters c).
Definition set_at (i : nat) (w : waiting_at) (c : cfg) : cfg :=
  mkCfg (to_wake c) (state c) (panic_ c) (packet c) (blockers c) (fin c)
    (alter (λ x, mkWaiter (joins x) w) i (waiters c)).

(** One access of the coroutine. *)
Definition fin_step (c : cfg) : option cfg :=
  match fin c with
  | FEnd (Returns v) => Some (set_fin FState (set_packet (ao_store v (packet c)) c))
  | FEnd (Panics (Some d)) => Some (set_fin FState (set_panic_data d c))
  | FEnd (Panics None) => Some (set_fin FState c)
  | FState => Some (set_fin FTake (set_state false c))
  | FTake =>
      let '(o, t) := ao_take (to_wake c) in
      Some (set_fin (from_option FUnpark FDone o) (set_wake t c))
  | FUnpark b => Some (set_fin FDone (default c ((λ x, set_blocker b (bk_unpark x) c) <$> (blockers c !! b))))
  | FDone => None
  end.

(** One access of waiter [i]; [None] when it is blocked or has ended. *)
Definition wait_step (i : nat) (c : cfg) : option cfg :=
  w ← waiters c !! i;
  match at_ w with
  | WLoad => Some (set_at i (if state c then WRegister else WReturn) c)
  | WRegister => Some (set_at i WRecheck (set_wake (ao_store i (to_wake c)) c))
  | WRecheck => Some (set_at i (if state c then WPark else WUnregister) c)
  | WPark =>
      b ← blockers c !! i; '(_, b') ← bk_park b;      (* [.ok()] drops the error *)
      Some (set_at i WReturn (set_blocker i b' c))
  | WUnregister => Some (set_at i WReturn (set_wake (snd (ao_take (to_wake c))) c))
  | WReturn =>
      if joins w then
        let '(o, p) := ao_take (packet c) in
        Some (set_at i (from_option (λ v, WResult (Ok v)) WPanic o) (set_packet p c))
      else None
  | WPanic =>
      let '(o, p) := ao_take (panic_ c) in
      Some (set_at i (WResult (Err (from_option PData (PError Cancel) o))) (set_panic p c))
  | WResult _ => None
  end.

Inductive step : cfg → cfg → Prop :=
| step_fin c c' : fin_step c = Some c' → step c c'
| step_wait i c c' : wait_step i c = Some c' → step c c'.

(** A coroutine that will end with [o], with its join resource of [spawn_impl], and
    the waiters that are about to wait. *)
Definition start (o : outcome) (ws : list (bool * Blocker)) : cfg :=
  mkCfg none true none none (snd <$> ws) (FEnd o) ((λ w, mkWaiter (fst w) WLoad) <$> ws).

(** What a join is to return. *)
Definition join_result (o : outcome) : result Z payload :=
  match o with
  | Returns v => Ok v
  | Panics d => Err (from_option PData (PError Cancel) d)
  end.

(** ** Every run ends *)

Definition fin_rank (f : finishing) : nat :=
  match f with FEnd _ => 4 | FState => 3 | FTake => 2 | FUnpark _ => 1 | FDone => 0 end.
Definition at_rank (w : waiting_at) : nat :=
  match w with
  | WLoad => 6 | WRegister => 5 | WRecheck => 4 | WPark => 3 | WUnregister => 3 | WReturn => 2 | WPanic => 1
  | WResult _ => 0
  end.
Definition rank (c : cfg) : nat := fin_rank (fin c) + sum_list_with (λ w, at_rank (at_ w)) (waiters c).

Lemma rank_alter i w w' (ws : list waiter) :
  ws !! i = Some w → (at_rank w' < at_rank (at_ w))%nat →
  (sum_list_with (λ w, at_rank (at_ w)) (alter (λ x, mkWaiter (joins x) w') i ws)
   < sum_list_with (λ w, at_rank (at_ w)) ws)%nat.
Proof.
  revert i. induction ws as [|x ws IH]; intros [|i] Hi Hr; simpl in *; try done.
  - injection Hi as ->. lia.
  - specialize (IH i Hi Hr). unfold alter in IH. lia.
Qed.

Lemma step_rank c c' : step c c' → (rank c' < rank c)%nat.
Proof.
  intros [d d' Hd|i d d' Hd]; unfold rank.
  - unfold fin_step in Hd. destruct (fin d) as [[v|[p|]]| | |b|] eqn:Ef; simplify_eq/=; try lia.
    + destruct (ao_take _) as [o t]. simplify_eq/=. destruct o; simpl; lia.
    + destruct (blockers d !! b); simpl; lia.
  - unfold wait_step in Hd. destruct (waiters d !! i) as [w|] eqn:Ew; [|done]. simpl in Hd.
    assert (∀ w' e, fin e = fin d → waiters e = waiters d → (at_rank w' < at_rank (at_ w))%nat →
      (fin_rank (fin (set_at i w' e)) + sum_list_with (λ w, at_rank (at_ w)) (waiters (set_at i w' e))
       < fin_rank (fin d) + sum_list_with (λ w, at_rank (at_ w)) (waiters d))%nat) as Hstep.
    { intros w' e Hf He Hr. simpl. rewrite Hf, He. apply Nat.add_lt_mono_l. by eapply rank_alter. }
    destruct (at_ w) eqn:Ea; simpl in Hd.
    + injection Hd as <-. apply Hstep; try done. destruct (state d); simpl; lia.
    + injection Hd as <-. apply Hstep; simpl; try done. lia.
    + injection Hd as <-. apply Hstep; try done. destruct (state d); simpl; lia.
    + destruct (blockers d !! i) as [b|]; [|done]. simpl in Hd. destruct (bk_park b) as [[? ?]|]; [|done].
      injection Hd as <-. apply Hstep; simpl; try done. lia.
    + injection Hd as <-. apply Hstep; simpl; try done. lia.
    + destruct (joins w); [|done]. destruct (ao_take _) as [o p]. injection Hd as <-.
      apply Hstep; try done. destruct o; simpl; lia.
    + destruct (ao_take _) as [o p]. injection Hd as <-. apply Hstep; simpl; try done. lia.
    + done.
Qed.

Lemma step_sn c : sn step c.
Proof. apply (sn_measure _ rank), step_rank. Qed.
End join.

(** ** One joiner *)

Definition before (f : finishing) : bool := match f with FEnd _ | FState => true | _ => false end.
Definition unparking (f : finishing) (tok : bool) : bool :=
  match f with FUnpark _ => true | FDone => tok | _ => false end.

(** Where the coroutine and the joiner can be together, with the token of the joiner's
    blocker and the blocker that is registered. *)
Definition pc_ok (f : finishing) (w : waiting_at) (tok : bool) (tw : option nat) : bool :=
  match tw with
  | None => true
  | Some i => (i =? 0)%nat && match w with WRecheck | WPark | WUnregister => true | _ => false end
  end
  && match f with FUnpark b => (b =? 0)%nat && negb tok && bool_decide (tw = None)
     | FDone => negb (tok && bool_decide (is_Some tw)) | _ => negb tok end
  && match w with
     | WLoad | WRegister => negb (unparking f tok)
     | WRecheck => bool_decide (is_Some tw) || unparking f tok
     | WPark => (bool_decide (is_Some tw) && (before f || match f with FTake => true | _ => false end)) || unparking f tok
     | _ => negb (before f)
     end.

(** The packet and the panic data. *)
Definition data_ok (o : outcome) (f : finishing) (w : waiting_at) (pk pn : option Z) : Prop :=
  let value := match o with Returns v => Some v | Panics _ => None end in
  let data := match o with Returns _ => None | Panics d => d end in
  match f, w with
  | FEnd o', _ => o' = o ∧ pk = None ∧ pn = None
  | _, WPanic => value = None ∧ pn = data
  | _, WResult r => r = join_result o
  | _, _ => pk = value ∧ pn = data
  end.

Record join_inv `{BlockerOps} (o : outcome) (c : cfg) : Prop := {
  inv_shape : ∃ b w, blockers c = [b] ∧ waiters c = [mkWaiter true w] ∧ bk_cancelled b = false
    ∧ pc_ok (fin c) w (token b) (inner (to_wake c)) = true
    ∧ data_ok o (fin c) w (inner (packet c)) (inner (panic_ c));
  inv_state : state c = before (fin c);
}.

Section one_joiner.
Context `{Hao : AtomicOptionLaws} `{Hbk : BlockerLaws}.

Lemma inv_start o b : token b = false → bk_cancelled b = false → join_inv o (start o [(true, b)]).
Proof. intros Hb Hc. split; [|done]. exists b, WLoad. simpl. by rewrite Hb. Qed.

(** Closes a case of the invariant: the new blocker and place of the joiner are given,
    and the old ones decide. *)
Ltac inv_cases := split; [do 2 eexists; split_and!; [reflexivity|reflexivity|by rewrite ?unpark_cancelled|..]|done]; simpl in *;
  repeat match goal with H : token _ = _ |- _ => rewrite H end; destruct_and?; simplify_eq/=; done || (by case_match).

Lemma inv_fin o c c' : join_inv o c → fin_step c = Some c' → join_inv o c'.
Proof using Hao Hbk.
  intros [(b & w & Hb & Hw & Hcn & Hp & Hd) Hs] Hc. destruct c as [[tw] st [pn] [pk] bs f ws]. simpl in *. subst.
  unfold fin_step in Hc. simpl in Hc.
  destruct f as [[v|[d|]]| | |i|]; simplify_eq/=; rewrite ?take_eq, ?store_eq in *; simplify_eq/=.
  - destruct w, tw as [[]|], (token b) eqn:Et; try done; inv_cases.
  - unfold set_panic_data. rewrite store_eq. destruct w, tw as [[]|], (token b) eqn:Et; try done; inv_cases.
  - destruct w, tw as [[]|], (token b) eqn:Et; try done; inv_cases.
  - destruct w, tw as [[]|], (token b) eqn:Et; try done; inv_cases.
  - destruct w, tw as [[]|], (token b) eqn:Et; try done; inv_cases.
  - destruct i as [|i]; [|by unfold pc_ok in Hp; simpl in Hp; rewrite andb_false_r in Hp]. simpl.
    pose proof (unpark_token b) as Hu.
    destruct w, tw as [[]|], (token b) eqn:Et; try done; inv_cases.
Qed.

Lemma inv_wait o c i c' : join_inv o c → wait_step i c = Some c' → join_inv o c'.
Proof using Hao Hbk.
  intros [(b & w & Hb & Hw & Hcn & Hp & Hd) Hs] Hc. destruct c as [[tw] st [pn] [pk] bs f ws]. simpl in *. subst.
  unfold wait_step in Hc. simpl in Hc. destruct i as [|i]; [|done]. simpl in Hc.
  destruct w; simplify_eq/=; rewrite ?take_eq, ?store_eq in *; simplify_eq/=.
  - destruct f as [[v|[d|]]| | |[]|], tw as [[]|], (token b) eqn:Et; try done; inv_cases.
  - destruct f as [[v|[d|]]| | |[]|], tw as [[]|], (token b) eqn:Et; try done; inv_cases.
  - destruct f as [[v|[d|]]| | |[]|], tw as [[]|], (token b) eqn:Et; try done; inv_cases.
  - destruct (token b) eqn:Et; [|by rewrite (park_blocks _ Et Hcn) in Hc].
    destruct (park_takes _ Et) as (b' & Eb & Et' & Ec'). rewrite Eb in Hc. rewrite Hcn in Ec'. simplify_eq/=.
    destruct f as [[v|[d|]]| | |[]|], tw as [[]|]; try done; inv_cases.
  - destruct f as [[v|[d|]]| | |[]|], tw as [[]|], (token b) eqn:Et; try done; inv_cases.
  - destruct f as [[v|[d|]]| | |[]|], tw as [[]|], (token b) eqn:Et, o as [v'|[d'|]]; try done; inv_cases.
  - destruct f as [[v|[d|]]| | |[]|], tw as [[]|], (token b) eqn:Et, o as [v'|[d'|]]; try done; inv_cases.
Qed.

Lemma inv_reach o b c : token b = false → bk_cancelled b = false → rtc step (start o [(true, b)]) c → join_inv o c.
Proof using Hao Hbk.
  intros Hb Hcn. apply rtc_invariant; [by apply inv_start|].
  intros x y _ Hi Hst. destruct Hst; [by eapply inv_fin|by eapply inv_wait].
Qed.

Lemma inv_final o c : join_inv o c → nf step c → waiters c = [mkWaiter true (WResult (join_result o))] ∧ fin c = FDone.
Proof using Hao Hbk.
  intros [(b & w & Hb & Hw & Hcn & Hp & Hd) Hs] Hn. destruct c as [[tw] st [pn] [pk] bs f ws]. simpl in *. subst.
  assert (f = FDone) as ->.
  { destruct f as [[v|[d|]]| | |i|]; try done; exfalso; apply Hn.
    all: eexists; eapply step_fin; unfold fin_step; simpl; rewrite ?take_eq; reflexivity. }
  split; [|done]. destruct w; [exfalso; apply Hn.. |by rewrite Hd].
  all: try (eexists; eapply (step_wait 0); unfold wait_step; simpl; rewrite ?take_eq; reflexivity).
  destruct (token b) eqn:Et; [|by destruct tw as [[]|]].
  destruct (park_takes _ Et) as (b' & Eb & _ & _).
  eexists; eapply (step_wait 0); unfold wait_step; simpl. rewrite Eb. reflexivity.
Qed.

(** C5: a join whose blocker holds no token, by a thread or a coroutine that is not
    cancelled, ends in every interleaving with the end of the coroutine, and returns its
    value, the data of its panic, or [Cancel] when it panicked without data. *)
Theorem join_returns_outcome o b :
  token b = false → bk_cancelled b = false →
  sn step (start o [(true, b)])
  ∧ ∀ c, rtc step (start o [(true, b)]) c → nf step c →
      waiters c = [mkWaiter true (WResult (join_result o))].
Proof using Hao Hbk.
  intros Hb Hcn. split; [apply step_sn|]. intros c Hr Hn. by eapply inv_final; [eapply inv_reach|].
Qed.
End one_joiner.

(** ** Schedules *)

(** One access of the coroutine, [None], or of a waiter. *)
Definition run_access `{AtomicOptionOps} `{BlockerOps} (c : cfg) (a : option nat) : option cfg :=
  match a with None => fin_step c | Some i => wait_step i c end.
Definition run `{AtomicOptionOps} `{BlockerOps} (sched : list (option nat)) (c : cfg) : option cfg :=
  foldl (λ o a, c ← o; run_access c a) (Some c) sched.

Section runs.
Context `{AtomicOptionOps} `{BlockerOps}.

Lemma run_none sched : foldl (λ o a, c ← o; run_access c a) None sched = None.
Proof. by induction sched. Qed.

Lemma run_cons a sched c : run (a :: sched) c = c' ← run_access c a; run sched c'.
Proof. unfold run. simpl. destruct (run_access c a); [done|]. apply run_none. Qed.

Lemma run_rtc sched c c' : run sched c = Some c' → rtc step c c'.
Proof.
  revert c. induction sched as [|a sched IH]; intros c Hr; [by injection Hr as ->|].
  rewrite run_cons in Hr. destruct (run_access c a) as [d|] eqn:E; [|done]. simpl in Hr.
  eapply rtc_l; [|by apply IH]. destruct a; [by eapply step_wait|by eapply step_fin].
Qed.

End runs.

(** Runs a schedule access by access. *)
Ltac schedule := repeat (rewrite run_cons; unfold run_access, fin_step, wait_step; simpl;
  rewrite ?take_eq, ?store_eq; simpl).

Section schedules.
Context `{Hao : AtomicOptionLaws} `{Hbk : BlockerLaws}.

Lemma nf_intro c : fin c = FDone →
  (∀ i w, waiters c !! i = Some w → match at_ w with
     | WPark => ∃ b, blockers c !! i = Some b ∧ token b = false ∧ bk_cancelled b = false
     | WReturn => joins w = false
     | WResult _ => True
     | _ => False end) → nf step c.
Proof using Hao Hbk.
  intros Hf Hw [c' Hs]. inversion Hs as [d d' Hd|i d d' Hd]; subst.
  - unfold fin_step in Hd. by rewrite Hf in Hd.
  - unfold wait_step in Hd. destruct (waiters c !! i) as [w|] eqn:E; [|done]. specialize (Hw i w E). simpl in Hd.
    destruct (at_ w); try done.
    + destruct Hw as (b & Hb & Ht & Hcn). rewrite Hb in Hd. simpl in Hd. by rewrite (park_blocks _ Ht Hcn) in Hd.
    + by rewrite Hw in Hd.
Qed.

(** C26: two threads that wait for the same coroutine overwrite each other's blocker: in
    some interleaving one of them, which nobody cancels, stays blocked after the coroutine
    has ended. *)
Theorem two_waiters_stuck o b0 b1 :
  token b0 = false → bk_cancelled b0 = false → token b1 = false →
  ∃ c, rtc step (start o [(false, b0); (false, b1)]) c ∧ nf step c
    ∧ fin c = FDone ∧ is_done c = true ∧ at_ <$> waiters c !! 0%nat = Some WPark.
Proof using Hao Hbk.
  intros Hb0 Hc0 Hb1. destruct (park_takes (bk_unpark b1) (unpark_token b1)) as (b1' & Hp & Ht & _).
  assert (∃ c, run [Some 0; Some 0; Some 0; Some 1; Some 1; Some 1; None; None; None; None; Some 1]%nat
    (start o [(false, b0); (false, b1)]) = Some c ∧ fin c = FDone ∧ state c = false
    ∧ blockers c = [b0; b1'] ∧ waiters c = [mkWaiter false WPark; mkWaiter false WReturn]) as (c & Hr & Hf & Hst & Hb & Hw).
  { unfold start. destruct o as [v|[d|]]; schedule; rewrite Hp; simpl; eexists; split; reflexivity || by split_and!. }
  exists c. split; [by eapply run_rtc|]. split; [|by unfold is_done; rewrite Hst, Hw].
  apply nf_intro; [done|]. rewrite Hw, Hb. intros [|[|]] w Hi; simplify_eq/=; [by exists b0|done].
Qed.

Lemma stale_token_cancels v b : token b = true →
  ∃ c, rtc step (start (Returns v) [(true, b)]) c ∧ nf step c
    ∧ waiters c = [mkWaiter true (WResult (Err (PError Cancel)))].
Proof using Hao Hbk.
  intros Hb. destruct (park_takes b Hb) as (b' & Hp & Ht & _).
  assert (∃ c, run [Some 0; Some 0; Some 0; Some 0; Some 0; Some 0; None; None; None; None]%nat
    (start (Returns v) [(true, b)]) = Some c ∧ fin c = FDone
    ∧ waiters c = [mkWaiter true (WResult (Err (PError Cancel)))]) as (c & Hr & Hf & Hw).
  { unfold start. schedule. rewrite Hp. simpl. schedule. eexists; split; reflexivity || by split_and!. }
  exists c. split; [by eapply run_rtc|]. split; [|done].
  apply nf_intro; [done|]. rewrite Hw. intros [|] w Hi; by simplify_eq/=.
Qed.

(** A joiner that is cancelled returns from [wait] before the coroutine has ended, since
    [wait] drops the error of [park]; its join answers [Cancel] for a coroutine that goes
    on and returns a value. *)
Theorem cancelled_join_returns_early v b :
  token b = false → bk_cancelled b = true →
  ∃ c, rtc step (start (Returns v) [(true, b)]) c ∧ is_done c = false ∧ fin c = FEnd (Returns v)
    ∧ waiters c = [mkWaiter true (WResult (Err (PError Cancel)))].
Proof using Hao Hbk.
  intros Hb Hc. destruct (park_cancelled b Hb Hc) as (b' & Hp & _).
  assert (∃ c, run [Some 0; Some 0; Some 0; Some 0; Some 0; Some 0]%nat
    (start (Returns v) [(true, b)]) = Some c ∧ state c = true ∧ fin c = FEnd (Returns v)
    ∧ waiters c = [mkWaiter true (WResult (Err (PError Cancel)))]) as (c & Hr & Hs & Hf & Hw).
  { unfold start. schedule. rewrite Hp. simpl. schedule. eexists; split; reflexivity || by split_and!. }
  exists c. split; [by eapply run_rtc|]. unfold is_done. by rewrite Hs.
Qed.

(** C27: a join can leave the token of its blocker behind: when the end of the coroutine
    takes the blocker between its registration and the second look at the state.  A
    later join with that blocker can then return [Cancel] for a coroutine that
    returns a value. *)
Theorem second_join_can_cancel v v' b :
  token b = false →
  ∃ c b', rtc step (start (Returns v) [(true, b)]) c ∧ nf step c
    ∧ waiters c = [mkWaiter true (WResult (Ok v))] ∧ blockers c = [b']
    ∧ ∃ c', rtc step (start (Returns v') [(true, b')]) c' ∧ nf step c'
        ∧ waiters c' = [mkWaiter true (WResult (Err (PError Cancel)))].
Proof using Hao Hbk.
  intros Hb. assert (∃ c, run [Some 0; Some 0; None; None; None; Some 0; Some 0; Some 0; None]%nat
    (start (Returns v) [(true, b)]) = Some c ∧ fin c = FDone ∧ blockers c = [bk_unpark b]
    ∧ waiters c = [mkWaiter true (WResult (Ok v))]) as (c & Hr & Hf & Hbs & Hw).
  { unfold start. schedule. eexists; split; reflexivity || by split_and!. }
  exists c, (bk_unpark b). split; [by eapply run_rtc|]. split; [|split; [done|]; split; [done|]].
  - apply nf_intro; [done|]. rewrite Hw. intros [|] w Hi; by simplify_eq/=.
  - apply stale_token_cancels, unpark_token.
Qed.
End schedules.

(** ** The end of a coroutine as one call *)

(** [Done::drop_coroutine]: the process exits on an overflow of the stack, a coroutine
    of the default size goes back to the pool. *)
Inductive dropped := DExit (code : Z) | DPooled | DFreed.

Definition drop_coroutine (stack_usage : Z * Z) (config_stack_size : Z) : dropped :=
  let '(size, used) := stack_usage in
  if used =? size then DExit 1
  else if size =? config_stack_size then DPooled
  else DFreed.

(** [EventSource] of [Done] *)
Definition done_subscribe (stack_usage : Z * Z) (config_stack_size : Z) : dropped :=
  drop_coroutine stack_usage config_stack_size.

(** A coroutine that is resumed for the last time: it hands back the subscriber of
    [spawn_impl], after its closure ran, or [None] and the data of its panic. *)
Definition resume (o : outcome) : option () := match o with Returns _ => Some () | Panics _ => None end.
Definition get_panic_data (o : outcome) : option Z := match o with Returns _ => None | Panics d => d end.

Section run_coroutine.
Context `{AtomicOptionOps} `{BlockerOps}.

Definition trigger (c : cfg) : cfg :=
  let c := set_state false c in
  let '(o, t) := ao_take (to_wake c) in
  let c := set_wake t c in
  match o with
  | Some b => default c ((λ x, set_blocker b (bk_unpark x) c) <$> (blockers c !! b))
  | None => c
  end.

(** The closure of [spawn_impl], for a function that returns [v]. *)
Definition spawn_closure (v : Z) (c : cfg) : cfg := trigger (set_packet (ao_store v (packet c)) c).

Definition run_coroutine (o : outcome) (usage : Z * Z) (config : Z) (c : cfg) : cfg * dropped :=
  let c := match o with Returns v => spawn_closure v c | Panics _ => c end in
  match resume o with
  | Some _ => (c, done_subscribe usage config)
  | None =>
      let c := match get_panic_data o with Some d => set_panic_data d c | None => c end in
      (trigger c, drop_coroutine usage config)
  end.

(** [JoinHandle::join] when the coroutine has ended. *)
Definition join_done (c : cfg) : result Z payload :=
  match fst (ao_take (packet c)) with
  | Some v => Ok v
  | None => Err (from_option PData (PError Cancel) (fst (ao_take (panic_ c))))
  end.
End run_coroutine.

Section run_laws.
Context `{Hao : AtomicOptionLaws} `{Hbk : BlockerLaws}.

Lemma trigger_set_fin f c : set_fin FDone (trigger (set_fin f c)) = set_fin FDone (trigger c).
Proof using Hao.
  unfold trigger. simpl. rewrite take_eq. destruct (inner (to_wake c)) as [b|]; simpl; [|done].
  by destruct (blockers c !! b).
Qed.

(** C23: the accesses of the coroutine in [step], without interruption, are the call of
    [run_coroutine]; it marks the join as done, and a join after it returns what the
    coroutine ended with. *)
Theorem run_coroutine_steps o usage config c :
  fin c = FEnd o → inner (packet c) = None → inner (panic_ c) = None →
  let c' := fst (run_coroutine o usage config c) in
  (∃ n, run (replicate n None) c = Some (set_fin FDone c'))
  ∧ is_done c' = true ∧ inner (to_wake c') = None ∧ join_done c' = join_result o.
Proof using Hao.
  intros Hf Hpk Hpn. destruct c as [[tw] st [pn] [pk] bs f ws]. simpl in *. subst.
  assert (∀ c, fin c = FState → ∃ n, run (replicate n None) c = Some (set_fin FDone (trigger c))) as Ht.
  { intros [[t] st' pn' pk' bs' f' ws'] Hf'. simpl in Hf'. subst. unfold trigger. simpl. rewrite take_eq.
    exists (match t with Some _ => 3 | None => 2 end)%nat.
    destruct t as [b|]; simpl replicate; schedule; [|done]. by destruct (bs' !! b). }
  split.
  - destruct o as [v|[d|]]; unfold run_coroutine, spawn_closure; cbn [resume get_panic_data fst].
    all: match goal with |- ∃ n, run _ _ = Some (set_fin FDone (trigger ?e)) => 
      destruct (Ht (set_fin FState e) eq_refl) as [n Hn] end.
    all: exists (S n); simpl replicate; rewrite run_cons; etrans; [exact Hn|]; by rewrite trigger_set_fin.
  - destruct o as [v|[d|]]; simpl; unfold spawn_closure, trigger, join_done, set_panic_data; simpl;
      rewrite !take_eq, ?store_eq; destruct tw as [b|]; simpl; rewrite ?take_eq; simpl; try done.
    all: destruct (bs !! b); simpl; rewrite ?take_eq; done.
Qed.
End run_laws.

(** ** Witnesses *)

Module Example_join.
Import Example_park.

(** A blocker of a thread, by the sections of [ThreadPark].  One of a coroutine uses a
    field that the sources leave alone as the mark that the coroutine is cancelled. *)
#[export] Instance thread_blocker : BlockerOps := {|
  bk_cancelled b := match parker b with PThread _ => false | PCoroutine p => wait_kernel p end;
  bk_park b := match parker b with
               | PThread t => match park_section t (Ok ()) with
                              | (t, Returned r) => Some (r, mkBlocker (PThread t))
                              | _ => None
                              end
               | PCoroutine p =>
                   if pk_state p || wait_kernel p then
                     Some (if pk_state p then Ok () else Err Cancelled, mkBlocker (PCoroutine
                       (mkPark (wait_coroutine p) false (check_cancel_flag p) (timeout p) (timeout_handle p) (wait_kernel p))))
                   else None
               end;
  bk_unpark b := match parker b with
                 | PThread t => mkBlocker (PThread (fst (tp_unpark t)))
                 | PCoroutine p => mkBlocker (PCoroutine (the_park (unpark (mkWorld ∅ p cancel_new []))))
                 end;
|}.

#[export] Instance thread_blocker_laws : BlockerLaws.
Proof.
  split; [done|..]; intros [[[sl [] cc t th []]|[l]]]; unfold token; simpl; unfold park_section, tp_unpark; simpl;
    try done; try (by eexists); destruct (Z.eqb_spec l 0) as [->|E]; simpl; try done; try (by eexists).
  by rewrite (proj2 (Z.eqb_neq _ _) E).
Qed.

Definition fresh_blocker : Blocker := mkBlocker (PThread tp_new).
End Example_join.

Import Example_park Example_join.

Lemma join_returns_outcome_witness :
  sn step (start (Panics (Some 7)) [(true, fresh_blocker)])
  ∧ ∀ c, rtc step (start (Panics (Some 7)) [(true, fresh_blocker)]) c → nf step c →
      waiters c = [mkWaiter true (WResult (join_result (Panics (Some 7))))].
Proof. apply (join_returns_outcome (Panics (Some 7)) fresh_blocker); reflexivity. Defined.

Lemma two_waiters_stuck_witness :
  ∃ c, rtc step (start (Returns 5) [(false, fresh_blocker); (false, fresh_blocker)]) c ∧ nf step c
    ∧ fin c = FDone ∧ is_done c = true ∧ at_ <$> waiters c !! 0%nat = Some WPark.
Proof. apply (two_waiters_stuck (Returns 5) fresh_blocker fresh_blocker); reflexivity. Defined.

Lemma second_join_can_cancel_witness :
  ∃ c b', rtc step (start (Returns 5) [(true, fresh_blocker)]) c ∧ nf step c
    ∧ waiters c = [mkWaiter true (WResult (Ok 5))] ∧ blockers c = [b']
    ∧ ∃ c', rtc step (start (Returns 6) [(true, b')]) c' ∧ nf step c'
        ∧ waiters c' = [mkWaiter true (WResult (Err (PError Cancel)))].
Proof. apply (second_join_can_cancel 5 6 fresh_blocker). reflexivity. Defined.

Lemma run_coroutine_steps_witness :
  let c := start (Returns 5) [(true, fresh_blocker)] in
  let c' := fst (run_coroutine (Returns 5) (64, 8) 64 c) in
  (∃ n, run (replicate n None) c = Some (set_fin FDone c'))
  ∧ is_done c' = true ∧ inner (to_wake c') = None ∧ join_done c' = join_result (Returns 5).
Proof. apply (run_coroutine_steps (Returns 5) (64, 8) 64 (start (Returns 5) [(true, fresh_blocker)])); reflexivity. Defined.
